(* ===== verification/_CoqProject ===== *)
-Q . S2P
Prelude.v
Extent.v
ExtMap.v
ExtMapShape.v
ExtMapFlat.v
ExtMapUpdate.v
ExtMapSpec.v
Bytes.v
Memory.v
SmartIov.v
LsvdTypes.v
Backend.v
Objects.v
Serialise.v
DataObject.v
Config.v
Translate.v
Accounting.v
Pipeline.v
Completion.v
Refine.v
Gc.v
Collector.v
Journal.v
WriteCache.v
WriteRing.v
WriteLog.v
WriteOpen.v
WriteFlush.v
ReadPath.v
ReadSpec.v
ImageRead.v
Image.v
Recovery.v
Reopen.v
Manage.v
ReadCache.v
ReadClock.v
ReadCoherence.v
ReadSteps.v
ReadMake.v
ReadRefine.v
ReadShards.v
ReadRequest.v
Settled.v
CachedRead.v
ImageWrite.v
ImageInv.v
ImageRefine.v
Durable.v
Close.v
Rbd.v
