(* ===== verification/Prelude.v ===== *)
(** * LSVD: a log-structured virtual disk, verified

    The program (src/src, C++) serves a virtual disk whose contents are a log of
    immutable objects in an object store (RADOS), with a write log and a read
    cache in local files.  This library models its core as executable functions
    and step relations and proves what makes it correct.  Every file opens with a
    comment on its part.

    ** How the program works

    A client opens an image (image.cc, through librbd's interface in liblsvd.cc
    and spdk_wrap.cc).  A write is cut into chunks; each chunk is appended to the
    write log (write_cache.cc) and handed to the translation layer (translate.cc),
    which collects chunks in a batch, gives a full batch a sequence number, enters
    it in the object map and sends it to the object store (rados_backend.cc).  A
    read looks its sectors up in the buffer map (batches still in memory) and in the
    object map, and reads objects through the read cache (shared_read_cache.cc).  Both
    maps are extent maps (extent.h).  Checkpoints save the object map; the garbage
    collector moves live sectors out of old objects; opening an image reads the
    superblock, the last checkpoint and the data objects after it.

    ** Which file models what

    - Data and memory.  Extent: extents and their bit fields.  ExtMap, ExtMapShape,
      ExtMapFlat, ExtMapUpdate, ExtMapSpec: the extent map of extent.h as the list of
      lists that it is, its representation invariant, and the interface [LbaMap]
      against which its clients are proved.  Bytes: packed structures ([Codec]).
      Memory, SmartIov: an explicit heap, and smartiov.h over it.  LsvdTypes, Config:
      lsvd_types.h, config.cc.
    - The object store and its formats.  Backend: rados_backend.cc over the class
      [Rados].  Objects, Serialise: objects.h, objects.cc.  DataObject: the headers
      that translate.cc writes.
    - The translation layer.  Translate: the state ([omap], [pipeline], [xstate]) and
      the operations of translate.cc.  Accounting: the live counts.  Pipeline and
      Completion: the invariant that relates the state to a disk.  Refine: the step
      relation and the refinement theorem, without garbage collection.  Gc: a cycle of
      the collector.  Collector: the layer with the collector's thread beside it.
    - The write log.  Journal: journal.h.  WriteCache: the state and operations of
      write_cache.cc.  WriteRing, WriteLog, WriteOpen, WriteFlush: the allocator, the
      records, opening and closing, and flush.
    - The image.  ReadPath, ReadSpec, ImageRead: [handle_reads].  ReadRequest: read
      requests.  Settled: objects that no longer change.  CachedRead: read requests on
      the shards of the read cache, while the layer goes on.  ImageWrite, ImageInv,
      ImageRefine: write requests, interleaved with each other and with the
      translation layer.  Durable: what they leave in the file of the log.  Image,
      Recovery, Reopen, Manage: opening, recovery, creation and deletion.  Close:
      the destructor, and opening what it leaves.
    - The read cache.  ReadCache: the state and critical sections of
      shared_read_cache.cc.  ReadClock, ReadCoherence, ReadSteps, ReadMake,
      ReadRefine: eviction, the coherence invariant and the refinement of one shard.
      ReadShards: the shards of a process on its memory.
    - The librbd interface.  Rbd: request.h, spdk_wrap.cc and parts of liblsvd.cc.

    State is a record with the fields of the class, code under a lock is one
    function, and concurrency is an inductive step relation over those functions,
    in any order.  [None] is a failed assertion, an access outside an allocation, an
    index out of range or (where the file says so) a thread that waits; exceptions
    are [Throw] of [outcome].  Integers are [Z], wrapped where the code stores them in
    a narrower field.

    ** The collector

    The collector's thread runs by default in the program.  [Refine.step] is the
    layer without it: no step there puts a collection request on the queue, reaps or
    deletes the objects of a cycle, and what is built on it ([image_refines_disk],
    [close_and_reopen], [acknowledged_write_in_log], [flush_makes_durable],
    [translation_no_fault], ...) speaks of images whose collector does not run.
    [Collector.cstep] has all the steps of [Refine.step] and those of [do_gc], in any
    order, with the collection requests among the others in the queue and their PUTs
    among the others outstanding.  [collector_refines_disk], [gc_delete_safe],
    [stored_objects_immutable] and [cached_read_completes] are about it.  Two things
    that the code leaves open are visible in their statements.  While the PUT of a
    collection object is outstanding its sectors are not readable
    ([gc_read_window]).  Nothing pins the objects of a read ([object_read_start] is
    never called), so a read can find an object deleted, and [cached_read_completes]
    has the condition [objects_there].  A third is a condition of the step that
    starts a cycle, [gc_ready]: the chosen objects have arrived, with the sizes that
    [object_info] gives (at most 2^21 sectors).  The code does not check it, and [gc_plan_unarrived] shows what it copies otherwise.

    ** What is atomic

    [process_batch], [write_checkpoint], [reap] and [gc_plan] are one step each.  The
    code releases its locks inside them: [write_checkpoint] makes several writes to
    the backend, so a crash between the checkpoint and the superblock, or a trim
    between the two, is not a state of the model; the collector plans and reads
    objects without a lock.  Everything between these steps interleaves.

    ** What is proved

    - Refinement.  The extent map computes the partial function it stands for
      ([update_correct], [trim_correct], [lookup_correct]).  The translation layer is
      a disk, under every interleaving of writes, trims, batch submission, the worker
      thread and completions ([translation_refines_disk]), and so is the image with
      its requests in any state of progress ([image_refines_disk],
      [read_request_completes]).  With the collector running no data is lost
      ([collector_refines_disk]).  The read cache returns the bytes of the objects
      ([read_cache_refines]).  A read of the image through the sharded cache, among
      other readers and writers and beside the collector, returns the disk as long as its
      objects have not been deleted ([cached_read_completes]).  A checkpoint is
      recovered exactly ([reopen_from_checkpoint]), and an image that is closed and
      opened again is the same disk ([close_and_reopen]).
    - Safety and invariants. No operation of the translation layer faults inside the
      limits of the formats ([translation_no_fault]); a stored object is never
      overwritten and is deleted only when no sector is mapped into it
      ([stored_objects_immutable]); a flush makes durable ([flush_makes_durable]);
      live counts are exact ([batch_accounting], [trim_accounting]); the collector
      only deletes what neither the map nor the newest checkpoint refers to
      ([gc_cycle_moves_everything], [reap_safe], [gc_delete_safe]); records of the
      log never overlap and can be read back ([log_ring_disjoint], [log_chained],
      [log_readable]); the throttle of the log is exact ([write_room_exact]); a
      write is acknowledged once and after its log writes ([write_acknowledged]),
      and then its data is in the log's file ([acknowledged_write_in_log]);
      completions are neither used after they are freed nor leaked
      ([completion_lifetime]) and each is polled once ([polled_once]).
    - Termination: the clock ([clock_terminates]), a write that runs alone
      ([write_submit_total]), the read cache's requests ([read_cache_drains]), and a
      read request among others ([cached_read_completes]).
    - Round trips of the stored formats, and the chunks of a write as one write
      ([chunks_write_whole]).
    - Errors: what the code does where it goes wrong ([apply_log_correct],
      [checkpoint_ahead_of_data], [batch_header_underflow], [read_blocks_iff] and
      others that are not properties: [throttle_allows_overrun],
      [flush_waits_forever], [crash_forgets_log], [gc_read_window],
      [delete_image_leaves_data], [create_new_recovers],
      [empty_write_never_completes], [wait_release_leaks]).

    ** Parameters and hypotheses

    librados is the class [Rados] with the laws [RadosOk] (documented behaviour of a
    pool that does not fail, instantiated by a map of objects); the JSON library and
    the file system are parameters of Config; CRC-32 and the insertion of an object
    in the read cache are functions that the translation layer is given.  The
    theorems on the layer assume [cfg_ok] (batches of 2 MiB to 256 MiB, whole
    sectors), requests of at least a page inside a volume of at most [VOL_LIMIT]
    (2^35) sectors, sequence numbers below 2^31 and checkpoints of less
    than 2 GiB ([ckpt_fits]), the widths of the formats;
    [batch_header_underflow] shows what happens with smaller requests.  A client does
    not change the memory of a write before its callback, nor use the memory of a
    read.  A collection request whose header does not fit in front of its data is a
    fault of [write_gc] (the code would write outside its buffer).  The differences
    [limit - off] of SmartIov are truncated at 0, where the code's would wrap; no
    caller has [limit] below [off].  In Rbd a client releases a completion once, not while one of its threads
    waits, and when it polls, after it has been given the completion.

    ** Fuel

    Loops over the extent map and over a read are given fuel that bounds the sectors
    or extents left, the clock two turns, the chunks of a write its sectors; the
    theorems say that these are enough, since they state that a result is returned.

    ** Not modelled

    SPDK glue (bdev_lsvd*.cc, spdk_frontend.cc, lsvd_tgt.cc), the command-line tools
    (imgtool.cc, thick-image.cc), the debug interface (lsvd_debug.cc), logging and
    error macros (utils.h), the declarations of fake_rbd.h, and io_uring itself:
    nvme.cc is modelled by the completion of a request with some number of bytes.
    Of translate.cc the timers of the flush and collector threads, and the wait for
    them in shutdown, are left out (a cycle of the collector starts at any time, and
    it may stop at any step); [flush_tick] is atomic although the code does not take the lock there.
    Of the read cache the statistics thread, of liblsvd.cc the entry points that
    return an error or are UNIMPLEMENTED(), the getters, and the sleep of rbd_close.
    Replay of the write log does not exist in the program. *)

From stdpp Require Export base tactics numbers list option gmap strings.
From Stdlib Require Export Lia ZArith.

#[global] Open Scope Z_scope.
#[global] Set Default Goal Selector "!".
#[global] Arguments Nat.div : simpl never.
#[global] Arguments Z.div : simpl never.
#[global] Arguments Z.modulo : simpl never.
#[global] Arguments Z.pow : simpl never.

(** ** Machine integers

    A [w]-bit unsigned value is a [Z] reduced modulo [2^w]; a [w]-bit signed
    value is the two's-complement representative in [-2^(w-1), 2^(w-1)).  The
    C++ sources store most quantities in bit fields, so every store goes
    through one of these two functions. *)

Definition wrap_u (w : Z) (z : Z) : Z := z mod 2 ^ w.
Definition wrap_s (w : Z) (z : Z) : Z :=
  (z + 2 ^ (w - 1)) mod 2 ^ w - 2 ^ (w - 1).

Lemma wrap_u_id w z : 0 ≤ z < 2 ^ w → wrap_u w z = z.
Proof. intros. unfold wrap_u. by rewrite Z.mod_small. Qed.

Lemma wrap_u_range w z : 0 ≤ w → 0 ≤ wrap_u w z < 2 ^ w.
Proof. intros. unfold wrap_u. apply Z.mod_pos_bound. lia. Qed.

Lemma pow2_half w : 0 < w → 2 ^ w = 2 * 2 ^ (w - 1).
Proof.
  intros. replace w with (Z.succ (w - 1)) at 1 by lia.
  by rewrite Z.pow_succ_r by lia.
Qed.

Lemma wrap_s_id w z : 0 < w → - 2 ^ (w - 1) ≤ z < 2 ^ (w - 1) → wrap_s w z = z.
Proof.
  intros Hw Hz. unfold wrap_s. rewrite Z.mod_small; [lia|].
  rewrite (pow2_half w) by lia. lia.
Qed.

Lemma wrap_s_range w z :
  0 < w → - 2 ^ (w - 1) ≤ wrap_s w z < 2 ^ (w - 1).
Proof.
  intros Hw. unfold wrap_s.
  pose proof (Z.mod_pos_bound (z + 2 ^ (w - 1)) (2 ^ w) ltac:(lia)) as Hb.
  rewrite (pow2_half w) in Hb |- * by lia. lia.
Qed.

(** ** Failure

    [None] stands for an execution the C++ program does not have: a failed
    [assert], an index out of range, or a dereferenced end iterator.  The
    operations of the extent map live in the option monad of stdpp, and the
    theorems show that [None] never arises from a well-formed map. *)

Definition assert (b : bool) : option unit := if b then Some tt else None.

Lemma assert_true b : b = true → assert b = Some tt.
Proof. by intros ->. Qed.

(** Code that can throw returns an [outcome]: a value, a C++ exception, or
    [Fault] for an execution outside the language (an access out of range). *)

Inductive outcome (A : Type) :=
| Ret (a : A)
| Throw
| Fault.
Arguments Ret {A} _.
Arguments Throw {A}.
Arguments Fault {A}.

#[export] Instance outcome_ret : MRet outcome := λ A a, Ret a.
#[export] Instance outcome_bind : MBind outcome := λ A B f m,
  match m with Ret a => f a | Throw => Throw | Fault => Fault end.

(** An access that may be out of range. *)
Definition checked {A} (o : option A) : outcome A :=
  match o with Some a => Ret a | None => Fault end.

(** [THROW_MSG_ON], [THROW_ERRNO_ON], [check_cond] *)
Definition throw_on (b : bool) : outcome unit := if b then Throw else Ret tt.

(** ** Lists *)

Definition sum_list_Z (l : list Z) : Z := foldr Z.add 0 l.

Lemma sum_list_Z_app l k : sum_list_Z (l ++ k) = sum_list_Z l + sum_list_Z k.
Proof. induction l as [|x l IH]; simpl in *; lia. Qed.

Lemma lookup_split {A} (l : list A) i x :
  l !! i = Some x → ∃ l1 l2, l = l1 ++ x :: l2 ∧ length l1 = i.
Proof.
  intros H. exists (take i l), (drop (S i) l). split.
  - symmetry. by apply take_drop_middle.
  - apply length_take_le. apply lookup_lt_Some in H. lia.
Qed.

Lemma insert_middle {A} (l1 l2 : list A) x y i :
  i = length l1 → <[i:=y]> (l1 ++ x :: l2) = l1 ++ y :: l2.
Proof. intros ->. rewrite insert_app_r_alt by lia. by rewrite Nat.sub_diag. Qed.

Lemma lookup_middle {A} (l1 l2 : list A) x i :
  i = length l1 → (l1 ++ x :: l2) !! i = Some x.
Proof. intros ->. by apply list_lookup_middle. Qed.

Lemma delete_middle' {A} (l1 l2 : list A) x i :
  i = length l1 → delete i (l1 ++ x :: l2) = l1 ++ l2.
Proof. intros ->. apply delete_middle. Qed.

(** [std::vector::insert] at an index. *)
Definition list_insert_at {A} (i : nat) (x : A) (l : list A) : list A :=
  take i l ++ x :: drop i l.

Lemma list_insert_at_app {A} (l1 l2 : list A) x i :
  i = length l1 → list_insert_at i x (l1 ++ l2) = l1 ++ x :: l2.
Proof.
  intros ->. unfold list_insert_at. by rewrite take_app_length, drop_app_length.
Qed.

(** [std::lower_bound] on a range partitioned by [lt]: the index of the first
    element for which [lt] is false. *)
Fixpoint std_lower_bound {A} (lt : A → bool) (l : list A) : nat :=
  match l with
  | [] => 0
  | x :: l => if lt x then S (std_lower_bound lt l) else 0
  end.

Lemma std_lower_bound_split {A} (lt : A → bool) (l : list A) :
  ∃ l1 l2, l = l1 ++ l2 ∧ length l1 = std_lower_bound lt l ∧
    Forall (λ x, lt x = true) l1 ∧
    (∀ y, head l2 = Some y → lt y = false).
Proof.
  induction l as [|x l (l1 & l2 & -> & Hlen & Hl1 & Hl2)]; simpl.
  - exists [], []. repeat split; try done; by constructor.
  - destruct (lt x) eqn:Hx.
    + exists (x :: l1), l2. repeat split; simpl; auto.
    + exists [], (x :: l1 ++ l2). repeat split; simpl; auto. by intros y [= <-].
Qed.

(** ** Ranges *)

(** Disjoint ranges [(base, length)] in ascending order inside [lo, hi). *)
Fixpoint ascending (lo hi : Z) (rs : list (Z * Z)) : Prop :=
  match rs with
  | [] => lo ≤ hi
  | (b, n) :: rs => lo ≤ b ∧ 0 < n ∧ ascending (b + n) hi rs
  end.

Lemma ascending_le lo hi rs : ascending lo hi rs → lo ≤ hi.
Proof.
  revert lo. induction rs as [|[b n] rs IH]; simpl; [done|]. intros lo (? & ? & ?%IH). lia.
Qed.

Lemma ascending_weaken lo lo' hi rs : lo' ≤ lo → ascending lo hi rs → ascending lo' hi rs.
Proof. destruct rs as [|[b n] rs]; simpl; [lia|]. intros ? (? & ? & ?). split_and!; auto; lia. Qed.

Lemma ascending_app lo mid hi r1 r2 :
  ascending lo mid r1 → ascending mid hi r2 → ascending lo hi (r1 ++ r2).
Proof.
  revert lo. induction r1 as [|[b n] r1 IH]; simpl; intros lo.
  - intros ?. by apply ascending_weaken.
  - intros (? & ? & ?) ?. split_and!; auto.
Qed.

Lemma ascending_range lo hi rs i b n :
  ascending lo hi rs → rs !! i = Some (b, n) → lo ≤ b ∧ 0 < n ∧ b + n ≤ hi.
Proof.
  revert lo i. induction rs as [|[b' n'] rs IH]; intros lo i; simpl; [done|].
  intros (? & ? & Hasc). destruct i as [|i]; simpl.
  - intros [= <- <-]. apply ascending_le in Hasc. lia.
  - intros Hi. destruct (IH _ _ Hasc Hi). lia.
Qed.

(** Ranges of the list do not overlap. *)
Lemma ascending_disjoint lo hi rs i j b n b' n' :
  ascending lo hi rs → (i < j)%nat → rs !! i = Some (b, n) → rs !! j = Some (b', n') →
  b + n ≤ b'.
Proof.
  revert lo i j. induction rs as [|[b0 n0] rs IH]; intros lo i j; simpl; [done|].
  intros (? & ? & Hasc) Hij. destruct j as [|j]; [lia|]. destruct i as [|i]; simpl.
  - intros [= <- <-] Hj. destruct (ascending_range _ _ _ _ _ _ Hasc Hj). lia.
  - apply (IH _ _ _ Hasc). lia.
Qed.

(** ** Automation *)

(** Split boolean tests of the code into arithmetic facts. *)
Ltac zb :=
  repeat match goal with
  | H : (_ =? _)%Z = true |- _ => apply Z.eqb_eq in H
  | H : (_ =? _)%Z = false |- _ => apply Z.eqb_neq in H
  | H : (_ <? _)%Z = true |- _ => apply Z.ltb_lt in H
  | H : (_ <? _)%Z = false |- _ => apply Z.ltb_ge in H
  | H : (_ <=? _)%Z = true |- _ => apply Z.leb_le in H
  | H : (_ <=? _)%Z = false |- _ => apply Z.leb_gt in H
  | H : (_ =? _)%nat = true |- _ => apply Nat.eqb_eq in H
  | H : (_ =? _)%nat = false |- _ => apply Nat.eqb_neq in H
  | H : (_ <? _)%nat = true |- _ => apply Nat.ltb_lt in H
  | H : (_ <? _)%nat = false |- _ => apply Nat.ltb_ge in H
  | H : (_ <=? _)%nat = true |- _ => apply Nat.leb_le in H
  | H : (_ <=? _)%nat = false |- _ => apply Nat.leb_gt in H
  | H : (_ && _)%bool = true |- _ => apply andb_true_iff in H as [? ?]
  | H : (_ || _)%bool = false |- _ => apply orb_false_iff in H as [? ?]
  | H : (_ && _)%bool = false |- _ =>
      apply andb_false_iff in H;
      rewrite ?Z.eqb_neq, ?Z.ltb_ge, ?Z.leb_gt,
        ?Nat.eqb_neq, ?Nat.ltb_ge, ?Nat.leb_gt in H
  | H : negb _ = true |- _ => apply negb_true_iff in H
  | H : negb _ = false |- _ => apply negb_false_iff in H
  end.

(** Case analysis on the first conditional of the goal. *)
Ltac case_if :=
  match goal with
  | |- context [if ?b then _ else _] => destruct b eqn:?; zb
  end.

(** Lengths of lists, normalised for [lia]. *)
Create Rewrite HintDb lsvd_len.
#[export] Hint Rewrite @length_app @length_cons @length_nil @length_fmap
  @length_map @length_take @length_drop @length_insert @length_replicate : lsvd_len.

Ltac len := autorewrite with lsvd_len in *; simpl length in *; try lia.

(** Run one step of an option computation whose head is known. *)
Ltac run H := rewrite H; simpl.

(** ** Sums over maps *)

Definition msum {A} (f : A → Z) (m : gmap Z A) : Z := sum_list_Z (f ∘ snd <$> map_to_list m).

#[export] Instance sum_list_Z_perm : Proper ((≡ₚ) ==> (=)) sum_list_Z.
Proof. induction 1; simpl; lia. Qed.

Lemma msum_new {A} (f : A → Z) m i x : m !! i = None → msum f (<[i := x]> m) = f x + msum f m.
Proof. intros Hi. unfold msum. by rewrite (map_to_list_insert m i x Hi). Qed.

Lemma msum_update {A} (f : A → Z) m i x y :
  m !! i = Some x → msum f (<[i := y]> m) = msum f m - f x + f y.
Proof.
  intros Hi. rewrite <- (insert_delete_id m i x Hi) at 2.
  rewrite <- insert_delete_eq, !msum_new by apply lookup_delete_eq. lia.
Qed.

Lemma msum_nonneg {A} (f : A → Z) m : (∀ x, 0 ≤ f x) → 0 ≤ msum f m.
Proof.
  intros Hf. unfold msum. induction (map_to_list m) as [|v l IH]; simpl; [lia|].
  apply Z.add_nonneg_nonneg; [apply Hf|exact IH].
Qed.

Lemma msum_zero {A} (f : A → Z) m : (∀ i x, m !! i = Some x → f x = 0) → msum f m = 0.
Proof.
  intros Hf. unfold msum. assert (∀ v, v ∈ map_to_list m → f v.2 = 0) as Hl.
  { intros [i x] Hv%elem_of_map_to_list. by apply (Hf i). }
  clear Hf. induction (map_to_list m) as [|v l IH]; [done|].
  rewrite fmap_cons. change (sum_list_Z (?a :: ?k)) with (a + sum_list_Z k).
  rewrite IH by (intros; apply Hl; by right). unfold compose at 1. rewrite Hl by left. done.
Qed.
