(* ===== verification/Extent.v ===== *)
(** * Extents (src/src/extent.h, first half)

    The structures stored in the extent maps and the wrapper [_extent] around
    them.  The four C++ instantiations of [_extent] share one record here; what
    distinguishes them (the widths of their bit fields and the arithmetic on
    their pointers) is the class [Layout].  [LayoutOk] states, for extents that
    stay within a window, that no store truncates.

    Two layouts are instantiated, those of the maps the program uses:
    [_lba2obj] (objmap, LBA to object and offset) and [_lba2buf] (bufmap, LBA to
    memory).  A [char *] is an allocation and a byte offset into it. *)

From S2P Require Import Prelude.

(** ** Pointers *)

(** [struct obj_offset]: two signed bit fields of 36 and 28 bits. *)
Record obj_offset := mk_obj_offset { obj : Z; offset : Z }.

#[export] Instance obj_offset_eq_dec : EqDecision obj_offset.
Proof. solve_decision. Defined.

Module ObjOffset.
(** The braced initialiser [{obj, offset}]. *)
Definition make (o off : Z) : obj_offset :=
  mk_obj_offset (wrap_s 36 o) (wrap_s 28 off).
(** [operator+] and [operator+=]; the argument is an [int]. *)
Definition add (p : obj_offset) (val : Z) : obj_offset :=
  mk_obj_offset (obj p) (wrap_s 28 (offset p + wrap_s 32 val)).
(** [operator==] *)
Definition eqb (p q : obj_offset) : bool :=
  (obj p =? obj q) && (offset p =? offset q).
(** [operator<] *)
Definition ltb (p q : obj_offset) : bool :=
  if obj p =? obj q then offset p <? offset q else obj p <? obj q.
(** [operator>] *)
Definition gtb (p q : obj_offset) : bool :=
  if obj p =? obj q then offset q <? offset p else obj q <? obj p.
(** [operator>=] *)
Definition geb (p q : obj_offset) : bool :=
  if obj p =? obj q then offset q <=? offset p else obj q <=? obj p.
(** [operator<=] *)
Definition leb (p q : obj_offset) : bool :=
  if obj p =? obj q then offset p <=? offset q else obj p <=? obj q.
(** [operator-]; meaningless across objects. *)
Definition sub (p q : obj_offset) : Z := wrap_s 32 (offset p - offset q).
End ObjOffset.

(** [struct sector_ptr]: a [char *], as an allocation and an offset. *)
Record sector_ptr := mk_sector_ptr { buf : Z; byte_off : Z }.

#[export] Instance sector_ptr_eq_dec : EqDecision sector_ptr.
Proof. solve_decision. Defined.

Module SectorPtr.
(** [operator+] and [operator+=]: advance by [val] sectors. *)
Definition add (p : sector_ptr) (val : Z) : sector_ptr :=
  mk_sector_ptr (buf p) (byte_off p + wrap_s 32 (wrap_s 32 val * 512)).
(** [operator==] *)
Definition eqb (p q : sector_ptr) : bool :=
  (buf p =? buf q) && (byte_off p =? byte_off q).
(** [operator-], in sectors, within one allocation. *)
Definition sub (p q : sector_ptr) : Z :=
  wrap_s 32 ((byte_off p - byte_off q) ÷ 512).
End SectorPtr.

(** ** Layouts *)

(** What an instantiation of [_extent] adds to the shared code: the bit fields
    [base], [len] and [ptr] are assigned through, and the pointer arithmetic. *)
Class Layout (P : Type) := {
  fld_base : Z → Z;
  fld_len : Z → Z;
  fld_ptr : P → P;
  p_add : P → Z → P;
  p_eqb : P → P → bool;
}.

(** [struct _lba2obj] *)
#[export] Instance lba2obj_layout : Layout obj_offset := {|
  fld_base := wrap_s 38;
  fld_len := wrap_s 24;
  fld_ptr := id;
  p_add := ObjOffset.add;
  p_eqb := ObjOffset.eqb;
|}.

(** [struct _lba2buf] *)
#[export] Instance lba2buf_layout : Layout sector_ptr := {|
  fld_base := wrap_u 38;
  fld_len := wrap_u 24;
  fld_ptr := id;
  p_add := SectorPtr.add;
  p_eqb := SectorPtr.eqb;
|}.

(** Sector addresses the signed 38-bit base can hold. *)
Definition LBA_LIMIT : Z := 2 ^ 37.

(** [span_ok p n]: [n] sectors from [p] stay inside one object or buffer that
    is small enough for the bit fields.  The laws are what the map relies on. *)
Class LayoutOk (P : Type) `{Layout P} := {
  span_ok : P → Z → Prop;
  fld_base_id b : 0 ≤ b < LBA_LIMIT → fld_base b = b;
  fld_len_id p n : span_ok p n → fld_len n = n;
  fld_ptr_id p n : span_ok p n → fld_ptr p = p;
  span_sub p n d m :
    span_ok p n → 0 ≤ d → 0 ≤ m → d + m ≤ n → span_ok (p_add p d) m;
  span_app p n m :
    span_ok p n → 0 ≤ n → 0 ≤ m → span_ok (p_add p n) m → span_ok p (n + m);
  p_add_0 p n : span_ok p n → p_add p 0 = p;
  p_add_add p n a b :
    span_ok p n → 0 ≤ a → 0 ≤ b → a + b ≤ n →
    p_add (p_add p a) b = p_add p (a + b);
  p_add_back p n : span_ok p n → 0 ≤ n → p_add (p_add p n) (- n) = p;
  p_eqb_eq p q : p_eqb p q = true ↔ p = q;
}.
#[export] Hint Mode LayoutOk ! - : typeclass_instances.

(** Objects of fewer than [2^23] sectors (4 GiB): then neither the signed
    24-bit length nor the signed 28-bit offset overflows. *)
Definition OBJ_LIMIT : Z := 2 ^ 23.
Definition obj_span_ok (p : obj_offset) (n : Z) : Prop :=
  0 ≤ offset p ∧ 0 ≤ n ∧ offset p + n < OBJ_LIMIT.

(** Buffers of less than 2 GiB: then the [int] product [val * 512] of
    [sector_ptr::operator+] does not overflow. *)
Definition BUF_LIMIT : Z := 2 ^ 31.
Definition buf_span_ok (p : sector_ptr) (n : Z) : Prop :=
  0 ≤ byte_off p ∧ 0 ≤ n ∧ byte_off p + 512 * n < BUF_LIMIT.

(** ** Extents *)

(** The fields of [T s] in [_extent]: the A and D bits, the base and length in
    sectors, and the pointer. *)
Record extent (P : Type) := mk_extent_raw {
  e_a : bool;
  e_d : bool;
  e_base : Z;
  e_len : Z;
  e_ptr : P;
}.
Arguments mk_extent_raw {P} _ _ _ _ _.
Arguments e_a {P} _.
Arguments e_d {P} _.
Arguments e_base {P} _.
Arguments e_len {P} _.
Arguments e_ptr {P} _.

Section extent.
Context {P : Type} `{Layout P}.
Implicit Types e : extent P.

(** The constructor [_extent(base, len, ptr)]: new extents are dirty. *)
Definition mk_extent (base len : Z) (ptr : P) : extent P :=
  mk_extent_raw false true (fld_base base) (fld_len len) (fld_ptr ptr).

(** [limit()]: extents are [base, base+len). *)
Definition e_limit e : Z := e_base e + e_len e.

(** [relimit] *)
Definition relimit (limit : Z) e : extent P :=
  mk_extent_raw (e_a e) true (e_base e) (fld_len (limit - e_base e)) (e_ptr e).

(** [rebase]: the pointer moves by the same amount as the base. *)
Definition rebase (base : Z) e : extent P :=
  let delta := base - e_base e in
  mk_extent_raw (e_a e) true (fld_base base) (fld_len (e_len e - delta))
    (fld_ptr (p_add (e_ptr e) delta)).

(** [operator+=] *)
Definition e_advance (val : Z) e : extent P :=
  mk_extent_raw (e_a e) (e_d e) (e_base e) (e_len e)
    (fld_ptr (p_add (e_ptr e) val)).

(** [operator<] *)
Definition e_ltb e1 e2 : bool := e_base e1 <? e_base e2.

(** [vals()] *)
Definition vals e : Z * Z * P := (e_base e, e_limit e, e_ptr e).

(** [vals(base, limit)]: the part of the extent inside [base, limit). *)
Definition vals_in (base limit : Z) e : Z * Z * P :=
  let '(b, p) :=
    if e_base e <? base then (base, p_add (e_ptr e) (base - e_base e))
    else (e_base e, e_ptr e) in
  (b, Z.min (e_limit e) limit, p).

(** [access], [dirty] *)
Definition access (v : bool) e : extent P :=
  mk_extent_raw v (e_d e) (e_base e) (e_len e) (e_ptr e).
Definition dirty (v : bool) e : extent P :=
  mk_extent_raw (e_a e) v (e_base e) (e_len e) (e_ptr e).

(** [adjacent]: can [left] and [right] be merged? *)
Definition adjacent (left right : extent P) : bool :=
  (e_limit left =? e_base right) &&
  p_eqb (p_add (e_ptr left) (e_limit left - e_base left)) (e_ptr right).
End extent.

(** ** Meaning

    An extent maps the sectors of [base, limit) to consecutive pointers. *)
Section denote.
Context {P : Type} `{LayoutOk P}.
Implicit Types e : extent P.

Definition in_range (b l x : Z) : bool := (b <=? x) && (x <? l).

Definition ext_denote e (x : Z) : option P :=
  if in_range (e_base e) (e_limit e) x
  then Some (p_add (e_ptr e) (x - e_base e)) else None.

(** An extent no operation truncates. *)
Definition ext_ok e : Prop :=
  0 ≤ e_base e ∧ 0 < e_len e ∧ e_limit e ≤ LBA_LIMIT ∧
  span_ok (e_ptr e) (e_len e).

Lemma in_range_true b l x : in_range b l x = true ↔ b ≤ x < l.
Proof. unfold in_range. lia. Qed.
Lemma in_range_false b l x : in_range b l x = false ↔ ¬ (b ≤ x < l).
Proof. unfold in_range. lia. Qed.

Lemma mk_extent_fields b n p :
  0 ≤ b < LBA_LIMIT → span_ok p n →
  mk_extent b n p = mk_extent_raw false true b n p.
Proof.
  intros Hb Hp. unfold mk_extent.
  by rewrite fld_base_id, (fld_len_id p), (fld_ptr_id p n).
Qed.

Lemma mk_extent_ok b n p :
  0 ≤ b → 0 < n → b + n ≤ LBA_LIMIT → span_ok p n → ext_ok (mk_extent b n p).
Proof.
  intros. rewrite mk_extent_fields by (done || lia).
  repeat split; unfold e_limit; simpl; auto; lia.
Qed.

(** Cutting an extent short keeps a prefix of its mapping. *)
Lemma relimit_ok e l :
  ext_ok e → e_base e < l ≤ e_limit e →
  ext_ok (relimit l e) ∧ vals (relimit l e) = (e_base e, l, e_ptr e).
Proof.
  intros (Hb & Hl & Hlim & Hs) Hr. unfold e_limit in *.
  assert (span_ok (e_ptr e) (l - e_base e)) as Hs'.
  { rewrite <- (p_add_0 (e_ptr e) (e_len e)) by done.
    apply (span_sub _ (e_len e)); auto; lia. }
  unfold relimit, vals, ext_ok, e_limit; simpl.
  rewrite (fld_len_id (e_ptr e)) by done.
  repeat split; auto; try lia. do 2 f_equal. lia.
Qed.

(** Moving the base up keeps a suffix of the mapping. *)
Lemma rebase_ok e b :
  ext_ok e → e_base e ≤ b < e_limit e →
  ext_ok (rebase b e) ∧
  vals (rebase b e) = (b, e_limit e, p_add (e_ptr e) (b - e_base e)).
Proof.
  intros (Hb & Hl & Hlim & Hs) Hr. unfold e_limit in *.
  assert (span_ok (p_add (e_ptr e) (b - e_base e)) (e_len e - (b - e_base e)))
    as Hs' by (apply (span_sub _ (e_len e)); auto; lia).
  unfold rebase, vals, ext_ok, e_limit; simpl.
  rewrite fld_base_id, (fld_ptr_id _ _ Hs'), (fld_len_id _ _ Hs') by lia.
  repeat split; auto; try lia. do 2 f_equal. lia.
Qed.

Lemma ext_denote_vals e1 e2 x :
  vals e1 = vals e2 → ext_denote e1 x = ext_denote e2 x.
Proof.
  unfold vals, ext_denote. intros [= Hb Hl Hp].
  by rewrite Hb, Hl, Hp.
Qed.
End denote.

(** ** The two layouts satisfy the laws *)

Lemma wrap_s_small w z :
  0 < w → 0 ≤ z < 2 ^ (w - 1) → wrap_s w z = z.
Proof. intros. apply wrap_s_id; lia. Qed.

Lemma obj_offset_add_small p n :
  obj_span_ok p n → 0 ≤ n →
  ObjOffset.add p n = mk_obj_offset (obj p) (offset p + n).
Proof.
  unfold obj_span_ok, OBJ_LIMIT, ObjOffset.add. intros.
  by rewrite (wrap_s_id 32 n), wrap_s_id by lia.
Qed.

Lemma sector_ptr_add_small p n :
  buf_span_ok p n → 0 ≤ n →
  SectorPtr.add p n = mk_sector_ptr (buf p) (byte_off p + n * 512).
Proof.
  unfold buf_span_ok, BUF_LIMIT, SectorPtr.add. intros.
  by rewrite (wrap_s_id 32 n), wrap_s_id by lia.
Qed.

#[export] Program Instance lba2obj_ok : LayoutOk obj_offset := {|
  span_ok := obj_span_ok;
|}.
Next Obligation. intros. simpl. unfold LBA_LIMIT in *. apply wrap_s_id; lia. Qed.
Next Obligation.
  unfold obj_span_ok, OBJ_LIMIT. simpl. intros. apply wrap_s_id; lia.
Qed.
Next Obligation. done. Qed.
Next Obligation.
  simpl. intros p n d m Hn Hd Hm Hdm. unfold obj_span_ok, OBJ_LIMIT in Hn.
  rewrite obj_offset_add_small; unfold obj_span_ok, OBJ_LIMIT in *; simpl; lia.
Qed.
Next Obligation.
  simpl. intros p n m Hn H0 H1. rewrite obj_offset_add_small by done.
  unfold obj_span_ok, OBJ_LIMIT in *; simpl; lia.
Qed.
Next Obligation.
  simpl. intros [o off] n Hn. unfold obj_span_ok, OBJ_LIMIT in *. simpl in *.
  rewrite obj_offset_add_small; unfold obj_span_ok, OBJ_LIMIT; simpl; try lia.
  f_equal; lia.
Qed.
Next Obligation.
  simpl. intros p n a b Hn Ha Hb Hab. unfold obj_span_ok, OBJ_LIMIT in *.
  assert (obj_span_ok p a ∧ obj_span_ok p (a + b)) as [Ha' Hab']
    by (unfold obj_span_ok, OBJ_LIMIT; lia).
  rewrite (obj_offset_add_small p a), (obj_offset_add_small p (a + b)) by (done || lia).
  rewrite obj_offset_add_small; unfold obj_span_ok, OBJ_LIMIT in *; simpl; try lia.
  f_equal; lia.
Qed.
Next Obligation.
  simpl. intros [o off] n Hn H0. rewrite (obj_offset_add_small _ n) by done.
  unfold obj_span_ok, OBJ_LIMIT, ObjOffset.add in *. simpl in *.
  rewrite (wrap_s_id 32), wrap_s_id by lia. f_equal; lia.
Qed.
Next Obligation.
  simpl. intros [o1 f1] [o2 f2]. unfold ObjOffset.eqb. simpl.
  rewrite andb_true_iff, !Z.eqb_eq. naive_solver.
Qed.

#[export] Program Instance lba2buf_ok : LayoutOk sector_ptr := {|
  span_ok := buf_span_ok;
|}.
Next Obligation. intros. simpl. unfold LBA_LIMIT in *. apply wrap_u_id; lia. Qed.
Next Obligation.
  unfold buf_span_ok, BUF_LIMIT. simpl. intros. apply wrap_u_id; lia.
Qed.
Next Obligation. done. Qed.
Next Obligation.
  simpl. intros p n d m Hn Hd Hm Hdm. unfold buf_span_ok, BUF_LIMIT in Hn.
  rewrite sector_ptr_add_small; unfold buf_span_ok, BUF_LIMIT in *; simpl; lia.
Qed.
Next Obligation.
  simpl. intros p n m Hn H0 H1. rewrite sector_ptr_add_small by done.
  unfold buf_span_ok, BUF_LIMIT in *; simpl; lia.
Qed.
Next Obligation.
  simpl. intros [o off] n Hn. unfold buf_span_ok, BUF_LIMIT in *. simpl in *.
  rewrite sector_ptr_add_small; unfold buf_span_ok, BUF_LIMIT; simpl; try lia.
  f_equal; lia.
Qed.
Next Obligation.
  simpl. intros p n a b Hn Ha Hb Hab. unfold buf_span_ok, BUF_LIMIT in *.
  assert (buf_span_ok p a ∧ buf_span_ok p (a + b)) as [Ha' Hab']
    by (unfold buf_span_ok, BUF_LIMIT; lia).
  rewrite (sector_ptr_add_small p a), (sector_ptr_add_small p (a + b)) by (done || lia).
  rewrite sector_ptr_add_small; unfold buf_span_ok, BUF_LIMIT in *; simpl; try lia.
  f_equal; lia.
Qed.
Next Obligation.
  simpl. intros [o off] n Hn H0. rewrite (sector_ptr_add_small _ n) by done.
  unfold buf_span_ok, BUF_LIMIT, SectorPtr.add in *. simpl in *.
  rewrite (wrap_s_id 32 (-n)), wrap_s_id by lia. f_equal; lia.
Qed.
Next Obligation.
  simpl. intros [o1 f1] [o2 f2]. unfold SectorPtr.eqb. simpl.
  rewrite andb_true_iff, !Z.eqb_eq. naive_solver.
Qed.
