(* ===== verification/ExtMap.v ===== *)
(** * The extent map (src/src/extent.h, [struct extmap])

    A sorted list of extents kept, like Python's sorted containers, as a list of
    lists with the limit of the last extent of each list cached in [maxes].
    Iterators are pairs of indices; every operation that moves, inserts or
    erases follows the C++ code branch by branch, in the option monad. *)

From S2P Require Import Prelude Extent.

Module Extmap.

(** Iterators of one map: list index and index within the list.  (The C++
    iterator also carries the map it belongs to.) *)
Record iterator := mk_iter { it_i : nat; it_j : nat }.

#[export] Instance iterator_eq_dec : EqDecision iterator.
Proof. solve_decision. Defined.

Definition iter_eqb (a b : iterator) : bool :=
  ((it_i a =? it_i b) && (it_j a =? it_j b))%nat.

Section extmap.
Context {P : Type} `{Layout P}.

(** [template <..., int load = 256> struct extmap] *)
Record extmap := mk_extmap {
  lists : list (list (extent P));
  maxes : list Z;
  count : Z;
}.

Variable load : nat.
Implicit Types (m : extmap) (it : iterator) (e : extent P).

Definition empty_map : extmap := mk_extmap [] [] 0.

(** [first] *)
Definition first m e : extmap :=
  mk_extmap (lists m ++ [[e]]) (maxes m ++ [e_limit e]) 1.

(** ** Iterators *)

(** [begin()] *)
Definition begin_ m : iterator := mk_iter 0 0.

(** [end()] *)
Definition end_ m : iterator :=
  match last (lists m) with
  | None => mk_iter 0 0
  | Some l => mk_iter (length (lists m) - 1) (length l)
  end.

(** The unary star operator and [operator->] for reading *)
Definition deref m it : option (extent P) :=
  l ← lists m !! it_i it; l !! it_j it.

(** [operator->] for writing *)
Definition store m it (f : extent P → extent P) : option extmap :=
  l ← lists m !! it_i it;
  e ← l !! it_j it;
  Some (mk_extmap (<[it_i it := <[it_j it := f e]> l]> (lists m))
          (maxes m) (count m)).

(** [operator++(int)] *)
Definition incr m it : option iterator :=
  l ← lists m !! it_i it;
  _ ← assert (it_j it <? length l)%nat;
  if (it_j it + 1 =? length l)%nat then
    if (it_i it + 1 <? length (lists m))%nat
    then Some (mk_iter (it_i it + 1) 0)
    else Some (mk_iter (it_i it) (it_j it + 1))
  else Some (mk_iter (it_i it) (it_j it + 1)).

(** [operator--(int)] *)
Definition decr m it : option iterator :=
  _ ← lists m !! it_i it;
  if (it_j it =? 0)%nat then
    if (0 <? it_i it)%nat then
      l ← lists m !! (it_i it - 1)%nat;
      Some (mk_iter (it_i it - 1) (length l - 1))
    else Some it
  else Some (mk_iter (it_i it) (it_j it - 1)).

(** [operator+(1)] *)
Definition next m it : option iterator :=
  l ← lists m !! it_i it;
  if (it_j it + 1 =? length l)%nat then
    if (it_i it + 1 =? length (lists m))%nat
    then Some (end_ m)
    else Some (mk_iter (it_i it + 1) 0)
  else Some (mk_iter (it_i it) (it_j it + 1)).

(** [operator-(1)] *)
Definition prev m it : option iterator :=
  _ ← lists m !! it_i it;
  if (it_j it =? 0)%nat && (it_i it =? 0)%nat then Some (begin_ m)
  else if (it_j it =? 0)%nat then
    l ← lists m !! (it_i it - 1)%nat;
    Some (mk_iter (it_i it - 1) (length l - 1))
  else Some (mk_iter (it_i it) (it_j it - 1)).

(** [operator+(n)]: for [n > 1], one step forward and then [n - 1] more. *)
Fixpoint iter_add m it (n : nat) : option iterator :=
  match n with
  | S (S _ as n') => it' ← next m it; iter_add m it' n'
  | _ => next m it
  end.

(** [operator-(n)]: for [n > 1] the code also goes through [operator+]. *)
Definition iter_sub m it (n : nat) : option iterator :=
  match n with
  | S (S _ as n') => it' ← next m it; iter_add m it' n'
  | _ => prev m it
  end.

(** ** Searching *)

(** [lower_bound]: the extent containing [base], else the lowest one with a
    higher base, else [end()]. *)
Definition lower_bound m (base : Z) : option iterator :=
  match lists m with
  | [] => Some (end_ m)
  | _ =>
    let k := std_lower_bound (λ x, x <? base) (maxes m) in
    let k := match maxes m !! k with
             | Some mx => if base =? mx then S k else k
             | None => k
             end in
    if (k =? length (maxes m))%nat then Some (end_ m) else
    l ← lists m !! k;
    let j := std_lower_bound (λ e, e_base e <? base) l in
    prev_hit ←
      (if (j =? 0)%nat then Some false else
       p ← l !! (j - 1)%nat;
       Some ((e_base p <=? base) && (base <? e_limit p)));
    if prev_hit : bool then Some (mk_iter k (j - 1))
    else if (k <? length (lists m) - 1)%nat && (j =? length l)%nat
    then Some (mk_iter (k + 1) 0)
    else Some (mk_iter k j)
  end.

(** ** Structural updates *)

(** [maxes[i] = lists[i]->back().limit()] *)
Definition refresh_max m (i : nat) : option extmap :=
  l ← lists m !! i;
  e ← last l;
  _ ← maxes m !! i;
  Some (mk_extmap (lists m) (<[i := e_limit e]> (maxes m)) (count m)).

(** [_slice]: split off the elements from [len] on. *)
Definition _slice (A : list (extent P)) (len : nat) :=
  (take len A, drop len A).

(** [_expand]: split the list of [it] when it has reached [2 * load]. *)
Definition _expand m it : option (extmap * iterator) :=
  l ← lists m !! it_i it;
  if (load * 2 <=? length l)%nat then
    let '(l1, half) := _slice l load in
    e1 ← last l1;
    e2 ← last half;
    _ ← maxes m !! it_i it;
    let lists' := list_insert_at (it_i it + 1) half (<[it_i it := l1]> (lists m)) in
    let maxes' := list_insert_at (it_i it + 1) (e_limit e2)
                    (<[it_i it := e_limit e1]> (maxes m)) in
    let it' := if (load <=? it_j it)%nat
               then mk_iter (it_i it + 1) (it_j it - load) else it in
    Some (mk_extmap lists' maxes' (count m), it')
  else Some (m, it).

(** [_insert]: insert just before [it], return the inserted position. *)
Definition _insert m it e : option (extmap * iterator) :=
  if count m =? 0 then let m' := first m e in Some (m', begin_ m')
  else
    l ← lists m !! it_i it;
    _ ← assert (it_j it <=? length l)%nat;
    let m1 := mk_extmap (<[it_i it := list_insert_at (it_j it) e l]> (lists m))
                (maxes m) (count m) in
    m2 ← refresh_max m1 (it_i it);
    _expand (mk_extmap (lists m2) (maxes m2) (count m2 + 1)) it.

(** The tail of [_erase]: merge a list that has become small. *)
Definition _erase_rebalance m it : option (extmap * iterator) :=
  l ← lists m !! it_i it;
  if (load / 2 <? length l)%nat then Some (m, it)
  else if (1 <? length (lists m))%nat then
    let pos := if (0 <? it_i it)%nat then it_i it else (it_i it + 1)%nat in
    let pv := (pos - 1)%nat in
    lp ← lists m !! pv;
    lq ← lists m !! pos;
    let j := if (pos =? it_i it)%nat then (it_j it + length lp)%nat else it_j it in
    m1 ← refresh_max (mk_extmap (<[pv := lp ++ lq]> (lists m)) (maxes m) (count m)) pv;
    _expand (mk_extmap (delete pos (lists m1)) (delete pos (maxes m1)) (count m1))
      (mk_iter pv j)
  else if (0 <? length l)%nat then m1 ← refresh_max m (it_i it); Some (m1, it)
  else Some (m, it).

(** [_erase]: remove the extent at [it], return the position after it.  When
    the list of [it] becomes empty it is deleted, which leaves the iterator
    dangling unless the map itself is now empty. *)
Definition _erase m it : option (extmap * iterator) :=
  l ← lists m !! it_i it;
  _ ← assert (it_j it <? length l)%nat;
  let l' := delete (it_j it) l in
  let m0 := mk_extmap (<[it_i it := l']> (lists m)) (maxes m) (count m) in
  if (0 <? length l')%nat then
    m1 ← refresh_max m0 (it_i it);
    let m1 := mk_extmap (lists m1) (maxes m1) (count m1 - 1) in
    '(m2, it2) ← _erase_rebalance m1 it;
    l2 ← lists m2 !! it_i it2;
    if (it_j it2 =? length l2)%nat && negb (it_i it2 =? length (lists m2) - 1)%nat
    then Some (m2, mk_iter (it_i it2 + 1) 0)
    else Some (m2, it2)
  else
    let m1 := mk_extmap (delete (it_i it) (lists m0)) (delete (it_i it) (maxes m0))
                (count m0 - 1) in
    match lists m1 with
    | [] => Some (m1, end_ m1)
    | _ => None
    end.

(** ** Update and trim *)

(** "we bisect an extent" and "left-hand overlap": the state after the first
    conditional of [_update], with the discarded extents. *)
Definition _update_left m (base limit : Z) it
    : option (extmap * iterator * list (extent P)) :=
  e ← deref m it;
  if (e_base e <? base) && (limit <? e_limit e) then
    let old := mk_extent base (limit - base) (p_add (e_ptr e) (base - e_base e)) in
    let new := mk_extent limit (e_limit e - limit)
                 (p_add (e_ptr e) (limit - e_base e)) in
    m1 ← store m it (relimit base);
    m2 ← refresh_max m1 (it_i it);
    it2 ← next m2 it;
    '(m3, it3) ← _insert m2 it2 new;
    Some (m3, it3, [old])
  else if (e_base e <? base) && (base <? e_limit e) then
    let old := mk_extent base (e_limit e - base)
                 (p_add (e_ptr e) (base - e_base e)) in
    m1 ← store m it (relimit base);
    m2 ← refresh_max m1 (it_i it);
    it2 ← incr m2 it;
    Some (m2, it2, [old])
  else Some (m, it, []).

(** "erase any extents fully overlapped" *)
Fixpoint _update_erase (fuel : nat) m (base limit : Z) it (del : list (extent P))
    : option (extmap * iterator * list (extent P)) :=
  if iter_eqb it (end_ m) then Some (m, it, del) else
  match fuel with
  | O => None
  | S fuel =>
    e ← deref m it;
    if (base <=? e_base e) && (e_limit e <=? limit) then
      '(m1, it1) ← _erase m it;
      _update_erase fuel m1 base limit it1 (del ++ [e])
    else Some (m, it, del)
  end.

(** "update right-hand overlap" *)
Definition _update_right m (limit : Z) it (del : list (extent P))
    : option (extmap * list (extent P)) :=
  if iter_eqb it (end_ m) then Some (m, del) else
  e ← deref m it;
  if e_base e <? limit then
    m1 ← store m it (rebase limit);
    Some (m1, del ++ [mk_extent (e_base e) (limit - e_base e) (e_ptr e)])
  else Some (m, del).

(** "check and see if we should merge with the next extent": [pit] has been
    found to be continued by the new extent, which ends at [limit]. *)
Definition _update_merge_prev m (limit : Z) it pit : option extmap :=
  m1 ← store m pit (relimit limit);
  m1 ← refresh_max m1 (it_i pit);
  if iter_eqb it (end_ m1) then Some m1 else
  pe ← deref m1 pit;
  ne ← deref m1 it;
  if adjacent pe ne then
    m2 ← store m1 pit (relimit (e_limit ne));
    m2 ← refresh_max m2 (it_i pit);
    '(m3, _) ← _erase m2 it;
    Some m3
  else Some m1.

(** Otherwise the new extent may be continued by the one at [it]. *)
Definition _update_merge_next m (base : Z) (e : extent P) it : option extmap :=
  merge_next ←
    (if iter_eqb it (end_ m) then Some false else
     ne ← deref m it; Some (adjacent e ne));
  if merge_next : bool then store m it (rebase base)
  else '(m1, _) ← _insert m it e; Some m1.

(** "insert before 'it'", merging with the neighbours where possible. *)
Definition _update_insert m (base limit : Z) (e : extent P) it : option extmap :=
  if count m =? 0 then '(m1, _) ← _insert m it e; Some m1 else
  pit ← prev m it;
  merge_prev ←
    (if iter_eqb it (begin_ m) then Some false else
     pe ← deref m pit; Some (adjacent pe e));
  if merge_prev : bool then _update_merge_prev m limit it pit
  else _update_merge_next m base e it.

(** The part of [_update] that makes room for [base, limit): the position to
    insert at and the contents of [*del]. *)
Definition _update_cut m (base limit : Z)
    : option (extmap * iterator * list (extent P)) :=
  it ← lower_bound m base;
  if iter_eqb it (end_ m) then Some (m, it, []) else
  '(m1, it1, del1) ← _update_left m base limit it;
  '(m2, it2, del2) ←
    _update_erase (S (length (concat (lists m1)))) m1 base limit it1 del1;
  '(m3, del3) ← _update_right m2 limit it2 del2;
  Some (m3, it2, del3).

(** [_update]; the second component is the vector [*del]. *)
Definition _update m (base limit : Z) (p : P) (trim : bool)
    : option (extmap * list (extent P)) :=
  let e := mk_extent base (limit - base) p in
  match maxes m with
  | [] => Some (first m e, [])
  | _ =>
    '(m, it, del) ← _update_cut m base limit;
    if trim then Some (m, del)
    else m' ← _update_insert m base limit e it; Some (m', del)
  end.

(** [size] *)
Definition size m : Z := count m.

(** [lookup] *)
Definition lookup m (base : Z) : option iterator := lower_bound m base.

(** [update], with the vector of deleted extents *)
Definition update m (base limit : Z) (p : P) : option (extmap * list (extent P)) :=
  _update m base limit p false.

(** [trim]; the unused pointer is arbitrary. *)
Definition trim (unused : P) m (base limit : Z) : option (extmap * list (extent P)) :=
  if 0 <? count m then _update m base limit unused true else Some (m, []).

(** [reset] *)
Definition reset m : extmap := mk_extmap [] [] 0.
End extmap.
End Extmap.
