(* ===== verification/ExtMapShape.v ===== *)
(** * The list-of-lists representation of the extent map

    [flat] forgets how the extents are grouped; [shape] is the representation
    invariant (no empty list, [maxes] and [count] exact, list sizes between
    [load/2] and [2*load]); [at_pos] relates an iterator to a position of the
    flat list.  Each structural operation is shown to succeed and to act on the
    flat list as its name says. *)

From S2P Require Import Prelude Extent ExtMap.
Import Extmap.

Section shape.
Context {P : Type} `{Layout P}.
Variable load : nat.
Implicit Types (m : @extmap P) (it : iterator) (e : extent P)
  (ls : list (list (extent P))) (l F : list (extent P)).

Definition flat m : list (extent P) := concat (lists m).

(** What [maxes] caches for a list. *)
Definition list_max l : Z := from_option e_limit 0 (last l).

Record shape m : Prop := {
  shape_nonempty : Forall (λ l, l ≠ []) (lists m);
  shape_maxes : maxes m = list_max <$> lists m;
  shape_count : count m = Z.of_nat (length (flat m));
  shape_small : Forall (λ l, (length l < 2 * load)%nat) (lists m);
  shape_large : (length (lists m) ≤ 1)%nat ∨
                Forall (λ l, (load / 2 < length l)%nat) (lists m);
}.

(** The iterator points between elements [k-1] and [k] of the flat list, and
    may be one past the end of a list that is not the last one. *)
Definition pre_pos m it (k : nat) : Prop :=
  ∃ ls1 l ls2, lists m = ls1 ++ l :: ls2 ∧ it_i it = length ls1 ∧
    (it_j it ≤ length l)%nat ∧ k = (length (concat ls1) + it_j it)%nat.

(** The iterator is valid: it points to element [k], or is [end()]. *)
Inductive at_pos m it (k : nat) : Prop :=
| at_in ls1 l ls2 :
    lists m = ls1 ++ l :: ls2 → it_i it = length ls1 →
    (it_j it < length l)%nat → k = (length (concat ls1) + it_j it)%nat →
    at_pos m it k
| at_end : it = end_ m → k = length (flat m) → at_pos m it k.

(** ** Positions *)

Lemma iter_eqb_eq a b : iter_eqb a b = true ↔ a = b.
Proof.
  unfold iter_eqb. rewrite andb_true_iff, !Nat.eqb_eq.
  destruct a, b; simpl. naive_solver.
Qed.

Lemma concat_mid ls1 l ls2 :
  concat (ls1 ++ l :: ls2) = concat ls1 ++ l ++ concat ls2.
Proof. by rewrite concat_app. Qed.

Lemma lookup_lists m ls1 l ls2 :
  lists m = ls1 ++ l :: ls2 → lists m !! length ls1 = Some l.
Proof. intros ->. by apply lookup_middle. Qed.

Lemma end_snoc m ls l :
  lists m = ls ++ [l] → end_ m = mk_iter (length ls) (length l).
Proof.
  intros Hl. unfold end_. rewrite Hl, last_snoc, length_app. simpl. f_equal. lia.
Qed.

Lemma lists_cases m :
  lists m = [] ∨ ∃ ls l, lists m = ls ++ [l].
Proof. destruct (lists m) as [|l ls _] using rev_ind; eauto. Qed.

Lemma pos_unique ls1 : ∀ ls1' l l' ls2 ls2' (j j' : nat),
  ls1 ++ l :: ls2 = ls1' ++ l' :: ls2' →
  (j < length l)%nat → (j' < length l')%nat →
  (length (concat ls1) + j = length (concat ls1') + j')%nat →
  length ls1 = length ls1' ∧ j = j'.
Proof.
  induction ls1 as [|l1 ls1 IH]; intros [|l1' ls1'] l l' ls2 ls2' j j' Heq Hj Hj' Hk;
    simpl in *; simplify_eq; len.
  edestruct (IH ls1') as [? ?]; eauto; lia.
Qed.

Lemma at_in_lt m it k ls1 l ls2 :
  lists m = ls1 ++ l :: ls2 → (it_j it < length l)%nat →
  k = (length (concat ls1) + it_j it)%nat → (k < length (flat m))%nat.
Proof. intros Hl ? ->. unfold flat. rewrite Hl, concat_mid. len. Qed.

Lemma at_pos_le m it k : at_pos m it k → (k ≤ length (flat m))%nat.
Proof.
  intros [ls1 l ls2 Hl Hi Hj Hk|He ->]; [|lia].
  eapply Nat.lt_le_incl, at_in_lt; eauto.
Qed.

Lemma at_pos_inj m it1 it2 k : at_pos m it1 k → at_pos m it2 k → it1 = it2.
Proof.
  intros [ls1 l ls2 Hl Hi Hj Hk| -> Hk] [ls1' l' ls2' Hl' Hi' Hj' Hk'| -> Hk']; auto.
  - destruct (pos_unique ls1 ls1' l l' ls2 ls2' (it_j it1) (it_j it2)); try congruence.
    destruct it1, it2; simpl in *; congruence.
  - pose proof (at_in_lt _ _ _ _ _ _ Hl Hj Hk). lia.
  - pose proof (at_in_lt _ _ _ _ _ _ Hl' Hj' Hk'). lia.
Qed.

Lemma at_pos_end m : at_pos m (end_ m) (length (flat m)).
Proof. by apply at_end. Qed.

Lemma at_pos_begin m : shape m → at_pos m (begin_ m) 0.
Proof.
  intros [Hne _ _ _ _]. destruct (lists m) as [|l ls] eqn:Hl.
  - apply at_end; unfold begin_, end_, flat; by rewrite Hl.
  - apply Forall_cons in Hne as [Hne _]. apply (at_in _ _ _ [] l ls); auto.
    destruct l; simpl; [done|lia].
Qed.

Lemma is_end m it k :
  at_pos m it k → iter_eqb it (end_ m) = (k =? length (flat m))%nat.
Proof.
  intros Hk. apply eq_true_iff_eq. rewrite iter_eqb_eq, Nat.eqb_eq. split.
  - intros ->. destruct Hk as [ls1 l ls2 Hl Hi Hj Hk|]; [|done].
    exfalso. destruct (lists_cases m) as [E|(ls & l' & E)]; rewrite E in Hl.
    + by destruct ls1.
    + rewrite (end_snoc m ls l') in Hi, Hj by done. simpl in *.
      apply app_inj_1 in Hl as [-> Hl]; [simplify_eq; lia|done].
  - intros ->. eapply at_pos_inj; eauto using at_pos_end.
Qed.

Lemma is_begin m it k :
  shape m → at_pos m it k → iter_eqb it (begin_ m) = (k =? 0)%nat.
Proof.
  intros Hs Hk. apply eq_true_iff_eq. rewrite iter_eqb_eq, Nat.eqb_eq. split.
  - intros ->. destruct Hk as [ls1 l ls2 Hl Hi Hj Hk|He Hk].
    + simpl in *. destruct ls1; [simpl in *; lia|done].
    + unfold begin_, end_, flat in *. destruct (last (lists m)) as [l|] eqn:El.
      * apply last_Some in El as [ls E]. rewrite E in *. injection He as Hi Hj.
        rewrite length_app in Hi. simpl in Hi.
        destruct ls; [|simpl in *; lia]. simpl in *. subst k. len.
      * apply last_None in El. by rewrite El in Hk.
  - intros ->. eapply at_pos_inj; eauto using at_pos_begin.
Qed.

Lemma deref_at m it k : at_pos m it k → deref m it = flat m !! k.
Proof.
  intros [ls1 l ls2 Hl Hi Hj ->| -> ->]; unfold deref, flat.
  - rewrite Hl, concat_mid, Hi, lookup_middle by done. simpl.
    rewrite lookup_app_r by lia. rewrite lookup_app_l by lia. f_equal. lia.
  - rewrite (lookup_ge_None_2 (concat _)) by lia.
    destruct (lists_cases m) as [E|(ls & l & E)].
    + unfold end_. by rewrite E.
    + rewrite (end_snoc m ls l), E by done. simpl.
      rewrite lookup_middle by done. simpl. by apply lookup_ge_None_2.
Qed.

Lemma pre_pos_of m it k : lists m ≠ [] → at_pos m it k → pre_pos m it k.
Proof.
  intros Hne [ls1 l ls2 Hl Hi Hj ->| -> ->].
  - exists ls1, l, ls2. repeat split; auto; lia.
  - destruct (lists_cases m) as [E|(ls & l & E)]; [done|].
    exists ls, l, []. rewrite (end_snoc m ls l) by done. simpl.
    repeat split; auto. unfold flat. rewrite E, concat_mid. len.
Qed.

Lemma at_pos_of m it k l ls1 ls2 :
  lists m = ls1 ++ l :: ls2 → it_i it = length ls1 → (it_j it ≤ length l)%nat →
  (it_j it < length l)%nat ∨ ls2 = [] →
  k = (length (concat ls1) + it_j it)%nat → at_pos m it k.
Proof.
  intros Hl Hi Hj Hcase ->.
  destruct (decide (it_j it < length l)%nat) as [Hlt|Hge].
  { by eapply at_in. }
  destruct Hcase as [?| ->]; [lia|]. apply at_end.
  - rewrite (end_snoc m ls1 l) by done. destruct it; simpl in *. f_equal; lia.
  - unfold flat. rewrite Hl, concat_mid. len.
Qed.

(** One step forward lands on the next position, whether written
    [it++] or [it + 1]. *)
Lemma step_at m it k ls1 l ls2 :
  Forall (λ l, l ≠ []) (lists m) →
  lists m = ls1 ++ l :: ls2 → it_i it = length ls1 →
  (it_j it < length l)%nat → k = (length (concat ls1) + it_j it)%nat →
  at_pos m (if (it_j it + 1 =? length l)%nat
            then if (it_i it + 1 <? length (lists m))%nat
                 then mk_iter (it_i it + 1) 0 else mk_iter (it_i it) (it_j it + 1)
            else mk_iter (it_i it) (it_j it + 1)) (S k).
Proof.
  intros Hne Hl Hi Hj ->. case_if; [case_if|].
  - rewrite Hl in *. len. destruct ls2 as [|l2 ls2]; [len|].
    apply Forall_app in Hne as [_ Hne]. apply Forall_cons in Hne as [_ Hne].
    apply Forall_cons in Hne as [Hne _].
    apply (at_in _ _ _ (ls1 ++ [l]) l2 ls2); simpl.
    + by rewrite Hl, <- app_assoc.
    + len.
    + destruct l2; [done|simpl; lia].
    + rewrite concat_app. simpl. len.
  - rewrite Hl in *. len. destruct ls2 as [|l2 ls2]; [|len].
    apply (at_pos_of _ _ _ l ls1 []); simpl; auto; lia.
  - apply (at_pos_of _ _ _ l ls1 ls2); simpl; auto; lia.
Qed.

Lemma incr_at m it k :
  shape m → at_pos m it k → (k < length (flat m))%nat →
  ∃ it', incr m it = Some it' ∧ at_pos m it' (S k).
Proof.
  intros Hs [ls1 l ls2 Hl Hi Hj Hk|_ ->] Hlt; [|lia].
  eexists. split; [|eapply step_at; eauto; apply Hs].
  unfold incr. rewrite Hi. rewrite (lookup_lists m ls1 l ls2) by done. simpl.
  rewrite assert_true by by apply Nat.ltb_lt. simpl.
  rewrite <- Hi. by repeat case_if.
Qed.

Lemma next_at m it k :
  shape m → at_pos m it k → (k < length (flat m))%nat →
  ∃ it', next m it = Some it' ∧ at_pos m it' (S k).
Proof.
  intros Hs [ls1 l ls2 Hl Hi Hj Hk|_ ->] Hlt; [|lia].
  eexists. split; [|eapply step_at; eauto; apply Hs].
  unfold next. rewrite Hi. rewrite (lookup_lists m ls1 l ls2) by done. simpl.
  rewrite <- Hi. repeat case_if; auto.
  - exfalso. rewrite Hl in *. len.
  - f_equal. rewrite Hl in *. len. destruct ls2 as [|? ls2]; [|len].
    rewrite (end_snoc m ls1 l) by done. f_equal; lia.
  - exfalso. rewrite Hl in *. len.
Qed.

Lemma prev_at m it k :
  shape m → at_pos m it k → lists m ≠ [] →
  ∃ it', prev m it = Some it' ∧ at_pos m it' (k - 1).
Proof.
  intros Hs Hk Hne. pose proof Hk as (ls1 & l & ls2 & Hl & Hi & Hj & Hkk)%pre_pos_of; auto.
  unfold prev. rewrite Hi. rewrite (lookup_lists m ls1 l ls2) by done. simpl.
  case_if; [|case_if].
  - exists (begin_ m). split; [done|]. destruct ls1; [|simpl in *; lia].
    replace (k - 1)%nat with 0%nat by (simpl in *; lia). by apply at_pos_begin.
  - assert (length ls1 ≠ 0%nat) by lia.
    destruct ls1 as [|lp ls1 _] using rev_ind; [done|].
    rewrite length_app in *. simpl in *.
    replace (length ls1 + 1 - 1)%nat with (length ls1) by lia.
    rewrite <- app_assoc in Hl. simpl in Hl.
    rewrite (lookup_lists m ls1 lp (l :: ls2)) by done. simpl.
    eexists; split; [done|].
    pose proof (shape_nonempty m Hs) as Hf. rewrite Hl in Hf.
    apply Forall_app in Hf as [_ Hf]. apply Forall_cons in Hf as [Hlp _].
    assert (length lp ≠ 0%nat) by (by destruct lp).
    apply (at_in _ _ _ ls1 lp (l :: ls2)); simpl; auto; try lia.
    rewrite concat_app in Hkk. simpl in Hkk. len.
  - eexists; split; [done|].
    apply (at_in _ _ _ ls1 l ls2); simpl; auto; try lia.
Qed.

Lemma shape_empty m : shape m → flat m = [] → lists m = [].
Proof.
  intros [Hne _ _ _ _] He. unfold flat in He.
  destruct (lists m) as [|l ls]; [done|].
  apply Forall_cons in Hne as [Hne _]. simpl in He.
  by apply app_eq_nil in He as [-> _].
Qed.

Lemma shape_count_0 m : shape m → count m = 0 ↔ lists m = [].
Proof.
  intros Hs. rewrite (shape_count _ Hs). split.
  - intros Hc. apply shape_empty; [done|]. destruct (flat m); [done|simpl in *; lia].
  - unfold flat. by intros ->.
Qed.

(** ** Storing through an iterator *)

Lemma list_max_snoc l e : list_max (l ++ [e]) = e_limit e.
Proof. unfold list_max. by rewrite last_snoc. Qed.

Lemma list_max_mid l1 e e' l2 :
  e_limit e' = e_limit e → list_max (l1 ++ e' :: l2) = list_max (l1 ++ e :: l2).
Proof.
  intros He. unfold list_max. rewrite !last_app, !last_cons.
  by destruct (last l2).
Qed.

Lemma last_is_Some l : l ≠ [] → ∃ e, last l = Some e ∧ list_max l = e_limit e.
Proof.
  intros Hl. unfold list_max. destruct (last l) as [e|] eqn:E; [by exists e|].
  by apply last_None in E.
Qed.

(** Replacing one list by a list of the same length moves no iterator. *)
Lemma at_pos_same m m' ls1 l l' ls2 it k :
  lists m = ls1 ++ l :: ls2 → lists m' = ls1 ++ l' :: ls2 →
  length l' = length l → at_pos m it k → at_pos m' it k.
Proof.
  intros Hl Hl' Hlen [ks1 q ks2 Hk Hi Hj ->| -> ->].
  - assert (ls1 ++ l :: ls2 = ks1 ++ q :: ks2) as Heq by congruence.
    destruct (decide (length ks1 = length ls1)) as [El|Nl].
    { apply app_inj_1 in Heq as [-> [= -> ->]]; [|done].
      apply (at_in _ _ _ ks1 l' ks2); auto; lia. }
    assert ((<[length ls1 := l']> (lists m)) = lists m') as Hins
      by (rewrite Hl, Hl'; by apply insert_middle).
    assert (lists m' !! length ks1 = Some q) as Hq.
    { rewrite <- Hins, list_lookup_insert_ne, Hk by done. by apply lookup_middle. }
    apply lookup_split in Hq as (ks1' & ks2' & Hq & Hq1).
    apply (at_in _ _ _ ks1' q ks2'); auto; [congruence|].
    f_equal. assert (ks1' = take (length ks1) (lists m')) as ->.
    { rewrite Hq, <- Hq1. by rewrite take_app_length. }
    assert (ks1 = take (length ks1) (lists m)) as E.
    { rewrite Hk. by rewrite take_app_length. }
    rewrite <- Hins. rewrite E at 1. rewrite !length_concat.
    rewrite !fmap_take. do 2 f_equal. rewrite list_fmap_insert.
    symmetry. apply list_insert_id. rewrite Hl.
    by rewrite list_lookup_fmap, lookup_middle, Hlen by done.
  - apply at_end.
    + destruct ls2 as [|l2 ls2 _] using rev_ind.
      * rewrite (end_snoc m ls1 l), (end_snoc m' ls1 l') by done. by rewrite Hlen.
      * rewrite (end_snoc m (ls1 ++ l :: ls2) l2), (end_snoc m' (ls1 ++ l' :: ls2) l2);
          [f_equal; len| |]; rewrite ?Hl, ?Hl'; by rewrite <- app_assoc.
    + unfold flat. rewrite Hl, Hl', !concat_mid. len.
Qed.

Lemma store_at m it k f F1 e F2 :
  at_pos m it k → flat m = F1 ++ e :: F2 → length F1 = k →
  ∃ ls1 l1 l2 ls2,
    lists m = ls1 ++ (l1 ++ e :: l2) :: ls2 ∧ it_i it = length ls1 ∧
    F1 = concat ls1 ++ l1 ∧ F2 = l2 ++ concat ls2 ∧
    store m it f =
      Some (mk_extmap (ls1 ++ (l1 ++ f e :: l2) :: ls2) (maxes m) (count m)).
Proof.
  intros Hk HF <-. pose proof (deref_at _ _ _ Hk) as Hd.
  rewrite HF, lookup_middle in Hd by done.
  destruct Hk as [ls1 l ls2 Hl Hi Hj Hk|_ Hk].
  2:{ rewrite HF in Hk. exfalso. len. }
  unfold deref in Hd. rewrite Hi, (lookup_lists m ls1 l ls2) in Hd by done.
  simpl in Hd. pose proof Hd as (l1 & l2 & -> & Hl1)%lookup_split.
  exists ls1, l1, l2, ls2. unfold flat in HF.
  rewrite Hl, concat_mid, <- !app_assoc in HF. simpl in HF.
  rewrite app_assoc in HF. apply app_inj_1 in HF as [HF1 HF2]; [|len].
  injection HF2 as <-. repeat split; auto.
  unfold store. rewrite Hi, (lookup_lists m ls1 (l1 ++ e :: l2) ls2) by done.
  simpl. rewrite Hd. simpl. rewrite Hl, (insert_middle l1) by done.
  by rewrite insert_middle.
Qed.

(** The size conditions of [shape] depend on the list lengths only. *)
Lemma shape_sizes m ls1 l l' ls2 :
  shape m → lists m = ls1 ++ l :: ls2 → length l' = length l →
  Forall (λ l, l ≠ []) (ls1 ++ l' :: ls2) ∧
  Forall (λ l, (length l < 2 * load)%nat) (ls1 ++ l' :: ls2) ∧
  ((length (ls1 ++ l' :: ls2) ≤ 1)%nat ∨
   Forall (λ l, (load / 2 < length l)%nat) (ls1 ++ l' :: ls2)).
Proof.
  intros [Hne _ _ Hsm Hlg] Hl Hlen. rewrite Hl in *.
  rewrite !Forall_app, !Forall_cons in *. rewrite !length_app in *. simpl in *.
  rewrite Hlen. repeat split; try tauto.
  destruct l, l'; simpl in *; try tauto; lia || done.
Qed.

Lemma store_keep m it k f F1 e F2 :
  shape m → at_pos m it k → flat m = F1 ++ e :: F2 → length F1 = k →
  e_limit (f e) = e_limit e →
  ∃ m', store m it f = Some m' ∧ shape m' ∧ flat m' = F1 ++ f e :: F2 ∧
    (∀ it' k', at_pos m it' k' → at_pos m' it' k').
Proof.
  intros Hs Hk HF Hlen Hlim.
  destruct (store_at m it k f F1 e F2 Hk HF Hlen)
    as (ls1 & l1 & l2 & ls2 & Hl & Hi & -> & -> & ->).
  eexists. split; [done|].
  destruct (shape_sizes m ls1 _ (l1 ++ f e :: l2) ls2 Hs Hl) as (H1 & H2 & H3); [len|].
  assert (concat (ls1 ++ (l1 ++ f e :: l2) :: ls2) =
    (concat ls1 ++ l1) ++ f e :: l2 ++ concat ls2) as Hc.
  { rewrite concat_mid, <- !app_assoc. done. }
  split; [split; simpl|split; [done|]]; auto.
  - rewrite (shape_maxes _ Hs), Hl, !fmap_app, !fmap_cons.
    by rewrite (list_max_mid l1 e (f e)).
  - rewrite (shape_count _ Hs), HF. unfold flat; simpl. rewrite Hc. f_equal. len.
  - intros it' k' Hp. eapply (at_pos_same m); eauto. len.
Qed.

Lemma refresh_at m ls1 l ls2 :
  lists m = ls1 ++ l :: ls2 → l ≠ [] →
  length (maxes m) = length (lists m) →
  refresh_max m (length ls1) =
    Some (mk_extmap (lists m) (<[length ls1 := list_max l]> (maxes m)) (count m)).
Proof.
  intros Hl Hne Hlen. unfold refresh_max.
  rewrite (lookup_lists m ls1 l ls2) by done. simpl.
  destruct (last_is_Some l Hne) as (e & -> & ->). simpl.
  destruct (lookup_lt_is_Some_2 (maxes m) (length ls1)) as [x ->]; [|done].
  rewrite Hlen, Hl. len.
Qed.

Lemma maxes_middle m ls1 l ls2 :
  shape m → lists m = ls1 ++ l :: ls2 →
  maxes m = (list_max <$> ls1) ++ list_max l :: (list_max <$> ls2).
Proof. intros Hs Hl. by rewrite (shape_maxes _ Hs), Hl, fmap_app, fmap_cons. Qed.

Lemma store_refresh m it k f F1 e F2 :
  shape m → at_pos m it k → flat m = F1 ++ e :: F2 → length F1 = k →
  ∃ m1 m', store m it f = Some m1 ∧ refresh_max m1 (it_i it) = Some m' ∧
    shape m' ∧ flat m' = F1 ++ f e :: F2 ∧
    (∀ it' k', at_pos m it' k' → at_pos m' it' k').
Proof.
  intros Hs Hk HF Hlen.
  destruct (store_at m it k f F1 e F2 Hk HF Hlen)
    as (ls1 & l1 & l2 & ls2 & Hl & Hi & -> & -> & ->).
  eexists _, _. split; [done|].
  destruct (shape_sizes m ls1 _ (l1 ++ f e :: l2) ls2 Hs Hl) as (H1 & H2 & H3); [len|].
  rewrite Hi, (refresh_at _ ls1 (l1 ++ f e :: l2) ls2); simpl; auto.
  2:{ by destruct l1. }
  2:{ rewrite (shape_maxes _ Hs), Hl. len. }
  split; [done|].
  assert (concat (ls1 ++ (l1 ++ f e :: l2) :: ls2) =
    (concat ls1 ++ l1) ++ f e :: l2 ++ concat ls2) as Hc.
  { rewrite concat_mid, <- !app_assoc. done. }
  split; [split; simpl|split; [done|]]; auto.
  - rewrite (maxes_middle m ls1 _ ls2 Hs Hl), insert_middle by len.
    by rewrite fmap_app, fmap_cons.
  - rewrite (shape_count _ Hs), HF. unfold flat; simpl. rewrite Hc. f_equal. len.
  - intros it' k' Hp. eapply (at_pos_same m); eauto. len.
Qed.

End shape.

Section balance.
Context {P : Type} `{Layout P}.
Variable load : nat.
Hypothesis load_ge_2 : (2 ≤ load)%nat.
Implicit Types (m : @extmap P) (it : iterator) (e : extent P)
  (ls : list (list (extent P))) (l F : list (extent P)).
Abbreviation shape := (shape load).

(** ** Insertion *)

(** [shape] except that list [i] may have grown up to [3 * load]. *)
Lemma expand_at m it ls1 l ls2 :
  lists m = ls1 ++ l :: ls2 → it_i it = length ls1 → (it_j it ≤ length l)%nat →
  maxes m = list_max <$> lists m →
  Forall (λ l, l ≠ []) (lists m) →
  Forall (λ l, (length l < 2 * load)%nat) (ls1 ++ ls2) →
  (length l < 3 * load)%nat →
  count m = Z.of_nat (length (flat m)) →
  ((length (lists m) ≤ 1)%nat ∨
   Forall (λ l, (load / 2 < length l)%nat) (lists m)) →
  ∃ m' it', _expand load m it = Some (m', it') ∧ shape m' ∧ flat m' = flat m ∧
    pre_pos m' it' (length (concat ls1) + it_j it) ∧
    ((it_j it < length l)%nat → at_pos m' it' (length (concat ls1) + it_j it)).
Proof.
  intros Hl Hi Hj Hmx Hne Hsm Hl3 Hc Hlg. unfold _expand.
  rewrite Hi, (lookup_lists m ls1 l ls2) by done. simpl.
  rewrite !Forall_app in Hsm. destruct Hsm as [Hsm1 Hsm2].
  destruct (load * 2 <=? length l)%nat eqn:E; zb.
  2:{ exists m, it. split; [done|]. split; [split; auto|split; [done|]].
      { rewrite Hl, Forall_app, Forall_cons. repeat split; auto. lia. }
      split; [exists ls1, l, ls2; auto|]. intros. by eapply at_in. }
  assert (take load l ≠ []) as Hn1.
  { intros E'. apply (f_equal length) in E'. len. }
  assert (drop load l ≠ []) as Hn2.
  { intros E'. apply (f_equal length) in E'. len. }
  destruct (last_is_Some _ Hn1) as (e1 & He1 & Hm1).
  destruct (last_is_Some _ Hn2) as (e2 & He2 & Hm2).
  rewrite He1, He2. simpl.
  rewrite Hmx, Hl, fmap_app, fmap_cons, lookup_middle by len. simpl.
  rewrite !insert_middle by len.
  change (take load l :: ls2) with ([take load l] ++ ls2).
  change (e_limit e1 :: (list_max <$> ls2)) with ([e_limit e1] ++ (list_max <$> ls2)).
  rewrite (app_assoc ls1), (app_assoc (list_max <$> ls1)).
  rewrite !list_insert_at_app by len. rewrite <- !app_assoc. simpl.
  eexists _, _. split; [done|].
  assert (concat (ls1 ++ take load l :: drop load l :: ls2) = flat m) as Hflat.
  { unfold flat. rewrite Hl, !concat_mid. simpl.
    by rewrite (app_assoc (take load l)), take_drop. }
  rewrite Hl, !Forall_app, !Forall_cons in Hne. destruct Hne as (Hne1 & _ & Hne2).
  split; [split; simpl; auto|split; [done|]].
  - by rewrite Forall_app, !Forall_cons.
  - rewrite fmap_app, !fmap_cons. by rewrite Hm1, Hm2.
  - unfold flat at 1. simpl. by rewrite Hflat.
  - rewrite Forall_app, !Forall_cons. repeat split; auto; len.
  - right. pose proof (Nat.div_lt load 2 ltac:(lia) ltac:(lia)).
    rewrite Forall_app, !Forall_cons. rewrite Hl in Hlg.
    rewrite Forall_app, Forall_cons in Hlg.
    assert (Forall (λ l, (load / 2 < length l)%nat) ls1 ∧
            Forall (λ l, (load / 2 < length l)%nat) ls2) as [? ?].
    { destruct Hlg as [Hlg|?]; [|tauto]. len. destruct ls1, ls2; simpl in *; try lia.
      split; constructor. }
    repeat split; auto; len.
  - case_if.
    + split.
      * exists (ls1 ++ [take load l]), (drop load l), ls2. simpl.
        rewrite <- app_assoc, concat_app. simpl. repeat split; len.
      * intros Hlt. apply (at_in _ _ _ (ls1 ++ [take load l]) (drop load l) ls2); simpl;
          rewrite <- ?app_assoc, ?concat_app; simpl; auto; len.
    + split.
      * exists ls1, (take load l), (drop load l :: ls2). simpl. repeat split; len.
      * intros Hlt. apply (at_in _ _ _ ls1 (take load l) (drop load l :: ls2));
          simpl; auto; len.
Qed.

Lemma first_shape m e : shape m → lists m = [] → shape (first m e).
Proof.
  intros Hs Hl. unfold first. rewrite Hl, (shape_maxes load _ Hs), Hl.
  split; simpl; auto. constructor; [simpl; lia|constructor].
Qed.

Lemma insert_at m it e F1 F2 :
  shape m → flat m = F1 ++ F2 → at_pos m it (length F1) →
  ∃ m' it', _insert load m it e = Some (m', it') ∧ shape m' ∧
    flat m' = F1 ++ e :: F2 ∧ at_pos m' it' (length F1).
Proof.
  intros Hs HF Hk. unfold _insert. case_if.
  - assert (lists m = []) as Hl by by apply (shape_count_0 load m Hs). unfold flat in HF. rewrite Hl in HF.
    symmetry in HF. apply app_eq_nil in HF as [-> ->].
    assert (shape (first m e)) as Hs' by by apply first_shape.
    eexists _, _. split; [done|]. split; [done|].
    unfold flat, first. rewrite Hl. split; [done|].
    apply (at_in _ _ _ [] [e] []); simpl; auto.
  - assert (lists m ≠ []) as Hne by (by rewrite <- (shape_count_0 load m Hs)).
    apply pre_pos_of in Hk as (ls1 & l & ls2 & Hl & Hi & Hj & Hkk); [|done].
    rewrite Hi, (lookup_lists m ls1 l ls2) by done. simpl.
    rewrite assert_true by by apply Nat.leb_le. simpl.
    rewrite <- (take_drop (it_j it) l) in Hl.
    set (l1 := take (it_j it) l) in *. set (l2 := drop (it_j it) l) in *.
    assert (length l1 = it_j it) as Hl1 by (unfold l1; len).
    unfold list_insert_at. fold l1 l2.
    rewrite (refresh_at _ ls1 (l1 ++ e :: l2) ls2); simpl.
    2:{ rewrite Hl. by rewrite insert_middle. }
    2:{ by destruct l1. }
    2:{ rewrite (shape_maxes load _ Hs). len. }
    rewrite Hl, insert_middle by done.
    pose proof Hs as [Hne' Hmx Hc Hsm Hlg]. rewrite Hl in Hne', Hsm, Hlg.
    rewrite !Forall_app, !Forall_cons in Hne', Hsm.
    rewrite (maxes_middle load m ls1 _ ls2 Hs Hl), insert_middle by len.
    unfold flat in HF. rewrite Hl, concat_mid, <- app_assoc, app_assoc in HF.
    apply app_inj_1 in HF as [<- <-]; [|len].
    match goal with |- context [_expand _ ?m _] => set (m1 := m) end.
    destruct (expand_at m1 it ls1 (l1 ++ e :: l2) ls2)
      as (m' & it' & Hex & Hs' & Hf' & _ & Hat); unfold m1; simpl; auto.
    + len.
    + by rewrite fmap_app, fmap_cons.
    + rewrite Forall_app, Forall_cons. repeat split; try tauto. by destruct l1.
    + rewrite Forall_app. tauto.
    + len.
    + unfold flat. simpl. rewrite Hc. unfold flat. rewrite Hl, !concat_mid. len.
    + rewrite Forall_app, Forall_cons in *. len. destruct Hlg as [?|?]; [left; lia|right].
      repeat split; try tauto. destruct_and!. lia.
    + fold m1. exists m', it'. rewrite Hex. split; [done|]. split; [done|].
      rewrite Hf'. unfold flat, m1. simpl. rewrite concat_mid, <- !app_assoc.
      split; [done|]. rewrite length_app, Hl1. apply Hat. len.
Qed.

(** ** Erasure *)

(** Positions that are one past the end of a list move to the next list. *)
Lemma normalise_at m it k :
  shape m → pre_pos m it k →
  ∃ l, lists m !! it_i it = Some l ∧
    at_pos m (if (it_j it =? length l)%nat && negb (it_i it =? length (lists m) - 1)%nat
              then mk_iter (it_i it + 1) 0 else it) k.
Proof.
  intros Hs (ls1 & l & ls2 & Hl & Hi & Hj & ->). exists l.
  rewrite Hi. split; [by eapply lookup_lists|]. rewrite Hl.
  pose proof (shape_nonempty load _ Hs) as Hne.
  rewrite Hl, Forall_app, Forall_cons in Hne. destruct Hne as (_ & _ & Hne).
  case_if.
  - destruct ls2 as [|l2 ls2]; [len|]. apply Forall_cons in Hne as [Hne _].
    apply (at_in _ _ _ (ls1 ++ [l]) l2 ls2); simpl.
    + by rewrite Hl, <- app_assoc.
    + len.
    + destruct l2; simpl; [done|lia].
    + rewrite concat_app. simpl. len.
  - apply (at_pos_of _ _ _ l ls1 ls2); auto.
    destruct (decide (it_j it < length l)%nat) as [?|?]; [by left|right].
    destruct Heqb as [E|E]; zb; [lia|]. len. destruct ls2; [done|len].
Qed.

(** Merging list [pos] into the one before it. *)
Lemma merge_at m la lb ls1 ls2 j :
  lists m = ls1 ++ la :: lb :: ls2 →
  maxes m = list_max <$> lists m →
  Forall (λ l, l ≠ []) (lists m) →
  Forall (λ l, (length l < 2 * load)%nat) (lists m) →
  count m = Z.of_nat (length (flat m)) →
  (j ≤ length (la ++ lb))%nat → (length (la ++ lb) < 3 * load)%nat →
  (load / 2 < length (la ++ lb))%nat →
  Forall (λ l, (load / 2 < length l)%nat) (ls1 ++ ls2) →
  ∃ m' it',
    (m1 ← refresh_max (mk_extmap (<[length ls1 := la ++ lb]> (lists m)) (maxes m) (count m))
            (length ls1);
     _expand load (mk_extmap (delete (length ls1 + 1)%nat (lists m1))
                     (delete (length ls1 + 1)%nat (maxes m1)) (count m1))
       (mk_iter (length ls1) j)) = Some (m', it') ∧
    shape m' ∧ flat m' = flat m ∧ pre_pos m' it' (length (concat ls1) + j).
Proof.
  intros Hl Hmx Hne Hsm Hc Hj H3 Hlg Hg.
  rewrite Hl in Hne, Hsm. rewrite !Forall_app, !Forall_cons in Hne, Hsm.
  destruct Hne as (Hn1 & Hna & Hnb & Hn2). destruct Hsm as (Hs1 & Hsa & Hsb & Hs2).
  rewrite (refresh_at _ ls1 (la ++ lb) (lb :: ls2)); simpl.
  2:{ rewrite Hl. by apply insert_middle. }
  2:{ by destruct la. }
  2:{ rewrite Hmx. len. }
  rewrite Hl, insert_middle, Hmx, Hl, fmap_app, !fmap_cons, insert_middle by len.
  change ((la ++ lb) :: lb :: ls2) with ([la ++ lb] ++ lb :: ls2).
  change (list_max (la ++ lb) :: list_max lb :: (list_max <$> ls2))
    with ([list_max (la ++ lb)] ++ list_max lb :: (list_max <$> ls2)).
  rewrite !(app_assoc _ [_]), !delete_middle' by len. rewrite <- !app_assoc. simpl.
  match goal with |- context [_expand _ ?m ?it] => set (m1 := m); set (it1 := it) end.
  assert (flat m1 = flat m) as Hf1.
  { unfold flat, m1. simpl. rewrite Hl, !concat_mid. simpl. by rewrite <- !app_assoc. }
  destruct (expand_at m1 it1 ls1 (la ++ lb) ls2)
    as (m' & it' & Hex & Hs' & Hf' & Hp & _); unfold m1, it1; simpl; auto.
  - by rewrite fmap_app, fmap_cons.
  - rewrite Forall_app, Forall_cons. repeat split; auto. by destruct la.
  - by rewrite Forall_app.
  - rewrite Hc. by rewrite <- Hf1.
  - right. rewrite Forall_app in Hg. rewrite Forall_app, Forall_cons. tauto.
  - fold m1 it1. exists m', it'. rewrite Hex, Hf', Hf1. auto.
Qed.

(** A map whose list of [it] has just lost an element. *)
Lemma rebalance_at m it ls1 l ls2 :
  lists m = ls1 ++ l :: ls2 → it_i it = length ls1 → (it_j it ≤ length l)%nat →
  maxes m = list_max <$> lists m →
  Forall (λ l, l ≠ []) (lists m) →
  Forall (λ l, (length l < 2 * load)%nat) (lists m) →
  count m = Z.of_nat (length (flat m)) →
  ((length (lists m) ≤ 1)%nat ∨ Forall (λ l, (load / 2 < length l)%nat) (ls1 ++ ls2)) →
  ∃ m' it', _erase_rebalance load m it = Some (m', it') ∧ shape m' ∧
    flat m' = flat m ∧ pre_pos m' it' (length (concat ls1) + it_j it).
Proof.
  intros Hl Hi Hj Hmx Hne Hsm Hc Hlg. unfold _erase_rebalance.
  rewrite Hi, (lookup_lists m ls1 l ls2) by done. simpl.
  assert (pre_pos m it (length (concat ls1) + it_j it)) as Hpre by (exists ls1, l, ls2; auto).
  destruct (load / 2 <? length l)%nat eqn:E1; zb.
  { exists m, it. split; [done|]. split; [|done]. split; auto.
    destruct Hlg as [?|Hlg]; [by left|right].
    rewrite Hl. rewrite Forall_app in Hlg. rewrite Forall_app, Forall_cons. tauto. }
  destruct (1 <? length (lists m))%nat eqn:E2; zb.
  2:{ rewrite Hl in Hne. rewrite Forall_app, Forall_cons in Hne.
      destruct Hne as (Hn1 & Hn & Hn2).
      assert ((0 <? length l)%nat = true) as -> by (destruct l; done).
      rewrite (refresh_at m ls1 l ls2); auto; [|rewrite Hmx; len].
      simpl. eexists _, _. split; [done|]. rewrite Hmx, Hl, fmap_app, fmap_cons.
      rewrite insert_middle by len. split; [split; simpl|split].
      - by rewrite Forall_app, Forall_cons.
      - by rewrite fmap_app, fmap_cons.
      - rewrite Hc. unfold flat. simpl. by rewrite Hl.
      - by rewrite <- Hl.
      - left. rewrite <- Hl. lia.
      - unfold flat. simpl. by rewrite Hl.
      - exists ls1, l, ls2. by rewrite <- Hi. }
  destruct Hlg as [Hlg|Hlg]; [lia|]. rewrite Forall_app in Hlg. destruct Hlg as [Hg1 Hg2].
  pose proof Hsm as Hsm'. rewrite Hl, Forall_app, Forall_cons in Hsm'.
  destruct Hsm' as (Hs1 & Hs0 & Hs2).
  assert (2 * (load / 2) ≤ load)%nat by (apply Nat.Div0.mul_div_le).
  destruct (0 <? length ls1)%nat eqn:E3; zb.
  - destruct ls1 as [|lp ls1 _] using rev_ind; [simpl in *; lia|].
    rewrite Forall_app, Forall_cons in Hs1, Hg1. destruct_and!.
    rewrite <- app_assoc in Hl. simpl in Hl. rewrite length_app. simpl.
    replace (length ls1 + 1 - 1)%nat with (length ls1) by lia.
    rewrite (lookup_lists m ls1 lp (l :: ls2)) by done.
    assert (lists m !! (length ls1 + 1)%nat = Some l) as ->.
    { rewrite Hl. rewrite lookup_app_r by lia.
      by replace (length ls1 + 1 - length ls1)%nat with 1%nat by lia. }
    simpl. rewrite Nat.eqb_refl.
    destruct (merge_at m lp l ls1 ls2 (it_j it + length lp)%nat Hl)
      as (m' & it' & Hr & ? & ? & Hp); auto; try (len; lia).
    { rewrite Forall_app. auto. }
    exists m', it'. rewrite Hr. split; [done|]. split; [done|]. split; [done|].
    rewrite concat_app in *. simpl. rewrite app_nil_r.
    replace (length (concat ls1 ++ lp) + it_j it)%nat
      with (length (concat ls1) + (it_j it + length lp))%nat by len. done.
  - destruct ls1 as [|? ?]; [|simpl in *; lia]. simpl in *.
    destruct ls2 as [|lq ls2]; [rewrite Hl in E2; simpl in *; lia|].
    rewrite Forall_cons in Hs2, Hg2. destruct_and!.
    assert (lists m !! 0%nat = Some l) as -> by (by rewrite Hl).
    assert (lists m !! 1%nat = Some lq) as -> by (by rewrite Hl). simpl.
    destruct (merge_at m l lq [] ls2 (it_j it) Hl)
      as (m' & it' & Hr & ? & ? & Hp); auto; try (len; lia).
    exists m', it'. simpl in *. rewrite Hr. auto.
Qed.

Lemma erase_at m it e F1 F2 :
  shape m → flat m = F1 ++ e :: F2 → at_pos m it (length F1) →
  ∃ m' it', _erase load m it = Some (m', it') ∧ shape m' ∧
    flat m' = F1 ++ F2 ∧ at_pos m' it' (length F1).
Proof.
  intros Hs HF Hk.
  destruct (store_at m it _ id F1 e F2 Hk HF eq_refl)
    as (ls1 & l1 & l2 & ls2 & Hl & Hi & -> & -> & _).
  assert (it_j it = length l1) as Hj.
  { destruct Hk as [ks1 q ks2 Hq Hqi Hqj Hqk|_ Hqk].
    - rewrite Hl in Hq. apply app_inj_1 in Hq as [<- _]; [len|congruence].
    - rewrite HF in Hqk. len. }
  unfold _erase. rewrite Hi, (lookup_lists m ls1 (l1 ++ e :: l2) ls2), Hj by done. simpl.
  rewrite assert_true by (apply Nat.ltb_lt; len). simpl.
  rewrite (delete_middle l1), Hl, insert_middle by done.
  pose proof Hs as [Hne Hmx Hc Hsm Hlg]. rewrite Hl in Hne, Hsm, Hlg.
  rewrite !Forall_app, !Forall_cons in Hne, Hsm.
  destruct (0 <? length (l1 ++ l2))%nat eqn:E; zb.
  - rewrite (refresh_at _ ls1 (l1 ++ l2) ls2); simpl; auto.
    2:{ intros E'. rewrite E' in E. simpl in *. lia. }
    2:{ rewrite Hmx, Hl. len. }
    rewrite (maxes_middle load m ls1 _ ls2 Hs Hl), insert_middle by len.
    match goal with |- context [_erase_rebalance _ ?m _] => set (m1 := m) end.
    destruct (rebalance_at m1 it ls1 (l1 ++ l2) ls2)
      as (m' & it' & Hr & Hs' & Hf' & Hp); unfold m1; simpl; auto.
    + len.
    + by rewrite fmap_app, fmap_cons.
    + rewrite Forall_app, Forall_cons. repeat split; try tauto.
      intros E'. rewrite E' in E. simpl in *. lia.
    + rewrite Forall_app, Forall_cons. repeat split; try tauto. destruct_and!. len.
    + rewrite Hc. unfold flat. simpl. rewrite Hl, !concat_mid. len.
    + rewrite Forall_app, Forall_cons in Hlg. rewrite Forall_app. len. tauto.
    + fold m1. rewrite Hr. simpl. destruct (normalise_at m' it' _ Hs' Hp) as (l' & Hl' & Hat).
      rewrite Hl'. simpl. rewrite length_app, <- Hj.
      assert (flat m' = (concat ls1 ++ l1) ++ l2 ++ concat ls2) as Hf.
      { rewrite Hf'. unfold flat, m1. simpl. rewrite concat_mid. by rewrite <- !app_assoc. }
      case_if; eexists _, _; eauto.
  - assert (l1 = [] ∧ l2 = []) as [-> ->].
    { len. destruct l1, l2; simpl in *; try lia; done. }
    simpl in *. assert (ls1 = [] ∧ ls2 = []) as [-> ->].
    { pose proof (Nat.div_le_lower_bound load 2 1 ltac:(lia) ltac:(lia)).
      rewrite Forall_app, Forall_cons in Hlg. len.
      destruct Hlg as [?|Hlg]; [|destruct_and!; lia].
      destruct ls1, ls2; simpl in *; try lia; done. }
    rewrite Hmx, Hl. simpl. eexists _, _. split; [done|]. split.
    { split; simpl; auto. rewrite Hc. unfold flat. rewrite Hl. done. }
    unfold flat; simpl. split; [done|]. by apply at_end.
Qed.
End balance.
