(* ===== verification/ExtMapFlat.v ===== *)
(** * Sorted lists of extents

    The flat view of an extent map: order, disjointness, the partial function a
    list of extents denotes, and the parts of the extents an update of
    [base, limit) keeps and removes. *)

From Stdlib Require Import Sorting.Sorted.
From S2P Require Import Prelude Extent ExtMap ExtMapShape.
Import Extmap.

Lemma StronglySorted_app_iff {A} (R : A → A → Prop) (l k : list A) :
  StronglySorted R (l ++ k) ↔
  StronglySorted R l ∧ StronglySorted R k ∧ (∀ x y, x ∈ l → y ∈ k → R x y).
Proof.
  induction l as [|a l IH]; simpl.
  - split; [intros ?; repeat split; auto; [constructor|set_solver]|tauto].
  - split.
    + intros Hs. apply StronglySorted_inv in Hs as [Hs Ha]. apply IH in Hs as (?&?&Hlk).
      rewrite Forall_app, !Forall_forall in Ha. destruct Ha as [Ha1 Ha2].
      repeat split; auto.
      * constructor; auto. by rewrite Forall_forall.
      * intros x y Hx Hy. apply elem_of_cons in Hx as [->|Hx]; auto.
    + intros (Hs & Hk & Hlk). apply StronglySorted_inv in Hs as [Hs Ha].
      constructor.
      * apply IH. repeat split; auto. set_solver.
      * rewrite Forall_app. split; [done|]. apply Forall_forall. set_solver.
Qed.

Lemma omap_app' {X Y} (f : X → option Y) (l k : list X) :
  omap f (l ++ k) = omap f l ++ omap f k.
Proof. apply omap_app. Qed.

Lemma omap_cons' {X Y} (f : X → option Y) x (l : list X) :
  omap f (x :: l) = match f x with Some y => y :: omap f l | None => omap f l end.
Proof. done. Qed.

Section flat.
Context {P : Type} `{LayoutOk P}.
Implicit Types (e : extent P) (l F A B C D : list (extent P)).

(** ** Order *)

Definition precedes e1 e2 : Prop := e_limit e1 ≤ e_base e2.

Definition ordered F : Prop := StronglySorted precedes F ∧ Forall ext_ok F.

(** The partial function a list of extents denotes. *)
Fixpoint denote F (x : Z) : option P :=
  match F with
  | [] => None
  | e :: F => match ext_denote e x with Some p => Some p | None => denote F x end
  end.

Lemma denote_app F G x :
  denote (F ++ G) x = match denote F x with Some p => Some p | None => denote G x end.
Proof.
  induction F as [|e F IH]; simpl; [done|]. destruct (ext_denote e x); auto.
Qed.

Lemma ext_denote_out e x : ¬ (e_base e ≤ x < e_limit e) → ext_denote e x = None.
Proof.
  intros Hx. unfold ext_denote. by rewrite (proj2 (in_range_false _ _ _) Hx).
Qed.

Lemma ext_denote_in e x :
  e_base e ≤ x < e_limit e → ext_denote e x = Some (p_add (e_ptr e) (x - e_base e)).
Proof.
  intros Hx. unfold ext_denote. by rewrite (proj2 (in_range_true _ _ _) Hx).
Qed.

Lemma denote_none F x :
  Forall (λ e, ¬ (e_base e ≤ x < e_limit e)) F → denote F x = None.
Proof.
  induction 1 as [|e F He HF IH]; simpl; [done|]. by rewrite ext_denote_out.
Qed.

Lemma ext_ok_pos e : ext_ok e → e_base e < e_limit e.
Proof. unfold ext_ok, e_limit. intros (?&?&?&?). lia. Qed.

Lemma ordered_app F G :
  ordered (F ++ G) ↔
  ordered F ∧ ordered G ∧ (∀ e1 e2, e1 ∈ F → e2 ∈ G → precedes e1 e2).
Proof.
  unfold ordered. rewrite StronglySorted_app_iff, Forall_app. tauto.
Qed.

Lemma ordered_mid F e G :
  ordered (F ++ e :: G) ↔
  ordered F ∧ ordered G ∧ ext_ok e ∧ Forall (λ a, e_limit a ≤ e_base e) F ∧
  Forall (λ b, e_limit e ≤ e_base b) G.
Proof.
  rewrite ordered_app. unfold ordered at 2, precedes. rewrite Forall_cons. split.
  - intros (HF & (HG & He & HGo) & Hx). apply StronglySorted_inv in HG as [HG HeG].
    split; [done|]. split; [done|]. split; [done|]. split; [|done].
    apply Forall_forall. intros a Ha. apply Hx; set_solver.
  - intros (HF & [HG HGo] & He & HFe & HeG). rewrite !Forall_forall in *.
    split; [done|]. split; [split; [constructor|]; auto; by apply Forall_forall|].
    intros e1 e2 H1 [->|H2]%elem_of_cons; [auto|].
    specialize (HFe _ H1). specialize (HeG _ H2). pose proof (ext_ok_pos e He). lia.
Qed.

Lemma ordered_last l e :
  ordered l → last l = Some e → Forall (λ a, e_limit a ≤ e_limit e) l.
Proof.
  intros Ho (l' & ->)%last_Some. apply ordered_mid in Ho as (_ & _ & He & Hl & _).
  apply Forall_app. split; [|by constructor].
  eapply Forall_impl; [done|]. simpl. intros a Ha. pose proof (ext_ok_pos e He). lia.
Qed.

Lemma ordered_list_max l :
  ordered l → Forall (λ a, e_limit a ≤ list_max l) l.
Proof.
  intros Ho. unfold list_max. destruct (last l) as [e|] eqn:E.
  - by apply ordered_last.
  - apply last_None in E. subst. constructor.
Qed.

(** A list that comes later has a larger maximum. *)
Lemma list_max_lt l l' :
  ordered (l ++ l') → l ≠ [] → l' ≠ [] → list_max l < list_max l'.
Proof.
  intros Ho Hl Hl'. destruct (last_is_Some l Hl) as (e & He & ->).
  destruct (last_is_Some l' Hl') as (e' & He' & ->).
  apply ordered_app in Ho as (_ & [_ Ho'] & Hx).
  apply last_Some in He as (k & ->). apply last_Some in He' as (k' & ->).
  apply Forall_app in Ho' as [_ Ho']. apply Forall_cons in Ho' as [Ho' _].
  pose proof (Hx e e' ltac:(set_solver) ltac:(set_solver)) as Hp.
  unfold precedes in Hp. apply ext_ok_pos in Ho'. lia.
Qed.

(** ** What an update removes and keeps

    [keep_lt b], [keep_ge l] and [keep_in b l] are the parts of the extents
    below [b], from [l] on, and inside [b, l), as (base, limit, pointer)
    triples. *)

Definition cut_lt (b : Z) e : option (Z * Z * P) :=
  if e_limit e <=? b then Some (vals e)
  else if e_base e <? b then Some (e_base e, b, e_ptr e) else None.

Definition cut_ge (l : Z) e : option (Z * Z * P) :=
  if l <=? e_base e then Some (vals e)
  else if l <? e_limit e then Some (l, e_limit e, p_add (e_ptr e) (l - e_base e))
  else None.

Definition cut_in (b l : Z) e : option (Z * Z * P) :=
  if Z.max (e_base e) b <? Z.min (e_limit e) l then Some (vals_in b l e) else None.

Definition keep_lt (b : Z) F := omap (cut_lt b) F.
Definition keep_ge (l : Z) F := omap (cut_ge l) F.
Definition keep_in (b l : Z) F := omap (cut_in b l) F.

Ltac cut_tac :=
  repeat match goal with
  | |- context [(?x <=? ?y)%Z] =>
      first [rewrite (proj2 (Z.leb_le x y)) by lia | rewrite (proj2 (Z.leb_gt x y)) by lia]
  | |- context [(?x <? ?y)%Z] =>
      first [rewrite (proj2 (Z.ltb_lt x y)) by lia | rewrite (proj2 (Z.ltb_ge x y)) by lia]
  end.

Lemma cut_lt_all (b : Z) e : e_limit e ≤ b → cut_lt b e = Some (vals e).
Proof. intros. unfold cut_lt. by cut_tac. Qed.
Lemma cut_lt_mid (b : Z) e :
  e_base e < b < e_limit e → cut_lt b e = Some (e_base e, b, e_ptr e).
Proof. intros. unfold cut_lt. by cut_tac. Qed.
Lemma cut_lt_none (b : Z) e : ext_ok e → b ≤ e_base e → cut_lt b e = None.
Proof. intros ?%ext_ok_pos ?. unfold cut_lt. by cut_tac. Qed.

Lemma cut_ge_all (l : Z) e : l ≤ e_base e → cut_ge l e = Some (vals e).
Proof. intros. unfold cut_ge. by cut_tac. Qed.
Lemma cut_ge_mid (l : Z) e :
  e_base e < l < e_limit e →
  cut_ge l e = Some (l, e_limit e, p_add (e_ptr e) (l - e_base e)).
Proof. intros. unfold cut_ge. by cut_tac. Qed.
Lemma cut_ge_none (l : Z) e : ext_ok e → e_limit e ≤ l → cut_ge l e = None.
Proof. intros ?%ext_ok_pos ?. unfold cut_ge. by cut_tac. Qed.

Lemma cut_in_none (b l : Z) e :
  e_limit e ≤ b ∨ l ≤ e_base e → cut_in b l e = None.
Proof. intros. unfold cut_in. by cut_tac. Qed.
Lemma cut_in_some (b l : Z) e :
  e_base e < l → b < e_limit e → b < l → ext_ok e → cut_in b l e = Some (vals_in b l e).
Proof. intros ??? ?%ext_ok_pos. unfold cut_in. by cut_tac. Qed.

Lemma keep_lt_all (b : Z) F :
  Forall (λ e, e_limit e ≤ b) F → keep_lt b F = vals <$> F.
Proof.
  induction 1 as [|e F He HF IH]; [done|]. unfold keep_lt in *.
  by rewrite omap_cons', cut_lt_all, IH.
Qed.

Lemma keep_lt_none (b : Z) F :
  Forall ext_ok F → Forall (λ e, b ≤ e_base e) F → keep_lt b F = [].
Proof.
  intros Hok. induction 1 as [|e F He HF IH]; [done|].
  apply Forall_cons in Hok as [Hok Hoks]. unfold keep_lt in *.
  rewrite omap_cons', cut_lt_none; auto.
Qed.

Lemma keep_ge_all (l : Z) F :
  Forall (λ e, l ≤ e_base e) F → keep_ge l F = vals <$> F.
Proof.
  induction 1 as [|e F He HF IH]; [done|]. unfold keep_ge in *.
  by rewrite omap_cons', cut_ge_all, IH.
Qed.

Lemma keep_ge_none (l : Z) F :
  Forall ext_ok F → Forall (λ e, e_limit e ≤ l) F → keep_ge l F = [].
Proof.
  intros Hok. induction 1 as [|e F He HF IH]; [done|].
  apply Forall_cons in Hok as [Hok Hoks]. unfold keep_ge in *.
  rewrite omap_cons', cut_ge_none; auto.
Qed.

Lemma keep_in_none (b l : Z) F :
  Forall (λ e, e_limit e ≤ b ∨ l ≤ e_base e) F → keep_in b l F = [].
Proof.
  induction 1 as [|e F He HF IH]; [done|]. unfold keep_in in *.
  by rewrite omap_cons', cut_in_none, IH.
Qed.

Lemma cut_in_full (b l : Z) e :
  ext_ok e → b ≤ e_base e → e_limit e ≤ l → cut_in b l e = Some (vals e).
Proof.
  intros Hok Hb Hl. pose proof (ext_ok_pos e Hok). rewrite cut_in_some by (auto; lia).
  unfold vals_in, vals. cut_tac. by rewrite Z.min_l.
Qed.

Lemma vals_inv e (b l : Z) p :
  vals e = (b, l, p) → e_base e = b ∧ e_limit e = l ∧ e_ptr e = p.
Proof. unfold vals. intros [=]. auto. Qed.

(** ** The first conditional of [_update] *)

Lemma mk_extent_vals b n p :
  0 ≤ b < LBA_LIMIT → span_ok p n → vals (mk_extent b n p) = (b, b + n, p).
Proof. intros. by rewrite mk_extent_fields. Qed.

(** The part of an extent between two of its sectors. *)
Lemma mid_extent e (b l : Z) :
  ext_ok e → e_base e ≤ b → b < l → l ≤ e_limit e →
  ext_ok (mk_extent b (l - b) (p_add (e_ptr e) (b - e_base e))) ∧
  vals (mk_extent b (l - b) (p_add (e_ptr e) (b - e_base e))) =
    (b, l, p_add (e_ptr e) (b - e_base e)).
Proof.
  intros (Hb & Hlen & Hlim & Hsp) H1 H2 H3. unfold e_limit in *.
  assert (span_ok (p_add (e_ptr e) (b - e_base e)) (l - b))
    by (apply (span_sub _ (e_len e)); auto; lia).
  split; [apply mk_extent_ok; auto; lia|].
  rewrite mk_extent_vals by (auto; lia). do 2 f_equal. lia.
Qed.

(** Progress of an update of [base, limit): [A1] is settled, [B1] remains,
    [del1] has been removed. *)
Definition mid_spec (base limit : Z) F A1 B1 del1 : Prop :=
  ordered (A1 ++ B1) ∧
  Forall (λ e, e_limit e ≤ base) A1 ∧ Forall (λ e, base ≤ e_base e) B1 ∧
  vals <$> A1 = keep_lt base F ∧
  keep_ge limit B1 = keep_ge limit F ∧
  (vals <$> del1) ++ keep_in base limit B1 = keep_in base limit F.

(** The flat effect of cutting the extent [e] that straddles [base]. *)
Lemma left_flat base limit A e B :
  ordered (A ++ e :: B) → Forall (λ e, e_limit e ≤ base) A →
  0 ≤ base → base < limit → e_base e < base < e_limit e → e_limit e ≤ limit →
  mid_spec base limit (A ++ e :: B) (A ++ [relimit base e]) B
    [mk_extent base (e_limit e - base) (p_add (e_ptr e) (base - e_base e))].
Proof.
  intros Ho HA Hb Hbl He Hlim. pose proof Ho as (HoA & HoB & Hok & HAe & HeB)%ordered_mid.
  destruct (relimit_ok e base Hok) as [Hok' Hv]; [lia|].
  destruct (mid_extent e base (e_limit e) Hok) as [Hok2 Hv2]; try lia.
  assert (Forall (λ b, base ≤ e_base b) B) as HB
    by (eapply Forall_impl; [exact HeB|]; simpl; intros; lia).
  pose proof Hv as (Hv1 & Hv2' & Hv3)%vals_inv.
  split; [|split; [|split; [|split; [|split]]]]; auto.
  - rewrite <- app_assoc. simpl. apply ordered_mid. rewrite Hv1, Hv2'. auto.
  - rewrite Forall_app. split; auto. constructor; [lia|done].
  - unfold keep_lt. rewrite omap_app', fmap_app. fold (keep_lt base A).
    rewrite keep_lt_all by done. f_equal. rewrite omap_cons', cut_lt_mid by lia.
    change (omap (cut_lt base) B) with (keep_lt base B).
    rewrite keep_lt_none by (auto; apply HoB). by rewrite fmap_cons, Hv.
  - unfold keep_ge. rewrite omap_app'. fold (keep_ge limit A).
    rewrite (keep_ge_none limit A); [|apply HoA|eapply Forall_impl; [exact HA|simpl; lia]].
    rewrite app_nil_l, omap_cons'. by rewrite cut_ge_none by (auto; lia).
  - unfold keep_in. rewrite omap_app'. fold (keep_in base limit A).
    rewrite (keep_in_none base limit A); [|eapply Forall_impl; [exact HA|simpl; auto]].
    rewrite app_nil_l, omap_cons', cut_in_some by (auto; lia).
    rewrite fmap_cons, Hv2. simpl. f_equal. unfold vals_in. rewrite (proj2 (Z.ltb_lt _ _)) by lia.
    do 2 f_equal. lia.
Qed.

(** The flat effect of punching a hole into the extent [e]. *)
Lemma bisect_flat base limit A e B :
  ordered (A ++ e :: B) → Forall (λ e, e_limit e ≤ base) A →
  0 ≤ base → base < limit → e_base e < base → limit < e_limit e →
  mid_spec base limit (A ++ e :: B) (A ++ [relimit base e])
    (mk_extent limit (e_limit e - limit) (p_add (e_ptr e) (limit - e_base e)) :: B)
    [mk_extent base (limit - base) (p_add (e_ptr e) (base - e_base e))].
Proof.
  intros Ho HA Hb Hbl He Hlim. pose proof Ho as (HoA & HoB & Hok & HAe & HeB)%ordered_mid.
  destruct (relimit_ok e base Hok) as [Hok' Hv]; [lia|].
  destruct (mid_extent e base limit Hok) as [Hok2 Hv2]; try lia.
  destruct (mid_extent e limit (e_limit e) Hok) as [Hok3 Hv3]; try lia.
  set (new := mk_extent limit _ _) in *. set (old := mk_extent base _ _) in *.
  pose proof Hv as (Hr1 & Hr2 & Hr3)%vals_inv.
  pose proof Hv3 as (Hn1 & Hn2 & Hn3)%vals_inv.
  assert (Forall (λ b, limit ≤ e_base b) B) as HB
    by (eapply Forall_impl; [exact HeB|]; simpl; intros; lia).
  split; [|split; [|split; [|split; [|split]]]].
  - rewrite <- app_assoc. simpl. apply ordered_mid. rewrite Hr1, Hr2.
    split; [done|]. split; [|split; [done|split; [done|]]].
    + apply (ordered_mid []). rewrite Hn2. split; [split; constructor|]. auto.
    + constructor; [lia|]. eapply Forall_impl; [exact HB|simpl; lia].
  - rewrite Forall_app. split; auto. constructor; [lia|done].
  - constructor; [lia|]. eapply Forall_impl; [exact HB|simpl; lia].
  - unfold keep_lt. rewrite omap_app', fmap_app. fold (keep_lt base A).
    rewrite keep_lt_all by done. f_equal. rewrite omap_cons', cut_lt_mid by lia.
    change (omap (cut_lt base) B) with (keep_lt base B).
    rewrite keep_lt_none; [|apply HoB|eapply Forall_impl; [exact HB|simpl; lia]].
    by rewrite fmap_cons, Hv.
  - unfold keep_ge. rewrite omap_app'. fold (keep_ge limit A).
    rewrite (keep_ge_none limit A); [|apply HoA|eapply Forall_impl; [exact HA|simpl; lia]].
    rewrite app_nil_l, !omap_cons', (cut_ge_all _ new), (cut_ge_mid _ e) by lia.
    by rewrite Hv3.
  - unfold keep_in. rewrite omap_app'. fold (keep_in base limit A).
    rewrite (keep_in_none base limit A); [|eapply Forall_impl; [exact HA|simpl; auto]].
    rewrite app_nil_l, !omap_cons', (cut_in_none _ _ new), (cut_in_some _ _ e) by (auto; lia).
    change (omap (cut_in base limit) B) with (keep_in base limit B).
    rewrite keep_in_none by (eapply Forall_impl; [exact HB|simpl; auto]).
    rewrite fmap_cons, Hv2. simpl. f_equal. unfold vals_in. rewrite (proj2 (Z.ltb_lt _ _)) by lia.
    do 2 f_equal. lia.
Qed.

(** Nothing straddles [base]. *)
Lemma nocut_flat base limit A B :
  ordered (A ++ B) → Forall (λ e, e_limit e ≤ base) A → base < limit →
  Forall (λ e, base ≤ e_base e) B →
  mid_spec base limit (A ++ B) A B [].
Proof.
  intros Ho HA Hbl HB. pose proof Ho as (HoA & HoB & _)%ordered_app.
  split; [|split; [|split; [|split; [|split]]]]; auto.
  - unfold keep_lt. rewrite omap_app'. fold (keep_lt base A) (keep_lt base B).
    rewrite keep_lt_all, (keep_lt_none base B), app_nil_r; auto. apply HoB.
  - unfold keep_ge at 2. rewrite omap_app'. fold (keep_ge limit A).
    rewrite (keep_ge_none limit A); [done|apply HoA|].
    eapply Forall_impl; [exact HA|simpl; lia].
  - unfold keep_in at 2. rewrite omap_app'. fold (keep_in base limit A).
    rewrite (keep_in_none base limit A); [done|].
    eapply Forall_impl; [exact HA|simpl; auto].
Qed.

Lemma suffix_base base e B :
  ordered (e :: B) → base ≤ e_base e → Forall (λ e, base ≤ e_base e) (e :: B).
Proof.
  intros Ho Hb. apply (ordered_mid [] e B) in Ho as (_ & _ & He & _ & HB).
  constructor; [done|]. eapply Forall_impl; [exact HB|].
  simpl. pose proof (ext_ok_pos e He). intros. lia.
Qed.

(** ** Removing and cutting on the right *)

Lemma mid_spec_erase base limit F A e D del :
  mid_spec base limit F A (e :: D) del →
  base ≤ e_base e → e_limit e ≤ limit →
  mid_spec base limit F A D (del ++ [e]).
Proof.
  intros (Ho & HA & HD & H1 & H2 & H3) Hb Hl.
  pose proof Ho as (HoA & HoD & He & HAe & HeD)%ordered_mid.
  apply Forall_cons in HD as [_ HD].
  split; [|split; [|split; [|split; [|split]]]]; auto.
  - apply ordered_app. split; [done|]. split; [done|]. intros a d Ha Hd.
    rewrite !Forall_forall in *. unfold precedes.
    specialize (HAe _ Ha). specialize (HeD _ Hd). pose proof (ext_ok_pos e He). lia.
  - rewrite <- H2. unfold keep_ge. by rewrite omap_cons', cut_ge_none.
  - rewrite <- H3. unfold keep_in. rewrite omap_cons', cut_in_full by done.
    by rewrite fmap_app, <- app_assoc.
Qed.

(** The result of removing [base, limit) from [F]: the settled part [A], the
    rest [D] and the removed extents. *)
Definition cut_spec (base limit : Z) F A D del : Prop :=
  ordered (A ++ D) ∧
  Forall (λ e, e_limit e ≤ base) A ∧ Forall (λ e, limit ≤ e_base e) D ∧
  vals <$> A = keep_lt base F ∧
  vals <$> D = keep_ge limit F ∧
  vals <$> del = keep_in base limit F.

Lemma mid_spec_done base limit F A D del :
  mid_spec base limit F A D del → Forall (λ e, limit ≤ e_base e) D →
  cut_spec base limit F A D del.
Proof.
  intros (Ho & HA & _ & H1 & H2 & H3) HD.
  split; [|split; [|split; [|split; [|split]]]]; auto.
  - by rewrite <- H2, keep_ge_all.
  - rewrite <- H3, keep_in_none, app_nil_r; [done|].
    eapply Forall_impl; [exact HD|simpl; auto].
Qed.

Lemma mid_spec_right base limit F A e D del :
  mid_spec base limit F A (e :: D) del →
  e_base e < limit < e_limit e → 0 ≤ base →
  cut_spec base limit F A (rebase limit e :: D)
    (del ++ [mk_extent (e_base e) (limit - e_base e) (e_ptr e)]) ∧
  e_limit (rebase limit e) = e_limit e.
Proof.
  intros (Ho & HA & HD & H1 & H2 & H3) Hl Hb.
  pose proof Ho as (HoA & HoD & He & HAe & HeD)%ordered_mid.
  apply Forall_cons in HD as [HDe HD].
  destruct (rebase_ok e limit He) as [Hok Hv]; [lia|].
  pose proof Hv as (Hv1 & Hv2 & Hv3)%vals_inv.
  destruct (mid_extent e (e_base e) limit He) as [_ Hm]; try lia.
  rewrite Z.sub_diag, (p_add_0 (e_ptr e) (e_len e)) in Hm by apply He.
  split; [|done]. split; [|split; [|split; [|split; [|split]]]]; auto.
  - apply ordered_mid. rewrite Hv1, Hv2. split; [done|]. split; [done|].
    split; [done|]. split; [|done]. eapply Forall_impl; [exact HA|simpl; lia].
  - constructor; [lia|]. eapply Forall_impl; [exact HeD|simpl; lia].
  - rewrite fmap_cons, Hv, <- H2. unfold keep_ge. rewrite omap_cons', cut_ge_mid by lia.
    f_equal. symmetry. apply keep_ge_all. eapply Forall_impl; [exact HeD|simpl; lia].
  - rewrite <- H3, fmap_app. f_equal. unfold keep_in.
    rewrite omap_cons', cut_in_some by (auto; lia).
    change (omap (cut_in base limit) D) with (keep_in base limit D).
    rewrite keep_in_none by (eapply Forall_impl; [exact HeD|simpl; lia]).
    rewrite fmap_cons, Hm. unfold vals_in. cut_tac. by rewrite Z.min_r by lia.
Qed.

(** ** Coalescing *)

(** Triples [v1] and [v2] that continue each other may be fused. *)
Inductive coalesce : list (Z * Z * P) → list (Z * Z * P) → Prop :=
| coalesce_refl L : coalesce L L
| coalesce_fuse L L1 L2 b m (l : Z) p :
    b ≤ m → m ≤ l → span_ok p (l - b) →
    coalesce L (L1 ++ (b, m, p) :: (m, l, p_add p (m - b)) :: L2) →
    coalesce L (L1 ++ (b, l, p) :: L2).

Definition v_denote (v : Z * Z * P) (x : Z) : option P :=
  let '(b, l, p) := v in
  if in_range b l x then Some (p_add p (x - b)) else None.

Fixpoint vs_denote (L : list (Z * Z * P)) (x : Z) : option P :=
  match L with
  | [] => None
  | v :: L => match v_denote v x with Some p => Some p | None => vs_denote L x end
  end.

Lemma vs_denote_app L K x :
  vs_denote (L ++ K) x =
  match vs_denote L x with Some p => Some p | None => vs_denote K x end.
Proof.
  induction L as [|v L IH]; simpl; [done|]. destruct (v_denote v x); auto.
Qed.

Lemma denote_vals F x : denote F x = vs_denote (vals <$> F) x.
Proof.
  induction F as [|e F IH]; [done|]. simpl. rewrite IH. done.
Qed.

Lemma coalesce_denote L K x : coalesce L K → vs_denote K x = vs_denote L x.
Proof.
  induction 1 as [|L L1 L2 b m l p Hbm Hml Hsp _ IH]; [done|].
  rewrite <- IH, !vs_denote_app. destruct (vs_denote L1 x); [done|]. simpl.
  unfold in_range.
  destruct (b <=? x) eqn:E1, (x <? l) eqn:E2, (m <=? x) eqn:E3, (x <? m) eqn:E4;
    simpl; zb; try lia; try done.
  f_equal. rewrite (p_add_add _ (l - b)) by (auto; lia). f_equal. lia.
Qed.

(** Sectors mapped to pointers of a class that pointer arithmetic respects,
    e.g. "into object [o]". *)
Definition weight (w : P → bool) (L : list (Z * Z * P)) : Z :=
  sum_list_Z ((λ '(b, l, p), if w p then l - b else 0) <$> L).

Lemma weight_app w L K : weight w (L ++ K) = weight w L + weight w K.
Proof. unfold weight. by rewrite fmap_app, sum_list_Z_app. Qed.

Lemma weight_cons w b (l : Z) p L :
  weight w ((b, l, p) :: L) = (if w p then l - b else 0) + weight w L.
Proof. done. Qed.

Lemma coalesce_weight w L K :
  (∀ p n, w (p_add p n) = w p) → coalesce L K → weight w K = weight w L.
Proof.
  intros Hw. induction 1 as [|L L1 L2 b m l p Hbm Hml Hsp _ IH]; [done|].
  rewrite <- IH, !weight_app, !weight_cons, Hw. destruct (w p); lia.
Qed.

(** What is cut away and what is kept make up the whole. *)
Lemma cut_weight w (b l : Z) e :
  (∀ p n, w (p_add p n) = w p) → ext_ok e → b ≤ l →
  weight w (option_list (cut_lt b e)) + weight w (option_list (cut_in b l e)) +
  weight w (option_list (cut_ge l e)) = weight w [vals e].
Proof.
  intros Hw He%ext_ok_pos Hbl. unfold cut_lt, cut_in, cut_ge, vals_in, vals, weight.
  repeat case_if; simpl; rewrite ?Hw; repeat case_if; simpl; lia.
Qed.

Lemma omap_option_list {X Y} (f : X → option Y) x (k : list X) :
  omap f (x :: k) = option_list (f x) ++ omap f k.
Proof. rewrite omap_cons'. by destruct (f x). Qed.

Lemma keep_weight w (b l : Z) F :
  (∀ p n, w (p_add p n) = w p) → Forall ext_ok F → b ≤ l →
  weight w (keep_lt b F) + weight w (keep_in b l F) + weight w (keep_ge l F) =
  weight w (vals <$> F).
Proof.
  intros Hw HF Hbl. unfold keep_lt, keep_in, keep_ge.
  induction HF as [|e F He HF IH]; [done|].
  rewrite !omap_option_list, fmap_cons, !weight_app.
  change (vals e :: (vals <$> F)) with ([vals e] ++ (vals <$> F)).
  rewrite weight_app, <- (cut_weight w b l e Hw He Hbl). lia.
Qed.

(** The kept parts denote the restrictions of the function. *)
Lemma keep_lt_denote (b x : Z) F :
  vs_denote (keep_lt b F) x = if x <? b then denote F x else None.
Proof.
  induction F as [|e F IH]; [by simpl; case_if|].
  cbn [denote]. unfold keep_lt in *.
  rewrite omap_option_list, vs_denote_app, IH. unfold cut_lt, ext_denote, in_range.
  repeat case_if; simpl; unfold in_range; repeat case_if; simpl in *; zb;
    try done; try lia.
Qed.

(** Decide every comparison of the goal. *)
Ltac decide_bounds :=
  unfold in_range, e_limit, vals in *;
  repeat (case_if || (progress simpl) || (progress unfold in_range));
  unfold in_range, e_limit in *; zb; try done; try (exfalso; lia).

Lemma keep_ge_denote (l x : Z) F :
  Forall ext_ok F → vs_denote (keep_ge l F) x = if l <=? x then denote F x else None.
Proof.
  induction 1 as [|e F He HF IH]; [by simpl; case_if|].
  cbn [denote]. unfold keep_ge in *.
  rewrite omap_option_list, vs_denote_app, IH. unfold cut_ge, ext_denote.
  pose proof (ext_ok_pos e He). destruct He as (_ & _ & _ & Hsp).
  decide_bounds.
  f_equal. rewrite (p_add_add _ (e_len e)) by (auto; lia). f_equal. lia.
Qed.

Lemma keep_in_denote (b l x : Z) F :
  Forall ext_ok F →
  vs_denote (keep_in b l F) x = if in_range b l x then denote F x else None.
Proof.
  induction 1 as [|e F He HF IH]; [by simpl; case_if|].
  cbn [denote]. unfold keep_in in *.
  rewrite omap_option_list, vs_denote_app, IH. unfold cut_in, vals_in, ext_denote.
  pose proof (ext_ok_pos e He). destruct He as (_ & _ & _ & Hsp).
  decide_bounds.
  f_equal. rewrite (p_add_add _ (e_len e)) by (auto; lia). f_equal. lia.
Qed.

(** ** Fusing neighbours *)

Lemma coalesce_trans L K M : coalesce L K → coalesce K M → coalesce L M.
Proof. intros HLK. induction 1; [done|]. by econstructor; eauto. Qed.

(** [e'] covers exactly what its two neighbours [e1] and [e2] cover. *)
Definition fuses e1 e2 e' : Prop :=
  ext_ok e' ∧ vals e' = (e_base e1, e_limit e2, e_ptr e1).

Lemma adjacent_span e1 e2 :
  ext_ok e1 → ext_ok e2 → adjacent e1 e2 = true →
  e_limit e1 = e_base e2 ∧ e_ptr e2 = p_add (e_ptr e1) (e_len e1) ∧
  span_ok (e_ptr e1) (e_limit e2 - e_base e1).
Proof.
  intros (Hb1 & Hl1 & _ & Hs1) (Hb2 & Hl2 & _ & Hs2). unfold adjacent.
  intros [Hl Hp]%andb_true_iff. apply Z.eqb_eq in Hl. apply p_eqb_eq in Hp.
  unfold e_limit in *.
  replace (e_base e1 + e_len e1 - e_base e1) with (e_len e1) in Hp by lia.
  rewrite <- Hp in Hs2.
  replace (e_base e2 + e_len e2 - e_base e1) with (e_len e1 + e_len e2) by lia.
  repeat split; auto. apply span_app; auto; lia.
Qed.

Lemma relimit_fuses e1 e2 :
  ext_ok e1 → ext_ok e2 → adjacent e1 e2 = true →
  fuses e1 e2 (relimit (e_limit e2) e1).
Proof.
  intros H1 H2 Ha. destruct (adjacent_span _ _ H1 H2 Ha) as (Hl & Hp & Hs).
  destruct H1 as (Hb1 & Hl1 & _ & _), H2 as (Hb2 & Hl2 & Hm2 & _).
  unfold fuses, relimit, ext_ok, vals, e_limit in *; simpl.
  rewrite (fld_len_id _ _ Hs). repeat split; auto; try lia.
  do 2 f_equal. lia.
Qed.

Lemma rebase_fuses e1 e2 :
  ext_ok e1 → ext_ok e2 → adjacent e1 e2 = true →
  fuses e1 e2 (rebase (e_base e1) e2).
Proof.
  intros H1 H2 Ha. destruct (adjacent_span _ _ H1 H2 Ha) as (Hl & Hp & Hs).
  destruct H1 as (Hb1 & Hl1 & Hm1 & Hs1), H2 as (Hb2 & Hl2 & Hm2 & _).
  unfold fuses, rebase, ext_ok, vals, e_limit in *; simpl.
  replace (e_base e1 - e_base e2) with (- e_len e1) by lia.
  rewrite Hp, (p_add_back _ _ Hs1), (fld_ptr_id _ _ Hs) by lia.
  replace (e_len e2 - - e_len e1) with (e_base e2 + e_len e2 - e_base e1) by lia.
  rewrite (fld_len_id _ _ Hs), fld_base_id by lia. repeat split; auto; try lia.
  do 2 f_equal. lia.
Qed.

Lemma fuse_flat A e1 e2 e' D :
  ordered (A ++ e1 :: e2 :: D) → adjacent e1 e2 = true → fuses e1 e2 e' →
  ordered (A ++ e' :: D) ∧
  coalesce (vals <$> (A ++ e1 :: e2 :: D)) (vals <$> (A ++ e' :: D)).
Proof.
  intros Ho Ha [Hok Hv]. pose proof Hv as (Hv1 & Hv2 & Hv3)%vals_inv.
  apply ordered_mid in Ho as (HoA & Ho2 & H1 & HA & _).
  apply (ordered_mid []) in Ho2 as (_ & HoD & H2 & _ & HD).
  destruct (adjacent_span _ _ H1 H2 Ha) as (Hl & Hp & Hs). split.
  - apply ordered_mid. rewrite Hv1, Hv2. auto.
  - rewrite !fmap_app, !fmap_cons, Hv. apply (coalesce_fuse _ _ _ _ (e_base e2)).
    + apply ext_ok_pos in H1. lia.
    + apply ext_ok_pos in H2. lia.
    + done.
    + unfold vals. rewrite Hl, Hp. unfold e_limit in *.
      replace (e_base e2 - e_base e1) with (e_len e1) by lia. constructor.
Qed.
End flat.
