(* ===== verification/ExtMapUpdate.v ===== *)
(** * Correctness of the extent map

    The extents of a well-formed map are sorted, disjoint and in range.  The
    map denotes the partial function from sectors to pointers that its extents
    define; [lookup], [update] and [trim] are shown to compute it. *)

From S2P Require Import Prelude Extent ExtMap ExtMapShape ExtMapFlat.
Import Extmap.

Section update.
Context {P : Type} `{LayoutOk P}.
Variable load : nat.
Implicit Types (m : @extmap P) (it : iterator) (e : extent P)
  (l F A B C D : list (extent P)).

Record wf m : Prop := {
  wf_shape : shape load m;
  wf_ordered : ordered (flat m);
}.

Definition map_denote m : Z → option P := denote (flat m).

(** ** Lookup *)

Lemma maxes_split m (base : Z) :
  wf m → ∃ ls1 ls2,
    lists m = ls1 ++ ls2 ∧
    length ls1 =
      (let k := std_lower_bound (λ x, x <? base) (maxes m) in
       match maxes m !! k with
       | Some mx => if base =? mx then S k else k
       | None => k
       end) ∧
    Forall (λ l, list_max l ≤ base) ls1 ∧
    (∀ l, head ls2 = Some l → base < list_max l).
Proof.
  intros [Hs Ho]. destruct (std_lower_bound_split (λ x, x <? base) (maxes m))
    as (k1 & k2 & Hk & Hlen & Hk1 & Hk2).
  rewrite (shape_maxes _ _ Hs) in Hk. simpl. rewrite <- Hlen.
  apply fmap_app_inv in Hk as (ls1 & ls2 & -> & -> & Hl).
  rewrite (shape_maxes _ _ Hs), Hl, fmap_app, lookup_app_r, length_fmap, Nat.sub_diag by len.
  rewrite Forall_fmap in Hk1.
  assert (Forall (λ l, list_max l ≤ base) ls1) as Hls1.
  { eapply Forall_impl; [exact Hk1|]. simpl. intros l Hlt. zb. lia. }
  destruct ls2 as [|l ls2]; simpl.
  { exists ls1, []. by repeat split. }
  pose proof (Hk2 _ eq_refl) as Hge. simpl in Hge. zb.
  destruct (base =? list_max l) eqn:E; zb.
  - exists (ls1 ++ [l]), ls2. rewrite <- app_assoc. repeat split; auto; [len| |].
    + rewrite Forall_app, Forall_cons. repeat split; auto. lia.
    + intros l' Hl'. destruct ls2 as [|l2 ls2]; [done|]. injection Hl' as ->.
      rewrite E. unfold flat in Ho. rewrite Hl, !concat_mid in Ho. simpl in Ho.
      apply ordered_app in Ho as (_ & Ho & _). rewrite app_assoc in Ho.
      apply ordered_app in Ho as (Ho & _ & _).
      pose proof (shape_nonempty _ _ Hs) as Hne.
      rewrite Hl, Forall_app, !Forall_cons in Hne. apply list_max_lt; tauto.
  - exists ls1, (l :: ls2). repeat split; auto. intros l' [= <-]. lia.
Qed.

Lemma in_concat_max ls base :
  ordered (concat ls) → Forall (λ l, list_max l ≤ base) ls →
  Forall (λ e, e_limit e ≤ base) (concat ls).
Proof.
  induction ls as [|l ls IH]; simpl; [by constructor|]. intros Ho Hm.
  apply ordered_app in Ho as (Hl & Hls & _). apply Forall_cons in Hm as [Hm Hms].
  rewrite Forall_app. split; auto.
  eapply Forall_impl; [by apply ordered_list_max|]. simpl. intros. lia.
Qed.

(** The position [lower_bound] finds splits the map at [base]. *)
Definition splits_at (base : Z) F1 F2 : Prop :=
  Forall (λ e, e_limit e ≤ base) F1 ∧ Forall (λ e, base < e_limit e) F2.

Lemma ordered_suffix_gt base F e G :
  ordered (F ++ e :: G) → base < e_limit e → Forall (λ e, base < e_limit e) (e :: G).
Proof.
  intros (_ & [_ HG] & _ & _ & He)%ordered_mid Hb. constructor; [done|].
  rewrite !Forall_forall in *. intros b Hbin. specialize (He _ Hbin).
  pose proof (ext_ok_pos b (HG _ Hbin)). lia.
Qed.

(** The search within one list. *)
Lemma list_split l base :
  ordered l → l ≠ [] → base < list_max l →
  let j := std_lower_bound (λ e, e_base e <? base) l in
  ∃ l1 l2 hit,
    l = l1 ++ l2 ∧ splits_at base l1 l2 ∧ l2 ≠ [] ∧
    (if (j =? 0)%nat then Some false else
     p ← l !! (j - 1)%nat; Some ((e_base p <=? base) && (base <? e_limit p))) = Some hit ∧
    length l1 = (if hit : bool then j - 1 else j)%nat.
Proof.
  intros Ho Hl Hmax j. subst j.
  destruct (std_lower_bound_split (λ e, e_base e <? base) l)
    as (l1 & l2 & -> & Hlen & Hl1 & Hl2). rewrite <- Hlen.
  assert (l2 ≠ [] → Forall (λ e, base < e_limit e) l2) as Hsuf.
  { destruct l2 as [|e l2]; [done|]. intros _. specialize (Hl2 e eq_refl). zb.
    eapply ordered_suffix_gt; [done|]. apply ordered_mid in Ho as (_ & _ & He & _).
    pose proof (ext_ok_pos e He). lia. }
  destruct l1 as [|p l1 _] using rev_ind.
  { exists [], l2, false. simpl in *. repeat split; auto. }
  rewrite Forall_app, Forall_cons in Hl1. destruct Hl1 as (_ & Hp & _). zb.
  rewrite length_app in *. simpl in *.
  assert ((length l1 + 1 =? 0)%nat = false) as -> by (apply Nat.eqb_neq; lia).
  replace (length l1 + 1 - 1)%nat with (length l1) by lia.
  rewrite <- app_assoc in Ho |- *. simpl in *. rewrite lookup_middle by done. simpl.
  pose proof Ho as (_ & _ & Hpo & Hlt & _)%ordered_mid.
  rewrite (proj2 (Z.leb_le (e_base p) base)) by lia. simpl.
  destruct (base <? e_limit p) eqn:E; zb.
  - exists l1, (p :: l2), true. repeat split; auto; try done.
    + eapply Forall_impl; [done|]. simpl. intros. lia.
    + by eapply ordered_suffix_gt.
  - assert (l2 ≠ []) as Hne.
    { intros ->. unfold list_max in Hmax. rewrite app_nil_r, last_snoc in Hmax. simpl in *. lia. }
    exists (l1 ++ [p]), l2, false. rewrite <- app_assoc. repeat split; auto; try len.
    rewrite Forall_app, Forall_cons. repeat split; auto.
    eapply Forall_impl; [done|]. simpl. pose proof (ext_ok_pos p Hpo). intros. lia.
Qed.

Lemma lower_bound_at m base :
  wf m → ∃ it F1 F2, lower_bound m base = Some it ∧ flat m = F1 ++ F2 ∧
    at_pos m it (length F1) ∧ splits_at base F1 F2.
Proof.
  intros Hwf. destruct (maxes_split m base Hwf) as (ls1 & ls2 & Hl & Hk & Hm1 & Hm2).
  destruct Hwf as [Hs Ho]. unfold lower_bound. cbv zeta in Hk.
  destruct (lists m) as [|l0 ls0] eqn:E0.
  { exists (end_ m), [], []. unfold flat. rewrite E0. simpl. repeat split; auto.
    apply at_end; [done|]. unfold flat. by rewrite E0. }
  rewrite <- Hk, <- E0 in *. clear l0 ls0 E0.
  assert (length (maxes m) = length (lists m)) as Hlm by (rewrite (shape_maxes _ _ Hs); len).
  unfold flat in Ho. rewrite Hl, concat_app in Ho.
  pose proof Ho as (Ho1 & Ho2 & _)%ordered_app.
  destruct ls2 as [|l ls2].
  { rewrite app_nil_r in Hl. subst ls1. rewrite Hlm, Nat.eqb_refl.
    exists (end_ m), (flat m), []. rewrite app_nil_r. repeat split; auto.
    - apply at_pos_end.
    - by apply in_concat_max. }
  assert ((length ls1 =? length (maxes m))%nat = false) as ->
    by (rewrite Hlm, Hl; apply Nat.eqb_neq; len).
  rewrite (lookup_lists m ls1 l ls2) by done. simpl.
  specialize (Hm2 l eq_refl). simpl in Ho2. apply ordered_app in Ho2 as (Hol & Ho2 & Hx).
  assert (l ≠ []) as Hne0.
  { pose proof (shape_nonempty _ _ Hs) as Hf. rewrite Hl, Forall_app, Forall_cons in Hf. tauto. }
  destruct (list_split l base Hol Hne0 Hm2) as (l1 & l2 & hit & -> & [Hs1 Hs2] & Hne & -> & Hlen).
  simpl. exists (mk_iter (length ls1) (length l1)), (concat ls1 ++ l1), (l2 ++ concat ls2).
  assert (0 < length l2)%nat by (destruct l2; simpl; [done|lia]).
  split.
  { destruct hit; [by rewrite Hlen|]. rewrite Hlen.
    match goal with |- context [(?j =? ?n)%nat] =>
      rewrite (proj2 (Nat.eqb_neq j n)) by len end.
    by rewrite andb_false_r. }
  split; [unfold flat; rewrite Hl, concat_mid; by rewrite <- !app_assoc|].
  split.
  { apply (at_in _ _ _ ls1 (l1 ++ l2) ls2); simpl; auto; len. }
  split; rewrite Forall_app; split; auto.
  - by apply in_concat_max.
  - destruct l2 as [|e2 l2]; [done|].
    rewrite Forall_forall. intros b Hb. rewrite Forall_cons in Hs2.
    pose proof (Hx e2 b ltac:(set_solver) Hb) as Hp. unfold precedes in Hp.
    destruct Ho2 as [_ Hok]. rewrite Forall_forall in Hok.
    pose proof (ext_ok_pos b (Hok b Hb)). lia.
Qed.

(** ** Making room *)

Hypothesis load_ge_2 : (2 ≤ load)%nat.

Lemma update_left_at m base limit it A e B :
  shape load m → flat m = A ++ e :: B → ordered (A ++ e :: B) →
  at_pos m it (length A) → splits_at base A (e :: B) →
  0 ≤ base → base < limit →
  ∃ m1 it1 del1 A1 B1,
    _update_left load m base limit it = Some (m1, it1, del1) ∧
    shape load m1 ∧ flat m1 = A1 ++ B1 ∧ at_pos m1 it1 (length A1) ∧
    mid_spec base limit (A ++ e :: B) A1 B1 del1.
Proof.
  intros Hs HF Ho Hk [HA HB] Hb Hbl. apply Forall_cons in HB as [He HB].
  unfold _update_left. rewrite (deref_at _ _ _ Hk), HF, lookup_middle by done. simpl.
  destruct (store_refresh load m it _ (relimit base) A e B Hs Hk HF eq_refl)
    as (m1 & m2 & Hst & Hrf & Hs2 & HF2 & Hpos).
  assert (length A < length (flat m2))%nat as Hlt by (rewrite HF2; len).
  assert (flat m2 = (A ++ [relimit base e]) ++ B) as HF2'
    by by rewrite HF2, <- app_assoc.
  destruct (e_base e <? base) eqn:E1; simpl; zb.
  2:{ exists m, it, [], A, (e :: B). repeat (split; [done|]).
      apply nocut_flat; auto. apply suffix_base; auto.
      by apply ordered_app in Ho as (_ & ? & _). }
  destruct (limit <? e_limit e) eqn:E2; simpl; zb.
  - rewrite Hst. simpl. rewrite Hrf. simpl.
    destruct (next_at load m2 it (length A)) as (it2 & Hn & Hk2); auto.
    rewrite Hn. simpl.
    replace (S (length A)) with (length (A ++ [relimit base e])) in Hk2 by len.
    match goal with |- context [_insert load m2 it2 ?e'] =>
      destruct (insert_at load load_ge_2 m2 it2 e' (A ++ [relimit base e]) B)
        as (m3 & it3 & Hi & Hs3 & HF3 & Hk3); auto end.
    rewrite Hi. simpl. eexists m3, it3, _, _, _. repeat (split; [done|]).
    by apply bisect_flat.
  - rewrite (proj2 (Z.ltb_lt base (e_limit e))) by lia. simpl.
    rewrite Hst. simpl. rewrite Hrf. simpl.
    destruct (incr_at load m2 it (length A)) as (it2 & Hn & Hk2); auto.
    rewrite Hn. simpl.
    replace (S (length A)) with (length (A ++ [relimit base e])) in Hk2 by len.
    eexists m2, it2, _, _, _. repeat (split; [done|]). by apply left_flat.
Qed.

Lemma update_erase_at fuel F base limit A : ∀ m it D del,
  shape load m → flat m = A ++ D → at_pos m it (length A) →
  (length D < fuel)%nat → mid_spec base limit F A D del →
  ∃ m1 it1 del1 D1,
    _update_erase load fuel m base limit it del = Some (m1, it1, del1) ∧
    shape load m1 ∧ flat m1 = A ++ D1 ∧ at_pos m1 it1 (length A) ∧
    mid_spec base limit F A D1 del1 ∧
    (∀ e, head D1 = Some e → limit < e_limit e).
Proof.
  induction fuel as [|fuel IH]; intros m it D del Hs HF Hk Hf Hm; [lia|].
  simpl. rewrite (is_end _ _ _ Hk), HF.
  destruct D as [|e D].
  { rewrite app_nil_r, Nat.eqb_refl. exists m, it, del, [].
    by repeat (split; [done|]). }
  rewrite (proj2 (Nat.eqb_neq _ _)) by len.
  rewrite (deref_at _ _ _ Hk), HF, lookup_middle by done. simpl.
  pose proof Hm as (_ & _ & Hb%Forall_cons & _). destruct Hb as [Hb _].
  rewrite (proj2 (Z.leb_le _ _) Hb). simpl.
  destruct (e_limit e <=? limit) eqn:E; zb.
  - destruct (erase_at load load_ge_2 m it e A D) as (m1 & it1 & Hr & Hs1 & HF1 & Hk1); auto.
    rewrite Hr. simpl. apply (IH m1 it1 D (del ++ [e])); auto; [simpl in Hf; lia|].
    by apply mid_spec_erase.
  - exists m, it, del, (e :: D). repeat (split; [done|]). by intros e' [= <-].
Qed.

Lemma update_right_at m base limit it F A D del :
  shape load m → flat m = A ++ D → at_pos m it (length A) → 0 ≤ base →
  mid_spec base limit F A D del → (∀ e, head D = Some e → limit < e_limit e) →
  ∃ m1 del1 D1,
    _update_right m limit it del = Some (m1, del1) ∧ shape load m1 ∧
    flat m1 = A ++ D1 ∧ at_pos m1 it (length A) ∧ cut_spec base limit F A D1 del1.
Proof.
  intros Hs HF Hk Hb Hm HD. unfold _update_right.
  rewrite (is_end _ _ _ Hk), HF. destruct D as [|e D].
  { rewrite app_nil_r, Nat.eqb_refl. exists m, del, []. repeat (split; [done|]).
    by apply mid_spec_done. }
  rewrite (proj2 (Nat.eqb_neq _ _)) by len.
  rewrite (deref_at _ _ _ Hk), HF, lookup_middle by done. simpl.
  specialize (HD e eq_refl). destruct (e_base e <? limit) eqn:E; zb.
  - destruct (mid_spec_right base limit F A e D del) as [Hc Hl]; auto.
    destruct (store_keep load m it _ (rebase limit) A e D Hs Hk HF eq_refl Hl)
      as (m1 & Hst & Hs1 & HF1 & Hpos).
    rewrite Hst. simpl. eexists m1, _, _. repeat (split; [by eauto|]). done.
  - exists m, del, (e :: D). repeat (split; [done|]). apply mid_spec_done; [done|].
    apply suffix_base; [|done]. destruct Hm as (Ho & _). by apply ordered_app in Ho as (_ & ? & _).
Qed.

(** ** Insertion with merging *)

Lemma merge_prev_at m limit it pit A pe e D :
  shape load m → flat m = (A ++ [pe]) ++ D → at_pos m it (length (A ++ [pe])) →
  at_pos m pit (length A) → ordered (A ++ pe :: e :: D) → e_limit e = limit →
  adjacent pe e = true →
  ∃ m', _update_merge_prev load m limit it pit = Some m' ∧ shape load m' ∧ ordered (flat m') ∧
    coalesce (vals <$> (A ++ pe :: e :: D)) (vals <$> flat m').
Proof.
  intros Hs HF Hk Hpk Ho <- Ha. unfold _update_merge_prev.
  rewrite <- app_assoc in HF. simpl in HF.
  destruct (store_refresh load m pit _ (relimit (e_limit e)) A pe D Hs Hpk HF eq_refl)
    as (m1 & m2 & Hst & Hrf & Hs2 & HF2 & Hpos).
  rewrite Hst. simpl. rewrite Hrf. simpl. rewrite (is_end _ _ _ (Hpos _ _ Hk)), HF2.
  pose proof Ho as (_ & Ho' & Hpe & _)%ordered_mid.
  pose proof Ho' as (_ & _ & He & _)%(ordered_mid []).
  destruct (fuse_flat A pe e (relimit (e_limit e) pe) D) as [Ho2 Hc2]; auto using relimit_fuses.
  set (pe' := relimit _ pe) in *.
  destruct D as [|ne D].
  { rewrite (proj2 (Nat.eqb_eq _ _)) by len. exists m2. rewrite HF2. auto. }
  rewrite (proj2 (Nat.eqb_neq _ _)) by len.
  rewrite (deref_at _ _ _ (Hpos _ _ Hpk)), (deref_at _ _ _ (Hpos _ _ Hk)), HF2.
  rewrite (lookup_middle A _ _ (length A)) by done. simpl.
  rewrite (lookup_app_r A) by len.
  replace (length (A ++ [pe]) - length A)%nat with 1%nat by len. simpl.
  destruct (adjacent pe' ne) eqn:Ha2; [|exists m2; rewrite HF2; auto].
  destruct (store_refresh load m2 pit _ (relimit (e_limit ne)) A pe' (ne :: D) Hs2
              (Hpos _ _ Hpk) HF2 eq_refl) as (m3 & m4 & Hst3 & Hrf3 & Hs4 & HF4 & Hpos4).
  rewrite Hst3. simpl. rewrite Hrf3. simpl.
  pose proof Ho2 as (_ & Ho2' & Hpe' & _)%ordered_mid.
  pose proof Ho2' as (_ & _ & Hne & _)%(ordered_mid []).
  destruct (fuse_flat A pe' ne (relimit (e_limit ne) pe') D) as [Ho3 Hc3]; auto using relimit_fuses.
  set (pe2 := relimit _ pe') in *.
  destruct (erase_at load load_ge_2 m4 it ne (A ++ [pe2]) D) as (m5 & it5 & Hr & Hs5 & HF5 & _); auto.
  { by rewrite HF4, <- app_assoc. }
  { replace (length (A ++ [pe2])) with (length (A ++ [pe])) by len. auto. }
  rewrite Hr. simpl. exists m5. rewrite <- app_assoc in HF5. simpl in HF5. rewrite HF5.
  eauto using coalesce_trans.
Qed.

Lemma merge_next_at m base it A e D :
  shape load m → flat m = A ++ D → at_pos m it (length A) →
  ordered (A ++ e :: D) → e_base e = base →
  ∃ m', _update_merge_next load m base e it = Some m' ∧ shape load m' ∧
    ordered (flat m') ∧ coalesce (vals <$> (A ++ e :: D)) (vals <$> flat m').
Proof.
  intros Hs HF Hk Ho <-. unfold _update_merge_next.
  destruct (insert_at load load_ge_2 m it e A D) as (mi & iti & Hi & Hsi & HFi & _); auto.
  rewrite (is_end _ _ _ Hk), HF. destruct D as [|ne D].
  { rewrite app_nil_r, Nat.eqb_refl. simpl. rewrite Hi. simpl. exists mi.
    rewrite HFi. repeat (split; [done|]). apply coalesce_refl. }
  rewrite (proj2 (Nat.eqb_neq _ _)) by len.
  rewrite (deref_at _ _ _ Hk), HF, lookup_middle by done. simpl.
  destruct (adjacent e ne) eqn:Ha.
  2:{ rewrite Hi. simpl. exists mi. rewrite HFi. repeat (split; [done|]). apply coalesce_refl. }
  pose proof Ho as (_ & Ho' & He & _)%ordered_mid.
  pose proof Ho' as (_ & _ & Hne & _)%(ordered_mid []).
  pose proof (rebase_fuses e ne He Hne Ha) as Hf.
  destruct (fuse_flat A e ne (rebase (e_base e) ne) D) as [Ho2 Hc2]; auto.
  destruct Hf as [_ (_ & Hl & _)%vals_inv].
  destruct (store_keep load m it _ (rebase (e_base e)) A ne D Hs Hk HF eq_refl Hl)
    as (m1 & Hst & Hs1 & HF1 & _).
  exists m1. by rewrite HF1.
Qed.

Lemma update_insert_at m base limit it A e D :
  shape load m → flat m = A ++ D → at_pos m it (length A) →
  ordered (A ++ e :: D) → e_base e = base → e_limit e = limit →
  ∃ m', _update_insert load m base limit e it = Some m' ∧ shape load m' ∧
    ordered (flat m') ∧ coalesce (vals <$> (A ++ e :: D)) (vals <$> flat m').
Proof.
  intros Hs HF Hk Ho Hb Hl. unfold _update_insert.
  destruct (count m =? 0) eqn:E; zb.
  { destruct (insert_at load load_ge_2 m it e A D) as (mi & iti & Hi & Hsi & HFi & _); auto.
    rewrite Hi. simpl. exists mi. rewrite HFi. repeat (split; [done|]). apply coalesce_refl. }
  assert (lists m ≠ []) as Hne by by rewrite <- (shape_count_0 load m Hs).
  destruct (prev_at load m it _ Hs Hk Hne) as (pit & Hp & Hpk). rewrite Hp. simpl.
  rewrite (is_begin load m it _ Hs Hk).
  destruct A as [|pe A _] using rev_ind; [by apply merge_next_at|].
  rewrite (proj2 (Nat.eqb_neq _ _)) by len.
  replace (length (A ++ [pe]) - 1)%nat with (length A) in Hpk by len.
  rewrite (deref_at _ _ _ Hpk), HF, <- app_assoc. simpl.
  rewrite lookup_middle by done. simpl.
  destruct (adjacent pe e) eqn:Ha; [|by apply merge_next_at].
  rewrite <- app_assoc in Ho |- *. by apply merge_prev_at.
Qed.

(** ** The whole update *)

#[local] Arguments _update_erase : simpl never.

Lemma cut_at m base limit :
  wf m → 0 ≤ base → base < limit →
  ∃ m1 it A D del, _update_cut load m base limit = Some (m1, it, del) ∧
    shape load m1 ∧ flat m1 = A ++ D ∧ at_pos m1 it (length A) ∧
    cut_spec base limit (flat m) A D del.
Proof.
  intros Hwf Hb Hbl. unfold _update_cut.
  destruct (lower_bound_at m base Hwf) as (it & F1 & F2 & Hlb & HF & Hk & Hsp).
  destruct Hwf as [Hs Ho]. rewrite Hlb. simpl. rewrite (is_end _ _ _ Hk), HF.
  rewrite HF in Ho. destruct F2 as [|e B].
  { rewrite app_nil_r in *. rewrite Nat.eqb_refl. exists m, it, F1, [], [].
    rewrite app_nil_r. repeat (split; [done|]). apply mid_spec_done; [|done].
    rewrite <- (app_nil_r F1) at 1. apply nocut_flat; auto; [by rewrite app_nil_r|apply Hsp]. }
  rewrite (proj2 (Nat.eqb_neq _ _)) by len.
  destruct (update_left_at m base limit it F1 e B)
    as (m1 & it1 & del1 & A1 & B1 & -> & Hs1 & HF1 & Hk1 & Hm1); auto. simpl.
  destruct (update_erase_at (S (length (concat (lists m1)))) (F1 ++ e :: B) base limit A1
              m1 it1 B1 del1) as (m2 & it2 & del2 & D2 & -> & Hs2 & HF2 & Hk2 & Hm2 & Hx2); auto.
  { change (concat (lists m1)) with (flat m1). rewrite HF1. len. }
  simpl. destruct (update_right_at m2 base limit it2 (F1 ++ e :: B) A1 D2 del2)
    as (m3 & del3 & D3 & -> & Hs3 & HF3 & Hk3 & Hc); auto.
  simpl. by exists m3, it2, A1, D3, del3.
Qed.

Lemma cut_insert_ordered base limit F A D del e :
  cut_spec base limit F A D del → ext_ok e → e_base e = base → e_limit e = limit →
  ordered (A ++ e :: D).
Proof.
  intros (Ho & HA & HD & _) He <- <-. apply ordered_app in Ho as (HoA & HoD & _).
  by apply ordered_mid.
Qed.

Lemma update_at m base limit p :
  wf m → 0 ≤ base → base < limit → limit ≤ LBA_LIMIT → span_ok p (limit - base) →
  ∃ m' del, update load m base limit p = Some (m', del) ∧ wf m' ∧
    vals <$> del = keep_in base limit (flat m) ∧
    coalesce (keep_lt base (flat m) ++ (base, limit, p) :: keep_ge limit (flat m))
      (vals <$> flat m').
Proof.
  intros Hwf Hb Hbl Hlim Hsp. unfold update, _update.
  pose proof (mk_extent_ok base (limit - base) p Hb ltac:(lia) ltac:(lia) Hsp) as Hok.
  pose proof (mk_extent_vals base (limit - base) p ltac:(lia) Hsp) as Hv.
  set (e := mk_extent base (limit - base) p) in *.
  replace (base + (limit - base)) with limit in Hv by lia.
  pose proof Hv as (Hv1 & Hv2 & Hv3)%vals_inv.
  destruct (maxes m) as [|mx mxs] eqn:Em.
  { destruct Hwf as [Hs Ho]. rewrite (shape_maxes _ _ Hs) in Em.
    apply fmap_nil_inv in Em. exists (first m e), []. split; [done|].
    assert (flat m = []) as HF by (unfold flat; by rewrite Em).
    assert (flat (first m e) = [e]) as HF1 by (unfold flat, first; by rewrite Em).
    split; [split; [by apply first_shape|]|].
    { rewrite HF1. apply (ordered_mid [] e []). rewrite !Forall_nil.
      split_and!; auto; by split; constructor. }
    rewrite HF, HF1, fmap_cons, Hv. split; [done|apply coalesce_refl]. }
  clear Em. destruct (cut_at m base limit Hwf Hb Hbl)
    as (m1 & it & A & D & del & -> & Hs1 & HF1 & Hk1 & Hc). simpl.
  pose proof (cut_insert_ordered _ _ _ _ _ _ e Hc Hok Hv1 Hv2) as Ho.
  destruct (update_insert_at m1 base limit it A e D) as (m2 & -> & Hs2 & Ho2 & Hc2); auto.
  simpl. exists m2, del. destruct Hc as (_ & _ & _ & <- & <- & ?).
  rewrite fmap_app, fmap_cons, Hv in Hc2. repeat (split; [done|]). done.
Qed.

Lemma trim_at unused m base limit :
  wf m → 0 ≤ base → base < limit →
  ∃ m' del, trim load unused m base limit = Some (m', del) ∧ wf m' ∧
    vals <$> del = keep_in base limit (flat m) ∧
    vals <$> flat m' = keep_lt base (flat m) ++ keep_ge limit (flat m).
Proof.
  intros Hwf Hb Hbl. unfold trim, _update. pose proof (wf_shape _ Hwf) as Hs.
  destruct (decide (flat m = [])) as [HF|HF].
  { rewrite (proj2 (Z.ltb_ge _ _)) by (rewrite (shape_count _ _ Hs), HF; done).
    exists m, []. by rewrite HF. }
  rewrite (proj2 (Z.ltb_lt _ _)).
  2:{ rewrite (shape_count _ _ Hs). destruct (flat m); [done|len]. }
  destruct (maxes m) as [|mx mxs] eqn:Em.
  { rewrite (shape_maxes _ _ Hs) in Em. apply fmap_nil_inv in Em.
    unfold flat in HF. by rewrite Em in HF. }
  clear Em. destruct (cut_at m base limit Hwf Hb Hbl)
    as (m1 & it & A & D & del & -> & Hs1 & HF1 & Hk1 & Hc). simpl.
  exists m1, del. destruct Hc as (Ho & _ & _ & <- & <- & <-).
  rewrite HF1, fmap_app. repeat (split; [done|]). split; [|done].
  split; [done|by rewrite HF1].
Qed.
End update.
