(* ===== verification/ExtMapSpec.v ===== *)
(** * What the extent map promises

    The statements the rest of the program relies on.  [update], [trim] and
    [lookup] are specified by the partial function a map denotes; the scan over
    [base, limit) that every client loop performs is specified by the pieces it
    visits; the number of sectors mapped into one object changes by what was
    inserted and what was reported as deleted.  [LbaMap] packages these promises
    as an interface, which the extent map of the code implements. *)

From S2P Require Import Prelude Extent ExtMap ExtMapShape ExtMapFlat ExtMapUpdate.
Import Extmap.

(** ** Scans *)

Section scan.
Context {P : Type} `{Layout P}.
Implicit Types (m : @extmap P) (it : iterator).

(** The loop [for (it = lookup(base); it != end && it->base() < limit; it++)]:
    the extents it visits. *)
Fixpoint scan_loop (fuel : nat) m it (limit : Z) : option (list (extent P)) :=
  if iter_eqb it (end_ m) then Some [] else
  match fuel with
  | O => None
  | S fuel =>
    e ← deref m it;
    if e_base e <? limit then
      it' ← incr m it;
      es ← scan_loop fuel m it' limit;
      Some (e :: es)
    else Some []
  end.

Definition scan m (base limit : Z) : option (list (extent P)) :=
  it ← lookup m base;
  scan_loop (S (length (concat (lists m)))) m it limit.

(** The loop [for (it = begin(); it != end; it++)]. *)
Fixpoint scan_all_loop (fuel : nat) m it : option (list (extent P)) :=
  if iter_eqb it (end_ m) then Some [] else
  match fuel with
  | O => None
  | S fuel =>
    e ← deref m it;
    it' ← incr m it;
    es ← scan_all_loop fuel m it';
    Some (e :: es)
  end.

Definition scan_all m : option (list (extent P)) :=
  scan_all_loop (S (length (concat (lists m)))) m (begin_ m).
End scan.

Section scan_spec.
Context {P : Type} `{LayoutOk P}.
Variable load : nat.
Implicit Types (m : @extmap P) (it : iterator) (F A B : list (extent P)).

Fixpoint take_below (limit : Z) F : list (extent P) :=
  match F with
  | [] => []
  | e :: F => if e_base e <? limit then e :: take_below limit F else []
  end.

Lemma scan_loop_at m limit B : ∀ fuel A it,
  shape load m → flat m = A ++ B → at_pos m it (length A) →
  (length B < fuel)%nat →
  scan_loop fuel m it limit = Some (take_below limit B).
Proof.
  induction B as [|e B IH]; intros fuel A it Hs HF Hk Hf.
  - destruct fuel as [|fuel]; [lia|]. simpl. rewrite (is_end _ _ _ Hk), HF, app_nil_r.
    by rewrite Nat.eqb_refl.
  - destruct fuel as [|fuel]; [lia|]. simpl. rewrite (is_end _ _ _ Hk), HF.
    rewrite (proj2 (Nat.eqb_neq _ _)) by len.
    rewrite (deref_at _ _ _ Hk), HF, lookup_middle by done. simpl.
    destruct (e_base e <? limit); [|done].
    destruct (incr_at load m it (length A) Hs Hk) as (it' & -> & Hk'); [rewrite HF; len|].
    simpl. rewrite (IH fuel (A ++ [e]) it'); auto.
    + by rewrite HF, <- app_assoc.
    + by replace (length (A ++ [e])) with (S (length A)) by len.
    + simpl in Hf. lia.
Qed.

Lemma scan_all_loop_at m B : ∀ fuel A it,
  shape load m → flat m = A ++ B → at_pos m it (length A) →
  (length B < fuel)%nat →
  scan_all_loop fuel m it = Some B.
Proof.
  induction B as [|e B IH]; intros fuel A it Hs HF Hk Hf.
  - destruct fuel as [|fuel]; [lia|]. simpl. rewrite (is_end _ _ _ Hk), HF, app_nil_r.
    by rewrite Nat.eqb_refl.
  - destruct fuel as [|fuel]; [lia|]. simpl. rewrite (is_end _ _ _ Hk), HF.
    rewrite (proj2 (Nat.eqb_neq _ _)) by len.
    rewrite (deref_at _ _ _ Hk), HF, lookup_middle by done. simpl.
    destruct (incr_at load m it (length A) Hs Hk) as (it' & -> & Hk'); [rewrite HF; len|].
    simpl. rewrite (IH fuel (A ++ [e]) it'); auto.
    + by rewrite HF, <- app_assoc.
    + by replace (length (A ++ [e])) with (S (length A)) by len.
    + simpl in Hf. lia.
Qed.

Lemma scan_all_at m : shape load m → scan_all m = Some (flat m).
Proof.
  intros Hs. unfold scan_all.
  apply (scan_all_loop_at m (flat m) _ []); auto.
  by apply (at_pos_begin load).
Qed.

(** The pieces of the extents a scan visits, clipped to [base, limit). *)
Lemma take_below_keep (base limit : Z) F :
  ordered F → base < limit → Forall (λ e, base < e_limit e) F →
  vals_in base limit <$> take_below limit F = keep_in base limit F.
Proof.
  intros Ho Hbl. induction F as [|e F IH]; intros HF; [done|].
  apply Forall_cons in HF as [He HF].
  pose proof Ho as (_ & HoF & Hok & _ & HeF)%(ordered_mid []).
  unfold keep_in in *. rewrite omap_cons'. simpl.
  destruct (e_base e <? limit) eqn:E; zb.
  - rewrite cut_in_some, fmap_cons, IH by done. done.
  - rewrite cut_in_none by lia. symmetry.
    apply (keep_in_none base limit F). eapply Forall_impl; [exact HeF|].
    simpl. intros. pose proof (ext_ok_pos e Hok). lia.
Qed.

Lemma scan_at m base limit :
  wf load m → base < limit →
  ∃ es, scan m base limit = Some es ∧
    vals_in base limit <$> es = keep_in base limit (flat m).
Proof.
  intros Hwf Hbl. destruct (lower_bound_at load m base Hwf)
    as (it & F1 & F2 & Hlb & HF & Hk & [H1 H2]).
  unfold scan, lookup. rewrite Hlb. cbn [mbind option_bind].
  rewrite (scan_loop_at m limit F2 _ F1); auto.
  - eexists. split; [done|]. destruct Hwf as [_ Ho]. rewrite HF in Ho |- *.
    unfold keep_in. rewrite omap_app'. fold (keep_in base limit F1) (keep_in base limit F2).
    rewrite keep_in_none by (eapply Forall_impl; [exact H1|simpl; auto]).
    apply take_below_keep; auto. by apply ordered_app in Ho as (_ & ? & _).
  - apply Hwf.
  - change (concat (lists m)) with (flat m). rewrite HF. len.
Qed.
End scan_spec.

(** ** Pieces

    A piece is a triple (base, limit, pointer), as [vals()] returns it. *)

Section pieces.
Context {P : Type} `{LayoutOk P}.
Implicit Types (ps : list (Z * Z * P)) (F : list (extent P)).

(** Sorted, disjoint, nonempty pieces inside [lo, hi). *)
Fixpoint pieces_in (lo hi : Z) ps : Prop :=
  match ps with
  | [] => lo ≤ hi
  | (b, l, p) :: ps =>
      lo ≤ b ∧ b < l ∧ span_ok p (l - b) ∧ pieces_in l hi ps
  end.

Lemma pieces_in_le (lo hi : Z) ps : pieces_in lo hi ps → lo ≤ hi.
Proof.
  revert lo. induction ps as [|[[b l] p] ps IH]; simpl; [done|].
  intros lo (? & ? & _ & ?%IH). lia.
Qed.

Lemma pieces_in_weaken (lo lo' hi : Z) ps :
  lo' ≤ lo → pieces_in lo hi ps → pieces_in lo' hi ps.
Proof. destruct ps as [|[[b l] p] ps]; simpl; [lia|]. intros ? (?&?&?&?). split_and!; auto; lia. Qed.

Lemma pieces_vals (lo hi : Z) F :
  ordered F → lo ≤ hi → Forall (λ e, lo ≤ e_base e) F → Forall (λ e, e_limit e ≤ hi) F →
  pieces_in lo hi (vals <$> F).
Proof.
  revert lo. induction F as [|e F IH]; intros lo Ho Hlo HF HL; [done|].
  apply (ordered_mid []) in Ho as (_ & HoF & Hok & _ & HeF).
  apply Forall_cons in HF as [He HF]. apply Forall_cons in HL as [Hl HL].
  simpl. pose proof (ext_ok_pos e Hok). split_and!; auto.
  - unfold e_limit. replace (_ + _ - _) with (e_len e) by lia. apply Hok.
Qed.

Lemma vals_in_span (b l : Z) e :
  ext_ok e → b < e_limit e → e_base e < l → b < l →
  ∃ p, vals_in b l e = (Z.max b (e_base e), Z.min (e_limit e) l, p) ∧
    span_ok p (Z.min (e_limit e) l - Z.max b (e_base e)).
Proof.
  intros (Hb & Hl & _ & Hs) H1 H2 H3. unfold vals_in, e_limit in *.
  destruct (e_base e <? b) eqn:E; zb.
  - rewrite Z.max_l by lia. eexists. split; [done|]. apply (span_sub _ (e_len e)); auto; lia.
  - rewrite Z.max_r by lia. eexists. split; [done|].
    rewrite <- (p_add_0 (e_ptr e) (e_len e)) by done. apply (span_sub _ (e_len e)); auto; lia.
Qed.

Lemma keep_in_pieces (b l : Z) F :
  b < l → ordered F → pieces_in b l (keep_in b l F).
Proof.
  intros Hbl Ho.
  enough (∀ lo, b ≤ lo ≤ l → Forall (λ e, lo ≤ Z.max b (e_base e)) F →
            pieces_in lo l (keep_in b l F)) as Hx.
  { apply Hx; [lia|]. apply Forall_forall. intros. lia. }
  induction F as [|e F IH]; intros lo Hlo HF; [simpl; lia|].
  apply (ordered_mid []) in Ho as (_ & HoF & Hok & _ & HeF).
  apply Forall_cons in HF as [He HF]. unfold keep_in in *. rewrite omap_cons'.
  unfold cut_in. destruct (_ <? _) eqn:E; zb; [|by apply IH].
  destruct (vals_in_span b l e Hok) as (p & -> & Hs); try lia.
  split_and!; auto; try lia. apply IH; auto; [lia|].
  eapply Forall_impl; [exact HeF|]. simpl. intros. lia.
Qed.

(** The pieces and the mapping they denote. *)
Lemma pieces_in_range (lo hi b l : Z) p ps :
  pieces_in lo hi ps → (b, l, p) ∈ ps → lo ≤ b ∧ b < l ∧ l ≤ hi ∧ span_ok p (l - b).
Proof.
  revert lo. induction ps as [|[[b1 l1] p1] ps IH]; intros lo; simpl.
  - intros _ Hin%elem_of_nil. done.
  - intros (? & ? & ? & Hps) [[= -> -> ->]|Hin]%elem_of_cons.
    + apply pieces_in_le in Hps. done.
    + destruct (IH _ Hps Hin) as (? & ? & ? & ?). split_and!; auto; lia.
Qed.

Lemma pieces_in_denote (lo hi b l x : Z) p ps :
  pieces_in lo hi ps → (b, l, p) ∈ ps → b ≤ x < l → vs_denote ps x = Some (p_add p (x - b)).
Proof.
  revert lo. induction ps as [|[[b1 l1] p1] ps IH]; intros lo; simpl.
  - intros _ Hin%elem_of_nil. done.
  - intros (? & ? & ? & Hps) [[= -> -> ->]|Hin]%elem_of_cons Hx.
    + by rewrite (proj2 (in_range_true _ _ _)) by lia.
    + destruct (pieces_in_range _ _ _ _ _ _ Hps Hin) as (? & ? & ? & ?).
      rewrite (proj2 (in_range_false _ _ _)) by lia. eauto.
Qed.

Lemma vs_denote_piece (x : Z) q ps :
  vs_denote ps x = Some q → ∃ b l p, (b, l, p) ∈ ps ∧ b ≤ x < l ∧ q = p_add p (x - b).
Proof.
  induction ps as [|[[b l] p] ps IH]; simpl; [done|].
  destruct (in_range b l x) eqn:E.
  - intros [= <-]. apply in_range_true in E. exists b, l, p. split; [left|done].
  - intros (b' & l' & p' & Hin & ?)%IH. exists b', l', p'. split; [by right|done].
Qed.
End pieces.

(** ** The interface *)

(** A map from sectors to pointers kept as pieces, as the clients of the extent
    map see it.  [lm_update] and [lm_trim] also return what they removed. *)
Class LbaMap (M P : Type) `{LayoutOk P} := {
  lm_empty : M;
  lm_update : M → Z → Z → P → option (M * list (Z * Z * P));
  lm_trim : M → Z → Z → option (M * list (Z * Z * P));
  lm_scan : M → Z → Z → option (list (Z * Z * P));
  lm_all : M → option (list (Z * Z * P));
  lm_wf : M → Prop;
  lm_pieces : M → list (Z * Z * P);
  lm_empty_ok : lm_wf lm_empty ∧ lm_pieces lm_empty = [];
  lm_update_ok m base limit p :
    lm_wf m → 0 ≤ base → base < limit → limit ≤ LBA_LIMIT → span_ok p (limit - base) →
    ∃ m' del, lm_update m base limit p = Some (m', del) ∧ lm_wf m' ∧
      pieces_in base limit del ∧
      (∀ x, vs_denote (lm_pieces m') x =
            if in_range base limit x then Some (p_add p (x - base))
            else vs_denote (lm_pieces m) x) ∧
      (∀ x, vs_denote del x =
            if in_range base limit x then vs_denote (lm_pieces m) x else None) ∧
      (∀ w, (∀ q n, w (p_add q n) = w q) →
            weight w (lm_pieces m') + weight w del =
            weight w (lm_pieces m) + weight w [(base, limit, p)]);
  lm_trim_ok m base limit :
    lm_wf m → 0 ≤ base → base < limit →
    ∃ m' del, lm_trim m base limit = Some (m', del) ∧ lm_wf m' ∧
      pieces_in base limit del ∧
      (∀ x, vs_denote (lm_pieces m') x =
            if in_range base limit x then None else vs_denote (lm_pieces m) x) ∧
      (∀ x, vs_denote del x =
            if in_range base limit x then vs_denote (lm_pieces m) x else None) ∧
      (∀ w, (∀ q n, w (p_add q n) = w q) →
            weight w (lm_pieces m') + weight w del = weight w (lm_pieces m));
  lm_scan_ok m base limit :
    lm_wf m → base < limit →
    ∃ ps, lm_scan m base limit = Some ps ∧ pieces_in base limit ps ∧
      (∀ x, vs_denote ps x =
            if in_range base limit x then vs_denote (lm_pieces m) x else None);
  lm_all_ok m :
    lm_wf m → lm_all m = Some (lm_pieces m) ∧ pieces_in 0 LBA_LIMIT (lm_pieces m);
}.
#[export] Hint Mode LbaMap ! - - - : typeclass_instances.

(** ** The extent map implements it *)

Section implementation.
Context {P : Type} `{LayoutOk P}.
Variable load : nat.
Implicit Types (m : @extmap P) (F : list (extent P)).

Lemma ordered_all F : ordered F → pieces_in 0 LBA_LIMIT (vals <$> F).
Proof.
  intros Ho. pose proof Ho as [_ Hok]. apply pieces_vals; auto; [by unfold LBA_LIMIT| |];
    (eapply Forall_impl; [exact Hok|]); unfold ext_ok; simpl; tauto.
Qed.

Lemma update_denote (base limit x : Z) p F :
  Forall ext_ok F → base ≤ limit →
  vs_denote (keep_lt base F ++ (base, limit, p) :: keep_ge limit F) x =
  if in_range base limit x then Some (p_add p (x - base)) else denote F x.
Proof.
  intros HF Hbl. rewrite vs_denote_app, keep_lt_denote. cbn [vs_denote v_denote].
  rewrite keep_ge_denote by done. unfold in_range.
  destruct (x <? base) eqn:E1, (base <=? x) eqn:E2, (x <? limit) eqn:E3,
    (limit <=? x) eqn:E4; simpl; zb; try lia; destruct (denote F x); done.
Qed.

Lemma trim_denote (base limit x : Z) F :
  Forall ext_ok F → base ≤ limit →
  vs_denote (keep_lt base F ++ keep_ge limit F) x =
  if in_range base limit x then None else denote F x.
Proof.
  intros HF Hbl. rewrite vs_denote_app, keep_lt_denote, keep_ge_denote by done.
  unfold in_range.
  destruct (x <? base) eqn:E1, (base <=? x) eqn:E2, (x <? limit) eqn:E3,
    (limit <=? x) eqn:E4; simpl; zb; try lia; destruct (denote F x); done.
Qed.

Definition pieces m : list (Z * Z * P) := vals <$> flat m.

(** C30: [lookup] on a well-formed map returns [end()] when nothing is mapped
    from [base] on; otherwise it returns the extent that contains [base], or
    the first one above it: nothing is mapped between [base] and that extent,
    and the extent gives the mapping of all its sectors. *)
Theorem lookup_correct m base :
  wf load m →
  ∃ it, lookup m base = Some it ∧
    ((it = end_ m ∧ ∀ x, base ≤ x → map_denote m x = None) ∨
     (∃ e, deref m it = Some e ∧ base < e_limit e ∧
        (∀ x, base ≤ x < e_base e → map_denote m x = None) ∧
        (∀ x, e_base e ≤ x < e_limit e →
              map_denote m x = Some (p_add (e_ptr e) (x - e_base e))))).
Proof.
  intros Hwf. destruct (lower_bound_at load m base Hwf)
    as (it & F1 & F2 & Hlb & HF & Hk & [H1 H2]).
  destruct Hwf as [_ Ho]. exists it. split; [done|]. unfold map_denote. rewrite HF in *.
  destruct F2 as [|e F2]; [left|right].
  - rewrite app_nil_r in *. split.
    + eapply at_pos_inj; [exact Hk|]. rewrite <- HF. apply at_pos_end.
    + intros x Hx. apply denote_none. eapply Forall_impl; [exact H1|]. simpl. lia.
  - apply ordered_mid in Ho as (_ & _ & Hok & HFe & HeF). exists e.
    rewrite (deref_at _ _ _ Hk), HF, lookup_middle by done.
    apply Forall_cons in H2 as [He _]. pose proof (ext_ok_pos e Hok).
    split_and!; auto.
    + intros x Hx. apply denote_none, Forall_app. split.
      { eapply Forall_impl; [exact H1|]. simpl. lia. }
      constructor; [lia|]. eapply Forall_impl; [exact HeF|]. simpl. lia.
    + intros x Hx. rewrite denote_app, denote_none; [simpl; by rewrite ext_denote_in|].
      eapply Forall_impl; [exact HFe|]. simpl. lia.
Qed.

Hypothesis load_ge_2 : (2 ≤ load)%nat.

(** C11: [update] on a well-formed map never fails, keeps the map well-formed,
    maps every sector of [base, limit) to the new pointers and leaves every
    other sector alone, and reports in [del] exactly the mappings it
    replaced. *)
Theorem update_correct m base limit p :
  wf load m → 0 ≤ base → base < limit → limit ≤ LBA_LIMIT → span_ok p (limit - base) →
  ∃ m' del, update load m base limit p = Some (m', del) ∧ wf load m' ∧
    (∀ x, map_denote m' x =
          if in_range base limit x then Some (p_add p (x - base)) else map_denote m x) ∧
    (∀ x, denote del x = if in_range base limit x then map_denote m x else None).
Proof.
  intros Hwf Hb Hbl Hlim Hsp.
  destruct (update_at load load_ge_2 m base limit p) as (m' & del & Hu & Hwf' & Hdel & Hc); auto.
  exists m', del. destruct Hwf as [_ [_ Hok]]. unfold map_denote. split_and!; auto.
  - intros x. rewrite denote_vals, (coalesce_denote _ _ x Hc). apply update_denote; auto. lia.
  - intros x. rewrite denote_vals, Hdel. by apply keep_in_denote.
Qed.

(** C12: [trim] on a well-formed map never fails, unmaps exactly [base, limit)
    and reports the mappings it removed. *)
Theorem trim_correct unused m base limit :
  wf load m → 0 ≤ base → base < limit →
  ∃ m' del, trim load unused m base limit = Some (m', del) ∧ wf load m' ∧
    (∀ x, map_denote m' x = if in_range base limit x then None else map_denote m x) ∧
    (∀ x, denote del x = if in_range base limit x then map_denote m x else None).
Proof.
  intros Hwf Hb Hbl.
  destruct (trim_at load load_ge_2 unused m base limit) as (m' & del & Hu & Hwf' & Hdel & Hc); auto.
  exists m', del. destruct Hwf as [_ [_ Hok]]. unfold map_denote. split_and!; auto.
  - intros x. rewrite denote_vals, Hc. apply trim_denote; auto. lia.
  - intros x. rewrite denote_vals, Hdel. by apply keep_in_denote.
Qed.

(** The operations as the clients see them: extents are read through
    [vals()], and the argument [trim] does not use is arbitrary. *)
Definition with_vals (r : option (@extmap P * list (extent P)))
    : option (@extmap P * list (Z * Z * P)) :=
  match r with Some (m, del) => Some (m, map vals del) | None => None end.
Definition scan_vals m (base limit : Z) : option (list (Z * Z * P)) :=
  match scan m base limit with
  | Some es => Some (map (vals_in base limit) es)
  | None => None
  end.
Definition all_vals m : option (list (Z * Z * P)) :=
  match scan_all m with Some es => Some (map vals es) | None => None end.

(** The interface, discharged. *)
Program Definition extmap_lbamap `{!Inhabited P} : LbaMap (@extmap P) P := {|
  lm_empty := empty_map;
  lm_update m base limit p := with_vals (update load m base limit p);
  lm_trim m base limit := with_vals (trim load inhabitant m base limit);
  lm_scan := scan_vals;
  lm_all := all_vals;
  lm_wf := wf load;
  lm_pieces := pieces;
|}.
Next Obligation.
  intros. split; [|done]. split; [|split; constructor].
  split; simpl; auto; constructor.
Qed.
Next Obligation.
  simpl. intros ? m base limit p Hwf Hb Hbl Hlim Hsp.
  destruct (update_at load load_ge_2 m base limit p) as (m' & del & -> & Hwf' & Hdel & Hc); auto.
  exists m', (vals <$> del). destruct Hwf as [_ Ho]. pose proof Ho as [_ Hok].
  unfold pieces. split_and!; auto; rewrite ?Hdel.
  - by apply keep_in_pieces.
  - intros x. rewrite (coalesce_denote _ _ x Hc), <- denote_vals. apply update_denote; auto. lia.
  - intros x. rewrite <- denote_vals. by apply keep_in_denote.
  - intros w Hw. rewrite (coalesce_weight w _ _ Hw Hc).
    rewrite <- (keep_weight w base limit (flat m)) by (auto; lia).
    change ((base, limit, p) :: keep_ge limit (flat m))
      with ([(base, limit, p)] ++ keep_ge limit (flat m)).
    rewrite !weight_app. lia.
Qed.
Next Obligation.
  simpl. intros ? m base limit Hwf Hb Hbl.
  destruct (trim_at load load_ge_2 inhabitant m base limit)
    as (m' & del & -> & Hwf' & Hdel & Hc); auto.
  exists m', (vals <$> del). destruct Hwf as [_ Ho]. pose proof Ho as [_ Hok].
  unfold pieces. rewrite Hc. split_and!; auto; rewrite ?Hdel.
  - by apply keep_in_pieces.
  - intros x. rewrite <- denote_vals. apply trim_denote; auto. lia.
  - intros x. rewrite <- denote_vals. by apply keep_in_denote.
  - intros w Hw. rewrite <- (keep_weight w base limit (flat m)) by (auto; lia).
    rewrite !weight_app. lia.
Qed.
Next Obligation.
  simpl. intros ? m base limit Hwf Hbl.
  destruct (scan_at load m base limit Hwf Hbl) as (es & Hsc & Hes).
  unfold scan_vals. rewrite Hsc.
  change (map ?f ?k) with (f <$> k). rewrite Hes. eexists. split; [done|]. destruct Hwf as [_ Ho].
  split; [by apply keep_in_pieces|]. intros x. unfold pieces. rewrite <- denote_vals.
  apply keep_in_denote. apply Ho.
Qed.
Next Obligation.
  simpl. intros ? m [Hs Ho]. unfold all_vals. rewrite (scan_all_at load) by done. split; [done|].
  by apply ordered_all.
Qed.
End implementation.

(** ** Concrete maps *)

#[export] Instance obj_offset_inhabited : Inhabited obj_offset := populate (mk_obj_offset 0 0).
#[export] Instance sector_ptr_inhabited : Inhabited sector_ptr := populate (mk_sector_ptr 0 0).

(** Sectors 0-9 in object 1, 10-19 in object 2 from sector 8 on, 40-49 in
    object 1. *)
Definition demo_map : @extmap obj_offset :=
  mk_extmap
    [[mk_extent 0 10 (mk_obj_offset 1 8); mk_extent 10 10 (mk_obj_offset 2 8);
      mk_extent 40 10 (mk_obj_offset 1 18)]] [50] 3.

Lemma demo_map_wf : wf 256 demo_map.
Proof.
  split; split; try reflexivity; simpl.
  - by apply Forall_singleton.
  - apply Forall_singleton. simpl. lia.
  - left. lia.
  - repeat constructor; vm_compute; discriminate.
  - repeat apply Forall_cons_2; try apply Forall_nil_2; vm_compute; intuition discriminate.
Qed.

Lemma update_correct_witness :
  ∃ m' del, update 256 demo_map 5 45 (mk_obj_offset 3 8) = Some (m', del) ∧ wf 256 m' ∧
    (∀ x, map_denote m' x =
          if in_range 5 45 x then Some (p_add (mk_obj_offset 3 8) (x - 5))
          else map_denote demo_map x) ∧
    (∀ x, denote del x = if in_range 5 45 x then map_denote demo_map x else None).
Proof.
  apply (update_correct 256); [lia|exact demo_map_wf|lia|lia|unfold LBA_LIMIT; lia|].
  simpl. unfold obj_span_ok, OBJ_LIMIT. simpl. lia.
Defined.

Lemma trim_correct_witness :
  ∃ m' del, trim 256 inhabitant demo_map 5 15 = Some (m', del) ∧ wf 256 m' ∧
    (∀ x, map_denote m' x = if in_range 5 15 x then None else map_denote demo_map x) ∧
    (∀ x, denote del x = if in_range 5 15 x then map_denote demo_map x else None).
Proof. apply (trim_correct 256); [lia|exact demo_map_wf|lia|lia]. Defined.

Lemma lookup_correct_witness :
  ∃ it, lookup demo_map 25 = Some it ∧
    ((it = end_ demo_map ∧ ∀ x, 25 ≤ x → map_denote demo_map x = None) ∨
     (∃ e, deref demo_map it = Some e ∧ 25 < e_limit e ∧
        (∀ x, 25 ≤ x < e_base e → map_denote demo_map x = None) ∧
        (∀ x, e_base e ≤ x < e_limit e →
              map_denote demo_map x = Some (p_add (e_ptr e) (x - e_base e))))).
Proof. apply (lookup_correct 256). exact demo_map_wf. Defined.
