(* ===== verification/Bytes.v ===== *)
(** * Bytes in memory

    A buffer is a list of bytes, each a [Z] in [0, 256).  Packed structures are
    written into buffers and read back through casts: [Codec] is the interface
    of such a structure (its size, its image in memory, what the fields can
    hold), [load_at] and [store_at] are the casts, and both fail outside the
    buffer. *)

From S2P Require Import Prelude.

Notation bytes := (list Z).

(** ** Little-endian integers *)

Fixpoint le_split (n : nat) (z : Z) : bytes :=
  match n with
  | O => []
  | S n => z mod 256 :: le_split n (z / 256)
  end.

Fixpoint le_combine (l : bytes) : Z :=
  match l with
  | [] => 0
  | b :: l => b + 256 * le_combine l
  end.

Lemma length_le_split n z : length (le_split n z) = n.
Proof. revert z. induction n as [|n IH]; intros z; simpl; [done|]. by rewrite IH. Qed.
#[export] Hint Rewrite length_le_split : lsvd_len.

Lemma le_combine_split n z : le_combine (le_split n z) = z mod 2 ^ (8 * Z.of_nat n).
Proof.
  revert z. induction n as [|n IH]; intros z; [by rewrite Z.mod_1_r|].
  cbn [le_split le_combine]. rewrite IH.
  replace (8 * Z.of_nat (S n)) with (8 + 8 * Z.of_nat n) by lia.
  rewrite Z.pow_add_r by lia. change (2 ^ 8) with 256.
  rewrite Z.rem_mul_r by lia. done.
Qed.

#[global] Arguments le_split : simpl never.
#[global] Arguments le_combine : simpl never.

Lemma le_combine_split_id n z :
  0 ≤ z < 2 ^ (8 * Z.of_nat n) → le_combine (le_split n z) = z.
Proof. intros. by rewrite le_combine_split, Z.mod_small. Qed.

(** Signed fields are two's complement. *)
Lemma wrap_s_mod w z : 0 < w → wrap_s w (z mod 2 ^ w) = wrap_s w z.
Proof.
  intros Hw. unfold wrap_s. f_equal. by rewrite Zplus_mod_idemp_l.
Qed.

Lemma le_split_signed n z :
  (0 < n)%nat → - 2 ^ (8 * Z.of_nat n - 1) ≤ z < 2 ^ (8 * Z.of_nat n - 1) →
  wrap_s (8 * Z.of_nat n) (le_combine (le_split n z)) = z.
Proof.
  intros Hn Hz. rewrite le_combine_split, wrap_s_mod by lia. apply wrap_s_id; lia.
Qed.

(** ** Slices *)

Definition slice {A} (off n : nat) (l : list A) : list A := take n (drop off l).

Lemma length_slice {A} off n (l : list A) :
  (off + n ≤ length l)%nat → length (slice off n l) = n.
Proof. unfold slice. intros. len. Qed.

Lemma slice_hit {A} n (a b : list A) : length a = n → slice 0 n (a ++ b) = a.
Proof. intros <-. unfold slice. by rewrite drop_0, take_app_length. Qed.

Lemma slice_all {A} n (a : list A) : length a = n → slice 0 n a = a.
Proof. intros <-. unfold slice. by rewrite drop_0, firstn_all. Qed.

Lemma slice_replicate {A} off n k (a : A) :
  (off + n ≤ k)%nat → slice off n (replicate k a) = replicate n a.
Proof. intros. unfold slice. rewrite drop_replicate, take_replicate. f_equal. lia. Qed.

Lemma slice_skip {A} off n (a b : list A) :
  (length a ≤ off)%nat → slice off n (a ++ b) = slice (off - length a) n b.
Proof. intros. unfold slice. by rewrite drop_app_ge. Qed.

Lemma slice_slice {A} o1 n1 o2 n2 (l : list A) :
  (o2 + n2 ≤ n1)%nat → slice o2 n2 (slice o1 n1 l) = slice (o1 + o2) n2 l.
Proof.
  intros. unfold slice. rewrite skipn_firstn_comm, take_take, drop_drop.
  f_equal. lia.
Qed.

Lemma slice_app_l {A} off n (a b : list A) :
  (off + n ≤ length a)%nat → slice off n (a ++ b) = slice off n a.
Proof.
  intros. unfold slice. rewrite drop_app_le by lia. by rewrite take_app_le by len.
Qed.

Lemma slice_full_app {A} off n (a b : list A) :
  length (slice off n a) = n → slice off n (a ++ b) = slice off n a.
Proof.
  destruct (decide (off + n ≤ length a)%nat) as [Hle|Hgt]; [by rewrite slice_app_l|].
  unfold slice at 1. rewrite length_take, length_drop. intros Hl.
  assert (n = 0%nat) as -> by lia. done.
Qed.

(** Resolve a slice of a concatenation of known lengths. *)
Ltac slices :=
  repeat first
    [ rewrite slice_hit by (autorewrite with lsvd_len; reflexivity || lia)
    | rewrite slice_all by (autorewrite with lsvd_len; reflexivity || lia)
    | rewrite slice_skip by (autorewrite with lsvd_len; lia);
      autorewrite with lsvd_len; cbn [Nat.sub] ].

(** Read [n] bytes at [off]; out of range is a fault. *)
Definition rd (off n : nat) (buf : bytes) : option bytes :=
  if (off + n <=? length buf)%nat then Some (slice off n buf) else None.

(** Overwrite the bytes at [off]. *)
Definition splice {A} (off : nat) (bs buf : list A) : list A :=
  take off buf ++ bs ++ drop (off + length bs) buf.
Definition wr (off : nat) (bs buf : bytes) : option bytes :=
  if (off + length bs <=? length buf)%nat then Some (splice off bs buf) else None.

Lemma length_splice {A} off (bs buf : list A) :
  (off + length bs ≤ length buf)%nat → length (splice off bs buf) = length buf.
Proof. unfold splice. intros. len. Qed.

Lemma rd_some off n buf :
  (off + n ≤ length buf)%nat → rd off n buf = Some (slice off n buf).
Proof. intros. unfold rd. by rewrite (proj2 (Nat.leb_le _ _)). Qed.

Lemma wr_some off bs buf :
  (off + length bs ≤ length buf)%nat → wr off bs buf = Some (splice off bs buf).
Proof. intros. unfold wr. by rewrite (proj2 (Nat.leb_le _ _)). Qed.

Lemma wr_inv off bs buf buf' :
  wr off bs buf = Some buf' →
  (off + length bs ≤ length buf)%nat ∧ buf' = splice off bs buf.
Proof. unfold wr. intros Hw. case_match eqn:E; [|done]. apply Nat.leb_le in E. by simplify_eq. Qed.

Lemma wr_length off bs buf buf' : wr off bs buf = Some buf' → length buf' = length buf.
Proof. intros [? ->]%wr_inv. by apply length_splice. Qed.

Lemma wr_is_some off bs buf :
  (off + length bs ≤ length buf)%nat → ∃ buf', wr off bs buf = Some buf'.
Proof. intros. rewrite wr_some by done. eauto. Qed.

Lemma splice_slice {A} off (bs buf : list A) n :
  (off + length bs ≤ length buf)%nat → n = length bs → slice off n (splice off bs buf) = bs.
Proof.
  intros ? ->. unfold splice.
  assert (length (take off buf) = off) as E by len.
  rewrite slice_skip by lia. rewrite E, Nat.sub_diag. by apply slice_hit.
Qed.

Lemma splice_slice_before {A} off (bs buf : list A) o n :
  (off + length bs ≤ length buf)%nat → (o + n ≤ off)%nat →
  slice o n (splice off bs buf) = slice o n buf.
Proof.
  intros. unfold splice. rewrite slice_app_l by len.
  rewrite <- (take_drop off buf) at 2. by rewrite slice_app_l by len.
Qed.

Lemma splice_slice_after {A} off (bs buf : list A) o n :
  (off + length bs ≤ length buf)%nat → (off + length bs ≤ o)%nat →
  slice o n (splice off bs buf) = slice o n buf.
Proof.
  intros. unfold splice. rewrite slice_skip by len. rewrite slice_skip by len.
  unfold slice. rewrite drop_drop. do 2 f_equal. len.
Qed.

(** [std::vector<byte>::resize], new elements are zero. *)
Definition resize (n : nat) (buf : bytes) : bytes :=
  take n buf ++ replicate (n - length buf) 0.

Lemma length_resize n buf : length (resize n buf) = n.
Proof. unfold resize. len. Qed.
#[export] Hint Rewrite length_resize : lsvd_len.

Lemma resize_ge n buf :
  (length buf ≤ n)%nat → resize n buf = buf ++ replicate (n - length buf) 0.
Proof. intros. unfold resize. by rewrite take_ge. Qed.

Lemma resize_slice n buf o k :
  (o + k ≤ length buf)%nat → (length buf ≤ n)%nat → slice o k (resize n buf) = slice o k buf.
Proof. intros. rewrite resize_ge by done. by apply slice_app_l. Qed.

(** [memset(buf, 0, n)] *)
Definition zeros (n : nat) : bytes := replicate n 0.

Lemma length_zeros n : length (zeros n) = n.
Proof. apply length_replicate. Qed.
#[export] Hint Rewrite length_zeros : lsvd_len.

(** ** Structures *)

Class Codec (R : Type) := {
  csize : nat;
  enc : R → bytes;
  dec : bytes → R;
  fits : R → Prop;
  enc_length r : length (enc r) = csize;
  dec_enc r : fits r → dec (enc r) = r;
  csize_pos : (0 < csize)%nat;
}.
#[export] Hint Mode Codec ! : typeclass_instances.
Arguments csize R {_} : assert.
#[export] Hint Rewrite @enc_length : lsvd_len.

(** [*(T * )(buf + off)] *)
Definition load_at {R} `{Codec R} (off : nat) (buf : bytes) : option R :=
  bs ← rd off (csize R) buf; Some (dec bs).
(** [*(T * )(buf + off) = r] *)
Definition store_at {R} `{Codec R} (off : nat) (r : R) (buf : bytes) : option bytes :=
  wr off (enc r) buf.
(** [memcpy] of an array of structures *)
Definition enc_array {R} `{Codec R} (l : list R) : bytes := mjoin (enc <$> l).

Section codec.
Context {R : Type} `{Codec R}.
Implicit Types (r : R) (l : list R).

Lemma length_enc_array l : length (enc_array l) = (csize R * length l)%nat.
Proof.
  unfold enc_array. induction l as [|r l IH]; simpl; [lia|].
  change (length (enc r ++ enc_array l) = (csize R * S (length l))%nat).
  rewrite length_app, enc_length. unfold enc_array. rewrite IH. lia.
Qed.

Lemma load_slice off buf r :
  (off + csize R ≤ length buf)%nat → slice off (csize R) buf = enc r → fits r →
  load_at off buf = Some r.
Proof.
  intros Hl Hs Hf. unfold load_at. rewrite rd_some by done. simpl. by rewrite Hs, dec_enc.
Qed.

Lemma load_at_bound off buf r : load_at off buf = Some r → (off + csize R ≤ length buf)%nat.
Proof.
  unfold load_at, rd. intros Hl. case_match eqn:E; [|done]. by apply Nat.leb_le in E.
Qed.

Lemma load_store_same off r buf buf' :
  store_at off r buf = Some buf' → fits r → load_at off buf' = Some r.
Proof.
  intros [E ->]%wr_inv Hf. rewrite enc_length in E. apply load_slice; [|apply splice_slice|done].
  - by rewrite length_splice by (rewrite enc_length; lia).
  - by rewrite enc_length.
  - by rewrite enc_length.
Qed.

Lemma load_wr_disjoint off bs buf buf' o :
  wr off bs buf = Some buf' →
  (o + csize R ≤ off)%nat ∨ (off + length bs ≤ o)%nat →
  load_at (R:=R) o buf' = load_at o buf.
Proof.
  intros [E ->]%wr_inv Hd. unfold load_at, rd. rewrite length_splice by done.
  destruct (o + csize R <=? length buf)%nat; [|done]. simpl. do 2 f_equal.
  destruct Hd; [by apply splice_slice_before|by apply splice_slice_after].
Qed.

(** [deserialise_cpy] and [deserialise_ptrs]: the array of [len / sizeof(T)]
    elements at [off]. *)
Fixpoint load_array (n off : nat) (buf : bytes) : option (list R) :=
  match n with
  | O => Some []
  | S n =>
    r ← load_at off buf;
    rs ← load_array n (off + csize R) buf;
    Some (r :: rs)
  end.

Definition deserialise (buf : bytes) (off len : Z) : option (list R) :=
  load_array (Z.to_nat len / csize R) (Z.to_nat off) buf.

Lemma load_array_slice l off buf :
  (off + csize R * length l ≤ length buf)%nat →
  slice off (csize R * length l) buf = enc_array l → Forall fits l →
  load_array (length l) off buf = Some l.
Proof.
  revert off. induction l as [|r l IH]; intros off Hl Hs Hf; [done|].
  apply Forall_cons in Hf as [Hr Hf]. simpl in Hl.
  change (enc_array (r :: l)) with (enc r ++ enc_array l) in Hs. simpl.
  assert (slice off (csize R) buf = enc r) as H1.
  { rewrite <- (Nat.add_0_r off). rewrite <- (slice_slice off (csize R * length (r :: l))) by (simpl; lia).
    rewrite Hs. apply slice_hit. apply enc_length. }
  assert (slice (off + csize R) (csize R * length l) buf = enc_array l) as H2.
  { rewrite <- (slice_slice off (csize R * length (r :: l))) by (simpl; lia).
    rewrite Hs. rewrite slice_skip by (rewrite enc_length; lia).
    rewrite enc_length, Nat.sub_diag. apply slice_all. apply length_enc_array. }
  rewrite (load_slice off buf r) by (auto; lia). simpl.
  rewrite IH by (auto; lia). done.
Qed.

Lemma deserialise_slice l (off len : Z) buf :
  0 ≤ off → len = Z.of_nat (csize R * length l) →
  (Z.to_nat off + csize R * length l ≤ length buf)%nat →
  slice (Z.to_nat off) (csize R * length l) buf = enc_array l → Forall fits l →
  deserialise buf off len = Some l.
Proof.
  intros Hoff -> Hl Hs Hf. unfold deserialise. rewrite Nat2Z.id.
  rewrite (Nat.mul_comm (csize R)), Nat.div_mul by (pose proof (csize_pos (R:=R)); lia).
  by apply load_array_slice.
Qed.
End codec.
#[export] Hint Rewrite @length_enc_array : lsvd_len.

#[global] Arguments slice : simpl never.
#[global] Arguments rd : simpl never.
#[global] Arguments wr : simpl never.
#[global] Arguments load_at : simpl never.
#[global] Arguments store_at : simpl never.
#[global] Arguments deserialise : simpl never.
#[global] Arguments enc_array : simpl never.

(** ** Scalars *)

#[export] Program Instance u32_codec : Codec Z := {|
  csize := 4; enc := le_split 4; dec := le_combine; fits z := 0 ≤ z < 2 ^ 32;
|}.
Next Obligation. intros. apply length_le_split. Qed.
Next Obligation. simpl. intros. by apply le_combine_split_id. Qed.
Next Obligation. lia. Qed.
