(* ===== verification/Memory.v ===== *)
(** * Memory

    The heap maps cells (an allocation and a byte offset into it) to bytes.
    Reading or writing a cell that is not allocated is a fault, so a theorem
    that an operation succeeds also shows that it touches no memory outside its
    allocations.  The buffers of the program (batch buffers, the client's I/O
    vectors) live in one heap; what is disjoint is a hypothesis. *)

From S2P Require Import Prelude Bytes Extent.

Notation addr := (Z * Z)%type.
Notation heap := (gmap addr Z).

(** The [n] cells from [p] on. *)
Fixpoint cells_at (p : addr) (n : nat) : list addr :=
  match n with
  | O => []
  | S n => p :: cells_at (p.1, p.2 + 1) n
  end.

Definition read_cells (h : heap) (cs : list addr) : option bytes :=
  mapM (λ c, h !! c) cs.

Fixpoint write_cells (h : heap) (cs : list addr) (bs : bytes) : option heap :=
  match cs, bs with
  | c :: cs, b :: bs =>
    _ ← h !! c;
    write_cells (<[c := b]> h) cs bs
  | [], [] => Some h
  | _, _ => None
  end.

(** [memcpy] from and to memory. *)
Definition mem_read (h : heap) (p : addr) (n : nat) : option bytes :=
  read_cells h (cells_at p n).
Definition mem_write (h : heap) (p : addr) (bs : bytes) : option heap :=
  write_cells h (cells_at p (length bs)) bs.

(** [malloc(n)] as allocation [id]; the contents are unspecified, here zero. *)
Fixpoint fill_cells (h : heap) (cs : list addr) : heap :=
  match cs with
  | [] => h
  | c :: cs => <[c := 0]> (fill_cells h cs)
  end.
Definition malloc (h : heap) (id : Z) (n : nat) : heap :=
  fill_cells h (cells_at (id, 0) n).
(** [free] of allocation [id] *)
Definition free (h : heap) (id : Z) : heap := filter (λ kv, kv.1.1 ≠ id) h.

(** ** Cells *)

Lemma length_cells p n : length (cells_at p n) = n.
Proof. revert p. induction n as [|n IH]; intros p; simpl; [done|]. by rewrite IH. Qed.
#[export] Hint Rewrite length_cells : lsvd_len.

Lemma cells_lookup p n (i : nat) :
  (i < n)%nat → cells_at p n !! i = Some (p.1, p.2 + Z.of_nat i).
Proof.
  revert p i. induction n as [|n IH]; intros p i Hi; [lia|].
  destruct i as [|i]; simpl.
  - rewrite Z.add_0_r. by destruct p.
  - rewrite IH by lia. simpl. do 2 f_equal. lia.
Qed.

Lemma elem_of_cells p n c :
  c ∈ cells_at p n ↔ c.1 = p.1 ∧ p.2 ≤ c.2 < p.2 + Z.of_nat n.
Proof.
  revert p. induction n as [|n IH]; intros [b o]; simpl.
  - rewrite elem_of_nil. lia.
  - rewrite elem_of_cons, IH. simpl. destruct c as [cb co]. simpl. split.
    + intros [[= -> ->]|[-> ?]]; lia.
    + intros [-> ?]. destruct (decide (co = o)) as [->|]; [by left|right; lia].
Qed.

Lemma NoDup_cells p n : NoDup (cells_at p n).
Proof.
  revert p. induction n as [|n IH]; intros p; simpl; constructor; auto.
  rewrite elem_of_cells. simpl. lia.
Qed.

Lemma cells_app p n m :
  cells_at p (n + m) = cells_at p n ++ cells_at (p.1, p.2 + Z.of_nat n) m.
Proof.
  revert p. induction n as [|n IH]; intros p; simpl.
  - rewrite Z.add_0_r. by destruct p.
  - rewrite IH. simpl. do 4 f_equal. lia.
Qed.

Lemma drop_cells p n k :
  (k ≤ n)%nat → drop k (cells_at p n) = cells_at (p.1, p.2 + Z.of_nat k) (n - k).
Proof.
  intros. replace n with (k + (n - k))%nat at 1 by lia. rewrite cells_app.
  rewrite drop_app_le by len. rewrite drop_ge by len. done.
Qed.

Lemma take_cells p n k : (k ≤ n)%nat → take k (cells_at p n) = cells_at p k.
Proof.
  intros. replace n with (k + (n - k))%nat at 1 by lia. rewrite cells_app.
  rewrite take_app_le by len. by rewrite take_ge by len.
Qed.

Lemma slice_cells p n off k :
  (off + k ≤ n)%nat → slice off k (cells_at p n) = cells_at (p.1, p.2 + Z.of_nat off) k.
Proof. intros. unfold slice. rewrite drop_cells by lia. by rewrite take_cells by lia. Qed.

(** ** Reading and writing *)

Lemma read_cells_app h cs ds :
  read_cells h (cs ++ ds) =
  (a ← read_cells h cs; b ← read_cells h ds; Some (a ++ b)).
Proof.
  unfold read_cells. induction cs as [|c cs IH]; simpl.
  - by destruct (mapM _ ds).
  - destruct (h !! c); simpl; [|done]. rewrite IH.
    destruct (mapM _ cs); simpl; [|done]. by destruct (mapM _ ds).
Qed.

Lemma read_cells_Some h cs bs :
  read_cells h cs = Some bs ↔ Forall2 (λ c b, h !! c = Some b) cs bs.
Proof. apply mapM_Some. Qed.

Lemma read_cells_length h cs bs : read_cells h cs = Some bs → length bs = length cs.
Proof. intros ->%read_cells_Some%Forall2_length. done. Qed.

Lemma read_cells_ext h h' cs :
  (∀ c, c ∈ cs → h !! c = h' !! c) → read_cells h cs = read_cells h' cs.
Proof.
  unfold read_cells. induction cs as [|c cs IH]; intros Hx; [done|]. simpl.
  rewrite Hx by set_solver. rewrite IH by set_solver. done.
Qed.

Lemma read_cells_slice h cs bs off n :
  read_cells h cs = Some bs → read_cells h (slice off n cs) = Some (slice off n bs).
Proof.
  rewrite !read_cells_Some. intros HF. unfold slice.
  apply Forall2_take, Forall2_drop. done.
Qed.

Definition allocated (h : heap) (cs : list addr) : Prop := ∀ c, c ∈ cs → is_Some (h !! c).

Lemma read_cells_allocated h cs :
  allocated h cs ↔ is_Some (read_cells h cs).
Proof.
  unfold allocated, read_cells. rewrite mapM_is_Some, Forall_forall. done.
Qed.

Lemma write_cells_allocated h cs bs :
  allocated h cs → length bs = length cs → is_Some (write_cells h cs bs).
Proof.
  revert h bs. induction cs as [|c cs IH]; intros h [|b bs] Ha Hl; try done.
  simpl. destruct (Ha c) as [x Hx]; [set_solver|]. rewrite Hx. simpl.
  apply IH; [|by injection Hl].
  intros d Hd. destruct (decide (c = d)) as [->|]; [rewrite lookup_insert_eq; eauto|].
  rewrite lookup_insert_ne by done. apply Ha. set_solver.
Qed.

Lemma write_cells_other h cs bs h' c :
  write_cells h cs bs = Some h' → c ∉ cs → h' !! c = h !! c.
Proof.
  revert h bs. induction cs as [|d cs IH]; intros h [|b bs] Hw Hc; simplify_eq/=; auto.
  destruct (h !! d); simplify_eq/=. apply not_elem_of_cons in Hc as [Hcd Hc].
  rewrite (IH _ _ Hw Hc). by rewrite lookup_insert_ne by done.
Qed.

Lemma write_cells_dom h cs bs h' c :
  write_cells h cs bs = Some h' → is_Some (h' !! c) ↔ is_Some (h !! c).
Proof.
  revert h bs. induction cs as [|d cs IH]; intros h [|b bs] Hw; simplify_eq/=; auto.
  destruct (h !! d) as [y|] eqn:Hd; simplify_eq/=. rewrite (IH _ _ Hw).
  destruct (decide (d = c)) as [->|]; [|by rewrite lookup_insert_ne].
  rewrite lookup_insert_eq, Hd. split; intros _; eauto.
Qed.

Lemma write_cells_length h cs bs h' :
  write_cells h cs bs = Some h' → length bs = length cs.
Proof.
  revert h bs. induction cs as [|d cs IH]; intros h [|b bs] Hw; simplify_eq/=; auto.
  destruct (h !! d); simplify_eq/=. f_equal. eauto.
Qed.

Lemma write_cells_read h cs bs h' :
  write_cells h cs bs = Some h' → NoDup cs → read_cells h' cs = Some bs.
Proof.
  revert h bs. induction cs as [|d cs IH]; intros h [|b bs] Hw Hnd; simplify_eq/=; auto.
  destruct (h !! d) eqn:Hd; simplify_eq/=. apply NoDup_cons in Hnd as [Hni Hnd].
  unfold read_cells. simpl.
  rewrite (write_cells_other _ _ _ _ d Hw Hni), lookup_insert_eq. simpl.
  change (mapM (λ c, h' !! c) cs) with (read_cells h' cs).
  by rewrite (IH _ _ Hw Hnd).
Qed.

Lemma write_cells_read_disjoint h cs bs h' ds :
  write_cells h cs bs = Some h' → (∀ c, c ∈ ds → c ∉ cs) →
  read_cells h' ds = read_cells h ds.
Proof.
  intros Hw Hd. apply read_cells_ext. intros c Hc. eapply write_cells_other; eauto.
Qed.

(** Overwriting a slice of the cells overwrites that slice of the contents. *)
Lemma write_slice_read h cs old off bs h' :
  NoDup cs → read_cells h cs = Some old → (off + length bs ≤ length cs)%nat →
  write_cells h (slice off (length bs) cs) bs = Some h' →
  read_cells h' cs = Some (splice off bs old).
Proof.
  intros Hnd Hr Hl Hw. set (n := length bs) in *.
  assert (cs = take off cs ++ slice off n cs ++ drop (off + n) cs) as Hcs.
  { unfold slice. rewrite <- drop_drop, (take_drop n (drop off cs)), take_drop. done. }
  rewrite Hcs in Hnd. apply NoDup_app in Hnd as (_ & Hd1 & Hnd).
  apply NoDup_app in Hnd as (Hn2 & Hd2 & _).
  rewrite Hcs, !read_cells_app.
  rewrite (write_cells_read_disjoint _ _ _ _ (take off cs) Hw) by (intros c ??; eapply Hd1; set_solver).
  rewrite (write_cells_read_disjoint _ _ _ _ (drop (off + n) cs) Hw) by (intros c ??; eapply Hd2; set_solver).
  rewrite (write_cells_read _ _ _ _ Hw Hn2).
  apply read_cells_Some in Hr.
  rewrite (proj2 (read_cells_Some h (take off cs) (take off old))) by by apply Forall2_take.
  rewrite (proj2 (read_cells_Some h (drop (off + n) cs) (drop (off + n) old))) by by apply Forall2_drop.
  done.
Qed.

Lemma mem_read_length h p n bs : mem_read h p n = Some bs → length bs = n.
Proof. intros H%read_cells_length. by rewrite length_cells in H. Qed.

(** Two byte ranges do not meet. *)
Definition apart (p : addr) (n : nat) (q : addr) (m : nat) : Prop :=
  p.1 ≠ q.1 ∨ p.2 + Z.of_nat n ≤ q.2 ∨ q.2 + Z.of_nat m ≤ p.2.

Lemma apart_cells p n q m c : apart p n q m → c ∈ cells_at p n → c ∉ cells_at q m.
Proof. rewrite !elem_of_cells. unfold apart. intros Ha Hc Hd. lia. Qed.

Lemma mem_write_read h p bs h' :
  mem_write h p bs = Some h' → mem_read h' p (length bs) = Some bs.
Proof. intros Hw. eapply write_cells_read; [exact Hw|apply NoDup_cells]. Qed.

Lemma mem_write_apart h p bs h' q m :
  mem_write h p bs = Some h' → apart q m p (length bs) → mem_read h' q m = mem_read h q m.
Proof.
  intros Hw Ha. eapply write_cells_read_disjoint; [exact Hw|]. intros c. by apply apart_cells.
Qed.

Lemma mem_read_slice h p n bs off k :
  mem_read h p n = Some bs → (off + k ≤ n)%nat →
  mem_read h (p.1, p.2 + Z.of_nat off) k = Some (slice off k bs).
Proof.
  intros Hr Hl. unfold mem_read in *. rewrite <- (slice_cells p n) by done.
  by apply read_cells_slice.
Qed.

(** ** Allocation *)

Lemma fill_cells_lookup h cs c :
  fill_cells h cs !! c = if decide (c ∈ cs) then Some 0 else h !! c.
Proof.
  induction cs as [|d cs IH]; cbn [fill_cells]; [rewrite decide_False by set_solver; done|].
  destruct (decide (d = c)) as [->|].
  - rewrite lookup_insert_eq, decide_True by set_solver. done.
  - rewrite lookup_insert_ne, IH by done. repeat case_decide; set_solver.
Qed.

Lemma malloc_other h id n c : c.1 ≠ id → malloc h id n !! c = h !! c.
Proof.
  intros. unfold malloc. rewrite fill_cells_lookup, decide_False; [done|].
  rewrite elem_of_cells. simpl. tauto.
Qed.

Lemma malloc_allocated h id n : allocated (malloc h id n) (cells_at (id, 0) n).
Proof. intros c Hc. unfold malloc. rewrite fill_cells_lookup, decide_True by done. eauto. Qed.

Lemma free_other h id c : c.1 ≠ id → free h id !! c = h !! c.
Proof.
  intros Hc. unfold free. destruct (h !! c) as [b|] eqn:E.
  - by apply map_lookup_filter_Some_2.
  - apply map_lookup_filter_None. auto.
Qed.
