(* ===== verification/SmartIov.v ===== *)
(** * Scatter/gather vectors (src/src/smartiov.h)

    A [smartiov] is a vector of memory segments.  [cells] is its linear view:
    the memory cells in the order the vector presents them.  Every operation is
    specified on that view: [slice] takes a range of it, [copy_out] reads it,
    [copy_in] and [zero] overwrite it. *)

From S2P Require Import Prelude Bytes Extent Memory.

Module SmartIov.

(** [struct iovec] *)
Record iovec := mk_iovec { iov_base : addr; iov_len : nat }.

(** [class smartiov] *)
Definition smartiov := list iovec.

(** The constructor from an array, and [ingest]: empty segments are dropped. *)
Definition ingest (iovs : smartiov) (iov : list iovec) : smartiov :=
  iovs ++ filter (λ v, (0 < iov_len v)%nat) iov.
Definition of_array (iov : list iovec) : smartiov := ingest [] iov.
(** The constructor from a buffer. *)
Definition of_buf (p : addr) (n : nat) : smartiov := [mk_iovec p n].
Definition push_back (iovs : smartiov) (v : iovec) : smartiov := iovs ++ [v].

(** [bytes] *)
Fixpoint bytes_of (iovs : smartiov) : nat :=
  match iovs with
  | [] => 0
  | v :: iovs => (iov_len v + bytes_of iovs)%nat
  end.

(** [(char * )base + off] *)
Definition addr_add (p : addr) (n : nat) : addr := (p.1, p.2 + Z.of_nat n).

(** The loop of [slice]. *)
Fixpoint slice_loop (iovs : smartiov) (off len : nat) : smartiov :=
  match iovs with
  | [] => []
  | v :: iovs =>
    if (len =? 0)%nat then [] else
    if (iov_len v <? off)%nat then slice_loop iovs (off - iov_len v) len
    else
      let _len := Nat.min len (iov_len v - off) in
      mk_iovec (addr_add (iov_base v) off) _len :: slice_loop iovs 0 (len - _len)
  end.

(** [slice]; the assertion is part of it.  Callers have [off <= limit]; otherwise the
    length of the code wraps, and here it is 0. *)
Definition iov_slice (iovs : smartiov) (off limit : nat) : option smartiov :=
  _ ← assert (limit <=? bytes_of iovs)%nat;
  Some (slice_loop iovs off (limit - off)).

(** [zero()] *)
Fixpoint zero_all (h : heap) (iovs : smartiov) : option heap :=
  match iovs with
  | [] => Some h
  | v :: iovs => h ← mem_write h (iov_base v) (zeros (iov_len v)); zero_all h iovs
  end.

(** [zero(off, limit)], for [off <= limit] like [slice] *)
Fixpoint zero_loop (h : heap) (iovs : smartiov) (off len : nat) : option heap :=
  match iovs with
  | [] => Some h
  | v :: iovs =>
    if (len =? 0)%nat then Some h else
    if (iov_len v <? off)%nat then zero_loop h iovs (off - iov_len v) len
    else
      let _len := Nat.min len (iov_len v - off) in
      h ← mem_write h (addr_add (iov_base v) off) (zeros _len);
      zero_loop h iovs 0 (len - _len)
  end.
Definition zero (h : heap) (iovs : smartiov) (off limit : nat) : option heap :=
  zero_loop h iovs off (limit - off).

(** [copy_in(buf)]: [memcpy] from [buf], segment by segment. *)
Fixpoint copy_in (h : heap) (iovs : smartiov) (buf : addr) : option heap :=
  match iovs with
  | [] => Some h
  | v :: iovs =>
    bs ← mem_read h buf (iov_len v);
    h ← mem_write h (iov_base v) bs;
    copy_in h iovs (addr_add buf (iov_len v))
  end.

(** [copy_in(buf, limit)] *)
Fixpoint copy_in_loop (h : heap) (iovs : smartiov) (buf : addr) (remaining : nat)
    : option heap :=
  match iovs with
  | [] => Some h
  | v :: iovs =>
    let to_copy := Nat.min remaining (iov_len v) in
    bs ← mem_read h buf to_copy;
    h ← mem_write h (iov_base v) bs;
    if (remaining - to_copy =? 0)%nat then Some h
    else copy_in_loop h iovs (addr_add buf (iov_len v)) (remaining - to_copy)
  end.
Definition copy_in_limit (h : heap) (iovs : smartiov) (buf : addr) (limit : nat)
    : option heap :=
  if (limit =? 0)%nat then Some h else copy_in_loop h iovs buf limit.

(** [copy_out(buf)] *)
Fixpoint copy_out (h : heap) (iovs : smartiov) (buf : addr) : option heap :=
  match iovs with
  | [] => Some h
  | v :: iovs =>
    bs ← mem_read h (iov_base v) (iov_len v);
    h ← mem_write h buf bs;
    copy_out h iovs (addr_add buf (iov_len v))
  end.

(** [aligned(n)], for [n] a power of two *)
Definition aligned (addr_of : addr → Z) (iovs : smartiov) (n : Z) : bool :=
  forallb (λ v, Z.land (addr_of (iov_base v)) (n - 1) =? 0) iovs.

(** ** The linear view *)

Definition cells (iovs : smartiov) : list addr :=
  mjoin ((λ v, cells_at (iov_base v) (iov_len v)) <$> iovs).

Lemma cells_cons v iovs : cells (v :: iovs) = cells_at (iov_base v) (iov_len v) ++ cells iovs.
Proof. done. Qed.

Lemma length_cells_of iovs : length (cells iovs) = bytes_of iovs.
Proof.
  induction iovs as [|v iovs IH]; [done|]. rewrite cells_cons, length_app, IH, length_cells. done.
Qed.

(** The contents of the vector. *)
Definition contents (h : heap) (iovs : smartiov) : option bytes := read_cells h (cells iovs).

Lemma contents_length h iovs data : contents h iovs = Some data → length data = bytes_of iovs.
Proof. intros Hc%read_cells_length. by rewrite Hc, length_cells_of. Qed.

Lemma ingest_cells iovs iov : cells (ingest iovs iov) = cells iovs ++ cells iov.
Proof.
  unfold ingest, cells. rewrite fmap_app, join_app. f_equal.
  induction iov as [|v iov IH]; [done|].
  rewrite filter_cons. case_decide as Hv; simpl.
  - f_equal. exact IH.
  - assert (iov_len v = 0)%nat as -> by lia. exact IH.
Qed.

(** [slice] is a slice of the linear view. *)
Lemma slice_loop_cells iovs : ∀ off len,
  cells (slice_loop iovs off len) = slice off len (cells iovs).
Proof.
  induction iovs as [|v iovs IH]; intros off len; simpl.
  { unfold slice. change (cells []) with (@nil addr). by rewrite drop_nil, take_nil. }
  rewrite cells_cons. destruct (len =? 0)%nat eqn:E; zb.
  { subst. done. }
  destruct (iov_len v <? off)%nat eqn:E1; zb.
  - rewrite IH. symmetry. rewrite slice_skip by len. by rewrite length_cells.
  - rewrite cells_cons, IH. cbn [iov_base iov_len]. unfold slice.
    rewrite drop_app_le, drop_0 by len.
    destruct (decide (len ≤ iov_len v - off)%nat).
    + rewrite Nat.min_l by lia. rewrite Nat.sub_diag, take_0, app_nil_r.
      rewrite take_app_le by len. rewrite drop_cells, take_cells by lia. done.
    + rewrite Nat.min_r by lia. rewrite drop_cells by lia.
      rewrite take_app_ge by len. rewrite length_cells. done.
Qed.

(** ** Overwriting *)

Lemma write_cells_app h cs ds b1 b2 h1 :
  write_cells h cs b1 = Some h1 → write_cells h (cs ++ ds) (b1 ++ b2) = write_cells h1 ds b2.
Proof.
  revert h b1. induction cs as [|c cs IH]; intros h [|b b1] Hw; simplify_eq/=; [done|].
  destruct (h !! c); simplify_eq/=. by apply IH.
Qed.

Lemma zeros_app n m : zeros (n + m) = zeros n ++ zeros m.
Proof. apply replicate_add. Qed.

(** [zero(off, limit)] writes zeros over the slice. *)
Lemma zero_loop_cells iovs : ∀ h off len,
  (off + len ≤ bytes_of iovs)%nat → allocated h (cells iovs) →
  zero_loop h iovs off len = write_cells h (slice off len (cells iovs)) (zeros len).
Proof.
  induction iovs as [|v iovs IH]; intros h off len Hl Ha; simpl in *.
  { replace len with 0%nat by lia. done. }
  rewrite cells_cons in Ha |- *. destruct (len =? 0)%nat eqn:E; zb; [by subst|].
  destruct (iov_len v <? off)%nat eqn:E1; zb.
  - rewrite IH by (try lia; intros c Hc; apply Ha; set_solver).
    f_equal. symmetry. rewrite slice_skip by len. by rewrite length_cells.
  - set (n := Nat.min len (iov_len v - off)).
    assert (slice off len (cells_at (iov_base v) (iov_len v) ++ cells iovs) =
            cells_at (addr_add (iov_base v) off) n ++ slice 0 (len - n) (cells iovs)) as ->.
    { pose proof (slice_loop_cells (v :: iovs) off len) as Hs. rewrite cells_cons in Hs.
      rewrite <- Hs. simpl. rewrite (proj2 (Nat.eqb_neq _ _)), (proj2 (Nat.ltb_ge _ _)) by lia.
      by rewrite cells_cons, slice_loop_cells. }
    assert (zeros len = zeros n ++ zeros (len - n)) as ->
      by (rewrite <- zeros_app; f_equal; lia).
    assert (allocated h (cells_at (addr_add (iov_base v) off) n)) as Ha1.
    { intros c Hc. apply Ha. apply elem_of_app. left. rewrite elem_of_cells in *.
      unfold addr_add in Hc. simpl in Hc. lia. }
    destruct (write_cells_allocated h _ (zeros n) Ha1) as [h1 Hh1]; [len|].
    unfold mem_write. rewrite length_zeros, Hh1. simpl.
    rewrite (write_cells_app _ _ _ _ _ _ Hh1). apply IH; [lia|].
    intros c Hc. rewrite (write_cells_dom _ _ _ _ c Hh1). apply Ha. set_solver.
Qed.

(** [copy_in(buf)] writes the source over the whole vector, provided the source
    is not part of it. *)
Lemma copy_in_cells iovs : ∀ h buf src,
  allocated h (cells iovs) → mem_read h buf (bytes_of iovs) = Some src →
  (∀ c, c ∈ cells_at buf (bytes_of iovs) → c ∉ cells iovs) →
  copy_in h iovs buf = write_cells h (cells iovs) src.
Proof.
  induction iovs as [|v iovs IH]; intros h buf src Ha Hr Hd; simpl in *.
  { by injection Hr as <-. }
  rewrite cells_cons in *. unfold mem_read in Hr. rewrite cells_app, read_cells_app in Hr.
  destruct (read_cells h (cells_at buf (iov_len v))) as [b1|] eqn:H1; [|done]. simpl in Hr.
  destruct (read_cells h (cells_at (buf.1, buf.2 + Z.of_nat (iov_len v)) (bytes_of iovs)))
    as [b2|] eqn:H2; simplify_eq/=.
  unfold mem_read at 1. rewrite H1. simpl.
  pose proof (read_cells_length _ _ _ H1) as Hl1. rewrite length_cells in Hl1.
  destruct (write_cells_allocated h (cells_at (iov_base v) (iov_len v)) b1) as [h1 Hh1].
  { intros c Hc. apply Ha. set_solver. }
  { len. }
  unfold mem_write. rewrite Hl1, Hh1. simpl. rewrite (write_cells_app _ _ _ _ _ _ Hh1).
  rewrite cells_app in Hd.
  apply IH.
  - intros c Hc. rewrite (write_cells_dom _ _ _ _ c Hh1). apply Ha. set_solver.
  - unfold mem_read, addr_add.
    rewrite (write_cells_read_disjoint _ _ _ _ _ Hh1); [done|]. set_solver.
  - unfold addr_add. set_solver.
Qed.

(** [copy_out(buf)] writes the contents to the destination, provided it is not
    part of the vector. *)
Lemma copy_out_cells iovs : ∀ h buf src,
  contents h iovs = Some src → allocated h (cells_at buf (bytes_of iovs)) →
  (∀ c, c ∈ cells_at buf (bytes_of iovs) → c ∉ cells iovs) →
  copy_out h iovs buf = write_cells h (cells_at buf (bytes_of iovs)) src.
Proof.
  unfold contents. induction iovs as [|v iovs IH]; intros h buf src Hr Ha Hd; simpl in *.
  { by injection Hr as <-. }
  rewrite cells_cons in *. rewrite cells_app in Ha, Hd |- *. rewrite read_cells_app in Hr.
  destruct (read_cells h (cells_at (iov_base v) (iov_len v))) as [b1|] eqn:H1; [|done].
  simpl in Hr. destruct (read_cells h (cells iovs)) as [b2|] eqn:H2; simplify_eq/=.
  unfold mem_read at 1. rewrite H1. simpl.
  pose proof (read_cells_length _ _ _ H1) as Hl1. rewrite length_cells in Hl1.
  destruct (write_cells_allocated h (cells_at buf (iov_len v)) b1) as [h1 Hh1].
  { intros c Hc. apply Ha. set_solver. }
  { len. }
  unfold mem_write. rewrite Hl1, Hh1. simpl. rewrite (write_cells_app _ _ _ _ _ _ Hh1).
  apply IH.
  - rewrite (write_cells_read_disjoint _ _ _ _ _ Hh1); [done|]. set_solver.
  - intros c Hc. rewrite (write_cells_dom _ _ _ _ c Hh1). apply Ha. set_solver.
  - unfold addr_add. set_solver.
Qed.

(** A range of the vector filled from memory: [slice(off, limit).copy_in(buf)]. *)
Lemma fill_slice h iovs buf off n src old :
  NoDup (cells iovs) → contents h iovs = Some old → (off + n ≤ bytes_of iovs)%nat →
  mem_read h buf n = Some src → (∀ c, c ∈ cells_at buf n → c ∉ cells iovs) →
  ∃ sl h', iov_slice iovs off (off + n) = Some sl ∧ copy_in h sl buf = Some h' ∧
    contents h' iovs = Some (splice off src old) ∧
    (∀ c, c ∉ cells iovs → h' !! c = h !! c).
Proof.
  intros Hnd Hc Hl Hr Hd. unfold iov_slice.
  rewrite (proj2 (Nat.leb_le _ _)) by lia. simpl.
  replace (off + n - off)%nat with n by lia. set (sl := slice_loop iovs off n).
  pose proof (slice_loop_cells iovs off n) as Hsl. fold sl in Hsl.
  pose proof (mem_read_length _ _ _ _ Hr) as Hn.
  assert (bytes_of sl = n) as Hb.
  { rewrite <- length_cells_of, Hsl. apply length_slice. by rewrite length_cells_of. }
  assert (∀ c, c ∈ cells sl → c ∈ cells iovs) as Hsub.
  { rewrite Hsl. intros c Hx. unfold slice in Hx.
    eapply subseteq_drop, subseteq_take. exact Hx. }
  assert (allocated h (cells sl)) as Ha.
  { intros c Hx. apply (proj2 (read_cells_allocated h (cells iovs)) (mk_is_Some _ _ Hc)). auto. }
  assert (length (cells sl) = n) as Hln by by rewrite length_cells_of.
  destruct (write_cells_allocated h (cells sl) src Ha) as [h' Hw]; [lia|].
  exists sl, h'. split; [done|]. split.
  { rewrite <- Hw. apply copy_in_cells; rewrite ?Hb; auto. intros c Hx Hy. by eapply Hd, Hsub. }
  split.
  - unfold contents. eapply write_slice_read; [done|exact Hc| |].
    + by rewrite length_cells_of, Hn.
    + rewrite Hn, <- Hsl. done.
  - intros c Hx. eapply write_cells_other; [exact Hw|]. auto.
Qed.

(** C37: filling a slice of an I/O vector from memory ([slice] then [copy_in])
    succeeds and overwrites exactly that range of the vector's linear contents,
    whatever the segment boundaries are. *)
Theorem slice_copy_in_correct h iovs buf off n src old :
  NoDup (cells iovs) → contents h iovs = Some old → (off + n ≤ bytes_of iovs)%nat →
  mem_read h buf n = Some src → (∀ c, c ∈ cells_at buf n → c ∉ cells iovs) →
  ∃ sl h', iov_slice iovs off (off + n) = Some sl ∧ copy_in h sl buf = Some h' ∧
    contents h' iovs = Some (splice off src old).
Proof.
  intros Hnd Hc Hl Hr Hd.
  destruct (fill_slice h iovs buf off n src old) as (sl & h' & ? & ? & ? & _); eauto.
Qed.

(** [zero(off, limit)], likewise. *)
Lemma zero_range h iovs off n old :
  NoDup (cells iovs) → contents h iovs = Some old → (off + n ≤ bytes_of iovs)%nat →
  ∃ h', zero h iovs off (off + n) = Some h' ∧
    contents h' iovs = Some (splice off (zeros n) old) ∧
    (∀ c, c ∉ cells iovs → h' !! c = h !! c).
Proof.
  intros Hnd Hc Hl. unfold zero. replace (off + n - off)%nat with n by lia.
  assert (allocated h (cells iovs)) as Ha by (apply read_cells_allocated; by eexists).
  rewrite zero_loop_cells by done.
  assert (∀ c, c ∈ slice off n (cells iovs) → c ∈ cells iovs) as Hsub.
  { intros c Hx. unfold slice in Hx. eapply subseteq_drop, subseteq_take. exact Hx. }
  destruct (write_cells_allocated h (slice off n (cells iovs)) (zeros n)) as [h' Hw].
  { intros c Hx. auto. }
  { rewrite length_slice; [len|by rewrite length_cells_of]. }
  exists h'. split; [done|]. split.
  - eapply write_slice_read; [done|exact Hc| |]; rewrite length_zeros; [by rewrite length_cells_of|done].
  - intros c Hx. eapply write_cells_other; [exact Hw|]. auto.
Qed.

(** Two segments of four cells each, and a source buffer. *)
Definition demo_heap : heap := malloc (malloc (malloc ∅ 1 4) 2 4) 3 8.
Definition demo_iov : smartiov := [mk_iovec (1, 0) 4; mk_iovec (2, 0) 4].

Lemma slice_copy_in_correct_witness :
  ∃ sl h', iov_slice demo_iov 2 (2 + 4) = Some sl ∧ copy_in demo_heap sl (3, 0) = Some h' ∧
    contents h' demo_iov = Some (splice 2 [0; 0; 0; 0] [0; 0; 0; 0; 0; 0; 0; 0]).
Proof.
  apply slice_copy_in_correct.
  - vm_compute. repeat constructor; set_solver.
  - vm_compute. reflexivity.
  - vm_compute. lia.
  - vm_compute. reflexivity.
  - intros c Hc%elem_of_cells Hd.
    unfold demo_iov in Hd. rewrite !cells_cons, !elem_of_app, !elem_of_cells in Hd.
    simpl in *. destruct Hd as [?|[?|Hd]]; [lia|lia|]. by apply elem_of_nil in Hd.
Defined.
End SmartIov.
