(* ===== verification/LsvdTypes.v ===== *)
(** * Shared types and helpers (src/src/lsvd_types.h)

    Integer rounding, and the names of backend objects: the image name, a dot
    and the sequence number in eight hexadecimal digits. *)

From Stdlib Require Import Ascii String.
From S2P Require Import Prelude.

Definition LSVD_MAGIC : Z := 0x4456534c.

(** [enum obj_type] (src/src/objects.h, first lines) *)
Definition OBJ_SUPERBLOCK : Z := 1.
Definition OBJ_LOGDATA : Z := 2.
Definition OBJ_CHECKPOINT : Z := 3.

(** C division on [int]; the arguments are converted to [int]. *)
Definition div_round_up (n m : Z) : Z := (wrap_s 32 n + wrap_s 32 m - 1) ÷ wrap_s 32 m.
Definition round_up (n m : Z) : Z := m * div_round_up n m.
Definition round_down (n m : Z) : Z := m * (wrap_s 32 n ÷ wrap_s 32 m).

Lemma div_round_up_spec n m :
  0 ≤ n → 0 < m → n < 2 ^ 31 → m < 2 ^ 31 →
  n ≤ m * div_round_up n m < n + m ∧ 0 ≤ div_round_up n m.
Proof.
  intros. unfold div_round_up. rewrite !wrap_s_id by lia.
  rewrite Z.quot_div_nonneg by lia.
  pose proof (Z.div_mod (n + m - 1) m ltac:(lia)).
  pose proof (Z.mod_pos_bound (n + m - 1) m ltac:(lia)).
  split; [lia|]. apply Z.div_pos; lia.
Qed.

Lemma round_down_spec n m :
  0 ≤ n < 2 ^ 31 → 0 < m < 2 ^ 31 →
  round_down n m = m * (n / m) ∧ 0 ≤ round_down n m ≤ n ∧ n < round_down n m + m.
Proof.
  intros. unfold round_down. rewrite !wrap_s_id by lia. rewrite Z.quot_div_nonneg by lia.
  pose proof (Z.div_mod n m ltac:(lia)). pose proof (Z.mod_pos_bound n m ltac:(lia)).
  split; [done|]. split; [|lia]. split; [|lia].
  apply Z.mul_nonneg_nonneg; [lia|]. apply Z.div_pos; lia.
Qed.

(** ** Object names *)

(** One digit of [{:08x}]. *)
Definition hex_digit (d : Z) : ascii :=
  match String.get (Z.to_nat d) "0123456789abcdef" with
  | Some c => c
  | None => "0"%char
  end.

(** The [n] low hexadecimal digits, most significant first. *)
Fixpoint hex_digits (n : nat) (z : Z) : list ascii :=
  match n with
  | O => []
  | S n => hex_digits n (z / 16) ++ [hex_digit (z mod 16)]
  end.

(** [fmt::format("{}.{:08x}", prefix, seq)]; [seq] is 32 bits wide, so eight
    digits always suffice. *)
Definition oname (pfx : string) (seq : Z) : string :=
  String.append pfx
    (String.string_of_list_ascii ("."%char :: hex_digits 8 (wrap_u 32 seq))).

Lemma list_ascii_app s t :
  String.list_ascii_of_string (String.append s t) =
  String.list_ascii_of_string s ++ String.list_ascii_of_string t.
Proof. induction s as [|c s IH]; simpl; [done|]. by rewrite IH. Qed.

Lemma list_ascii_inj s t :
  String.list_ascii_of_string s = String.list_ascii_of_string t → s = t.
Proof.
  intros H. rewrite <- (String.string_of_list_ascii_of_string s), H.
  apply String.string_of_list_ascii_of_string.
Qed.

Lemma oname_list pfx seq :
  String.list_ascii_of_string (oname pfx seq) =
  String.list_ascii_of_string pfx ++ "."%char :: hex_digits 8 (wrap_u 32 seq).
Proof.
  unfold oname. by rewrite list_ascii_app, String.list_ascii_of_string_of_list_ascii.
Qed.

Lemma length_hex_digits n z : List.length (hex_digits n z) = n.
Proof.
  revert z. induction n as [|n IH]; intros z; cbn [hex_digits]; [done|].
  rewrite length_app, IH. simpl. lia.
Qed.

Lemma hex_digit_inj a b :
  0 ≤ a < 16 → 0 ≤ b < 16 → hex_digit a = hex_digit b → a = b.
Proof.
  intros Ha Hb.
  assert (∀ d, 0 ≤ d < 16 → d ∈ [0;1;2;3;4;5;6;7;8;9;10;11;12;13;14;15]) as Hin.
  { intros d Hd. rewrite !elem_of_cons. lia. }
  apply Hin in Ha, Hb. rewrite !elem_of_cons in Ha, Hb. set_unfold.
  repeat destruct Ha as [Ha|Ha]; try done; subst a;
    repeat destruct Hb as [Hb|Hb]; try done; subst b; vm_compute; try done; discriminate.
Qed.

Lemma hex_digits_inj n a b :
  0 ≤ a < 16 ^ Z.of_nat n → 0 ≤ b < 16 ^ Z.of_nat n →
  hex_digits n a = hex_digits n b → a = b.
Proof.
  revert a b. induction n as [|n IH]; intros a b Ha Hb; cbn [hex_digits].
  { change (16 ^ Z.of_nat 0) with 1 in *. lia. }
  replace (Z.of_nat (S n)) with (Z.succ (Z.of_nat n)) in * by lia.
  rewrite Z.pow_succ_r in * by lia.
  intros [H1 H2]%app_inj_2; [|done]. injection H2 as H2.
  pose proof (Z.div_mod a 16 ltac:(lia)). pose proof (Z.div_mod b 16 ltac:(lia)).
  apply hex_digit_inj in H2; [|apply Z.mod_pos_bound; lia|apply Z.mod_pos_bound; lia].
  apply IH in H1; [lia| |]; (split; [apply Z.div_pos; lia|apply Z.div_lt_upper_bound; lia]).
Qed.

(** Distinct (prefix, sequence number) pairs name distinct objects. *)
Lemma oname_inj p q a b :
  0 ≤ a < 2 ^ 32 → 0 ≤ b < 2 ^ 32 → oname p a = oname q b → p = q ∧ a = b.
Proof.
  intros Ha Hb Heq. apply (f_equal String.list_ascii_of_string) in Heq.
  rewrite !oname_list, !wrap_u_id in Heq by lia.
  apply app_inj_2 in Heq as [H1 H2]; [|cbn [List.length]; by rewrite !length_hex_digits].
  split; [by apply list_ascii_inj|]. apply (f_equal (drop 1)) in H2.
  change (hex_digits 8 a = hex_digits 8 b) in H2.
  apply (hex_digits_inj 8) in H2; [done|..]; simpl; lia.
Qed.

(** No object has the name of the superblock. *)
Lemma oname_ne p a : oname p a ≠ p.
Proof.
  intros Heq. apply (f_equal String.list_ascii_of_string) in Heq.
  rewrite oname_list in Heq. apply (f_equal List.length) in Heq.
  rewrite length_app in Heq. cbn [List.length] in Heq. lia.
Qed.
