(* ===== verification/Backend.v ===== *)
(** * The object store (src/src/backend.h, src/src/rados_backend.cc)

    The backend keeps objects in a RADOS pool.  librados itself is not part of
    the program: [Rados] lists the calls the backend makes, and [RadosOk] what
    librados documents about them on a pool that does not fail.  In particular
    a write at offset 0 overlays the object and does not truncate it. *)

From S2P Require Import Prelude Bytes Extent Memory SmartIov.

Definition ENOENT : Z := 2.

(** The librados calls made by the backend. *)
Class Rados (S : Type) := {
  (** the contents of an object *)
  rados_obj : S → string → option bytes;
  (** [IoCtx::aio_write(name, comp, bl, len, 0)] *)
  rados_write : S → string → bytes → S;
  (** [IoCtx::aio_remove(name, comp)], with its return value *)
  rados_remove : S → string → Z * S;
  (** [IoCtx::aio_read(name, comp, &bl, len, off)]: return value and data *)
  rados_read : S → string → nat → nat → Z * bytes;
  (** [IoCtx::stat(name, &size, &mtime)]: return value and size *)
  rados_stat : S → string → Z * Z;
}.

Class RadosOk (S : Type) `{Rados S} := {
  rados_write_same s n bs :
    rados_obj (rados_write s n bs) n =
    Some (bs ++ drop (length bs) (default [] (rados_obj s n)));
  rados_write_other s n m bs :
    n ≠ m → rados_obj (rados_write s n bs) m = rados_obj s m;
  rados_remove_ret s n :
    (rados_remove s n).1 = match rados_obj s n with Some _ => 0 | None => - ENOENT end;
  rados_remove_same s n : rados_obj (rados_remove s n).2 n = None;
  rados_remove_other s n m :
    n ≠ m → rados_obj (rados_remove s n).2 m = rados_obj s m;
  rados_read_obj s n k off :
    rados_read s n k off =
    match rados_obj s n with
    | None => (- ENOENT, [])
    | Some b => (Z.of_nat (length (slice off k b)), slice off k b)
    end;
  rados_stat_obj s n :
    rados_stat s n =
    match rados_obj s n with
    | None => (- ENOENT, 0)
    | Some b => (0, Z.of_nat (length b))
    end;
}.

(** A pool as a finite map satisfies the laws. *)
#[export] Instance gmap_rados : Rados (gmap string bytes) := {|
  rados_obj s n := s !! n;
  rados_write s n bs := <[n := bs ++ drop (length bs) (default [] (s !! n))]> s;
  rados_remove s n :=
    (match s !! n with Some _ => 0 | None => - ENOENT end, delete n s);
  rados_read s n k off :=
    match s !! n with
    | None => (- ENOENT, [])
    | Some b => (Z.of_nat (length (slice off k b)), slice off k b)
    end;
  rados_stat s n :=
    match s !! n with None => (- ENOENT, 0) | Some b => (0, Z.of_nat (length b)) end;
|}.

#[export] Instance gmap_rados_ok : RadosOk (gmap string bytes).
Proof.
  split; intros; simpl; auto; by rewrite ?lookup_insert_eq, ?lookup_insert_ne,
    ?lookup_delete_eq, ?lookup_delete_ne.
Qed.

Section backend.
Context {S : Type} `{Rados S}.
Implicit Types (s : S) (name : string).

(** [rados_write_req]: gather the vector, then write the object. *)
Definition write_iov (h : heap) s name (iov : SmartIov.smartiov) : option (Z * S) :=
  bl ← SmartIov.contents h iov; Some (0, rados_write s name bl).

(** [backend::write] on a buffer *)
Definition write s name (buf : bytes) : Z * S := (0, rados_write s name buf).

(** [rados_read_req]: the data is copied into the vector when [ret > 0]. *)
Definition read_iov (bl_buf : addr) (h : heap) s name (offset : nat)
    (iov : SmartIov.smartiov) : option (Z * heap) :=
  let '(ret, bl) := rados_read s name (SmartIov.bytes_of iov) offset in
  if 0 <? ret then
    h1 ← mem_write h bl_buf bl;
    h2 ← SmartIov.copy_in_limit h1 iov bl_buf (length bl);
    Some (ret, h2)
  else Some (ret, h).

(** [backend::read] into a buffer of [len] bytes: the buffer afterwards *)
Definition read s name (offset : nat) (buf : bytes) (len : nat) : Z * bytes :=
  let '(ret, bl) := rados_read s name len offset in
  (ret, if 0 <? ret then splice 0 bl buf else buf).

(** [delete_obj] *)
Definition delete_obj s name : Z * S := rados_remove s name.

(** [exists] *)
Definition exists_obj s name : bool := (rados_stat s name).1 =? 0.

(** [get_size] *)
Definition get_size s name : outcome (option Z) :=
  let '(rv, size) := rados_stat s name in
  if rv =? 0 then Ret (Some size)
  else if rv =? - ENOENT then Ret None
  else Throw.

(** [read_whole_obj] *)
Definition read_whole_obj s name : outcome (option bytes) :=
  size ← get_size s name;
  match size with
  | None => Ret None
  | Some size =>
    let buf := zeros (Z.to_nat size) in
    let '(r, buf) := read s name 0 buf (Z.to_nat size) in
    if r <? 0 then Ret None else Ret (Some buf)
  end.
End backend.

Section backend_ok.
Context {S : Type} `{RadosOk S}.
Implicit Types (s : S) (name : string).

Lemma splice_whole {A} (bs buf : list A) : length bs = length buf → splice 0 bs buf = bs.
Proof. intros Hl. unfold splice. rewrite take_0, drop_ge by lia. by rewrite app_nil_r. Qed.

Lemma read_whole_obj_ok s name : read_whole_obj s name = Ret (rados_obj s name).
Proof.
  unfold read_whole_obj, get_size, read. rewrite rados_stat_obj.
  destruct (rados_obj s name) as [b|] eqn:E; [|done]. simpl.
  rewrite Nat2Z.id, rados_read_obj, E, slice_all by done. simpl.
  rewrite (proj2 (Z.ltb_ge _ _)) by lia.
  destruct (0 <? Z.of_nat (length b)) eqn:E0; zb.
  - by rewrite splice_whole by len.
  - destruct b; [done|]. simpl in *. lia.
Qed.

(** Reading the first [len] bytes of an object that has them. *)
Lemma read_prefix s name buf n b :
  rados_obj s name = Some b → (n ≤ length b)%nat → (n ≤ length buf)%nat →
  read s name 0 buf n = (Z.of_nat n, splice 0 (take n b) buf).
Proof.
  intros E Hn Hb. unfold read. rewrite rados_read_obj, E. unfold slice. rewrite drop_0.
  rewrite length_take_le by done. destruct n as [|n]; [|done]. simpl.
  unfold splice. rewrite !take_0, drop_0. done.
Qed.
End backend_ok.
