(* ===== verification/Objects.v ===== *)
(** * Backend objects (src/src/objects.h, src/src/objects.cc)

    The packed structures of the on-disk format as codecs, the functions that
    serialise superblocks and headers, and the parsers.  Integers are little
    endian; bit fields are allocated from the least significant bit. *)

From S2P Require Import Prelude Bytes Extent Memory SmartIov LsvdTypes Backend.

(** ** Structures *)

(** A field of [n] bytes at offset [off]. *)
Definition uint (off n : nat) (bs : bytes) : Z := le_combine (slice off n bs).

Definition u32_ok (z : Z) : Prop := 0 ≤ z < 2 ^ 32.
Definition u64_ok (z : Z) : Prop := 0 ≤ z < 2 ^ 64.
Definition uuid_ok (u : bytes) : Prop := length u = 16%nat.

(** Reduce projections, but not the images in memory. *)
Ltac codec_red := cbn -[le_split le_combine resize slice app Z.pow uint wrap_u wrap_s] in *.

(** Prove a round trip field by field. *)
Ltac codec_fields :=
  unfold uint; slices; rewrite ?le_combine_split_id by (simpl; lia); reflexivity.

(** [struct common_obj_hdr] *)
Record common_obj_hdr := mk_common_obj_hdr {
  magic : Z;
  version : Z;
  vol_uuid : bytes;
  type : Z;
  seq : Z;
  hdr_sectors : Z;
  data_sectors : Z;
  crc : Z;
}.

#[export] Program Instance common_obj_hdr_codec : Codec common_obj_hdr := {|
  csize := 44;
  enc h :=
    le_split 4 (magic h) ++ le_split 4 (version h) ++ resize 16 (vol_uuid h) ++
    le_split 4 (type h) ++ le_split 4 (seq h) ++ le_split 4 (hdr_sectors h) ++
    le_split 4 (data_sectors h) ++ le_split 4 (crc h);
  dec bs :=
    mk_common_obj_hdr (uint 0 4 bs) (uint 4 4 bs) (slice 8 16 bs) (uint 24 4 bs)
      (uint 28 4 bs) (uint 32 4 bs) (uint 36 4 bs) (uint 40 4 bs);
  fits h :=
    u32_ok (magic h) ∧ u32_ok (version h) ∧ uuid_ok (vol_uuid h) ∧ u32_ok (type h) ∧
    u32_ok (seq h) ∧ u32_ok (hdr_sectors h) ∧ u32_ok (data_sectors h) ∧ u32_ok (crc h);
|}.
Next Obligation. intros. cbv beta. len. Qed.
Next Obligation.
  intros [] (?&?&Hu&?&?&?&?&?). unfold u32_ok, uuid_ok in *. codec_red.
  f_equal; try codec_fields. slices. unfold resize. rewrite Hu. rewrite take_ge by lia.
  apply app_nil_r.
Qed.
Next Obligation. lia. Qed.

(** [struct super_hdr] *)
Record super_hdr := mk_super_hdr {
  vol_size : Z;
  ckpts_offset : Z;
  ckpts_len : Z;
  clones_offset : Z;
  clones_len : Z;
  snaps_offset : Z;
  snaps_len : Z;
}.

#[export] Program Instance super_hdr_codec : Codec super_hdr := {|
  csize := 32;
  enc h :=
    le_split 8 (vol_size h) ++ le_split 4 (ckpts_offset h) ++ le_split 4 (ckpts_len h) ++
    le_split 4 (clones_offset h) ++ le_split 4 (clones_len h) ++
    le_split 4 (snaps_offset h) ++ le_split 4 (snaps_len h);
  dec bs :=
    mk_super_hdr (uint 0 8 bs) (uint 8 4 bs) (uint 12 4 bs) (uint 16 4 bs)
      (uint 20 4 bs) (uint 24 4 bs) (uint 28 4 bs);
  fits h :=
    u64_ok (vol_size h) ∧ u32_ok (ckpts_offset h) ∧ u32_ok (ckpts_len h) ∧
    u32_ok (clones_offset h) ∧ u32_ok (clones_len h) ∧
    u32_ok (snaps_offset h) ∧ u32_ok (snaps_len h);
|}.
Next Obligation. intros. cbv beta. len. Qed.
Next Obligation.
  intros [] (?&?&?&?&?&?&?). unfold u32_ok, u64_ok in *. codec_red.
  f_equal; codec_fields.
Qed.
Next Obligation. lia. Qed.

(** [struct clone_info], the name of [name_len] bytes follows it *)
Record clone_info := mk_clone_info {
  ci_uuid : bytes;
  ci_last_seq : Z;
  ci_name_len : Z;
}.

#[export] Program Instance clone_info_codec : Codec clone_info := {|
  csize := 21;
  enc c := resize 16 (ci_uuid c) ++ le_split 4 (ci_last_seq c) ++ le_split 1 (ci_name_len c);
  dec bs := mk_clone_info (slice 0 16 bs) (uint 16 4 bs) (uint 20 1 bs);
  fits c := uuid_ok (ci_uuid c) ∧ u32_ok (ci_last_seq c) ∧ 0 ≤ ci_name_len c < 256;
|}.
Next Obligation. intros. cbv beta. len. Qed.
Next Obligation.
  intros [] (Hu&?&?). unfold u32_ok, uuid_ok in *. codec_red.
  f_equal; try codec_fields. slices. unfold resize. rewrite Hu, take_ge by lia. apply app_nil_r.
Qed.
Next Obligation. lia. Qed.

(** [struct snap_info] *)
Record snap_info := mk_snap_info { si_seq : Z; si_name_len : Z }.

#[export] Program Instance snap_info_codec : Codec snap_info := {|
  csize := 5;
  enc c := le_split 4 (si_seq c) ++ le_split 1 (si_name_len c);
  dec bs := mk_snap_info (uint 0 4 bs) (uint 4 1 bs);
  fits c := u32_ok (si_seq c) ∧ 0 ≤ si_name_len c < 256;
|}.
Next Obligation. intros. cbv beta. len. Qed.
Next Obligation. intros [] (?&?). unfold u32_ok in *. codec_red. f_equal; codec_fields. Qed.
Next Obligation. lia. Qed.

(** [struct obj_data_hdr] *)
Record obj_data_hdr := mk_obj_data_hdr {
  dh_cache_seq : Z;
  objs_cleaned_offset : Z;
  objs_cleaned_len : Z;
  data_map_offset : Z;
  data_map_len : Z;
  is_gc : Z;
}.

#[export] Program Instance obj_data_hdr_codec : Codec obj_data_hdr := {|
  csize := 28;
  enc h :=
    le_split 8 (dh_cache_seq h) ++ le_split 4 (objs_cleaned_offset h) ++
    le_split 4 (objs_cleaned_len h) ++ le_split 4 (data_map_offset h) ++
    le_split 4 (data_map_len h) ++ le_split 4 (is_gc h);
  dec bs :=
    mk_obj_data_hdr (uint 0 8 bs) (uint 8 4 bs) (uint 12 4 bs) (uint 16 4 bs)
      (uint 20 4 bs) (uint 24 4 bs);
  fits h :=
    u64_ok (dh_cache_seq h) ∧ u32_ok (objs_cleaned_offset h) ∧
    u32_ok (objs_cleaned_len h) ∧ u32_ok (data_map_offset h) ∧
    u32_ok (data_map_len h) ∧ u32_ok (is_gc h);
|}.
Next Obligation. intros. cbv beta. len. Qed.
Next Obligation.
  intros [] (?&?&?&?&?&?). unfold u32_ok, u64_ok in *. codec_red. f_equal; codec_fields.
Qed.
Next Obligation. lia. Qed.

(** [struct obj_cleaned] *)
Record obj_cleaned := mk_obj_cleaned { oc_seq : Z; was_deleted : Z }.

#[export] Program Instance obj_cleaned_codec : Codec obj_cleaned := {|
  csize := 8;
  enc c := le_split 4 (oc_seq c) ++ le_split 4 (was_deleted c);
  dec bs := mk_obj_cleaned (uint 0 4 bs) (uint 4 4 bs);
  fits c := u32_ok (oc_seq c) ∧ u32_ok (was_deleted c);
|}.
Next Obligation. intros. cbv beta. len. Qed.
Next Obligation. intros [] (?&?). unfold u32_ok in *. codec_red. f_equal; codec_fields. Qed.
Next Obligation. lia. Qed.

(** [struct data_map]: [lba : 36], [len : 28] in one 64-bit word *)
Record data_map := mk_data_map { dm_lba : Z; dm_len : Z }.

Lemma bitfield_low a b w : 0 ≤ w → 0 ≤ a < 2 ^ w → (a + b * 2 ^ w) mod 2 ^ w = a.
Proof. intros. rewrite Z.mod_add by lia. by apply Z.mod_small. Qed.
Lemma bitfield_high a b w : 0 ≤ w → 0 ≤ a < 2 ^ w → (a + b * 2 ^ w) / 2 ^ w = b.
Proof. intros. rewrite Z.div_add by lia. rewrite Z.div_small by lia. lia. Qed.

#[export] Program Instance data_map_codec : Codec data_map := {|
  csize := 8;
  enc d := le_split 8 (wrap_u 36 (dm_lba d) + wrap_u 28 (dm_len d) * 2 ^ 36);
  dec bs :=
    let w := uint 0 8 bs in mk_data_map (wrap_u 36 w) (wrap_u 28 (w / 2 ^ 36));
  fits d := 0 ≤ dm_lba d < 2 ^ 36 ∧ 0 ≤ dm_len d < 2 ^ 28;
|}.
Next Obligation. intros. cbv beta. len. Qed.
Next Obligation.
  intros [l n] (?&?). codec_red. unfold uint. rewrite slice_all by len.
  rewrite (wrap_u_id 36 l), (wrap_u_id 28 n) by lia.
  rewrite le_combine_split_id by (simpl; lia).
  unfold wrap_u at 1. rewrite bitfield_low, bitfield_high, wrap_u_id by lia. done.
Qed.
Next Obligation. lia. Qed.

(** [struct obj_ckpt_hdr] *)
Record obj_ckpt_hdr := mk_obj_ckpt_hdr {
  ch_cache_seq : Z;
  ch_ckpts_offset : Z;
  ch_ckpts_len : Z;
  objs_offset : Z;
  objs_len : Z;
  deletes_offset : Z;
  deletes_len : Z;
  map_offset : Z;
  map_len : Z;
}.

#[export] Program Instance obj_ckpt_hdr_codec : Codec obj_ckpt_hdr := {|
  csize := 40;
  enc h :=
    le_split 8 (ch_cache_seq h) ++ le_split 4 (ch_ckpts_offset h) ++
    le_split 4 (ch_ckpts_len h) ++ le_split 4 (objs_offset h) ++ le_split 4 (objs_len h) ++
    le_split 4 (deletes_offset h) ++ le_split 4 (deletes_len h) ++
    le_split 4 (map_offset h) ++ le_split 4 (map_len h);
  dec bs :=
    mk_obj_ckpt_hdr (uint 0 8 bs) (uint 8 4 bs) (uint 12 4 bs) (uint 16 4 bs)
      (uint 20 4 bs) (uint 24 4 bs) (uint 28 4 bs) (uint 32 4 bs) (uint 36 4 bs);
  fits h :=
    u64_ok (ch_cache_seq h) ∧ u32_ok (ch_ckpts_offset h) ∧ u32_ok (ch_ckpts_len h) ∧
    u32_ok (objs_offset h) ∧ u32_ok (objs_len h) ∧ u32_ok (deletes_offset h) ∧
    u32_ok (deletes_len h) ∧ u32_ok (map_offset h) ∧ u32_ok (map_len h);
|}.
Next Obligation. intros. cbv beta. len. Qed.
Next Obligation.
  intros [] (?&?&?&?&?&?&?&?&?). unfold u32_ok, u64_ok in *. codec_red.
  f_equal; codec_fields.
Qed.
Next Obligation. lia. Qed.

(** [struct ckpt_obj] *)
Record ckpt_obj := mk_ckpt_obj {
  co_seq : Z;
  co_hdr_sectors : Z;
  co_data_sectors : Z;
  co_live_sectors : Z;
}.

#[export] Program Instance ckpt_obj_codec : Codec ckpt_obj := {|
  csize := 16;
  enc c :=
    le_split 4 (co_seq c) ++ le_split 4 (co_hdr_sectors c) ++
    le_split 4 (co_data_sectors c) ++ le_split 4 (co_live_sectors c);
  dec bs := mk_ckpt_obj (uint 0 4 bs) (uint 4 4 bs) (uint 8 4 bs) (uint 12 4 bs);
  fits c :=
    u32_ok (co_seq c) ∧ u32_ok (co_hdr_sectors c) ∧ u32_ok (co_data_sectors c) ∧
    u32_ok (co_live_sectors c);
|}.
Next Obligation. intros. cbv beta. len. Qed.
Next Obligation. intros [] (?&?&?&?). unfold u32_ok in *. codec_red. f_equal; codec_fields. Qed.
Next Obligation. lia. Qed.

(** [struct deferred_delete] *)
Record deferred_delete := mk_deferred_delete { dd_seq : Z; dd_time : Z }.

#[export] Program Instance deferred_delete_codec : Codec deferred_delete := {|
  csize := 8;
  enc c := le_split 4 (dd_seq c) ++ le_split 4 (dd_time c);
  dec bs := mk_deferred_delete (uint 0 4 bs) (uint 4 4 bs);
  fits c := u32_ok (dd_seq c) ∧ u32_ok (dd_time c);
|}.
Next Obligation. intros. cbv beta. len. Qed.
Next Obligation. intros [] (?&?). unfold u32_ok in *. codec_red. f_equal; codec_fields. Qed.
Next Obligation. lia. Qed.

(** [struct ckpt_mapentry]: [int64_t lba : 36], [int64_t len : 28],
    [int32_t obj], [int32_t offset] *)
Record ckpt_mapentry := mk_ckpt_mapentry {
  me_lba : Z;
  me_len : Z;
  me_obj : Z;
  me_offset : Z;
}.

(** The braced initialiser: every field is converted to its width. *)
Definition new_mapentry (lba len obj offset : Z) : ckpt_mapentry :=
  mk_ckpt_mapentry (wrap_s 36 lba) (wrap_s 28 len) (wrap_s 32 obj) (wrap_s 32 offset).

#[export] Program Instance ckpt_mapentry_codec : Codec ckpt_mapentry := {|
  csize := 16;
  enc e :=
    le_split 8 (wrap_u 36 (me_lba e) + wrap_u 28 (me_len e) * 2 ^ 36) ++
    le_split 4 (me_obj e) ++ le_split 4 (me_offset e);
  dec bs :=
    let w := uint 0 8 bs in
    mk_ckpt_mapentry (wrap_s 36 w) (wrap_s 28 (w / 2 ^ 36))
      (wrap_s 32 (uint 8 4 bs)) (wrap_s 32 (uint 12 4 bs));
  fits e :=
    - 2 ^ 35 ≤ me_lba e < 2 ^ 35 ∧ - 2 ^ 27 ≤ me_len e < 2 ^ 27 ∧
    - 2 ^ 31 ≤ me_obj e < 2 ^ 31 ∧ - 2 ^ 31 ≤ me_offset e < 2 ^ 31;
|}.
Next Obligation. intros. cbv beta. len. Qed.
Next Obligation.
  intros [l n o f] (?&?&?&?). codec_red.
  pose proof (wrap_u_range 36 l ltac:(lia)). pose proof (wrap_u_range 28 n ltac:(lia)).
  assert (uint 0 8 (le_split 8 (wrap_u 36 l + wrap_u 28 n * 2 ^ 36) ++
            le_split 4 o ++ le_split 4 f) = wrap_u 36 l + wrap_u 28 n * 2 ^ 36) as ->.
  { unfold uint. slices. apply le_combine_split_id. simpl. lia. }
  rewrite bitfield_high by lia. f_equal.
  - rewrite <- wrap_s_mod by lia. rewrite bitfield_low by lia. unfold wrap_u.
    rewrite wrap_s_mod by lia. apply wrap_s_id; lia.
  - unfold wrap_u. rewrite wrap_s_mod by lia. apply wrap_s_id; lia.
  - unfold uint. slices. apply (le_split_signed 4); simpl; lia.
  - unfold uint. slices. apply (le_split_signed 4); simpl; lia.
Qed.
Next Obligation. lia. Qed.
