(* ===== verification/Serialise.v ===== *)
(** * Serialising and parsing objects (src/src/objects.cc)

    [serialise_superblock] and its parser, the header fetch, and the parsers of
    data objects and checkpoints.  A store through a pointer outside the buffer
    is a fault, as is [uuid_copy] from a null pointer. *)

From S2P Require Import Prelude Bytes Extent Memory SmartIov LsvdTypes Backend Objects.

(** [struct clone_base] *)
Record clone_base := mk_clone_base {
  cb_name : string;
  cb_last_seq : Z;
  cb_first_seq : Z;
}.

(** [struct data_obj_info] *)
Record data_obj_info := mk_data_obj_info { oi_hdr : Z; oi_data : Z; oi_live : Z }.

(** ** Serialisation *)

Definition serialise_common_hdr (buf : bytes) (t s hdr data : Z) (uuid : bytes)
    : option bytes :=
  let buf := if (length buf <? 44)%nat then resize 44 buf else buf in
  store_at 0 (mk_common_obj_hdr LSVD_MAGIC 1 uuid t s hdr data 0) buf.

(** "Reserve required space ahead of time" *)
Definition superblock_size (checkpoints : list Z) (clones : list clone_base) : Z :=
  let req_size := 44 + 32 + Z.of_nat (length checkpoints) * 4 in
  let req_size :=
    foldl (λ n c, n + 21 + round_up (Z.of_nat (String.length (cb_name c))) 8)
      req_size clones in
  round_up (Z.max req_size 8) 512.

(** "Part 1: clones": the buffer and the end of the records.  The first
    iteration of the loop executes [uuid_copy(cip->vol_uuid, nullptr)], which
    reads 16 bytes at address 0, so there is no second one. *)
Definition serialise_clones (buf : bytes) (clonep : nat) (clones : list clone_base)
    : option (bytes * nat) :=
  match clones with
  | [] => Some (buf, clonep)
  | _ :: _ => None
  end.

Definition serialise_superblock (buf : bytes) (checkpoints : list Z)
    (clones : list clone_base) (uuid : bytes) (vol_bytes : Z) : option bytes :=
  let req_size := superblock_size checkpoints clones in
  let buf := if (length buf <? Z.to_nat req_size)%nat
             then resize (Z.to_nat req_size) buf else buf in
  hdr ← load_at 44 buf;
  buf ← serialise_common_hdr buf OBJ_SUPERBLOCK 0 (req_size / 512) 0 uuid;
  '(buf, clonep) ← serialise_clones buf 76 clones;
  let hdr := mk_super_hdr (vol_bytes / 512)
               (Z.of_nat clonep) (Z.of_nat (length checkpoints) * 4)
               76 (clones_len hdr) 0 0 in
  buf ← store_at 44 hdr buf;
  wr clonep (enc_array checkpoints) buf.

(** ** Parsing *)

(** [struct parsed_superblock], the pointers into the buffer dereferenced *)
Record parsed_superblock := mk_parsed_superblock {
  ps_vol_size : Z;
  ps_ckpts : list Z;
  ps_clones : list (clone_info * bytes);
  ps_snaps : list (snap_info * bytes);
  ps_uuid : bytes;
}.

(** [deserialise_ptrs_with_len]: records of [sizeof(T) + name_len] bytes, with
    their names.  A record has at least one byte, so [len] steps suffice. *)
Fixpoint deserialise_ptrs_with_len {R} `{Codec R} (name_len : R → Z) (fuel : nat)
    (buf : bytes) (p limit : nat) : option (list (R * bytes)) :=
  if (p <? limit)%nat then
    match fuel with
    | O => None
    | S fuel =>
      r ← load_at p buf;
      name ← rd (p + csize R) (Z.to_nat (name_len r)) buf;
      rs ← deserialise_ptrs_with_len name_len fuel buf
             (p + csize R + Z.to_nat (name_len r)) limit;
      Some ((r, name) :: rs)
    end
  else Some [].

Definition deserialise_named {R} `{Codec R} (name_len : R → Z) (buf : bytes)
    (off len : Z) : option (list (R * bytes)) :=
  deserialise_ptrs_with_len name_len (Z.to_nat len) buf
    (Z.to_nat off) (Z.to_nat off + Z.to_nat len).

(** The part of [read_superblock] after the object has been fetched. *)
Definition parse_superblock (buf : bytes) : outcome (option parsed_superblock) :=
  hdr ← checked (load_at 0 buf);
  if negb (magic hdr =? LSVD_MAGIC) then Ret None
  else if negb (version hdr =? 1) then Ret None
  else if negb (type hdr =? OBJ_SUPERBLOCK) then Ret None
  else
    shdr ← checked (load_at 44 buf);
    ckpts ← checked (deserialise buf (ckpts_offset shdr) (ckpts_len shdr));
    clones ← checked (deserialise_named ci_name_len buf (clones_offset shdr) (clones_len shdr));
    snaps ← checked (deserialise_named si_name_len buf (snaps_offset shdr) (snaps_len shdr));
    Ret (Some (mk_parsed_superblock (wrap_u 64 (vol_size shdr * 512)) ckpts clones snaps
                 (vol_uuid hdr))).

(** [struct parsed_data_hdr] *)
Record parsed_data_hdr := mk_parsed_data_hdr {
  pd_hdr : common_obj_hdr;
  pd_data_hdr : obj_data_hdr;
  pd_cleaned : list obj_cleaned;
  pd_data_map : list data_map;
}.

Definition parse_data_hdr (buf : bytes) : outcome (option parsed_data_hdr) :=
  hdr ← checked (load_at 0 buf);
  if negb (type hdr =? OBJ_LOGDATA) then Ret None
  else
    dh ← checked (load_at 44 buf);
    cleaned ← checked (deserialise buf (objs_cleaned_offset dh) (objs_cleaned_len dh));
    dmap ← checked (deserialise buf (data_map_offset dh) (data_map_len dh));
    Ret (Some (mk_parsed_data_hdr hdr dh cleaned dmap)).

(** [struct parsed_checkpoint] *)
Record parsed_checkpoint := mk_parsed_checkpoint {
  pc_hdr : common_obj_hdr;
  pc_ckpt_hdr : obj_ckpt_hdr;
  pc_ckpts : list Z;
  pc_objects : list ckpt_obj;
  pc_deletes : list deferred_delete;
  pc_dmap : list ckpt_mapentry;
}.

Definition parse_checkpoint (buf : bytes) : outcome (option parsed_checkpoint) :=
  hdr ← checked (load_at 0 buf);
  if negb (type hdr =? OBJ_CHECKPOINT) then Ret None
  else
    ch ← checked (load_at 44 buf);
    ckpts ← checked (deserialise buf (ch_ckpts_offset ch) (ch_ckpts_len ch));
    objects ← checked (deserialise buf (objs_offset ch) (objs_len ch));
    deletes ← checked (deserialise buf (deletes_offset ch) (deletes_len ch));
    dmap ← checked (deserialise buf (map_offset ch) (map_len ch));
    Ret (Some (mk_parsed_checkpoint hdr ch ckpts objects deletes dmap)).

(** ** Reading objects from the backend *)

Section reader.
Context {S : Type} `{Rados S}.

(** [fetch_object_header].  A header of more than 8 sectors is read again into
    the storage [reserve] has set aside; what is returned is that storage, which
    the parsers reach through [data()]. *)
Definition fetch_object_header (s : S) (name : string) : outcome (option bytes) :=
  let '(err, buf) := read s name 0 (zeros 4096) 4096 in
  if err =? - ENOENT then Ret None else
  _ ← throw_on (err <? 0);
  _ ← throw_on (err <? 512);
  h ← checked (load_at 0 buf);
  if negb (magic h =? LSVD_MAGIC) || negb (version h =? 1) then Ret None
  else if hdr_sectors h <=? 8 then Ret (Some buf)
  else
    let len := wrap_u 32 (hdr_sectors h * 512) in
    let '(err, buf) := read s name 0 (resize (Z.to_nat (Z.max 4096 len)) buf) (Z.to_nat len) in
    if negb (err =? len) then Ret None else Ret (Some buf).

Definition read_superblock (s : S) (name : string) : outcome (option parsed_superblock) :=
  buf ← read_whole_obj s name;
  match buf with None => Ret None | Some buf => parse_superblock buf end.

Definition read_data_hdr (s : S) (name : string) : outcome (option parsed_data_hdr) :=
  hdr ← fetch_object_header s name;
  match hdr with None => Ret None | Some buf => parse_data_hdr buf end.

Definition read_checkpoint (s : S) (name : string) : outcome (option parsed_checkpoint) :=
  hdr ← fetch_object_header s name;
  match hdr with None => Ret None | Some buf => parse_checkpoint buf end.
End reader.

(** ** The superblock round trip *)

Definition clones_len_zero (buf : bytes) : Prop :=
  ∃ h : super_hdr, load_at 44 buf = Some h ∧ clones_len h = 0.

Lemma serialise_common_hdr_ok buf t s hdr data uuid :
  (44 ≤ length buf)%nat → u32_ok t → u32_ok s → u32_ok hdr → u32_ok data → uuid_ok uuid →
  ∃ buf', serialise_common_hdr buf t s hdr data uuid = Some buf' ∧
    length buf' = length buf ∧
    load_at 0 buf' = Some (mk_common_obj_hdr LSVD_MAGIC 1 uuid t s hdr data 0) ∧
    (∀ o n, (44 ≤ o)%nat → slice o n buf' = slice o n buf).
Proof.
  intros Hl Ht Hs Hh Hd Hu. unfold serialise_common_hdr.
  rewrite (proj2 (Nat.ltb_ge _ _)) by done.
  set (c := mk_common_obj_hdr _ _ _ _ _ _ _ _).
  assert (fits c) as Hc by (unfold c; simpl; unfold u32_ok, uuid_ok, LSVD_MAGIC in *; lia).
  destruct (wr_is_some 0 (enc c) buf) as [buf' Hw]; [rewrite enc_length; simpl; lia|].
  exists buf'. split; [exact Hw|]. split; [by eapply wr_length|].
  split; [by eapply load_store_same|]. intros o n Ho.
  apply wr_inv in Hw as [E ->]. apply splice_slice_after; [done|]. rewrite enc_length. simpl. lia.
Qed.

(** The size fits the three fixed parts and is a multiple of a sector. *)
Lemma superblock_size_ok ckpts :
  76 + 4 * Z.of_nat (length ckpts) < 2 ^ 31 - 512 →
  76 + 4 * Z.of_nat (length ckpts) ≤ superblock_size ckpts [] < 2 ^ 31.
Proof.
  intros Hn. unfold superblock_size. simpl.
  set (n := 76 + _) in *. replace (Z.max _ 8) with n by lia. unfold round_up.
  destruct (div_round_up_spec n 512) as [? _]; lia.
Qed.

Lemma serialise_superblock_ok buf ckpts uuid vol :
  uuid_ok uuid → Forall u32_ok ckpts → 76 + 4 * Z.of_nat (length ckpts) < 2 ^ 31 - 512 →
  0 ≤ vol < 2 ^ 64 → clones_len_zero buf →
  ∃ buf', serialise_superblock buf ckpts [] uuid vol = Some buf' ∧
    clones_len_zero buf' ∧ (length buf ≤ length buf')%nat ∧
    (76 + 4 * length ckpts ≤ length buf')%nat ∧
    (∃ n, load_at 0 buf' = Some (mk_common_obj_hdr LSVD_MAGIC 1 uuid OBJ_SUPERBLOCK 0 n 0 0)) ∧
    load_at 44 buf' =
      Some (mk_super_hdr (vol / 512) 76 (Z.of_nat (length ckpts) * 4) 76 0 0 0) ∧
    slice 76 (4 * length ckpts) buf' = enc_array ckpts.
Proof.
  intros Hu Hck Hn Hv (h0 & Hh0 & Hcl). pose proof (superblock_size_ok ckpts Hn) as Hsz.
  unfold serialise_superblock. set (req := superblock_size ckpts []) in *.
  set (b0 := if (_ <? _)%nat then _ else _).
  assert (76 ≤ length buf)%nat as Hlb.
  { exact (load_at_bound 44 buf h0 Hh0). }
  assert (length buf ≤ length b0 ∧ Z.to_nat req ≤ length b0)%nat as [Hlb0 Hlr].
  { unfold b0. case_if; len. }
  assert (load_at 44 b0 = Some h0) as Hh0'.
  { rewrite <- Hh0. unfold b0. case_if; [|done]. unfold load_at. change (csize super_hdr) with 32%nat.
    rewrite !rd_some by len. cbn [mbind option_bind]. by rewrite resize_slice by lia. }
  rewrite Hh0'. cbn [mbind option_bind].
  destruct (serialise_common_hdr_ok b0 OBJ_SUPERBLOCK 0 (req / 512) 0 uuid)
    as (b1 & -> & Hl1 & Hload1 & Hsl1); [lia|done|done| |done|done|].
  { split; [apply Z.div_pos; lia|apply Z.div_lt_upper_bound; lia]. }
  cbn [mbind option_bind serialise_clones]. rewrite Hcl.
  change (Z.of_nat 76) with 76.
  set (sh := mk_super_hdr _ _ _ _ _ _ _).
  assert (fits sh) as Hfs.
  { unfold sh. simpl. unfold u32_ok, u64_ok.
    split; [split; [apply Z.div_pos; lia|apply Z.div_lt_upper_bound; lia]|]. lia. }
  destruct (wr_is_some 44 (enc sh) b1) as [b2 Hb2]; [rewrite enc_length; simpl; lia|].
  unfold store_at. rewrite Hb2. cbn [mbind option_bind].
  pose proof (wr_length _ _ _ _ Hb2) as Hl2.
  destruct (wr_is_some 76 (enc_array ckpts) b2) as [b3 Hb3].
  { rewrite length_enc_array. simpl csize. lia. }
  pose proof (wr_length _ _ _ _ Hb3) as Hl3.
  assert (load_at 44 b3 = Some sh) as Hs3.
  { rewrite (load_wr_disjoint _ _ _ _ 44 Hb3) by (simpl; lia). by eapply load_store_same. }
  exists b3. split; [exact Hb3|]. split; [by exists sh|]. split; [lia|]. split; [lia|].
  split; [|split; [exact Hs3|]].
  - exists (req / 512). rewrite (load_wr_disjoint _ _ _ _ 0 Hb3) by (simpl; lia).
    rewrite (load_wr_disjoint _ _ _ _ 0 Hb2) by (simpl; lia). done.
  - apply wr_inv in Hb3 as [E ->]. apply splice_slice; [done|]. by rewrite length_enc_array.
Qed.

Lemma load_at_app {R} `{Codec R} off buf tail (r : R) :
  load_at off buf = Some r → load_at off (buf ++ tail) = Some r.
Proof.
  unfold load_at, rd. rewrite length_app. case_match eqn:E; [|done]. apply Nat.leb_le in E.
  rewrite (proj2 (Nat.leb_le _ _)) by lia. simpl. by rewrite slice_app_l by lia.
Qed.

(** Parsing what was written, whatever follows it in the object. *)
Lemma parse_superblock_ok buf tail ckpts uuid vol n :
  Forall u32_ok ckpts → 0 ≤ vol < 2 ^ 64 →
  (76 + 4 * length ckpts ≤ length buf)%nat →
  load_at 0 buf = Some (mk_common_obj_hdr LSVD_MAGIC 1 uuid OBJ_SUPERBLOCK 0 n 0 0) →
  load_at 44 buf =
    Some (mk_super_hdr (vol / 512) 76 (Z.of_nat (length ckpts) * 4) 76 0 0 0) →
  slice 76 (4 * length ckpts) buf = enc_array ckpts →
  parse_superblock (buf ++ tail) =
  Ret (Some (mk_parsed_superblock (vol / 512 * 512) ckpts [] [] uuid)).
Proof.
  intros Hck Hv Hl H0 H44 Hsl. unfold parse_superblock.
  rewrite (load_at_app _ _ _ _ H0). simpl. rewrite (load_at_app _ _ _ _ H44). simpl.
  rewrite (deserialise_slice ckpts).
  - simpl. do 3 f_equal. apply wrap_u_id. pose proof (Z.mul_div_le vol 512 ltac:(lia)).
    split; [apply Z.mul_nonneg_nonneg; [apply Z.div_pos; lia|lia]|lia].
  - lia.
  - simpl. lia.
  - simpl csize. rewrite length_app. lia.
  - simpl csize. rewrite slice_app_l by lia. done.
  - eapply Forall_impl; [exact Hck|]. done.
Qed.

(** What [read_superblock] sees of an object that starts with a superblock. *)
Lemma read_superblock_back {S} `{RadosOk S} (s : S) name buf ckpts uuid vol sb tail :
  uuid_ok uuid → Forall u32_ok ckpts → 76 + 4 * Z.of_nat (length ckpts) < 2 ^ 31 - 512 →
  0 ≤ vol < 2 ^ 64 → clones_len_zero buf →
  serialise_superblock buf ckpts [] uuid vol = Some sb → rados_obj s name = Some (sb ++ tail) →
  read_superblock s name = Ret (Some (mk_parsed_superblock (vol / 512 * 512) ckpts [] [] uuid)).
Proof.
  intros Hu Hck Hn Hv Hz Hs Hobj.
  destruct (serialise_superblock_ok buf ckpts uuid vol)
    as (sb' & Hs' & _ & _ & Hl & (n & H0') & H44 & Hsl); auto.
  rewrite Hs in Hs'. injection Hs' as <-. unfold read_superblock.
  rewrite read_whole_obj_ok, Hobj. by apply (parse_superblock_ok sb tail ckpts uuid vol n).
Qed.


