(* ===== verification/DataObject.v ===== *)
(** * Data and checkpoint objects (src/src/translate.cc, [make_obj_hdr] and the
    serialising half of [write_checkpoint])

    The byte image of a data object's header and of a checkpoint, and their
    round trips through the backend and the parsers of Serialise. *)

From S2P Require Import Prelude Bytes Extent Memory SmartIov LsvdTypes Backend Objects Serialise.

(** ** Headers of data objects *)

Section header.
(** zlib's [crc32(0, buf, len)] *)
Variable crc32 : bytes → Z.

Definition make_obj_hdr (uuid : bytes) (_seq hdr_sectors data_sectors : Z)
    (extents : list data_map) (is_gc : bool) : option bytes :=
  let map_offset := 44 + 28 in
  let map_len := wrap_u 32 (Z.of_nat (length extents) * 8) in
  let hdr_bytes := wrap_u 32 (map_offset + map_len) in
  _ ← assert (hdr_bytes <=? hdr_sectors * 512);
  let h crc := mk_common_obj_hdr LSVD_MAGIC 1 uuid OBJ_LOGDATA (wrap_u 32 _seq)
                 (wrap_u 32 hdr_sectors) (wrap_u 32 data_sectors) crc in
  let dh := mk_obj_data_hdr 0 0 0 map_offset map_len (if is_gc then 1 else 0) in
  let rest := enc dh ++ enc_array extents ++ zeros (Z.to_nat (512 * hdr_sectors - hdr_bytes)) in
  Some (enc (h (wrap_u 32 (crc32 (enc (h 0) ++ rest)))) ++ rest).

(** Header sectors for [n] extents, as [process_batch] and [write_gc] round
    them: whole 4 KiB pages. *)
Definition batch_hdr_sectors (n : nat) : Z :=
  let hdr_bytes := 44 + 28 + Z.of_nat n * 8 in
  div_round_up hdr_bytes 4096 * 8.

Lemma batch_hdr_sectors_ok n :
  Z.of_nat n < 2 ^ 24 →
  72 + 8 * Z.of_nat n ≤ batch_hdr_sectors n * 512 < 2 ^ 28 ∧
  8 ≤ batch_hdr_sectors n.
Proof.
  intros Hn. unfold batch_hdr_sectors.
  destruct (div_round_up_spec (44 + 28 + Z.of_nat n * 8) 4096); lia.
Qed.

Lemma make_obj_hdr_ok uuid sq hdr_sectors data_sectors extents is_gc :
  uuid_ok uuid → u32_ok sq → u32_ok data_sectors → 0 ≤ hdr_sectors →
  72 + 8 * Z.of_nat (length extents) ≤ hdr_sectors * 512 < 2 ^ 32 → Forall fits extents →
  ∃ b c, make_obj_hdr uuid sq hdr_sectors data_sectors extents is_gc = Some b ∧
    Z.of_nat (length b) = hdr_sectors * 512 ∧
    load_at 0 b =
      Some (mk_common_obj_hdr LSVD_MAGIC 1 uuid OBJ_LOGDATA sq hdr_sectors data_sectors c) ∧
    load_at 44 b =
      Some (mk_obj_data_hdr 0 0 0 72 (8 * Z.of_nat (length extents)) (if is_gc then 1 else 0)) ∧
    slice 72 (8 * length extents) b = enc_array extents.
Proof.
  intros Hu Hs Hd Hh Hsz Hf. unfold make_obj_hdr, u32_ok in *.
  rewrite (wrap_u_id 32 (_ * 8)), (wrap_u_id 32 (_ + _)) by lia.
  rewrite !(wrap_u_id 32 hdr_sectors), !(wrap_u_id 32 sq), !(wrap_u_id 32 data_sectors) by lia.
  rewrite assert_true by lia. cbn [mbind option_bind].
  set (dh := mk_obj_data_hdr _ _ _ _ _ _). set (rest := enc dh ++ _).
  set (c := wrap_u 32 _).
  pose proof (wrap_u_range 32 (crc32 (enc (mk_common_obj_hdr LSVD_MAGIC 1 uuid OBJ_LOGDATA sq
    hdr_sectors data_sectors 0) ++ rest)) ltac:(lia)) as Hc. fold c in Hc.
  set (ch := mk_common_obj_hdr _ _ _ _ _ _ _ c).
  assert (length rest = Z.to_nat (hdr_sectors * 512) - 44)%nat as Hlr.
  { unfold rest. len. simpl csize. lia. }
  exists (enc ch ++ rest), c. split; [done|]. split; [|split; [|split]].
  - rewrite length_app, Hlr, enc_length. simpl csize. lia.
  - apply load_slice; [rewrite length_app, enc_length; simpl csize; lia| |].
    + apply slice_hit. apply enc_length.
    + unfold ch. simpl. unfold u32_ok, uuid_ok, LSVD_MAGIC, OBJ_LOGDATA in *. lia.
  - apply load_slice; [rewrite length_app, enc_length, Hlr; simpl csize; lia| |].
    + rewrite slice_skip by (rewrite enc_length; simpl csize; lia). rewrite enc_length.
      unfold rest. replace (enc dh) with (enc (mk_obj_data_hdr 0 0 0 72
        (8 * Z.of_nat (length extents)) (if is_gc then 1 else 0))).
      { apply slice_hit. apply enc_length. }
      unfold dh. do 2 f_equal. lia.
    + simpl. unfold u32_ok, u64_ok. destruct is_gc; lia.
  - rewrite slice_skip by (rewrite enc_length; simpl csize; lia). rewrite enc_length.
    unfold rest. rewrite slice_skip by (rewrite enc_length; simpl csize; lia).
    rewrite enc_length. apply slice_hit. rewrite length_enc_array. done.
Qed.
End header.

(** ** Fetching headers *)

Section fetch.
Context {S : Type} `{RadosOk S}.
Implicit Types (s : S).

Lemma load_at_slice {R} `{Codec R} (buf b : bytes) off :
  (off + csize R ≤ length buf)%nat → (off + csize R ≤ length b)%nat →
  slice off (csize R) buf = slice off (csize R) b → load_at (R:=R) off buf = load_at off b.
Proof. intros. unfold load_at. rewrite !rd_some by done. simpl. congruence. Qed.

Lemma splice_0_slice {A} (bs buf : list A) o n :
  (length bs ≤ length buf)%nat → (o + n ≤ length bs)%nat →
  slice o n (splice 0 bs buf) = slice o n bs.
Proof. intros. unfold splice. rewrite take_0, app_nil_l. by apply slice_app_l. Qed.

Lemma slice_take {A} (b : list A) o n k : (o + n ≤ k)%nat → slice o n (take k b) = slice o n b.
Proof.
  intros. unfold slice. rewrite skipn_firstn_comm, take_take. f_equal. lia.
Qed.

(** The header of an object, however long, is fetched completely. *)
Lemma fetch_object_header_ok s name b h :
  rados_obj s name = Some b → load_at 0 b = Some h →
  magic h = LSVD_MAGIC → version h = 1 → 0 < hdr_sectors h →
  hdr_sectors h * 512 < 2 ^ 32 → hdr_sectors h * 512 ≤ Z.of_nat (length b) →
  ∃ buf, fetch_object_header s name = Ret (Some buf) ∧
    hdr_sectors h * 512 ≤ Z.of_nat (length buf) ∧
    (∀ o n, Z.of_nat (o + n) ≤ hdr_sectors h * 512 → slice o n buf = slice o n b).
Proof.
  intros Hb Hh Hm Hv Hpos Hlim Hlen. unfold fetch_object_header, read at 1.
  rewrite rados_read_obj, Hb. set (b1 := slice 0 4096 b).
  assert (length b1 = Nat.min 4096 (length b)) as Hl1 by (unfold b1, slice; rewrite drop_0; len).
  rewrite (proj2 (Z.ltb_lt _ _)) by lia.
  set (buf := splice 0 b1 (zeros 4096)).
  assert (length buf = 4096%nat) as Hlb by (unfold buf; rewrite length_splice; len).
  assert (∀ o n, (o + n ≤ 4096)%nat → (o + n ≤ length b)%nat → slice o n buf = slice o n b) as Hbuf.
  { intros o n H1 H2. unfold buf. rewrite splice_0_slice by len.
    unfold b1. unfold slice at 2. rewrite drop_0. by apply slice_take. }
  rewrite (proj2 (Z.eqb_neq _ _)) by (unfold ENOENT; lia).
  rewrite (proj2 (Z.ltb_ge _ 0)), (proj2 (Z.ltb_ge _ 512)) by lia. simpl.
  replace (load_at 0 buf) with (Some h).
  2:{ rewrite <- Hh. symmetry. apply load_at_slice; simpl csize; try lia. apply Hbuf; lia. }
  simpl. rewrite Hm, Hv. simpl.
  destruct (hdr_sectors h <=? 8) eqn:E8; zb.
  - exists buf. split; [done|]. split; [lia|]. intros o n Hon. apply Hbuf; lia.
  - rewrite wrap_u_id by lia. rewrite Z.max_r by lia.
    set (k := Z.to_nat (hdr_sectors h * 512)).
    rewrite (read_prefix s name (resize k buf) k b) by (auto; len).
    replace (Z.of_nat k) with (hdr_sectors h * 512) by lia. rewrite Z.eqb_refl. simpl.
    eexists. split; [done|]. split; [rewrite length_splice; len|].
    intros o n Hon. rewrite splice_0_slice by len. apply slice_take. lia.
Qed.
End fetch.

(** ** Checkpoints *)

(** The buffer [write_checkpoint] builds from the map entries and the object
    table. *)
Definition serialise_checkpoint (cp_seq ckpt_cache_seq : Z) (entries : list ckpt_mapentry)
    (objects : list ckpt_obj) (uuid : bytes) : option bytes :=
  let map_bytes := Z.of_nat (length entries) * 16 in
  let objs_bytes := Z.of_nat (length objects) * 16 in
  let hdr_bytes := 44 + 40 in
  let sectors := div_round_up (hdr_bytes + map_bytes + objs_bytes) 512 in
  let cp_buf := zeros (Z.to_nat (sectors * 512)) in
  cp_buf ← serialise_common_hdr cp_buf OBJ_CHECKPOINT cp_seq (wrap_u 32 sectors) 0 uuid;
  let o1 := 44 + 40 in
  let o2 := wrap_u 32 (o1 + objs_bytes) in
  let ch := mk_obj_ckpt_hdr ckpt_cache_seq 0 0 o1 (wrap_u 32 (o2 - o1)) 0 0 o2
              (wrap_u 32 map_bytes) in
  cp_buf ← store_at 44 ch cp_buf;
  cp_buf ← wr 84 (enc_array objects) cp_buf;
  wr (84 + Z.to_nat objs_bytes) (enc_array entries) cp_buf.

Lemma wr_slice off bs buf buf' n :
  wr off bs buf = Some buf' → n = length bs → slice off n buf' = bs.
Proof. intros [? ->]%wr_inv ->. by apply splice_slice. Qed.

Lemma wr_slice_before off bs buf buf' o n :
  wr off bs buf = Some buf' → (o + n ≤ off)%nat → slice o n buf' = slice o n buf.
Proof. intros [? ->]%wr_inv ?. by apply splice_slice_before. Qed.

Lemma serialise_checkpoint_ok cp_seq cache_seq entries objects uuid :
  uuid_ok uuid → u32_ok cp_seq → u64_ok cache_seq →
  84 + 16 * (Z.of_nat (length entries) + Z.of_nat (length objects)) < 2 ^ 31 - 512 →
  Forall fits entries → Forall fits objects →
  ∃ b n, serialise_checkpoint cp_seq cache_seq entries objects uuid = Some b ∧
    Z.of_nat (length b) = n * 512 ∧ 0 < n ∧ n * 512 < 2 ^ 31 ∧
    84 + 16 * (Z.of_nat (length entries) + Z.of_nat (length objects)) ≤ n * 512 ∧
    load_at 0 b = Some (mk_common_obj_hdr LSVD_MAGIC 1 uuid OBJ_CHECKPOINT cp_seq n 0 0) ∧
    load_at 44 b =
      Some (mk_obj_ckpt_hdr cache_seq 0 0 84 (16 * Z.of_nat (length objects)) 0 0
              (84 + 16 * Z.of_nat (length objects)) (16 * Z.of_nat (length entries))) ∧
    slice 84 (16 * length objects) b = enc_array objects ∧
    slice (84 + 16 * length objects) (16 * length entries) b = enc_array entries.
Proof.
  intros Hu Hs Hc Hsz He Ho. unfold serialise_checkpoint.
  set (total := 44 + 40 + _ + _).
  assert (total = 84 + 16 * (Z.of_nat (length entries) + Z.of_nat (length objects))) as Htot
    by (unfold total; lia).
  destruct (div_round_up_spec total 512) as [Hdr Hdr0]; try lia.
  set (n := div_round_up total 512) in *. unfold u32_ok, u64_ok in *.
  rewrite (wrap_u_id 32 n), !(wrap_u_id 32 (44 + 40 + _)), (wrap_u_id 32 (_ - _)),
    (wrap_u_id 32 (_ * 16)) by lia.
  destruct (serialise_common_hdr_ok (zeros (Z.to_nat (n * 512))) OBJ_CHECKPOINT cp_seq n 0 uuid)
    as (b1 & -> & Hl1 & Hld1 & _); auto; try (unfold u32_ok, OBJ_CHECKPOINT; lia).
  { len. }
  rewrite length_zeros in Hl1. cbn [mbind option_bind].
  set (ch := mk_obj_ckpt_hdr _ _ _ _ _ _ _ _ _).
  destruct (wr_is_some 44 (enc ch) b1) as [b2 Hb2]; [rewrite enc_length; simpl csize; lia|].
  unfold store_at. rewrite Hb2. cbn [mbind option_bind].
  pose proof (wr_length _ _ _ _ Hb2) as Hl2.
  destruct (wr_is_some 84 (enc_array objects) b2) as [b3 Hb3].
  { rewrite length_enc_array. simpl csize. lia. }
  rewrite Hb3. cbn [mbind option_bind]. pose proof (wr_length _ _ _ _ Hb3) as Hl3.
  replace (Z.to_nat (Z.of_nat (length objects) * 16)) with (16 * length objects)%nat by lia.
  destruct (wr_is_some (84 + 16 * length objects) (enc_array entries) b3) as [b4 Hb4].
  { rewrite length_enc_array. simpl csize. lia. }
  pose proof (wr_length _ _ _ _ Hb4) as Hl4.
  exists b4, n. split; [done|]. split_and!; try lia.
  - rewrite (load_wr_disjoint _ _ _ _ 0 Hb4), (load_wr_disjoint _ _ _ _ 0 Hb3),
      (load_wr_disjoint _ _ _ _ 0 Hb2) by (simpl csize; lia). done.
  - rewrite (load_wr_disjoint _ _ _ _ 44 Hb4), (load_wr_disjoint _ _ _ _ 44 Hb3) by (simpl csize; lia).
    rewrite (load_store_same 44 ch b1 b2 Hb2).
    + unfold ch. do 2 f_equal; lia.
    + unfold ch. simpl. unfold u32_ok, u64_ok. lia.
  - rewrite (wr_slice_before _ _ _ _ _ _ Hb4) by lia.
    apply (wr_slice _ _ _ _ _ Hb3). rewrite length_enc_array. done.
  - apply (wr_slice _ _ _ _ _ Hb4). rewrite length_enc_array. done.
Qed.

(** ** Round trips through the backend *)

Section roundtrip.
Context {S : Type} `{RadosOk S}.
Variable crc32 : bytes → Z.
Implicit Types (s : S).

Lemma deserialise_nil {R} `{Codec R} buf : deserialise (R:=R) buf 0 0 = Some [].
Proof. unfold deserialise. change (Z.to_nat 0) with 0%nat. rewrite Nat.div_0_l; [done|].
  pose proof (csize_pos (R:=R)). lia. Qed.

Lemma deserialise_from (buf b : bytes) {R} `{Codec R} (l : list R) (off len : Z) :
  0 ≤ off → len = Z.of_nat (csize R * length l) →
  (Z.to_nat off + csize R * length l ≤ length buf)%nat →
  slice (Z.to_nat off) (csize R * length l) buf = slice (Z.to_nat off) (csize R * length l) b →
  slice (Z.to_nat off) (csize R * length l) b = enc_array l → Forall fits l →
  deserialise buf off len = Some l.
Proof. intros. apply deserialise_slice; auto. congruence. Qed.

(** What [read_data_hdr] sees of an object that starts with a header made by
    [make_obj_hdr]. *)
Lemma read_data_hdr_ok s name uuid sq hdr_sectors data_sectors extents is_gc b rest :
  uuid_ok uuid → u32_ok sq → u32_ok data_sectors → 0 < hdr_sectors →
  72 + 8 * Z.of_nat (length extents) ≤ hdr_sectors * 512 < 2 ^ 32 → Forall fits extents →
  make_obj_hdr crc32 uuid sq hdr_sectors data_sectors extents is_gc = Some b →
  rados_obj s name = Some (b ++ rest) →
  ∃ p, read_data_hdr s name = Ret (Some p) ∧
    pd_data_map p = extents ∧ pd_cleaned p = [] ∧ type (pd_hdr p) = OBJ_LOGDATA ∧
    seq (pd_hdr p) = sq ∧ Objects.hdr_sectors (pd_hdr p) = hdr_sectors ∧
    Objects.data_sectors (pd_hdr p) = data_sectors ∧
    Objects.is_gc (pd_data_hdr p) = if is_gc then 1 else 0.
Proof.
  intros Hu Hs Hd Hh Hsz Hf Hm Hobj.
  destruct (make_obj_hdr_ok crc32 uuid sq hdr_sectors data_sectors extents is_gc)
    as (b' & c & Hm' & Hlen & H0' & H44 & Hsl); auto; [lia|].
  rewrite Hm in Hm'. injection Hm' as <-.
  destruct (fetch_object_header_ok s name (b ++ rest) _ Hobj (load_at_app _ _ _ _ H0'))
    as (buf & Hfe & Hbl & Hbs); simpl; try done; try lia; [rewrite length_app; lia|].
  simpl Objects.hdr_sectors in Hbl, Hbs.
  assert (∀ o n, Z.of_nat (o + n) ≤ hdr_sectors * 512 → slice o n buf = slice o n b) as Hbs'.
  { intros o n Hon. rewrite Hbs by done. apply slice_app_l. lia. }
  unfold read_data_hdr. rewrite Hfe. cbn [mbind outcome_bind]. unfold parse_data_hdr.
  rewrite (load_at_slice buf b 0), H0' by (simpl csize; try lia; apply Hbs'; lia). simpl.
  rewrite (load_at_slice buf b 44), H44 by (simpl csize; try lia; apply Hbs'; lia). simpl.
  rewrite ?deserialise_nil. simpl.
  rewrite (deserialise_from buf b extents).
  - simpl. eexists. split; [done|]. done.
  - lia.
  - simpl csize. lia.
  - simpl csize. lia.
  - simpl csize. apply Hbs'. lia.
  - exact Hsl.
  - done.
Qed.

(** C31: the header of a data object reads back: after the object has been
    written, [read_data_hdr] returns the extent list, the sequence number and
    the sector counts that [make_obj_hdr] was given, for headers of any number
    of pages. *)
Theorem data_object_roundtrip s name uuid sq hdr_sectors data_sectors extents is_gc data :
  uuid_ok uuid → u32_ok sq → u32_ok data_sectors → 0 < hdr_sectors →
  72 + 8 * Z.of_nat (length extents) ≤ hdr_sectors * 512 < 2 ^ 32 → Forall fits extents →
  ∃ b p, make_obj_hdr crc32 uuid sq hdr_sectors data_sectors extents is_gc = Some b ∧
    read_data_hdr (write s name (b ++ data)).2 name = Ret (Some p) ∧
    pd_data_map p = extents ∧ seq (pd_hdr p) = sq ∧
    Objects.hdr_sectors (pd_hdr p) = hdr_sectors ∧
    Objects.data_sectors (pd_hdr p) = data_sectors.
Proof.
  intros Hu Hs Hd Hh Hsz Hf.
  destruct (make_obj_hdr_ok crc32 uuid sq hdr_sectors data_sectors extents is_gc)
    as (b & c & Hm & _); auto; [lia|].
  edestruct (read_data_hdr_ok (write s name (b ++ data)).2 name)
    as (p & Hr & ? & ? & ? & ? & ? & ? & ?); [exact Hu|exact Hs|exact Hd|exact Hh|exact Hsz|exact Hf|exact Hm| |].
  { unfold write. simpl. rewrite rados_write_same, <- app_assoc. done. }
  exists b, p. done.
Qed.

(** What [read_checkpoint] sees of an object that starts with a checkpoint. *)
Lemma read_checkpoint_ok s name cp_seq cache_seq entries objects uuid b rest :
  uuid_ok uuid → u32_ok cp_seq → u64_ok cache_seq →
  84 + 16 * (Z.of_nat (length entries) + Z.of_nat (length objects)) < 2 ^ 31 - 512 →
  Forall fits entries → Forall fits objects →
  serialise_checkpoint cp_seq cache_seq entries objects uuid = Some b →
  rados_obj s name = Some (b ++ rest) →
  ∃ p, read_checkpoint s name = Ret (Some p) ∧
    pc_objects p = objects ∧ pc_dmap p = entries ∧ seq (pc_hdr p) = cp_seq.
Proof.
  intros Hu Hs Hc Hsz He Ho Hm' Hobj.
  destruct (serialise_checkpoint_ok cp_seq cache_seq entries objects uuid)
    as (b' & n & Hm & Hlen & Hn & Hlim & Hfit & H0' & H44 & Hsl1 & Hsl2); auto.
  rewrite Hm in Hm'. injection Hm' as ->.
  destruct (fetch_object_header_ok s name (b ++ rest) _ Hobj (load_at_app _ _ _ _ H0'))
    as (buf & Hfe & Hbl & Hbs); simpl; try done; try lia; [rewrite length_app; lia|].
  simpl Objects.hdr_sectors in Hbl, Hbs.
  assert (∀ o k, Z.of_nat (o + k) ≤ n * 512 → slice o k buf = slice o k b) as Hbs'.
  { intros o k Hok. rewrite Hbs by done. apply slice_app_l. lia. }
  unfold read_checkpoint. rewrite Hfe. cbn [mbind outcome_bind]. unfold parse_checkpoint.
  rewrite (load_at_slice buf b 0), H0' by (simpl csize; try lia; apply Hbs'; lia). simpl.
  rewrite (load_at_slice buf b 44), H44 by (simpl csize; try lia; apply Hbs'; lia). simpl.
  rewrite ?deserialise_nil. simpl.
  rewrite (deserialise_from buf b objects), (deserialise_from buf b entries);
    try (simpl csize; lia); auto.
  - simpl. eexists. split; [done|]. done.
  - simpl csize. rewrite Z2Nat.inj_add, (Z2Nat.inj_mul 16), Nat2Z.id by lia. apply Hbs'. lia.
  - simpl csize. rewrite Z2Nat.inj_add, (Z2Nat.inj_mul 16), Nat2Z.id by lia. exact Hsl2.
  - simpl csize. apply Hbs'. lia.
Qed.

(** A checkpoint reads back: the object table and the map entries that
    [write_checkpoint] serialised are the ones [read_checkpoint] returns. *)
Theorem checkpoint_roundtrip s name cp_seq cache_seq entries objects uuid :
  uuid_ok uuid → u32_ok cp_seq → u64_ok cache_seq →
  84 + 16 * (Z.of_nat (length entries) + Z.of_nat (length objects)) < 2 ^ 31 - 512 →
  Forall fits entries → Forall fits objects →
  ∃ b p, serialise_checkpoint cp_seq cache_seq entries objects uuid = Some b ∧
    read_checkpoint (write s name b).2 name = Ret (Some p) ∧
    pc_objects p = objects ∧ pc_dmap p = entries ∧ seq (pc_hdr p) = cp_seq.
Proof.
  intros Hu Hs Hc Hsz He Ho.
  destruct (serialise_checkpoint_ok cp_seq cache_seq entries objects uuid) as (b & n & Hm & _); auto.
  destruct (read_checkpoint_ok (write s name b).2 name cp_seq cache_seq entries objects uuid b
              (drop (length b) (default [] (rados_obj s name)))) as (p & Hp); auto.
  { unfold write. simpl. by rewrite rados_write_same. }
  by exists b, p.
Qed.
End roundtrip.

(** ** Concrete objects *)

Lemma data_object_roundtrip_witness :
  ∃ b p, make_obj_hdr sum_list_Z (zeros 16) 12 8 24 [mk_data_map 100 16; mk_data_map 4096 8] false = Some b ∧
    read_data_hdr (write (∅ : gmap string bytes) (oname "img" 12) (b ++ zeros (24 * 512))).2
      (oname "img" 12) = Ret (Some p) ∧
    pd_data_map p = [mk_data_map 100 16; mk_data_map 4096 8] ∧ seq (pd_hdr p) = 12 ∧
    Objects.hdr_sectors (pd_hdr p) = 8 ∧ Objects.data_sectors (pd_hdr p) = 24.
Proof.
  apply data_object_roundtrip.
  - reflexivity.
  - split; lia.
  - split; lia.
  - lia.
  - simpl. lia.
  - repeat constructor; vm_compute; intuition discriminate.
Defined.

Lemma checkpoint_roundtrip_witness :
  ∃ b p, serialise_checkpoint 13 0 [mk_ckpt_mapentry 100 16 12 8] [mk_ckpt_obj 12 8 24 16]
           (zeros 16) = Some b ∧
    read_checkpoint (write (∅ : gmap string bytes) (oname "img" 13) b).2 (oname "img" 13) =
      Ret (Some p) ∧
    pc_objects p = [mk_ckpt_obj 12 8 24 16] ∧ pc_dmap p = [mk_ckpt_mapentry 100 16 12 8] ∧
    seq (pc_hdr p) = 13.
Proof.
  apply checkpoint_roundtrip.
  - reflexivity.
  - split; lia.
  - split; lia.
  - simpl. lia.
  - repeat constructor; vm_compute; intuition discriminate.
  - repeat constructor; vm_compute; intuition discriminate.
Defined.
