(* ===== verification/Config.v ===== *)
(** * Configuration (src/src/config.h, src/src/config.cc)

    The options with their defaults, and the layering of the configuration
    files and the user's string.  The JSON library and the file system are
    parameters: parsing a document gives its top-level members or throws, and a
    path is missing or has contents. *)

From Stdlib Require Import Ascii.
From S2P Require Import Prelude.

(** What the code asks of a JSON value: [is_boolean], [is_number_unsigned],
    [is_string]. *)
Inductive json_value :=
| JBool (b : bool)
| JUint (n : Z)
| JStr (s : string)
| JOther.

(** [class lsvd_config] *)
Record lsvd_config := mk_lsvd_config {
  rcache_dir : string;
  rcache_bytes : Z;
  rcache_fetch_window : Z;
  wlog_dir : string;
  wlog_bytes : Z;
  wlog_write_window : Z;
  wlog_chunk_bytes : Z;
  antithrash_ratio : Z;
  backend_obj_bytes : Z;
  backend_write_window : Z;
  checkpoint_interval_objs : Z;
  flush_timeout_ms : Z;
  flush_interval_ms : Z;
  gc_threshold_pc : Z;
  gc_write_window : Z;
  no_gc : bool;
}.

Definition get_default : lsvd_config := {|
  rcache_dir := "/tmp/lsvd/";
  rcache_bytes := 500 * 1024 * 1024;
  rcache_fetch_window := 12;
  wlog_dir := "/tmp/lsvd/";
  wlog_bytes := 500 * 1024 * 1024;
  wlog_write_window := 8;
  wlog_chunk_bytes := 2 * 1024 * 1024;
  antithrash_ratio := 67;
  backend_obj_bytes := 8 * 1024 * 1024;
  backend_write_window := 8;
  checkpoint_interval_objs := 500;
  flush_timeout_ms := 2000;
  flush_interval_ms := 1000;
  gc_threshold_pc := 60;
  gc_write_window := 4;
  no_gc := false;
|}.

(** [wlog_path]; [fspath /] inserts a separator unless there is one. *)
Definition wlog_path (cfg : lsvd_config) (imgname : string) : string :=
  let dir := wlog_dir cfg in
  let sep := if String.eqb (String.substring (String.length dir - 1) 1 dir) "/" then "" else "/" in
  String.append dir (String.append sep (String.append imgname ".wlog")).

(** [JSON_GET_BOOL], [JSON_GET_UINT], [JSON_GET_STR]: a member of the wrong
    type is reported and ignored. *)
Definition json_get_bool (js : gmap string json_value) (key : string) (dflt : bool) : bool :=
  match js !! key with Some (JBool b) => b | _ => dflt end.
Definition json_get_uint (js : gmap string json_value) (key : string) (dflt : Z) : Z :=
  match js !! key with Some (JUint n) => n | _ => dflt end.
Definition json_get_str (js : gmap string json_value) (key : string) (dflt : string) : string :=
  match js !! key with Some (JStr s) => s | _ => dflt end.

(** The members [parse_json] looks at. *)
Definition apply_json (js : gmap string json_value) (c : lsvd_config) : lsvd_config := {|
  rcache_dir := json_get_str js "rcache_dir" (rcache_dir c);
  rcache_bytes := json_get_uint js "rcache_bytes" (rcache_bytes c);
  rcache_fetch_window := json_get_uint js "rcache_fetch_window" (rcache_fetch_window c);
  wlog_dir := json_get_str js "wlog_dir" (wlog_dir c);
  wlog_bytes := json_get_uint js "wlog_bytes" (wlog_bytes c);
  wlog_write_window := json_get_uint js "wlog_write_window" (wlog_write_window c);
  wlog_chunk_bytes := json_get_uint js "wlog_chunk_bytes" (wlog_chunk_bytes c);
  antithrash_ratio := json_get_uint js "antithrash_ratio" (antithrash_ratio c);
  backend_obj_bytes := json_get_uint js "backend_obj_bytes" (backend_obj_bytes c);
  backend_write_window := json_get_uint js "backend_write_window" (backend_write_window c);
  checkpoint_interval_objs :=
    json_get_uint js "checkpoint_interval_objs" (checkpoint_interval_objs c);
  flush_timeout_ms := json_get_uint js "flush_timeout_ms" (flush_timeout_ms c);
  flush_interval_ms := json_get_uint js "flush_interval_ms" (flush_interval_ms c);
  gc_threshold_pc := json_get_uint js "gc_threshold_pc" (gc_threshold_pc c);
  gc_write_window := json_get_uint js "gc_write_window" (gc_write_window c);
  no_gc := json_get_bool js "no_gc" (no_gc c);
|}.

Section config.
(** [nlohmann::json::parse], and the contents of the files that exist. *)
Variable json_parse : string → outcome (gmap string json_value).
Variable file : string → option string.

Definition parse_json (json : string) (c : lsvd_config) : outcome lsvd_config :=
  js ← json_parse json; Ret (apply_json js c).

(** A missing file is only logged, whether or not it may be missing. *)
Definition parse_file (path : string) (can_be_missing : bool) (c : lsvd_config)
    : outcome lsvd_config :=
  match path with
  | EmptyString => Fault
  | _ =>
    match file path with
    | None => Ret c
    | Some contents => parse_json contents c
    end
  end.

(** [from_user_cfg]; the handler turns every exception into [nullopt]. *)
Definition from_user_cfg (cfg : string) : outcome (option lsvd_config) :=
  match cfg with
  | EmptyString => Ret (Some get_default)
  | String c0 _ =>
    match
      c ← parse_file "/usr/local/etc/lsvd.json" true get_default;
      c ← parse_file "./lsvd.json" true c;
      if Ascii.eqb c0 "{"%char then parse_json cfg c else parse_file cfg false c
    with
    | Ret c => Ret (Some c)
    | Throw => Ret None
    | Fault => Fault
    end
  end.

(** The member a layered lookup finds: the last layer that has one of the right
    type wins. *)
Definition layered_uint (layers : list (gmap string json_value)) (key : string) (dflt : Z) : Z :=
  foldl (λ v js, json_get_uint js key v) dflt layers.

Definition layer (path : string) : outcome (list (gmap string json_value)) :=
  match file path with
  | None => Ret []
  | Some contents => js ← json_parse contents; Ret [js]
  end.

Lemma parse_file_layer path b c :
  path ≠ EmptyString → parse_file path b c = (ls ← layer path; Ret (foldl (flip apply_json) c ls)).
Proof.
  intros Hp. unfold parse_file, layer, parse_json. destruct path; [done|].
  destruct (file _); [|done]. simpl. by destruct (json_parse _).
Qed.

Lemma foldl_apply_uint ls c :
  backend_obj_bytes (foldl (flip apply_json) c ls) =
  layered_uint ls "backend_obj_bytes" (backend_obj_bytes c).
Proof. unfold layered_uint. revert c. induction ls as [|js ls IH]; intros c; [done|]. simpl. by rewrite IH. Qed.

(** The layers of the configuration: for a JSON string from the user, when
    the system file, the local file and the string all parse (or are absent),
    each option comes from the last of them that has a member of the right
    type, and from the defaults otherwise. *)
Theorem config_layers cfg s1 s2 user rest :
  cfg = String "{"%char rest → layer "/usr/local/etc/lsvd.json" = Ret s1 →
  layer "./lsvd.json" = Ret s2 → json_parse cfg = Ret user →
  ∃ c, from_user_cfg cfg = Ret (Some c) ∧
    c = foldl (flip apply_json) get_default (s1 ++ s2 ++ [user]) ∧
    backend_obj_bytes c =
      layered_uint (s1 ++ s2 ++ [user]) "backend_obj_bytes" (8 * 1024 * 1024).
Proof.
  intros -> H1 H2 Hu. unfold from_user_cfg.
  rewrite parse_file_layer, H1 by done. cbn [mbind outcome_bind].
  rewrite parse_file_layer, H2 by done. cbn [mbind outcome_bind].
  change (Ascii.eqb "{"%char "{"%char) with true. cbn iota.
  unfold parse_json. rewrite Hu. cbn [mbind outcome_bind].
  eexists. split; [reflexivity|]. split.
  - by rewrite !foldl_app.
  - change (apply_json user (foldl (flip apply_json) (foldl (flip apply_json) get_default s1) s2))
      with (foldl (flip apply_json) (foldl (flip apply_json) (foldl (flip apply_json) get_default s1) s2) [user]).
    rewrite <- !foldl_app. apply foldl_apply_uint.
Qed.
End config.

Lemma config_layers_witness :
  ∃ c, from_user_cfg (λ _, Ret {["backend_obj_bytes" := JUint 1048576]}) (λ _, None) "{}"
         = Ret (Some c) ∧
    c = foldl (flip apply_json) get_default ([] ++ [] ++ [{["backend_obj_bytes" := JUint 1048576]}]) ∧
    backend_obj_bytes c =
      layered_uint ([] ++ [] ++ [{["backend_obj_bytes" := JUint 1048576]}])
        "backend_obj_bytes" (8 * 1024 * 1024).
Proof. eapply config_layers; reflexivity. Defined.
