(* ===== verification/Translate.v ===== *)
(** * The translation layer (src/src/translate.cc)

    Writes are collected in batches; a worker gives each batch a sequence
    number, enters it in the object map and sends it to the backend; when the
    PUT completes, the batch leaves memory.  The state is split into the object
    map with its accounting ([omap]), the write pipeline ([pipeline]) and the
    rest ([xstate]).  [None] is a failed assertion or an access outside an
    allocation.

    The parts under locks are atomic here: the worker thread and the completion
    callbacks are separate steps, and Pipeline studies their interleavings. *)

From stdpp Require Import sorting.
From S2P Require Import Prelude Bytes Extent ExtMapFlat ExtMapSpec Memory SmartIov.
From S2P Require Import LsvdTypes Backend Objects Serialise DataObject Config.

(** [enum work_type] *)
Inductive work_type := REQ_PUT | REQ_FLUSH | REQ_CKPT | REQ_GC.

#[export] Instance work_type_eq_dec : EqDecision work_type.
Proof. solve_decision. Defined.

(** [class translate_req].  [t_batch_buf] is the allocation, [t_data_ptr] the
    offset of [data_ptr] in it; [local_buf_base] is [data_ptr] and
    [local_buf_limit] is [data_ptr + max]. *)
Record translate_req := mk_translate_req {
  t_op : work_type;
  t_batch_buf : Z;
  t_data_ptr : Z;
  t_len : Z;
  t_max : Z;
  t_gc_data : bytes;
  t_entries : list ckpt_mapentry;
  t_seq : Z;
}.

(** ** The object map and its accounting *)

Section objmap.
Context {M : Type} {HM : LbaMap M obj_offset}.

(** [objmap], [object_info], [total_sectors], [total_live_sectors] *)
Record omap := mk_omap {
  om_map : M;
  om_info : gmap Z data_obj_info;
  om_total_sectors : Z;
  om_total_live : Z;
}.

(** The loop over [deleted] in [trim], [process_batch] and [write_gc]. *)
Fixpoint account_deleted (deleted : list (Z * Z * obj_offset))
    (info : gmap Z data_obj_info) (total_live : Z) : option (gmap Z data_obj_info * Z) :=
  match deleted with
  | [] => Some (info, total_live)
  | (base, limit, ptr) :: deleted =>
    match info !! obj ptr with
    | None => account_deleted deleted info total_live (* skip clone base *)
    | Some oi =>
      let live := oi_live oi - (limit - base) in
      _ ← assert (0 <=? live);
      account_deleted deleted
        (<[obj ptr := mk_data_obj_info (oi_hdr oi) (oi_data oi) live]> info)
        (total_live - (limit - base))
    end
  end.

(** [translate_impl::trim] *)
Definition trim_objmap (om : omap) (offset len : Z) : option omap :=
  '(m, deleted) ← lm_trim (om_map om) (offset / 512) ((offset + len) / 512);
  '(info, live) ← account_deleted deleted (om_info om) (om_total_live om);
  Some (mk_omap m info (om_total_sectors om) live).

(** The loop of [process_batch] over the entries: the map, the extents it
    replaced, the entries of the header. *)
Fixpoint map_entries (_seq sector_offset : Z) (entries : list ckpt_mapentry) (m : M)
    : option (M * list (Z * Z * obj_offset) * list data_map) :=
  match entries with
  | [] => Some (m, [], [])
  | e :: entries =>
    let oo := ObjOffset.make _seq sector_offset in
    '(m, deleted) ← lm_update m (me_lba e) (me_lba e + me_len e) oo;
    '(m, deleted', dm) ← map_entries _seq (sector_offset + me_len e) entries m;
    Some (m, deleted ++ deleted',
          mk_data_map (wrap_u 36 (me_lba e)) (wrap_u 28 (me_len e)) :: dm)
  end.

(** The part of [process_batch] under [omap_mtx], and the totals. *)
Definition batch_objmap (_seq hdr_sectors data_sectors : Z) (entries : list ckpt_mapentry)
    (om : omap) : option (omap * list data_map) :=
  let info := <[_seq := mk_data_obj_info hdr_sectors data_sectors data_sectors]> (om_info om) in
  '(m, deleted, dm) ← map_entries _seq hdr_sectors entries (om_map om);
  '(info, total_live) ← account_deleted deleted info (om_total_live om);
  oi ← info !! _seq;
  Some (mk_omap m info (om_total_sectors om + data_sectors) (total_live + oi_live oi), dm).

(** ** Garbage collection writes *)

(** The revalidation loop of [write_gc]: for each selected range, the pieces
    that still point into the object they were copied from, with their data. *)
Fixpoint gc_pieces (base : Z) (obj_ : Z) (data : bytes) (ps : list (Z * Z * obj_offset))
    : list (data_map * bytes) :=
  match ps with
  | [] => []
  | (_base, _limit, ptr) :: ps =>
    if obj ptr =? obj_ then
      (mk_data_map (wrap_u 36 _base) (wrap_u 28 (_limit - _base)),
       slice (Z.to_nat ((_base - base) * 512)) (Z.to_nat ((_limit - _base) * 512)) data)
      :: gc_pieces base obj_ data ps
    else gc_pieces base obj_ data ps
  end.

Fixpoint gc_collect (m : M) (entries : list ckpt_mapentry) (in_data : bytes)
    : option (list (data_map * bytes)) :=
  match entries with
  | [] => Some []
  | e :: entries =>
    let bytes := Z.to_nat (me_len e * 512) in
    ps ← lm_scan m (me_lba e) (me_lba e + me_len e);
    rest ← gc_collect m entries (drop bytes in_data);
    Some (gc_pieces (me_lba e) (me_obj e) (take bytes in_data) ps ++ rest)
  end.

(** The map updates of [write_gc]; it also rewrites [req->entries]. *)
Definition gc_entries (dms : list data_map) : list ckpt_mapentry :=
  (λ d, new_mapentry (dm_lba d) (dm_len d) 0 0) <$> dms.

(** [object_info] gets the new object after the deleted extents have been
    accounted for; the totals are not increased. *)
Definition gc_objmap (_seq hdr_sectors data_sectors : Z) (dms : list data_map) (om : omap)
    : option omap :=
  '(m, deleted, _) ← map_entries _seq hdr_sectors (gc_entries dms) (om_map om);
  '(info, total_live) ← account_deleted deleted (om_info om) (om_total_live om);
  Some (mk_omap m (<[_seq := mk_data_obj_info hdr_sectors data_sectors data_sectors]> info)
          (om_total_sectors om) total_live).

(** ** Choosing what to collect (the first half of [do_gc]) *)

(** [std::map] iterates in the order of the keys. *)
Definition key_le (a b : Z * data_obj_info) : Prop := a.1 ≤ b.1.
#[global] Instance key_le_dec a b : Decision (key_le a b).
Proof. unfold key_le. apply _. Defined.

Definition sorted_info (info : gmap Z data_obj_info) : list (Z * data_obj_info) :=
  merge_sort key_le (map_to_list info).

(** Objects without live data. *)
Definition dead_objects (info : gmap Z data_obj_info) : list Z :=
  fst <$> filter (λ p, oi_live p.2 = 0) (sorted_info info).

(** Those of them that may be deleted: no outstanding read. *)
Definition deletable (refcount : gmap Z Z) (os : list Z) : list Z :=
  filter (λ o, refcount !! o = None) os.

(** Is the utilisation [live / data] of one object at most that of another,
    ties broken by number?  (Fractions are compared by cross-multiplication; the
    code compares doubles.) *)
Definition util_le (a b : Z * data_obj_info) : Prop :=
  let l := oi_live a.2 * oi_data b.2 in
  let r := oi_live b.2 * oi_data a.2 in
  l < r ∨ (l = r ∧ a.1 ≤ b.1).
#[global] Instance util_le_dec a b : Decision (util_le a b).
Proof. unfold util_le. apply _. Defined.

(** Objects up to the last checkpoint, least utilised first, at or below the
    threshold; at most 33 of them. *)
Definition objs_to_clean (threshold_pc last_ckpt : Z) (info : gmap Z data_obj_info)
    : list (Z * Z) :=
  let cand := filter (λ p, p.1 ≤ last_ckpt ∧ oi_live p.2 * 100 ≤ threshold_pc * oi_data p.2)
                (sorted_info info) in
  (λ p, (p.1, oi_hdr p.2 + oi_data p.2)) <$>
    take 33 (merge_sort util_le cand).

(** The live extents of the chosen objects. *)
Fixpoint live_extents (max_obj : Z) (objects : list Z) (ps : list (Z * Z * obj_offset)) (m : M)
    : option M :=
  match ps with
  | [] => Some m
  | (base, limit, ptr) :: ps =>
    if (obj ptr <=? max_obj) && bool_decide (obj ptr ∈ objects) then
      '(m, _) ← lm_update m base limit ptr;
      live_extents max_obj objects ps m
    else live_extents max_obj objects ps m
  end.

(** The inner [while]: take extents until [max] sectors have been collected. *)
Fixpoint gc_batch (max sectors : Z) (exts : list (Z * Z * obj_offset))
    : list (Z * Z * obj_offset) * list (Z * Z * obj_offset) :=
  match exts with
  | [] => ([], [])
  | (base, limit, ptr) :: rest =>
    if sectors <? max then
      let '(b, r) := gc_batch max (sectors + (limit - base)) rest in
      ((base, limit, ptr) :: b, r)
    else ([], exts)
  end.

(** The outer [while]: split all live extents into requests.  Every round takes
    at least one extent, so the number of extents is enough fuel. *)
Fixpoint gc_batches (fuel : nat) (max : Z) (exts : list (Z * Z * obj_offset))
    : option (list (list (Z * Z * obj_offset))) :=
  match exts with
  | [] => Some []
  | _ =>
    match fuel with
    | O => None
    | S fuel =>
      let '(b, r) := gc_batch max 0 exts in
      bs ← gc_batches fuel max r;
      Some (b :: bs)
    end
  end.
End objmap.
Arguments omap M : clear implicits.

(** ** The write pipeline *)

Section pipeline.
Context {MB : Type} {HB : LbaMap MB sector_ptr}.
Variable cfg : lsvd_config.

(** The heap with the next allocation, [bufmap], [current], the queue of
    [workers], and the PUTs that have been sent and not completed: the request,
    the object's name and its bytes. *)
Record pipeline := mk_pipeline {
  p_heap : heap;
  p_next_buf : Z;
  p_bufmap : MB;
  p_current : translate_req;
  p_queue : list translate_req;
  p_flight : list (translate_req * string * bytes);
  p_outstanding : Z;
}.

(** [max_hdr_bytes] in the constructor of [translate_req] *)
Definition max_hdr_bytes : Z := 1024 + backend_obj_bytes cfg / 2048 * 8.

(** [new translate_req(REQ_PUT, cfg.backend_obj_bytes, this)] *)
Definition new_put (h : heap) (id : Z) : heap * translate_req :=
  (malloc h id (Z.to_nat (backend_obj_bytes cfg + max_hdr_bytes)),
   mk_translate_req REQ_PUT id max_hdr_bytes 0 (backend_obj_bytes cfg) [] [] 0).

(** [new translate_req(op, this)] *)
Definition new_req (op : work_type) (gc_data : bytes) (entries : list ckpt_mapentry)
    : translate_req :=
  mk_translate_req op 0 0 0 0 gc_data entries 0.

(** [translate_req::room] *)
Definition room (r : translate_req) (nbytes : Z) : bool := t_len r + nbytes <=? t_max r.

(** [translate_req::append]; the result is the heap, the request and [ptr]. *)
Definition append (r : translate_req) (h : heap) (lba : Z) (iov : SmartIov.smartiov)
    : option (heap * translate_req * addr) :=
  _ ← assert (bool_decide (t_op r = REQ_PUT));
  let nbytes := Z.of_nat (SmartIov.bytes_of iov) in
  let ptr := (t_batch_buf r, t_data_ptr r + t_len r) in
  h ← SmartIov.copy_out h iov ptr;
  Some (h, mk_translate_req (t_op r) (t_batch_buf r) (t_data_ptr r) (t_len r + nbytes) (t_max r)
             (t_gc_data r) (t_entries r ++ [new_mapentry lba (nbytes / 512) 0 0]) (t_seq r), ptr).

(** [workers->put_locked(current); current = new translate_req(...)] *)
Definition put_current (p : pipeline) : pipeline :=
  let '(h, r) := new_put (p_heap p) (p_next_buf p) in
  mk_pipeline h (p_next_buf p + 1) (p_bufmap p) r (p_queue p ++ [p_current p])
    (p_flight p) (p_outstanding p).

(** [translate_impl::writev] *)
Definition writev (p : pipeline) (offset : Z) (iov : SmartIov.smartiov) : option pipeline :=
  let nbytes := Z.of_nat (SmartIov.bytes_of iov) in
  let base := offset / 512 in
  let limit := (offset + nbytes) / 512 in
  let p := if room (p_current p) nbytes then p else put_current p in
  '(h, cur, ptr) ← append (p_current p) (p_heap p) base iov;
  _ ← assert ((t_data_ptr cur <=? ptr.2) &&
              (ptr.2 + (limit - base) * 512 <=? t_data_ptr cur + t_max cur));
  '(bm, _) ← lm_update (p_bufmap p) base limit (mk_sector_ptr ptr.1 ptr.2);
  Some (mk_pipeline h (p_next_buf p) bm cur (p_queue p) (p_flight p) (p_outstanding p)).

(** [flush] and [checkpoint]: submit a partial batch, then the request itself. *)
Definition submit (op : work_type) (p : pipeline) : pipeline :=
  let p := if 0 <? t_len (p_current p) then put_current p else p in
  mk_pipeline (p_heap p) (p_next_buf p) (p_bufmap p) (p_current p)
    (p_queue p ++ [new_req op [] []]) (p_flight p) (p_outstanding p).

(** The condition of the flush thread for submitting a batch that has been
    idle. *)
Definition flush_tick (p : pipeline) (seq0 cur_seq : Z) (timed_out : bool) : pipeline :=
  if (seq0 =? cur_seq) && (0 <? t_len (p_current p)) && timed_out then put_current p else p.

(** Does [ptr] point into the data area of the request? *)
Definition in_local_buf (r : translate_req) (ptr : sector_ptr) : bool :=
  (buf ptr =? t_batch_buf r) && (t_data_ptr r <=? byte_off ptr) &&
  (byte_off ptr <? t_data_ptr r + t_max r).

(** The extents of [bufmap] that [notify] removes: inside the entries of the
    request, and still pointing into its buffer. *)
Fixpoint local_extents (bm : MB) (r : translate_req) (entries : list ckpt_mapentry)
    : option (list (Z * Z)) :=
  match entries with
  | [] => Some []
  | e :: entries =>
    ps ← lm_scan bm (me_lba e) (me_lba e + me_len e);
    rest ← local_extents bm r entries;
    Some (((λ '(b, l, _), (b, l)) <$> filter (λ '(_, _, ptr), in_local_buf r ptr = true) ps) ++ rest)
  end.

Fixpoint trim_extents (bm : MB) (exts : list (Z * Z)) : option MB :=
  match exts with
  | [] => Some bm
  | (base, limit) :: exts => '(bm, _) ← lm_trim bm base limit; trim_extents bm exts
  end.

(** [translate_req::notify] for a PUT or a GC request that is taken out of
    flight; a PUT frees its buffer. *)
Definition notify (p : pipeline) (r : translate_req)
    (flight : list (translate_req * string * bytes)) : option pipeline :=
  match t_op r with
  | REQ_PUT =>
    exts ← local_extents (p_bufmap p) r (t_entries r);
    bm ← trim_extents (p_bufmap p) exts;
    Some (mk_pipeline (free (p_heap p) (t_batch_buf r)) (p_next_buf p) bm (p_current p)
            (p_queue p) flight (p_outstanding p - 1))
  | REQ_GC =>
    Some (mk_pipeline (p_heap p) (p_next_buf p) (p_bufmap p) (p_current p)
            (p_queue p) flight (p_outstanding p - 1))
  | _ => Some (mk_pipeline (p_heap p) (p_next_buf p) (p_bufmap p) (p_current p)
                 (p_queue p) flight (p_outstanding p))
  end.

(** [backend_backpressure] waits while this holds. *)
Definition backpressure (p : pipeline) : bool := backend_write_window cfg <? p_outstanding p.
End pipeline.
Arguments pipeline MB : clear implicits.

(** ** The whole layer *)

Section translate.
Context {M : Type} {HM : LbaMap M obj_offset}.
Context {MB : Type} {HB : LbaMap MB sector_ptr}.
Context {S : Type} {HS : Rados S}.
(** The read cache, of which this layer uses [insert_object]. *)
Context {RC : Type}.
Variable insert_object : RC → string → Z → bytes → RC.
Variable crc32 : bytes → Z.
Variable cfg : lsvd_config.
Variables (name : string) (uuid : bytes) (vol_bytes : Z).

(** [class translate_impl] *)
Record xstate := mk_xstate {
  x_om : omap M;
  x_pipe : pipeline MB;
  x_cur_seq : Z;
  x_checkpoints : list Z;
  x_clones : list clone_base;
  x_refcount : gmap Z Z;
  x_superblock_buf : bytes;
  x_rcache : RC;
  x_store : S;
}.

(** The constructor: [h] is the client's memory, [bm] the (empty) buffer map, the
    other arguments what image.cc has recovered. *)
Definition init_translate (h : heap) (bm : MB) (m : M) (last_seq : Z) (clones : list clone_base)
    (objinfo : gmap Z data_obj_info) (checkpoints : list Z) (rc : RC) (store : S) : xstate :=
  let total f := map_fold (λ _ oi n, f oi + n) 0 objinfo in
  let '(h, current) := new_put cfg h 1 in
  mk_xstate (mk_omap m objinfo (total oi_data) (total oi_live))
    (mk_pipeline h 2 bm current [] [] 0)
    (last_seq + 1) checkpoints clones ∅ (zeros 4096) rc store.

(** [prefix] *)
Definition prefix (clones : list clone_base) (sq : Z) : option string :=
  match clones with
  | [] => Some name
  | c0 :: _ =>
    if cb_last_seq c0 <? sq then Some name
    else
      match list_find (λ c, cb_first_seq c ≤ sq) clones with
      | Some (_, c) => Some (cb_name c)
      | None => None (* assert(false) *)
      end
  end.

(** [objstore->aio_write(...)->run(req)]: the bytes are gathered at once, the
    object becomes visible when the request completes. *)
Definition aio_write (p : pipeline MB) (h : heap) (r : translate_req) (oname : string) (b : bytes)
    : pipeline MB :=
  mk_pipeline h (p_next_buf p) (p_bufmap p) (p_current p) (p_queue p)
    (p_flight p ++ [(r, oname, b)]) (p_outstanding p + 1).

Definition with_seq (r : translate_req) (_seq : Z) (entries : list ckpt_mapentry)
    : translate_req :=
  mk_translate_req (t_op r) (t_batch_buf r) (t_data_ptr r) (t_len r) (t_max r)
    (t_gc_data r) entries _seq.

(** [process_batch] *)
Definition process_batch (st : xstate) (_seq : Z) (req : translate_req) : option xstate :=
  let hdr_sectors := batch_hdr_sectors (length (t_entries req)) in
  let data_sectors := t_len req / 512 in
  let hdr_ptr := (t_batch_buf req, t_data_ptr req - hdr_sectors * 512) in
  '(om, dm) ← batch_objmap _seq hdr_sectors data_sectors (t_entries req) (x_om st);
  hdr ← make_obj_hdr crc32 uuid _seq hdr_sectors data_sectors dm false;
  h ← mem_write (p_heap (x_pipe st)) hdr_ptr hdr;
  pf ← prefix (x_clones st) _seq;
  obj ← mem_read h hdr_ptr (Z.to_nat ((hdr_sectors + data_sectors) * 512));
  Some (mk_xstate om
          (aio_write (x_pipe st) h (with_seq req _seq (t_entries req)) (oname pf _seq) obj)
          (x_cur_seq st) (x_checkpoints st) (x_clones st) (x_refcount st)
          (x_superblock_buf st) (insert_object (x_rcache st) pf _seq obj) (x_store st)).

(** [write_gc].  The header is written in front of the data, into the
    [max_hdr_sectors] set aside for it; a longer one leaves the buffer. *)
Definition write_gc (st : xstate) (_seq : Z) (req : translate_req) : option xstate :=
  pieces ← gc_collect (om_map (x_om st)) (t_entries req) (t_gc_data req);
  let max_hdr := 44 + 28 + backend_obj_bytes cfg / 2048 * 8 in
  let max_hdr_sectors := div_round_up max_hdr 512 in
  let data := mjoin (snd <$> pieces) in
  let data_sectors := Z.of_nat (length data) / 512 in
  let dms := fst <$> pieces in
  let hdr_sectors := batch_hdr_sectors (length dms) in
  om ← gc_objmap _seq hdr_sectors data_sectors dms (x_om st);
  _ ← assert (hdr_sectors <=? max_hdr_sectors);
  hdr ← make_obj_hdr crc32 uuid _seq hdr_sectors data_sectors dms true;
  pf ← prefix (x_clones st) _seq;
  Some (mk_xstate om
          (aio_write (x_pipe st) (p_heap (x_pipe st)) (with_seq req _seq (gc_entries dms))
             (oname pf _seq) (hdr ++ data))
          (x_cur_seq st) (x_checkpoints st) (x_clones st) (x_refcount st)
          (x_superblock_buf st) (x_rcache st) (x_store st)).

(** "Update superblock with new checkpoint, and keep only the last 3" *)
Definition keep_last_3 (ckpts : list Z) : list Z * list Z :=
  let n := (length ckpts - 3)%nat in (take n ckpts, drop n ckpts).

Definition delete_objs (st : S) (seqs : list Z) : S :=
  foldl (λ s c, (delete_obj s (oname name c)).2) st seqs.

(** [write_checkpoint]; [ckpt_cache_seq] is always 0. *)
Definition write_checkpoint (st : xstate) (cp_seq : Z) : option xstate :=
  ps ← lm_all (om_map (x_om st));
  let entries := (λ '(base, limit, ptr),
                   new_mapentry base (limit - base) (obj ptr) (offset ptr)) <$> ps in
  let objects := (λ '(o, oi), mk_ckpt_obj (wrap_u 32 o) (wrap_u 32 (oi_hdr oi))
                                (wrap_u 32 (oi_data oi)) (wrap_u 32 (oi_live oi))) <$>
                 sorted_info (om_info (x_om st)) in
  cp_buf ← serialise_checkpoint cp_seq 0 entries objects uuid;
  let store := (write (x_store st) (oname name cp_seq) cp_buf).2 in
  let '(ckpts_to_delete, checkpoints) := keep_last_3 (x_checkpoints st ++ [cp_seq]) in
  sb ← serialise_superblock (x_superblock_buf st) checkpoints (x_clones st) uuid vol_bytes;
  let store := (write store name sb).2 in
  Some (mk_xstate (x_om st) (x_pipe st) (x_cur_seq st) checkpoints (x_clones st)
          (x_refcount st) sb (x_rcache st) (delete_objs store ckpts_to_delete)).

(** Take the request at the head of the queue, drawing a sequence number. *)
Definition dequeue (st : xstate) (q : list translate_req) (draw : bool) : xstate :=
  let p := x_pipe st in
  mk_xstate (x_om st)
    (mk_pipeline (p_heap p) (p_next_buf p) (p_bufmap p) (p_current p) q (p_flight p)
       (p_outstanding p))
    (if draw then x_cur_seq st + 1 else x_cur_seq st) (x_checkpoints st) (x_clones st)
    (x_refcount st) (x_superblock_buf st) (x_rcache st) (x_store st).

(** One iteration of [worker_thread].  [None] is a failed assertion,
    [Some None] means that the thread waits. *)
Definition worker_step (st : xstate) : option (option xstate) :=
  match p_queue (x_pipe st) with
  | [] => Some None
  | req :: q =>
    match t_op req with
    | REQ_FLUSH =>
      if 0 <? p_outstanding (x_pipe st) then Some None else Some (Some (dequeue st q false))
    | REQ_PUT => st' ← process_batch (dequeue st q true) (x_cur_seq st) req; Some (Some st')
    | REQ_CKPT => st' ← write_checkpoint (dequeue st q true) (x_cur_seq st); Some (Some st')
    | REQ_GC => st' ← write_gc (dequeue st q true) (x_cur_seq st) req; Some (Some st')
    end
  end.

(** Completion of the PUT at position [i] of [p_flight]. *)
Definition complete (st : xstate) (i : nat) : option xstate :=
  '(r, n, b) ← p_flight (x_pipe st) !! i;
  let store := (write (x_store st) n b).2 in
  p ← notify (x_pipe st) r (delete i (p_flight (x_pipe st)));
  Some (mk_xstate (x_om st) p (x_cur_seq st) (x_checkpoints st) (x_clones st)
          (x_refcount st) (x_superblock_buf st) (x_rcache st) store).

Definition with_pipe (st : xstate) (p : pipeline MB) : xstate :=
  mk_xstate (x_om st) p (x_cur_seq st) (x_checkpoints st) (x_clones st) (x_refcount st)
    (x_superblock_buf st) (x_rcache st) (x_store st).

Definition with_om (st : xstate) (om : omap M) : xstate :=
  mk_xstate om (x_pipe st) (x_cur_seq st) (x_checkpoints st) (x_clones st) (x_refcount st)
    (x_superblock_buf st) (x_rcache st) (x_store st).

(** [trim] *)
Definition trim (st : xstate) (offset len : Z) : option xstate :=
  om ← trim_objmap (x_om st) offset len; Some (with_om st om).
End translate.

(** ** Read pins ([object_read_start], [object_read_end]) *)

Definition object_read_start (rc : gmap Z Z) (obj : Z) : gmap Z Z :=
  match rc !! obj with
  | None => <[obj := 0]> rc
  | Some n => <[obj := n + 1]> rc
  end.

(** [obj_read_refcount[obj]] creates a zero entry when there is none. *)
Definition object_read_end (rc : gmap Z Z) (obj : Z) : gmap Z Z :=
  let i := default 0 (rc !! obj) in
  if i =? 1 then delete obj rc else <[obj := i - 1]> rc.

(** A read that pins an object with [object_read_start] and unpins it with
    [object_read_end] leaves the entry behind (with count -1), so the garbage
    collector, which skips every object that has an entry, never deletes that
    object. *)
Theorem read_pin_leaks (rc : gmap Z Z) (o : Z) :
  rc !! o = None →
  object_read_end (object_read_start rc o) o !! o = Some (- 1) ∧
  deletable (object_read_end (object_read_start rc o) o) [o] = [].
Proof.
  intros Hn. unfold object_read_start, object_read_end. rewrite Hn, lookup_insert_eq. simpl.
  rewrite lookup_insert_eq. split; [done|].
  unfold deletable. rewrite filter_cons, decide_False; [done|]. by rewrite lookup_insert_eq.
Qed.

Lemma read_pin_leaks_witness :
  object_read_end (object_read_start ∅ 7) 7 !! 7 = Some (- 1) ∧
  deletable (object_read_end (object_read_start ∅ 7) 7) [7] = [].
Proof. apply read_pin_leaks. reflexivity. Defined.
