(* ===== verification/Accounting.v ===== *)
(** * Live-sector accounting (src/src/translate.cc)

    [object_info] records, for every object, how many of its sectors the object
    map still uses; the garbage collector relies on it.  The invariant is that
    the count is exact.  [process_batch], [trim] and [write_gc] keep it, and
    their assertions [live >= 0] never fail.  The proofs use the extent map only
    through the interface [LbaMap]. *)

From S2P Require Import Prelude Bytes Extent ExtMapFlat ExtMapSpec Memory SmartIov.
From S2P Require Import LsvdTypes Backend Objects Serialise DataObject Config Translate.

Definition of_obj (o : Z) (p : obj_offset) : bool := obj p =? o.

Lemma of_obj_add o p n : of_obj o (p_add p n) = of_obj o p.
Proof. done. Qed.

(** ** Weights of pieces *)

Section weights.
Context {P : Type} `{LayoutOk P}.
Implicit Types (ps : list (Z * Z * P)) (w : P → bool).

Definition piece_pos (v : Z * Z * P) : Prop := v.1.1 < v.1.2.

Lemma weight_pos w ps : Forall piece_pos ps → 0 ≤ weight w ps.
Proof.
  induction 1 as [|[[b l] p] ps Hp Hps IH]; [done|].
  rewrite weight_cons. unfold piece_pos in Hp. simpl in Hp. destruct (w p); lia.
Qed.

Lemma pieces_in_pos (lo hi : Z) ps : pieces_in lo hi ps → Forall piece_pos ps.
Proof.
  revert lo. induction ps as [|[[b l] p] ps IH]; intros lo; simpl; [constructor|].
  intros (_ & ? & _ & ?). constructor; eauto.
Qed.

(** Nothing of the class [w] is mapped. *)
Lemma weight_none w ps : Forall (λ v, w v.2 = false) ps → weight w ps = 0.
Proof.
  induction 1 as [|[[b l] p] ps Hp Hps IH]; [done|]. rewrite weight_cons.
  simpl in Hp. by rewrite Hp, IH.
Qed.
Lemma pieces_denote (lo hi b l : Z) (p : P) ps1 ps2 :
  pieces_in lo hi (ps1 ++ (b, l, p) :: ps2) → vs_denote (ps1 ++ (b, l, p) :: ps2) b = Some p ∧ lo ≤ b.
Proof.
  revert lo. induction ps1 as [|[[b1 l1] p1] ps1 IH]; intros lo; simpl.
  - intros (Hlo & Hb & Hs & _). rewrite (proj2 (in_range_true _ _ _)) by lia.
    rewrite Z.sub_diag, (p_add_0 p (l - b)) by done. done.
  - intros (Hlo & Hb & Hs & Hps). destruct (IH _ Hps) as [IH1 IH2].
    rewrite (proj2 (in_range_false _ _ _)) by lia. split; [done|lia].
Qed.

End weights.

(** ** The loop over the deleted extents *)

Section account.
Implicit Types (info : gmap Z data_obj_info) (del : list (Z * Z * obj_offset)).

Definition sub_live (n : Z) (oi : data_obj_info) : data_obj_info :=
  mk_data_obj_info (oi_hdr oi) (oi_data oi) (oi_live oi - n).

Lemma sub_live_0 oi : sub_live 0 oi = oi.
Proof. destruct oi as [a b c]. unfold sub_live. simpl. f_equal. lia. Qed.

Lemma sub_live_sub a b oi : sub_live a (sub_live b oi) = sub_live (b + a) oi.
Proof. unfold sub_live. simpl. f_equal. lia. Qed.

(** The loop succeeds when no object loses more than it has, and subtracts from
    each object what was deleted of it. *)
Lemma account_deleted_ok del : ∀ info tl,
  Forall piece_pos del →
  (∀ o oi, info !! o = Some oi → weight (of_obj o) del ≤ oi_live oi) →
  ∃ info' tl', account_deleted del info tl = Some (info', tl') ∧
    ∀ o, info' !! o = sub_live (weight (of_obj o) del) <$> info !! o.
Proof.
  induction del as [|[[b l] p] del IH]; intros info tl Hp Hle; simpl.
  { exists info, tl. split; [done|]. intros o.
    destruct (info !! o); simpl; [by rewrite sub_live_0|done]. }
  apply Forall_cons in Hp as [Hp Hps]. unfold piece_pos in Hp. simpl in Hp.
  destruct (info !! obj p) as [oi|] eqn:Eo.
  - pose proof (Hle _ _ Eo) as Hlo. rewrite weight_cons in Hlo.
    unfold of_obj in Hlo at 1. rewrite Z.eqb_refl in Hlo.
    pose proof (weight_pos (of_obj (obj p)) del Hps).
    rewrite assert_true by lia. simpl.
    destruct (IH (<[obj p:=mk_data_obj_info (oi_hdr oi) (oi_data oi) (oi_live oi - (l - b))]> info)
                (tl - (l - b))) as (info' & tl' & -> & Hi); auto.
    { intros o oi' Ho. destruct (decide (obj p = o)) as [<-|Hne].
      - rewrite lookup_insert_eq in Ho. injection Ho as <-. simpl. lia.
      - rewrite lookup_insert_ne in Ho by done. specialize (Hle _ _ Ho).
        rewrite weight_cons in Hle. unfold of_obj in Hle at 1.
        rewrite (proj2 (Z.eqb_neq _ _)) in Hle by done. lia. }
    exists info', tl'. split; [done|]. intros o. rewrite Hi, weight_cons. unfold of_obj at 2.
    destruct (decide (obj p = o)) as [<-|Hne].
    + rewrite lookup_insert_eq, Eo, Z.eqb_refl. simpl. f_equal.
      change (mk_data_obj_info (oi_hdr oi) (oi_data oi) (oi_live oi - (l - b)))
        with (sub_live (l - b) oi). apply sub_live_sub.
    + rewrite lookup_insert_ne by done. rewrite (proj2 (Z.eqb_neq _ _)) by done.
      by rewrite Z.add_0_l.
  - destruct (IH info tl) as (info' & tl' & -> & Hi); auto.
    { intros o oi' Ho. specialize (Hle _ _ Ho). rewrite weight_cons in Hle.
      unfold of_obj in Hle at 1. destruct (obj p =? o) eqn:E; zb; [by subst; congruence|lia]. }
    exists info', tl'. split; [done|]. intros o. rewrite Hi, weight_cons. unfold of_obj at 2.
    destruct (obj p =? o) eqn:E; zb; [subst; by rewrite Eo|]. by rewrite Z.add_0_l.
Qed.
End account.

(** ** Entering a batch into the map *)

Definition sum_len (es : list ckpt_mapentry) : Z := sum_list_Z (me_len <$> es).

(** An entry addresses sectors the on-disk formats can hold. *)
Definition VOL_LIMIT : Z := 2 ^ 35.
Definition entry_ok (e : ckpt_mapentry) : Prop :=
  0 ≤ me_lba e ∧ 0 < me_len e < 2 ^ 27 ∧ me_lba e + me_len e ≤ VOL_LIMIT.

(** Sequence numbers the 36-bit signed field can hold. *)
Definition seq_ok (s : Z) : Prop := 0 ≤ s < 2 ^ 31.

(** Where sector [x] is in a batch whose first sector is at [off]: the last
    entry that covers it wins. *)
Fixpoint batch_lookup (off : Z) (es : list ckpt_mapentry) (x : Z) : option Z :=
  match es with
  | [] => None
  | e :: es =>
    match batch_lookup (off + me_len e) es x with
    | Some k => Some k
    | None => if in_range (me_lba e) (me_lba e + me_len e) x
              then Some (off + (x - me_lba e)) else None
    end
  end.

Lemma sum_len_cons e es : sum_len (e :: es) = me_len e + sum_len es.
Proof. done. Qed.

Lemma sum_len_app es fs : sum_len (es ++ fs) = sum_len es + sum_len fs.
Proof. unfold sum_len. by rewrite fmap_app, sum_list_Z_app. Qed.

Lemma sum_len_nonneg es : Forall entry_ok es → 0 ≤ sum_len es.
Proof.
  induction 1 as [|e es He Hes IH]; [done|]. rewrite sum_len_cons. unfold entry_ok in He. lia.
Qed.

Lemma batch_lookup_range off es x k :
  Forall entry_ok es → batch_lookup off es x = Some k →
  off ≤ k < off + sum_len es ∧ 0 ≤ x < VOL_LIMIT.
Proof.
  intros Hes. revert off. induction Hes as [|e es He Hes IH]; intros off; simpl; [done|].
  pose proof (sum_len_nonneg es Hes). rewrite sum_len_cons.
  destruct (batch_lookup (off + me_len e) es x) as [k'|] eqn:E.
  - intros [= <-]. apply IH in E. unfold entry_ok in He. lia.
  - destruct (in_range _ _ x) eqn:Ex; [|done]. intros [= <-].
    apply in_range_true in Ex. unfold entry_ok in He. lia.
Qed.

Lemma batch_lookup_shift c es : ∀ off x,
  batch_lookup (off + c) es x = Z.add c <$> batch_lookup off es x.
Proof.
  induction es as [|e es IH]; intros off x; simpl; [done|].
  replace (off + c + me_len e) with (off + me_len e + c) by lia. rewrite IH.
  destruct (batch_lookup (off + me_len e) es x); simpl; [done|].
  destruct (in_range _ _ x); simpl; [|done]. f_equal. lia.
Qed.

Lemma batch_lookup_snoc es e : ∀ off x,
  batch_lookup off (es ++ [e]) x =
  if in_range (me_lba e) (me_lba e + me_len e) x
  then Some (off + sum_len es + (x - me_lba e)) else batch_lookup off es x.
Proof.
  induction es as [|e0 es IH]; intros off x; simpl.
  - destruct (in_range _ _ x); [|done]. f_equal. change (sum_len []) with 0. lia.
  - rewrite IH. destruct (in_range _ _ x); [|done]. f_equal. rewrite sum_len_cons. lia.
Qed.

Lemma batch_lookup_in off es x :
  is_Some (batch_lookup off es x) ↔
  ∃ e, e ∈ es ∧ me_lba e ≤ x < me_lba e + me_len e.
Proof.
  revert off. induction es as [|e es IH]; intros off; simpl.
  - split; [intros [? ?]; done|]. intros (e & He & _). by apply elem_of_nil in He.
  - destruct (batch_lookup (off + me_len e) es x) as [k|] eqn:E.
    + split; [intros _|by eexists].
      destruct (proj1 (IH (off + me_len e))) as (e' & He' & Hx); [by rewrite E|].
      exists e'. split; [by right|done].
    + destruct (in_range _ _ x) eqn:Ex.
      * apply in_range_true in Ex. split; [intros _; exists e; split; [left|lia]|by eexists].
      * apply in_range_false in Ex. split; [intros [? ?]; done|].
        intros (e' & He' & Hx). apply elem_of_cons in He' as [->|He']; [lia|].
        destruct (proj2 (IH (off + me_len e))) as [k Hk]; [by exists e'|]. congruence.
Qed.

Lemma sum_len_ge es :
  Forall (λ e, 8 ≤ me_len e) es → 8 * Z.of_nat (length es) ≤ sum_len es.
Proof. induction 1 as [|e es He Hes IH]; [done|]. rewrite sum_len_cons. simpl. lia. Qed.

Lemma obj_make_ok sq off n :
  seq_ok sq → 0 ≤ off → 0 ≤ n → off + n < OBJ_LIMIT →
  ObjOffset.make sq off = mk_obj_offset sq off ∧ span_ok (ObjOffset.make sq off) n.
Proof.
  unfold seq_ok, OBJ_LIMIT. intros. unfold ObjOffset.make. rewrite !wrap_s_id by lia.
  split; [done|]. simpl. unfold obj_span_ok, OBJ_LIMIT. simpl. lia.
Qed.

Section acct.
Context {M : Type} {HM : LbaMap M obj_offset}.
Implicit Types (m : M) (om : omap M).

Definition objmap_at m (x : Z) : option obj_offset := vs_denote (lm_pieces m) x.

Lemma weight_single o sq off b l :
  seq_ok sq → weight (of_obj o) [(b, l, ObjOffset.make sq off)] = if o =? sq then l - b else 0.
Proof.
  intros Hs. rewrite weight_cons. unfold of_obj, ObjOffset.make. simpl.
  rewrite wrap_s_id by (unfold seq_ok in Hs; lia). rewrite Z.eqb_sym.
  unfold weight. simpl. destruct (o =? sq); lia.
Qed.

Lemma map_entries_ok sq es : ∀ off m,
  lm_wf m → seq_ok sq → Forall entry_ok es → 0 ≤ off → off + sum_len es < OBJ_LIMIT →
  ∃ m' del dm, map_entries sq off es m = Some (m', del, dm) ∧ lm_wf m' ∧
    Forall piece_pos del ∧
    (∀ x, objmap_at m' x =
          match batch_lookup off es x with
          | Some k => Some (mk_obj_offset sq k)
          | None => objmap_at m x
          end) ∧
    (∀ o, weight (of_obj o) (lm_pieces m') + weight (of_obj o) del =
          weight (of_obj o) (lm_pieces m) + (if o =? sq then sum_len es else 0)) ∧
    dm = (λ e, mk_data_map (me_lba e) (me_len e)) <$> es.
Proof.
  induction es as [|e es IH]; intros off m Hwf Hs Hes Hoff Hlim; simpl.
  { exists m, [], []. split_and!; auto. intros o. unfold sum_len, weight at 2. simpl.
    destruct (o =? sq); lia. }
  apply Forall_cons in Hes as [He Hes]. unfold entry_ok, VOL_LIMIT in He.
  pose proof (sum_len_nonneg es Hes) as Hn. rewrite sum_len_cons in Hlim.
  destruct (obj_make_ok sq off (me_len e) Hs) as [Hmk Hsp]; try lia.
  destruct (lm_update_ok m (me_lba e) (me_lba e + me_len e) (ObjOffset.make sq off))
    as (m1 & del1 & -> & Hwf1 & Hp1 & Hd1 & _ & Hw1); auto; try (unfold LBA_LIMIT; lia).
  { by replace (_ + _ - _) with (me_len e) by lia. }
  simpl. destruct (IH (off + me_len e) m1) as (m2 & del2 & dm2 & -> & Hwf2 & Hp2 & Hd2 & Hw2 & ->);
    auto; try lia.
  simpl. eexists m2, _, _. split; [done|]. split; [done|]. split; [|split; [|split]].
  - apply Forall_app. split; [|done]. by eapply pieces_in_pos.
  - intros x. rewrite Hd2. destruct (batch_lookup (off + me_len e) es x); [done|].
    unfold objmap_at. rewrite Hd1. destruct (in_range _ _ x) eqn:Ex; [|done].
    apply in_range_true in Ex. f_equal. simpl p_add. rewrite Hmk.
    rewrite obj_offset_add_small; simpl; [done| |lia].
    unfold obj_span_ok, OBJ_LIMIT in *. simpl. lia.
  - intros o. specialize (Hw1 (of_obj o) (of_obj_add o)). specialize (Hw2 o).
    rewrite weight_app. rewrite weight_single in Hw1 by done.
    rewrite sum_len_cons. destruct (o =? sq); lia.
  - rewrite !wrap_u_id by lia. done.
Qed.

(** ** The invariant *)

Definition live_ok om : Prop :=
  lm_wf (om_map om) ∧
  ∀ o oi, om_info om !! o = Some oi → oi_live oi = weight (of_obj o) (lm_pieces (om_map om)).

(** No sector is mapped into object [o]. *)
Definition unused m (o : Z) : Prop := ∀ x p, objmap_at m x = Some p → obj p ≠ o.

Lemma unused_weight m o : lm_wf m → unused m o → weight (of_obj o) (lm_pieces m) = 0.
Proof.
  intros Hwf Hu. apply weight_none, Forall_forall. intros [[b l] p] Hin.
  destruct (lm_all_ok m Hwf) as [_ Hp].
  apply list_elem_of_split in Hin as (ps1 & ps2 & Heq). rewrite Heq in Hp.
  destruct (pieces_denote _ _ _ _ _ _ _ Hp) as [Hd _]. rewrite <- Heq in Hd.
  unfold of_obj. simpl. apply Z.eqb_neq. exact (Hu _ _ Hd).
Qed.

(** Conversely, an object without live sectors is not mapped. *)
Lemma weight_0_unused m o : lm_wf m → weight (of_obj o) (lm_pieces m) = 0 → unused m o.
Proof.
  intros Hwf Hw x p Hx Ho. destruct (lm_all_ok m Hwf) as [_ Hps].
  apply vs_denote_piece in Hx as (b & l & q & Hin & Hx & ->).
  pose proof (pieces_in_range _ _ _ _ _ _ Hps Hin) as (_ & Hbl & _).
  pose proof (pieces_in_pos _ _ _ Hps) as Hpos.
  apply list_elem_of_split in Hin as (ps1 & ps2 & Heq). rewrite Heq in *.
  apply Forall_app in Hpos as [Hp1 Hp2]. apply Forall_cons in Hp2 as [_ Hp2].
  rewrite weight_app, weight_cons in Hw.
  replace (of_obj o q) with true in Hw by (symmetry; apply Z.eqb_eq; exact Ho).
  pose proof (weight_pos (of_obj o) ps1 Hp1). pose proof (weight_pos (of_obj o) ps2 Hp2). lia.
Qed.

Lemma weight_map_pos m o : lm_wf m → 0 ≤ weight (of_obj o) (lm_pieces m).
Proof.
  intros Hwf. apply weight_pos. eapply pieces_in_pos. by apply lm_all_ok.
Qed.

Lemma batch_objmap_ok om sq hdr data es :
  live_ok om → seq_ok sq → unused (om_map om) sq → Forall entry_ok es →
  0 ≤ hdr → hdr + sum_len es < OBJ_LIMIT → data = sum_len es →
  ∃ om' dm, batch_objmap sq hdr data es om = Some (om', dm) ∧ live_ok om' ∧
    is_Some (om_info om' !! sq) ∧
    (∀ x, objmap_at (om_map om') x =
          match batch_lookup hdr es x with
          | Some k => Some (mk_obj_offset sq k)
          | None => objmap_at (om_map om) x
          end) ∧
    dm = (λ e, mk_data_map (me_lba e) (me_len e)) <$> es.
Proof.
  intros [Hwf Hl] Hs Hu Hes Hh Hlim ->. unfold batch_objmap.
  destruct (map_entries_ok sq es hdr (om_map om)) as (m' & del & dm & -> & Hwf' & Hp & Hd & Hw & ->); auto.
  cbn [mbind option_bind].
  pose proof (unused_weight _ _ Hwf Hu) as Hu0.
  destruct (account_deleted_ok del
    (<[sq:=mk_data_obj_info hdr (sum_len es) (sum_len es)]> (om_info om)) (om_total_live om))
    as (info' & tl' & -> & Hi); auto.
  { intros o oi Ho. specialize (Hw o). pose proof (weight_map_pos m' o Hwf').
    destruct (decide (sq = o)) as [<-|Hne].
    - rewrite lookup_insert_eq in Ho. injection Ho as <-. simpl.
      rewrite Z.eqb_refl in Hw. lia.
    - rewrite lookup_insert_ne in Ho by done. rewrite (Hl _ _ Ho).
      rewrite (proj2 (Z.eqb_neq _ _)) in Hw by done. lia. }
  cbn [mbind option_bind].
  rewrite (Hi sq), lookup_insert_eq. cbn [fmap option_fmap option_map mbind option_bind].
  eexists _, _. split; [done|]. cbn [om_map om_info].
  split; [split; [done|]|split; [rewrite Hi, lookup_insert_eq; by eexists|done]].
  intros o oi. rewrite Hi. specialize (Hw o). cbn [om_map].
  destruct (decide (sq = o)) as [<-|Hne].
  - rewrite lookup_insert_eq. intros [= <-]. simpl. rewrite Z.eqb_refl in Hw. lia.
  - rewrite lookup_insert_ne by done. rewrite (proj2 (Z.eqb_neq _ _)) in Hw by done.
    destruct (om_info om !! o) as [oi0|] eqn:Eo; [|done]. intros [= <-]. simpl.
    rewrite (Hl _ _ Eo). lia.
Qed.

(** C19: entering a batch keeps the accounting exact: if every object's live
    count is the number of sectors mapped into it, this still holds after
    [process_batch] has updated the map for a new sequence number, its
    assertions do not fail, and afterwards the map sends every sector of the
    batch to the position of its last write in the new object and no other
    sector is changed. *)
Theorem batch_accounting om sq hdr es :
  live_ok om → seq_ok sq → unused (om_map om) sq → Forall entry_ok es →
  0 ≤ hdr → hdr + sum_len es < OBJ_LIMIT →
  ∃ om' dm, batch_objmap sq hdr (sum_len es) es om = Some (om', dm) ∧ live_ok om' ∧
    (∀ x, objmap_at (om_map om') x =
          match batch_lookup hdr es x with
          | Some k => Some (mk_obj_offset sq k)
          | None => objmap_at (om_map om) x
          end).
Proof.
  intros. destruct (batch_objmap_ok om sq hdr (sum_len es) es) as (om' & dm & ? & ? & ? & ? & ?); eauto.
Qed.

Lemma trim_objmap_ok om off len :
  live_ok om → 0 ≤ off → off / 512 < (off + len) / 512 →
  ∃ om', trim_objmap om off len = Some om' ∧ live_ok om' ∧
    ∀ x, objmap_at (om_map om') x =
         if in_range (off / 512) ((off + len) / 512) x then None else objmap_at (om_map om) x.
Proof.
  intros [Hwf Hl] Ho Hlen. unfold trim_objmap.
  destruct (lm_trim_ok (om_map om) (off / 512) ((off + len) / 512))
    as (m' & del & -> & Hwf' & Hp & Hd & _ & Hw); auto; [apply Z.div_pos; lia|].
  cbn [mbind option_bind].
  destruct (account_deleted_ok del (om_info om) (om_total_live om)) as (info' & tl' & -> & Hi).
  { by eapply pieces_in_pos. }
  { intros o oi Eo. rewrite (Hl _ _ Eo). specialize (Hw (of_obj o) (of_obj_add o)).
    pose proof (weight_map_pos m' o Hwf'). lia. }
  cbn [mbind option_bind]. eexists. split; [done|]. split; [split; [done|]|done].
  intros o oi. simpl. rewrite Hi. specialize (Hw (of_obj o) (of_obj_add o)).
  destruct (om_info om !! o) as [oi0|] eqn:Eo; [|done]. intros [= <-]. simpl.
  rewrite (Hl _ _ Eo). lia.
Qed.

End acct.

(** ** Instances on the extent map of the code *)

Lemma load_256 : (2 ≤ 256)%nat.
Proof. lia. Qed.

#[export] Instance objmap_instance : LbaMap (@ExtMap.Extmap.extmap obj_offset) obj_offset :=
  extmap_lbamap 256 load_256.
#[export] Instance bufmap_instance : LbaMap (@ExtMap.Extmap.extmap sector_ptr) sector_ptr :=
  extmap_lbamap 256 load_256.

(** The map of [demo_map] with its exact accounting. *)
Definition demo_om : omap (@ExtMap.Extmap.extmap obj_offset) :=
  mk_omap demo_map
    (<[1 := mk_data_obj_info 8 20 20]> (<[2 := mk_data_obj_info 8 12 10]> ∅)) 32 30.

Lemma demo_om_live : live_ok demo_om.
Proof.
  split; [exact demo_map_wf|]. intros o oi. simpl.
  destruct (decide (o = 1)) as [->|H1]; [rewrite lookup_insert_eq; by intros [= <-]|].
  rewrite lookup_insert_ne by done.
  destruct (decide (o = 2)) as [->|H2]; [rewrite lookup_insert_eq; by intros [= <-]|].
  by rewrite lookup_insert_ne.
Qed.

Lemma demo_unused : unused (om_map demo_om) 3.
Proof.
  intros x p Hx Hp. unfold objmap_at in Hx.
  assert (Forall (λ v, obj v.2 ≠ 3) (lm_pieces (om_map demo_om))) as HF
    by (repeat constructor; vm_compute; discriminate).
  revert Hx. induction HF as [|[[b l] q] ps Hq Hps IH]; simpl; [done|].
  destruct (in_range b l x); [|done]. intros [= <-]. simpl in Hq, Hp. done.
Qed.

Lemma batch_accounting_witness :
  let es := [mk_ckpt_mapentry 5 10 0 0; mk_ckpt_mapentry 8 4 0 0] in
  ∃ om' dm, batch_objmap 3 8 (sum_len es) es demo_om = Some (om', dm) ∧ live_ok om' ∧
    (∀ x, objmap_at (om_map om') x =
          match batch_lookup 8 es x with
          | Some k => Some (mk_obj_offset 3 k)
          | None => objmap_at (om_map demo_om) x
          end).
Proof.
  apply batch_accounting.
  - exact demo_om_live.
  - split; lia.
  - exact demo_unused.
  - repeat constructor; vm_compute; intuition discriminate.
  - lia.
  - vm_compute. reflexivity.
Defined.

