(* ===== verification/Pipeline.v ===== *)
(** * The write pipeline refines a disk

    A write is first only in the current batch, then in a queued batch, then in
    an object that has been sent and not acknowledged, then in a durable object;
    the buffer map and the object map say where.  This file relates the state of
    the translation layer to an abstract disk, which maps every sector to its
    contents ([None] when a trim has made them unspecified), and shows that the
    relation is an invariant of every interleaving of writes, trims, batch
    submission, the worker thread and completions.  Garbage-collection writes are
    treated in Gc. *)

From S2P Require Import Prelude Bytes Extent ExtMapFlat ExtMapSpec Memory SmartIov.
From S2P Require Import LsvdTypes Backend Objects Serialise DataObject Config Translate Accounting.

Lemma NoDup_fmap_eq {A B} (f : A → B) l x y :
  NoDup (f <$> l) → x ∈ l → y ∈ l → f x = f y → x = y.
Proof.
  induction l as [|z l IH]; [set_solver|]. rewrite fmap_cons, NoDup_cons.
  intros [Hz Hnd] Hx Hy Hf. apply elem_of_cons in Hx as [->|Hx], Hy as [->|Hy]; auto.
  - exfalso. apply Hz. rewrite Hf. by apply list_elem_of_fmap_2.
  - exfalso. apply Hz. rewrite <- Hf. by apply list_elem_of_fmap_2.
Qed.

Section pipeline.
Context {M : Type} {HM : LbaMap M obj_offset}.
Context {MB : Type} {HB : LbaMap MB sector_ptr}.
Context {S : Type} {HS : Rados S} {HSok : RadosOk S}.
Context {RC : Type}.
Variable insert_object : RC → string → Z → bytes → RC.
Variable crc32 : bytes → Z.
Variable cfg : lsvd_config.
Variables (name : string) (uuid : bytes) (vol_bytes : Z).

Notation B := (backend_obj_bytes cfg).
Notation HDR := (max_hdr_bytes cfg).
Notation state := (@xstate M MB S RC).

(** Batches of 2 MiB to 256 MiB: the header of a batch of 4 KiB writes then fits
    in front of the data, and no bit field overflows. *)
Definition cfg_ok : Prop := 2 ^ 21 ≤ B ≤ 2 ^ 28 ∧ B mod 512 = 0.

Definition disk := Z → option bytes.
Implicit Types (D : disk) (st : state) (h : heap) (r : translate_req).

Definition bufmap_at (bm : MB) (x : Z) : option sector_ptr := vs_denote (lm_pieces bm) x.

(** ** Where the contents of a sector are *)

(** What a read of sector [x] returns: the buffer map takes priority, then the
    object map, then zeros. *)
Definition read_sector st (x : Z) : option bytes :=
  match bufmap_at (p_bufmap (x_pipe st)) x with
  | Some p => mem_read (p_heap (x_pipe st)) (buf p, byte_off p) 512
  | None =>
    match objmap_at (om_map (x_om st)) x with
    | Some oo =>
      b ← rados_obj (x_store st) (oname name (obj oo));
      Some (slice (Z.to_nat (512 * offset oo)) 512 b)
    | None => Some (zeros 512)
    end
  end.

(** ** The invariant *)

Definition put_ok h (next : Z) r : Prop :=
  0 < t_batch_buf r < next ∧ t_data_ptr r = HDR ∧ t_max r = B ∧
  Forall entry_ok (t_entries r) ∧ Forall (λ e, 8 ≤ me_len e) (t_entries r) ∧
  t_len r = 512 * sum_len (t_entries r) ∧ t_len r ≤ B ∧
  allocated h (cells_at (t_batch_buf r, 0) (Z.to_nat (B + HDR))).

Definition req_ok h (next : Z) r : Prop :=
  match t_op r with
  | REQ_PUT => put_ok h next r
  | REQ_GC => False
  | _ => t_entries r = []
  end.

Definition flight_ok h (next cur_seq : Z) (ckpts : list Z) (f : translate_req * string * bytes)
    : Prop :=
  let '(r, n, _) := f in
  t_op r = REQ_PUT ∧ put_ok h next r ∧ n = oname name (t_seq r) ∧
  0 ≤ t_seq r < cur_seq ∧ t_seq r ∉ ckpts.

(** Requests that have not been given a sequence number, in order. *)
Definition pending (p : pipeline MB) : list translate_req := p_queue p ++ [p_current p].
Definition sent (p : pipeline MB) : list translate_req := (λ f, f.1.1) <$> p_flight p.
Definition puts (l : list translate_req) : list translate_req :=
  filter (λ r, t_op r = REQ_PUT) l.
Definition bufs (l : list translate_req) : list Z := t_batch_buf <$> puts l.

Record inv st D : Prop := {
  inv_live : live_ok (x_om st);
  inv_bwf : lm_wf (p_bufmap (x_pipe st));
  inv_clones : x_clones st = [];
  inv_seq : 0 ≤ x_cur_seq st;
  inv_objs x p : objmap_at (om_map (x_om st)) x = Some p →
    0 ≤ obj p < x_cur_seq st ∧ obj p ∉ x_checkpoints st;
  inv_ckpts : Forall (λ c, 0 ≤ c < x_cur_seq st) (x_checkpoints st);
  inv_sbuf : clones_len_zero (x_superblock_buf st);
  inv_next : 0 < p_next_buf (x_pipe st);
  inv_current : t_op (p_current (x_pipe st)) = REQ_PUT;
  inv_pend : Forall (req_ok (p_heap (x_pipe st)) (p_next_buf (x_pipe st))) (pending (x_pipe st));
  inv_flight : Forall (flight_ok (p_heap (x_pipe st)) (p_next_buf (x_pipe st)) (x_cur_seq st)
                         (x_checkpoints st)) (p_flight (x_pipe st));
  inv_bufs : NoDup (bufs (sent (x_pipe st) ++ pending (x_pipe st)));
  inv_seqs : NoDup (t_seq <$> sent (x_pipe st));
  (** every pointer of the buffer map is the latest write of its sector in some
      live batch, and the bytes there are the disk's *)
  inv_buf x p : bufmap_at (p_bufmap (x_pipe st)) x = Some p →
    ∃ r k, r ∈ puts (sent (x_pipe st) ++ pending (x_pipe st)) ∧ t_batch_buf r = buf p ∧
      batch_lookup 0 (t_entries r) x = Some k ∧ byte_off p = HDR + 512 * k ∧
      ∀ d, D x = Some d → mem_read (p_heap (x_pipe st)) (buf p, byte_off p) 512 = Some d;
  (** a sector written in a pending batch is in the buffer map, at that batch or
      a later one *)
  inv_pending l1 r l2 x : pending (x_pipe st) = l1 ++ r :: l2 →
    is_Some (batch_lookup 0 (t_entries r) x) →
    ∃ p, bufmap_at (p_bufmap (x_pipe st)) x = Some p ∧ buf p ∈ bufs (r :: l2);
  (** a sector whose latest write has been sent is mapped to that object *)
  inv_sent r n b x p d : (r, n, b) ∈ p_flight (x_pipe st) →
    bufmap_at (p_bufmap (x_pipe st)) x = Some p → buf p = t_batch_buf r → D x = Some d →
    ∃ k, objmap_at (om_map (x_om st)) x = Some (mk_obj_offset (t_seq r) k) ∧
      slice (Z.to_nat (512 * k)) 512 b = d;
  (** a sector that is not in the buffer map is durable or was never written *)
  inv_durable x d : bufmap_at (p_bufmap (x_pipe st)) x = None → D x = Some d →
    match objmap_at (om_map (x_om st)) x with
    | None => d = zeros 512
    | Some oo =>
      obj oo ∉ t_seq <$> sent (x_pipe st) ∧
      ∃ b, rados_obj (x_store st) (oname name (obj oo)) = Some b ∧
        slice (Z.to_nat (512 * offset oo)) 512 b = d
    end;
}.

(** Under the invariant a read returns the contents of the disk. *)
Lemma inv_read st D x d : inv st D → D x = Some d → read_sector st x = Some d.
Proof.
  intros Hi Hd. unfold read_sector.
  destruct (bufmap_at (p_bufmap (x_pipe st)) x) as [p|] eqn:Eb.
  - destruct (inv_buf _ _ Hi _ _ Eb) as (r & k & _ & _ & _ & _ & Hr). auto.
  - pose proof (inv_durable _ _ Hi _ _ Eb Hd) as Hx.
    destruct (objmap_at (om_map (x_om st)) x) as [oo|]; [|by subst].
    destruct Hx as (_ & b & -> & <-). done.
Qed.

(** ** Lists of requests *)

Lemma puts_app l k : puts (l ++ k) = puts l ++ puts k.
Proof. apply filter_app. Qed.

Lemma bufs_app l k : bufs (l ++ k) = bufs l ++ bufs k.
Proof. unfold bufs. by rewrite puts_app, fmap_app. Qed.

Lemma puts_put r l : t_op r = REQ_PUT → puts (r :: l) = r :: puts l.
Proof. intros. unfold puts. by rewrite filter_cons_True. Qed.

Lemma elem_of_puts r l : r ∈ puts l ↔ t_op r = REQ_PUT ∧ r ∈ l.
Proof. unfold puts. by rewrite list_elem_of_filter. Qed.

Lemma same_buf st D r r' :
  inv st D → r ∈ puts (sent (x_pipe st) ++ pending (x_pipe st)) →
  r' ∈ puts (sent (x_pipe st) ++ pending (x_pipe st)) →
  t_batch_buf r = t_batch_buf r' → r = r'.
Proof. intros Hi. apply NoDup_fmap_eq. apply (inv_bufs _ _ Hi). Qed.

Lemma put_ok_heap h h' next r :
  put_ok h next r → (∀ c, is_Some (h !! c) → c.1 = t_batch_buf r → is_Some (h' !! c)) →
  put_ok h' next r.
Proof.
  intros (?&?&?&?&?&?&?&Ha) Hh. repeat (split; [done|]). intros c Hc.
  apply Hh; [by apply Ha|]. by apply elem_of_cells in Hc as [? _].
Qed.

Lemma put_ok_next h next next' r : put_ok h next r → next ≤ next' → put_ok h next' r.
Proof. intros (?&?&?&?&?&?&?&?) ?. repeat (split; [done || lia|]). done. Qed.

Lemma req_ok_mono h h' next next' r :
  req_ok h next r → next ≤ next' →
  (∀ c, is_Some (h !! c) → 0 < c.1 < next → is_Some (h' !! c)) → req_ok h' next' r.
Proof.
  unfold req_ok. intros Hr Hn Hh. destruct (t_op r); auto.
  eapply put_ok_next; [|exact Hn]. eapply put_ok_heap; [exact Hr|].
  intros c Hc Hb. apply Hh; [done|]. destruct Hr as [Hb' _]. lia.
Qed.

Lemma flight_ok_mono h h' next next' sq sq' ckpts ckpts' f :
  flight_ok h next sq ckpts f → next ≤ next' → sq ≤ sq' →
  (∀ c, c < sq → c ∉ ckpts → c ∉ ckpts') →
  (∀ c, is_Some (h !! c) → 0 < c.1 < next → is_Some (h' !! c)) →
  flight_ok h' next' sq' ckpts' f.
Proof.
  destruct f as [[r n] b]. intros (Hop & Hp & Hn & Hs & Hc) Hnx Hsq Hck Hh.
  split; [done|]. split.
  { eapply put_ok_next; [|exact Hnx]. eapply put_ok_heap; [exact Hp|].
    intros c Hx Hb. apply Hh; [done|]. destruct Hp as [Hb' _]. lia. }
  split; [done|]. split; [lia|]. apply Hck; [lia|done].
Qed.

(** The header of a batch fits in front of its data. *)
Lemma hdr_fits h next r :
  cfg_ok → put_ok h next r →
  batch_hdr_sectors (length (t_entries r)) * 512 ≤ HDR ∧
  Z.of_nat (length (t_entries r)) < 2 ^ 24 ∧ sum_len (t_entries r) ≤ 2 ^ 19.
Proof.
  intros [HB0 _] (_ & _ & _ & Hes & H8 & Hlen & HleB & _).
  pose proof (sum_len_ge _ H8) as Hs.
  assert (Z.of_nat (length (t_entries r)) ≤ B / 4096) as Hn.
  { apply Z.div_le_lower_bound; lia. }
  assert (B / 4096 ≤ 2 ^ 16) as HB2 by (apply Z.div_le_upper_bound; lia).
  split; [|lia]. unfold batch_hdr_sectors, max_hdr_bytes.
  destruct (div_round_up_spec (44 + 28 + Z.of_nat (length (t_entries r)) * 8) 4096) as [Hd _]; try lia.
  assert (B / 2048 = 2 * (B / 4096) ∨ B / 2048 = 2 * (B / 4096) + 1) as H2.
  { replace 4096 with (2048 * 2) by lia. rewrite <- Z.div_div by lia.
    pose proof (Z.div_mod (B / 2048) 2 ltac:(lia)). pose proof (Z.mod_pos_bound (B / 2048) 2 ltac:(lia)). lia. }
  assert (2 ^ 9 ≤ B / 4096) by (apply Z.div_le_lower_bound; lia). lia.
Qed.

(** ** Submitting the current batch *)

Lemma malloc_read h id n (p : addr) k :
  p.1 ≠ id → mem_read (malloc h id n) p k = mem_read h p k.
Proof.
  intros Hp. apply read_cells_ext. intros c [Hc _]%elem_of_cells.
  apply malloc_other. congruence.
Qed.

Lemma new_put_ok h id :
  cfg_ok → 0 < id → put_ok (new_put cfg h id).1 (id + 1) (new_put cfg h id).2.
Proof.
  intros [HB0 _] Hid. unfold new_put, put_ok. cbn.
  change (sum_len []) with 0. split_and!; try lia; try constructor.
  apply malloc_allocated.
Qed.

Lemma live_buf_bound st D r :
  inv st D → r ∈ puts (sent (x_pipe st) ++ pending (x_pipe st)) →
  0 < t_batch_buf r < p_next_buf (x_pipe st).
Proof.
  intros Hi [Hop Hr]%elem_of_puts. apply elem_of_app in Hr as [Hr|Hr].
  - apply list_elem_of_fmap in Hr as ([[r' n] b] & -> & Hf).
    pose proof (proj1 (Forall_forall _ _) (inv_flight _ _ Hi) _ Hf) as (_ & Hp & _). apply Hp.
  - pose proof (proj1 (Forall_forall _ _) (inv_pend _ _ Hi) _ Hr) as Hp.
    unfold req_ok in Hp. rewrite Hop in Hp. apply Hp.
Qed.

Lemma put_current_inv st D :
  cfg_ok → inv st D → inv (with_pipe st (put_current cfg (x_pipe st))) D.
Proof.
  intros Hcfg Hi. pose proof (inv_next _ _ Hi) as Hnx.
  unfold put_current, new_put, with_pipe. simpl.
  set (h' := malloc _ _ _). set (r' := mk_translate_req _ _ _ _ _ _ _ _).
  assert (∀ c, is_Some (p_heap (x_pipe st) !! c) → 0 < c.1 < p_next_buf (x_pipe st) → is_Some (h' !! c)) as Hh.
  { intros c Hc Hb. unfold h'. rewrite malloc_other by lia. done. }
  assert (put_ok h' (p_next_buf (x_pipe st) + 1) r') as Hr' by exact (new_put_ok _ _ Hcfg Hnx).
  assert (pending (mk_pipeline h' (p_next_buf (x_pipe st) + 1) (p_bufmap (x_pipe st)) r' (p_queue (x_pipe st) ++ [p_current (x_pipe st)])
    (p_flight (x_pipe st)) (p_outstanding (x_pipe st))) = pending (x_pipe st) ++ [r']) as Hpd by (unfold pending; done).
  split; cbn [x_om x_pipe x_cur_seq x_checkpoints x_clones x_superblock_buf x_store
              p_heap p_bufmap p_current p_flight p_next_buf]; try apply Hi; try done.
  - lia.
  - rewrite Hpd. apply Forall_app. split; [|constructor; [exact Hr'|constructor]].
    eapply Forall_impl; [apply (inv_pend _ _ Hi)|]. intros r Hr.
    eapply req_ok_mono; [exact Hr|lia|exact Hh].
  - eapply Forall_impl; [apply (inv_flight _ _ Hi)|]. intros f Hf.
    eapply flight_ok_mono; [exact Hf|lia|lia|done|exact Hh].
  - rewrite Hpd, app_assoc, bufs_app. unfold bufs at 2. rewrite puts_put by done.
    apply NoDup_app. split; [apply (inv_bufs _ _ Hi)|]. split; [|apply NoDup_singleton].
    intros b Hb Hb'%list_elem_of_singleton. subst b.
    apply list_elem_of_fmap in Hb as (r & Hrb & Hr).
    pose proof (live_buf_bound _ _ _ Hi Hr) as Hbd. simpl in Hrb. lia.
  - intros x q Hq. destruct (inv_buf _ _ Hi _ _ Hq) as (r & k & Hr & Hb & Hk & Ho & Hd).
    exists r, k. split.
    { rewrite Hpd, app_assoc, puts_app. apply elem_of_app. by left. }
    repeat (split; [done|]). intros d Hx. unfold h'. rewrite malloc_read; [by apply Hd|].
    pose proof (live_buf_bound _ _ _ Hi Hr). simpl. lia.
  - intros l1 r l2 x Heq Hx. rewrite Hpd in Heq.
    destruct l2 as [|r2 l2 _] using rev_ind.
    + apply app_inj_2 in Heq as [_ Heq]; [|done]. injection Heq as <-.
      simpl in Hx. by destruct Hx.
    + rewrite app_comm_cons, app_assoc in Heq. apply app_inj_2 in Heq as [Heq _]; [|done].
      destruct (inv_pending _ _ Hi l1 r l2 x Heq Hx) as (q & Hq & Hb).
      exists q. split; [done|]. rewrite app_comm_cons, bufs_app. apply elem_of_app. by left.
Qed.

(** ** Writing *)

(** The disk after a write of [data] at sector [base]. *)
Definition disk_write D (base n : Z) (data : bytes) : disk := λ x,
  if in_range base (base + n) x then Some (slice (Z.to_nat (512 * (x - base))) 512 data)
  else D x.

(** A request of the client: whole sectors, at least a page, not larger than a
    batch, inside the volume, from memory of its own. *)
Definition write_ok h (base n : Z) (iov : SmartIov.smartiov) (data : bytes) : Prop :=
  0 ≤ base ∧ 8 ≤ n ∧ 512 * n ≤ B ∧ base + n ≤ VOL_LIMIT ∧
  Z.of_nat (SmartIov.bytes_of iov) = 512 * n ∧ SmartIov.contents h iov = Some data ∧
  ∀ c, c ∈ SmartIov.cells iov → c.1 ≤ 0.

(** What [append] does to the heap and the request. *)
Lemma append_ok h next r base n iov data :
  cfg_ok → put_ok h next r → t_op r = REQ_PUT → write_ok h base n iov data →
  t_len r + 512 * n ≤ B →
  ∃ h', append r h base iov =
      Some (h', mk_translate_req REQ_PUT (t_batch_buf r) HDR (t_len r + 512 * n) B (t_gc_data r)
                  (t_entries r ++ [mk_ckpt_mapentry base n 0 0]) (t_seq r),
            (t_batch_buf r, HDR + t_len r)) ∧
    (∀ c, is_Some (h !! c) → is_Some (h' !! c)) ∧
    mem_read h' (t_batch_buf r, HDR + t_len r) (Z.to_nat (512 * n)) = Some data ∧
    (∀ q k, q.1 ≠ t_batch_buf r ∨ q.2 + Z.of_nat k ≤ HDR + t_len r →
            mem_read h' q k = mem_read h q k).
Proof.
  intros [HBr _] (Hb & Hdp & Hmx & Hes & H8 & Hlen & HleB & Ha) Hop
    (H0 & Hn & HnB & Hvol & Hby & Hc & Hid) Hroom.
  unfold append. rewrite Hop. simpl. rewrite Hdp, Hmx, Hby.
  assert (SmartIov.bytes_of iov = Z.to_nat (512 * n)) as Hby' by lia.
  assert (0 < HDR) as HHDR by (unfold max_hdr_bytes; pose proof (Z.div_pos B 2048); lia).
  assert (0 ≤ t_len r) as Hlen0 by (rewrite Hlen; pose proof (sum_len_nonneg _ Hes); lia).
  pose proof (read_cells_length _ _ _ Hc) as Hld. rewrite SmartIov.length_cells_of, Hby' in Hld.
  set (cs := cells_at (t_batch_buf r, HDR + t_len r) (Z.to_nat (512 * n))).
  assert (allocated h cs) as Hacs.
  { intros c Hc'. apply Ha. unfold cs in Hc'. rewrite elem_of_cells in *. simpl in *. lia. }
  destruct (write_cells_allocated h cs data Hacs) as [h' Hw]; [unfold cs; len|].
  exists h'. rewrite (SmartIov.copy_out_cells iov h _ data Hc).
  - rewrite Hby'. fold cs. rewrite Hw. cbn [mbind option_bind]. split.
    { do 4 f_equal. unfold new_mapentry. unfold VOL_LIMIT in Hvol.
      rewrite Z.mul_comm, Z.div_mul by lia. rewrite !wrap_s_id by lia. done. }
    split; [intros c Hcs; by apply (write_cells_dom _ _ _ _ c Hw)|]. split.
    + eapply write_cells_read; [exact Hw|apply NoDup_cells].
    + intros q k Hq. eapply write_cells_read_disjoint; [exact Hw|].
      intros c Hc1 Hc2. unfold cs in Hc2. rewrite elem_of_cells in *. simpl in *. lia.
  - rewrite Hby'. exact Hacs.
  - rewrite Hby'. intros c Hc1 Hc2. apply Hid in Hc2. rewrite elem_of_cells in Hc1. simpl in *. lia.
Qed.

Lemma ptr_add_at (b k j : Z) :
  cfg_ok → 0 ≤ k → 0 ≤ j → k + 512 * j ≤ B →
  p_add (mk_sector_ptr b (HDR + k)) j = mk_sector_ptr b (HDR + k + 512 * j) ∧
  span_ok (mk_sector_ptr b (HDR + k)) j.
Proof.
  intros [HBr _] Hk Hj Hkj.
  assert (0 < HDR < 2 ^ 22) as HHDR.
  { unfold max_hdr_bytes. pose proof (Z.div_pos B 2048).
    assert (B / 2048 ≤ 2 ^ 17) by (apply Z.div_le_upper_bound; lia). lia. }
  assert (buf_span_ok (mk_sector_ptr b (HDR + k)) j) as Hs
    by (unfold buf_span_ok, BUF_LIMIT; simpl; lia).
  split; [|exact Hs]. simpl p_add. rewrite sector_ptr_add_small by done. simpl. f_equal. lia.
Qed.

Lemma append_inv st D base n iov data :
  cfg_ok → inv st D → write_ok (p_heap (x_pipe st)) base n iov data →
  t_len (p_current (x_pipe st)) + 512 * n ≤ B →
  ∃ h cur bm del,
    append (p_current (x_pipe st)) (p_heap (x_pipe st)) base iov =
      Some (h, cur, (t_batch_buf cur, HDR + t_len (p_current (x_pipe st)))) ∧
    t_data_ptr cur = HDR ∧ t_max cur = B ∧
    lm_update (p_bufmap (x_pipe st)) base (base + n)
      (mk_sector_ptr (t_batch_buf cur) (HDR + t_len (p_current (x_pipe st)))) = Some (bm, del) ∧
    inv (with_pipe st (mk_pipeline h (p_next_buf (x_pipe st)) bm cur (p_queue (x_pipe st))
                         (p_flight (x_pipe st)) (p_outstanding (x_pipe st))))
        (disk_write D base n data).
Proof.
  clear insert_object crc32 uuid vol_bytes HSok.
  intros Hcfg Hi Hwr Hroom. pose proof Hwr as (Hb0 & Hn8 & HnB & Hvol & _).
  pose proof (inv_current _ _ Hi) as Hop.
  assert (req_ok (p_heap (x_pipe st)) (p_next_buf (x_pipe st)) (p_current (x_pipe st))) as Hput.
  { eapply (proj1 (Forall_forall _ _) (inv_pend _ _ Hi)). unfold pending. set_solver. }
  unfold req_ok in Hput. rewrite Hop in Hput.
  destruct (append_ok _ _ _ base n iov data Hcfg Hput Hop Hwr Hroom) as (h' & Happ & Hdom & Hrd & Hfr).
  set (cur := p_current (x_pipe st)) in *.
  pose proof Hput as (Hbuf & _ & _ & Hes & H8 & Hlen & HleB & Hal).
  pose proof (sum_len_nonneg _ Hes) as Hsl.
  set (cur' := mk_translate_req REQ_PUT _ _ _ _ _ _ _) in *.
  destruct (ptr_add_at (t_batch_buf cur) (t_len cur) n Hcfg) as [_ Hspan]; try lia.
  destruct (lm_update_ok (p_bufmap (x_pipe st)) base (base + n) (mk_sector_ptr (t_batch_buf cur) (HDR + t_len cur)))
    as (bm & del & Hup & Hwf' & _ & Hbm & _ & _); try lia.
  { apply (inv_bwf _ _ Hi). }
  { unfold VOL_LIMIT, LBA_LIMIT in *. lia. }
  { by replace (base + n - base) with n by lia. }
  exists h', cur', bm, del. split; [exact Happ|]. split; [done|]. split; [done|]. split; [exact Hup|].
  assert (∀ x, bufmap_at bm x =
    if in_range base (base + n) x
    then Some (mk_sector_ptr (t_batch_buf cur) (HDR + t_len cur + 512 * (x - base)))
    else bufmap_at (p_bufmap (x_pipe st)) x) as Hbm'.
  { intros x. unfold bufmap_at. rewrite Hbm. destruct (in_range _ _ x) eqn:Ex; [|done].
    apply in_range_true in Ex. f_equal. apply ptr_add_at; auto; lia. }
  clear Hbm. assert (∀ x, batch_lookup 0 (t_entries cur') x =
    if in_range base (base + n) x then Some (sum_len (t_entries cur) + (x - base))
    else batch_lookup 0 (t_entries cur) x) as Hbl.
  { intros x. unfold cur'. simpl. rewrite batch_lookup_snoc. done. }
  assert (puts (sent (x_pipe st) ++ pending (x_pipe st)) =
          puts (sent (x_pipe st) ++ p_queue (x_pipe st)) ++ [cur]) as Hputs.
  { unfold pending. rewrite app_assoc, puts_app, (puts_put (p_current (x_pipe st)) []) by done. done. }
  assert (∀ l, bufs (l ++ [cur']) = bufs (l ++ [cur])) as Hbufs.
  { intros l. rewrite !bufs_app. unfold bufs at 2 4. by rewrite !puts_put by done. }
  split; cbn [with_pipe x_om x_pipe x_cur_seq x_checkpoints x_clones x_superblock_buf x_store
              p_heap p_bufmap p_current p_queue p_flight p_next_buf]; try apply Hi; try done.
  - (* pending requests *)
    pose proof (inv_pend _ _ Hi) as HP. unfold pending in *. simpl.
    apply Forall_app in HP as [HP _]. apply Forall_app. split.
    { eapply Forall_impl; [exact HP|]. intros q Hq. eapply req_ok_mono; [exact Hq|lia|]. auto. }
    apply Forall_singleton. unfold req_ok, put_ok, cur'.
    cbn [t_op t_batch_buf t_data_ptr t_len t_max t_entries]. rewrite sum_len_app.
    change (sum_len [mk_ckpt_mapentry base n 0 0]) with (n + 0).
    split_and!; auto; try lia.
    + apply Forall_app. split; [done|]. apply Forall_singleton. unfold entry_ok. cbn.
      destruct Hcfg as [? _]. lia.
    + apply Forall_app. split; [done|]. by apply Forall_singleton.
    + intros c Hc. apply Hdom. by apply Hal.
  - eapply Forall_impl; [apply (inv_flight _ _ Hi)|]. intros f Hf.
    eapply flight_ok_mono; [exact Hf|lia|lia|done|auto].
  - unfold pending, sent. simpl. rewrite app_assoc, Hbufs, <- app_assoc. apply (inv_bufs _ _ Hi).
  - (* the buffer map *)
    intros x p. rewrite Hbm'. unfold disk_write. destruct (in_range _ _ x) eqn:Ex.
    + intros [= <-]. apply in_range_true in Ex. exists cur', (sum_len (t_entries cur) + (x - base)).
      rewrite Hbl, (proj2 (in_range_true _ _ _)) by lia. simpl. split_and!; auto.
      * unfold sent, pending. simpl. rewrite app_assoc, puts_app, (puts_put cur') by done. set_solver.
      * lia.
      * intros d [= <-].
        replace (HDR + t_len cur + 512 * (x - base))
          with (HDR + t_len cur + Z.of_nat (Z.to_nat (512 * (x - base)))) by lia.
        apply (mem_read_slice h' (t_batch_buf cur, HDR + t_len cur) (Z.to_nat (512 * n)) data); [done|lia].
    + intros Hp. destruct (inv_buf _ _ Hi _ _ Hp) as (r & k & Hr & Hbr & Hk & Ho & Hd).
      assert (∀ d, D x = Some d → mem_read h' (buf p, byte_off p) 512 = Some d) as Hd'.
      { intros d Hx. rewrite Hfr; [by apply Hd|]. simpl.
        destruct (decide (buf p = t_batch_buf cur)) as [Heq|]; [right|by left].
        assert (r = cur) as ->.
        { eapply (same_buf _ _ _ _ Hi Hr); [rewrite Hputs; set_solver|congruence]. }
        apply batch_lookup_range in Hk; [|done]. lia. }
      rewrite Hputs in Hr. apply elem_of_app in Hr as [Hr|Hr].
      * exists r, k. split_and!; auto. unfold sent, pending in *. simpl in *.
        rewrite app_assoc, puts_app. set_solver.
      * apply list_elem_of_singleton in Hr as ->. exists cur', k. split_and!; auto.
        -- unfold sent, pending. simpl. rewrite app_assoc, puts_app, (puts_put cur') by done. set_solver.
        -- by rewrite Hbl, Ex.
  - (* sectors of pending batches *)
    intros l1 r l2 x Heq Hx. unfold pending in Heq. simpl in Heq.
    rewrite Hbm'. destruct (in_range _ _ x) eqn:Ex.
    + eexists. split; [done|]. simpl.
      assert (cur' ∈ r :: l2) as Hin.
      { destruct l2 as [|z l2 _] using rev_ind.
        - apply app_inj_2 in Heq as [_ Heq]; [|done]. injection Heq as <-. left.
        - rewrite app_comm_cons, app_assoc in Heq. apply app_inj_2 in Heq as [_ Heq]; [|done].
          injection Heq as <-. set_solver. }
      apply list_elem_of_fmap. exists cur'. split; [done|]. by apply elem_of_puts.
    + assert (∃ r0 l0, pending (x_pipe st) = l1 ++ r0 :: l0 ∧
        is_Some (batch_lookup 0 (t_entries r0) x) ∧ bufs (r0 :: l0) = bufs (r :: l2))
        as (r0 & l0 & Heq0 & Hx0 & Hb0').
      { unfold pending. destruct l2 as [|z l2 _] using rev_ind.
        - apply app_inj_2 in Heq as [-> Heq]; [|done]. injection Heq as <-.
          rewrite Hbl, Ex in Hx. exists cur, []. split; [done|]. split; [done|].
          symmetry. apply (Hbufs []).
        - rewrite app_comm_cons, app_assoc in Heq. apply app_inj_2 in Heq as [-> Heq]; [|done].
          injection Heq as <-. exists r, (l2 ++ [cur]). rewrite <- app_assoc. split; [done|].
          split; [done|]. symmetry. apply (Hbufs (r :: l2)). }
      rewrite <- Hb0'. by apply (inv_pending _ _ Hi l1 r0 l0).
  - (* sent batches *)
    intros r nm b x p d Hf. rewrite Hbm'. unfold disk_write. destruct (in_range _ _ x) eqn:Ex.
    + intros [= <-] Heq. exfalso. simpl in Heq.
      pose proof (inv_bufs _ _ Hi) as Hnd. unfold bufs in Hnd. rewrite puts_app, fmap_app in Hnd.
      apply NoDup_app in Hnd as (_ & Hnd & _). apply (Hnd (t_batch_buf r)).
      * apply list_elem_of_fmap. exists r. split; [done|]. apply elem_of_puts.
        pose proof (proj1 (Forall_forall _ _) (inv_flight _ _ Hi) _ Hf) as (Hopr & _).
        split; [done|]. apply list_elem_of_fmap. by exists (r, nm, b).
      * rewrite <- Heq. apply list_elem_of_fmap. exists cur. split; [done|]. apply elem_of_puts.
        split; [done|]. unfold pending. set_solver.
    + intros Hp Hq Hd. by eapply (inv_sent _ _ Hi r nm b).
  - intros x d. rewrite Hbm'. unfold disk_write. destruct (in_range _ _ x) eqn:Ex; [done|].
    by apply (inv_durable _ _ Hi).
Qed.

Lemma contents_malloc h id n iov :
  0 < id → (∀ c, c ∈ SmartIov.cells iov → c.1 ≤ 0) →
  SmartIov.contents (malloc h id n) iov = SmartIov.contents h iov.
Proof.
  intros Hid Hc. apply read_cells_ext. intros c Hin. apply malloc_other. apply Hc in Hin. lia.
Qed.

Lemma write_inv st D base n iov data :
  cfg_ok → inv st D → write_ok (p_heap (x_pipe st)) base n iov data →
  ∃ p, writev cfg (x_pipe st) (512 * base) iov = Some p ∧
    inv (with_pipe st p) (disk_write D base n data).
Proof.
  clear insert_object crc32 uuid vol_bytes HSok.
  intros Hcfg Hi Hwr. pose proof Hwr as (Hb0 & Hn8 & HnB & Hvol & Hby & Hct & Hid).
  unfold writev. rewrite Hby.
  replace (512 * base / 512) with base by (rewrite Z.mul_comm, Z.div_mul; lia).
  replace ((512 * base + 512 * n) / 512) with (base + n)
    by (rewrite <- Z.mul_add_distr_l, Z.mul_comm, Z.div_mul; lia).
  set (p1 := if room _ _ then _ else _).
  assert (inv (with_pipe st p1) D ∧ write_ok (p_heap p1) base n iov data ∧
          t_len (p_current p1) + 512 * n ≤ B) as (Hi1 & Hwr1 & Hroom).
  { unfold p1. destruct (room _ _) eqn:Er.
    - split; [by destruct st|]. split; [done|]. unfold room in Er. apply Z.leb_le in Er.
      replace (t_max (p_current (x_pipe st))) with B in Er; [done|].
      pose proof (inv_current _ _ Hi) as Hop.
      assert (req_ok (p_heap (x_pipe st)) (p_next_buf (x_pipe st)) (p_current (x_pipe st))) as Hput.
      { eapply (proj1 (Forall_forall _ _) (inv_pend _ _ Hi)). unfold pending. set_solver. }
      unfold req_ok in Hput. rewrite Hop in Hput. symmetry. apply Hput.
    - split; [by apply put_current_inv|]. split; [|done].
      repeat (split; [done|]). unfold put_current, new_put. cbn [p_heap].
      rewrite contents_malloc; [done|apply (inv_next _ _ Hi)|done]. }
  destruct (append_inv _ D base n iov data Hcfg Hi1 Hwr1 Hroom)
    as (h & cur & bm & del & Happ & Hdp & Hmx & Hup & Hinv).
  cbn [with_pipe x_pipe] in *. rewrite Happ. cbn [mbind option_bind fst snd].
  rewrite Hdp, Hmx.
  assert (0 ≤ t_len (p_current p1)) as Hl0.
  { assert (req_ok (p_heap p1) (p_next_buf p1) (p_current p1)) as Hput.
    { eapply (proj1 (Forall_forall _ _) (inv_pend _ _ Hi1)). unfold pending. simpl. set_solver. }
    pose proof (inv_current _ _ Hi1) as Hop. simpl in Hop. unfold req_ok in Hput. rewrite Hop in Hput.
    destruct Hput as (_ & _ & _ & Hes & _ & -> & _). pose proof (sum_len_nonneg _ Hes). lia. }
  rewrite assert_true by lia. cbn [mbind option_bind]. rewrite Hup. cbn [mbind option_bind].
  eexists. split; [done|exact Hinv].
Qed.

(** ** The worker: batches *)

Lemma HDR_bound : cfg_ok → 0 < HDR < 2 ^ 22.
Proof.
  intros [HBr _]. unfold max_hdr_bytes. pose proof (Z.div_pos B 2048).
  assert (B / 2048 ≤ 2 ^ 17) by (apply Z.div_le_upper_bound; lia). lia.
Qed.

(** The object that [process_batch] sends: the header is written in front of the
    batch, and sector [k] of the batch's data follows it. *)
Lemma batch_object h next r sq :
  cfg_ok → uuid_ok uuid → put_ok h next r → seq_ok sq →
  let hdr := batch_hdr_sectors (length (t_entries r)) in
  let data := t_len r / 512 in
  let hdr_ptr := (t_batch_buf r, t_data_ptr r - hdr * 512) in
  ∃ hb h' b,
    make_obj_hdr crc32 uuid sq hdr data
      ((λ e, mk_data_map (me_lba e) (me_len e)) <$> t_entries r) false = Some hb ∧
    mem_write h hdr_ptr hb = Some h' ∧
    mem_read h' hdr_ptr (Z.to_nat ((hdr + data) * 512)) = Some b ∧
    data = sum_len (t_entries r) ∧ 0 ≤ hdr ∧ hdr + sum_len (t_entries r) < OBJ_LIMIT ∧
    (∀ c, is_Some (h !! c) → is_Some (h' !! c)) ∧
    (∀ q k, q.1 ≠ t_batch_buf r ∨ HDR ≤ q.2 → mem_read h' q k = mem_read h q k) ∧
    (∀ k bs, 0 ≤ k < sum_len (t_entries r) →
       mem_read h (t_batch_buf r, HDR + 512 * k) 512 = Some bs →
       slice (Z.to_nat (512 * (hdr + k))) 512 b = bs).
Proof.
  intros Hcfg Hu Hput Hs hdr data hdr_ptr.
  destruct (hdr_fits _ _ _ Hcfg Hput) as (Hfit & Hn & Hsum). fold hdr in Hfit.
  pose proof (HDR_bound Hcfg) as HHDR.
  destruct (batch_hdr_sectors_ok (length (t_entries r)) Hn) as [Hhdr Hhdr8]. fold hdr in Hhdr, Hhdr8.
  pose proof Hput as (Hbuf & Hdp & _ & Hes & H8 & Hlen & HleB & Hal).
  pose proof (sum_len_nonneg _ Hes) as Hs0.
  assert (data = sum_len (t_entries r)) as Hdata.
  { unfold data. by rewrite Hlen, Z.mul_comm, Z.div_mul by lia. }
  destruct (make_obj_hdr_ok crc32 uuid sq hdr data
    ((λ e, mk_data_map (me_lba e) (me_len e)) <$> t_entries r) false) as (hb & c & Hmk & Hlb & _); auto.
  { unfold seq_ok, u32_ok in *. lia. }
  { unfold u32_ok. lia. }
  { lia. }
  { rewrite length_fmap. lia. }
  { apply Forall_fmap. eapply Forall_impl; [exact Hes|]. unfold entry_ok, VOL_LIMIT. simpl. lia. }
  unfold hdr_ptr. rewrite Hdp.
  set (cs := cells_at (t_batch_buf r, HDR - hdr * 512) (length hb)).
  assert (allocated h cs) as Hacs.
  { intros x Hx. apply Hal. unfold cs in Hx. rewrite elem_of_cells in *. simpl in *. lia. }
  destruct (write_cells_allocated h cs hb Hacs) as [h' Hw]; [unfold cs; len|].
  assert (∀ x, is_Some (h !! x) → is_Some (h' !! x)) as Hdom
    by (intros x Hx; by apply (write_cells_dom _ _ _ _ x Hw)).
  assert (is_Some (mem_read h' (t_batch_buf r, HDR - hdr * 512) (Z.to_nat ((hdr + data) * 512)))) as [b Hb].
  { apply read_cells_allocated. intros x Hx. apply Hdom, Hal. rewrite elem_of_cells in *. simpl in *. lia. }
  assert (∀ q k, q.1 ≠ t_batch_buf r ∨ HDR ≤ q.2 → mem_read h' q k = mem_read h q k) as Hfr.
  { intros q k Hq. eapply write_cells_read_disjoint; [exact Hw|].
    intros x Hx1 Hx2. unfold cs in Hx2. rewrite elem_of_cells in *. simpl in *. lia. }
  exists hb, h', b. split_and!; auto; try (unfold OBJ_LIMIT; lia).
  intros k bs Hk Hr. rewrite <- (Hfr (t_batch_buf r, HDR + 512 * k)) in Hr by (simpl; lia).
  pose proof (mem_read_slice _ _ _ _ (Z.to_nat (512 * (hdr + k))) 512 Hb ltac:(lia)) as Hsl.
  simpl in Hsl.
  replace (HDR - hdr * 512 + Z.of_nat (Z.to_nat (512 * (hdr + k)))) with (HDR + 512 * k) in Hsl by lia.
  congruence.
Qed.

Lemma worker_put_inv st D r q :
  cfg_ok → uuid_ok uuid → inv st D → p_queue (x_pipe st) = r :: q → t_op r = REQ_PUT →
  x_cur_seq st < 2 ^ 31 →
  ∃ st', process_batch insert_object crc32 name uuid (dequeue st q true) (x_cur_seq st) r = Some st' ∧
    inv st' D.
Proof.
  intros Hcfg Hu Hi Hq Hop Hlim.
  assert (seq_ok (x_cur_seq st)) as Hs by (pose proof (inv_seq _ _ Hi); unfold seq_ok; lia).
  assert (pending (x_pipe st) = r :: q ++ [p_current (x_pipe st)]) as Hpd
    by (unfold pending; by rewrite Hq).
  assert (put_ok (p_heap (x_pipe st)) (p_next_buf (x_pipe st)) r) as Hput.
  { pose proof (inv_pend _ _ Hi) as HP. rewrite Hpd in HP. apply Forall_cons in HP as [HP _].
    unfold req_ok in HP. by rewrite Hop in HP. }
  destruct (batch_object _ _ r (x_cur_seq st) Hcfg Hu Hput Hs)
    as (hb & h' & b & Hmk & Hw & Hb & Hdata & Hh0 & Hlimit & Hdom & Hfr & Hobj).
  pose proof Hput as (Hbuf & Hdp & _ & Hes & _).
  assert (unused (om_map (x_om st)) (x_cur_seq st)) as Hun.
  { intros x p Hp Heq. apply (inv_objs _ _ Hi) in Hp. lia. }
  destruct (batch_objmap_ok (x_om st) (x_cur_seq st) _ _ (t_entries r) (inv_live _ _ Hi) Hs Hun Hes
              Hh0 Hlimit Hdata) as (om & dm & Hom & Hlive & _ & Hmap & ->).
  unfold process_batch. cbn [dequeue x_om x_pipe x_clones p_heap]. rewrite Hom.
  cbn [mbind option_bind]. rewrite Hmk. cbn [mbind option_bind]. rewrite Hw. cbn [mbind option_bind].
  rewrite (inv_clones _ _ Hi). cbn [prefix mbind option_bind]. rewrite Hb. cbn [mbind option_bind].
  set (hdr := batch_hdr_sectors _) in *.
  eexists. split; [reflexivity|].
  set (r' := with_seq r (x_cur_seq st) (t_entries r)).
  set (rest := q ++ [p_current (x_pipe st)]) in *.
  assert (∀ x, is_Some (batch_lookup hdr (t_entries r) x) →
    ∃ p, bufmap_at (p_bufmap (x_pipe st)) x = Some p ∧ buf p ∈ bufs (r :: rest)) as Hpend0.
  { intros x Hx. apply (inv_pending _ _ Hi [] r rest x Hpd).
    rewrite <- (Z.add_0_l hdr), batch_lookup_shift in Hx.
    destruct (batch_lookup 0 (t_entries r) x); [by eexists|by destruct Hx]. }
  assert (NoDup (bufs (sent (x_pipe st)) ++ bufs (r :: rest))) as Hnd
    by (rewrite <- bufs_app, <- Hpd; apply (inv_bufs _ _ Hi)).
  assert (∀ f, f ∈ p_flight (x_pipe st) → t_op f.1.1 = REQ_PUT ∧ 0 ≤ t_seq f.1.1 < x_cur_seq st) as Hfl.
  { intros [[r0 n0] b0] Hf. pose proof (proj1 (Forall_forall _ _) (inv_flight _ _ Hi) _ Hf)
      as (? & _ & _ & ? & _). done. }
  unfold aio_write.
  split; cbn [x_om x_pipe x_cur_seq x_checkpoints x_clones x_superblock_buf x_store dequeue
              p_heap p_bufmap p_current p_queue p_flight p_next_buf]; try apply Hi; try done.
  - pose proof (inv_seq _ _ Hi). lia.
  - intros x p. rewrite Hmap. pose proof (inv_seq _ _ Hi). destruct (batch_lookup _ _ _) as [k|].
    + intros [= <-]. simpl. split; [lia|]. intros Hin.
      apply (proj1 (Forall_forall _ _) (inv_ckpts _ _ Hi)) in Hin. lia.
    + intros Hp. apply (inv_objs _ _ Hi) in Hp as [? ?]. split; [lia|done].
  - eapply Forall_impl; [apply (inv_ckpts _ _ Hi)|]. simpl. lia.
  - unfold pending. simpl. fold rest. pose proof (inv_pend _ _ Hi) as HP. rewrite Hpd in HP.
    apply Forall_cons in HP as [_ HP]. eapply Forall_impl; [exact HP|].
    intros r0 Hr0. eapply req_ok_mono; [exact Hr0|lia|auto].
  - apply Forall_app. split.
    + eapply Forall_impl; [apply (inv_flight _ _ Hi)|]. intros f Hf.
      eapply flight_ok_mono; [exact Hf|lia|lia|done|auto].
    + apply Forall_singleton. split; [done|]. split; [|split; [done|split]].
      * eapply put_ok_heap; [exact Hput|]. auto.
      * simpl. pose proof (inv_seq _ _ Hi). lia.
      * simpl. intros Hin. apply (proj1 (Forall_forall _ _) (inv_ckpts _ _ Hi)) in Hin. lia.
  - unfold sent, pending. simpl. fold rest. rewrite fmap_app. simpl. rewrite <- app_assoc, bufs_app.
    unfold bufs in Hnd |- *. rewrite puts_put in Hnd by done. simpl. rewrite puts_put by done. exact Hnd.
  - unfold sent. simpl. rewrite !fmap_app. simpl. apply NoDup_app.
    split; [apply (inv_seqs _ _ Hi)|]. split; [|apply NoDup_singleton].
    intros sq Hsq Hsq'%list_elem_of_singleton. subst sq.
    apply list_elem_of_fmap in Hsq as (r0 & Heq & Hr0).
    apply list_elem_of_fmap in Hr0 as (f & -> & Hf). apply Hfl in Hf. simpl in Heq. lia.
  - intros x p Hp. destruct (inv_buf _ _ Hi _ _ Hp) as (r0 & k & Hr0 & Hbr & Hk & Ho & Hd).
    assert (∃ r1, r1 ∈ puts (sent (x_pipe st) ++ [r'] ++ rest) ∧ t_batch_buf r1 = t_batch_buf r0 ∧
      t_entries r1 = t_entries r0) as (r1 & Hr1 & Hb1 & He1).
    { rewrite Hpd in Hr0. apply elem_of_puts in Hr0 as [Hop0 Hr0].
      apply elem_of_app in Hr0 as [Hr0|Hr0].
      - exists r0. split; [|done]. apply elem_of_puts. split; [done|]. set_solver.
      - apply elem_of_cons in Hr0 as [->|Hr0].
        + exists r'. split; [|done]. apply elem_of_puts. split; [done|]. set_solver.
        + exists r0. split; [|done]. apply elem_of_puts. split; [done|]. set_solver. }
    exists r1, k. rewrite Hb1, He1. split_and!; auto.
    + unfold sent, pending. simpl. fold rest. rewrite fmap_app. simpl. by rewrite <- app_assoc.
    + intros d Hx. rewrite Hfr; [by apply Hd|]. simpl. right. rewrite Ho.
      assert (Forall entry_ok (t_entries r0)) as Hes0.
      { apply elem_of_puts in Hr0 as [Hop0 Hr0]. apply elem_of_app in Hr0 as [Hr0|Hr0].
        - apply list_elem_of_fmap in Hr0 as ([[r2 n2] b2] & -> & Hf).
          pose proof (proj1 (Forall_forall _ _) (inv_flight _ _ Hi) _ Hf) as (_ & Hp2 & _). apply Hp2.
        - pose proof (proj1 (Forall_forall _ _) (inv_pend _ _ Hi) _ Hr0) as Hp2.
          unfold req_ok in Hp2. rewrite Hop0 in Hp2. apply Hp2. }
      apply batch_lookup_range in Hk; [lia|done].
  - intros l1 r0 l2 x Heq Hx. unfold pending in Heq. simpl in Heq. fold rest in Heq.
    apply (inv_pending _ _ Hi (r :: l1) r0 l2 x); [|done]. by rewrite Hpd, Heq.
  - intros r0 n0 b0 x p d Hf Hp Hbp Hd. apply elem_of_app in Hf as [Hf|Hf].
    + rewrite Hmap. destruct (batch_lookup hdr (t_entries r) x) as [k|] eqn:Ek.
      { exfalso. destruct (Hpend0 x) as (p' & Hp' & Hb'); [by eexists|].
        rewrite Hp in Hp'. injection Hp' as <-.
        apply NoDup_app in Hnd as (_ & Hnd & _). apply (Hnd (buf p)); [|done].
        rewrite Hbp. apply list_elem_of_fmap. exists r0. split; [done|]. apply elem_of_puts.
        split; [apply (Hfl _ Hf)|]. apply list_elem_of_fmap. by exists (r0, n0, b0). }
      by eapply (inv_sent _ _ Hi r0 n0 b0).
    + apply list_elem_of_singleton in Hf. injection Hf as -> -> ->. simpl in Hbp.
      destruct (inv_buf _ _ Hi _ _ Hp) as (r0 & k & Hr0 & Hbr & Hk & Ho & Hrd).
      assert (r0 = r) as ->.
      { eapply (same_buf _ _ _ _ Hi Hr0); [|congruence]. apply elem_of_puts. split; [done|].
        rewrite Hpd. set_solver. }
      exists (hdr + k). rewrite Hmap, <- (Z.add_0_l hdr), batch_lookup_shift, Hk.
      split; [simpl; do 2 f_equal; lia|]. rewrite Z.add_0_l. apply Hobj.
      { apply batch_lookup_range in Hk; [lia|done]. }
      rewrite Hbr, <- Ho. by apply Hrd.
  - intros x d Hp Hd. rewrite Hmap. destruct (batch_lookup hdr (t_entries r) x) as [k|] eqn:Ek.
    { exfalso. destruct (Hpend0 x) as (p' & Hp' & _); [by eexists|]. congruence. }
    pose proof (inv_durable _ _ Hi x d Hp Hd) as Hx.
    destruct (objmap_at (om_map (x_om st)) x) as [oo|] eqn:Eo; [|done].
    destruct Hx as [Hx1 Hx2]. split; [|done]. unfold sent. simpl. rewrite !fmap_app. simpl.
    intros [Hin|Hin%list_elem_of_singleton]%elem_of_app; [done|].
    apply (inv_objs _ _ Hi) in Eo. lia.
Qed.

End pipeline.
