(* ===== verification/Completion.v ===== *)
(** * Completion of a PUT

    When the backend has acknowledged an object, [notify] removes from the
    buffer map the sectors that still point into the batch and frees its buffer:
    these sectors are now read from the object. *)

From S2P Require Import Prelude Bytes Extent ExtMapFlat ExtMapSpec Memory SmartIov.
From S2P Require Import LsvdTypes Backend Objects Serialise DataObject Config Translate Accounting.
From S2P Require Import Pipeline.

Section completion.
Context {M : Type} {HM : LbaMap M obj_offset}.
Context {MB : Type} {HB : LbaMap MB sector_ptr}.
Context {S : Type} {HS : Rados S} {HSok : RadosOk S}.
Context {RC : Type}.
Variable cfg : lsvd_config.
Variable name : string.

Notation B := (backend_obj_bytes cfg).
Notation HDR := (max_hdr_bytes cfg).
Notation state := (@xstate M MB S RC).
Notation inv := (inv cfg name).
Implicit Types (D : disk) (st : state) (h : heap) (r : translate_req) (bm : MB).

(** ** The loops of [notify] *)

Definition covered (exts : list (Z * Z)) (x : Z) : bool :=
  existsb (λ '(b, l), in_range b l x) exts.

Lemma covered_app e1 e2 x : covered (e1 ++ e2) x = covered e1 x || covered e2 x.
Proof. apply existsb_app. Qed.

Lemma covered_spec exts x :
  covered exts x = true ↔ ∃ b l, (b, l) ∈ exts ∧ b ≤ x < l.
Proof.
  unfold covered. rewrite existsb_exists. split.
  - intros ([b l] & Hin & Hx). apply in_range_true in Hx. exists b, l.
    split; [by apply list_elem_of_In|done].
  - intros (b & l & Hin & Hx). exists (b, l). split; [by apply list_elem_of_In|].
    by apply in_range_true.
Qed.

Lemma trim_extents_ok exts : ∀ bm,
  lm_wf bm → Forall (λ e, 0 ≤ e.1 < e.2) exts →
  ∃ bm', trim_extents bm exts = Some bm' ∧ lm_wf bm' ∧
    ∀ x, bufmap_at bm' x = if covered exts x then None else bufmap_at bm x.
Proof.
  induction exts as [|[b l] exts IH]; intros bm Hwf Hall; simpl; [by exists bm|].
  apply Forall_cons in Hall as [He Hall]. simpl in He.
  destruct (lm_trim_ok bm b l) as (bm1 & del & -> & Hwf1 & _ & Hd1 & _); auto; try lia.
  cbn [mbind option_bind]. destruct (IH bm1 Hwf1 Hall) as (bm2 & -> & Hwf2 & Hd2).
  exists bm2. split; [done|]. split; [done|]. intros x. rewrite Hd2.
  unfold bufmap_at in *. rewrite Hd1. unfold covered.
  destruct (in_range b l x); simpl; [by destruct (existsb _ exts)|done].
Qed.

(** Is sector [x] mapped into the buffer of [r]? *)
Definition into_buf bm r (x : Z) : Prop :=
  ∃ p, bufmap_at bm x = Some p ∧ buf p = t_batch_buf r.

Definition local_ok bm r : Prop := ∀ x p,
  bufmap_at bm x = Some p → buf p = t_batch_buf r → in_local_buf r p = true.

Lemma local_piece bm r (lo hi : Z) ps x :
  local_ok bm r → pieces_in lo hi ps →
  (∀ y, vs_denote ps y = (if in_range lo hi y then bufmap_at bm y else None)) →
  covered ((λ '(b, l, _), (b, l)) <$> filter (λ '(_, _, ptr), in_local_buf r ptr = true) ps) x = true ↔
  lo ≤ x < hi ∧ into_buf bm r x.
Proof.
  intros Hloc Hps Hd. rewrite covered_spec. split.
  - intros (b & l & Hin & Hx). apply list_elem_of_fmap in Hin as ([[b' l'] p] & [= -> ->] & Hin).
    apply list_elem_of_filter in Hin as [Hp Hin].
    pose proof (pieces_in_range _ _ _ _ _ _ Hps Hin) as (? & ? & ? & _).
    pose proof (pieces_in_denote _ _ _ _ x _ _ Hps Hin Hx) as Hq.
    rewrite Hd, (proj2 (in_range_true _ _ _)) in Hq by lia.
    split; [lia|]. eexists. split; [exact Hq|]. simpl.
    unfold in_local_buf in Hp. by zb.
  - intros [Hx (p & Hp & Hb)]. apply in_range_true in Hx.
    assert (vs_denote ps x = Some p) as Hv by (by rewrite Hd, Hx).
    apply vs_denote_piece in Hv as (b & l & q & Hin & Hbl & ->).
    exists b, l. split; [|done]. apply list_elem_of_fmap. exists (b, l, q). split; [done|].
    apply list_elem_of_filter. split; [|done].
    pose proof (pieces_in_range _ _ _ _ _ _ Hps Hin) as (? & ? & ? & ?).
    pose proof (pieces_in_denote _ _ _ _ b _ _ Hps Hin ltac:(lia)) as Hq.
    rewrite Hd, (proj2 (in_range_true _ _ _)) in Hq by lia.
    rewrite Z.sub_diag, (p_add_0 q (l - b)) in Hq by done.
    by apply (Hloc b q).
Qed.

Lemma local_extents_ok bm r es :
  lm_wf bm → local_ok bm r → Forall entry_ok es →
  ∃ exts, local_extents bm r es = Some exts ∧ Forall (λ e, 0 ≤ e.1 < e.2) exts ∧
    ∀ x, covered exts x = true ↔
         (∃ e, e ∈ es ∧ me_lba e ≤ x < me_lba e + me_len e) ∧ into_buf bm r x.
Proof.
  intros Hwf Hloc. induction 1 as [|e es He Hes (exts & IH1 & IH2 & IH3)]; simpl.
  { exists []. split; [done|]. split; [constructor|]. intros x.
    split; [done|]. intros [(e & He%elem_of_nil & _) _]. done. }
  unfold entry_ok in He.
  destruct (lm_scan_ok bm (me_lba e) (me_lba e + me_len e)) as (ps & -> & Hps & Hd); auto; [lia|].
  cbn [mbind option_bind]. rewrite IH1. cbn [mbind option_bind].
  eexists. split; [done|]. split.
  - apply Forall_app. split; [|done]. apply Forall_fmap, Forall_forall.
    intros [[b l] p] [_ Hin]%list_elem_of_filter.
    pose proof (pieces_in_range _ _ _ _ _ _ Hps Hin). simpl. lia.
  - intros x. rewrite covered_app, orb_true_iff, IH3.
    rewrite (local_piece bm r _ _ ps x Hloc Hps Hd). set_solver.
Qed.

(** [notify] of a PUT unmaps exactly the sectors that still point into the
    batch, given that all of them were written by it. *)
Lemma notify_put_ok (p : pipeline MB) r fl :
  t_op r = REQ_PUT → lm_wf (p_bufmap p) → local_ok (p_bufmap p) r →
  Forall entry_ok (t_entries r) →
  (∀ x, into_buf (p_bufmap p) r x →
        ∃ e, e ∈ t_entries r ∧ me_lba e ≤ x < me_lba e + me_len e) →
  ∃ bm', notify p r fl = Some (mk_pipeline (free (p_heap p) (t_batch_buf r)) (p_next_buf p) bm'
                                 (p_current p) (p_queue p) fl (p_outstanding p - 1)) ∧
    lm_wf bm' ∧
    ∀ x q, bufmap_at bm' x = Some q ↔ bufmap_at (p_bufmap p) x = Some q ∧ buf q ≠ t_batch_buf r.
Proof.
  intros Hop Hwf Hloc Hes Hin. unfold notify. rewrite Hop.
  destruct (local_extents_ok _ _ _ Hwf Hloc Hes) as (exts & -> & Hall & Hcov).
  cbn [mbind option_bind].
  destruct (trim_extents_ok exts _ Hwf Hall) as (bm' & -> & Hwf' & Hd). cbn [mbind option_bind].
  exists bm'. split; [done|]. split; [done|]. intros x q. rewrite Hd.
  destruct (covered exts x) eqn:Ec.
  - apply Hcov in Ec as [_ (q' & Hq' & Hb)]. split; [done|]. intros [Hq Hne]. congruence.
  - split; [|by intros [? _]]. intros Hq. split; [done|]. intros Hb.
    assert (into_buf (p_bufmap p) r x) as Hi by (by exists q).
    assert (covered exts x = true) by (apply Hcov; auto). congruence.
Qed.
(** ** The invariant *)

(** The state after the completion of [(r, n, b)] at position [length f1]. *)
Definition completed st r n b f1 f2 (bm : MB) : state :=
  let p := x_pipe st in
  mk_xstate (x_om st)
    (mk_pipeline (free (p_heap p) (t_batch_buf r)) (p_next_buf p) bm (p_current p) (p_queue p)
       (f1 ++ f2) (p_outstanding p - 1))
    (x_cur_seq st) (x_checkpoints st) (x_clones st) (x_refcount st) (x_superblock_buf st)
    (x_rcache st) (write (x_store st) n b).2.

Section one.
Variables (st : state) (D : disk) (r : translate_req) (n : string) (b : bytes).
Variables (f1 f2 : list (translate_req * string * bytes)) (bm : MB).
Hypothesis Hi : inv st D.
Hypothesis Hlim : x_cur_seq st ≤ 2 ^ 31.
Hypothesis Hfl : p_flight (x_pipe st) = f1 ++ (r, n, b) :: f2.

Let rest := ((λ f, f.1.1) <$> f1) ++ ((λ f, f.1.1) <$> f2) ++ pending (x_pipe st).
Let seqs := t_seq <$> ((λ f, f.1.1) <$> (f1 ++ f2)).

Lemma flight_this : flight_ok cfg name (p_heap (x_pipe st)) (p_next_buf (x_pipe st))
  (x_cur_seq st) (x_checkpoints st) (r, n, b).
Proof.
  apply (proj1 (Forall_forall _ _) (inv_flight _ _ _ _ Hi)). rewrite Hfl. set_solver.
Qed.

Lemma sent_split :
  sent (x_pipe st) ++ pending (x_pipe st) ≡ₚ r :: rest.
Proof.
  unfold sent, rest. rewrite Hfl, fmap_app, fmap_cons, <- app_assoc.
  cbn [app fst snd]. by rewrite <- Permutation_middle.
Qed.

Lemma this_buf_fresh : t_batch_buf r ∉ bufs rest ∧ NoDup (bufs rest).
Proof.
  pose proof (inv_bufs _ _ _ _ Hi) as Hnd. destruct flight_this as (Hop & _).
  unfold bufs, puts in *. rewrite sent_split, filter_cons_True in Hnd by done.
  by apply NoDup_cons in Hnd.
Qed.

Lemma this_seq_fresh : t_seq r ∉ seqs ∧ NoDup seqs.
Proof.
  pose proof (inv_seqs _ _ _ _ Hi) as Hnd. unfold sent, seqs in *.
  rewrite Hfl, !fmap_app, !fmap_cons in Hnd. rewrite <- Permutation_middle in Hnd.
  rewrite !fmap_app. by apply NoDup_cons in Hnd.
Qed.

(** A batch other than [r] keeps its buffer. *)
Lemma rest_buf r' : r' ∈ rest → t_op r' = REQ_PUT → t_batch_buf r' ≠ t_batch_buf r.
Proof.
  intros Hr Hop Heq. destruct this_buf_fresh as [Hni _]. apply Hni. rewrite <- Heq.
  apply list_elem_of_fmap. exists r'. split; [done|]. by apply elem_of_puts.
Qed.

Lemma put_ok_free r' :
  r' ∈ rest → t_op r' = REQ_PUT →
  put_ok cfg (p_heap (x_pipe st)) (p_next_buf (x_pipe st)) r' →
  put_ok cfg (free (p_heap (x_pipe st)) (t_batch_buf r)) (p_next_buf (x_pipe st)) r'.
Proof.
  intros Hr Hop Hput. eapply put_ok_heap; [exact Hput|]. intros c Hc Hb.
  rewrite free_other; [done|]. rewrite Hb. by apply rest_buf.
Qed.

Lemma this_local x p :
  bufmap_at (p_bufmap (x_pipe st)) x = Some p → buf p = t_batch_buf r →
  ∃ k, batch_lookup 0 (t_entries r) x = Some k ∧ byte_off p = HDR + 512 * k ∧
    ∀ d, D x = Some d → length d = 512%nat.
Proof.
  intros Hp Hb. destruct (inv_buf _ _ _ _ Hi _ _ Hp) as (r0 & k & Hr0 & Hb0 & Hk & Ho & Hd).
  assert (r0 = r) as ->.
  { eapply (same_buf _ _ _ _ _ _ Hi Hr0); [|congruence]. destruct flight_this as (Hop & _).
    apply elem_of_puts. split; [done|]. rewrite sent_split. set_solver. }
  exists k. split; [done|]. split; [done|]. intros d Hx.
  by eapply mem_read_length, Hd.
Qed.

Lemma this_notify :
  ∃ bm', notify (x_pipe st) r (f1 ++ f2) =
      Some (x_pipe (completed st r n b f1 f2 bm')) ∧
    lm_wf bm' ∧
    ∀ x q, bufmap_at bm' x = Some q ↔
           bufmap_at (p_bufmap (x_pipe st)) x = Some q ∧ buf q ≠ t_batch_buf r.
Proof.
  destruct flight_this as (Hop & Hput & _).
  pose proof Hput as (_ & Hdp & Hmx & Hes & _ & Hlen & HleB & _).
  destruct (notify_put_ok (x_pipe st) r (f1 ++ f2) Hop (inv_bwf _ _ _ _ Hi))
    as (bm' & Hn & Hwf & Hbm); [|exact Hes| |by exists bm'].
  - intros x p Hp Hb. destruct (this_local _ _ Hp Hb) as (k & Hk & Ho & _).
    apply batch_lookup_range in Hk; [|done]. unfold in_local_buf. rewrite Hdp, Hmx, Ho.
    rewrite (proj2 (Z.eqb_eq _ _)) by done. lia.
  - intros x (p & Hp & Hb). destruct (this_local _ _ Hp Hb) as (k & Hk & _).
    apply (batch_lookup_in 0). by eexists.
Qed.

Hypothesis Hwf : lm_wf bm.
Hypothesis Hbm : ∀ x q, bufmap_at bm x = Some q ↔
  bufmap_at (p_bufmap (x_pipe st)) x = Some q ∧ buf q ≠ t_batch_buf r.

Lemma completed_live :
  sent (x_pipe (completed st r n b f1 f2 bm)) ++ pending (x_pipe (completed st r n b f1 f2 bm)) = rest.
Proof. unfold sent, rest, completed. simpl. by rewrite fmap_app, <- app_assoc. Qed.

(** What a durable object holds does not change when another one arrives. *)
Lemma completed_durable x d :
  bufmap_at bm x = None → D x = Some d →
  match objmap_at (om_map (x_om st)) x with
  | None => d = zeros 512
  | Some oo =>
    obj oo ∉ seqs ∧
    ∃ c, rados_obj (write (x_store st) n b).2 (oname name (obj oo)) = Some c ∧
      slice (Z.to_nat (512 * offset oo)) 512 c = d
  end.
Proof.
  intros Hb Hd. destruct flight_this as (_ & _ & Hn & Hs & _). unfold write. simpl.
  destruct (bufmap_at (p_bufmap (x_pipe st)) x) as [p|] eqn:Ep.
  - assert (buf p = t_batch_buf r) as Hbuf.
    { destruct (decide (buf p = t_batch_buf r)) as [|Hne]; [done|].
      rewrite (proj2 (Hbm x p)) in Hb; done. }
    destruct (inv_sent _ _ _ _ Hi r n b x p d) as (k & -> & Hk); auto.
    { rewrite Hfl. set_solver. }
    simpl. split; [apply this_seq_fresh|]. rewrite Hn, rados_write_same. eexists. split; [done|].
    destruct (this_local _ _ Ep Hbuf) as (_ & _ & _ & Hl). specialize (Hl _ Hd).
    rewrite <- Hk in Hl |- *. by apply slice_full_app.
  - pose proof (inv_durable _ _ _ _ Hi x d Ep Hd) as Hx.
    destruct (objmap_at (om_map (x_om st)) x) as [oo|] eqn:Eo; [|done].
    destruct Hx as (Hni & c & Hc & Hsl). unfold sent in Hni. rewrite Hfl, fmap_app, fmap_cons in Hni.
    simpl in Hni. unfold seqs. rewrite fmap_app. split; [set_solver|].
    exists c. split; [|done]. rewrite Hn, rados_write_other; [done|]. intros Heq.
    apply (inv_objs _ _ _ _ Hi) in Eo as [Ho _]. apply oname_inj in Heq as [_ Heq]; [|lia|lia].
    apply Hni. rewrite <- Heq. set_solver.
Qed.

Lemma completed_inv : inv (completed st r n b f1 f2 bm) D.
Proof.
  split; try rewrite completed_live;
  unfold completed; cbn [x_om x_pipe x_cur_seq x_checkpoints x_clones x_superblock_buf x_store
    p_heap p_bufmap p_current p_queue p_flight p_next_buf]; try apply Hi; try done.
  - apply Forall_forall. intros r' Hr'.
    pose proof (proj1 (Forall_forall _ _) (inv_pend _ _ _ _ Hi) r' Hr') as Hok.
    unfold req_ok in *. destruct (t_op r') eqn:Hop; auto. apply put_ok_free; auto. set_solver.
  - apply Forall_forall. intros [[r' n'] b'] Hf.
    pose proof (proj1 (Forall_forall _ _) (inv_flight _ _ _ _ Hi) (r', n', b')) as Hok.
    destruct Hok as (Hop & Hput & Hok); [rewrite Hfl; set_solver|].
    split; [done|]. split; [|done]. apply put_ok_free; auto. unfold rest. rewrite app_assoc, <- fmap_app.
    apply elem_of_app. left. apply list_elem_of_fmap. by exists (r', n', b').
  - apply this_buf_fresh.
  - apply this_seq_fresh.
  - intros x p Hp. apply Hbm in Hp as [Hp Hne].
    destruct (inv_buf _ _ _ _ Hi _ _ Hp) as (r' & k & Hr' & Hb & Hk & Ho & Hd).
    exists r', k. split_and!; auto.
    + apply elem_of_puts in Hr' as [Hop Hr']. apply elem_of_puts. split; [done|].
      rewrite sent_split in Hr'. apply elem_of_cons in Hr' as [->|]; [congruence|done].
    + intros d Hx. rewrite <- (Hd d Hx). apply read_cells_ext. intros c [Hc _]%elem_of_cells.
      apply free_other. simpl in Hc. congruence.
  - intros l1 r' l2 x Heq Hx. destruct (inv_pending _ _ _ _ Hi l1 r' l2 x Heq Hx) as (p & Hp & Hin).
    exists p. split; [|done]. apply Hbm. split; [done|].
    apply list_elem_of_fmap in Hin as (r2 & -> & [Hop Hr2]%elem_of_puts).
    apply rest_buf; [|done]. unfold rest. change (pending (x_pipe st) = l1 ++ r' :: l2) in Heq.
    rewrite Heq. set_solver.
  - intros r' n' b' x p d Hf Hp. apply Hbm in Hp as [Hp _]. apply (inv_sent _ _ _ _ Hi r' n' b'); auto.
    rewrite Hfl. set_solver.
  - intros x d. apply completed_durable.
Qed.
End one.

(** A completion does not fail and keeps the invariant. *)
Lemma complete_inv st D i :
  inv st D → x_cur_seq st ≤ 2 ^ 31 → (i < length (p_flight (x_pipe st)))%nat →
  ∃ st', complete st i = Some st' ∧ inv st' D ∧ x_cur_seq st' = x_cur_seq st.
Proof.
  intros Hi Hlim [[[r n] b] Hf]%lookup_lt_is_Some_2. unfold complete. rewrite Hf.
  apply lookup_split in Hf as (f1 & f2 & Hfl & Hlen).
  cbn [mbind option_bind]. rewrite Hfl, delete_middle' by done.
  destruct (this_notify st D r n b f1 f2 Hi Hlim Hfl) as (bm & -> & Hwf & Hbm).
  cbn [mbind option_bind]. eexists. split; [reflexivity|]. split; [|done].
  by apply (completed_inv st D r n b f1 f2 bm).
Qed.
End completion.
