(* ===== verification/Refine.v ===== *)
(** * The translation layer refines a disk

    The remaining steps of the layer (trim, submission, flush, checkpoints) keep
    the invariant of Pipeline; together with writes, batches and completions they
    form the step relation [step].  In every state reachable from a freshly
    opened image a read returns what the abstract disk holds, no operation fails,
    and a flush leaves nothing behind.

    [step] has no garbage collection: no step puts a collection request on the
    queue, reaps or deletes the objects of a cycle.  Collector puts the collector's
    thread beside it. *)

From S2P Require Import Prelude Bytes Extent ExtMapFlat ExtMapSpec Memory SmartIov.
From S2P Require Import LsvdTypes Backend Objects Serialise DataObject Config Translate Accounting.
From S2P Require Import Pipeline Completion.

Lemma wrap_u32_ok z : u32_ok (wrap_u 32 z).
Proof. unfold u32_ok. pose proof (wrap_u_range 32 z). lia. Qed.

Lemma new_mapentry_fits lba len obj offset : fits (new_mapentry lba len obj offset).
Proof.
  pose proof (wrap_s_range 36 lba). pose proof (wrap_s_range 28 len).
  pose proof (wrap_s_range 32 obj). pose proof (wrap_s_range 32 offset). simpl. lia.
Qed.

(** The list of checkpoints *)

Lemma keep_last_3_ok (l : list Z) :
  l = (keep_last_3 l).1 ++ (keep_last_3 l).2 ∧ (length (keep_last_3 l).2 ≤ 3)%nat.
Proof. unfold keep_last_3. simpl. rewrite take_drop. split; [done|]. len. Qed.

Lemma kept_ckpts (l : list Z) cp c : c ∈ (keep_last_3 (l ++ [cp])).2 → c ∈ l ∨ c = cp.
Proof.
  intros Hc. destruct (keep_last_3_ok (l ++ [cp])) as [Heq _].
  assert (c ∈ l ++ [cp]) as Hc' by (rewrite Heq; set_solver). set_solver.
Qed.

Lemma last_kept (l : list Z) cp :
  last (keep_last_3 (l ++ [cp])).2 = Some cp ∧ (length (keep_last_3 (l ++ [cp])).2 ≤ 3)%nat.
Proof.
  split; [|apply keep_last_3_ok]. unfold keep_last_3. simpl. rewrite length_app. simpl.
  rewrite drop_app_le by lia. apply last_snoc.
Qed.

Section refine.
Context {M : Type} {HM : LbaMap M obj_offset}.
Context {MB : Type} {HB : LbaMap MB sector_ptr}.
Context {S : Type} {HS : Rados S} {HSok : RadosOk S}.
Context {RC : Type}.
Variable insert_object : RC → string → Z → bytes → RC.
Variable crc32 : bytes → Z.
Variable cfg : lsvd_config.
Variables (name : string) (uuid : bytes) (vol_bytes : Z).

Notation B := (backend_obj_bytes cfg).
Notation HDR := (max_hdr_bytes cfg).
Notation state := (@xstate M MB S RC).
Notation inv := (inv cfg name).
Notation read_sector := (read_sector name).
Notation worker_step := (worker_step insert_object crc32 cfg name uuid vol_bytes).
Implicit Types (D : disk) (st : state) (h : heap) (r : translate_req).

(** ** Trim *)

(** A trim leaves the contents of its sectors unspecified. *)
Definition disk_trim D (base limit : Z) : disk := λ x,
  if in_range base limit x then None else D x.

Lemma trim_inv st D off len :
  inv st D → 0 ≤ off → off / 512 < (off + len) / 512 →
  ∃ st', trim st off len = Some st' ∧
    inv st' (disk_trim D (off / 512) ((off + len) / 512)) ∧ x_cur_seq st' = x_cur_seq st.
Proof.
  intros Hi Ho Hl. unfold trim.
  destruct (trim_objmap_ok (x_om st) off len (inv_live _ _ _ _ Hi) Ho Hl) as (om & -> & Hlive & Hmap).
  cbn [mbind option_bind]. eexists. split; [reflexivity|]. split; [|done].
  unfold with_om, disk_trim. split; cbn [x_om x_pipe x_cur_seq x_checkpoints x_clones x_superblock_buf x_store];
    try apply Hi; try done.
  - intros x p. rewrite Hmap. destruct (in_range _ _ x); [done|]. apply Hi.
  - intros x p Hp. destruct (inv_buf _ _ _ _ Hi _ _ Hp) as (r & k & ? & ? & ? & ? & Hd).
    exists r, k. split_and!; auto. intros d. destruct (in_range _ _ x); [done|]. apply Hd.
  - intros r n b x p d Hf Hp Hb. rewrite Hmap. destruct (in_range _ _ x); [done|].
    by apply (inv_sent _ _ _ _ Hi r n b x p d).
  - intros x d Hp. rewrite Hmap. destruct (in_range _ _ x); [done|]. by apply (inv_durable _ _ _ _ Hi).
Qed.

(** ** The pending requests *)

(** Inserting a request that writes nothing. *)
Lemma pending_insert a z c l1 r l2 x :
  t_op z ≠ REQ_PUT → t_entries z = [] → a ++ z :: c = l1 ++ r :: l2 →
  is_Some (batch_lookup 0 (t_entries r) x) →
  ∃ l1' l2', a ++ c = l1' ++ r :: l2' ∧ bufs (r :: l2') = bufs (r :: l2).
Proof.
  intros Hz He Heq Hx. apply app_eq_inv in Heq as [(k & -> & Heq)|(k & -> & Heq)].
  - destruct k as [|r' k]; simpl in Heq; injection Heq as -> ->.
    + rewrite He in Hx. by destruct Hx.
    + exists l1, (k ++ c). rewrite <- app_assoc. split; [done|].
      rewrite app_comm_cons, (app_comm_cons k _ r'), !bufs_app. f_equal.
      unfold bufs, puts at 2. by rewrite filter_cons_False.
  - destruct k as [|z' k]; simpl in Heq; injection Heq as -> ->.
    + rewrite He in Hx. by destruct Hx.
    + exists (a ++ k), l2. by rewrite <- app_assoc.
Qed.

Lemma bufs_insert a z c : t_op z ≠ REQ_PUT → bufs (a ++ z :: c) = bufs (a ++ c).
Proof. intros. rewrite !bufs_app. f_equal. unfold bufs, puts. by rewrite filter_cons_False. Qed.

Lemma puts_insert a z c : t_op z ≠ REQ_PUT → puts (a ++ z :: c) = puts (a ++ c).
Proof. intros. rewrite !puts_app. f_equal. unfold puts. by rewrite filter_cons_False. Qed.

(** The same state with another queue. *)
Definition requeue st (q : list translate_req) (sq : Z) : state :=
  let p := x_pipe st in
  mk_xstate (x_om st)
    (mk_pipeline (p_heap p) (p_next_buf p) (p_bufmap p) (p_current p) q (p_flight p)
       (p_outstanding p))
    sq (x_checkpoints st) (x_clones st) (x_refcount st) (x_superblock_buf st)
    (x_rcache st) (x_store st).

(** Requests that carry no data may come and go. *)
Lemma requeue_inv st D q sq :
  inv st D → x_cur_seq st ≤ sq →
  Forall (req_ok cfg (p_heap (x_pipe st)) (p_next_buf (x_pipe st))) q →
  puts (q ++ [p_current (x_pipe st)]) = puts (pending (x_pipe st)) →
  (∀ l1 r l2 x, q ++ [p_current (x_pipe st)] = l1 ++ r :: l2 →
     is_Some (batch_lookup 0 (t_entries r) x) →
     ∃ l1' l2', pending (x_pipe st) = l1' ++ r :: l2' ∧ bufs (r :: l2') = bufs (r :: l2)) →
  inv (requeue st q sq) D.
Proof.
  intros Hi Hsq Hq Hputs Hsplit. pose proof (inv_seq _ _ _ _ Hi) as Hseq.
  assert (∀ l, puts (l ++ q ++ [p_current (x_pipe st)]) = puts (l ++ pending (x_pipe st))) as Hp
    by (intros l; by rewrite !puts_app, <- Hputs, puts_app).
  unfold requeue. split; unfold sent, pending;
    cbn [x_om x_pipe x_cur_seq x_checkpoints x_clones x_superblock_buf x_store
         p_heap p_bufmap p_current p_queue p_flight p_next_buf]; try apply Hi; try done.
  - lia.
  - intros x p Hx. apply (inv_objs _ _ _ _ Hi) in Hx as [? ?]. split; [lia|done].
  - eapply Forall_impl; [apply (inv_ckpts _ _ _ _ Hi)|]. simpl. lia.
  - apply Forall_app. split; [done|]. apply Forall_singleton.
    apply (proj1 (Forall_forall _ _) (inv_pend _ _ _ _ Hi)). unfold pending. set_solver.
  - eapply Forall_impl; [apply (inv_flight _ _ _ _ Hi)|]. intros f Hf.
    eapply flight_ok_mono; [exact Hf|lia|lia|done|auto].
  - unfold bufs. rewrite Hp. apply (inv_bufs _ _ _ _ Hi).
  - intros x p Hx. rewrite Hp. apply (inv_buf _ _ _ _ Hi _ _ Hx).
  - intros l1 r l2 x Heq Hx. destruct (Hsplit l1 r l2 x Heq Hx) as (l1' & l2' & Heq' & <-).
    by apply (inv_pending _ _ _ _ Hi l1' r l2').
Qed.

Lemma dequeue_inv st D z q sq :
  inv st D → x_cur_seq st ≤ sq → p_queue (x_pipe st) = z :: q → t_op z ≠ REQ_PUT →
  inv (requeue st q sq) D.
Proof.
  intros Hi Hsq Hq Hz. pose proof (inv_pend _ _ _ _ Hi) as HP. unfold pending in HP.
  rewrite Hq in HP. apply Forall_cons in HP as [_ HP]. apply Forall_app in HP as [HP _].
  apply requeue_inv; auto; unfold pending; rewrite Hq; simpl.
  - unfold puts. by rewrite filter_cons_False.
  - intros l1 r l2 x -> _. by exists (z :: l1), l2.
Qed.

Lemma submit_inv st D op :
  cfg_ok cfg → inv st D → op = REQ_FLUSH ∨ op = REQ_CKPT →
  inv (with_pipe st (submit cfg op (x_pipe st))) D.
Proof.
  intros Hcfg Hi Hop. unfold submit. set (p := if 0 <? _ then _ else _).
  assert (inv (with_pipe st p) D) as Hi1.
  { unfold p. destruct (0 <? _); [by apply put_current_inv|by destruct st]. }
  set (z := new_req op [] []).
  assert (t_op z ≠ REQ_PUT) as Hz by (destruct Hop as [->| ->]; done).
  apply (requeue_inv (with_pipe st p) D (p_queue p ++ [z]) (x_cur_seq st)); simpl; auto; try done.
  - pose proof (inv_pend _ _ _ _ Hi1) as HP. apply Forall_app in HP as [HP _].
    apply Forall_app. split; [done|]. apply Forall_singleton.
    unfold z, req_ok. by destruct Hop as [->| ->].
  - rewrite <- app_assoc. by apply puts_insert.
  - intros l1 r l2 x. rewrite <- app_assoc. by apply pending_insert.
Qed.

Lemma flush_tick_inv st D seq0 cur b :
  cfg_ok cfg → inv st D → inv (with_pipe st (flush_tick cfg (x_pipe st) seq0 cur b)) D.
Proof.
  intros Hcfg Hi. unfold flush_tick. destruct (_ && _); [by apply put_current_inv|by destruct st].
Qed.

(** ** The client's memory *)

(** The client may store into its own memory, allocations up to 0, at any time. *)
Definition with_heap st h : state :=
  let p := x_pipe st in
  with_pipe st (mk_pipeline h (p_next_buf p) (p_bufmap p) (p_current p) (p_queue p)
                  (p_flight p) (p_outstanding p)).

Lemma client_inv st D h :
  inv st D → (∀ c, 0 < c.1 → h !! c = p_heap (x_pipe st) !! c) → inv (with_heap st h) D.
Proof.
  intros Hi Hh. unfold with_heap, with_pipe. split; cbn [x_om x_pipe x_cur_seq x_checkpoints x_clones x_superblock_buf x_store
         p_heap p_bufmap p_current p_queue p_flight p_next_buf]; try apply Hi; try done.
  - eapply Forall_impl; [apply (inv_pend _ _ _ _ Hi)|]. intros r Hr.
    eapply req_ok_mono; [exact Hr|lia|]. intros c Hc ?. rewrite Hh; [done|lia].
  - eapply Forall_impl; [apply (inv_flight _ _ _ _ Hi)|]. intros f Hf.
    eapply flight_ok_mono; [exact Hf|lia|lia|done|]. intros c Hc ?. rewrite Hh; [done|lia].
  - intros x p Hp. destruct (inv_buf _ _ _ _ Hi _ _ Hp) as (r & k & Hr & Hb & Hk & Ho & Hd).
    exists r, k. split_and!; auto. intros d Hx. rewrite <- (Hd d Hx).
    apply read_cells_ext. intros c [Hc _]%elem_of_cells. apply Hh.
    pose proof (live_buf_bound _ _ _ _ _ Hi Hr). simpl in Hc. lia.
Qed.
(** ** Checkpoints *)

(** A checkpoint of less than 2 GiB *)
Definition ckpt_fits st : Prop :=
  84 + 16 * (Z.of_nat (length (lm_pieces (om_map (x_om st)))) +
             Z.of_nat (length (sorted_info (om_info (x_om st))))) < 2 ^ 31 - 512.

Lemma delete_objs_other (s : S) cs n :
  (∀ c, c ∈ cs → oname name c ≠ n) → rados_obj (delete_objs name s cs) n = rados_obj s n.
Proof.
  revert s. induction cs as [|c cs IH]; intros s Hc; [done|]. unfold delete_objs in *. simpl.
  rewrite IH by set_solver. unfold delete_obj. apply rados_remove_other. apply Hc. set_solver.
Qed.

(** The entries and the object table of a checkpoint *)
Definition ckpt_entries st : list ckpt_mapentry :=
  (λ '(base, limit, ptr), new_mapentry base (limit - base) (obj ptr) (offset ptr)) <$>
  lm_pieces (om_map (x_om st)).
Definition ckpt_objects st : list ckpt_obj :=
  (λ '(o, oi), mk_ckpt_obj (wrap_u 32 o) (wrap_u 32 (oi_hdr oi)) (wrap_u 32 (oi_data oi))
                 (wrap_u 32 (oi_live oi))) <$> sorted_info (om_info (x_om st)).

Lemma ckpt_entries_fit st : Forall fits (ckpt_entries st).
Proof. apply Forall_fmap, Forall_forall. intros [[base limit] ptr] _. apply new_mapentry_fits. Qed.

Lemma ckpt_objects_fit st : Forall fits (ckpt_objects st).
Proof. apply Forall_fmap, Forall_forall. intros [o oi] _. simpl. split_and!; apply wrap_u32_ok. Qed.

(** The superblock names the checkpoints that are kept, and the new checkpoint
    is in the backend; data objects are not touched. *)
Definition checkpointed st (cp_seq : Z) (ckpts : list Z) (store : S) : Prop :=
  (∀ o, 0 ≤ o < 2 ^ 32 → o ≠ cp_seq → o ∉ x_checkpoints st →
        rados_obj store (oname name o) = rados_obj (x_store st) (oname name o)) ∧
  (∃ b tail, serialise_checkpoint cp_seq 0 (ckpt_entries st) (ckpt_objects st) uuid = Some b ∧
     rados_obj store (oname name cp_seq) = Some (b ++ tail)) ∧
  (∃ sb tail, serialise_superblock (x_superblock_buf st) ckpts [] uuid vol_bytes = Some sb ∧
     rados_obj store name = Some (sb ++ tail)).

(** What a checkpoint leaves behind. *)
Lemma write_checkpoint_wf st cp_seq :
  uuid_ok uuid → 0 ≤ vol_bytes < 2 ^ 64 → ckpt_fits st →
  live_ok (x_om st) → x_clones st = [] → clones_len_zero (x_superblock_buf st) →
  0 ≤ cp_seq < 2 ^ 31 → Forall (λ c, 0 ≤ c < cp_seq) (x_checkpoints st) →
  ∃ sb store, let ckpts := (keep_last_3 (x_checkpoints st ++ [cp_seq])).2 in
    write_checkpoint name uuid vol_bytes st cp_seq =
      Some (mk_xstate (x_om st) (x_pipe st) (x_cur_seq st) ckpts (x_clones st)
              (x_refcount st) sb (x_rcache st) store) ∧
    clones_len_zero sb ∧ checkpointed st cp_seq ckpts store.
Proof.
  intros Hu Hv Hfit Hlive Hcl Hsbuf Hcp Hck. unfold write_checkpoint, checkpointed.
  destruct (lm_all_ok (om_map (x_om st))) as [-> _]; [apply Hlive|].
  cbn [mbind option_bind]. fold (ckpt_entries st) (ckpt_objects st).
  destruct (serialise_checkpoint_ok cp_seq 0 (ckpt_entries st) (ckpt_objects st) uuid)
    as (b & n & -> & _); auto using ckpt_entries_fit, ckpt_objects_fit.
  { unfold u32_ok. lia. }
  { unfold u64_ok. lia. }
  { unfold ckpt_entries, ckpt_objects. rewrite !length_fmap. exact Hfit. }
  cbn [mbind option_bind].
  destruct (keep_last_3_ok (x_checkpoints st ++ [cp_seq])) as [Heq Hl].
  assert (∀ c, c ∈ (keep_last_3 (x_checkpoints st ++ [cp_seq])).1 → c ∈ x_checkpoints st) as Hdel.
  { unfold keep_last_3. simpl. rewrite length_app. simpl. intros c Hc.
    rewrite take_app_le in Hc by lia.
    apply elem_of_take in Hc as (i & Hc & _). by eapply list_elem_of_lookup_2. }
  destruct (keep_last_3 _) as [del ckpts]. simpl in Heq, Hl, Hdel |- *.
  rewrite Hcl.
  destruct (serialise_superblock_ok (x_superblock_buf st) ckpts uuid vol_bytes)
    as (sb & -> & Hsb & _); auto; [|lia|].
  { apply Forall_forall. intros c Hc. assert (c ∈ x_checkpoints st ++ [cp_seq]) as Hc' by (rewrite Heq; set_solver).
    apply elem_of_app in Hc' as [Hc'|?%list_elem_of_singleton]; [|unfold u32_ok; lia].
    apply (proj1 (Forall_forall _ _) Hck) in Hc'. unfold u32_ok. lia. }
  cbn [mbind option_bind]. eexists _, _. split; [reflexivity|]. split; [exact Hsb|].
  assert (∀ c, c ∈ del → 0 ≤ c < cp_seq) as Hdr
    by (intros c Hc; by apply (proj1 (Forall_forall _ _) Hck), Hdel).
  unfold write. simpl. split; [|split].
  - intros o Ho Hne Hni. rewrite delete_objs_other.
    + rewrite rados_write_other, rados_write_other; [done| |].
      * intros [_ ?]%oname_inj; [done|lia|lia].
      * apply not_eq_sym, oname_ne.
    + intros c Hc [_ ->]%oname_inj; [by apply Hni, Hdel|specialize (Hdr c Hc); lia|lia].
  - eexists b, _. split; [done|]. rewrite delete_objs_other.
    + rewrite rados_write_other by apply not_eq_sym, oname_ne. apply rados_write_same.
    + intros c Hc [_ ->]%oname_inj; [|specialize (Hdr c Hc); lia|lia]. specialize (Hdr _ Hc). lia.
  - eexists sb, _. split; [done|]. rewrite delete_objs_other.
    + apply rados_write_same.
    + intros c _. apply oname_ne.
Qed.

Lemma write_checkpoint_ok st D cp_seq :
  uuid_ok uuid → 0 ≤ vol_bytes < 2 ^ 64 → ckpt_fits st → inv st D →
  0 ≤ cp_seq < 2 ^ 31 → Forall (λ c, 0 ≤ c < cp_seq) (x_checkpoints st) →
  ∃ sb store, let ckpts := (keep_last_3 (x_checkpoints st ++ [cp_seq])).2 in
    write_checkpoint name uuid vol_bytes st cp_seq =
      Some (mk_xstate (x_om st) (x_pipe st) (x_cur_seq st) ckpts (x_clones st)
              (x_refcount st) sb (x_rcache st) store) ∧
    clones_len_zero sb ∧ checkpointed st cp_seq ckpts store.
Proof. intros ? ? ? Hi ? ?. apply write_checkpoint_wf; auto; apply Hi. Qed.

Lemma worker_ckpt_inv st D z q :
  uuid_ok uuid → 0 ≤ vol_bytes < 2 ^ 64 → ckpt_fits st → inv st D →
  x_cur_seq st < 2 ^ 31 → p_queue (x_pipe st) = z :: q → t_op z ≠ REQ_PUT →
  ∃ st', write_checkpoint name uuid vol_bytes (dequeue st q true) (x_cur_seq st) = Some st' ∧
    inv st' D ∧ x_cur_seq st' = x_cur_seq st + 1.
Proof.
  intros Hu Hv Hfit Hi Hlim Hq Hz. pose proof (inv_seq _ _ _ _ Hi) as Hseq.
  change (dequeue st q true) with (requeue st q (x_cur_seq st + 1)).
  assert (inv (requeue st q (x_cur_seq st + 1)) D) as Hi1 by (eapply dequeue_inv; eauto; lia).
  set (st1 := requeue st q (x_cur_seq st + 1)) in *.
  destruct (write_checkpoint_ok st1 D (x_cur_seq st)) as (sb & store & -> & Hsb & Hst & _); auto.
  { apply (inv_ckpts _ _ _ _ Hi). }
  eexists. split; [reflexivity|]. split; [|done]. set (ck := (keep_last_3 _).2).
  assert (∀ c, c ∈ ck → c ∈ x_checkpoints st ∨ c = x_cur_seq st) as Hck by (intros c; apply kept_ckpts).
  assert (∀ c, c < x_cur_seq st → c ∉ x_checkpoints st → c ∉ ck) as Hni.
  { intros c Hc Hn [?|?]%Hck; [done|lia]. }
  split; cbn [x_om x_pipe x_cur_seq x_checkpoints x_clones x_superblock_buf x_store];
    try apply Hi1; try done.
  - intros x p Hx. apply (inv_objs _ _ _ _ Hi) in Hx as [? ?]. split; [simpl; lia|].
    apply Hni; [lia|done].
  - apply Forall_forall. intros c [Hc|?]%Hck; [|simpl; lia].
    apply (proj1 (Forall_forall _ _) (inv_ckpts _ _ _ _ Hi1) _ Hc).
  - eapply Forall_impl; [apply (inv_flight _ _ _ _ Hi)|]. intros f Hf.
    eapply flight_ok_mono; [exact Hf|simpl; lia|simpl; lia|apply Hni|auto].
  - intros x d Hp Hd. pose proof (inv_durable _ _ _ _ Hi1 x d Hp Hd) as Hx.
    destruct (objmap_at (om_map (x_om st1)) x) as [oo|] eqn:Eo; [|done].
    destruct Hx as (Hn & b & Hb & Hs). split; [done|]. exists b. split; [|done].
    apply (inv_objs _ _ _ _ Hi) in Eo as [? ?]. rewrite Hst; [done|lia|lia|done].
Qed.

(** ** The worker thread *)

Lemma worker_inv st D :
  cfg_ok cfg → uuid_ok uuid → 0 ≤ vol_bytes < 2 ^ 64 → ckpt_fits st → inv st D →
  x_cur_seq st < 2 ^ 31 →
  ∃ o, worker_step st = Some o ∧
    ∀ st', o = Some st' → inv st' D ∧ x_cur_seq st' ≤ x_cur_seq st + 1.
Proof.
  intros Hcfg Hu Hv Hfit Hi Hlim. unfold Translate.worker_step.
  destruct (p_queue (x_pipe st)) as [|z q] eqn:Hq; [by exists None|].
  assert (req_ok cfg (p_heap (x_pipe st)) (p_next_buf (x_pipe st)) z) as Hz.
  { pose proof (inv_pend _ _ _ _ Hi) as HP. unfold pending in HP. rewrite Hq in HP.
    by apply Forall_cons in HP as [? _]. }
  unfold req_ok in Hz. destruct (t_op z) eqn:Hop.
  - destruct (worker_put_inv insert_object crc32 cfg name uuid st D z q) as (st' & Hw & Hi'); auto.
    exists (Some st'). rewrite Hw. split; [done|]. intros ? [= <-]. split; [done|].
    unfold process_batch in Hw. repeat (apply bind_Some in Hw as (? & _ & Hw); repeat case_match).
    by simplify_eq/=.
  - destruct (0 <? _); [by exists None|]. eexists. split; [done|]. intros ? [= <-].
    split; [|simpl; lia]. change (dequeue st q false) with (requeue st q (x_cur_seq st)).
    eapply dequeue_inv; eauto; [lia|congruence].
  - destruct (worker_ckpt_inv st D z q) as (st' & -> & Hi' & Hs); auto; [congruence|].
    exists (Some st'). split; [done|]. intros ? [= <-]. split; [done|]. lia.
  - done.
Qed.
(** ** The step relation *)

(** A step of the layer, and of the disk it implements.  The guards of the worker
    are limits of the on-disk formats: sequence numbers of 31 bits and
    checkpoints of less than 2 GiB. *)
Inductive step : state * disk → state * disk → Prop :=
| step_write st D base n iov data p :
    write_ok cfg (p_heap (x_pipe st)) base n iov data →
    writev cfg (x_pipe st) (512 * base) iov = Some p →
    step (st, D) (with_pipe st p, disk_write D base n data)
| step_trim st D off len st' :
    0 ≤ off → off / 512 < (off + len) / 512 → trim st off len = Some st' →
    step (st, D) (st', disk_trim D (off / 512) ((off + len) / 512))
| step_submit st D op :
    op = REQ_FLUSH ∨ op = REQ_CKPT →
    step (st, D) (with_pipe st (submit cfg op (x_pipe st)), D)
| step_flush_tick st D seq0 cur timed_out :
    step (st, D) (with_pipe st (flush_tick cfg (x_pipe st) seq0 cur timed_out), D)
| step_client st D h :
    (∀ c, 0 < c.1 → h !! c = p_heap (x_pipe st) !! c) →
    step (st, D) (with_heap st h, D)
| step_worker st D st' :
    x_cur_seq st < 2 ^ 31 → ckpt_fits st → worker_step st = Some (Some st') →
    step (st, D) (st', D)
| step_complete st D i st' :
    complete st i = Some st' → step (st, D) (st', D).

(** An image that has just been opened: [m], [objinfo] and [ckpts] describe
    objects numbered up to [last_seq]. *)
Definition opened st : Prop :=
  ∃ h m last_seq objinfo ckpts rc store,
    st = init_translate cfg h lm_empty m last_seq [] objinfo ckpts rc store ∧
    live_ok (x_om st) ∧ - 1 ≤ last_seq < 2 ^ 31 ∧
    (∀ x p, objmap_at m x = Some p → 0 ≤ obj p ≤ last_seq ∧ obj p ∉ ckpts) ∧
    Forall (λ c, 0 ≤ c ≤ last_seq) ckpts.

(** The disk an opened image represents: unspecified where an object is missing. *)
Definition reachable st D : Prop :=
  ∃ st0, opened st0 ∧ rtc step (st0, read_sector st0) (st, D).

Lemma zeros_clones_len : clones_len_zero (zeros 4096).
Proof. eexists. split; [vm_compute; reflexivity|reflexivity]. Qed.

Lemma opened_inv st : cfg_ok cfg → opened st → inv st (read_sector st) ∧ x_cur_seq st ≤ 2 ^ 31.
Proof.
  intros Hcfg (h & m & ls & oi & ck & rc & store & -> & Hlive & Hls & Hobj & Hck).
  unfold init_translate in *. cbn [x_om x_cur_seq] in *. split; [|simpl; lia].
  assert (∀ x, bufmap_at (lm_empty (M:=MB)) x = None) as Hemp.
  { intros x. unfold bufmap_at. by rewrite (proj2 lm_empty_ok). }
  pose proof (new_put_ok cfg h 1 Hcfg ltac:(lia)) as Hput. unfold new_put in *. cbn [fst snd] in Hput.
  split; unfold sent, pending, read_sector;
    cbn [x_om x_pipe x_cur_seq x_checkpoints x_clones x_superblock_buf x_store
         p_heap p_bufmap p_current p_queue p_flight p_next_buf om_map app fmap list_fmap]; try done.
  - apply lm_empty_ok.
  - lia.
  - intros x p Hx. apply Hobj in Hx as [? ?]. split; [lia|done].
  - eapply Forall_impl; [exact Hck|]. simpl. lia.
  - apply zeros_clones_len.
  - apply Forall_singleton. exact Hput.
  - apply NoDup_singleton.
  - constructor.
  - intros x p. by rewrite Hemp.
  - intros l1 r l2 x Heq Hx. destruct l1 as [|? [|]]; simplify_eq/=. by destruct Hx.
  - intros r n b x p d Hf%elem_of_nil. done.
  - intros x d _. rewrite Hemp.
    destruct (objmap_at m x) as [oo|]; [|by intros [= <-]].
    intros (b & Hb & [= <-])%bind_Some. split; [apply not_elem_of_nil|]. by exists b.
Qed.

Section system.
Hypothesis Hcfg : cfg_ok cfg.
Hypothesis Huuid : uuid_ok uuid.
Hypothesis Hvol : 0 ≤ vol_bytes < 2 ^ 64.

Lemma step_inv st D st' D' :
  step (st, D) (st', D') → inv st D ∧ x_cur_seq st ≤ 2 ^ 31 →
  inv st' D' ∧ x_cur_seq st' ≤ 2 ^ 31.
Proof.
  intros Hst [Hi Hlim]. inversion Hst; subst.
  - destruct (write_inv cfg name st D base n iov data) as (p' & Hp & Hi'); auto.
    split; [|done]. by simplify_eq.
  - destruct (trim_inv st D off len Hi) as (st1 & Ht & Hi' & Hs); auto. simplify_eq.
    split; [done|lia].
  - split; [by apply submit_inv|done].
  - split; [by apply flush_tick_inv|done].
  - split; [by apply client_inv|done].
  - destruct (worker_inv st D') as (o & Hw & Ho); auto. simplify_eq.
    destruct (Ho _ eq_refl). split; [done|lia].
  - destruct (complete_inv cfg name st D' i) as (st1 & Hc & Hi' & Hs); auto.
    { match goal with H : complete _ _ = Some _ |- _ =>
        unfold complete in H; apply bind_Some in H as (f & Hf & _) end.
      by eapply lookup_lt_Some. }
    simplify_eq. split; [done|lia].
Qed.

Lemma steps_inv a b :
  rtc step a b → inv a.1 a.2 ∧ x_cur_seq a.1 ≤ 2 ^ 31 → inv b.1 b.2 ∧ x_cur_seq b.1 ≤ 2 ^ 31.
Proof.
  induction 1 as [|[st D] [st' D'] b Hs _ IH]; [done|]. intros Hi. apply IH.
  by apply (step_inv st D).
Qed.

Lemma reachable_inv st D : reachable st D → inv st D ∧ x_cur_seq st ≤ 2 ^ 31.
Proof.
  intros (st0 & Ho & Hr). apply (steps_inv _ _ Hr). by apply opened_inv.
Qed.

(** C1: the translation layer refines a disk.  In every state reachable from an
    opened image by client writes and trims, stores of the client into its own
    memory, batch submission, flushes, checkpoints, steps of the worker thread and
    completions in any order, reading a sector through the buffer map, the object
    map and the backend gives exactly what was last written to it; trimmed
    sectors are unspecified.  The collector does not run in these steps (it does in
    [Collector.collector_refines_disk]). *)
Theorem translation_refines_disk st D :
  reachable st D → ∀ x d, D x = Some d → read_sector st x = Some d.
Proof. intros [Hi _]%reachable_inv x d. by apply (inv_read cfg name). Qed.

(** C15: inside the limits of the formats, no operation of the translation layer
    faults (no assertion fails, no access leaves its allocation).  In every state
    reachable by the steps of the layer, so without garbage collection and from
    writes of at least a page: a write of whole sectors of the client's memory, at
    least a page and at most a batch long, inside the volume ([write_ok]), succeeds; so
    does a trim that covers a whole sector; so does the worker, when the sequence
    number is below 2^31 and a checkpoint has less than 2 GiB ([ckpt_fits]); and so does the completion of every outstanding PUT.  Smaller
    writes can fault ([batch_header_underflow]). *)
Theorem translation_no_fault st D :
  reachable st D →
  (∀ base n iov data, write_ok cfg (p_heap (x_pipe st)) base n iov data →
     is_Some (writev cfg (x_pipe st) (512 * base) iov)) ∧
  (∀ off len, 0 ≤ off → off / 512 < (off + len) / 512 → is_Some (trim st off len)) ∧
  (x_cur_seq st < 2 ^ 31 → ckpt_fits st → is_Some (worker_step st)) ∧
  (∀ i, (i < length (p_flight (x_pipe st)))%nat → is_Some (complete st i)).
Proof.
  intros [Hi Hlim]%reachable_inv. split_and!.
  - intros base n iov data Hw. destruct (write_inv cfg name st D base n iov data) as (p & -> & _); eauto.
  - intros off len ? ?. destruct (trim_inv st D off len Hi) as (st' & -> & _); eauto.
  - intros ? ?. destruct (worker_inv st D) as (o & -> & _); eauto.
  - intros i ?. destruct (complete_inv cfg name st D i) as (st' & -> & _); eauto.
Qed.

(** ** Flushes *)

(** What the backend alone says about a sector. *)
Definition durable_sector st (x : Z) : option bytes :=
  match objmap_at (om_map (x_om st)) x with
  | Some oo =>
    b ← rados_obj (x_store st) (oname name (obj oo));
    Some (slice (Z.to_nat (512 * offset oo)) 512 b)
  | None => Some (zeros 512)
  end.

Definition out_ok st : Prop :=
  p_outstanding (x_pipe st) = Z.of_nat (length (p_flight (x_pipe st))).

Lemma put_current_out (p : pipeline MB) :
  p_outstanding (put_current cfg p) = p_outstanding p ∧ p_flight (put_current cfg p) = p_flight p.
Proof. done. Qed.

Lemma writev_out (p p' : pipeline MB) off iov :
  writev cfg p off iov = Some p' →
  p_outstanding p' = p_outstanding p ∧ p_flight p' = p_flight p.
Proof.
  unfold writev. set (p1 := if room _ _ then _ else _).
  assert (p_outstanding p1 = p_outstanding p ∧ p_flight p1 = p_flight p) as [<- <-]
    by (unfold p1; by destruct (room _ _)).
  intros ([[h cur] ptr] & _ & Hw)%bind_Some. apply bind_Some in Hw as (_ & _ & Hw).
  apply bind_Some in Hw as ([bm del] & _ & [= <-]). done.
Qed.

Lemma worker_out st st' D :
  inv st D → worker_step st = Some (Some st') → out_ok st → out_ok st'.
Proof.
  unfold Translate.worker_step, out_ok. intros Hi. pose proof (inv_pend _ _ _ _ Hi) as HP.
  unfold pending in HP. destruct (p_queue (x_pipe st)) as [|z q] eqn:Hq; [done|].
  apply Forall_cons in HP as [Hz _]. unfold req_ok in Hz. destruct (t_op z) eqn:Hop.
  - intros (s1 & Hw & [= ->])%bind_Some. unfold process_batch in Hw.
    repeat (apply bind_Some in Hw as (? & _ & Hw); repeat case_match). simplify_eq/=.
    intros Ho. rewrite length_app. simpl. lia.
  - destruct (0 <? _); [done|]. by intros [= <-].
  - intros (s1 & Hw & [= ->])%bind_Some. unfold write_checkpoint in Hw.
    repeat (apply bind_Some in Hw as (? & _ & Hw); repeat case_match). by simplify_eq/=.
  - done.
Qed.

Lemma complete_out st st' i D :
  inv st D → complete st i = Some st' → out_ok st → out_ok st'.
Proof.
  unfold complete, out_ok. intros Hi ([[r n] b] & Hf & Hc)%bind_Some Ho.
  assert (t_op r = REQ_PUT) as Hop.
  { apply (proj1 (Forall_forall _ _) (inv_flight _ _ _ _ Hi) (r, n, b)).
    by eapply list_elem_of_lookup_2. }
  apply bind_Some in Hc as (p & Hn & [= <-]). unfold notify in Hn. rewrite Hop in Hn.
  apply bind_Some in Hn as (exts & _ & Hn). apply bind_Some in Hn as (bm & _ & [= <-]).
  simpl. rewrite length_delete by (by eexists). apply lookup_lt_Some in Hf. lia.
Qed.

Lemma step_out st D st' D' :
  step (st, D) (st', D') → inv st D → out_ok st → out_ok st'.
Proof.
  intros Hst Hi Ho. inversion Hst; subst; unfold out_ok in *; simpl in *.
  - match goal with H : writev _ _ _ _ = _ |- _ => destruct (writev_out _ _ _ _ H) as [-> ->] end. done.
  - match goal with H : trim _ _ _ = _ |- _ =>
      unfold trim in H; apply bind_Some in H as (om & _ & [= <-]) end. done.
  - unfold submit. by destruct (0 <? _).
  - unfold flush_tick. by destruct (_ && _).
  - done.
  - by eapply worker_out.
  - by eapply complete_out.
Qed.

Lemma steps_out a b :
  rtc step a b → inv a.1 a.2 ∧ x_cur_seq a.1 ≤ 2 ^ 31 → out_ok a.1 → out_ok b.1.
Proof.
  induction 1 as [|[st D] [st' D'] b Hs _ IH]; [done|]. intros Hi Ho. apply IH.
  - by apply (step_inv st D).
  - apply (step_out _ _ _ _ Hs); [apply Hi|done].
Qed.

Lemma reachable_out st D : reachable st D → out_ok st.
Proof.
  intros (st0 & Ho & Hr). apply (steps_out _ _ Hr).
  - by apply opened_inv.
  - by destruct Ho as (? & ? & ? & ? & ? & ? & ? & -> & _).
Qed.

(** C13: a flush is a barrier.  When the worker thread completes a flush request,
    no PUT is outstanding, and every sector is in the backend with the contents
    of the disk, except sectors written again by a batch that was submitted
    after the flush or is still open. *)
Theorem flush_makes_durable st D z q st' :
  reachable st D → p_queue (x_pipe st) = z :: q → t_op z = REQ_FLUSH →
  worker_step st = Some (Some st') →
  p_flight (x_pipe st') = [] ∧
  ∀ x d, D x = Some d →
    Forall (λ r, batch_lookup 0 (t_entries r) x = None) (pending (x_pipe st')) →
    durable_sector st' x = Some d.
Proof.
  intros Hr Hq Hop. pose proof (reachable_out _ _ Hr) as Ho.
  apply reachable_inv in Hr as [Hi _]. unfold Translate.worker_step. rewrite Hq, Hop.
  destruct (0 <? _) eqn:E; [done|]. zb. intros [= <-]. simpl.
  assert (p_flight (x_pipe st) = []) as Hfl.
  { apply nil_length_inv. unfold out_ok in Ho. lia. }
  split; [done|]. intros x d Hd Hnone.
  assert (bufmap_at (p_bufmap (x_pipe st)) x = None) as Hb.
  { apply eq_None_not_Some. intros [p Hp].
    destruct (inv_buf _ _ _ _ Hi _ _ Hp) as (r & k & [Hput Hin]%elem_of_puts & _ & Hk & _).
    unfold sent, pending in Hin. rewrite Hfl, Hq in Hin. simpl in Hin.
    apply elem_of_cons in Hin as [->|Hin]; [congruence|].
    rewrite (proj1 (Forall_forall _ _) Hnone r Hin) in Hk. done. }
  pose proof (inv_durable _ _ _ _ Hi x d Hb Hd) as Hx. unfold durable_sector. simpl.
  destruct (objmap_at (om_map (x_om st)) x) as [oo|]; [|by subst].
  destruct Hx as (_ & b & -> & <-). done.
Qed.
End system.
End refine.

(** ** A concrete system *)

Definition demo_cells : list addr := cells_at (0, 0) 4096.
Definition demo_heap : heap := foldr (λ c h, <[c := 7]> h) ∅ demo_cells.
Definition demo_iov : SmartIov.smartiov := SmartIov.of_buf (0, 0) 4096.
Definition demo_uuid : bytes := replicate 16 1.
Definition demo_store : gmap string bytes := {[oname "vol" 1 := replicate (38 * 512) 5]}.

Definition demo_state : xstate :=
  init_translate (MB := @ExtMap.Extmap.extmap sector_ptr) get_default demo_heap lm_empty demo_map 2 []
    (om_info demo_om) [] tt demo_store.

Lemma demo_cfg_ok : cfg_ok get_default.
Proof. repeat split; vm_compute; discriminate. Qed.

Lemma demo_objs x p : objmap_at demo_map x = Some p → 0 ≤ obj p ≤ 2 ∧ obj p ∉ ([] : list Z).
Proof.
  intros Hx. split; [|apply not_elem_of_nil]. unfold objmap_at in Hx.
  apply vs_denote_piece in Hx as (b & l & q & Hin & _ & ->). simpl.
  assert (Forall (λ v, 0 ≤ obj v.2 ≤ 2) (lm_pieces demo_map)) as HF
    by (repeat constructor; vm_compute; discriminate).
  exact (proj1 (Forall_forall _ _) HF _ Hin).
Qed.

Lemma demo_opened : opened get_default demo_state.
Proof.
  eexists _, _, 2, _, _, _, _. split; [reflexivity|].
  split; [exact demo_om_live|]. split; [lia|]. split; [exact demo_objs|constructor].
Qed.

Lemma demo_contents : SmartIov.contents demo_heap demo_iov = Some (replicate 4096 7).
Proof. vm_compute. reflexivity. Qed.

Lemma demo_write_ok :
  write_ok get_default (p_heap (x_pipe demo_state)) 8 8 demo_iov (replicate 4096 7).
Proof.
  assert (512 * 8 ≤ backend_obj_bytes get_default) as HB by (vm_compute; discriminate).
  assert (Z.of_nat (SmartIov.bytes_of demo_iov) = 512 * 8) as Hn by (vm_compute; done).
  split; [lia|]. split; [lia|]. split; [exact HB|]. split; [unfold VOL_LIMIT; lia|].
  split; [exact Hn|]. split.
  - change (p_heap (x_pipe demo_state))
      with (malloc demo_heap 1 (Z.to_nat (backend_obj_bytes get_default + max_hdr_bytes get_default))).
    rewrite contents_malloc; [exact demo_contents|lia|].
    intros c Hc. unfold demo_iov, SmartIov.of_buf in Hc. rewrite SmartIov.cells_cons in Hc.
    apply elem_of_app in Hc as [[-> _]%elem_of_cells|Hc%elem_of_nil]; [simpl; lia|done].
  - intros c Hc. unfold demo_iov, SmartIov.of_buf in Hc. rewrite SmartIov.cells_cons in Hc.
    apply elem_of_app in Hc as [[-> _]%elem_of_cells|Hc%elem_of_nil]; [simpl; lia|done].
Qed.

Definition demo_insert (rc : unit) (_ : string) (_ : Z) (_ : bytes) : unit := rc.
Definition demo_crc32 (b : bytes) : Z := sum_list_Z b mod 2 ^ 32.
Local Notation demo_reachable :=
  (reachable demo_insert demo_crc32 get_default "vol" demo_uuid (2 ^ 30)).

Lemma demo_params : uuid_ok demo_uuid ∧ 0 ≤ 2 ^ 30 < 2 ^ 64.
Proof. split; [reflexivity|lia]. Qed.

(** The image after one page has been written at sector 8. *)
Lemma demo_written :
  ∃ p, writev get_default (x_pipe demo_state) (512 * 8) demo_iov = Some p ∧
    demo_reachable (with_pipe demo_state p)
      (disk_write (read_sector "vol" demo_state) 8 8 (replicate 4096 7)).
Proof.
  destruct (opened_inv get_default "vol" _ demo_cfg_ok demo_opened) as [Hi _].
  destruct (write_inv get_default "vol" _ _ _ _ _ _ demo_cfg_ok Hi demo_write_ok) as (p & Hw & _).
  exists p. split; [exact Hw|]. exists demo_state. split; [apply demo_opened|].
  apply rtc_once. apply step_write with (iov := demo_iov); [apply demo_write_ok|exact Hw].
Qed.

(** The image when a flush has been submitted. *)
Definition demo_flush : xstate :=
  with_pipe demo_state (submit get_default REQ_FLUSH (x_pipe demo_state)).

Lemma demo_flush_reachable : demo_reachable demo_flush (read_sector "vol" demo_state).
Proof.
  exists demo_state. split; [apply demo_opened|]. apply rtc_once, step_submit. by left.
Qed.

Lemma demo_read : read_sector "vol" demo_state 3 = Some (replicate 512 5).
Proof.
  unfold read_sector. change (p_bufmap (x_pipe demo_state)) with
    (lm_empty (M := @ExtMap.Extmap.extmap sector_ptr)).
  change (om_map (x_om demo_state)) with demo_map.
  change (x_store demo_state) with demo_store.
  assert (bufmap_at (lm_empty (M := @ExtMap.Extmap.extmap sector_ptr)) 3 = None) as -> by reflexivity.
  assert (objmap_at demo_map 3 = Some (mk_obj_offset 1 11)) as -> by (vm_compute; reflexivity).
  cbn [obj offset]. unfold demo_store. cbn [rados_obj gmap_rados].
  rewrite lookup_singleton_eq. vm_compute. reflexivity.
Qed.

Lemma translation_refines_disk_witness :
  ∃ p, writev get_default (x_pipe demo_state) (512 * 8) demo_iov = Some p ∧
    read_sector "vol" (with_pipe demo_state p) 8 = Some (replicate 512 7) ∧
    read_sector "vol" (with_pipe demo_state p) 3 = Some (replicate 512 5).
Proof.
  destruct demo_written as (p & Hw & Hr). exists p. split; [exact Hw|].
  split; eapply (translation_refines_disk _ _ _ _ _ _ demo_cfg_ok (proj1 demo_params)
                   (proj2 demo_params) _ _ Hr).
  - reflexivity.
  - exact demo_read.
Defined.

Lemma translation_no_fault_witness :
  is_Some (writev get_default (x_pipe demo_flush) (512 * 8) demo_iov) ∧
  is_Some (worker_step demo_insert demo_crc32 get_default "vol" demo_uuid (2 ^ 30) demo_flush).
Proof.
  destruct (translation_no_fault _ _ _ _ _ _ demo_cfg_ok (proj1 demo_params) (proj2 demo_params)
              _ _ demo_flush_reachable) as (H1 & _ & H3 & _).
  split; [by eapply H1, demo_write_ok|]. apply H3; [done|].
  unfold ckpt_fits. change (x_om demo_flush) with (x_om demo_state).
  change (om_map (x_om demo_state)) with demo_map.
  change (om_info (x_om demo_state)) with (om_info demo_om). vm_compute. reflexivity.
Defined.

Lemma flush_makes_durable_witness :
  ∃ st', worker_step demo_insert demo_crc32 get_default "vol" demo_uuid (2 ^ 30) demo_flush =
      Some (Some st') ∧
    durable_sector "vol" st' 3 = Some (replicate 512 5).
Proof.
  eexists. split; [reflexivity|].
  destruct (flush_makes_durable _ _ _ _ _ _ demo_cfg_ok (proj1 demo_params) (proj2 demo_params)
              _ _ (new_req REQ_FLUSH [] []) [] (dequeue demo_flush [] false) demo_flush_reachable)
    as [_ Hd]; [reflexivity|reflexivity|reflexivity|].
  apply Hd; [exact demo_read|]. repeat constructor.
Defined.

Lemma insert_cells_other cs (v : Z) c :
  (∀ d : addr, d ∈ cs → d.1 = 0) → c.1 ≠ 0 →
  foldr (λ d (h : heap), <[d := v]> h) ∅ cs !! c = None.
Proof.
  intros Hcs Hc. induction cs as [|d cs IH]; [done|]. simpl. rewrite lookup_insert_ne.
  - apply IH. intros d' Hd'. apply Hcs. by right.
  - intros ->. apply Hc, Hcs. left.
Qed.

Lemma demo_heap_client c : c.1 ≠ 0 → demo_heap !! c = None.
Proof.
  intros Hc. apply insert_cells_other; [|done]. unfold demo_cells.
  intros d [-> _]%elem_of_cells. done.
Qed.

(** A batch of 4096 writes of 2 KiB, with the default configuration. *)
Definition demo_small_batch : translate_req :=
  mk_translate_req REQ_PUT 1 (max_hdr_bytes get_default) (4096 * 2048) (4096 * 2048) []
    (replicate 4096 (mk_ckpt_mapentry 0 4 0 0)) 0.

