(* ===== verification/Gc.v ===== *)
(** * Garbage collection (src/src/translate.cc: do_gc, write_gc)

    A cycle of the collector: objects without live data are deleted ([reap]);
    the least utilised objects are read into a file and their live extents cut
    into requests ([gc_plan]); the worker revalidates each request and writes
    what is still live into a new object ([write_gc], in Translate); when all
    requests are done the old objects are forgotten, a checkpoint is written
    and they are deleted ([gc_forget], [gc_delete]).

    Proved: a request preserves the contents of every sector it moves and
    touches no other, also when writes and trims happened since it was made;
    when the last request is done nothing refers to the collected objects;
    reaping removes no object that is mapped.  Collector runs the cycle beside the
    layer and proves that its deletions are safe. *)

From stdpp Require Import sorting.
From S2P Require Import Prelude Bytes Extent ExtMapFlat ExtMapSpec Memory SmartIov.
From S2P Require Import LsvdTypes Backend Objects Serialise DataObject Config Translate Accounting.
From S2P Require Import Pipeline Completion Refine.

(** ** The rest of do_gc *)

Section gc.
Context {M : Type} {HM : LbaMap M obj_offset}.
Context {MB : Type} {HB : LbaMap MB sector_ptr}.
Context {S : Type} {HS : Rados S}.
Context {RC : Type}.
Variable cfg : lsvd_config.
Variable name : string.

Notation state := (@xstate M MB S RC).

(** The state with another store and other accounting. *)
Definition with_info (st : state) (info : gmap Z data_obj_info) (total_sectors : Z)
    (store : S) : state :=
  mk_xstate (mk_omap (om_map (x_om st)) info total_sectors (om_total_live (x_om st)))
    (x_pipe st) (x_cur_seq st) (x_checkpoints st) (x_clones st) (x_refcount st)
    (x_superblock_buf st) (x_rcache st) store.

(** Delete the objects [os] that have no outstanding read. *)
Fixpoint delete_unpinned (clones : list clone_base) (rc : gmap Z Z) (os : list Z) (store : S)
    : option S :=
  match os with
  | [] => Some store
  | o :: os =>
    match rc !! o with
    | Some _ => delete_unpinned clones rc os store
    | None =>
      pf ← prefix name clones o;
      delete_unpinned clones rc os (delete_obj store (oname pf o)).2
    end
  end.

Definition data_of (info : gmap Z data_obj_info) (o : Z) : Z :=
  match info !! o with Some oi => oi_data oi | None => 0 end.

(** The first part of [do_gc]: every dead object leaves [object_info], whether
    or not it could be deleted. *)
Definition reap (st : state) : option state :=
  let info := om_info (x_om st) in
  let dead := dead_objects info in
  store ← delete_unpinned (x_clones st) (x_refcount st) dead (x_store st);
  Some (with_info st (foldr delete info dead)
          (om_total_sectors (x_om st) - sum_list_Z (data_of info <$> dead)) store).

(** Newest checkpoint, or the current sequence number when there is none. *)
Definition last_ckpt (st : state) : Z := default (x_cur_seq st) (last (x_checkpoints st)).

(** Read the objects into the temporary file: the file, and where each object
    is in it.  [buf] is the read buffer, reused from object to object. *)
Fixpoint gc_file (clones : list clone_base) (store : S) (objs : list (Z * Z)) (offset : Z)
    (buf : bytes) : option (gmap Z Z * bytes) :=
  match objs with
  | [] => Some (∅, [])
  | (i, sectors) :: objs =>
    pf ← prefix name clones i;
    let '(_, buf) := Backend.read store (oname pf i) 0 buf (Z.to_nat (sectors * 512)) in
    '(fm, file) ← gc_file clones store objs (offset + sectors) buf;
    Some (<[i := offset]> fm, take (Z.to_nat (sectors * 512)) buf ++ file)
  end.

(** One request: the data of its extents from the file, and its entries. *)
Fixpoint gc_request (fm : gmap Z Z) (file : bytes) (exts : list (Z * Z * obj_offset))
    : option (bytes * list ckpt_mapentry) :=
  match exts with
  | [] => Some ([], [])
  | (base, limit, ptr) :: exts =>
    let file_sector := default 0 (fm !! obj ptr) + offset ptr in
    let sectors := limit - base in
    _ ← assert ((file_sector + sectors) * 512 <=? Z.of_nat (length file));
    '(data, entries) ← gc_request fm file exts;
    Some (slice (Z.to_nat (file_sector * 512)) (Z.to_nat (sectors * 512)) file ++ data,
          new_mapentry base (limit - base) (obj ptr) (offset ptr) :: entries)
  end.

(** From the choice of the objects to the requests: the objects, and the
    requests in the order in which they are queued. *)
Definition gc_plan (st : state) : option (list (Z * Z) * list translate_req) :=
  let objs := objs_to_clean (gc_threshold_pc cfg) (last_ckpt st) (om_info (x_om st)) in
  let max_obj_sectors := foldr Z.max 0 (snd <$> objs) in
  ps ← lm_all (om_map (x_om st));
  live ← live_extents (x_cur_seq st) (fst <$> objs) ps (lm_empty (M := M));
  all ← lm_all live;
  '(fm, file) ← gc_file (x_clones st) (x_store st) objs 0
                  (zeros (Z.to_nat (max_obj_sectors * 512)));
  batches ← gc_batches (length all) (backend_obj_bytes cfg / 512) all;
  reqs ← mapM (gc_request fm file) batches;
  Some (objs, (λ '(data, entries), new_req REQ_GC data entries) <$> reqs).

(** [workers->put_locked(req)] *)
Definition gc_enqueue (st : state) (r : translate_req) : state :=
  let p := x_pipe st in
  with_pipe st (mk_pipeline (p_heap p) (p_next_buf p) (p_bufmap p) (p_current p)
                  (p_queue p ++ [r]) (p_flight p) (p_outstanding p)).

(** "defer deletes until we've cleaned the whole batch" *)
Definition gc_forget (st : state) (objs : list Z) : state :=
  let info := om_info (x_om st) in
  with_info st (foldr delete info objs)
    (om_total_sectors (x_om st) - sum_list_Z (data_of info <$> objs)) (x_store st).

(** After the checkpoint: the collected objects are deleted. *)
Definition gc_delete (st : state) (objs : list Z) : option state :=
  store ← delete_unpinned (x_clones st) (x_refcount st) objs (x_store st);
  Some (with_info st (om_info (x_om st)) (om_total_sectors (x_om st)) store).
End gc.

(** ** The requests *)

Lemma gc_batches_ok (max : Z) (exts : list (Z * Z * obj_offset)) :
  0 < max →
  ∃ bs, gc_batches (length exts) max exts = Some bs ∧ mjoin bs = exts ∧
    Forall (λ b, ∃ b' e, b = b' ++ [e] ∧ sum_list_Z ((λ e, e.1.2 - e.1.1) <$> b') < max) bs.
Proof.
  intros Hmax.
  assert (∀ exts sectors, let '(b, r) := gc_batch max sectors exts in
    b ++ r = exts ∧ (sectors < max → exts ≠ [] → b ≠ []) ∧
    (b = [] ∨ ∃ b' e, b = b' ++ [e] ∧ sectors + sum_list_Z ((λ e, e.1.2 - e.1.1) <$> b') < max)) as Hb.
  { intros es. induction es as [|[[b l] p] es IH]; intros sectors; simpl; [by auto|].
    destruct (sectors <? max) eqn:E; zb.
    - specialize (IH (sectors + (l - b))). destruct (gc_batch _ _ es) as [b1 r1].
      destruct IH as (<- & _ & Hb1). split; [done|]. split; [done|]. right.
      destruct Hb1 as [->|(b' & e & -> & Hs)].
      + exists [], (b, l, p). split; [done|]. simpl. lia.
      + exists ((b, l, p) :: b'), e. split; [done|]. rewrite fmap_cons. cbn [sum_list_Z foldr fst snd]. fold (sum_list_Z ((λ e0 : Z * Z * obj_offset, e0.1.2 - e0.1.1) <$> b')). lia.
    - split; [done|]. split; [lia|by left]. }
  remember (length exts) as n eqn:Hn. assert (length exts ≤ n)%nat as Hle by lia. clear Hn.
  revert exts Hle. induction n as [|n IH]; intros exts Hle.
  - destruct exts; [|simpl in Hle; lia]. by exists [].
  - destruct exts as [|e exts]; [by exists []|].
    specialize (Hb (e :: exts) 0). cbn [gc_batches].
    destruct (gc_batch max 0 (e :: exts)) as [b r]. destruct Hb as (Heq & Hne & Hlast).
    destruct Hlast as [->|(b' & e' & -> & Hs)]; [by destruct Hne|].
    destruct (IH r) as (bs & -> & <- & Hbs).
    { apply (f_equal length) in Heq. rewrite !length_app in Heq. simpl in *. lia. }
    cbn [mbind option_bind]. exists ((b' ++ [e']) :: bs). split; [done|]. split; [exact Heq|].
    constructor; [|done]. exists b', e'. split; [done|]. by rewrite Z.add_0_l in Hs.
Qed.

(** Splitting the live extents terminates, loses nothing and keeps their
    order: with as much fuel as there are extents [gc_batches] returns requests
    whose concatenation is the list of all extents; no request is empty, and each
    had fewer than [max] sectors before its last extent was added. *)
Theorem gc_batches_split (max : Z) (exts : list (Z * Z * obj_offset)) :
  0 < max →
  ∃ bs, gc_batches (length exts) max exts = Some bs ∧ mjoin bs = exts ∧
    Forall (λ b, ∃ b' e, b = b' ++ [e] ∧ sum_list_Z ((λ e, e.1.2 - e.1.1) <$> b') < max) bs.
Proof. apply gc_batches_ok. Qed.

Lemma gc_batches_split_witness :
  ∃ bs, gc_batches 3 8 [(0, 5, mk_obj_offset 1 8); (7, 12, mk_obj_offset 2 8); (20, 21, mk_obj_offset 1 30)] =
      Some bs ∧ mjoin bs = [(0, 5, mk_obj_offset 1 8); (7, 12, mk_obj_offset 2 8); (20, 21, mk_obj_offset 1 30)] ∧
    Forall (λ b, ∃ b' e, b = b' ++ [e] ∧ sum_list_Z ((λ e, e.1.2 - e.1.1) <$> b') < 8) bs.
Proof.
  apply (gc_batches_split 8 [(0, 5, mk_obj_offset 1 8); (7, 12, mk_obj_offset 2 8); (20, 21, mk_obj_offset 1 30)]).
  reflexivity.
Defined.

(** ** Revalidation *)

Section revalidate.
Context {M : Type} {HM : LbaMap M obj_offset}.
Implicit Types (m : M) (f : Z → bytes).

(** The data of a request: [f x] is the contents of sector [x] when the request
    was made. *)
Fixpoint data_ok f (es : list ckpt_mapentry) (data : bytes) : Prop :=
  match es with
  | [] => True
  | e :: es =>
    (512 * Z.to_nat (me_len e) ≤ length data)%nat ∧
    (∀ x, me_lba e ≤ x < me_lba e + me_len e →
          slice (Z.to_nat (512 * (x - me_lba e))) 512 data = f x) ∧
    data_ok f es (drop (512 * Z.to_nat (me_len e)) data)
  end.

(** A sector of the request that has not been written or trimmed since. *)
Definition gc_valid m (es : list ckpt_mapentry) (x : Z) : Prop :=
  ∃ e p, e ∈ es ∧ me_lba e ≤ x < me_lba e + me_len e ∧
    objmap_at m x = Some p ∧ obj p = me_obj e.

(** A piece that is copied: its range and its data. *)
Definition piece_ok f (d : data_map * bytes) : Prop :=
  0 ≤ dm_lba d.1 ∧ 0 < dm_len d.1 < 2 ^ 27 ∧ dm_lba d.1 + dm_len d.1 ≤ VOL_LIMIT ∧
  length d.2 = Z.to_nat (512 * dm_len d.1) ∧
  ∀ x, dm_lba d.1 ≤ x < dm_lba d.1 + dm_len d.1 →
       slice (Z.to_nat (512 * (x - dm_lba d.1))) 512 d.2 = f x.

Definition in_piece (x : Z) (d : data_map * bytes) : Prop :=
  dm_lba d.1 ≤ x < dm_lba d.1 + dm_len d.1.

Lemma gc_pieces_ok f m e data ps lo :
  entry_ok e → me_lba e ≤ lo → pieces_in lo (me_lba e + me_len e) ps →
  length data = Z.to_nat (me_len e * 512) →
  (∀ x, me_lba e ≤ x < me_lba e + me_len e →
        slice (Z.to_nat (512 * (x - me_lba e))) 512 data = f x) →
  Forall (piece_ok f) (gc_pieces (me_lba e) (me_obj e) data ps) ∧
  ∀ x, Exists (in_piece x) (gc_pieces (me_lba e) (me_obj e) data ps) ↔
       ∃ p, vs_denote ps x = Some p ∧ obj p = me_obj e.
Proof.
  intros He Hlo Hps Hl Hf. revert lo Hlo Hps.
  induction ps as [|[[b l] ptr] ps IH]; intros lo Hlo; simpl.
  - intros _. split; [constructor|]. intros x. rewrite Exists_nil. naive_solver.
  - intros (Hb & Hbl & Hs & Hps). destruct (IH l) as [IH1 IH2]; [lia|done|].
    pose proof (pieces_in_le _ _ _ Hps) as Hle. unfold entry_ok, VOL_LIMIT in He.
    assert (∀ x, (in_range b l x = true ∧ obj (p_add ptr (x - b)) = me_obj e ∨
                  in_range b l x = false ∧ ∃ p, vs_denote ps x = Some p ∧ obj p = me_obj e) ↔
                 ∃ p, vs_denote ((b, l, ptr) :: ps) x = Some p ∧ obj p = me_obj e) as Hcase.
    { intros x. cbn [vs_denote v_denote]. destruct (in_range b l x); naive_solver. }
    assert (∀ x p, vs_denote ps x = Some p → l ≤ x) as Hps_lo.
    { intros x p (b' & l' & q & Hin & Hx & _)%vs_denote_piece.
      pose proof (pieces_in_range _ _ _ _ _ _ Hps Hin). lia. }
    destruct (obj ptr =? me_obj e) eqn:E; zb.
    + split.
      * constructor; [|done]. unfold piece_ok. simpl. rewrite !wrap_u_id by lia.
        split_and!; try lia; [unfold VOL_LIMIT; lia|rewrite length_slice; lia|].
        intros x Hx. rewrite slice_slice by lia. rewrite <- Hf by lia. f_equal; lia.
      * intros x. rewrite Exists_cons, IH2. etransitivity; [|exact (Hcase x)]. unfold in_piece at 1. simpl.
        rewrite !wrap_u_id by lia. split.
        -- intros [Hx|(p & Hp & Ho)]; [left; split; [apply in_range_true; lia|done]|].
           right. split; [apply in_range_false; apply Hps_lo in Hp; lia|by exists p].
        -- intros [[Hx _]|[_ Hx]]; [left; apply in_range_true in Hx; lia|by right].
    + split; [done|]. intros x. rewrite IH2. etransitivity; [|exact (Hcase x)]. split.
      * intros (p & Hp & Ho). right. split; [apply in_range_false; apply Hps_lo in Hp; lia|by exists p].
      * intros [[_ Hx]|[_ Hx]]; [|done]. simpl in Hx. congruence.
Qed.

Lemma gc_collect_ok f m es data :
  lm_wf m → Forall entry_ok es → data_ok f es data →
  ∃ l, gc_collect m es data = Some l ∧ Forall (piece_ok f) l ∧
    ∀ x, Exists (in_piece x) l ↔ gc_valid m es x.
Proof.
  intros Hwf Hes. revert data. induction Hes as [|e es He Hes IH]; intros data Hd; simpl.
  { exists []. split; [done|]. split; [constructor|]. intros x. rewrite Exists_nil.
    split; [done|]. intros (e & p & Hin%elem_of_nil & _). done. }
  destruct Hd as (Hl & Hf & Hd). pose proof He as He'. unfold entry_ok in He'.
  destruct (lm_scan_ok m (me_lba e) (me_lba e + me_len e)) as (ps & -> & Hps & Hden); auto; [lia|].
  cbn [mbind option_bind].
  replace (Z.to_nat (me_len e * 512)) with (512 * Z.to_nat (me_len e))%nat by lia.
  destruct (IH _ Hd) as (l & -> & Hl1 & Hl2). cbn [mbind option_bind].
  destruct (gc_pieces_ok f m e (take (512 * Z.to_nat (me_len e)) data) ps (me_lba e) He)
    as [Hp1 Hp2]; auto; [lia|rewrite length_take_le; lia| |].
  { intros x Hx. rewrite <- Hf by done. rewrite <- (slice_app_l _ _ _ (drop (512 * Z.to_nat (me_len e)) data)).
    - by rewrite take_drop.
    - rewrite length_take_le by lia. lia. }
  eexists. split; [done|]. split; [by apply Forall_app|].
  intros x. rewrite Exists_app, Hp2, Hl2. unfold gc_valid, objmap_at. split.
  - intros [(p & Hp & Ho)|(e' & p & ? & ?)].
    + rewrite Hden in Hp. destruct (in_range _ _ x) eqn:Ex; [|done]. apply in_range_true in Ex.
      exists e, p. split_and!; auto; [left|lia|lia].
    + exists e', p. split; [by right|done].
  - intros (e' & p & Hin & Hx & Hp & Ho). apply elem_of_cons in Hin as [->|Hin].
    + left. exists p. rewrite Hden, (proj2 (in_range_true _ _ _)) by lia. done.
    + right. exists e', p. done.
Qed.

Lemma gc_entries_ok f l :
  Forall (piece_ok f) l →
  gc_entries (fst <$> l) = (λ d, mk_ckpt_mapentry (dm_lba d.1) (dm_len d.1) 0 0) <$> l ∧
  Forall entry_ok (gc_entries (fst <$> l)) ∧
  Z.of_nat (length (mjoin (snd <$> l))) = 512 * sum_len (gc_entries (fst <$> l)).
Proof.
  unfold gc_entries. induction 1 as [|[d b] l Hd Hl (IH1 & IH2 & IH3)]; [done|].
  unfold piece_ok, VOL_LIMIT in Hd. cbn [fst snd] in Hd. destruct Hd as (H0 & Hlen & Hlim & Hb & _).
  rewrite !fmap_cons. rewrite IH1 in *. cbn [fst snd].
  change (mjoin (b :: (snd <$> l))) with (b ++ mjoin (snd <$> l)).
  assert (new_mapentry (dm_lba d) (dm_len d) 0 0 = mk_ckpt_mapentry (dm_lba d) (dm_len d) 0 0) as ->.
  { unfold new_mapentry. rewrite !wrap_s_id by lia. done. }
  split; [done|]. split.
  - constructor; [|done]. unfold entry_ok, VOL_LIMIT. simpl. lia.
  - rewrite sum_len_cons, length_app. cbn [me_len]. lia.
Qed.

(** Where a moved sector is in the new object, and what is there. *)
Lemma gc_lookup_ok f l off x :
  Forall (piece_ok f) l →
  (is_Some (batch_lookup off (gc_entries (fst <$> l)) x) ↔ Exists (in_piece x) l) ∧
  ∀ k, batch_lookup 0 (gc_entries (fst <$> l)) x = Some k →
       slice (Z.to_nat (512 * k)) 512 (mjoin (snd <$> l)) = f x.
Proof.
  intros Hl. destruct (gc_entries_ok f l Hl) as [He _]. rewrite He. clear He. split.
  - rewrite batch_lookup_in, Exists_exists. unfold in_piece. split.
    + intros (e & Hin & Hx). apply list_elem_of_fmap in Hin as (d & -> & Hin). by exists d.
    + intros (d & Hin & Hx). eexists. split; [by apply list_elem_of_fmap_2|]. done.
  - induction Hl as [|[d b] l Hd Hl IH]; intros k; [done|].
    destruct Hd as (H0 & Hlen & Hlim & Hb & Hf). cbn [fst snd] in *.
    rewrite !fmap_cons. cbn [batch_lookup fst snd me_len me_lba].
    change (mjoin (b :: (snd <$> l))) with (b ++ mjoin (snd <$> l)).
    rewrite (batch_lookup_shift (dm_len d)).
    destruct (batch_lookup 0 _ x) as [k'|] eqn:Ek; simpl.
    + intros [= <-]. assert (0 ≤ k') as Hk'.
      { destruct (gc_entries_ok f l Hl) as (He & Hes & _). rewrite He in Hes.
        pose proof (batch_lookup_range _ _ _ _ Hes Ek). lia. }
      rewrite slice_skip by lia. rewrite <- (IH _ eq_refl). f_equal. lia.
    + destruct (in_range _ _ x) eqn:Ex; [|done]. apply in_range_true in Ex. intros [= <-].
      rewrite slice_app_l by lia. rewrite <- Hf by lia. by f_equal.
Qed.

(** ** Ascending ranges *)

Definition entry_range (e : ckpt_mapentry) : Z * Z := (me_lba e, me_len e).
Definition piece_range (d : data_map * bytes) : Z * Z := (dm_lba d.1, dm_len d.1).

Lemma gc_pieces_ascending base o data ps (lo hi : Z) :
  0 ≤ lo → hi ≤ VOL_LIMIT → hi - lo < 2 ^ 27 → pieces_in lo hi ps →
  ascending lo hi (piece_range <$> gc_pieces base o data ps).
Proof.
  intros Hlo Hhi. revert lo Hlo. induction ps as [|[[b l] ptr] ps IH]; intros lo Hlo Hn; simpl; [done|].
  intros (Hb & Hbl & _ & Hps). pose proof (pieces_in_le _ _ _ Hps). unfold VOL_LIMIT in *.
  destruct (_ =? _).
  - simpl. rewrite !wrap_u_id by lia. split_and!; [lia|lia|].
    replace (b + (l - b)) with l by lia. apply IH; auto; lia.
  - apply (ascending_weaken l); [lia|]. apply IH; auto; lia.
Qed.

Lemma gc_collect_ascending m es data l (lo hi : Z) :
  lm_wf m → Forall entry_ok es → ascending lo hi (entry_range <$> es) →
  gc_collect m es data = Some l → ascending lo hi (piece_range <$> l).
Proof.
  intros Hwf Hes. revert lo data l. induction Hes as [|e es He Hes IH]; intros lo data l; simpl.
  { by intros ? [= <-]. }
  intros (Hlo & Hn & Hasc). unfold entry_ok in He.
  destruct (lm_scan_ok m (me_lba e) (me_lba e + me_len e)) as (ps & -> & Hps & _); auto; [lia|].
  cbn [mbind option_bind]. intros (l' & Hl' & [= <-])%bind_Some. rewrite fmap_app.
  apply ascending_app with (mid := me_lba e + me_len e); [|by eapply IH].
  apply (ascending_weaken (me_lba e)); [lia|]. apply gc_pieces_ascending; auto; lia.
Qed.

(** ** The accounting of a request *)

(** Entering ascending ranges removes nothing from the new object itself. *)
Lemma map_entries_fresh sq es : ∀ off m (lo hi : Z) m' del dm,
  lm_wf m → seq_ok sq → Forall entry_ok es → 0 ≤ off → off + sum_len es < OBJ_LIMIT →
  ascending lo hi (entry_range <$> es) →
  (∀ x p, lo ≤ x → objmap_at m x = Some p → obj p ≠ sq) →
  map_entries sq off es m = Some (m', del, dm) → weight (of_obj sq) del = 0.
Proof.
  induction es as [|e es IH]; intros off m lo hi m' del dm Hwf Hs Hes Hoff Hlim; simpl.
  { by intros _ _ [= <- <- <-]. }
  intros (Hlo & Hn & Hasc) Hfresh. apply Forall_cons in Hes as [He Hes].
  unfold entry_ok, VOL_LIMIT in He. rewrite sum_len_cons in Hlim. pose proof (sum_len_nonneg es Hes).
  destruct (obj_make_ok sq off (me_len e) Hs) as [Hmk Hsp]; try lia.
  destruct (lm_update_ok m (me_lba e) (me_lba e + me_len e) (ObjOffset.make sq off))
    as (m1 & del1 & -> & Hwf1 & Hp1 & Hd1 & Hdel & _); auto; try (unfold LBA_LIMIT; lia).
  { by replace (_ + _ - _) with (me_len e) by lia. }
  cbn [mbind option_bind]. intros ([[m2 del2] dm2] & Hm2 & [= <- <- <-])%bind_Some.
  rewrite weight_app.
  rewrite (IH (off + me_len e) m1 _ hi m2 del2 dm2 Hwf1 Hs Hes ltac:(lia) ltac:(lia) Hasc); [| |exact Hm2].
  - rewrite Z.add_0_r. apply weight_none, Forall_forall. intros [[b l] p] Hin. simpl.
    pose proof (pieces_in_range _ _ _ _ _ _ Hp1 Hin) as (? & ? & ? & ?).
    pose proof (pieces_in_denote _ _ _ _ b _ _ Hp1 Hin ltac:(lia)) as Hq.
    rewrite Hdel, (proj2 (in_range_true _ _ _)), Z.sub_diag, (p_add_0 p (l - b)) in Hq by (done || lia).
    apply Z.eqb_neq. eapply (Hfresh b); [lia|exact Hq].
  - intros x p Hx. unfold objmap_at. rewrite Hd1, (proj2 (in_range_false _ _ _)) by lia.
    apply Hfresh. lia.
Qed.

Lemma gc_objmap_ok (om : omap M) sq hdr dms es (hi : Z) :
  live_ok om → seq_ok sq → unused (om_map om) sq → es = gc_entries dms → Forall entry_ok es →
  ascending 0 hi (entry_range <$> es) → 0 ≤ hdr → hdr + sum_len es < OBJ_LIMIT →
  ∃ om', gc_objmap sq hdr (sum_len es) dms om = Some om' ∧ live_ok om' ∧
    (∀ x, objmap_at (om_map om') x =
          match batch_lookup hdr es x with
          | Some k => Some (mk_obj_offset sq k)
          | None => objmap_at (om_map om) x
          end).
Proof.
  intros [Hwf Hl] Hs Hu -> Hes Hasc Hh Hlim. unfold gc_objmap. set (es := gc_entries dms) in *.
  destruct (map_entries_ok sq es hdr (om_map om)) as (m' & del & dm & Hme & Hwf' & Hp & Hd & Hw & _); auto.
  assert (weight (of_obj sq) del = 0) as Hdel0.
  { eapply (map_entries_fresh sq es hdr (om_map om) 0 hi); eauto. }
  rewrite Hme. cbn [mbind option_bind].
  destruct (account_deleted_ok del (om_info om) (om_total_live om)) as (info' & tl' & -> & Hi); auto.
  { intros o oi Ho. specialize (Hw o). pose proof (weight_map_pos m' o Hwf'). rewrite (Hl _ _ Ho).
    destruct (decide (o = sq)) as [->|Hne].
    - rewrite Hdel0. pose proof (weight_map_pos (om_map om) sq Hwf). lia.
    - rewrite (proj2 (Z.eqb_neq _ _)) in Hw by done. lia. }
  cbn [mbind option_bind]. eexists. split; [done|]. split; [split; [done|]|done].
  intros o oi. cbn [om_info om_map]. specialize (Hw o).
  destruct (decide (sq = o)) as [<-|Hne].
  - rewrite lookup_insert_eq. intros [= <-]. simpl. rewrite Z.eqb_refl, Hdel0 in Hw.
    rewrite (unused_weight _ _ Hwf Hu) in Hw. lia.
  - rewrite lookup_insert_ne, Hi by done. rewrite (proj2 (Z.eqb_neq _ _)) in Hw by done.
    destruct (om_info om !! o) as [oi0|] eqn:Eo; [|done]. intros [= <-]. simpl.
    rewrite (Hl _ _ Eo). lia.
Qed.

(** The pieces of a request take no more sectors than the request. *)
Lemma gc_collect_size m es data l (lo hi : Z) :
  lm_wf m → Forall entry_ok es → gc_collect m es data = Some l →
  0 ≤ sum_list_Z ((λ d, dm_len d.1) <$> l) ≤ sum_len es ∧
  Z.of_nat (length l) ≤ sum_len es.
Proof.
  intros Hwf Hes. revert data l. induction Hes as [|e es He Hes IH]; intros data l; simpl.
  { intros [= <-]. done. }
  unfold entry_ok, VOL_LIMIT in He. rewrite sum_len_cons.
  destruct (lm_scan_ok m (me_lba e) (me_lba e + me_len e)) as (ps & -> & Hps & _); auto; [lia|].
  cbn [mbind option_bind]. intros (l' & Hl' & [= <-])%bind_Some. destruct (IH _ _ Hl') as [IH1 IH2].
  rewrite fmap_app, sum_list_Z_app, length_app.
  enough (∀ lo base o data, 0 ≤ lo → me_lba e ≤ lo → pieces_in lo (me_lba e + me_len e) ps →
    0 ≤ sum_list_Z ((λ d, dm_len d.1) <$> gc_pieces base o data ps) ≤ me_lba e + me_len e - lo ∧
    Z.of_nat (length (gc_pieces base o data ps)) ≤ me_lba e + me_len e - lo) as Hx.
  { destruct (Hx (me_lba e) (me_lba e) (me_obj e) (take (Z.to_nat (me_len e * 512)) data)); auto; lia. }
  clear Hps Hl' IH. induction ps as [|[[b q] ptr] ps IHp]; intros lo' base o dt Hlo Hlo'; simpl; [lia|].
  intros (Hb & Hbl & _ & Hps). pose proof (pieces_in_le _ _ _ Hps).
  destruct (IHp q base o dt) as [H1 H2]; [lia|lia|done|].
  destruct (_ =? _); [|lia]. rewrite fmap_cons. cbn [fst dm_len length].
  change (sum_list_Z (?a :: ?b)) with (a + sum_list_Z b). rewrite wrap_u_id by lia. lia.
Qed.
End revalidate.

(** ** Processing a request *)

Section write.
Context {M : Type} {HM : LbaMap M obj_offset}.
Context {MB : Type} {HB : LbaMap MB sector_ptr}.
Context {S : Type} {HS : Rados S}.
Context {RC : Type}.
Variable crc32 : bytes → Z.
Variable cfg : lsvd_config.
Variables (name : string) (uuid : bytes).

Notation state := (@xstate M MB S RC).

Implicit Types (st : state) (f : Z → bytes) (r : translate_req).

(** A request as the collector makes it: ascending ranges with their data. *)
Definition gc_req_ok (f : Z → bytes) (r : translate_req) : Prop :=
  Forall entry_ok (t_entries r) ∧ ascending 0 VOL_LIMIT (entry_range <$> t_entries r) ∧
  sum_len (t_entries r) ≤ 2 ^ 22 ∧ data_ok f (t_entries r) (t_gc_data r).

(** The header of [n] extents fits in the space set aside in front of the data. *)
Definition gc_hdr_fits (n : nat) : Prop :=
  batch_hdr_sectors n ≤ div_round_up (44 + 28 + backend_obj_bytes cfg / 2048 * 8) 512.

Lemma gc_sum_len l :
  Forall (λ d : data_map * bytes, 0 ≤ dm_lba d.1 < 2 ^ 35 ∧ 0 < dm_len d.1 < 2 ^ 27) l →
  sum_len (gc_entries (fst <$> l)) = sum_list_Z ((λ d, dm_len d.1) <$> l).
Proof.
  induction 1 as [|[d b] l [Hd1 Hd2] Hl IH]; [done|]. unfold gc_entries in *. rewrite !fmap_cons.
  cbn [fst] in *. rewrite sum_len_cons, IH. cbn [new_mapentry me_len].
  by rewrite wrap_s_id by lia.
Qed.

(** What a request does to the object map. *)
Lemma gc_om_ok (om : omap M) f sq r l :
  live_ok om → seq_ok sq → unused (om_map om) sq → gc_req_ok f r →
  gc_collect (om_map om) (t_entries r) (t_gc_data r) = Some l →
  let hdr := batch_hdr_sectors (length l) in
  let es := gc_entries (fst <$> l) in
  Forall (λ d : data_map * bytes, 0 ≤ dm_lba d.1 < 2 ^ 35 ∧ 0 < dm_len d.1 < 2 ^ 27) l ∧
  Z.of_nat (length (mjoin (snd <$> l))) = 512 * sum_len es ∧ 0 ≤ sum_len es ≤ 2 ^ 22 ∧
  72 + 8 * Z.of_nat (length l) ≤ hdr * 512 < 2 ^ 28 ∧
  ∃ om', gc_objmap sq hdr (sum_len es) (fst <$> l) om = Some om' ∧ live_ok om' ∧
    (∀ x, gc_valid (om_map om) (t_entries r) x →
       ∃ k, 0 ≤ k < sum_len es ∧ objmap_at (om_map om') x = Some (mk_obj_offset sq (hdr + k)) ∧
         slice (Z.to_nat (512 * k)) 512 (mjoin (snd <$> l)) = f x) ∧
    (∀ x, ¬ gc_valid (om_map om) (t_entries r) x →
       objmap_at (om_map om') x = objmap_at (om_map om) x).
Proof.
  intros Hlive Hs Hu (Hes & Hasc & Hsum & Hdata) Hl. pose proof Hlive as [Hwf _].
  destruct (gc_collect_ok f _ _ _ Hwf Hes Hdata) as (l0 & Hl0 & Hpk & Hval).
  rewrite Hl in Hl0. injection Hl0 as <-.
  pose proof (gc_collect_ascending _ _ _ _ _ _ Hwf Hes Hasc Hl) as Hasc'.
  destruct (gc_collect_size _ _ _ _ 0 0 Hwf Hes Hl) as [Hsz Hn].
  destruct (gc_entries_ok f l Hpk) as (Heq & Hes' & Hlen).
  assert (Forall (λ d : data_map * bytes, 0 ≤ dm_lba d.1 < 2 ^ 35 ∧ 0 < dm_len d.1 < 2 ^ 27) l) as Hb.
  { eapply Forall_impl; [exact Hpk|]. unfold piece_ok, VOL_LIMIT. intros d. lia. }
  rewrite <- (gc_sum_len l Hb) in Hsz. cbv zeta. set (es := gc_entries (fst <$> l)) in *.
  destruct (batch_hdr_sectors_ok (length l)) as [Hh1 Hh2]; [lia|].
  set (hdr := batch_hdr_sectors (length l)) in *.
  split; [done|]. split; [done|]. split; [lia|]. split; [done|].
  destruct (gc_objmap_ok om sq hdr (fst <$> l) es VOL_LIMIT) as (om' & Hom & Hlive' & Hmap); auto;
    [|lia|unfold OBJ_LIMIT; lia|].
  { rewrite Heq, <- list_fmap_compose. exact Hasc'. }
  exists om'. split; [done|]. split; [done|].
  split.
  - intros x Hx. rewrite <- Hval in Hx. destruct (gc_lookup_ok f l 0 x Hpk) as [Hsome Hsl].
    fold es in Hsome, Hsl. apply Hsome in Hx as [k Hk]. exists k.
    split; [pose proof (batch_lookup_range _ _ _ _ Hes' Hk); lia|].
    rewrite Hmap, <- (Z.add_0_l hdr), (batch_lookup_shift hdr), Hk. split; [done|auto].
  - intros x Hx. rewrite <- Hval in Hx. destruct (gc_lookup_ok f l hdr x Hpk) as [Hsome _].
    rewrite Hmap. destruct (batch_lookup hdr es x) eqn:Ek; [|done]. destruct Hx. apply Hsome.
    fold es. rewrite Ek. by eexists.
Qed.

Lemma write_gc_ok st f sq r l :
  live_ok (x_om st) → seq_ok sq → unused (om_map (x_om st)) sq → x_clones st = [] →
  uuid_ok uuid → gc_req_ok f r →
  gc_collect (om_map (x_om st)) (t_entries r) (t_gc_data r) = Some l → gc_hdr_fits (length l) →
  ∃ st' r' b, write_gc crc32 cfg name uuid st sq r = Some st' ∧ live_ok (x_om st') ∧
    x_pipe st' = aio_write (x_pipe st) (p_heap (x_pipe st)) r' (oname name sq) b ∧
    t_op r' = t_op r ∧ t_seq r' = sq ∧
    (∀ x, gc_valid (om_map (x_om st)) (t_entries r) x →
       ∃ k, objmap_at (om_map (x_om st')) x = Some (mk_obj_offset sq k) ∧
         0 ≤ k ∧ 512 * k + 512 ≤ Z.of_nat (length b) ∧ slice (Z.to_nat (512 * k)) 512 b = f x) ∧
    (∀ x, ¬ gc_valid (om_map (x_om st)) (t_entries r) x →
       objmap_at (om_map (x_om st')) x = objmap_at (om_map (x_om st)) x).
Proof.
  intros Hlive Hs Hu Hcl Huuid Hreq Hl Hfit.
  destruct (gc_om_ok _ f sq r l Hlive Hs Hu Hreq Hl)
    as (Hb & Hlen & Hsz & Hh1 & om' & Hom & Hlive' & Hmv & Hsame).
  unfold write_gc. rewrite Hl. cbn [mbind option_bind]. rewrite length_fmap.
  set (es := gc_entries (fst <$> l)) in *. set (hdr := batch_hdr_sectors (length l)) in *.
  replace (Z.of_nat (length (mjoin (snd <$> l))) / 512) with (sum_len es)
    by (rewrite Hlen, Z.mul_comm, Z.div_mul; lia).
  rewrite Hom. cbn [mbind option_bind].
  rewrite assert_true by (apply Z.leb_le; exact Hfit). cbn [mbind option_bind].
  destruct (make_obj_hdr_ok crc32 uuid sq hdr (sum_len es) (fst <$> l) true) as (hb & c & -> & Hlb & _); auto.
  { unfold seq_ok, u32_ok in *. lia. }
  { unfold u32_ok. lia. }
  { lia. }
  { rewrite length_fmap. lia. }
  { apply Forall_fmap. eapply Forall_impl; [exact Hb|]. intros d Hd. simpl in Hd |- *. lia. }
  cbn [mbind option_bind]. rewrite Hcl. cbn [prefix mbind option_bind].
  eexists _, _, _. split; [reflexivity|]. cbn [x_om x_pipe]. split; [done|]. split; [reflexivity|].
  split; [done|]. split; [done|]. split; [|done].
  intros x (k & Hk & Hx & Hsl)%Hmv. exists (hdr + k). split; [done|]. split; [lia|].
  split; [rewrite length_app; lia|]. rewrite slice_skip by lia. rewrite <- Hsl. f_equal. lia.
Qed.

(** C21: a collection request preserves contents, whatever happened since it was
    made.  Let [f] give the contents of its sectors when it was made.  Processing
    it does not fail, keeps the accounting exact, and sends one object; every
    sector of the request that still points into the object it was selected from
    is moved to that object, which holds [f x] at its place; every other sector,
    in particular one written or trimmed in the meantime, keeps its mapping. *)
Theorem gc_write_revalidates st f sq r l :
  live_ok (x_om st) → seq_ok sq → unused (om_map (x_om st)) sq → x_clones st = [] →
  uuid_ok uuid → gc_req_ok f r →
  gc_collect (om_map (x_om st)) (t_entries r) (t_gc_data r) = Some l → gc_hdr_fits (length l) →
  ∃ st' r' b, write_gc crc32 cfg name uuid st sq r = Some st' ∧ live_ok (x_om st') ∧
    p_flight (x_pipe st') = p_flight (x_pipe st) ++ [(r', oname name sq, b)] ∧
    (∀ x, gc_valid (om_map (x_om st)) (t_entries r) x →
       ∃ k, objmap_at (om_map (x_om st')) x = Some (mk_obj_offset sq k) ∧
         slice (Z.to_nat (512 * k)) 512 b = f x) ∧
    (∀ x, ¬ gc_valid (om_map (x_om st)) (t_entries r) x →
       objmap_at (om_map (x_om st')) x = objmap_at (om_map (x_om st)) x).
Proof.
  intros. destruct (write_gc_ok st f sq r l) as (st' & r' & b & Hw & Hlv & Hp & _ & _ & Hmv & Hsame); auto.
  exists st', r', b. rewrite Hp. split_and!; try done.
  intros x (k & Hk & _ & _ & Hsl)%Hmv. by exists k.
Qed.
End write.

(** ** A whole cycle *)

Section cycle.
Context {M : Type} {HM : LbaMap M obj_offset}.
Implicit Types (om : omap M) (objs : list Z) (rs : list translate_req).

(** Every sector still mapped into one of [objs] is in a request that is still
    to be processed, with that object. *)
Definition gc_covered (m : M) objs rs : Prop :=
  ∀ x p, objmap_at m x = Some p → obj p ∈ objs →
    ∃ r e, r ∈ rs ∧ e ∈ t_entries r ∧ me_lba e ≤ x < me_lba e + me_len e ∧ me_obj e = obj p.

(** The object map while a cycle runs: batches of client writes, trims and the
    requests of the cycle, each under a new sequence number. *)
Inductive gc_step objs : omap M * list translate_req → omap M * list translate_req → Prop :=
| gc_step_batch om rs sq hdr es om' dm :
    seq_ok sq → unused (om_map om) sq → sq ∉ objs → Forall entry_ok es → 0 ≤ hdr →
    hdr + sum_len es < OBJ_LIMIT →
    batch_objmap sq hdr (sum_len es) es om = Some (om', dm) →
    gc_step objs (om, rs) (om', rs)
| gc_step_trim om rs off len om' :
    0 ≤ off → off / 512 < (off + len) / 512 → trim_objmap om off len = Some om' →
    gc_step objs (om, rs) (om', rs)
| gc_step_write om r rs f sq l om' :
    seq_ok sq → unused (om_map om) sq → sq ∉ objs → gc_req_ok f r →
    gc_collect (om_map om) (t_entries r) (t_gc_data r) = Some l →
    gc_objmap sq (batch_hdr_sectors (length l)) (sum_len (gc_entries (fst <$> l))) (fst <$> l) om =
      Some om' →
    gc_step objs (om, r :: rs) (om', rs).

Lemma gc_step_ok objs om rs om' rs' :
  gc_step objs (om, rs) (om', rs') →
  live_ok om ∧ gc_covered (om_map om) objs rs →
  live_ok om' ∧ gc_covered (om_map om') objs rs'.
Proof.
  intros Hst [Hlive Hcov]. inversion Hst as [? ? sq hdr es ? dm Hs Hu Hni Hes Hh Hlim Hb
    |? ? off len ? Ho Hl Ht|? r ? f sq l ? Hs Hu Hni Hreq Hl Hgc]; subst.
  - destruct (batch_objmap_ok om sq hdr (sum_len es) es) as (om1 & dm1 & Hb1 & Hlive' & _ & Hmap & _); auto.
    rewrite Hb in Hb1. injection Hb1 as <- <-. split; [done|]. intros x p. rewrite Hmap.
    destruct (batch_lookup hdr es x); [by intros [= <-] ?|]. apply Hcov.
  - destruct (trim_objmap_ok om off len) as (om1 & Ht1 & Hlive' & Hmap); auto.
    rewrite Ht in Ht1. injection Ht1 as <-. split; [done|]. intros x p. rewrite Hmap.
    destruct (in_range _ _ x); [done|]. apply Hcov.
  - destruct (gc_om_ok om f sq r l Hlive Hs Hu Hreq Hl) as (_ & _ & _ & _ & om1 & Hgc1 & Hlive' & Hmv & Hsame).
    rewrite Hgc in Hgc1. injection Hgc1 as <-. split; [done|]. intros x p Hx Ho.
    assert (¬ gc_valid (om_map om) (t_entries r) x) as Hnv.
    { intros Hv. destruct (Hmv x Hv) as (k & _ & Hk & _). rewrite Hx in Hk. injection Hk as ->. done. }
    rewrite (Hsame x Hnv) in Hx. destruct (Hcov x p Hx Ho) as (r' & e & Hr' & He & Hxe & Hoe).
    apply elem_of_cons in Hr' as [->|Hr']; [|by exists r', e].
    destruct Hnv. by exists e, p.
Qed.

Lemma gc_steps_ok objs a b :
  rtc (gc_step objs) a b →
  live_ok a.1 ∧ gc_covered (om_map a.1) objs a.2 → live_ok b.1 ∧ gc_covered (om_map b.1) objs b.2.
Proof.
  induction 1 as [|[om rs] [om' rs'] b Hs _ IH]; [done|]. intros Ha. apply IH.
  by apply (gc_step_ok objs om rs).
Qed.

(** When the last request of a cycle has been processed, nothing is mapped
    into a collected object any more, whatever was written and trimmed while the
    cycle ran: deleting the objects loses no data. *)
Theorem gc_cycle_moves_everything objs om rs om' :
  live_ok om → gc_covered (om_map om) objs rs → rtc (gc_step objs) (om, rs) (om', []) →
  live_ok om' ∧ ∀ x p, objmap_at (om_map om') x = Some p → obj p ∉ objs.
Proof.
  intros Hlive Hcov Hr. destruct (gc_steps_ok _ _ _ Hr) as [Hlive' Hcov']; [done|].
  split; [done|]. intros x p Hx Ho. by destruct (Hcov' x p Hx Ho) as (r & e & Hr'%elem_of_nil & _).
Qed.
End cycle.

(** ** Planning a cycle *)

Section plan.
Context {M : Type} {HM : LbaMap M obj_offset}.
Context {MB : Type} {HB : LbaMap MB sector_ptr}.
Context {S : Type} {HS : Rados S} {HSok : RadosOk S}.
Context {RC : Type}.
Variable cfg : lsvd_config.
Variable name : string.

Notation state := (@xstate M MB S RC).
Implicit Types (st : state) (m : M) (ps : list (Z * Z * obj_offset)).

Definition keep_obj (max : Z) (objects : list Z) (p : obj_offset) : bool :=
  (obj p <=? max) && bool_decide (obj p ∈ objects).

Definition keep_at (max : Z) (objects : list Z) (o : option obj_offset) : option obj_offset :=
  match o with
  | Some p => if keep_obj max objects p then Some p else None
  | None => None
  end.

Lemma pieces_in_below (lo hi x : Z) ps :
  pieces_in lo hi ps → x < lo → vs_denote ps x = None.
Proof.
  intros Hps Hx. apply eq_None_not_Some. intros [q (b & l & p & Hin & Hbl & _)%vs_denote_piece].
  pose proof (pieces_in_range _ _ _ _ _ _ Hps Hin). lia.
Qed.

Lemma live_extents_ok max objects ps : ∀ (lo hi : Z) m,
  lm_wf m → 0 ≤ lo → hi ≤ LBA_LIMIT → pieces_in lo hi ps →
  ∃ m', live_extents max objects ps m = Some m' ∧ lm_wf m' ∧
    ∀ x, vs_denote (lm_pieces m') x =
         match keep_at max objects (vs_denote ps x) with
         | Some p => Some p
         | None => vs_denote (lm_pieces m) x
         end.
Proof.
  induction ps as [|[[b l] p] ps IH]; intros lo hi m Hwf Hlo Hhi; [by exists m|].
  cbn [pieces_in live_extents]. intros (Hb & Hbl & Hs & Hps).
  pose proof (pieces_in_le _ _ _ Hps) as Hle.
  assert (∀ x, in_range b l x = true → vs_denote ps x = None) as Hbelow.
  { intros x Hx%in_range_true. apply (pieces_in_below _ _ _ _ Hps). lia. }
  fold (keep_obj max objects p). destruct (keep_obj max objects p) eqn:E.
  - destruct (lm_update_ok m b l p) as (m1 & del & -> & Hwf1 & _ & Hd1 & _); auto; try lia.
    cbn [mbind option_bind]. destruct (IH l hi m1) as (m2 & -> & Hwf2 & Hd2); auto; [lia|].
    exists m2. split; [done|]. split; [done|]. intros x. rewrite Hd2, Hd1.
    cbn [vs_denote v_denote]. destruct (in_range b l x) eqn:Ex; [|done].
    rewrite (Hbelow x Ex). cbn [keep_at].
    replace (keep_obj max objects (p_add p (x - b))) with (keep_obj max objects p) by done.
    by rewrite E.
  - destruct (IH l hi m) as (m2 & -> & Hwf2 & Hd2); auto; [lia|].
    exists m2. split; [done|]. split; [done|]. intros x. rewrite Hd2.
    cbn [vs_denote v_denote]. destruct (in_range b l x) eqn:Ex; [|done].
    rewrite (Hbelow x Ex). cbn [keep_at].
    replace (keep_obj max objects (p_add p (x - b))) with (keep_obj max objects p) by done.
    by rewrite E.
Qed.

Definition sectors_of (objs : list (Z * Z)) : Z := sum_list_Z (snd <$> objs).

Lemma sectors_of_nonneg objs : (∀ i n, (i, n) ∈ objs → 0 ≤ n) → 0 ≤ sectors_of objs.
Proof.
  induction objs as [|[i n] objs IH]; intros Hn; [done|]. unfold sectors_of in *. rewrite fmap_cons.
  change (sum_list_Z (?a :: ?b)) with (a + sum_list_Z b). cbn [snd].
  pose proof (Hn i n ltac:(left)). apply Z.add_nonneg_nonneg; [done|].
  apply IH. intros i' n' Hin. apply (Hn i'). by right.
Qed.

(** The objects in the backend have the size the accounting says. *)
Definition stored store (i n : Z) (b : bytes) : Prop :=
  0 ≤ n ∧ rados_obj store (oname name i) = Some b ∧ length b = Z.to_nat (n * 512).

Lemma gc_file_ok (store : S) objs : ∀ offset buf,
  NoDup (fst <$> objs) →
  (∀ i n, (i, n) ∈ objs → (Z.to_nat (n * 512) ≤ length buf)%nat ∧ ∃ b, stored store i n b) →
  ∃ fm file, gc_file name [] store objs offset buf = Some (fm, file) ∧
    Z.of_nat (length file) = 512 * sectors_of objs ∧
    ∀ i n, (i, n) ∈ objs → ∃ o b, fm !! i = Some o ∧ offset ≤ o ∧ o - offset + n ≤ sectors_of objs ∧
      stored store i n b ∧ slice (Z.to_nat (512 * (o - offset))) (Z.to_nat (512 * n)) file = b.
Proof.
  induction objs as [|[i n] objs IH]; intros offset buf Hnd Hst; simpl.
  { exists ∅, []. split; [done|]. split; [done|]. intros i n Hin%elem_of_nil. done. }
  apply NoDup_cons in Hnd as [Hni Hnd].
  destruct (Hst i n) as (Hbuf & b & H0 & Hobj & Hlb); [left|].
  rewrite (read_prefix _ _ _ _ b Hobj) by lia.
  rewrite (take_ge b) by lia.
  set (buf' := splice 0 b buf). assert (length buf' = length buf) as Hlb'.
  { unfold buf', splice. len. }
  destruct (IH (offset + n) buf' Hnd) as (fm & file & -> & Hlf & Hin).
  { intros i' n' Hi'. rewrite Hlb'. apply Hst. by right. }
  cbn [mbind option_bind].
  assert (take (Z.to_nat (n * 512)) buf' = b) as ->.
  { unfold buf', splice. rewrite take_0. simpl. rewrite <- Hlb. by rewrite take_app_length. }
  assert (0 ≤ sectors_of objs) as Hnn.
  { apply sectors_of_nonneg. intros i' n' Hi'. destruct (Hst i' n') as (_ & b' & ? & _); [by right|done]. }
  assert (sectors_of ((i, n) :: objs) = n + sectors_of objs) as Hsum by done.
  eexists _, _. split; [done|]. split; [rewrite length_app, Hsum; lia|].
  intros i' n' [[= -> ->]|Hi']%elem_of_cons.
  - exists offset, b. rewrite lookup_insert_eq, Hsum. split_and!; auto; try lia; [done|].
    rewrite Z.sub_diag. apply slice_hit. lia.
  - destruct (Hin _ _ Hi') as (o & b' & Hfm & Ho & Hol & Hb' & Hsl). exists o, b'.
    rewrite Hsum, lookup_insert_ne.
    2:{ intros ->. apply Hni. apply list_elem_of_fmap. by exists (i', n'). }
    split_and!; auto; try lia; try apply Hb'. destruct Hb' as (? & ? & ?).
    rewrite slice_skip by lia. rewrite <- Hsl. f_equal. lia.
Qed.

(** The file holds the data of an extent. *)
Definition ext_in_file (f : Z → bytes) (fm : gmap Z Z) (file : bytes) (e : Z * Z * obj_offset) : Prop :=
  let '(b, l, p) := e in
  entry_ok (mk_ckpt_mapentry b (l - b) (obj p) (offset p)) ∧ seq_ok (obj p) ∧
  0 ≤ offset p < 2 ^ 31 ∧
  ∃ o, fm !! obj p = Some o ∧ 0 ≤ o ∧ (o + offset p + (l - b)) * 512 ≤ Z.of_nat (length file) ∧
    ∀ x, b ≤ x < l → slice (Z.to_nat (512 * (o + offset p + (x - b)))) 512 file = f x.

Definition ext_entry (v : Z * Z * obj_offset) : ckpt_mapentry :=
  mk_ckpt_mapentry v.1.1 (v.1.2 - v.1.1) (obj v.2) (offset v.2).

Lemma gc_request_ok f fm file exts :
  Forall (ext_in_file f fm file) exts →
  ∃ data, gc_request fm file exts =
      Some (data, ext_entry <$> exts) ∧
    data_ok f (ext_entry <$> exts) data.
Proof.
  induction 1 as [|[[b l] p] exts He Hes (data & IH1 & IH2)]; [by exists []|].
  destruct He as (He & Hs & Ho & o & Hfm & Ho0 & Hlen & Hf). unfold entry_ok, VOL_LIMIT, seq_ok in *.
  cbn [gc_request me_lba me_len me_obj me_offset] in *. rewrite Hfm. change (default 0 (Some o)) with o.
  rewrite assert_true by (apply Z.leb_le; exact Hlen). cbn [mbind option_bind]. rewrite IH1.
  cbn [mbind option_bind]. unfold new_mapentry. rewrite !wrap_s_id by lia.
  eexists. split; [done|]. cbn [fmap list_fmap data_ok ext_entry me_lba me_len fst snd].
  assert (length (slice (Z.to_nat ((o + offset p) * 512)) (Z.to_nat ((l - b) * 512)) file) =
    512 * Z.to_nat (l - b))%nat as Hls by (rewrite length_slice; lia).
  split; [rewrite length_app; lia|]. split.
  - intros x Hx. rewrite slice_app_l by lia. rewrite slice_slice by lia. rewrite <- Hf by lia. f_equal. lia.
  - rewrite drop_app_le by lia. rewrite drop_ge by lia. exact IH2.
Qed.

(** ** Pieces of a part of the list *)

Lemma pieces_in_app (lo hi : Z) ps qs :
  pieces_in lo hi (ps ++ qs) → ∃ mid, pieces_in lo mid ps ∧ pieces_in mid hi qs.
Proof.
  revert lo. induction ps as [|[[b l] p] ps IH]; intros lo; cbn [app pieces_in].
  - intros Hq. exists lo. split; [simpl; lia|done].
  - intros (? & ? & ? & (mid & ? & ?)%IH). by exists mid.
Qed.

Lemma pieces_in_batch (lo hi : Z) (bs : list (list (Z * Z * obj_offset))) b :
  pieces_in lo hi (mjoin bs) → b ∈ bs → ∃ lo' hi', lo ≤ lo' ∧ pieces_in lo' hi' b.
Proof.
  revert lo. induction bs as [|b0 bs IH]; intros lo Hps Hin; [by apply elem_of_nil in Hin|].
  apply pieces_in_app in Hps as (mid & Hp1 & Hp2).
  apply elem_of_cons in Hin as [->|Hin]; [by exists lo, mid|].
  destruct (IH mid Hp2 Hin) as (lo' & hi' & ? & ?). exists lo', hi'.
  pose proof (pieces_in_le _ _ _ Hp1). split; [lia|done].
Qed.

Lemma ascending_pieces ps : ∀ (lo hi : Z),
  pieces_in lo hi ps → lo ≤ VOL_LIMIT → Forall (λ v, v.1.2 ≤ VOL_LIMIT) ps →
  ascending lo VOL_LIMIT ((λ v, (v.1.1, v.1.2 - v.1.1)) <$> ps).
Proof.
  induction ps as [|[[b l] p] ps IH]; intros lo hi; cbn [pieces_in fmap list_fmap ascending fst snd]; [done|].
  intros (? & ? & _ & Hps) _ [Hl Hall]%Forall_cons. cbn [fst snd] in Hl.
  split; [done|]. split; [lia|]. replace (b + (l - b)) with l by lia. by apply (IH l hi).
Qed.

Lemma ascending_pieces_0 ps (lo hi : Z) :
  pieces_in lo hi ps → 0 ≤ lo → Forall (λ v, v.1.2 ≤ VOL_LIMIT) ps →
  ascending 0 VOL_LIMIT ((λ v, (v.1.1, v.1.2 - v.1.1)) <$> ps).
Proof.
  destruct ps as [|[[b l] p] ps]; cbn [pieces_in fmap list_fmap ascending fst snd]; [done|].
  intros (? & ? & _ & Hps) ? [Hl Hall]%Forall_cons. cbn [fst snd] in Hl.
  split; [lia|]. split; [lia|]. replace (b + (l - b)) with l by lia. by apply (ascending_pieces ps l hi).
Qed.

(** ** The plan *)

(** The durable contents of a sector. *)
Definition contents_at (m : M) (store : S) (x : Z) : bytes :=
  match objmap_at m x with
  | Some p => slice (Z.to_nat (512 * offset p)) 512 (default [] (rados_obj store (oname name (obj p))))
  | None => []
  end.

Section one_plan.
Variable st : state.
Let m := om_map (x_om st).
Let objs := objs_to_clean (gc_threshold_pc cfg) (last_ckpt st) (om_info (x_om st)).
Hypothesis Hwf : lm_wf m.
Hypothesis Hcl : x_clones st = [].
Hypothesis Hcfg : 512 ≤ backend_obj_bytes cfg ≤ 2 ^ 28.
(** every mapped sector is in the volume, in an object that exists *)
Hypothesis Hmap : ∀ x p, objmap_at m x = Some p →
  x < VOL_LIMIT ∧ seq_ok (obj p) ∧ obj p ≤ x_cur_seq st.
(** the chosen objects are in the backend, and the map stays inside them *)
Hypothesis Hobjs : ∀ o n, (o, n) ∈ objs → n ≤ 2 ^ 21 ∧ (∃ b, stored (x_store st) o n b) ∧
  ∀ x p, objmap_at m x = Some p → obj p = o → 0 ≤ offset p < n.

Lemma objs_NoDup : NoDup (fst <$> objs).
Proof.
  unfold objs, objs_to_clean. rewrite <- list_fmap_compose.
  change (NoDup (fst <$> take 33 (merge_sort util_le
    (filter (λ p, p.1 ≤ last_ckpt st ∧ oi_live p.2 * 100 ≤ gc_threshold_pc cfg * oi_data p.2)
       (sorted_info (om_info (x_om st))))))).
  eapply sublist_NoDup; [|apply fmap_sublist, sublist_take].
  rewrite merge_sort_Permutation. eapply sublist_NoDup; [|apply fmap_sublist, sublist_filter].
  unfold sorted_info. rewrite merge_sort_Permutation. apply NoDup_fst_map_to_list.
Qed.

Lemma span_le (p : obj_offset) (n k : Z) : span_ok p n → 0 ≤ k ≤ n → span_ok p k.
Proof. simpl. unfold obj_span_ok. lia. Qed.

Let live_at x := keep_at (x_cur_seq st) (fst <$> objs) (objmap_at m x).

Lemma live_piece (lo hi b l : Z) p all :
  pieces_in lo hi all → 0 ≤ lo → (∀ x, vs_denote all x = live_at x) → (b, l, p) ∈ all →
  0 ≤ b < l ∧ l ≤ VOL_LIMIT ∧ seq_ok (obj p) ∧
  (∃ n, (obj p, n) ∈ objs ∧ n ≤ 2 ^ 21 ∧ 0 ≤ offset p ∧ offset p + (l - b) ≤ n) ∧
  ∀ x, b ≤ x < l → objmap_at m x = Some (mk_obj_offset (obj p) (offset p + (x - b))).
Proof.
  intros Hps Hlo Hall Hin.
  pose proof (pieces_in_range _ _ _ _ _ _ Hps Hin) as (Hb & Hbl & _ & Hspan).
  assert (∀ x, b ≤ x < l → objmap_at m x = Some (mk_obj_offset (obj p) (offset p + (x - b))) ∧
    obj p ∈ fst <$> objs) as Hx.
  { intros x Hx. pose proof (pieces_in_denote _ _ _ _ x _ _ Hps Hin Hx) as Hd.
    rewrite Hall in Hd. unfold live_at, keep_at in Hd.
    destruct (objmap_at m x) as [q|] eqn:Eq; [|done]. destruct (keep_obj _ _ q) eqn:Ek; [|done].
    injection Hd as ->. simpl p_add. rewrite obj_offset_add_small; [|eapply span_le; [exact Hspan|lia]|lia].
    split; [done|]. unfold keep_obj in Ek. apply andb_true_iff in Ek as [_ Ek].
    by apply bool_decide_eq_true in Ek. }
  destruct (Hx b ltac:(lia)) as [Hxb Hino]. destruct (Hx (l - 1) ltac:(lia)) as [Hxl _].
  apply list_elem_of_fmap in Hino as ([o n] & Ho & Hin'). cbn [fst] in Ho. subst o.
  destruct (Hobjs _ _ Hin') as (Hn & _ & Hoff). destruct (Hmap _ _ Hxl) as (Hv & Hs & _). cbn [obj] in Hs.
  pose proof (Hoff _ _ Hxb eq_refl) as Ho1. pose proof (Hoff _ _ Hxl eq_refl) as Ho2. cbn [offset] in *.
  split; [lia|]. split; [lia|]. split; [done|]. split; [exists n; split_and!; auto; lia|].
  intros x Hxx. by apply Hx.
Qed.

Lemma sectors_ge o n : (o, n) ∈ objs → n ≤ foldr Z.max 0 (snd <$> objs).
Proof.
  generalize objs. intros l. induction l as [|[o' n'] l IH]; [by intros ?%elem_of_nil|].
  intros [[= -> ->]|Hin]%elem_of_cons; rewrite fmap_cons; cbn [foldr snd]; [lia|].
  apply IH in Hin. lia.
Qed.

(** One request, from a batch of live extents. *)
Lemma batch_request_ok fm file (lo hi : Z) all b :
  pieces_in lo hi all → 0 ≤ lo → (∀ x, vs_denote all x = live_at x) →
  (∀ v, v ∈ b → v ∈ all) → (∃ lo' hi', 0 ≤ lo' ∧ pieces_in lo' hi' b) →
  (∃ b' e, b = b' ++ [e] ∧ sum_list_Z ((λ e, e.1.2 - e.1.1) <$> b') < backend_obj_bytes cfg / 512) →
  (∀ i n, (i, n) ∈ objs → ∃ o bs, fm !! i = Some o ∧ 0 ≤ o ∧ (o + n) * 512 ≤ Z.of_nat (length file) ∧
     stored (x_store st) i n bs ∧ slice (Z.to_nat (512 * o)) (Z.to_nat (512 * n)) file = bs) →
  ∃ data, gc_request fm file b =
      Some (data, ext_entry <$> b) ∧
    gc_req_ok (contents_at m (x_store st))
      (new_req REQ_GC data (ext_entry <$> b)).
Proof.
  intros Hps Hlo Hall Hsub (lo' & hi' & Hlo' & Hps') (b' & e & Heq & Hsz) Hfile.
  assert (Forall (ext_in_file (contents_at m (x_store st)) fm file) b) as Hext.
  { apply Forall_forall. intros [[q l] p] Hin%Hsub.
    destruct (live_piece _ _ _ _ _ _ Hps Hlo Hall Hin) as (Hq & Hl & Hs & (n & Hn & Hn21 & Ho0 & Hon) & Hx).
    destruct (Hfile _ _ Hn) as (o & bs & Hfm & Ho & Hlen & (Hn0 & Hobj & Hlb) & Hsl).
    unfold ext_in_file, entry_ok. cbn [me_lba me_len]. split; [lia|]. split; [done|]. split; [lia|].
    exists o. split_and!; auto; [lia|]. intros x Hxx. unfold contents_at. rewrite (Hx x Hxx). cbn [obj offset].
    rewrite Hobj. change (default [] (Some bs)) with bs. rewrite <- Hsl.
    rewrite slice_slice by lia. f_equal. lia. }
  assert (e.1.2 - e.1.1 ≤ 2 ^ 21) as He21.
  { assert (e ∈ b) as Hin by (rewrite Heq; apply elem_of_app; right; left). apply Hsub in Hin. destruct e as [[q l] p].
    destruct (live_piece _ _ _ _ _ _ Hps Hlo Hall Hin) as (_ & _ & _ & (n & _ & ? & ? & ?) & _).
    cbn [fst snd]. lia. }
  destruct (gc_request_ok _ _ _ _ Hext) as (data & Hreq & Hdata). exists data. split; [done|].
  unfold gc_req_ok, new_req. cbn [t_entries t_gc_data]. split; [|split; [|split; [|done]]].
  - apply Forall_fmap. eapply Forall_impl; [exact Hext|]. intros [[q l] p] (He & _). exact He.
  - rewrite <- list_fmap_compose. apply (ascending_pieces_0 b lo' hi'); auto.
    eapply Forall_impl; [exact Hext|]. intros [[q l] p] ([? ?] & _). cbn [me_lba me_len fst snd] in *. lia.
  - rewrite Heq, fmap_app, sum_len_app.
    assert (backend_obj_bytes cfg / 512 ≤ 2 ^ 19) by (apply Z.div_le_upper_bound; lia).
    change (sum_len (ext_entry <$> [e])) with (e.1.2 - e.1.1 + 0).
    assert (sum_len (ext_entry <$> b') = sum_list_Z ((λ v, v.1.2 - v.1.1) <$> b')) as ->
      by (unfold sum_len; by rewrite <- list_fmap_compose).
    lia.
Qed.

Lemma requests_ok f fm file bs :
  Forall (λ b, ∃ data, gc_request fm file b = Some (data, ext_entry <$> b) ∧
    gc_req_ok f (new_req REQ_GC data (ext_entry <$> b))) bs →
  ∃ rs, mapM (gc_request fm file) bs = Some rs ∧
    Forall2 (λ b dr, dr.2 = ext_entry <$> b ∧ gc_req_ok f (new_req REQ_GC dr.1 dr.2)) bs rs.
Proof.
  induction 1 as [|b bs (data & Hb & Hok) Hbs (rs & IH1 & IH2)]; [by exists []|].
  exists ((data, ext_entry <$> b) :: rs). split; [|by constructor].
  simpl. rewrite Hb. cbn [mbind option_bind]. by rewrite IH1.
Qed.

Lemma gc_plan_ok :
  ∃ reqs, gc_plan cfg name st = Some (objs, reqs) ∧
    Forall (λ r, t_op r = REQ_GC ∧ gc_req_ok (contents_at m (x_store st)) r ∧
                 Forall (λ e, me_obj e ∈ fst <$> objs) (t_entries r)) reqs ∧
    gc_covered m (fst <$> objs) reqs.
Proof.
  unfold gc_plan. fold objs m. destruct (lm_all_ok m Hwf) as [-> Hps]. cbn [mbind option_bind].
  destruct (live_extents_ok (x_cur_seq st) (fst <$> objs) (lm_pieces m) 0 LBA_LIMIT lm_empty)
    as (m1 & -> & Hwf1 & Hd1); auto; [apply lm_empty_ok|lia|lia|].
  cbn [mbind option_bind]. destruct (lm_all_ok m1 Hwf1) as [-> Hall]. cbn [mbind option_bind].
  set (all := lm_pieces m1) in *.
  assert (∀ x, vs_denote all x = live_at x) as Hlive.
  { intros x. rewrite Hd1, (proj2 lm_empty_ok). unfold live_at, objmap_at. by destruct (keep_at _ _ _). }
  rewrite Hcl.
  destruct (gc_file_ok (x_store st) objs 0
    (zeros (Z.to_nat (foldr Z.max 0 (snd <$> objs) * 512))) objs_NoDup) as (fm & file & -> & Hlf & Hfile).
  { intros i n Hin. split; [|by apply (Hobjs i n)]. apply sectors_ge in Hin.
    unfold zeros. rewrite length_replicate. lia. }
  cbn [mbind option_bind].
  destruct (gc_batches_ok (backend_obj_bytes cfg / 512) all) as (bs & -> & Hbs & Hsz).
  { apply Z.div_str_pos. lia. }
  cbn [mbind option_bind].
  destruct (requests_ok (contents_at m (x_store st)) fm file bs) as (rs & -> & Hrs).
  { apply Forall_forall. intros b Hb. apply (batch_request_ok fm file 0 LBA_LIMIT all); auto; [lia| | | |].
    - intros v Hv. rewrite <- Hbs. apply list_elem_of_join. by exists b.
    - rewrite <- Hbs in Hall. destruct (pieces_in_batch _ _ _ _ Hall Hb) as (lo' & hi' & ? & ?).
      by exists lo', hi'.
    - by apply (proj1 (Forall_forall _ _) Hsz).
    - intros i n Hin. destruct (Hfile _ _ Hin) as (o & b' & ? & ? & ? & ? & Hsl).
      exists o, b'. rewrite Z.sub_0_r in *. split_and!; auto; lia. }
  cbn [mbind option_bind]. eexists. split; [done|]. split.
  - assert (∀ b v, b ∈ bs → v ∈ b → obj v.2 ∈ fst <$> objs) as Hino.
    { intros b [[q l] p] Hb Hv. destruct (live_piece 0 LBA_LIMIT q l p all) as (_ & _ & _ & (n & Hn & _) & _); auto; [lia| |].
      - rewrite <- Hbs. apply list_elem_of_join. by exists b.
      - apply list_elem_of_fmap. by exists (obj p, n). }
    apply Forall_fmap, Forall_forall. intros [d es] Hin. apply list_elem_of_lookup in Hin as [i Hi].
    destruct (Forall2_lookup_r _ _ _ _ _ Hrs Hi) as (b & Hb & Hes & Hok). cbn [fst snd] in *. subst es.
    split; [done|]. split; [exact Hok|]. cbn [new_req t_entries]. apply Forall_fmap, Forall_forall. intros v Hv.
    apply (Hino b v); [by eapply list_elem_of_lookup_2|done].
  - intros x p Hx Ho. destruct (Hmap _ _ Hx) as (_ & _ & Hle).
    assert (vs_denote all x = Some p) as Hd.
    { rewrite Hlive. unfold live_at. rewrite Hx. cbn [keep_at]. unfold keep_obj.
      rewrite (proj2 (Z.leb_le _ _)), bool_decide_eq_true_2 by done. done. }
    apply vs_denote_piece in Hd as (b & l & q & Hin & Hbl & ->).
    rewrite <- Hbs in Hin. apply list_elem_of_join in Hin as (bt & Hin & Hbt).
    apply list_elem_of_lookup in Hbt as [i Hi].
    destruct (Forall2_lookup_l _ _ _ _ _ Hrs Hi) as ([d es] & Hj & Hes & _). cbn [fst snd] in Hes.
    exists (new_req REQ_GC d es), (ext_entry (b, l, q)).
    split; [apply list_elem_of_fmap; exists (d, es); split; [done|by eapply list_elem_of_lookup_2]|].
    cbn [new_req t_entries]. rewrite Hes. split; [by apply list_elem_of_fmap_2|].
    cbn [ext_entry me_lba me_len me_obj fst snd]. split; [lia|done].
Qed.
End one_plan.

End plan.

(** ** Deleting objects *)

Section delete.
Context {M : Type} {HM : LbaMap M obj_offset}.
Context {MB : Type} {HB : LbaMap MB sector_ptr}.
Context {S : Type} {HS : Rados S} {HSok : RadosOk S}.
Context {RC : Type}.
Variable crc32 : bytes → Z.
Variable cfg : lsvd_config.
Variables (name : string) (uuid : bytes).

Notation state := (@xstate M MB S RC).
Implicit Types (st : state).

(** Objects that are pinned, or not listed, stay. *)
Lemma delete_unpinned_ok rc os : ∀ (store : S),
  ∃ store', delete_unpinned name [] rc os store = Some store' ∧
    ∀ n, (∀ o, o ∈ os → rc !! o = None → oname name o ≠ n) →
         rados_obj store' n = rados_obj store n.
Proof.
  induction os as [|o os IH]; intros store; simpl; [by exists store|].
  destruct (rc !! o) eqn:E.
  - destruct (IH store) as (s' & -> & Hs). exists s'. split; [done|]. intros n Hn.
    apply Hs. intros o' Ho'. apply Hn. by right.
  - destruct (IH (delete_obj store (oname name o)).2) as (s' & -> & Hs). exists s'. split; [done|].
    intros n Hn. rewrite Hs by (intros o' Ho'; apply Hn; by right).
    unfold delete_obj. apply rados_remove_other. by apply Hn; [left|].
Qed.

Lemma foldr_delete_lookup (info : gmap Z data_obj_info) os o :
  foldr delete info os !! o = if decide (o ∈ os) then None else info !! o.
Proof.
  induction os as [|o' os IH]; [by rewrite decide_False by apply not_elem_of_nil|]. simpl.
  destruct (decide (o' = o)) as [->|Hne].
  - rewrite lookup_delete_eq, decide_True by left. done.
  - rewrite lookup_delete_ne, IH by done. destruct (decide (o ∈ os)).
    + by rewrite decide_True by (by right).
    + rewrite decide_False; [done|]. intros [->|?]%elem_of_cons; done.
Qed.

Lemma elem_of_dead info o :
  o ∈ dead_objects info ↔ ∃ oi, info !! o = Some oi ∧ oi_live oi = 0.
Proof.
  unfold dead_objects, sorted_info. rewrite list_elem_of_fmap. split.
  - intros ([o' oi] & -> & [Hl Hin]%list_elem_of_filter). rewrite merge_sort_Permutation in Hin.
    apply elem_of_map_to_list in Hin. by exists oi.
  - intros (oi & Ho & Hl). exists (o, oi). split; [done|]. apply list_elem_of_filter.
    split; [done|]. rewrite merge_sort_Permutation. by apply elem_of_map_to_list.
Qed.

Lemma live_forget (om : omap M) os ts :
  live_ok om → live_ok (mk_omap (om_map om) (foldr delete (om_info om) os) ts (om_total_live om)).
Proof.
  intros [Hwf Hl]. split; [done|]. intros o oi. simpl. rewrite foldr_delete_lookup.
  destruct (decide (o ∈ os)); [done|]. apply Hl.
Qed.

Definition seqs_ok st : Prop :=
  (∀ x p, objmap_at (om_map (x_om st)) x = Some p → seq_ok (obj p)) ∧
  ∀ o oi, om_info (x_om st) !! o = Some oi → seq_ok o.

(** C33: reaping dead objects loses nothing.  It does not fail, keeps the
    accounting exact and the map as it is, and every object that some sector is
    mapped into is still in the backend with the same contents: an object
    whose live count is 0 is mapped nowhere. *)
Theorem reap_safe st :
  live_ok (x_om st) → x_clones st = [] → seqs_ok st →
  ∃ st', reap name st = Some st' ∧ live_ok (x_om st') ∧ om_map (x_om st') = om_map (x_om st) ∧
    ∀ x p, objmap_at (om_map (x_om st)) x = Some p →
      rados_obj (x_store st') (oname name (obj p)) = rados_obj (x_store st) (oname name (obj p)).
Proof.
  intros Hlive Hcl [Hs1 Hs2]. unfold reap. rewrite Hcl.
  destruct (delete_unpinned_ok (x_refcount st) (dead_objects (om_info (x_om st))) (x_store st))
    as (store & -> & Hst). cbn [mbind option_bind].
  eexists. split; [done|]. split; [by apply live_forget|]. split; [done|].
  intros x p Hx. apply Hst. intros o (oi & Ho & Hl0)%elem_of_dead _ Heq.
  pose proof (Hs1 _ _ Hx). pose proof (Hs2 _ _ Ho). unfold seq_ok in *.
  apply oname_inj in Heq as [_ ->]; [|lia|lia].
  destruct Hlive as [Hwf Hl]. specialize (Hl _ _ Ho). rewrite Hl0 in Hl.
  by apply (weight_0_unused _ (obj p) Hwf (eq_sym Hl) x p).
Qed.

(** A dead object with an outstanding read is not deleted, but it is
    removed from [object_info] all the same, so that no later cycle finds it:
    the object stays in the backend for ever. *)
Theorem reap_forgets_pinned_objects st o oi n st' :
  x_clones st = [] → seqs_ok st → om_info (x_om st) !! o = Some oi → oi_live oi = 0 →
  x_refcount st !! o = Some n → reap name st = Some st' →
  rados_obj (x_store st') (oname name o) = rados_obj (x_store st) (oname name o) ∧
  o ∉ dead_objects (om_info (x_om st')).
Proof.
  intros Hcl [_ Hs] Ho Hl Hrc. unfold reap. rewrite Hcl.
  destruct (delete_unpinned_ok (x_refcount st) (dead_objects (om_info (x_om st))) (x_store st))
    as (store & -> & Hst). cbn [mbind option_bind]. intros [= <-]. cbn [with_info x_store x_om om_info].
  split.
  - apply Hst. intros o' (oi' & Ho' & _)%elem_of_dead Hn Heq.
    pose proof (Hs _ _ Ho'). pose proof (Hs _ _ Ho). unfold seq_ok in *.
    apply oname_inj in Heq as [_ ->]; [|lia|lia]. congruence.
  - intros (oi' & Ho' & _)%elem_of_dead. rewrite foldr_delete_lookup, decide_True in Ho'; [done|].
    apply elem_of_dead. by exists oi.
Qed.

(** The window of the collector.  The comment at the head of translate.cc
    says that the map of in-memory data is updated when a collection request
    updates the object map; [write_gc] does not do this.  So between the
    processing of a request and its completion a moved sector that is not
    otherwise in memory cannot be read: its object does not exist yet. *)
Theorem gc_read_window st f sq r l x :
  live_ok (x_om st) → seq_ok sq → unused (om_map (x_om st)) sq → x_clones st = [] →
  uuid_ok uuid → gc_req_ok f r →
  gc_collect (om_map (x_om st)) (t_entries r) (t_gc_data r) = Some l → gc_hdr_fits cfg (length l) →
  rados_obj (x_store st) (oname name sq) = None →
  gc_valid (om_map (x_om st)) (t_entries r) x → bufmap_at (p_bufmap (x_pipe st)) x = None →
  ∃ st', write_gc crc32 cfg name uuid st sq r = Some st' ∧ read_sector name st' x = None.
Proof.
  intros Hlive Hs Hu Hcl Huuid Hreq Hl Hfit Hno Hv Hb.
  destruct (write_gc_ok crc32 cfg name uuid st f sq r l) as (st' & r' & b & Hw & _ & Hp & _ & _ & Hmv & _); auto.
  exists st'. split; [done|]. destruct (Hmv x Hv) as (k & Hk & _).
  unfold read_sector. rewrite Hp. cbn [aio_write p_bufmap]. rewrite Hb, Hk. cbn [obj].
  replace (x_store st') with (x_store st); [by rewrite Hno|].
  unfold write_gc in Hw. repeat (apply bind_Some in Hw as (? & _ & Hw); repeat case_match). by simplify_eq/=.
Qed.
End delete.

(** ** Concrete cycles *)

(** Requests whose data is the same byte throughout. *)
Lemma data_ok_replicate v es : ∀ k,
  Forall entry_ok es → 512 * sum_len es ≤ Z.of_nat k →
  data_ok (λ _, replicate 512 v) es (replicate k v).
Proof.
  intros k Hes. revert k. induction Hes as [|e es He Hes IH]; intros k Hk; [done|].
  rewrite sum_len_cons in Hk. pose proof (sum_len_nonneg es Hes). unfold entry_ok in He.
  cbn [data_ok]. rewrite length_replicate. split; [lia|]. split.
  - intros x Hx. apply slice_replicate. lia.
  - rewrite drop_replicate. apply IH. lia.
Qed.

(** Sectors 4, 5 and 45 of object 1, and sector 12, which was in object 1 when
    the request was made and has been written since. *)
Definition demo_gc_entries : list ckpt_mapentry :=
  [mk_ckpt_mapentry 4 2 1 12; mk_ckpt_mapentry 12 1 1 30; mk_ckpt_mapentry 45 1 1 23].
Definition demo_gc_req : translate_req := new_req REQ_GC (replicate 2048 7) demo_gc_entries.
Definition demo_gc_pieces : list (data_map * bytes) :=
  [(mk_data_map 4 2, replicate 1024 7); (mk_data_map 45 1, replicate 512 7)].

Lemma demo_gc_req_ok : gc_req_ok (λ _, replicate 512 7) demo_gc_req.
Proof.
  assert (Forall entry_ok demo_gc_entries) as Hes
    by (repeat constructor; vm_compute; intuition discriminate).
  split; [exact Hes|]. split; [vm_compute; intuition discriminate|].
  split; [vm_compute; discriminate|]. apply data_ok_replicate; [exact Hes|vm_compute; discriminate].
Qed.

Lemma demo_gc_collect :
  gc_collect (om_map (x_om demo_state)) (t_entries demo_gc_req) (t_gc_data demo_gc_req) =
  Some demo_gc_pieces.
Proof. change (om_map (x_om demo_state)) with demo_map. vm_compute. reflexivity. Qed.

Lemma gc_write_revalidates_witness :
  ∃ st' r' b, write_gc demo_crc32 get_default "vol" demo_uuid demo_state 3 demo_gc_req = Some st' ∧
    live_ok (x_om st') ∧
    p_flight (x_pipe st') = p_flight (x_pipe demo_state) ++ [(r', oname "vol" 3, b)] ∧
    (∀ x, gc_valid (om_map (x_om demo_state)) (t_entries demo_gc_req) x →
       ∃ k, objmap_at (om_map (x_om st')) x = Some (mk_obj_offset 3 k) ∧
         slice (Z.to_nat (512 * k)) 512 b = replicate 512 7) ∧
    (∀ x, ¬ gc_valid (om_map (x_om demo_state)) (t_entries demo_gc_req) x →
       objmap_at (om_map (x_om st')) x = objmap_at (om_map (x_om demo_state)) x).
Proof.
  apply (gc_write_revalidates demo_crc32 get_default "vol" demo_uuid demo_state
           (λ _, replicate 512 7) 3 demo_gc_req demo_gc_pieces).
  - exact demo_om_live.
  - split; lia.
  - exact demo_unused.
  - reflexivity.
  - reflexivity.
  - exact demo_gc_req_ok.
  - exact demo_gc_collect.
  - vm_compute. discriminate.
Defined.

Lemma gc_read_window_witness :
  ∃ st', write_gc demo_crc32 get_default "vol" demo_uuid demo_state 3 demo_gc_req = Some st' ∧
    read_sector "vol" st' 45 = None.
Proof.
  apply (gc_read_window demo_crc32 get_default "vol" demo_uuid demo_state
           (λ _, replicate 512 7) 3 demo_gc_req demo_gc_pieces).
  - exact demo_om_live.
  - split; lia.
  - exact demo_unused.
  - reflexivity.
  - reflexivity.
  - exact demo_gc_req_ok.
  - exact demo_gc_collect.
  - vm_compute. discriminate.
  - change (x_store demo_state) with demo_store. unfold demo_store. cbn [rados_obj gmap_rados].
    rewrite lookup_singleton_ne; [done|]. intros Heq. apply oname_inj in Heq; lia.
  - exists (mk_ckpt_mapentry 45 1 1 23), (mk_obj_offset 1 23).
    change (om_map (x_om demo_state)) with demo_map.
    split; [right; right; left|]. split; [simpl; lia|]. split; [vm_compute; reflexivity|reflexivity].
  - reflexivity.
Defined.

(** A cycle that collects object 1. *)
Definition demo_cycle_req : translate_req :=
  new_req REQ_GC (replicate (20 * 512) 7) [mk_ckpt_mapentry 0 10 1 8; mk_ckpt_mapentry 40 10 1 18].

Lemma demo_cycle_req_ok : gc_req_ok (λ _, replicate 512 7) demo_cycle_req.
Proof.
  assert (Forall entry_ok (t_entries demo_cycle_req)) as Hes
    by (repeat constructor; vm_compute; intuition discriminate).
  split; [exact Hes|]. split; [vm_compute; intuition discriminate|].
  split; [vm_compute; discriminate|]. apply data_ok_replicate; [exact Hes|vm_compute; discriminate].
Qed.

Lemma demo_map_pieces : lm_pieces demo_map =
  [(0, 10, mk_obj_offset 1 8); (10, 20, mk_obj_offset 2 8); (40, 50, mk_obj_offset 1 18)].
Proof. vm_compute. reflexivity. Qed.

(** The cases of a sector of [demo_map]. *)
Lemma demo_map_at x p :
  objmap_at demo_map x = Some p →
  (0 ≤ x < 10 ∧ p = mk_obj_offset 1 (8 + x)) ∨ (10 ≤ x < 20 ∧ p = mk_obj_offset 2 (x - 2)) ∨
  (40 ≤ x < 50 ∧ p = mk_obj_offset 1 (x - 22)).
Proof.
  unfold objmap_at. rewrite demo_map_pieces. cbn [vs_denote v_denote].
  assert (∀ o f n, 0 ≤ f → 0 ≤ n < 10 → f + 10 < OBJ_LIMIT →
    p_add (mk_obj_offset o f) n = mk_obj_offset o (f + n)) as Hadd.
  { intros o f n ? ? ?. simpl. rewrite obj_offset_add_small; [done| |lia].
    unfold obj_span_ok. simpl. lia. }
  unfold OBJ_LIMIT in Hadd.
  destruct (in_range 0 10 x) eqn:E1.
  { apply in_range_true in E1. rewrite Hadd by lia. intros [= <-]. left. split; [lia|f_equal; lia]. }
  destruct (in_range 10 20 x) eqn:E2.
  { apply in_range_true in E2. rewrite Hadd by lia. intros [= <-]. right. left. split; [lia|f_equal; lia]. }
  destruct (in_range 40 50 x) eqn:E3; [|done].
  apply in_range_true in E3. rewrite Hadd by lia. intros [= <-]. right. right. split; [lia|f_equal; lia].
Qed.

Lemma demo_cycle_covered : gc_covered demo_map [1] [demo_cycle_req].
Proof.
  intros x p Hx Ho%list_elem_of_singleton. exists demo_cycle_req.
  apply demo_map_at in Hx as [[Hx ->]|[[Hx ->]|[Hx ->]]]; simpl in Ho; [| done |].
  - exists (mk_ckpt_mapentry 0 10 1 8). split; [left|]. split; [left|]. simpl. lia.
  - exists (mk_ckpt_mapentry 40 10 1 18). split; [left|]. split; [right; left|]. simpl. lia.
Qed.

Lemma gc_cycle_moves_everything_witness :
  ∃ om', rtc (gc_step [1]) (demo_om, [demo_cycle_req]) (om', []) ∧
    ∀ x p, objmap_at (om_map om') x = Some p → obj p ∉ [1].
Proof.
  destruct (gc_collect_ok (λ _, replicate 512 7) demo_map (t_entries demo_cycle_req)
              (t_gc_data demo_cycle_req)) as (l & Hl & _).
  { apply demo_map_wf. }
  { apply demo_cycle_req_ok. }
  { apply demo_cycle_req_ok. }
  assert (seq_ok 3) as Hs by (split; lia).
  destruct (gc_om_ok demo_om (λ _, replicate 512 7) 3 demo_cycle_req l demo_om_live Hs demo_unused
              demo_cycle_req_ok Hl) as (_ & _ & _ & _ & om' & Hom & _).
  assert (rtc (gc_step [1]) (demo_om, [demo_cycle_req]) (om', [])) as Hr.
  { apply rtc_once. eapply gc_step_write with (sq := 3) (l := l); eauto using demo_unused, demo_cycle_req_ok.
    by intros ?%list_elem_of_singleton. }
  exists om'. split; [exact Hr|].
  apply (gc_cycle_moves_everything [1] demo_om [demo_cycle_req] om');
    [exact demo_om_live|exact demo_cycle_covered|exact Hr].
Defined.

(** A cycle with a higher threshold, which chooses object 2. *)
Definition demo_gc_cfg : lsvd_config :=
  apply_json {["gc_threshold_pc" := JUint 90]} get_default.
Definition demo_gc_state : xstate :=
  init_translate (MB := @ExtMap.Extmap.extmap sector_ptr) get_default ∅ lm_empty demo_map 2 []
    (om_info demo_om) [] tt ({[oname "vol" 2 := replicate (20 * 512) 5]} : gmap string bytes).


(** An object without live data, with an outstanding read. *)
Definition demo_dead_state : xstate :=
  mk_xstate (mk_omap demo_map (<[4 := mk_data_obj_info 8 8 0]> (om_info demo_om)) 40 30)
    (x_pipe demo_gc_state) 5 [] [] {[4 := 0]} [] tt
    ({[oname "vol" 4 := replicate (16 * 512) 9]} : gmap string bytes).

Lemma demo_dead_live : live_ok (x_om demo_dead_state).
Proof.
  split; [exact demo_map_wf|]. intros o oi. simpl.
  destruct (decide (4 = o)) as [<-|Hne]; [rewrite lookup_insert_eq; by intros [= <-]|].
  rewrite lookup_insert_ne by done. apply demo_om_live.
Qed.

Lemma demo_dead_seqs : seqs_ok demo_dead_state.
Proof.
  split.
  - intros x p Hx. apply demo_map_at in Hx as [[Hx ->]|[[Hx ->]|[Hx ->]]]; split; simpl; lia.
  - intros o oi. simpl. unfold seq_ok.
    destruct (decide (4 = o)) as [<-|]; [lia|rewrite lookup_insert_ne by done].
    destruct (decide (1 = o)) as [<-|]; [lia|rewrite lookup_insert_ne by done].
    destruct (decide (2 = o)) as [<-|]; [lia|rewrite lookup_insert_ne by done]. done.
Qed.

Lemma reap_safe_witness :
  ∃ st', reap "vol" demo_dead_state = Some st' ∧ live_ok (x_om st') ∧
    om_map (x_om st') = om_map (x_om demo_dead_state) ∧
    ∀ x p, objmap_at (om_map (x_om demo_dead_state)) x = Some p →
      rados_obj (x_store st') (oname "vol" (obj p)) =
      rados_obj (x_store demo_dead_state) (oname "vol" (obj p)).
Proof. apply reap_safe; [exact demo_dead_live|reflexivity|exact demo_dead_seqs]. Defined.

Lemma reap_forgets_pinned_objects_witness :
  ∃ st', reap "vol" demo_dead_state = Some st' ∧
    rados_obj (x_store st') (oname "vol" 4) = rados_obj (x_store demo_dead_state) (oname "vol" 4) ∧
    4 ∉ dead_objects (om_info (x_om st')).
Proof.
  eexists. split; [reflexivity|].
  apply (reap_forgets_pinned_objects "vol" demo_dead_state 4 (mk_data_obj_info 8 8 0) 0);
    [reflexivity|exact demo_dead_seqs|reflexivity|reflexivity|reflexivity|reflexivity].
Defined.
