(* ===== verification/Collector.v ===== *)
(** * The translation layer with its garbage collector (src/src/translate.cc)

    [Refine.step] has no garbage collection: nothing there puts a collection
    request on the queue, reaps or deletes.  Here the collector's thread
    ([do_gc]) runs beside the layer as a thread of its own, and its steps
    interleave with all the steps of the layer; the worker then also processes
    collection requests, and their PUTs complete in any order.

    The invariant of the layer holds with the collector when the state is looked
    at as if the outstanding collection objects had arrived ([landed]): every
    step is, on the landed state, a step of the layer, a move of sectors that
    keeps their contents, or nothing. *)

From stdpp Require Import relations.
From S2P Require Import Prelude Bytes Extent ExtMapFlat ExtMapSpec Memory SmartIov.
From S2P Require Import LsvdTypes Backend Objects Serialise DataObject Config Translate Accounting.
From S2P Require Import Pipeline Completion Refine Gc.

(** ** The system *)

(** Where the collector's thread is: before a cycle; after reaping; putting
    requests on the queue and waiting for them; all objects forgotten; waiting for
    the checkpoint that follows, which gets a number of at least [sq]; stopped. *)
Inductive gc_phase :=
| GcIdle
| GcReaped
| GcCleaning (objs : list Z) (todo : list translate_req)
| GcForgotten (objs : list Z)
| GcSaving (objs : list Z) (sq : Z)
| GcStopped (objs : list Z).

Definition is_gc (r : translate_req) : bool := match t_op r with REQ_GC => true | _ => false end.

Section collector.
Context {M : Type} {HM : LbaMap M obj_offset}.
Context {MB : Type} {HB : LbaMap MB sector_ptr}.
Context {S : Type} {HS : Rados S} {HSok : RadosOk S}.
Context {RC : Type}.
Variable insert_object : RC → string → Z → bytes → RC.
Variable crc32 : bytes → Z.
Variable cfg : lsvd_config.
Variables (name : string) (uuid : bytes) (vol_bytes : Z).

Notation state := (@xstate M MB S RC).
Notation inv := (inv cfg name).
Notation read_sector := (read_sector name).
Notation layer_step := (Refine.step insert_object crc32 cfg name uuid vol_bytes).
Notation worker_step := (worker_step insert_object crc32 cfg name uuid vol_bytes).
Notation flight := (translate_req * string * bytes)%type.
Implicit Types (D : disk) (st : state) (r : translate_req) (p : pipeline MB) (g : gc_phase).
Implicit Types (o : Z) (objs : list Z) (s : S).

(** The requests of the collector that wait and those whose PUT is outstanding *)
Definition gc_queued p : list translate_req := filter (λ r, is_gc r = true) (p_queue p).
Definition gc_flights p : list flight := filter (λ f, is_gc f.1.1 = true) (p_flight p).

(** The number [o] has been given out, not to a checkpoint, and no PUT of it is
    outstanding. *)
Definition settled st o : Prop :=
  0 ≤ o < x_cur_seq st ∧ o ∉ x_checkpoints st ∧ o ∉ t_seq <$> sent (x_pipe st).

(** When a cycle may choose the objects [objs] (numbers and sizes): they have
    arrived and have the size that [object_info] gives them, and what is mapped
    into them lies inside them. *)
Definition gc_ready st (objs : list (Z * Z)) : Prop :=
  (∀ x q, objmap_at (om_map (x_om st)) x = Some q → x < VOL_LIMIT) ∧
  ∀ o n, (o, n) ∈ objs → settled st o ∧ n ≤ 2 ^ 21 ∧ (∃ b, stored name (x_store st) o n b) ∧
    ∀ x q, objmap_at (om_map (x_om st)) x = Some q → obj q = o → 0 ≤ offset q < n.

(** [do_gc] and the layer.  The collector reaps, and chooses and reads its objects,
    in one step each: the objects do not change while they are read.
    [gc_write_window] bounds the requests that are on their way.  The thread can
    stop at any step (the code looks at its stop token at some of them). *)
Inductive cstep : state * disk * gc_phase → state * disk * gc_phase → Prop :=
| cs_layer st D g st' D' :
    layer_step (st, D) (st', D') → cstep (st, D, g) (st', D', g)
| cs_reap st D st' :
    reap name st = Some st' → cstep (st, D, GcIdle) (st', D, GcReaped)
| cs_nothing st D reqs :
    gc_plan cfg name st = Some ([], reqs) → cstep (st, D, GcReaped) (st, D, GcIdle)
| cs_plan st D (objs : list (Z * Z)) reqs :
    gc_plan cfg name st = Some (objs, reqs) → gc_ready st objs →
    cstep (st, D, GcReaped) (st, D, GcCleaning objs.*1 reqs)
| cs_enqueue st D objs r todo :
    Z.of_nat (length (gc_queued (x_pipe st)) + length (gc_flights (x_pipe st))) ≤ gc_write_window cfg →
    cstep (st, D, GcCleaning objs (r :: todo)) (gc_enqueue st r, D, GcCleaning objs todo)
| cs_forget st D objs :
    gc_queued (x_pipe st) = [] → gc_flights (x_pipe st) = [] →
    cstep (st, D, GcCleaning objs []) (gc_forget st objs, D, GcForgotten objs)
| cs_checkpoint st D objs :
    cstep (st, D, GcForgotten objs)
      (with_pipe st (submit cfg REQ_CKPT (x_pipe st)), D, GcSaving objs (x_cur_seq st))
| cs_delete st D objs sq c st' :
    last (x_checkpoints st) = Some c → sq ≤ c → gc_delete name st objs = Some st' →
    cstep (st, D, GcSaving objs sq) (st', D, GcIdle)
| cs_stop st D g :
    cstep (st, D, g) (st, D, GcStopped (match g with GcCleaning objs _ | GcStopped objs => objs | _ => [] end)).

(** Every object that [object_info] lists has been given out. *)
Definition info_known st : Prop := ∀ o, is_Some (om_info (x_om st) !! o) → 0 ≤ o < x_cur_seq st.

(** From an image that has just been opened, with the collector's thread started *)
Definition collected st D g : Prop :=
  ∃ st0, opened cfg st0 ∧ info_known st0 ∧ rtc cstep (st0, read_sector st0, GcIdle) (st, D, g).

(** ** The landed state *)

(** The store when the objects [l] have arrived *)
Definition land (s : S) (l : list flight) : S := foldl (λ s f, (write s f.1.2 f.2).2) s l.

Definition without_gc p : pipeline MB :=
  mk_pipeline (p_heap p) (p_next_buf p) (p_bufmap p) (p_current p)
    (filter (λ r, is_gc r = false) (p_queue p)) (filter (λ f, is_gc f.1.1 = false) (p_flight p))
    (p_outstanding p).

(** The state without collection requests: those in the queue have not been made,
    the objects of those in flight have arrived. *)
Definition landed st : state :=
  mk_xstate (x_om st) (without_gc (x_pipe st)) (x_cur_seq st) (x_checkpoints st) (x_clones st)
    (x_refcount st) (x_superblock_buf st) (x_rcache st) (land (x_store st) (gc_flights (x_pipe st))).

Lemma land_other s l m : m ∉ l.*1.*2 → rados_obj (land s l) m = rados_obj s m.
Proof.
  unfold land. revert s. induction l as [|[[r n] b] l IH]; intros s Hm; [done|].
  rewrite !fmap_cons, not_elem_of_cons in Hm. destruct Hm as [Hne Hm]. cbn [foldl fst snd] in *.
  rewrite IH by done. apply rados_write_other. congruence.
Qed.

(** What arrives depends on the old contents under its own name only. *)
Lemma land_ext s s' l m :
  rados_obj s m = rados_obj s' m → rados_obj (land s l) m = rados_obj (land s' l) m.
Proof.
  unfold land. revert s s'. induction l as [|[[r n] b] l IH]; intros s s' Hm; [done|].
  cbn [foldl fst snd]. apply IH. unfold write. cbn [snd]. destruct (decide (n = m)) as [->|Hne].
  - by rewrite !rados_write_same, Hm.
  - by rewrite !rados_write_other.
Qed.

Lemma land_app s l k : land s (l ++ k) = land (land s l) k.
Proof. apply foldl_app. Qed.

(** A write of another name may come before or after. *)
Lemma land_write s l n b m :
  n ∉ l.*1.*2 → rados_obj (land (write s n b).2 l) m = rados_obj (write (land s l) n b).2 m.
Proof.
  intros Hn. unfold write. cbn [snd]. destruct (decide (n = m)) as [->|Hne].
  - by rewrite land_other, !rados_write_same, land_other.
  - rewrite rados_write_other by done. apply land_ext. by rewrite rados_write_other.
Qed.

(** ** The layer's invariant *)

(** The invariant depends on the contents of mapped objects only. *)
Lemma inv_transfer st st' D :
  inv st D → live_ok (x_om st') → om_map (x_om st') = om_map (x_om st) →
  p_heap (x_pipe st') = p_heap (x_pipe st) → p_next_buf (x_pipe st') = p_next_buf (x_pipe st) →
  p_bufmap (x_pipe st') = p_bufmap (x_pipe st) → p_current (x_pipe st') = p_current (x_pipe st) →
  p_queue (x_pipe st') = p_queue (x_pipe st) → p_flight (x_pipe st') = p_flight (x_pipe st) →
  x_cur_seq st' = x_cur_seq st → x_checkpoints st' = x_checkpoints st → x_clones st' = x_clones st →
  clones_len_zero (x_superblock_buf st') →
  (∀ x q, objmap_at (om_map (x_om st)) x = Some q →
     rados_obj (x_store st') (oname name (obj q)) = rados_obj (x_store st) (oname name (obj q))) →
  inv st' D.
Proof.
  intros Hi Hlive Hm Hh Hn Hb Hc Hq Hf Hs Hck Hcl Hsb Hst.
  split; unfold pending, sent; rewrite ?Hm, ?Hh, ?Hn, ?Hb, ?Hc, ?Hq, ?Hf, ?Hs, ?Hck, ?Hcl;
    try apply Hi; [done|done|].
  intros x d Hx Hd. pose proof (inv_durable _ _ _ _ Hi x d Hx Hd) as Ho.
  destruct (objmap_at _ x) as [q|] eqn:E; [|done]. rewrite (Hst x q E). exact Ho.
Qed.

(** ** What a step leaves *)

Definition same_object st st' o : Prop :=
  rados_obj (x_store st') (oname name o) = rados_obj (x_store st) (oname name o).

(** Numbers grow; what is new in the checkpoints, among the outstanding PUTs and
    in the object map has a new number. *)
Record advance st st' : Prop := {
  adv_seq : x_cur_seq st ≤ x_cur_seq st';
  adv_ckpts c : c ∈ x_checkpoints st' → c ∈ x_checkpoints st ∨ x_cur_seq st ≤ c;
  adv_sent sq : sq ∈ t_seq <$> sent (x_pipe st') → sq ∈ t_seq <$> sent (x_pipe st) ∨ x_cur_seq st ≤ sq;
  adv_map x q : objmap_at (om_map (x_om st')) x = Some q →
    objmap_at (om_map (x_om st)) x = Some q ∨ x_cur_seq st ≤ obj q;
}.

Definition kept st st' : Prop := ∀ o, settled st o → same_object st st' o.

Lemma settled_advance st st' o : advance st st' → settled st o → settled st' o.
Proof.
  intros [] (Ho & Hc & Hs). split; [lia|]. split.
  - intros [?|?]%adv_ckpts0; [done|lia].
  - intros [?|?]%adv_sent0; [done|lia].
Qed.

(** A collection request whose data is still right: made for the objects [objs],
    it holds the contents of the sectors that have not been mapped elsewhere. *)
Definition req_good st objs r : Prop :=
  t_op r = REQ_GC ∧ ∃ f, gc_req_ok f r ∧ Forall (λ e, me_obj e ∈ objs) (t_entries r) ∧
    ∀ x, gc_valid (om_map (x_om st)) (t_entries r) x →
         contents_at name (om_map (x_om st)) (x_store st) x = f x.

Lemma valid_obj objs es (m : M) x :
  Forall (λ e, me_obj e ∈ objs) es → gc_valid m es x → ∃ q, objmap_at m x = Some q ∧ obj q ∈ objs.
Proof.
  intros Hes (e & q & Hin & _ & Hq & Ho). exists q. split; [done|]. rewrite Ho.
  by apply (proj1 (Forall_forall _ _) Hes).
Qed.

Lemma req_good_advance st st' objs r :
  advance st st' → kept st st' → Forall (settled st) objs → req_good st objs r → req_good st' objs r.
Proof.
  intros Ha Hk Hobjs (Hop & f & Hok & Hes & Hf). split; [done|]. exists f. split; [done|]. split; [done|].
  intros x Hv. destruct (valid_obj objs _ _ x Hes Hv) as (q & Hq & Ho).
  pose proof (proj1 (Forall_forall _ _) Hobjs _ Ho) as Hs.
  destruct (adv_map _ _ Ha x q Hq) as [Hq0|?]; [|destruct Hs as [? _]; lia].
  rewrite <- Hf.
  - unfold contents_at. rewrite Hq, Hq0. by rewrite (Hk _ Hs).
  - destruct Hv as (e & q' & Hin & Hx & Hq' & Ho'). rewrite Hq in Hq'. injection Hq' as <-. by exists e, q.
Qed.

(** The sectors of the objects [objs] stay covered while no request is taken. *)
Lemma covered_advance st st' objs rs :
  advance st st' → Forall (settled st) objs →
  gc_covered (om_map (x_om st)) objs rs → gc_covered (om_map (x_om st')) objs rs.
Proof.
  intros Ha Hobjs Hc x q Hq Ho. destruct (adv_map _ _ Ha x q Hq) as [Hq0|?]; [by apply Hc|].
  destruct (proj1 (Forall_forall _ _) Hobjs _ Ho) as [? _]. lia.
Qed.

(** ** The pipeline *)

Lemma put_current_landed p :
  is_gc (p_current p) = false → without_gc (put_current cfg p) = put_current cfg (without_gc p).
Proof. intros Hc. unfold put_current, without_gc. simpl. by rewrite filter_app, filter_cons_True by done. Qed.

Lemma put_current_same p :
  is_gc (p_current p) = false →
  p_flight (put_current cfg p) = p_flight p ∧ gc_queued (put_current cfg p) = gc_queued p ∧
  is_gc (p_current (put_current cfg p)) = false.
Proof.
  intros Hc. unfold put_current, gc_queued, new_put. simpl. split; [done|]. split; [|done].
  rewrite filter_app, filter_cons_False by (rewrite Hc; discriminate). apply app_nil_r.
Qed.

Lemma writev_landed p off iov p' :
  is_gc (p_current p) = false → writev cfg p off iov = Some p' →
  writev cfg (without_gc p) off iov = Some (without_gc p') ∧
  p_flight p' = p_flight p ∧ gc_queued p' = gc_queued p.
Proof.
  intros Hc. destruct (put_current_same p Hc) as (Hf & Hq & _). unfold writev. cbv zeta.
  change (p_current (without_gc p)) with (p_current p).
  set (n := Z.of_nat (SmartIov.bytes_of iov)).
  assert ((if room (p_current p) n then without_gc p else put_current cfg (without_gc p)) =
          without_gc (if room (p_current p) n then p else put_current cfg p)) as ->
    by (destruct (room _ _); [done|by rewrite put_current_landed]).
  set (p1 := if room (p_current p) n then p else put_current cfg p).
  assert (p_flight p1 = p_flight p ∧ gc_queued p1 = gc_queued p) as [Hf1 Hq1]
    by (unfold p1; destruct (room _ _); done).
  clearbody p1. change (p_current (without_gc p1)) with (p_current p1).
  change (p_heap (without_gc p1)) with (p_heap p1). change (p_bufmap (without_gc p1)) with (p_bufmap p1).
  intros ([[h cur] ptr] & -> & Hp)%bind_Some. cbn [mbind option_bind].
  apply bind_Some in Hp as ([] & -> & Hp). cbn [mbind option_bind].
  apply bind_Some in Hp as ([bm del] & -> & [= <-]). cbn [mbind option_bind]. done.
Qed.

Lemma submit_landed op p :
  op ≠ REQ_GC → is_gc (p_current p) = false →
  without_gc (submit cfg op p) = submit cfg op (without_gc p) ∧
  p_flight (submit cfg op p) = p_flight p ∧ gc_queued (submit cfg op p) = gc_queued p.
Proof.
  intros Hop Hc. destruct (put_current_same p Hc) as (Hf & Hq & _). unfold submit. cbv zeta.
  change (t_len (p_current (without_gc p))) with (t_len (p_current p)).
  assert ((if 0 <? t_len (p_current p) then put_current cfg (without_gc p) else without_gc p) =
          without_gc (if 0 <? t_len (p_current p) then put_current cfg p else p)) as ->
    by (destruct (_ <? _); [by rewrite put_current_landed|done]).
  set (p1 := if 0 <? t_len (p_current p) then put_current cfg p else p).
  assert (p_flight p1 = p_flight p ∧ gc_queued p1 = gc_queued p) as [Hf1 Hq1]
    by (unfold p1; destruct (_ <? _); done).
  assert (is_gc (new_req op [] []) = false) as Hg by by destruct op.
  unfold without_gc, gc_queued in *. cbn [p_queue p_flight p_heap p_next_buf p_bufmap p_current p_outstanding].
  rewrite !filter_app, filter_cons_True, filter_cons_False by (rewrite Hg; done).
  rewrite Hf1, Hq1. split; [done|]. split; [done|]. apply app_nil_r.
Qed.

Lemma flush_tick_landed p seq0 cur b :
  is_gc (p_current p) = false →
  without_gc (flush_tick cfg p seq0 cur b) = flush_tick cfg (without_gc p) seq0 cur b ∧
  p_flight (flush_tick cfg p seq0 cur b) = p_flight p ∧
  gc_queued (flush_tick cfg p seq0 cur b) = gc_queued p.
Proof.
  intros Hc. destruct (put_current_same p Hc) as (Hf & Hq & _). unfold flush_tick.
  change (t_len (p_current (without_gc p))) with (t_len (p_current p)).
  destruct (_ && _); [|done]. by rewrite put_current_landed.
Qed.

(** Steps that only change the pipeline *)
Lemma landed_pipe st p :
  p_flight p = p_flight (x_pipe st) → landed (with_pipe st p) = with_pipe (landed st) (without_gc p).
Proof. intros Hp. unfold landed, with_pipe, gc_flights. simpl. by rewrite Hp. Qed.

Lemma advance_pipe st p :
  p_flight p = p_flight (x_pipe st) → advance st (with_pipe st p).
Proof.
  intros Hf. split; simpl; try done; [by left| |by left].
  unfold sent. simpl. rewrite Hf. by left.
Qed.

(** ** A collection request *)

(** Where a sector is after a collection request, processed under number [sq]:
    where it was, or in the new object with the same contents. *)
Definition moved_to st s (sq x : Z) (q' : option obj_offset) : Prop :=
  q' = objmap_at (om_map (x_om st)) x ∨
  ∃ q k c, objmap_at (om_map (x_om st)) x = Some q ∧ obj q ∉ t_seq <$> sent (x_pipe st) ∧
    q' = Some (mk_obj_offset sq k) ∧ rados_obj s (oname name sq) = Some c ∧
    slice (Z.to_nat (512 * k)) 512 c = contents_at name (om_map (x_om st)) (x_store st) x.

Lemma moved_inv st st' D :
  inv st D → live_ok (x_om st') →
  p_heap (x_pipe st') = p_heap (x_pipe st) → p_next_buf (x_pipe st') = p_next_buf (x_pipe st) →
  p_bufmap (x_pipe st') = p_bufmap (x_pipe st) → p_current (x_pipe st') = p_current (x_pipe st) →
  p_queue (x_pipe st') = p_queue (x_pipe st) → p_flight (x_pipe st') = p_flight (x_pipe st) →
  x_cur_seq st' = x_cur_seq st + 1 → x_checkpoints st' = x_checkpoints st →
  x_clones st' = x_clones st → x_superblock_buf st' = x_superblock_buf st →
  (∀ x q, objmap_at (om_map (x_om st)) x = Some q →
     rados_obj (x_store st') (oname name (obj q)) = rados_obj (x_store st) (oname name (obj q))) →
  (∀ x, moved_to st (x_store st') (x_cur_seq st) x (objmap_at (om_map (x_om st')) x)) →
  inv st' D.
Proof.
  intros Hi Hlive Hh Hn Hb Hc Hq Hf Hs Hck Hcl Hsb Hst Hmv. pose proof (inv_seq _ _ _ _ Hi) as Hs0.
  assert (∀ c, c ∈ x_checkpoints st → 0 ≤ c < x_cur_seq st) as Hckr
    by apply (proj1 (Forall_forall _ _) (inv_ckpts _ _ _ _ Hi)).
  split; unfold pending, sent in *; rewrite ?Hh, ?Hn, ?Hb, ?Hc, ?Hq, ?Hf, ?Hs, ?Hck, ?Hcl, ?Hsb;
    try apply Hi; [done|lia| | | | |].
  - intros x q Hx. destruct (Hmv x) as [He|(q0 & k & c & _ & _ & He & _)]; rewrite He in Hx.
    + apply (inv_objs _ _ _ _ Hi) in Hx as [? ?]. split; [lia|done].
    + injection Hx as <-. cbn [obj]. split; [lia|]. intros ?%Hckr. lia.
  - apply Forall_forall. intros c ?%Hckr. lia.
  - eapply Forall_impl; [apply (inv_flight _ _ _ _ Hi)|]. intros f Hf0.
    eapply flight_ok_mono; [exact Hf0|lia|lia|done|auto].
  - intros r n b x p d Hin Hx Hbuf Hd. destruct (inv_sent _ _ _ _ Hi r n b x p d Hin Hx Hbuf Hd) as (k & Hk & Hsl).
    exists k. split; [|done]. destruct (Hmv x) as [He|(q0 & k0 & c & Hq0 & Hns & _)]; [by rewrite He|].
    rewrite Hk in Hq0. injection Hq0 as <-. destruct Hns. cbn [obj].
    apply list_elem_of_fmap. exists r. split; [done|]. apply list_elem_of_fmap. by exists (r, n, b).
  - intros x d Hx Hd. pose proof (inv_durable _ _ _ _ Hi x d Hx Hd) as Ho.
    destruct (Hmv x) as [He|(q0 & k0 & c & Hq0 & Hns & He & Hobj & Hsl)]; rewrite He.
    + destruct (objmap_at (om_map (x_om st)) x) as [q|] eqn:E; [|done]. rewrite (Hst x q E). exact Ho.
    + rewrite Hq0 in Ho. destruct Ho as (_ & b0 & Hb0 & Hd0). cbn [obj offset]. split.
      * intros (r & Heq & ([[r0 n0] b1] & -> & Hin)%list_elem_of_fmap)%list_elem_of_fmap.
        pose proof (proj1 (Forall_forall _ _) (inv_flight _ _ _ _ Hi) _ Hin) as (_ & _ & _ & Hr & _). cbn in Heq. lia.
      * exists c. split; [done|]. rewrite Hsl. unfold contents_at. by rewrite Hq0, Hb0.
Qed.

Definition valid_entry (m : M) (x : Z) (e : ckpt_mapentry) : Prop :=
  me_lba e ≤ x < me_lba e + me_len e ∧ obj <$> objmap_at m x = Some (me_obj e).

Lemma gc_valid_Exists (m : M) es x : gc_valid m es x ↔ Exists (valid_entry m x) es.
Proof.
  rewrite Exists_exists. unfold valid_entry. split.
  - intros (e & q & Hin & Hx & Hq & Ho). exists e. rewrite Hq. cbn. by rewrite Ho.
  - intros (e & Hin & Hx & (q & Hq & Ho)%fmap_Some). by exists e, q.
Qed.

#[export] Instance gc_valid_dec (m : M) es x : Decision (gc_valid m es x).
Proof. destruct (decide (Exists (valid_entry m x) es)); [left|right]; by rewrite gc_valid_Exists. Defined.

(** ** The invariant *)

Record gc_named st : Prop := {
  gn_flight f : f ∈ gc_flights (x_pipe st) →
    f.1.2 = oname name (t_seq f.1.1) ∧ 0 ≤ t_seq f.1.1 < x_cur_seq st ∧ t_seq f.1.1 ∉ x_checkpoints st;
  gn_seqs : NoDup (t_seq <$> sent (x_pipe st));
}.

(** The layer while a cycle for the objects [objs] runs *)
Record linv st D objs : Prop := {
  li_inv : inv (landed st) D;
  li_lim : x_cur_seq st ≤ 2 ^ 31;
  li_named : gc_named st;
  li_settled : Forall (settled st) objs;
  li_reqs : Forall (req_good st objs) (gc_queued (x_pipe st));
}.

(** Which sectors the requests [todo] and those in the queue cover *)
Definition covering st objs (todo : list translate_req) : Prop :=
  gc_covered (om_map (x_om st)) objs (gc_queued (x_pipe st) ++ todo).

Lemma gc_flights_sent p f : f ∈ gc_flights p → t_seq f.1.1 ∈ t_seq <$> sent p.
Proof.
  unfold gc_flights, sent. intros [_ Hf]%list_elem_of_filter. apply list_elem_of_fmap. exists f.1.1.
  split; [done|]. apply list_elem_of_fmap. by exists f.
Qed.

(** A number that no collection object on its way has *)
Lemma gc_flights_name st o :
  gc_named st → x_cur_seq st ≤ 2 ^ 31 → 0 ≤ o < 2 ^ 32 →
  (∀ f, f ∈ gc_flights (x_pipe st) → t_seq f.1.1 ≠ o) → oname name o ∉ (gc_flights (x_pipe st)).*1.*2.
Proof.
  intros Hg Hl Ho Hne (r & Heq & (f & -> & Hin)%list_elem_of_fmap)%list_elem_of_fmap.
  destruct (gn_flight _ Hg f Hin) as (Hn & Hr & _). rewrite Hn in Heq.
  apply oname_inj in Heq as [_ Heq]; [|lia|lia]. by apply (Hne f Hin).
Qed.

Lemma landed_settled st o :
  gc_named st → x_cur_seq st ≤ 2 ^ 31 → settled st o →
  rados_obj (x_store (landed st)) (oname name o) = rados_obj (x_store st) (oname name o).
Proof.
  intros Hg Hl (Ho & _ & Hs). apply land_other, gc_flights_name; [done|done|lia|].
  intros f Hf <-. by apply Hs, gc_flights_sent.
Qed.

(** Outstanding PUTs are told apart by their numbers, collection objects by their
    names too. *)
Lemma sent_inj st f f' :
  gc_named st → f ∈ p_flight (x_pipe st) → f' ∈ p_flight (x_pipe st) → t_seq f.1.1 = t_seq f'.1.1 → f = f'.
Proof.
  intros Hg Hf Hf' Heq. pose proof (gn_seqs _ Hg) as Hnd. unfold sent in Hnd. rewrite <- list_fmap_compose in Hnd.
  by apply (NoDup_fmap_eq _ _ f f' Hnd).
Qed.

Lemma gc_flights_in p f : f ∈ gc_flights p → f ∈ p_flight p.
Proof. by intros [_ ?]%list_elem_of_filter. Qed.

Lemma gc_flight_inj st f f' :
  gc_named st → x_cur_seq st ≤ 2 ^ 31 → f ∈ gc_flights (x_pipe st) → f' ∈ gc_flights (x_pipe st) →
  f.1.2 = f'.1.2 → f = f'.
Proof.
  intros Hg Hl Hf Hf' Heq. destruct (gn_flight _ Hg f Hf) as (Hn & Hr & _), (gn_flight _ Hg f' Hf') as (Hn' & Hr' & _).
  rewrite Hn, Hn' in Heq. apply oname_inj in Heq as [_ ?]; [|lia|lia].
  apply (sent_inj st); [done|by apply gc_flights_in..|done].
Qed.

Lemma not_name (l : list flight) n : (∀ f, f ∈ l → f.1.2 ≠ n) → n ∉ l.*1.*2.
Proof. intros Hl (r & He & (f & -> & Hin)%list_elem_of_fmap)%list_elem_of_fmap. by apply (Hl f). Qed.

Lemma gc_flights_NoDup st : gc_named st → NoDup (gc_flights (x_pipe st)).
Proof.
  intros Hg. apply (NoDup_fmap_1 (λ f : flight, t_seq f.1.1)). eapply sublist_NoDup; [apply (gn_seqs _ Hg)|].
  unfold sent, gc_flights. rewrite <- list_fmap_compose. apply fmap_sublist, sublist_filter.
Qed.

(** A collection object that is on its way *)
Lemma landed_flight st f :
  gc_named st → x_cur_seq st ≤ 2 ^ 31 → f ∈ gc_flights (x_pipe st) →
  rados_obj (x_store (landed st)) f.1.2 = rados_obj (write (x_store st) f.1.2 f.2).2 f.1.2.
Proof.
  intros Hg Hl Hf. cbn [landed x_store]. pose proof (gc_flights_NoDup st Hg) as Hnd.
  pose proof (λ f', gc_flight_inj st f' f Hg Hl) as Hinj.
  apply list_elem_of_split in Hf as (l1 & l2 & Hl12). rewrite Hl12 in Hnd, Hinj |- *. clear Hl12.
  apply NoDup_app in Hnd as (_ & H1 & [H2 _]%NoDup_cons).
  assert (f.1.2 ∉ l1.*1.*2 ∧ f.1.2 ∉ l2.*1.*2) as [Hn1 Hn2].
  { split; apply not_name; intros f' Hin Heq; (assert (f' = f) as -> by (apply Hinj; [set_solver|set_solver|done]));
      [by apply (H1 f Hin); left|done]. }
  rewrite land_app. cbn [land foldl]. fold (land (write (land (x_store st) l1) f.1.2 f.2).2 l2).
  rewrite land_other by done. unfold write. cbn [snd]. by rewrite !rados_write_same, land_other.
Qed.

(** When it arrives, nothing changes for what has arrived before. *)
Lemma landed_arrive st st' f (g1 g2 : list flight) m :
  gc_named st → gc_named st' → x_cur_seq st ≤ 2 ^ 31 → x_cur_seq st' = x_cur_seq st →
  gc_flights (x_pipe st) = g1 ++ f :: g2 → gc_flights (x_pipe st') = g1 ++ g2 →
  x_store st' = (write (x_store st) f.1.2 f.2).2 →
  rados_obj (x_store (landed st')) m = rados_obj (x_store (landed st)) m.
Proof.
  intros Hg Hg' Hl Hc Hp Hp' Hst. pose proof (gc_flights_NoDup st Hg) as Hnd. rewrite Hp in Hnd.
  apply NoDup_app in Hnd as (_ & H1 & [H2 _]%NoDup_cons).
  assert (f ∈ gc_flights (x_pipe st)) as Hf by (rewrite Hp; set_solver).
  assert (∀ f', f' ∈ g1 ++ g2 → f' ∈ gc_flights (x_pipe st) ∧ f'.1.2 ≠ f.1.2) as Hne.
  { intros f' Hin. assert (f' ∈ gc_flights (x_pipe st)) as Hin' by (rewrite Hp; set_solver). split; [done|].
    intros Heq. assert (f' = f) as -> by by apply (gc_flight_inj st).
    apply elem_of_app in Hin as [Hin|Hin]; [|done]. apply (H1 f Hin). by left. }
  destruct (decide (m = f.1.2)) as [->|Hm].
  - rewrite (landed_flight st f) by done. cbn [landed x_store]. rewrite Hp', land_other, Hst; [done|].
    apply not_name. intros f' Hin. by apply Hne.
  - assert (rados_obj (x_store st') m = rados_obj (x_store st) m) as Hsm by (rewrite Hst; by apply rados_write_other).
    destruct (decide (m ∈ (g1 ++ g2).*1.*2)) as [(y & -> & (f' & -> & Hin)%list_elem_of_fmap)%list_elem_of_fmap|Hn].
    + destruct (Hne f' Hin) as [Hin0 _]. rewrite (landed_flight st f'), (landed_flight st' f'); [|done|lia|by rewrite Hp'|done..].
      unfold write. cbn [snd]. by rewrite !rados_write_same, Hsm.
    + cbn [landed x_store]. rewrite Hp', Hp, !land_other; [done| |done].
      rewrite !fmap_app, !fmap_cons in *. set_solver.
Qed.

Lemma sent_bound st D objs sq :
  linv st D objs → sq ∈ t_seq <$> sent (x_pipe st) → 0 ≤ sq < x_cur_seq st ∧ sq ∉ x_checkpoints st.
Proof.
  intros Hi (r & -> & (f & -> & Hf)%list_elem_of_fmap)%list_elem_of_fmap.
  destruct (is_gc f.1.1) eqn:E.
  - apply (gn_flight _ (li_named _ _ _ Hi)). unfold gc_flights. by apply list_elem_of_filter.
  - assert (f ∈ p_flight (x_pipe (landed st))) as Hf' by by apply list_elem_of_filter.
    destruct f as [[r n] b].
    by destruct (proj1 (Forall_forall _ _) (inv_flight _ _ _ _ (li_inv _ _ _ Hi)) _ Hf') as (_ & _ & _ & ? & ?).
Qed.

Lemma sent_landed st sq : sq ∈ t_seq <$> sent (x_pipe (landed st)) → sq ∈ t_seq <$> sent (x_pipe st).
Proof.
  intros (r & -> & (f & -> & [_ Hf]%list_elem_of_filter)%list_elem_of_fmap)%list_elem_of_fmap.
  apply list_elem_of_fmap_2, list_elem_of_fmap. by exists f.
Qed.

Lemma ckpts_bound st D objs c : linv st D objs → c ∈ x_checkpoints st → 0 ≤ c < x_cur_seq st.
Proof. intros Hi. apply (proj1 (Forall_forall _ _) (inv_ckpts _ _ _ _ (li_inv _ _ _ Hi))). Qed.

(** Another number, with what it brings *)
Lemma linv_advance st D objs st' D' :
  linv st D objs → advance st st' → kept st st' →
  (∀ r, r ∈ gc_queued (x_pipe st') → r ∈ gc_queued (x_pipe st)) →
  inv (landed st') D' → x_cur_seq st' ≤ 2 ^ 31 → gc_named st' → linv st' D' objs.
Proof.
  intros [_ _ _ Hs Hr] Ha Hk Hsub Hi' Hl' Hn'. split; try done.
  - eapply Forall_impl; [exact Hs|]. intros o. by apply settled_advance.
  - apply Forall_forall. intros r Hin%Hsub.
    apply (req_good_advance st); [done..|]. by apply (proj1 (Forall_forall _ _) Hr).
Qed.

Lemma write_gc_frame st sq r st' :
  write_gc crc32 cfg name uuid st sq r = Some st' →
  (∃ l, gc_collect (om_map (x_om st)) (t_entries r) (t_gc_data r) = Some l ∧ gc_hdr_fits cfg (length l)) ∧
  x_cur_seq st' = x_cur_seq st ∧ x_checkpoints st' = x_checkpoints st ∧ x_clones st' = x_clones st ∧
  x_superblock_buf st' = x_superblock_buf st ∧ x_store st' = x_store st.
Proof.
  unfold write_gc. intros (l & Hl & (om & _ & (u & Ha & (hdr & _ & (pf & _ & [= <-])%bind_Some)%bind_Some)%bind_Some)%bind_Some)%bind_Some.
  split; [|done]. exists l. split; [done|]. rewrite length_fmap in Ha.
  unfold assert in Ha. destruct (_ <=? _) eqn:E in Ha; [|done]. by apply Z.leb_le in E.
Qed.

(** The worker processes a request of the collector: the sectors that still are
    where they were when the request was made are moved, with their contents. *)
Lemma worker_gc_ok st D objs r q st' :
  uuid_ok uuid → linv st D objs → x_cur_seq st < 2 ^ 31 →
  p_queue (x_pipe st) = r :: q → t_op r = REQ_GC →
  write_gc crc32 cfg name uuid (dequeue st q true) (x_cur_seq st) r = Some st' →
  linv st' D objs ∧ advance st st' ∧ kept st st' ∧ ∀ todo, covering st objs todo → covering st' objs todo.
Proof.
  intros Hu Hl Hlim Hq Hop Hw. pose proof (li_inv _ _ _ Hl) as Hi. pose proof (inv_seq _ _ _ _ Hi) as Hs0.
  change (0 ≤ x_cur_seq st) in Hs0.
  assert (gc_queued (x_pipe st) = r :: filter (λ r, is_gc r = true) q) as Hgq.
  { unfold gc_queued. rewrite Hq, filter_cons_True; [done|]. unfold is_gc. by rewrite Hop. }
  pose proof (li_reqs _ _ _ Hl) as Hgood. rewrite Hgq in Hgood. apply Forall_cons in Hgood as [(_ & f & Hreq & Hes & Hf) _].
  destruct (write_gc_frame _ _ _ _ Hw) as ((l & Hcol & Hfit) & Hcur' & Hck' & Hcl' & Hsb' & Hst').
  change (gc_collect (om_map (x_om st)) (t_entries r) (t_gc_data r) = Some l) in Hcol.
  assert (unused (om_map (x_om st)) (x_cur_seq st)) as Hun.
  { intros x p Hx Hp. destruct (inv_objs _ _ _ _ Hi x p Hx) as [Ho _]. cbn in Ho. lia. }
  destruct (write_gc_ok crc32 cfg name uuid (dequeue st q true) f (x_cur_seq st) r l)
    as (st1 & r' & b & Hw1 & Hlive & Hp & Hop' & Hseq & Hmv & Hsame); auto;
    [apply (inv_live _ _ _ _ Hi)|unfold seq_ok; lia|apply (inv_clones _ _ _ _ Hi)|].
  rewrite Hw in Hw1. injection Hw1 as <-. cbn [dequeue x_om x_pipe p_heap x_cur_seq x_checkpoints x_clones x_superblock_buf x_store] in *.
  assert (is_gc r' = true) as Hg' by (unfold is_gc; by rewrite Hop', Hop).
  assert (is_gc r = true) as Hg by (unfold is_gc; by rewrite Hop).
  assert (gc_flights (x_pipe st') = gc_flights (x_pipe st) ++ [(r', oname name (x_cur_seq st), b)]) as Hgf.
  { rewrite Hp. unfold gc_flights, aio_write. cbn [p_flight]. by rewrite filter_app, (filter_cons_True _ (r', _, b)). }
  assert (gc_queued (x_pipe st') = filter (λ r, is_gc r = true) q) as Hgq' by by rewrite Hp.
  assert (sent (x_pipe st') = sent (x_pipe st) ++ [r']) as Hsent.
  { rewrite Hp. unfold sent, aio_write. cbn [p_flight]. by rewrite fmap_app. }
  assert (∀ x, gc_valid (om_map (x_om st)) (t_entries r) x →
    ∃ q, objmap_at (om_map (x_om st)) x = Some q ∧ settled st (obj q) ∧ obj q ∈ objs) as Hvo.
  { intros x Hv. destruct (valid_obj objs _ _ x Hes Hv) as (q0 & ? & ?). exists q0. split_and!; auto.
    by apply (proj1 (Forall_forall _ _) (li_settled _ _ _ Hl)). }
  assert (advance st st') as Ha.
  { split; rewrite ?Hcur', ?Hck', ?Hsent; [lia|by left| |].
    - intros sq. rewrite fmap_app, elem_of_app. intros [?|Hin%list_elem_of_singleton]; [by left|right; lia].
    - intros x p Hx. destruct (decide (gc_valid (om_map (x_om st)) (t_entries r) x)) as [Hv|Hv].
      + destruct (Hmv x Hv) as (k & Hk & _). rewrite Hx in Hk. injection Hk as ->. right. cbn. lia.
      + rewrite (Hsame x Hv) in Hx. by left. }
  assert (kept st st') as Hk by (intros o _; unfold same_object; by rewrite Hst').
  split; [|split; [done|split; [done|]]].
  - apply (linv_advance st D objs st' D Hl Ha Hk); [rewrite Hgq, Hgq'; by right| |lia|].
    + apply (moved_inv (landed st)); cbn [landed x_om x_pipe x_cur_seq x_checkpoints x_clones x_superblock_buf x_store without_gc
        p_heap p_next_buf p_bufmap p_current p_queue p_flight]; rewrite ?Hp; try done.
      * cbn [aio_write p_queue]. rewrite Hq, filter_cons_False by (rewrite Hg; discriminate). done.
      * cbn [aio_write p_flight]. rewrite filter_app, (filter_cons_False _ (r', _, b)) by (cbn; rewrite Hg'; discriminate).
        apply app_nil_r.
      * intros x q0 Hx. destruct (inv_objs _ _ _ _ Hi x q0 Hx) as [Ho _]. cbn in Ho.
        rewrite <- Hp, Hgf, land_app, Hst'. apply rados_write_other.
        intros [_ ?]%oname_inj; lia.
      * intros x. rewrite <- Hp, Hgf, land_app, Hst'.
        destruct (decide (gc_valid (om_map (x_om st)) (t_entries r) x)) as [Hv|Hv]; [right|by left; apply Hsame].
        destruct (Hmv x Hv) as (k & Hx & Hk0 & Hkb & Hsl). destruct (Hvo x Hv) as (q0 & Hq0 & Hset & _).
        eexists q0, k, _. split; [done|]. split; [intros ?%sent_landed; by apply Hset|]. split; [done|].
        split; [apply rados_write_same|]. cbn [fst snd]. rewrite slice_app_l by lia. rewrite Hsl, <- (Hf x Hv).
        unfold contents_at. change (x_om (landed st)) with (x_om st). rewrite Hq0.
        rewrite (landed_settled st); [done|apply Hl|apply Hl|done].
    + split.
      * intros f0. rewrite Hgf, elem_of_app, Hcur', Hck'. intros [Hf0|Hf0%list_elem_of_singleton].
        -- destruct (gn_flight _ (li_named _ _ _ Hl) f0 Hf0) as (? & ? & ?). split_and!; auto; lia.
        -- subst f0. cbn [fst snd]. rewrite Hseq. split_and!; [done|lia|lia|]. intros ?%(ckpts_bound st D objs); [lia|done].
      * rewrite Hsent, fmap_app. apply NoDup_app. split; [apply (gn_seqs _ (li_named _ _ _ Hl))|].
        split; [|apply NoDup_singleton]. intros sq Hsq ->%list_elem_of_singleton.
        apply (sent_bound st D objs) in Hsq as [? _]; [lia|done].
  - intros todo Hc x p Hx Ho. assert (¬ gc_valid (om_map (x_om st)) (t_entries r) x) as Hv.
    { intros Hv. destruct (Hmv x Hv) as (k & Hk0 & _). rewrite Hx in Hk0. injection Hk0 as ->. cbn in Ho.
      destruct (proj1 (Forall_forall _ _) (li_settled _ _ _ Hl) _ Ho) as [? _]. lia. }
    rewrite (Hsame x Hv) in Hx. destruct (Hc x p Hx Ho) as (r0 & e & Hr0 & He & Hxe & Hoe).
    rewrite Hgq in Hr0. rewrite Hgq'. apply elem_of_cons in Hr0 as [->|Hr0]; [|by exists r0, e].
    destruct Hv. by exists e, p.
Qed.

(** ** Steps of the layer *)

(** What a step of the layer leaves of a cycle that is running *)
Definition goes st objs st' D' : Prop :=
  linv st' D' objs ∧ advance st st' ∧ kept st st' ∧ ∀ todo, covering st objs todo → covering st' objs todo.

(** Every step but the processing of a collection request *)
Lemma goes_intro st D objs st' D' :
  linv st D objs → advance st st' → kept st st' → gc_queued (x_pipe st') = gc_queued (x_pipe st) →
  inv (landed st') D' → x_cur_seq st' ≤ 2 ^ 31 → gc_named st' → goes st objs st' D'.
Proof.
  intros Hl Ha Hk Hq Hi Hlim Hn. split; [by apply (linv_advance st D); [..|rewrite Hq| | |]|]. split; [done|]. split; [done|].
  intros todo Hc. unfold covering in *. rewrite Hq. eapply covered_advance; [done|apply Hl|done].
Qed.

Lemma gc_named_same st st' :
  gc_named st → p_flight (x_pipe st') = p_flight (x_pipe st) → x_cur_seq st ≤ x_cur_seq st' →
  (∀ c, c < x_cur_seq st → c ∉ x_checkpoints st → c ∉ x_checkpoints st') → gc_named st'.
Proof.
  intros [Hf Hs] Hp Hle Hc. split; unfold gc_flights, sent; rewrite Hp; [|done].
  intros f (? & ? & ?)%Hf. split; [done|]. split; [lia|]. apply Hc; [lia|done].
Qed.

Lemma current_put st D objs : linv st D objs → is_gc (p_current (x_pipe st)) = false.
Proof. intros Hl. unfold is_gc. pose proof (inv_current _ _ _ _ (li_inv _ _ _ Hl)) as Hc. cbn in Hc. by rewrite Hc. Qed.

(** Steps that only change what is not on its way to the backend *)
Lemma goes_pipe st D objs p D' :
  linv st D objs → p_flight p = p_flight (x_pipe st) → gc_queued p = gc_queued (x_pipe st) →
  inv (with_pipe (landed st) (without_gc p)) D' → goes st objs (with_pipe st p) D'.
Proof.
  intros Hl Hf Hq Hi. apply (goes_intro st D); auto.
  - by apply advance_pipe.
  - by intros o _.
  - by rewrite landed_pipe.
  - apply Hl.
  - apply (gc_named_same st); simpl; auto; [apply Hl|lia].
Qed.

(** A request of the layer at the head of the queue *)
Lemma head_landed st r q :
  p_queue (x_pipe st) = r :: q → is_gc r = false →
  p_queue (x_pipe (landed st)) = r :: filter (λ r, is_gc r = false) q ∧
  gc_queued (x_pipe st) = filter (λ r, is_gc r = true) q.
Proof.
  intros Hq Hr. unfold gc_queued. cbn [landed x_pipe without_gc p_queue].
  rewrite Hq, filter_cons_True, filter_cons_False by (rewrite Hr; done). done.
Qed.

Lemma process_batch_frame st sq r st' :
  process_batch insert_object crc32 name uuid st sq r = Some st' →
  ∃ om dm h n b rc,
    batch_objmap sq (batch_hdr_sectors (length (t_entries r))) (t_len r / 512) (t_entries r) (x_om st) = Some (om, dm) ∧
    st' = mk_xstate om (aio_write (x_pipe st) h (with_seq r sq (t_entries r)) n b) (x_cur_seq st)
            (x_checkpoints st) (x_clones st) (x_refcount st) (x_superblock_buf st) rc (x_store st) ∧
    ∀ st0, x_om st0 = x_om st → p_heap (x_pipe st0) = p_heap (x_pipe st) → x_clones st0 = x_clones st →
      ∃ rc0, process_batch insert_object crc32 name uuid st0 sq r =
        Some (mk_xstate om (aio_write (x_pipe st0) h (with_seq r sq (t_entries r)) n b) (x_cur_seq st0)
                (x_checkpoints st0) (x_clones st0) (x_refcount st0) (x_superblock_buf st0) rc0 (x_store st0)).
Proof.
  unfold process_batch. intros ([om dm] & Hom & (hdr & Hh & (h & Hw & (pf & Hp & (b & Hb & [= <-])%bind_Some)%bind_Some)%bind_Some)%bind_Some)%bind_Some.
  exists om, dm, h, (oname pf sq), b. eexists. split; [done|]. split; [reflexivity|].
  intros st0 -> -> ->. rewrite Hom. cbn [mbind option_bind]. rewrite Hh. cbn [mbind option_bind].
  rewrite Hw. cbn [mbind option_bind]. rewrite Hp. cbn [mbind option_bind]. rewrite Hb. cbn [mbind option_bind].
  by eexists.
Qed.

(** The map after a batch *)
Lemma batch_map st D r q om dm sq :
  cfg_ok cfg → uuid_ok uuid → inv st D → p_queue (x_pipe st) = r :: q → t_op r = REQ_PUT →
  x_cur_seq st = sq → sq < 2 ^ 31 →
  batch_objmap sq (batch_hdr_sectors (length (t_entries r))) (t_len r / 512) (t_entries r) (x_om st) = Some (om, dm) →
  ∀ x, objmap_at (om_map om) x = objmap_at (om_map (x_om st)) x ∨
       ∃ k, objmap_at (om_map om) x = Some (mk_obj_offset sq k).
Proof.
  intros Hcfg Hu Hi Hq Hop <- Hlim Hom x. pose proof (inv_seq _ _ _ _ Hi) as Hs0.
  assert (seq_ok (x_cur_seq st)) as Hs by (unfold seq_ok; lia).
  pose proof (inv_pend _ _ _ _ Hi) as HP. unfold pending in HP. rewrite Hq in HP. apply Forall_cons in HP as [HP _].
  unfold req_ok in HP. rewrite Hop in HP.
  destruct (batch_object crc32 cfg uuid _ _ r (x_cur_seq st) Hcfg Hu HP Hs)
    as (hb & h' & b & _ & _ & _ & Hdata & Hh0 & Hlimit & _).
  assert (unused (om_map (x_om st)) (x_cur_seq st)) as Hun.
  { intros y p Hp Heq. apply (inv_objs _ _ _ _ Hi) in Hp. lia. }
  pose proof HP as (_ & _ & _ & Hes & _).
  destruct (batch_objmap_ok (x_om st) (x_cur_seq st) _ _ (t_entries r) (inv_live _ _ _ _ Hi) Hs Hun Hes
              Hh0 Hlimit Hdata) as (om1 & dm1 & Hom1 & _ & _ & Hmap & _).
  rewrite Hom in Hom1. injection Hom1 as <- <-. rewrite Hmap. destruct (batch_lookup _ _ _) as [k|]; [right|by left].
  by exists k.
Qed.

Section layer.
Hypothesis Hcfg : cfg_ok cfg.
Hypothesis Huuid : uuid_ok uuid.
Hypothesis Hvol : 0 ≤ vol_bytes < 2 ^ 64.

Lemma goes_put st D objs r q st' :
  linv st D objs → x_cur_seq st < 2 ^ 31 → p_queue (x_pipe st) = r :: q → t_op r = REQ_PUT →
  process_batch insert_object crc32 name uuid (dequeue st q true) (x_cur_seq st) r = Some st' →
  goes st objs st' D.
Proof.
  intros Hl Hlim Hq Hop Hb. assert (is_gc r = false) as Hg by (unfold is_gc; by rewrite Hop).
  destruct (head_landed st r q Hq Hg) as [Hq0 Hgq].
  destruct (process_batch_frame _ _ _ _ Hb) as (om & dm & h & n & b & rc & Hom & -> & Hframe).
  destruct (worker_put_inv insert_object crc32 cfg name uuid (landed st) D r _ Hcfg Huuid (li_inv _ _ _ Hl) Hq0 Hop Hlim)
    as (st0 & Hb0 & Hi0). set (q0 := filter (λ r, is_gc r = false) q) in *.
  destruct (Hframe (dequeue (landed st) q0 true)) as [rc0 Hb1]; [done..|].
  change (x_cur_seq (landed st)) with (x_cur_seq st) in Hb0. rewrite Hb1 in Hb0. injection Hb0 as <-.
  pose proof (batch_map (landed st) D r _ om dm (x_cur_seq st) Hcfg Huuid (li_inv _ _ _ Hl) Hq0 Hop eq_refl Hlim Hom) as Hmap.
  set (r' := with_seq r (x_cur_seq st) (t_entries r)) in *.
  assert (is_gc r' = false) as Hg' by done.
  set (st1 := mk_xstate _ _ _ _ _ _ _ _ _).
  assert (gc_flights (x_pipe st1) = gc_flights (x_pipe st)) as Hgf.
  { unfold gc_flights. cbn [st1 x_pipe aio_write p_flight dequeue]. rewrite filter_app.
    rewrite (filter_cons_False _ (r', n, b)) by (cbn; rewrite Hg'; discriminate). apply app_nil_r. }
  assert (sent (x_pipe st1) = sent (x_pipe st) ++ [r']) as Hsent.
  { unfold sent. cbn [st1 x_pipe aio_write p_flight dequeue]. by rewrite fmap_app. }
  apply (goes_intro st D); auto.
  - split.
    + cbn. lia.
    + by left.
    + intros sq. rewrite Hsent, fmap_app, elem_of_app. intros [?|Hin%list_elem_of_singleton]; [by left|right].
      rewrite Hin. cbn. lia.
    + intros x p. change (x_om st1) with om. destruct (Hmap x) as [-> |[k ->]]; [by left|].
      intros [= <-]. right. cbn. lia.
  - by intros o _.
  - apply (inv_transfer _ _ _ Hi0); try done; try apply Hi0.
    + cbn. rewrite filter_app, (filter_cons_True _ (r', n, b)) by done. done.
    + intros x p _. cbn [landed x_store]. by rewrite Hgf.
  - cbn. lia.
  - split.
    + intros f. rewrite Hgf. intros Hf. destruct (gn_flight _ (li_named _ _ _ Hl) f Hf) as (? & ? & ?).
      cbn [st1 x_cur_seq x_checkpoints dequeue]. split_and!; auto; lia.
    + rewrite Hsent, fmap_app. apply NoDup_app. split; [apply Hl|]. split; [|apply NoDup_singleton].
      intros sq Hsq Hin%list_elem_of_singleton. apply (sent_bound st D objs) in Hsq as [? _]; [|done].
      rewrite Hin in *. cbn in *. lia.
Qed.

Lemma goes_flush st D objs r q :
  linv st D objs → p_queue (x_pipe st) = r :: q → t_op r = REQ_FLUSH → goes st objs (dequeue st q false) D.
Proof.
  intros Hl Hq Hop. assert (is_gc r = false) as Hg by (unfold is_gc; by rewrite Hop).
  destruct (head_landed st r q Hq Hg) as [Hq0 Hgq]. apply (goes_intro st D); auto.
  - split; cbn; try done; by left.
  - by intros o _.
  - assert (inv (requeue (landed st) (filter (λ r, is_gc r = false) q) (x_cur_seq st)) D) as Hi; [|exact Hi].
    apply (dequeue_inv crc32 cfg name uuid (landed st) D r _ _ (li_inv _ _ _ Hl)); [done|done|congruence].
  - apply Hl.
  - apply (gc_named_same st); cbn; auto; [apply Hl|lia].
Qed.

Lemma goes_ckpt st D objs r q st' :
  linv st D objs → x_cur_seq st < 2 ^ 31 → ckpt_fits st → p_queue (x_pipe st) = r :: q → t_op r = REQ_CKPT →
  write_checkpoint name uuid vol_bytes (dequeue st q true) (x_cur_seq st) = Some st' →
  goes st objs st' D ∧ checkpointed name uuid vol_bytes st (x_cur_seq st) (x_checkpoints st') (x_store st') ∧
  x_om st' = x_om st ∧ x_checkpoints st' = (keep_last_3 (x_checkpoints st ++ [x_cur_seq st])).2.
Proof.
  intros Hl Hlim Hfit Hq Hop Hb. pose proof (li_inv _ _ _ Hl) as Hi. pose proof (inv_seq _ _ _ _ Hi) as Hs0.
  assert (is_gc r = false) as Hg by (unfold is_gc; by rewrite Hop).
  destruct (head_landed st r q Hq Hg) as [Hq0 Hgq]. cbn in Hs0.
  destruct (write_checkpoint_wf crc32 name uuid vol_bytes (dequeue st q true) (x_cur_seq st))
    as (sb & store & Hw & Hsb & Hst); auto; try apply Hi.
  rewrite Hw in Hb. injection Hb as <-. cbn [x_checkpoints x_store x_om] in *.
  change (x_checkpoints (dequeue st q true)) with (x_checkpoints st) in *. set (ck := (keep_last_3 _).2) in *.
  split; [|by split].
  assert (∀ c, c ∈ ck → c ∈ x_checkpoints st ∨ c = x_cur_seq st) as Hck by (intros c; apply kept_ckpts).
  assert (∀ o, 0 ≤ o < x_cur_seq st → o ∉ x_checkpoints st →
    rados_obj store (oname name o) = rados_obj (x_store st) (oname name o)) as Hsame.
  { intros o Ho Hn. apply (proj1 Hst); [lia|lia|done]. }
  destruct (worker_ckpt_inv crc32 cfg name uuid vol_bytes (landed st) D r (filter (λ r, is_gc r = false) q) Huuid Hvol)
    as (st0 & Hw0 & Hi0 & _); auto; [congruence|].
  destruct (write_checkpoint_wf crc32 name uuid vol_bytes (dequeue (landed st) (filter (λ r, is_gc r = false) q) true) (x_cur_seq st))
    as (sb0 & store0 & Hw1 & _ & Hst0); auto; try apply Hi.
  change (x_cur_seq (landed st)) with (x_cur_seq st) in Hw0. rewrite Hw0 in Hw1. injection Hw1 as ->.
  apply (goes_intro st D); auto.
  - split; cbn; [lia| |by left|by left]. intros c [?| ->]%Hck; [by left|right; lia].
  - intros o (Ho & Hn & _). by apply Hsame.
  - apply (inv_transfer _ _ _ Hi0); try done; [apply Hi0|]. intros x p Hx. cbn [landed x_store x_pipe].
    destruct (inv_objs _ _ _ _ Hi x p Hx) as [Ho Hn]. cbn in Ho, Hn.
    rewrite (proj1 Hst0) by (cbn; try lia; done). cbn [dequeue landed x_store].
    apply land_ext. by apply Hsame.
  - cbn. lia.
  - apply (gc_named_same st); cbn; auto; [apply Hl|lia|]. intros c Hc Hn [?|?]%Hck; [done|lia].
Qed.

(** *** Completions *)

Lemma named_delete st f (f1 f2 : list flight) st' :
  gc_named st → p_flight (x_pipe st) = f1 ++ f :: f2 → p_flight (x_pipe st') = f1 ++ f2 →
  x_cur_seq st' = x_cur_seq st → x_checkpoints st' = x_checkpoints st → gc_named st'.
Proof.
  intros [Hf Hs] Hp Hp' Hc Hck. split; unfold gc_flights, sent in *; rewrite Hp', ?Hc, ?Hck.
  - intros f' [Hg Hin]%list_elem_of_filter. apply Hf. rewrite Hp. apply list_elem_of_filter. split; [done|].
    rewrite elem_of_app, elem_of_cons in *. tauto.
  - rewrite Hp, fmap_app, fmap_cons, fmap_app, fmap_cons in Hs. rewrite !fmap_app.
    apply NoDup_app in Hs as (H1 & H2 & [H3 H4]%NoDup_cons). apply NoDup_app. split_and!; auto.
    intros sq Hsq Hsq2. apply (H2 sq Hsq). by right.
Qed.

(** A completion leaves what is settled, when its own name is not. *)
Lemma kept_complete st f f1 f2 st' D objs :
  linv st D objs → p_flight (x_pipe st) = f1 ++ f :: f2 → f.1.2 = oname name (t_seq f.1.1) →
  x_store st' = (write (x_store st) f.1.2 f.2).2 → kept st st'.
Proof.
  intros Hl Hp Hn Hst o (Ho & _ & Hs). unfold same_object. rewrite Hst. pose proof (li_lim _ _ _ Hl).
  assert (t_seq f.1.1 ∈ t_seq <$> sent (x_pipe st)) as Hin.
  { unfold sent. rewrite Hp, fmap_app, fmap_app. apply elem_of_app. right. by left. }
  destruct (sent_bound st D objs _ Hl Hin) as [Hb _]. apply rados_write_other. rewrite Hn.
  intros [_ Heq]%oname_inj; [|lia|lia]. by rewrite Heq in Hin.
Qed.

Lemma advance_delete st f f1 f2 st' :
  p_flight (x_pipe st) = f1 ++ f :: f2 → p_flight (x_pipe st') = f1 ++ f2 → x_om st' = x_om st →
  x_cur_seq st' = x_cur_seq st → x_checkpoints st' = x_checkpoints st → advance st st'.
Proof.
  intros Hp Hp' Hom Hc Hck. split; rewrite ?Hc, ?Hck, ?Hom; auto; [lia|].
  intros sq. unfold sent. rewrite Hp, Hp', !fmap_app, !fmap_cons, !elem_of_app, elem_of_cons. tauto.
Qed.

Lemma notify_landed p r fl p' :
  is_gc r = false → notify p r fl = Some p' →
  notify (without_gc p) r (filter (λ f, is_gc f.1.1 = false) fl) = Some (without_gc p') ∧
  p_flight p' = fl ∧ p_queue p' = p_queue p.
Proof.
  intros Hg. unfold notify. cbn [without_gc p_bufmap p_heap p_next_buf p_current p_queue p_outstanding].
  destruct (t_op r) eqn:Hop; [| | |unfold is_gc in Hg; by rewrite Hop in Hg].
  - intros (exts & He & (bm & Hb & [= <-])%bind_Some)%bind_Some. rewrite He. cbn [mbind option_bind]. by rewrite Hb.
  - by intros [= <-].
  - by intros [= <-].
Qed.

Lemma goes_complete_put st D objs i r n b st' :
  linv st D objs → p_flight (x_pipe st) !! i = Some (r, n, b) → is_gc r = false →
  complete st i = Some st' → goes st objs st' D.
Proof.
  intros Hl Hf Hg Hc. pose proof (li_inv _ _ _ Hl) as Hi. unfold complete in Hc. rewrite Hf in Hc.
  cbn [mbind option_bind] in Hc. apply bind_Some in Hc as (p & Hn & [= <-]).
  apply lookup_split in Hf as (f1 & f2 & Hp & Hlen). rewrite Hp, delete_middle' in Hn by done.
  destruct (notify_landed _ _ _ _ Hg Hn) as (Hn0 & Hpf & Hpq). rewrite filter_app in Hn0.
  assert (p_flight (x_pipe (landed st)) =
    filter (λ f : flight, is_gc f.1.1 = false) f1 ++ (r, n, b) :: filter (λ f : flight, is_gc f.1.1 = false) f2) as Hp0.
  { cbn [landed x_pipe without_gc p_flight]. by rewrite Hp, filter_app, filter_cons_True. }
  assert (gc_flights p = gc_flights (x_pipe st)) as Hgf.
  { unfold gc_flights. rewrite Hpf, Hp, !filter_app, (filter_cons_False _ (r, n, b)); [done|cbn; by rewrite Hg]. }
  assert ((r, n, b) ∈ p_flight (x_pipe (landed st))) as Hin by (rewrite Hp0; apply elem_of_app; right; by left).
  destruct (proj1 (Forall_forall _ _) (inv_flight _ _ _ _ Hi) _ Hin) as (_ & _ & Hname & Hr & _). cbn in Hr.
  destruct (complete_inv cfg name (landed st) D (length (filter (λ f : flight, is_gc f.1.1 = false) f1)) Hi)
    as (st0 & Hc0 & Hi0 & _); [apply Hl|rewrite Hp0, length_app; cbn; lia|].
  unfold complete in Hc0. rewrite Hp0, list_lookup_middle in Hc0 by done. cbn [mbind option_bind] in Hc0.
  rewrite delete_middle' in Hc0 by done. cbn [landed x_pipe] in Hc0. rewrite Hn0 in Hc0.
  cbn [mbind option_bind] in Hc0. injection Hc0 as <-.
  set (st1 := mk_xstate _ p _ _ _ _ _ _ _).
  assert (gc_queued p = gc_queued (x_pipe st)) as Hgq by (unfold gc_queued; by rewrite Hpq).
  apply (goes_intro st D); auto.
  - by apply (advance_delete st (r, n, b) f1 f2).
  - by apply (kept_complete st (r, n, b) f1 f2 _ D objs).
  - apply (inv_transfer _ _ _ Hi0); try done; [apply Hi|apply Hi|].
    intros x q Hx. cbn [landed x_store x_pipe st1]. rewrite Hgf. apply land_write.
    rewrite Hname. apply gc_flights_name; [apply Hl|apply Hl|pose proof (li_lim _ _ _ Hl); lia|].
    intros f Hf' Heq.
    assert (f = (r, n, b)) as -> by (apply (sent_inj st); [apply Hl|by apply gc_flights_in|rewrite Hp; set_solver|done]).
    unfold gc_flights in Hf'. apply list_elem_of_filter in Hf' as [Hx' _]. cbn in Hx'. congruence.
  - apply Hl.
  - apply (named_delete st (r, n, b) f1 f2); [apply Hl|done..].
Qed.

(** The object of a collection request arrives: on the landed state nothing
    happens. *)
Lemma goes_complete_gc st D objs i r n b st' :
  linv st D objs → p_flight (x_pipe st) !! i = Some (r, n, b) → is_gc r = true →
  complete st i = Some st' → goes st objs st' D.
Proof.
  intros Hl Hf Hg Hc. pose proof (li_inv _ _ _ Hl) as Hi. unfold complete in Hc. rewrite Hf in Hc.
  cbn [mbind option_bind] in Hc. apply bind_Some in Hc as (p & Hn & [= <-]).
  apply lookup_split in Hf as (f1 & f2 & Hp & Hlen). rewrite Hp, delete_middle' in Hn by done.
  unfold notify in Hn. unfold is_gc in Hg. destruct (t_op r) eqn:Hop; try done. injection Hn as <-.
  assert (is_gc r = true) as Hgr by (unfold is_gc; by rewrite Hop).
  set (st1 := mk_xstate _ _ _ _ _ _ _ _ _).
  assert (gc_flights (x_pipe st) = filter (λ f : flight, is_gc f.1.1 = true) f1 ++ (r, n, b) :: filter (λ f : flight, is_gc f.1.1 = true) f2)
    as Hgf by (unfold gc_flights; by rewrite Hp, filter_app, filter_cons_True).
  assert (gc_flights (x_pipe st1) = filter (λ f : flight, is_gc f.1.1 = true) f1 ++ filter (λ f : flight, is_gc f.1.1 = true) f2)
    as Hgf' by (unfold gc_flights; cbn; by rewrite filter_app).
  assert ((r, n, b) ∈ gc_flights (x_pipe st)) as Hin by (rewrite Hgf; set_solver).
  destruct (gn_flight _ (li_named _ _ _ Hl) _ Hin) as (Hname & Hr & _). cbn [fst snd] in Hname, Hr.
  assert (gc_named st1) as Hn1 by (apply (named_delete st (r, n, b) f1 f2); [apply Hl|done..]).
  apply (goes_intro st D); auto.
  - by apply (advance_delete st (r, n, b) f1 f2).
  - by apply (kept_complete st (r, n, b) f1 f2 _ D objs).
  - apply (inv_transfer _ _ _ Hi); try done; [apply Hi| |apply Hi|].
    + cbn [landed x_pipe without_gc p_flight st1]. rewrite Hp, !filter_app, (filter_cons_False _ (r, n, b)); [done|].
      cbn. by rewrite Hgr.
    + intros x q _. by apply (landed_arrive st st1 (r, n, b) _ _ _ (li_named _ _ _ Hl) Hn1 (li_lim _ _ _ Hl) eq_refl Hgf Hgf').
  - apply Hl.
Qed.

Lemma layer_step_ok st D objs st' D' :
  linv st D objs → layer_step (st, D) (st', D') → goes st objs st' D'.
Proof.
  intros Hl Hst. pose proof (li_inv _ _ _ Hl) as Hi. pose proof (current_put st D objs Hl) as Hc. inversion Hst; subst.
  - match goal with H : writev _ _ _ _ = Some p |- _ => destruct (writev_landed _ _ _ _ Hc H) as (Hw0 & Hf & Hq) end.
    apply (goes_pipe st D); auto. destruct (write_inv cfg name (landed st) D base n iov data) as (p0 & Hp0 & Hi0); auto.
    cbn [landed x_pipe] in Hp0. rewrite Hw0 in Hp0. by injection Hp0 as <-.
  - match goal with H : trim _ _ _ = Some _ |- _ => rename H into Ht end.
    destruct (trim_inv cfg name (landed st) D off len Hi) as (st1 & Ht1 & Hi1 & _); auto.
    destruct (trim_objmap_ok (x_om st) off len (inv_live _ _ _ _ Hi)) as (om & Hom & _ & Hmap); auto.
    unfold trim in Ht, Ht1. cbn [landed x_om] in Ht1. rewrite Hom in Ht, Ht1. cbn [mbind option_bind] in Ht, Ht1.
    injection Ht as <-. injection Ht1 as <-. apply (goes_intro st D); auto.
    + split; cbn; try done; try by left. intros x q. rewrite Hmap. destruct (in_range _ _ x); [done|by left].
    + by intros o _.
    + apply Hl.
    + apply (gc_named_same st); cbn; auto; [apply Hl|lia].
  - destruct (submit_landed op (x_pipe st)) as (Hs & Hf & Hq); [match goal with H : op = REQ_FLUSH ∨ _ |- _ => by destruct H as [->| ->] end|done|].
    apply (goes_pipe st D'); auto. rewrite Hs. by apply submit_inv.
  - destruct (flush_tick_landed (x_pipe st) seq0 cur timed_out Hc) as (Hs & Hf & Hq).
    apply (goes_pipe st D'); auto. rewrite Hs. by apply (flush_tick_inv cfg name (landed st) D').
  - apply (goes_pipe st D' objs (mk_pipeline h _ _ _ _ _ _)); auto. by apply (client_inv cfg name (landed st) D' h).
  - match goal with H : worker_step _ = Some _ |- _ => unfold worker_step in H; rename H into Hw end.
    destruct (p_queue (x_pipe st)) as [|r q] eqn:Hq; [done|]. destruct (t_op r) eqn:Hop.
    + apply bind_Some in Hw as (st1 & Hb & [= <-]). by apply (goes_put st D' objs r q).
    + destruct (0 <? _); [done|]. injection Hw as <-. by apply (goes_flush st D' objs r).
    + apply bind_Some in Hw as (st1 & Hb & [= <-]). by apply (goes_ckpt st D' objs r q).
    + apply bind_Some in Hw as (st1 & Hb & [= <-]). by apply (worker_gc_ok st D' objs r q).
  - match goal with H : complete _ _ = Some _ |- _ => rename H into Hco end.
    pose proof Hco as Hco'. unfold complete in Hco'. apply bind_Some in Hco' as ([[r n] b] & Hf & _).
    destruct (is_gc r) eqn:Hg; [by apply (goes_complete_gc st D' objs i r n b)|by apply (goes_complete_put st D' objs i r n b)].
Qed.

(** ** The system's invariant *)

Definition unmapped st objs : Prop :=
  ∀ x q, objmap_at (om_map (x_om st)) x = Some q → obj q ∉ objs.

(** Checkpoint [c] is in the backend and maps nothing into [objs]. *)
Definition clean st objs (c : Z) : Prop :=
  ∃ es os b tail, serialise_checkpoint c 0 es os uuid = Some b ∧
    rados_obj (x_store st) (oname name c) = Some (b ++ tail) ∧ Forall (λ e, me_obj e ∉ objs) es.

Definition objs_of g : list Z :=
  match g with
  | GcIdle | GcReaped => []
  | GcCleaning objs _ | GcForgotten objs | GcSaving objs _ | GcStopped objs => objs
  end.

Definition phase_ok st g : Prop :=
  match g with
  | GcIdle | GcReaped => gc_queued (x_pipe st) = []
  | GcCleaning objs todo => covering st objs todo ∧ Forall (req_good st objs) todo
  | GcForgotten objs => gc_queued (x_pipe st) = [] ∧ unmapped st objs
  | GcSaving objs sq => gc_queued (x_pipe st) = [] ∧ unmapped st objs ∧
      ∀ c, last (x_checkpoints st) = Some c → sq ≤ c → clean st objs c
  | GcStopped _ => True
  end.

Lemma unmapped_covering st objs : gc_queued (x_pipe st) = [] → covering st objs [] ↔ unmapped st objs.
Proof.
  unfold covering, unmapped. intros ->. split.
  - intros Hc x q Hx Ho. by destruct (Hc x q Hx Ho) as (r & e & Hr%elem_of_nil & _).
  - intros Hu x q Hx Ho. by destruct (Hu x q Hx).
Qed.

(** What a step of the layer does to the collector's part *)
Lemma layer_queue st D st' D' :
  is_gc (p_current (x_pipe st)) = false → layer_step (st, D) (st', D') →
  gc_queued (x_pipe st) = [] → gc_queued (x_pipe st') = [].
Proof.
  intros Hc Hst Hn. inversion Hst; subst.
  - match goal with H : writev _ _ _ _ = Some p |- _ => destruct (writev_landed _ _ _ _ Hc H) as (_ & _ & Hq) end.
    by rewrite <- Hn, <- Hq.
  - match goal with H : trim _ _ _ = Some _ |- _ => unfold trim in H; by apply bind_Some in H as (? & _ & [= <-]) end.
  - destruct (submit_landed op (x_pipe st)) as (_ & _ & Hq); [match goal with H : op = REQ_FLUSH ∨ _ |- _ => by destruct H as [->| ->] end|done|]. by rewrite <- Hn, <- Hq.
  - destruct (flush_tick_landed (x_pipe st) seq0 cur timed_out Hc) as (_ & _ & Hq). by rewrite <- Hn, <- Hq.
  - done.
  - match goal with H : worker_step _ = Some _ |- _ => unfold worker_step in H; rename H into Hw end.
    destruct (p_queue (x_pipe st)) as [|r q] eqn:Hq; [done|].
    assert (filter (λ r, is_gc r = true) q = []) as Hq0.
    { unfold gc_queued in Hn. rewrite Hq, filter_cons in Hn. by destruct (decide _). }
    destruct (t_op r).
    + apply bind_Some in Hw as (st1 & Hb & [= <-]).
      by destruct (process_batch_frame _ _ _ _ Hb) as (om & dm & h & n & b & rc & _ & -> & _).
    + destruct (0 <? _); [done|]. by injection Hw as <-.
    + apply bind_Some in Hw as (st1 & Hb & [= <-]). unfold write_checkpoint in Hb.
      apply bind_Some in Hb as (? & _ & (? & _ & Hb)%bind_Some). destruct (keep_last_3 _) as [del ck].
      by apply bind_Some in Hb as (? & _ & [= <-]).
    + apply bind_Some in Hw as (st1 & Hb & [= <-]). unfold write_gc in Hb.
      by repeat (apply bind_Some in Hb as (? & _ & Hb); repeat case_match); simplify_eq/=.
  - match goal with H : complete _ _ = Some _ |- _ => unfold complete in H; rename H into Hco end.
    apply bind_Some in Hco as ([[r n] b] & _ & (p & Hp & [= <-])%bind_Some). unfold notify in Hp.
    destruct (t_op r); simplify_eq/=; try done.
    by apply bind_Some in Hp as (? & _ & (? & _ & [= <-])%bind_Some).
Qed.

(** Checkpoints are only written by the worker. *)
Lemma layer_ckpts st D objs st' D' :
  linv st D objs → layer_step (st, D) (st', D') →
  (x_checkpoints st' = x_checkpoints st ∧ ∀ c, c ∈ x_checkpoints st → same_object st st' c) ∨
  (checkpointed name uuid vol_bytes st (x_cur_seq st) (x_checkpoints st') (x_store st') ∧
   x_checkpoints st' = (keep_last_3 (x_checkpoints st ++ [x_cur_seq st])).2).
Proof.
  intros Hl Hst. inversion Hst; subst; try (left; by split).
  - match goal with H : trim _ _ _ = Some _ |- _ => unfold trim in H; apply bind_Some in H as (? & _ & [= <-]) end.
    left. by split.
  - match goal with H : worker_step _ = Some _ |- _ => unfold worker_step in H; rename H into Hw end.
    destruct (p_queue (x_pipe st)) as [|r q] eqn:Hq; [done|]. destruct (t_op r) eqn:Hop.
    + apply bind_Some in Hw as (st1 & Hb & [= <-]).
      destruct (process_batch_frame _ _ _ _ Hb) as (om & dm & h & n & b & rc & _ & -> & _). left. by split.
    + destruct (0 <? _); [done|]. injection Hw as <-. left. by split.
    + apply bind_Some in Hw as (st1 & Hb & [= <-]). right. 
      destruct (goes_ckpt st D' objs r q st1) as (_ & ? & _ & ?); auto.
    + apply bind_Some in Hw as (st1 & Hb & [= <-]).
      destruct (write_gc_frame _ _ _ _ Hb) as (_ & _ & Hck & _ & _ & Hs). left. split; [done|].
      intros c _. unfold same_object. by rewrite Hs.
  - match goal with H : complete _ _ = Some _ |- _ => unfold complete in H; rename H into Hco end. left.
    apply bind_Some in Hco as ([[r n] b] & Hf & (p & Hp & [= <-])%bind_Some). split; [done|].
    intros c Hc. pose proof (list_elem_of_lookup_2 _ _ _ Hf) as Hin.
    assert (n = oname name (t_seq r)) as ->.
    { destruct (is_gc r) eqn:Hg.
      - apply (gn_flight _ (li_named _ _ _ Hl) (r, n, b)). unfold gc_flights. by apply list_elem_of_filter.
      - assert ((r, n, b) ∈ p_flight (x_pipe (landed st))) as Hin' by by apply list_elem_of_filter.
        apply (proj1 (Forall_forall _ _) (inv_flight _ _ _ _ (li_inv _ _ _ Hl)) _ Hin'). }
    destruct (sent_bound st D' objs (t_seq r) Hl) as [Hb Hn].
    { unfold sent. apply list_elem_of_fmap. exists r. split; [done|]. apply list_elem_of_fmap.
      by exists (r, oname name (t_seq r), b). }
    pose proof (ckpts_bound st D' objs c Hl Hc). pose proof (li_lim _ _ _ Hl).
    unfold same_object. cbn [x_store]. apply rados_write_other.
    intros [_ Heq]%oname_inj; [congruence|lia|lia].
Qed.

(** A checkpoint that is written while nothing is mapped into the objects *)
Lemma ckpt_entries_clean st D objs :
  linv st D objs → unmapped st objs → Forall (λ e, me_obj e ∉ objs) (ckpt_entries st).
Proof.
  intros Hl Hu. pose proof (li_inv _ _ _ Hl) as Hi. pose proof (li_lim _ _ _ Hl).
  destruct (lm_all_ok (om_map (x_om st))) as [_ Hps]; [apply (inv_live _ _ _ _ Hi)|].
  unfold ckpt_entries. apply Forall_fmap, Forall_forall. intros [[b l] q] Hin.
  pose proof (pieces_in_range _ _ _ _ _ _ Hps Hin) as (_ & Hbl & _ & Hsp).
  pose proof (pieces_in_denote _ _ _ _ b _ _ Hps Hin ltac:(lia)) as Hd.
  rewrite Z.sub_diag, (p_add_0 q (l - b)) in Hd by done.
  destruct (inv_objs _ _ _ _ Hi b q Hd) as [Hq _]. cbn in Hq.
  unfold compose. cbn [new_mapentry me_obj]. rewrite wrap_s_id by lia. by apply (Hu b).
Qed.

(** The newest checkpoint stays clean, or is replaced by a clean one. *)
Lemma layer_clean st D objs sq st' D' :
  linv st D objs → unmapped st objs → layer_step (st, D) (st', D') →
  (∀ c, last (x_checkpoints st) = Some c → sq ≤ c → clean st objs c) →
  ∀ c, last (x_checkpoints st') = Some c → sq ≤ c → clean st' objs c.
Proof.
  intros Hl Hu Hst Hc c Hlast Hle.
  destruct (layer_ckpts st D objs st' D' Hl Hst) as [[Hck Hs]|[(_ & (b & tail & Hb & Ho) & _) Hck]].
  - rewrite Hck in Hlast. destruct (Hc c Hlast Hle) as (es & os & b & tail & Hb & Ho & Hes).
    exists es, os, b, tail. split; [done|]. split; [|done]. rewrite (Hs c); [done|].
    apply last_Some in Hlast as [l ->]. set_solver.
  - rewrite Hck, (proj1 (last_kept _ _)) in Hlast. injection Hlast as <-.
    exists (ckpt_entries st), (ckpt_objects st), b, tail. split; [done|]. split; [done|].
    by apply (ckpt_entries_clean st D).
Qed.

(** *** What [object_info] lists *)

Lemma account_deleted_keys del : ∀ info tl info' tl',
  account_deleted del info tl = Some (info', tl') → ∀ o, is_Some (info' !! o) → is_Some (info !! o).
Proof.
  induction del as [|[[b l] q] del IH]; intros info tl info' tl'; cbn [account_deleted]; [by intros [= <- <-]|].
  destruct (info !! obj q) as [oi|] eqn:E; [|apply IH].
  intros (u & _ & Ha)%bind_Some o Ho. apply (IH _ _ _ _ Ha) in Ho.
  destruct (decide (obj q = o)) as [<-|Hne]; [by rewrite E|by rewrite lookup_insert_ne in Ho].
Qed.

Lemma info_known_new st (om : omap M) sq oi info :
  info_known st → 0 ≤ sq ≤ x_cur_seq st → om_info om = <[sq := oi]> info →
  (∀ o, is_Some (info !! o) → is_Some (om_info (x_om st) !! o)) →
  ∀ o, is_Some (om_info om !! o) → 0 ≤ o < x_cur_seq st + 1.
Proof.
  intros Hk Hs -> Hsub o. destruct (decide (sq = o)) as [<-|Hne]; [lia|].
  rewrite lookup_insert_ne by done. intros Ho%Hsub%Hk. lia.
Qed.

Lemma layer_info st D objs st' D' :
  linv st D objs → layer_step (st, D) (st', D') → info_known st → info_known st'.
Proof.
  intros Hl Hst Hk. pose proof (inv_seq _ _ _ _ (li_inv _ _ _ Hl)) as Hs0. cbn in Hs0. inversion Hst; subst; try done.
  - match goal with H : trim _ _ _ = Some _ |- _ => unfold trim, trim_objmap in H; rename H into Ht end.
    apply bind_Some in Ht as (om & ([m del] & _ & ([info tl] & Ha & [= <-])%bind_Some)%bind_Some & [= <-]).
    intros o Ho. apply Hk. by apply (account_deleted_keys _ _ _ _ _ Ha).
  - match goal with H : worker_step _ = Some _ |- _ => unfold worker_step in H; rename H into Hw end.
    destruct (p_queue (x_pipe st)) as [|r q] eqn:Hq; [done|]. destruct (t_op r) eqn:Hop.
    + apply bind_Some in Hw as (st1 & Hb & [= <-]).
      destruct (process_batch_frame _ _ _ _ Hb) as (om & dm & h & n & b & rc & Hom & -> & _).
      unfold batch_objmap in Hom. apply bind_Some in Hom as ([[m del] dm0] & _ & ([info tl] & Ha & Hom)%bind_Some).
      apply bind_Some in Hom as (oi & _ & [= <- <-]). intros o Ho.
      apply (account_deleted_keys _ _ _ _ _ Ha) in Ho. cbn [x_cur_seq dequeue].
      destruct (decide (x_cur_seq st = o)) as [<-|Hne]; [lia|].
      rewrite lookup_insert_ne in Ho by done. apply Hk in Ho. lia.
    + destruct (0 <? _); [done|]. by injection Hw as <-.
    + apply bind_Some in Hw as (st1 & Hb & [= <-]).
      destruct (goes_ckpt st D' objs r q st1) as ((_ & Ha & _) & _ & Hom & _); auto.
      intros o. rewrite Hom. intros ?%Hk. pose proof (adv_seq _ _ Ha). lia.
    + apply bind_Some in Hw as (st1 & Hb & [= <-]).
      destruct (write_gc_frame _ _ _ _ Hb) as (_ & Hc & _). unfold info_known. rewrite Hc. cbn [x_cur_seq dequeue].
      unfold write_gc in Hb. apply bind_Some in Hb as (l & _ & (om & Hom & Hb)%bind_Some).
      assert (x_om st1 = om) as ->.
      { by apply bind_Some in Hb as (? & _ & (? & _ & (? & _ & [= <-])%bind_Some)%bind_Some). }
      unfold gc_objmap in Hom. apply bind_Some in Hom as ([[m del] dm0] & _ & ([info tl] & Ha & [= <-])%bind_Some).
      eapply info_known_new; [exact Hk|split; [exact Hs0|reflexivity]|reflexivity|].
      exact (account_deleted_keys _ _ _ _ _ Ha).
  - match goal with H : complete _ _ = Some _ |- _ => unfold complete in H; rename H into Hco end.
    by apply bind_Some in Hco as ([[r n] b] & _ & (p & _ & [= <-])%bind_Some).
Qed.

(** *** The collector's own steps *)

(** A change of [object_info] and of the store that spares what is mapped *)
Lemma linv_info st D objs info ts store os :
  linv st D objs → info = foldr delete (om_info (x_om st)) os →
  (∀ x q, objmap_at (om_map (x_om st)) x = Some q →
     rados_obj store (oname name (obj q)) = rados_obj (x_store st) (oname name (obj q))) →
  gc_queued (x_pipe st) = [] → linv (with_info st info ts store) D objs.
Proof.
  intros Hl -> Hst Hq. pose proof (li_inv _ _ _ Hl) as Hi. split.
  - apply (inv_transfer _ _ _ Hi); try done; [|apply Hi|].
    + apply live_forget, (inv_live _ _ _ _ Hi).
    + intros x q Hx. cbn [landed x_store with_info x_pipe]. by apply land_ext, (Hst x).
  - apply Hl.
  - by destruct (li_named _ _ _ Hl).
  - apply (li_settled _ _ _ Hl).
  - cbn [with_info x_pipe]. rewrite Hq. constructor.
Qed.

(** Deleting what is not mapped *)
Lemma delete_spares st D objs os :
  linv st D objs → Forall (λ o, 0 ≤ o < 2 ^ 31) os → unmapped st os →
  ∃ store, delete_unpinned name (x_clones st) (x_refcount st) os (x_store st) = Some store ∧
    (∀ x q, objmap_at (om_map (x_om st)) x = Some q →
       rados_obj store (oname name (obj q)) = rados_obj (x_store st) (oname name (obj q))) ∧
    ∀ o, 0 ≤ o < 2 ^ 31 → o ∉ os → rados_obj store (oname name o) = rados_obj (x_store st) (oname name o).
Proof.
  intros Hl Hos Hu. pose proof (li_inv _ _ _ Hl) as Hi. rewrite (inv_clones _ _ _ _ Hi : x_clones st = []).
  destruct (delete_unpinned_ok name (x_refcount st) os (x_store st)) as (store & -> & Hst).
  assert (∀ o, 0 ≤ o < 2 ^ 31 → o ∉ os → rados_obj store (oname name o) = rados_obj (x_store st) (oname name o)) as Hk.
  { intros o Ho Hn. apply Hst. intros o' Ho' _ Heq. pose proof (proj1 (Forall_forall _ _) Hos o' Ho') as Hr. cbn in Hr.
    apply oname_inj in Heq as [_ ->]; [done|lia|lia]. }
  exists store. split; [done|]. split; [|done]. intros x q Hx. apply Hk; [|by apply (Hu x)].
  destruct (inv_objs _ _ _ _ Hi x q Hx) as [Ho _]. cbn in Ho. pose proof (li_lim _ _ _ Hl). lia.
Qed.

(** Objects that are dead are mapped nowhere. *)
Lemma dead_unmapped st D objs : linv st D objs → unmapped st (dead_objects (om_info (x_om st))).
Proof.
  intros Hl x q Hx (oi & Ho & Hl0)%elem_of_dead.
  destruct (inv_live _ _ _ _ (li_inv _ _ _ Hl) : live_ok (x_om st)) as [Hwf Hlive].
  specialize (Hlive _ _ Ho). rewrite Hl0 in Hlive. by apply (weight_0_unused _ (obj q) Hwf (eq_sym Hlive) x q).
Qed.

Lemma delete_unpinned_each rc os s s' n :
  delete_unpinned name [] rc os s = Some s' →
  rados_obj s' n = rados_obj s n ∨ rados_obj s' n = None.
Proof.
  revert s. induction os as [|o os IH]; intros s; cbn [delete_unpinned]; [intros [= <-]; by left|].
  destruct (rc !! o); [apply IH|]. cbn [prefix mbind option_bind]. intros Hd. specialize (IH _ Hd).
  destruct IH as [->| ->]; [|by right]. unfold delete_obj.
  destruct (decide (oname name o = n)) as [<-|Hne]; [right; apply rados_remove_same|left; by apply rados_remove_other].
Qed.

(** A settled object stays as it is until it is deleted, and then nothing is mapped
    into it. *)
Definition survives st st' : Prop :=
  ∀ o, settled st o → settled st' o ∧
    (same_object st st' o ∨ rados_obj (x_store st') (oname name o) = None ∧ unmapped st' [o]).

Lemma kept_survives st st' : advance st st' → kept st st' → survives st st'.
Proof. intros Ha Hk o Ho. split; [by apply (settled_advance st)|]. left. by apply Hk. Qed.

(** [reap] and [gc_delete] have the same shape. *)
Lemma delete_ok st D objs os info ts store b :
  linv st D objs → Forall (λ o, 0 ≤ o < 2 ^ 31) os → unmapped st os → gc_queued (x_pipe st) = [] →
  delete_unpinned name (x_clones st) (x_refcount st) os (x_store st) = Some store →
  info = foldr delete (om_info (x_om st)) b →
  linv (with_info st info ts store) D objs ∧ advance st (with_info st info ts store) ∧
  survives st (with_info st info ts store).
Proof.
  intros Hl Hos Hu Hq Hd Hinfo. destruct (delete_spares st D objs os Hl Hos Hu) as (s' & Hd' & Hm & Hk).
  rewrite Hd in Hd'. injection Hd' as <-.
  assert (advance st (with_info st info ts store)) as Ha by (split; cbn; try done; by left).
  split; [by eapply linv_info|]. split; [done|]. intros o Ho. split; [by apply (settled_advance st)|].
  pose proof (li_lim _ _ _ Hl) as Hlim. destruct (decide (o ∈ os)) as [Hin|Hn].
  - rewrite (inv_clones _ _ _ _ (li_inv _ _ _ Hl) : x_clones st = []) in Hd.
    destruct (delete_unpinned_each _ _ _ _ (oname name o) Hd) as [He|He]; [by left|]. right. split; [done|].
    intros x q Hx Heq%list_elem_of_singleton. apply (Hu x q Hx). by rewrite Heq.
  - left. apply Hk; [|done]. destruct Ho as [? _]. lia.
Qed.

Definition system_inv st D g : Prop := linv st D (objs_of g) ∧ phase_ok st g ∧ info_known st.

Lemma info_known_dead st : info_known st → x_cur_seq st ≤ 2 ^ 31 → Forall (λ o, 0 ≤ o < 2 ^ 31) (dead_objects (om_info (x_om st))).
Proof.
  intros Hk Hl. apply Forall_forall. intros o (oi & Ho & _)%elem_of_dead.
  specialize (Hk o (ex_intro _ oi Ho)). lia.
Qed.

Lemma info_known_forget st info os ts store :
  info_known st → info = foldr delete (om_info (x_om st)) os → info_known (with_info st info ts store).
Proof.
  intros Hk -> o [oi Ho]. cbn [with_info x_om om_info] in Ho. rewrite foldr_delete_lookup in Ho.
  destruct (decide _); [done|]. by apply Hk; exists oi.
Qed.

Lemma settled_range st D objs os : linv st D objs → Forall (settled st) os → Forall (λ o, 0 ≤ o < 2 ^ 31) os.
Proof.
  intros Hl Hs. pose proof (li_lim _ _ _ Hl). eapply Forall_impl; [exact Hs|]. intros o (? & _ & _). cbn. lia.
Qed.

(** The layer goes on. *)
Lemma system_layer st D g st' D' :
  system_inv st D g → layer_step (st, D) (st', D') → system_inv st' D' g ∧ advance st st' ∧ survives st st'.
Proof.
  intros (Hl & Hp & Hk) Hst. destruct (layer_step_ok st D (objs_of g) st' D' Hl Hst) as (Hl' & Ha & Hkept & Hcov).
  pose proof (layer_queue st D st' D' (current_put _ _ _ Hl) Hst) as Hq.
  assert (∀ objs, Forall (settled st) objs → unmapped st objs → unmapped st' objs) as Hun.
  { intros objs Hs Hu x q Hx Ho. destruct (adv_map _ _ Ha x q Hx) as [Hx0|?]; [by apply (Hu x q Hx0)|].
    destruct (proj1 (Forall_forall _ _) Hs _ Ho) as [? _]. lia. }
  pose proof (li_settled _ _ _ Hl) as Hset.
  split; [|split; [done|exact (kept_survives _ _ Ha Hkept)]]. split; [done|]. split; [|exact (layer_info st D _ st' D' Hl Hst Hk)].
  destruct g as [| |objs todo|objs|objs sq|objs]; cbn [phase_ok objs_of] in *; auto.
  - destruct Hp as [Hc Hr]. split; [by apply Hcov|]. eapply Forall_impl; [exact Hr|].
    intros r. by apply req_good_advance.
  - destruct Hp as [? ?]. auto.
  - destruct Hp as (? & ? & ?). split_and!; auto. by apply (layer_clean st D objs sq st' D').
Qed.

(** The collector's thread *)
Lemma system_reap st D st' :
  system_inv st D GcIdle → reap name st = Some st' →
  system_inv st' D GcReaped ∧ advance st st' ∧ survives st st'.
Proof.
  intros (Hl & Hq & Hk) Hr. unfold reap in Hr. apply bind_Some in Hr as (store & Hd & [= <-]).
  destruct (delete_ok st D [] (dead_objects (om_info (x_om st)))
              (foldr delete (om_info (x_om st)) (dead_objects (om_info (x_om st))))
              (om_total_sectors (x_om st) - sum_list_Z (data_of (om_info (x_om st)) <$> dead_objects (om_info (x_om st))))
              store (dead_objects (om_info (x_om st))) Hl) as (Hl' & Ha & Hs); auto.
  - apply info_known_dead; [done|apply Hl].
  - by apply (dead_unmapped st D []).
  - split; [|done]. split; [done|]. split; [done|]. by eapply info_known_forget.
Qed.

Lemma system_plan st D (objs : list (Z * Z)) reqs :
  system_inv st D GcReaped → gc_plan cfg name st = Some (objs, reqs) → gc_ready st objs →
  system_inv st D (GcCleaning objs.*1 reqs).
Proof.
  intros (Hl & Hq & Hk) Hp [Hvol' Hready]. pose proof (li_inv _ _ _ Hl) as Hi. pose proof (li_lim _ _ _ Hl) as Hlim.
  cbn [phase_ok objs_of] in *.
  assert (objs = objs_to_clean (gc_threshold_pc cfg) (last_ckpt st) (om_info (x_om st))) as Hobjs.
  { unfold gc_plan in Hp. apply bind_Some in Hp as (? & _ & (? & _ & (? & _ & Hp)%bind_Some)%bind_Some).
    apply bind_Some in Hp as ([fm file] & _ & (? & _ & (? & _ & Hp)%bind_Some)%bind_Some). by injection Hp as <- _. }
  destruct (gc_plan_ok cfg name st) as (reqs' & Hp' & Hr & Hc).
  - apply (inv_live _ _ _ _ Hi).
  - apply (inv_clones _ _ _ _ Hi).
  - destruct Hcfg as [? _]. lia.
  - intros x q Hx. destruct (inv_objs _ _ _ _ Hi x q Hx) as [Ho _]. cbn in Ho. split; [by apply (Hvol' x q)|].
    unfold seq_ok. lia.
  - rewrite <- Hobjs. intros o n Hin. by destruct (Hready o n Hin) as (_ & ? & ? & ?).
  - rewrite Hp in Hp'. injection Hp' as Ho ->. split; [|split; [|done]].
    + split; try apply Hl; [|rewrite Hq; constructor]. apply Forall_fmap, Forall_forall. intros [o n] Hin.
      by destruct (Hready o n Hin).
    + cbn [phase_ok]. rewrite Ho. unfold covering. rewrite Hq. split; [exact Hc|].
      eapply Forall_impl; [exact Hr|]. intros r (Hop & Hok & Hin). split; [done|]. by eexists.
Qed.

Lemma system_enqueue st D objs r todo :
  system_inv st D (GcCleaning objs (r :: todo)) →
  system_inv (gc_enqueue st r) D (GcCleaning objs todo) ∧ advance st (gc_enqueue st r) ∧ survives st (gc_enqueue st r).
Proof.
  intros (Hl & [Hc Hr] & Hk). apply Forall_cons in Hr as [Hr Hrs].
  assert (is_gc r = true) as Hg by (unfold is_gc; by rewrite (proj1 Hr)).
  assert (advance st (gc_enqueue st r)) as Ha by by apply advance_pipe.
  assert (kept st (gc_enqueue st r)) as Hkept by by intros o _.
  assert (gc_queued (x_pipe (gc_enqueue st r)) = gc_queued (x_pipe st) ++ [r]) as Hq.
  { unfold gc_queued. cbn. by rewrite filter_app, filter_cons_True. }
  split; [|split; [done|exact (kept_survives _ _ Ha Hkept)]]. split; [|split; [|done]].
  - destruct Hl as [Hi Hlim Hn Hs Hrq]. cbn [objs_of] in *. split; try done.
    + apply (inv_transfer _ _ _ Hi); try done; try apply Hi.
      cbn. by rewrite filter_app, filter_cons_False, app_nil_r by (rewrite Hg; discriminate).
    + by destruct Hn.
    + rewrite Hq. apply Forall_app. split; [|by apply Forall_singleton]. done.
  - cbn [phase_ok]. unfold covering. rewrite Hq, <- app_assoc. by split.
Qed.

Lemma system_forget st D objs :
  system_inv st D (GcCleaning objs []) → gc_queued (x_pipe st) = [] →
  system_inv (gc_forget st objs) D (GcForgotten objs) ∧ advance st (gc_forget st objs) ∧ survives st (gc_forget st objs).
Proof.
  intros (Hl & [Hc _] & Hk) Hq.
  assert (advance st (gc_forget st objs)) as Ha by (split; cbn; try done; by left).
  split; [|split; [done|apply (kept_survives _ _ Ha); by intros o _]]. split; [|split].
  - by eapply linv_info.
  - split; [done|]. by apply unmapped_covering.
  - by eapply info_known_forget.
Qed.

Lemma system_checkpoint st D objs :
  system_inv st D (GcForgotten objs) →
  let st' := with_pipe st (submit cfg REQ_CKPT (x_pipe st)) in
  system_inv st' D (GcSaving objs (x_cur_seq st)) ∧ advance st st' ∧ survives st st'.
Proof.
  intros (Hl & [Hq Hu] & Hk) st'. pose proof (current_put st D objs Hl) as Hc.
  destruct (submit_landed REQ_CKPT (x_pipe st)) as (Hs & Hf & Hgq); [done|done|].
  destruct (goes_pipe st D objs (submit cfg REQ_CKPT (x_pipe st)) D) as (Hl' & Ha & Hkept & _); auto.
  { rewrite Hs. pose proof (li_inv _ _ _ Hl). apply submit_inv; auto. }
  split; [|split; [done|exact (kept_survives _ _ Ha Hkept)]]. split; [exact Hl'|]. split; [|exact Hk].
  cbn [phase_ok]. split; [by rewrite <- Hq, <- Hgq|]. split; [exact Hu|].
  intros c Hlast%last_Some_elem_of Hle. apply (ckpts_bound st D objs) in Hlast; [lia|exact Hl].
Qed.

(** Deleting the objects of a cycle *)
Lemma gc_delete_ok st D objs sq c :
  system_inv st D (GcSaving objs sq) → last (x_checkpoints st) = Some c → sq ≤ c →
  ∃ st', gc_delete name st objs = Some st' ∧ linv st' D objs ∧ advance st st' ∧ survives st st' ∧
    om_map (x_om st') = om_map (x_om st) ∧
    (∀ x q, objmap_at (om_map (x_om st)) x = Some q → same_object st st' (obj q)) ∧ clean st' objs c.
Proof.
  intros (Hl & (Hq & Hu & Hc) & Hk) Hlast Hle.
  pose proof (settled_range st D objs objs Hl (li_settled _ _ _ Hl)) as Hos.
  destruct (delete_spares st D objs objs Hl Hos Hu) as (store & Hd & Hm & Hn).
  destruct (delete_ok st D objs objs (om_info (x_om st)) (om_total_sectors (x_om st)) store [] Hl Hos Hu Hq Hd eq_refl)
    as (Hl' & Ha & Hs).
  unfold gc_delete. rewrite Hd. cbn [mbind option_bind]. eexists. split; [reflexivity|].
  split; [exact Hl'|]. split; [exact Ha|]. split; [exact Hs|]. split; [done|]. split; [exact Hm|].
  destruct (Hc c Hlast Hle) as (es & os & b & tail & Hb & Ho & Hes). exists es, os, b, tail.
  split; [done|]. split; [|done]. cbn [with_info x_store]. apply last_Some_elem_of in Hlast.
  pose proof (ckpts_bound st D objs c Hl Hlast) as Hcb. pose proof (li_lim _ _ _ Hl).
  rewrite Hn; [done|lia|]. intros Hin. by destruct (proj1 (Forall_forall _ _) (li_settled _ _ _ Hl) _ Hin) as (_ & ? & _).
Qed.

Lemma linv_nothing st D objs : linv st D objs → gc_queued (x_pipe st) = [] → linv st D [].
Proof. intros Hl Hq. split; try apply Hl; [constructor|rewrite Hq; constructor]. Qed.

Lemma cstep_ok st D g st' D' g' :
  cstep (st, D, g) (st', D', g') → system_inv st D g →
  system_inv st' D' g' ∧ advance st st' ∧ survives st st'.
Proof.
  intros Hst Hsys.
  assert (advance st st ∧ survives st st) as Hid.
  { split; [split; try done; by left|]. intros o Ho. split; [done|]. by left. }
  inversion Hst; subst.
  - match goal with H : layer_step _ _ |- _ => exact (system_layer _ _ _ _ _ Hsys H) end.
  - by apply system_reap.
  - split; [|exact Hid]. exact Hsys.
  - split; [|exact Hid]. by apply system_plan.
  - by apply system_enqueue.
  - by apply system_forget.
  - by apply system_checkpoint.
  - match goal with H : gc_delete _ _ _ = Some _ |- _ => rename H into Hd end.
    destruct (gc_delete_ok st D' objs sq c Hsys) as (st1 & Hd1 & Hl & Ha & Hs & _); auto.
    rewrite Hd in Hd1. injection Hd1 as <-. split; [|by split]. destruct Hsys as (_ & (Hq & _) & Hk).
    unfold gc_delete in Hd. apply bind_Some in Hd as (store & _ & [= <-]).
    split; [by apply (linv_nothing _ _ objs)|]. split; [exact Hq|exact Hk].
  - split; [|exact Hid]. destruct Hsys as (Hl & Hp & Hk). split; [|done]. destruct g; cbn [objs_of phase_ok] in *; auto.
    + by apply (linv_nothing _ _ objs); [|apply Hp].
    + by apply (linv_nothing _ _ objs); [|apply Hp].
Qed.

Lemma advance_unmapped st st' o : advance st st' → settled st o → unmapped st [o] → unmapped st' [o].
Proof.
  intros Ha [Ho _] Hu x q Hx Hin. destruct (adv_map _ _ Ha x q Hx) as [Hx0|?]; [by apply (Hu x q Hx0)|].
  apply list_elem_of_singleton in Hin. lia.
Qed.

Lemma advance_trans st1 st2 st3 : advance st1 st2 → advance st2 st3 → advance st1 st3.
Proof.
  intros [A1 A2 A3 A4] [B1 B2 B3 B4]. split; [lia| | |].
  - intros c [?%A2|?]%B2; [done|right; lia].
  - intros sq [?%A3|?]%B3; [done|right; lia].
  - intros x q [?%A4|?]%B4; [done|right; lia].
Qed.

Lemma survives_trans st1 st2 st3 : advance st2 st3 → survives st1 st2 → survives st2 st3 → survives st1 st3.
Proof.
  intros Ha H1 H2 o Ho. destruct (H1 o Ho) as [Ho2 Hc1]. destruct (H2 o Ho2) as [Ho3 Hc]. split; [done|].
  unfold same_object in *. destruct Hc as [Hc|Hc]; [|by right]. rewrite Hc.
  destruct Hc1 as [Hc1|[Hc1 Hu]]; [by left|]. right. split; [done|]. by apply (advance_unmapped st2).
Qed.

Lemma csteps_ok a b :
  rtc cstep a b → system_inv a.1.1 a.1.2 a.2 →
  system_inv b.1.1 b.1.2 b.2 ∧ advance a.1.1 b.1.1 ∧ survives a.1.1 b.1.1.
Proof.
  induction 1 as [[[st D] g]|[[st D] g] [[st1 D1] g1] [[st' D'] g'] Hst _ IH]; cbn [fst snd] in *; intros Hsys.
  - split; [done|]. split; [split; try done; by left|]. intros o Ho. split; [done|]. by left.
  - destruct (cstep_ok _ _ _ _ _ _ Hst Hsys) as (Hsys1 & Ha1 & Hs1). destruct (IH Hsys1) as (Hsys' & Ha & Hs).
    split; [done|]. split; [by apply (advance_trans st st1)|by apply (survives_trans st st1)].
Qed.

Lemma opened_system st : opened cfg st → info_known st → system_inv st (read_sector st) GcIdle.
Proof.
  intros Ho Hk. destruct (opened_inv cfg name st Hcfg Ho) as [Hi Hlim].
  assert (p_queue (x_pipe st) = [] ∧ p_flight (x_pipe st) = []) as [Hq Hf].
  { by destruct Ho as (h & m & ls & oi & ck & rc & store & -> & _). }
  assert (gc_queued (x_pipe st) = []) as Hgq by (unfold gc_queued; by rewrite Hq).
  assert (gc_flights (x_pipe st) = []) as Hgf by (unfold gc_flights; by rewrite Hf).
  split; [|by split]. split; [|done| |constructor|rewrite Hgq; constructor].
  - apply (inv_transfer _ _ _ Hi); try done; try apply Hi.
    + cbn. by rewrite Hq.
    + cbn. by rewrite Hf.
    + intros x q _. cbn [landed x_store]. by rewrite Hgf.
  - split; [rewrite Hgf; by intros f ?%elem_of_nil|]. unfold sent. rewrite Hf. constructor.
Qed.

Lemma collected_system st D g : collected st D g → system_inv st D g.
Proof.
  intros (st0 & Ho & Hk & Hs). apply (csteps_ok _ _ Hs). by apply opened_system.
Qed.

(** Without collection the landed state is the state. *)
Lemma filter_plain {A} (f : A → translate_req) (l : list A) :
  Forall (λ a, is_gc (f a) = false) l →
  filter (λ a, is_gc (f a) = true) l = [] ∧ filter (λ a, is_gc (f a) = false) l = l.
Proof.
  induction 1 as [|a l Ha _ [IH1 IH2]]; [done|].
  rewrite filter_cons_False, filter_cons_True by (rewrite ?Ha; done). by rewrite IH1, IH2.
Qed.

Lemma linv_plain st D : inv st D → x_cur_seq st ≤ 2 ^ 31 → linv st D [].
Proof.
  intros Hi Hlim.
  destruct (filter_plain id (p_queue (x_pipe st))) as [Hq1 Hq2].
  { pose proof (inv_pend _ _ _ _ Hi) as HP. unfold pending in HP. apply Forall_app in HP as [HP _].
    eapply Forall_impl; [exact HP|]. intros r Hr. unfold is_gc, req_ok, id in *. by destruct (t_op r). }
  destruct (filter_plain (λ f : flight, f.1.1) (p_flight (x_pipe st))) as [Hf1 Hf2].
  { eapply Forall_impl; [apply (inv_flight _ _ _ _ Hi)|]. intros [[r n] b] (Hop & _). cbn. unfold is_gc. by rewrite Hop. }
  split; [|done| |constructor|].
  - apply (inv_transfer _ _ _ Hi); try done; try apply Hi.
    intros x q _. cbn [landed x_store]. unfold gc_flights. by rewrite Hf1.
  - split; [unfold gc_flights; rewrite Hf1; by intros f ?%elem_of_nil|apply (inv_seqs _ _ _ _ Hi)].
  - unfold gc_queued. unfold id in Hq1. rewrite Hq1. constructor.
Qed.

Lemma layer_keeps a b :
  rtc layer_step a b → linv a.1 a.2 [] → advance a.1 b.1 ∧ kept a.1 b.1.
Proof.
  induction 1 as [[st D]|[st D] [st1 D1] [st' D'] Hst _ IH]; cbn [fst snd] in *; intros Hl.
  - split; [split; try done; by left|]. by intros o _.
  - destruct (layer_step_ok st D [] st1 D1 Hl Hst) as (Hl1 & Ha1 & Hk1 & _). destruct (IH Hl1) as [Ha Hk].
    split; [by apply (advance_trans st st1)|]. intros o Ho. unfold same_object.
    rewrite (Hk o (settled_advance _ _ _ Ha1 Ho)). by apply Hk1.
Qed.

(** What a sector reads as, in memory or in the landed state *)
Lemma landed_sector st D objs x d :
  linv st D objs → D x = Some d → bufmap_at (p_bufmap (x_pipe st)) x = None →
  match objmap_at (om_map (x_om st)) x with
  | None => d = zeros 512
  | Some q =>
    (settled st (obj q) ∨ ∃ f, f ∈ gc_flights (x_pipe st) ∧ f.1.2 = oname name (obj q) ∧ obj q = t_seq f.1.1) ∧
    ∃ b, rados_obj (x_store (landed st)) (oname name (obj q)) = Some b ∧
      slice (Z.to_nat (512 * offset q)) 512 b = d
  end.
Proof.
  intros Hl Hd Hb. pose proof (li_inv _ _ _ Hl) as Hi.
  pose proof (inv_durable _ _ _ _ Hi x d Hb Hd) as Hx. cbn [landed x_om] in Hx.
  destruct (objmap_at (om_map (x_om st)) x) as [q|] eqn:Hq; [|done]. destruct Hx as [Hn Hx]. split; [|done].
  destruct (inv_objs _ _ _ _ Hi x q Hq) as [Ho Hc]. cbn in Ho, Hc.
  destruct (decide (obj q ∈ t_seq <$> sent (x_pipe st))) as [Hin|Hs]; [right|left; by split; [|split]].
  apply list_elem_of_fmap in Hin as (r & Hr & (f & -> & Hf)%list_elem_of_fmap).
  destruct (is_gc f.1.1) eqn:Hg.
  - assert (f ∈ gc_flights (x_pipe st)) as Hf' by by apply list_elem_of_filter.
    exists f. split; [done|]. split; [|done]. rewrite Hr. by apply (gn_flight _ (li_named _ _ _ Hl)).
  - destruct Hn. rewrite Hr. unfold sent. apply list_elem_of_fmap_2, list_elem_of_fmap. exists f. split; [done|].
    by apply list_elem_of_filter.
Qed.

(** What [delete_unpinned] deletes is gone. *)
Lemma delete_unpinned_gone rc os s s' o :
  delete_unpinned name [] rc os s = Some s' → o ∈ os → rc !! o = None →
  rados_obj s' (oname name o) = None.
Proof.
  revert s. induction os as [|o' os IH]; intros s Hd Hin Hrc; [by apply elem_of_nil in Hin|].
  cbn [delete_unpinned] in Hd. apply elem_of_cons in Hin as [<-|Hin].
  - rewrite Hrc in Hd. cbn [prefix mbind option_bind] in Hd.
    destruct (delete_unpinned_each _ _ _ _ (oname name o) Hd) as [->|Hn]; [|done].
    unfold delete_obj. apply rados_remove_same.
  - destruct (rc !! o'); [by apply (IH s)|]. cbn [prefix mbind option_bind] in Hd. by eapply IH.
Qed.

(** C28: with the collector running, no data is lost.  In every state that the
    layer and the collector's thread reach together, every sector reads as the
    disk says, except while its data is in an object of the collector that is on
    its way to the backend: then it is not in memory, it is mapped to that object,
    and the object holds the data when its PUT completes. *)
Theorem collector_refines_disk st D g :
  collected st D g → ∀ x d, D x = Some d →
  read_sector st x = Some d ∨
  bufmap_at (p_bufmap (x_pipe st)) x = None ∧
  ∃ q r b c, objmap_at (om_map (x_om st)) x = Some q ∧ t_op r = REQ_GC ∧ t_seq r = obj q ∧
    (r, oname name (obj q), b) ∈ p_flight (x_pipe st) ∧
    rados_obj (write (x_store st) (oname name (obj q)) b).2 (oname name (obj q)) = Some c ∧
    slice (Z.to_nat (512 * offset q)) 512 c = d.
Proof.
  intros (Hl & _)%collected_system x d Hd.
  destruct (bufmap_at (p_bufmap (x_pipe st)) x) as [p|] eqn:Hb.
  - left. pose proof (inv_read cfg name _ _ x d (li_inv _ _ _ Hl) Hd) as Hr.
    unfold read_sector in *. cbn [landed x_pipe without_gc p_bufmap p_heap] in Hr. by rewrite Hb in Hr |- *.
  - pose proof (landed_sector st D _ x d Hl Hd Hb) as Hx. unfold read_sector. rewrite Hb.
    destruct (objmap_at (om_map (x_om st)) x) as [q|] eqn:Hq; [|left; by rewrite Hx].
    destruct Hx as [[Hs|(f & Hf & Hn & Ho)] (b & Hob & Hsl)].
    + left. rewrite (landed_settled st (obj q)) in Hob; [|apply Hl|apply Hl|done]. rewrite Hob. cbn. by rewrite Hsl.
    + right. split; [done|]. exists q, f.1.1, f.2, b. rewrite <- Hn in Hob |- *.
      rewrite (landed_flight st f) in Hob; [|apply Hl|apply Hl|done].
      apply list_elem_of_filter in Hf as [Hg Hf]. unfold is_gc in Hg.
      split; [done|]. split; [by destruct (t_op f.1.1)|]. split; [done|]. split; [by destruct f as [[??]?]|]. by split.
Qed.

(** C34: deleting the objects of a cycle is safe when the code does it.  When the
    collector has forgotten the objects and a checkpoint has been written since,
    the deletion succeeds and every collected object that no read has pinned is
    gone; no sector is mapped into a collected object, and the objects that sectors
    are mapped into keep their contents; the accounting stays exact; and the newest
    checkpoint is in the backend and maps nothing into the collected objects. *)
Theorem gc_delete_safe st D objs sq c :
  collected st D (GcSaving objs sq) → last (x_checkpoints st) = Some c → sq ≤ c →
  ∃ st', gc_delete name st objs = Some st' ∧ live_ok (x_om st') ∧ om_map (x_om st') = om_map (x_om st) ∧
    (∀ o, o ∈ objs → x_refcount st !! o = None → rados_obj (x_store st') (oname name o) = None) ∧
    (∀ x q, objmap_at (om_map (x_om st)) x = Some q → obj q ∉ objs ∧
       rados_obj (x_store st') (oname name (obj q)) = rados_obj (x_store st) (oname name (obj q))) ∧
    ∃ es os b tail, serialise_checkpoint c 0 es os uuid = Some b ∧
      rados_obj (x_store st') (oname name c) = Some (b ++ tail) ∧ Forall (λ e, me_obj e ∉ objs) es.
Proof.
  intros Hsys%collected_system Hlast Hle. destruct (gc_delete_ok st D objs sq c Hsys Hlast Hle)
    as (st' & Hd & Hl & _ & _ & Hm & Hs & Hc).
  exists st'. split; [exact Hd|]. split; [exact (inv_live _ _ _ _ (li_inv _ _ _ Hl))|]. split; [exact Hm|].
  destruct Hsys as (Hl0 & (_ & Hu & _) & _).
  split; [|split; [intros x q Hx; split; [exact (Hu x q Hx)|exact (Hs x q Hx)]|done]].
  intros o Ho Hrc. unfold gc_delete in Hd.
  rewrite (inv_clones _ _ _ _ (li_inv _ _ _ Hl0) : x_clones st = []) in Hd.
  apply bind_Some in Hd as (store & Hd & [= <-]). by apply (delete_unpinned_gone _ _ _ _ o Hd).
Qed.
End layer.
End collector.

(** ** A concrete cycle *)

(** An image with object 2, of which 10 of 12 sectors are live, opened with a
    threshold of 90 percent; the pipeline of the layer is any empty one. *)
Definition demo_cycle_store : gmap string bytes := {[oname "vol" 2 := replicate (20 * 512) 5]}.

Definition demo_cycle_state : xstate :=
  init_translate (MB := @ExtMap.Extmap.extmap sector_ptr) demo_gc_cfg ∅ lm_empty demo_map 2 []
    (om_info demo_om) [] tt demo_cycle_store.

Local Notation demo_pipeline := (pipeline (@ExtMap.Extmap.extmap sector_ptr)).

Definition demo_at_om (om : omap (@ExtMap.Extmap.extmap obj_offset)) (p : demo_pipeline) (sq : Z)
    (store : gmap string bytes) : xstate :=
  mk_xstate om p sq [] [] ∅ (zeros 4096) tt store.

(** The request that the collector makes, and the map when it has been processed *)
Definition demo_move : translate_req :=
  new_req REQ_GC (replicate (10 * 512) 5) [mk_ckpt_mapentry 10 10 2 8].

Definition demo_moved_om : omap (@ExtMap.Extmap.extmap obj_offset) :=
  Eval vm_compute in
    match gc_objmap 3 8 10 [mk_data_map 10 10] demo_om with Some om => om | None => demo_om end.

Lemma demo_cycle_start : demo_cycle_state = demo_at_om demo_om (x_pipe demo_cycle_state) 3 demo_cycle_store.
Proof.
  unfold demo_cycle_state, init_translate, demo_at_om. destruct (new_put _ _ _) as [h cur]. cbn [x_pipe].
  f_equal.
Qed.

Lemma demo_plan (p : demo_pipeline) :
  gc_plan demo_gc_cfg "vol" (demo_at_om demo_om p 3 demo_cycle_store) = Some ([(2, 20)], [demo_move]).
Proof. vm_compute. reflexivity. Qed.

Lemma demo_reap (p : demo_pipeline) :
  reap "vol" (demo_at_om demo_om p 3 demo_cycle_store) = Some (demo_at_om demo_om p 3 demo_cycle_store).
Proof.
  unfold reap. cbn [demo_at_om x_om x_clones x_refcount x_store].
  replace (dead_objects (om_info demo_om)) with (@nil Z) by (vm_compute; reflexivity). reflexivity.
Qed.

Lemma demo_ready (p : demo_pipeline) :
  p_flight p = [] → gc_ready "vol" (demo_at_om demo_om p 3 demo_cycle_store) [(2, 20)].
Proof.
  intros Hf. split.
  - intros x q Hx. unfold VOL_LIMIT. apply demo_map_at in Hx as [[Hx ->]|[[Hx ->]|[Hx ->]]]; lia.
  - intros o n Hin%list_elem_of_singleton. injection Hin as -> ->. split.
    { split; [cbn; lia|]. split; [apply not_elem_of_nil|]. unfold sent. cbn [demo_at_om x_pipe]. rewrite Hf.
      apply not_elem_of_nil. }
    split; [lia|]. split.
    + eexists. split; [lia|]. split; [apply lookup_singleton_eq|]. apply length_replicate.
    + intros x q Hx Ho. apply demo_map_at in Hx as [[Hx ->]|[[Hx ->]|[Hx ->]]]; simpl in *; lia.
Qed.

(** The worker processes the request. *)
Lemma demo_cycle_write (p : demo_pipeline) :
  ∃ r b, t_op r = REQ_GC ∧ t_seq r = 3 ∧
    write_gc demo_crc32 demo_gc_cfg "vol" demo_uuid (demo_at_om demo_om p 4 demo_cycle_store) 3 demo_move =
    Some (demo_at_om demo_moved_om (aio_write p (p_heap p) r (oname "vol" 3) b) 4 demo_cycle_store).
Proof.
  unfold write_gc. cbn [demo_at_om x_om x_clones x_pipe x_cur_seq x_checkpoints x_refcount x_superblock_buf x_rcache x_store].
  replace (gc_collect (om_map demo_om) (t_entries demo_move) (t_gc_data demo_move))
    with (Some [(mk_data_map 10 10, replicate (10 * 512) (5 : Z))]) by (vm_compute; reflexivity).
  cbn [mbind option_bind fmap list_fmap fst snd].
  replace (gc_objmap 3 _ _ [mk_data_map 10 10] demo_om) with (Some demo_moved_om) by (vm_compute; reflexivity).
  cbn [mbind option_bind]. rewrite assert_true by (vm_compute; reflexivity). cbn [mbind option_bind].
  destruct (make_obj_hdr _ _ _ _ _ _ _) as [hdr|] eqn:E.
  - cbn [mbind option_bind prefix]. eexists _, _. split; [|split; [|reflexivity]]; reflexivity.
  - exfalso. revert E. vm_compute. discriminate.
Qed.

Local Notation demo_xstate :=
  (@xstate (@ExtMap.Extmap.extmap obj_offset) (@ExtMap.Extmap.extmap sector_ptr) (gmap string bytes) unit).
Local Notation demo_cstep := (cstep demo_insert demo_crc32 demo_gc_cfg "vol" demo_uuid (2 ^ 30)).
Local Notation demo_collected := (collected demo_insert demo_crc32 demo_gc_cfg "vol" demo_uuid (2 ^ 30)).

Lemma demo_gc_cfg_ok : cfg_ok demo_gc_cfg.
Proof. repeat split; vm_compute; discriminate. Qed.

(** The pipeline with another queue and other PUTs on their way *)
Definition demo_with (p : demo_pipeline) (q : list translate_req) (f : list (translate_req * string * bytes)) (n : Z)
    : demo_pipeline :=
  mk_pipeline (p_heap p) (p_next_buf p) (p_bufmap p) (p_current p) q f n.

(** From the start of the cycle until its object is on its way *)
Lemma demo_cycle_moves (p : demo_pipeline) D :
  p_queue p = [] → p_flight p = [] → p_outstanding p = 0 →
  ∃ r b, t_op r = REQ_GC ∧ t_seq r = 3 ∧
    rtc demo_cstep (demo_at_om demo_om p 3 demo_cycle_store, D, GcIdle)
      (demo_at_om demo_moved_om (demo_with p [] [(r, oname "vol" 3, b)] 1) 4 demo_cycle_store, D, GcCleaning [2] []).
Proof.
  intros Hq Hf Hn. destruct (demo_cycle_write (demo_with p [] [] 0)) as (r & b & Hop & Hr & Hw). exists r, b. split; [done|]. split; [done|].
  eapply rtc_l; [eapply cs_reap, demo_reap|]. eapply rtc_l; [eapply cs_plan; [apply demo_plan|by apply demo_ready]|].
  eapply rtc_l; [apply cs_enqueue|].
  { unfold gc_queued, gc_flights. cbn [demo_at_om x_pipe]. rewrite Hq, Hf. vm_compute. discriminate. }
  assert (gc_enqueue (demo_at_om demo_om p 3 demo_cycle_store) demo_move =
          demo_at_om demo_om (demo_with p [demo_move] [] 0) 3 demo_cycle_store) as ->.
  { unfold gc_enqueue, with_pipe, demo_with, demo_at_om. cbn [x_om x_pipe x_cur_seq x_checkpoints x_clones x_refcount
      x_superblock_buf x_rcache x_store]. by rewrite Hq, Hf, Hn. }
  apply rtc_once, cs_layer, step_worker; [cbn; lia|vm_compute; reflexivity|].
  unfold worker_step. cbn [demo_at_om demo_with x_pipe p_queue t_op demo_move new_req x_cur_seq].
  change (dequeue _ [] true) with (demo_at_om demo_om (demo_with p [] [] 0) 4 demo_cycle_store).
  fold demo_move. change (mk_translate_req REQ_GC 0 0 0 0 _ _ 0) with demo_move. rewrite Hw. reflexivity.
Qed.

Definition demo_cycle_disk : disk := read_sector "vol" demo_cycle_state.

(** The collector's object is on its way, and sectors 10 to 19 are mapped to it. *)
Lemma demo_moving : ∃ r b, t_op r = REQ_GC ∧ t_seq r = 3 ∧
  demo_collected (demo_at_om demo_moved_om (demo_with (x_pipe demo_cycle_state) [] [(r, oname "vol" 3, b)] 1) 4 demo_cycle_store)
    demo_cycle_disk (GcCleaning [2] []).
Proof.
  destruct (demo_cycle_moves (x_pipe demo_cycle_state) demo_cycle_disk eq_refl eq_refl eq_refl) as (r & b & Hop & Hr & Hs).
  exists r, b. split; [done|]. split; [done|]. exists demo_cycle_state. rewrite <- demo_cycle_start in Hs. split; [|split; [|exact Hs]].
  - exists ∅, demo_map, 2, (om_info demo_om), [], tt, demo_cycle_store. split; [reflexivity|].
    split; [rewrite demo_cycle_start; exact demo_om_live|]. split; [lia|]. split; [|constructor].
    intros x q Hq. by apply demo_objs in Hq.
  - intros o. rewrite demo_cycle_start. cbn [demo_at_om x_om x_cur_seq demo_om om_info].
    destruct (decide (1 = o)) as [<-|H1]; [lia|]. rewrite lookup_insert_ne by done.
    destruct (decide (2 = o)) as [<-|H2]; [lia|]. rewrite lookup_insert_ne, lookup_empty by done. by intros [].
Qed.

Lemma demo_cycle_buf x : bufmap_at (p_bufmap (x_pipe demo_cycle_state)) x = None.
Proof.
  unfold demo_cycle_state, init_translate. destruct (new_put _ _ _) as [h cur]. cbn [x_pipe p_bufmap].
  unfold bufmap_at. by rewrite (proj2 lm_empty_ok).
Qed.

Lemma demo_cycle_read : demo_cycle_disk 12 = Some (replicate 512 5).
Proof.
  unfold demo_cycle_disk. rewrite demo_cycle_start. unfold read_sector. cbn [demo_at_om x_om x_pipe x_store].
  rewrite demo_cycle_buf.
  replace (objmap_at (om_map demo_om) 12) with (Some (mk_obj_offset 2 10)) by (vm_compute; reflexivity). cbn [obj offset].
  unfold demo_cycle_store. cbn [rados_obj gmap_rados]. rewrite lookup_singleton_eq. cbn [mbind option_bind]. reflexivity.
Qed.

Lemma collector_refines_disk_witness :
  ∃ (st : demo_xstate) r b c, demo_collected st demo_cycle_disk (GcCleaning [2] []) ∧ read_sector "vol" st 12 = None ∧
    (r, oname "vol" 3, b) ∈ p_flight (x_pipe st) ∧
    rados_obj (write (x_store st) (oname "vol" 3) b).2 (oname "vol" 3) = Some c ∧
    slice (Z.to_nat (512 * 10)) 512 c = replicate 512 5.
Proof.
  destruct demo_moving as (r & b & Hop & Hr & Hc).
  assert (objmap_at (om_map demo_moved_om) 12 = Some (mk_obj_offset 3 10)) as Hq by (vm_compute; reflexivity).
  assert (read_sector "vol" (demo_at_om demo_moved_om
            (demo_with (x_pipe demo_cycle_state) [] [(r, oname "vol" 3, b)] 1) 4 demo_cycle_store) 12 = None) as Hread.
  { unfold read_sector, demo_at_om, demo_with. cbn [x_om x_pipe x_store p_bufmap].
    rewrite demo_cycle_buf. rewrite Hq. cbn [obj].
    unfold demo_cycle_store. cbn [rados_obj gmap_rados]. rewrite lookup_singleton_ne; [done|].
    intros Heq. apply oname_inj in Heq; lia. }
  destruct (collector_refines_disk demo_insert demo_crc32 demo_gc_cfg "vol" demo_uuid (2 ^ 30) demo_gc_cfg_ok
              (proj1 demo_params) (proj2 demo_params) _ _ _ Hc 12 (replicate 512 5))
    as [Hx|(_ & q & r' & b' & c & Hq' & _ & _ & Hf & Hob & Hsl)].
  - exact demo_cycle_read.
  - rewrite Hread in Hx. discriminate Hx.
  - cbn [demo_at_om x_om] in Hq'. rewrite Hq in Hq'. injection Hq' as <-. cbn [obj offset] in *.
    eexists _, r, b, c. split; [exact Hc|]. split; [exact Hread|]. split; [left|].
    cbn [demo_at_om demo_with x_pipe p_flight] in Hf. apply list_elem_of_singleton in Hf. injection Hf as _ ->.
    split; [exact Hob|exact Hsl].
Defined.

(** The object arrives, the old one is forgotten, a checkpoint is requested ... *)
Definition demo_forgotten_om : omap (@ExtMap.Extmap.extmap obj_offset) :=
  mk_omap (om_map demo_moved_om) (foldr delete (om_info demo_moved_om) [2])
    (om_total_sectors demo_moved_om - sum_list_Z (data_of (om_info demo_moved_om) <$> [2])) (om_total_live demo_moved_om).

Lemma demo_saving : ∃ store, demo_collected
  (demo_at_om demo_forgotten_om (demo_with (x_pipe demo_cycle_state) [new_req REQ_CKPT [] []] [] 0) 4 store)
  demo_cycle_disk (GcSaving [2] 4).
Proof.
  destruct demo_moving as (r & b & Hop & Hr & st0 & Ho & Hk & Hs).
  exists (write demo_cycle_store (oname "vol" 3) b).2, st0. split; [exact Ho|]. split; [exact Hk|].
  etransitivity; [exact Hs|].
  eapply rtc_l; [apply cs_layer, (step_complete _ _ _ _ _ _ _ _ 0%nat)|].
  { unfold complete. cbn [demo_at_om demo_with x_pipe p_flight]. cbn [lookup list_lookup mbind option_bind delete list_delete].
    unfold notify. rewrite Hop. cbn [mbind option_bind]. reflexivity. }
  eapply rtc_l; [apply cs_forget; reflexivity|].
  eapply rtc_l; [apply cs_checkpoint|]. apply rtc_refl.
Qed.

Lemma demo_ckpt_fits (p : demo_pipeline) sq store : ckpt_fits (demo_at_om demo_forgotten_om p sq store).
Proof. unfold ckpt_fits. cbn [demo_at_om x_om]. vm_compute. reflexivity. Qed.

(** ... and written. *)
Lemma demo_saved : ∃ st : demo_xstate, demo_collected st demo_cycle_disk (GcSaving [2] 4) ∧
  last (x_checkpoints st) = Some 4 ∧ x_refcount st = ∅.
Proof.
  destruct demo_saving as (store & Hc). set (p := x_pipe demo_cycle_state) in *. set (st1 := demo_at_om _ _ _ _) in Hc.
  destruct (collected_system demo_insert demo_crc32 demo_gc_cfg "vol" demo_uuid (2 ^ 30) demo_gc_cfg_ok
              (proj1 demo_params) (proj2 demo_params) _ _ _ Hc) as [Hl _].
  assert (live_ok (x_om st1)) as Hlive by exact (inv_live _ _ _ _ (li_inv _ _ _ _ _ Hl)).
  assert (clones_len_zero (x_superblock_buf st1)) as Hsb by exact (inv_sbuf _ _ _ _ (li_inv _ _ _ _ _ Hl)).
  destruct (write_checkpoint_wf demo_crc32 "vol" demo_uuid (2 ^ 30) (dequeue st1 [] true) 4)
    as (sb & store' & Hw & _ & _);
    [apply demo_params|apply demo_params|apply demo_ckpt_fits|exact Hlive|reflexivity|exact Hsb|lia|constructor|].
  destruct Hc as (st0 & Ho & Hk & Hs). eexists. split; [|split].
  - exists st0. split; [exact Ho|]. split; [exact Hk|]. eapply rtc_r; [exact Hs|].
    apply cs_layer, step_worker; [reflexivity|apply demo_ckpt_fits|].
    unfold worker_step. cbn [st1 demo_at_om demo_with x_pipe p_queue t_op new_req x_cur_seq].
    fold st1. rewrite Hw. reflexivity.
  - reflexivity.
  - reflexivity.
Qed.

Lemma gc_delete_safe_witness :
  ∃ st st' : demo_xstate, demo_collected st demo_cycle_disk (GcSaving [2] 4) ∧ gc_delete "vol" st [2] = Some st' ∧
    rados_obj (x_store st') (oname "vol" 2) = None.
Proof.
  destruct demo_saved as (st & Hc & Hlast & Hrc).
  destruct (gc_delete_safe demo_insert demo_crc32 demo_gc_cfg "vol" demo_uuid (2 ^ 30) demo_gc_cfg_ok
              (proj1 demo_params) (proj2 demo_params) st demo_cycle_disk [2] 4 4 Hc Hlast) as (st' & Hd & _ & _ & Hgone & _);
    [reflexivity|].
  exists st, st'. split; [exact Hc|]. split; [exact Hd|]. apply Hgone; [left|by rewrite Hrc].
Defined.

(** ** Objects that have not arrived

    [gc_ready] is a condition of the step that chooses the objects, and [do_gc]
    does not check it: an object may be chosen while its PUT is outstanding (it is
    in [object_info] from the moment its batch is processed), the read of it then
    fails, and the error is ignored.  The request carries what happens to be in the
    buffer: here, where object 2 is not in the backend, the zeros the buffer starts
    with, as the contents of sectors 10 to 19. *)
Theorem gc_plan_unarrived (p : demo_pipeline) :
  gc_plan demo_gc_cfg "vol" (demo_at_om demo_om p 3 ∅) =
  Some ([(2, 20)], [new_req REQ_GC (zeros (10 * 512)) [mk_ckpt_mapentry 10 10 2 8]]).
Proof. vm_compute. reflexivity. Qed.
