(* ===== verification/Journal.v ===== *)
(** * Journal structures (src/src/journal.h)

    The packed structures in the files of the write log and the read cache, as
    codecs. *)

From S2P Require Import Prelude Bytes Objects.

Definition LSVD_J_DATA : Z := 10.
Definition LSVD_J_PAD : Z := 12.
Definition LSVD_J_W_SUPER : Z := 14.
Definition LSVD_J_R_SUPER : Z := 15.

Definition s32_ok (z : Z) : Prop := - 2 ^ 31 ≤ z < 2 ^ 31.
(** A signed 32-bit field. *)
Definition sint (off : nat) (bs : bytes) : Z := wrap_s 32 (uint off 4 bs).

(** Prove a round trip whose fields may be signed. *)
Ltac journal_fields :=
  unfold sint; unfold uint; slices;
  first [ rewrite le_combine_split_id by (simpl; lia); reflexivity
        | apply (le_split_signed 4); simpl; lia ].

(** [struct j_extent]: [lba : 40], [len : 24] *)
Record j_extent := mk_j_extent { je_lba : Z; je_len : Z }.

#[export] Program Instance j_extent_codec : Codec j_extent := {|
  csize := 8;
  enc e := le_split 8 (wrap_u 40 (je_lba e) + wrap_u 24 (je_len e) * 2 ^ 40);
  dec bs := mk_j_extent (uint 0 8 bs mod 2 ^ 40) (uint 0 8 bs / 2 ^ 40);
  fits e := 0 ≤ je_lba e < 2 ^ 40 ∧ 0 ≤ je_len e < 2 ^ 24;
|}.
Next Obligation. intros. cbv beta. len. Qed.
Next Obligation.
  intros [l n] (?&?). codec_red. rewrite !wrap_u_id by lia.
  assert (uint 0 8 (le_split 8 (l + n * 2 ^ 40)) = l + n * 2 ^ 40) as ->.
  { unfold uint. slices. apply le_combine_split_id. simpl. lia. }
  rewrite bitfield_low, bitfield_high by lia. done.
Qed.
Next Obligation. lia. Qed.

(** [struct j_hdr] *)
Record j_hdr := mk_j_hdr {
  jh_magic : Z;
  jh_type : Z;
  jh_version : Z;
  jh_len : Z;
  jh_seq : Z;
  jh_crc32 : Z;
  jh_extent_offset : Z;
  jh_extent_len : Z;
  jh_prev : Z;
}.

#[export] Program Instance j_hdr_codec : Codec j_hdr := {|
  csize := 40;
  enc h :=
    le_split 4 (jh_magic h) ++ le_split 4 (jh_type h) ++ le_split 4 (jh_version h) ++
    le_split 4 (jh_len h) ++ le_split 8 (jh_seq h) ++ le_split 4 (jh_crc32 h) ++
    le_split 4 (jh_extent_offset h) ++ le_split 4 (jh_extent_len h) ++ le_split 4 (jh_prev h);
  dec bs :=
    mk_j_hdr (uint 0 4 bs) (uint 4 4 bs) (uint 8 4 bs) (sint 12 bs) (uint 16 8 bs)
      (uint 24 4 bs) (sint 28 bs) (sint 32 bs) (sint 36 bs);
  fits h :=
    u32_ok (jh_magic h) ∧ u32_ok (jh_type h) ∧ u32_ok (jh_version h) ∧ s32_ok (jh_len h) ∧
    u64_ok (jh_seq h) ∧ u32_ok (jh_crc32 h) ∧ s32_ok (jh_extent_offset h) ∧
    s32_ok (jh_extent_len h) ∧ s32_ok (jh_prev h);
|}.
Next Obligation. intros. cbv beta. len. Qed.
Next Obligation.
  intros [] (?&?&?&?&?&?&?&?&?). unfold u32_ok, u64_ok, s32_ok in *. codec_red.
  f_equal; journal_fields.
Qed.
Next Obligation. lia. Qed.

(** [struct j_write_super] *)
Record j_write_super := mk_j_write_super {
  jw_magic : Z;
  jw_type : Z;
  jw_version : Z;
  jw_clean : Z;
  jw_seq : Z;
  jw_meta_base : Z;
  jw_meta_limit : Z;
  jw_base : Z;
  jw_limit : Z;
  jw_next : Z;
  jw_map_start : Z;
  jw_map_blocks : Z;
  jw_map_entries : Z;
  jw_len_start : Z;
  jw_len_blocks : Z;
  jw_len_entries : Z;
  jw_vol_uuid : bytes;
}.

#[export] Program Instance j_write_super_codec : Codec j_write_super := {|
  csize := 84;
  enc s :=
    le_split 4 (jw_magic s) ++ le_split 4 (jw_type s) ++ le_split 4 (jw_version s) ++
    le_split 4 (jw_clean s) ++ le_split 8 (jw_seq s) ++ le_split 4 (jw_meta_base s) ++
    le_split 4 (jw_meta_limit s) ++ le_split 4 (jw_base s) ++ le_split 4 (jw_limit s) ++
    le_split 4 (jw_next s) ++ le_split 4 (jw_map_start s) ++ le_split 4 (jw_map_blocks s) ++
    le_split 4 (jw_map_entries s) ++ le_split 4 (jw_len_start s) ++ le_split 4 (jw_len_blocks s) ++
    le_split 4 (jw_len_entries s) ++ resize 16 (jw_vol_uuid s);
  dec bs :=
    mk_j_write_super (uint 0 4 bs) (uint 4 4 bs) (uint 8 4 bs) (uint 12 4 bs) (uint 16 8 bs)
      (sint 24 bs) (sint 28 bs) (sint 32 bs) (sint 36 bs) (sint 40 bs) (sint 44 bs) (sint 48 bs)
      (sint 52 bs) (sint 56 bs) (sint 60 bs) (sint 64 bs) (slice 68 16 bs);
  fits s :=
    u32_ok (jw_magic s) ∧ u32_ok (jw_type s) ∧ u32_ok (jw_version s) ∧ u32_ok (jw_clean s) ∧
    u64_ok (jw_seq s) ∧ s32_ok (jw_meta_base s) ∧ s32_ok (jw_meta_limit s) ∧ s32_ok (jw_base s) ∧
    s32_ok (jw_limit s) ∧ s32_ok (jw_next s) ∧ s32_ok (jw_map_start s) ∧ s32_ok (jw_map_blocks s) ∧
    s32_ok (jw_map_entries s) ∧ s32_ok (jw_len_start s) ∧ s32_ok (jw_len_blocks s) ∧
    s32_ok (jw_len_entries s) ∧ uuid_ok (jw_vol_uuid s);
|}.
Next Obligation. intros. cbv beta. len. Qed.
Next Obligation.
  intros [] (?&?&?&?&?&?&?&?&?&?&?&?&?&?&?&?&Hu). unfold u32_ok, u64_ok, s32_ok, uuid_ok in *. codec_red.
  f_equal; try journal_fields. slices. unfold resize. rewrite Hu. rewrite take_ge by lia.
  apply app_nil_r.
Qed.
Next Obligation. lia. Qed.

(** [struct j_read_super] *)
Record j_read_super := mk_j_read_super {
  jr_magic : Z;
  jr_type : Z;
  jr_version : Z;
  jr_unit_size : Z;
  jr_base : Z;
  jr_units : Z;
  jr_map_start : Z;
  jr_map_blocks : Z;
  jr_vol_uuid : bytes;
}.

#[export] Program Instance j_read_super_codec : Codec j_read_super := {|
  csize := 48;
  enc s :=
    le_split 4 (jr_magic s) ++ le_split 4 (jr_type s) ++ le_split 4 (jr_version s) ++
    le_split 4 (jr_unit_size s) ++ le_split 4 (jr_base s) ++ le_split 4 (jr_units s) ++
    le_split 4 (jr_map_start s) ++ le_split 4 (jr_map_blocks s) ++ resize 16 (jr_vol_uuid s);
  dec bs :=
    mk_j_read_super (uint 0 4 bs) (uint 4 4 bs) (uint 8 4 bs) (sint 12 bs) (sint 16 bs)
      (sint 20 bs) (sint 24 bs) (sint 28 bs) (slice 32 16 bs);
  fits s :=
    u32_ok (jr_magic s) ∧ u32_ok (jr_type s) ∧ u32_ok (jr_version s) ∧ s32_ok (jr_unit_size s) ∧
    s32_ok (jr_base s) ∧ s32_ok (jr_units s) ∧ s32_ok (jr_map_start s) ∧ s32_ok (jr_map_blocks s) ∧
    uuid_ok (jr_vol_uuid s);
|}.
Next Obligation. intros. cbv beta. len. Qed.
Next Obligation.
  intros [] (?&?&?&?&?&?&?&?&Hu). unfold u32_ok, s32_ok, uuid_ok in *. codec_red.
  f_equal; try journal_fields. slices. unfold resize. rewrite Hu. rewrite take_ge by lia.
  apply app_nil_r.
Qed.
Next Obligation. lia. Qed.
