(* ===== verification/WriteCache.v ===== *)
(** * The write log (src/src/write_cache.cc)

    Client writes go to a journal in a local file before they are acknowledged.
    The journal is a ring of 4 KiB pages; every record is a header page followed
    by the data, and when the rest of the ring is too short for a record a pad
    record fills it.  The file is a sequence of bytes; reads and writes of the
    nvme layer are requests of an offset and the bytes.

    As in the code, the journal is not replayed when the file is opened. *)

From S2P Require Import Prelude Bytes Memory SmartIov LsvdTypes Objects Journal Config.

(** ** The file *)

Definition dev_read (dev : bytes) (off n : nat) : Z * bytes :=
  let b := slice off n dev in (Z.of_nat (length b), b).

(** [pwrite]: the file grows when needed. *)
Definition dev_write (dev : bytes) (off : nat) (bs : bytes) : bytes :=
  splice off bs (resize (Nat.max (off + length bs) (length dev)) dev).

(** [class write_cache_impl]; [super] points to a 4 KiB buffer, whose rest is
    [wc_tail]. *)
Record wcache := mk_wcache {
  wc_super : j_write_super;
  wc_tail : bytes;
  wc_sequence : Z;
  wc_total_write_pages : Z;
  wc_max_write_pages : Z;
  wc_outstanding_writes : Z;
  wc_write_batch : Z;
  wc_previous_hdr : Z;
  wc_next_alloc : Z;
}.

(** ** Allocation *)

Record allocation := mk_allocation {
  al_start : Z;
  al_pad : Z;
  al_n_pad : Z;
  al_prev : Z;
}.

Definition with_alloc (st : wcache) (prev next : Z) : wcache :=
  mk_wcache (wc_super st) (wc_tail st) (wc_sequence st) (wc_total_write_pages st)
    (wc_max_write_pages st) (wc_outstanding_writes st) (wc_write_batch st) prev next.

(** [allocate] *)
Definition allocate (st : wcache) (n : Z) : option (wcache * allocation) :=
  let base := jw_base (wc_super st) in
  let limit := jw_limit (wc_super st) in
  _ ← assert (0 <? n);
  _ ← assert ((base <=? wc_next_alloc st) && (wc_next_alloc st <? limit));
  let '(pad, n_pad, start) :=
    if limit - wc_next_alloc st <? n then (wc_next_alloc st, limit - wc_next_alloc st, base)
    else (0, 0, wc_next_alloc st) in
  let next := if start + n =? limit then base else start + n in
  Some (with_alloc st start next, mk_allocation start pad n_pad (wc_previous_hdr st)).

(** ** Records *)

Definition with_sequence (st : wcache) (sq : Z) : wcache :=
  mk_wcache (wc_super st) (wc_tail st) sq (wc_total_write_pages st) (wc_max_write_pages st)
    (wc_outstanding_writes st) (wc_write_batch st) (wc_previous_hdr st) (wc_next_alloc st).

(** [mk_header]; the extent fields are filled in by the caller. *)
Definition mk_header (st : wcache) (type blks prev : Z) : wcache * j_hdr :=
  (with_sequence st (wrap_u 64 (wc_sequence st + 1)),
   mk_j_hdr LSVD_MAGIC type 1 (wrap_s 32 blks) (wc_sequence st) 0 0 0 (wrap_s 32 prev)).

Definition with_extents (j : j_hdr) (off len : Z) : j_hdr :=
  mk_j_hdr (jh_magic j) (jh_type j) (jh_version j) (jh_len j) (jh_seq j) (jh_crc32 j) off len
    (jh_prev j).

(** A page that starts with [b]. *)
Definition page_of (b : bytes) : bytes := resize 4096 b.

(** A request of the nvme layer: page and bytes. *)
Definition nvme_write : Type := Z * bytes.

(** [class wcache_write_req]: the sequence number, the headers with their pages
    in order, the pad request and the data request. *)
Record wcache_write_req := mk_wcache_write_req {
  wr_seq : Z;
  wr_hdrs : list (Z * j_hdr);
  wr_pad : option nvme_write;
  wr_data : nvme_write;
}.

(** [pad_out]: the zero page, [pages] times. *)
Definition pad_out (pages : Z) : bytes := zeros (4096 * Z.to_nat pages).

(** The constructor. *)
Definition make_write_req (st : wcache) (h : heap) (lba : Z) (iovs : SmartIov.smartiov)
    (n_pages page n_pad pad prev : Z) : option (wcache * wcache_write_req) :=
  let '(st, prev, pad_hdrs, r_pad) :=
    if pad =? 0 then (st, prev, [], None)
    else
      let '(st, ph) := mk_header st LSVD_J_PAD (n_pad + 1) prev in
      (st, pad, [(pad, ph)], Some (pad, page_of (enc ph) ++ pad_out n_pad)) in
  let extents := [mk_j_extent (wrap_u 40 lba) (wrap_u 24 (Z.of_nat (SmartIov.bytes_of iovs) / 512))] in
  let '(st, j) := mk_header st LSVD_J_DATA (1 + n_pages) prev in
  let j := with_extents j 40 (8 * Z.of_nat (length extents)) in
  data ← SmartIov.contents h iovs;
  Some (st, mk_wcache_write_req (jh_seq j) (pad_hdrs ++ [(page, j)]) r_pad
              (page, page_of (enc j ++ enc_array extents) ++ data)).

Definition with_outstanding (st : wcache) (n : Z) : wcache :=
  mk_wcache (wc_super st) (wc_tail st) (wc_sequence st) (wc_total_write_pages st)
    (wc_max_write_pages st) n (wc_write_batch st) (wc_previous_hdr st) (wc_next_alloc st).

(** [writev], the part under the lock. *)
Definition log_write (st : wcache) (h : heap) (lba : Z) (iovs : SmartIov.smartiov)
    : option (wcache * wcache_write_req) :=
  let pages := div_round_up (Z.of_nat (SmartIov.bytes_of iovs)) 4096 in
  '(st, a) ← allocate st (pages + 1);
  '(st, req) ← make_write_req st h lba iovs pages (al_start a) (al_n_pad a - 1) (al_pad a) (al_prev a);
  Some (with_outstanding st (wc_outstanding_writes st + 1), req).

(** [writev]: the log, then the translation layer, whose [writev] is an
    argument. *)
Definition wc_writev {X : Type} (be_writev : X → Z → SmartIov.smartiov → option X)
    (st : wcache) (x : X) (h : heap) (lba : Z) (iovs : SmartIov.smartiov)
    : option (wcache * X * wcache_write_req) :=
  '(st, req) ← log_write st h lba iovs;
  x ← be_writev x (lba * 512) iovs;
  Some (st, x, req).

(** [wcache_write_req::notify] of the last child. *)
Definition log_done (st : wcache) : wcache := with_outstanding st (wc_outstanding_writes st - 1).

(** ** Throttling *)

Definition with_total (st : wcache) (n : Z) : wcache :=
  mk_wcache (wc_super st) (wc_tail st) (wc_sequence st) n (wc_max_write_pages st)
    (wc_outstanding_writes st) (wc_write_batch st) (wc_previous_hdr st) (wc_next_alloc st).

(** [reserve_room]; [None] means that the thread waits. *)
Definition reserve_room (st : wcache) (sectors : Z) : option wcache :=
  let pages := sectors ÷ 8 in
  if wc_max_write_pages st <? wc_total_write_pages st + pages then None
  else Some (with_total st (wc_total_write_pages st + pages)).

(** [release_room], and whether it wakes the waiting threads. *)
Definition release_room (st : wcache) (sectors : Z) : wcache * bool :=
  let pages := sectors ÷ 8 in
  let total := wc_total_write_pages st - pages in
  (with_total st total, total <? wc_max_write_pages st).

(** [flush] returns when this holds. *)
Definition flushed (st : wcache) : bool :=
  negb ((0 <? wc_total_write_pages st) || (0 <? wc_outstanding_writes st)).

(** ** Superblock *)

Definition SUPER_BLOCKNO : nat := 1.

(** [write_checkpoint]: the file afterwards.  [super] itself is not changed. *)
Definition write_checkpoint (st : wcache) (dev : bytes) : bytes :=
  let s := wc_super st in
  let c := mk_j_write_super (jw_magic s) (jw_type s) (jw_version s) 1 (wc_sequence st)
             (jw_meta_base s) (jw_meta_limit s) (jw_base s) (jw_limit s) 0 0 0 0 0 0 0
             (jw_vol_uuid s) in
  dev_write dev 4096 (enc c ++ wc_tail st).

Definition set_clean (s : j_write_super) (clean : Z) : j_write_super :=
  mk_j_write_super (jw_magic s) (jw_type s) (jw_version s) clean (jw_seq s) (jw_meta_base s)
    (jw_meta_limit s) (jw_base s) (jw_limit s) (jw_next s) (jw_map_start s) (jw_map_blocks s)
    (jw_map_entries s) (jw_len_start s) (jw_len_blocks s) (jw_len_entries s) (jw_vol_uuid s).

(** [roll_log_forward]: its body is compiled out. *)
Definition roll_log_forward (sequence : Z) : Z * Z := (0, sequence).

(** The constructor: the cache and the file afterwards. *)
Definition open_cache (dev : bytes) (cfg : lsvd_config) : outcome (bytes * wcache) :=
  let '(res, buf) := dev_read dev (4096 * SUPER_BLOCKNO) 4096 in
  _ ← throw_on (res <? 0);
  _ ← throw_on (res <? 4096);
  super ← checked (load_at 0 buf);
  _ ← throw_on (negb (jw_magic super =? LSVD_MAGIC));
  sequence ←
    (if negb (jw_clean super =? 0) then Ret (jw_seq super)
     else
       let '(ret, sequence) := roll_log_forward 1 in
       _ ← throw_on (ret <? 0); Ret sequence);
  let super := set_clean super 0 in
  let tail := drop 84 buf in
  let dev := dev_write dev (4096 * SUPER_BLOCKNO) (enc super ++ tail) in
  let n_pages := jw_limit super - jw_base super in
  Ret (dev, mk_wcache super tail sequence 0 (n_pages ÷ 2 + n_pages ÷ 4) 0
              (wlog_write_window cfg) 0 (jw_base super)).

(** [-errno] of a negative length. *)
Definition EINVAL : Z := 22.

(** [init_wcache] on an empty file: the result and the file.  The length given to
    [ftruncate] is computed in [int]; [None] is an overflow of that product,
    which is undefined. *)
Definition init_wcache (uuid : bytes) (cache_size : Z) : option (Z * bytes) :=
  let total_pages := wrap_s 32 (cache_size / 4096) in
  let content_pages := total_pages - 2 in
  let map := div_round_up content_pages 256 in
  let len := div_round_up content_pages 512 in
  let meta_pages := 2 * (map + len) in
  let data_pages := content_pages - meta_pages in
  let hdr := mk_j_hdr LSVD_MAGIC LSVD_J_DATA 1 total_pages 0 0 0 0 0 in
  let sup := mk_j_write_super LSVD_MAGIC LSVD_J_W_SUPER 1 1 1 1 (1 + meta_pages) (1 + meta_pages)
               (1 + meta_pages + data_pages) (1 + meta_pages) 0 0 0 0 0 0 uuid in
  let dev := dev_write [] 0 (page_of (enc hdr) ++ page_of (enc sup)) in
  _ ← assert ((- 2 ^ 31 <=? 4096 * total_pages) && (4096 * total_pages <? 2 ^ 31));
  if 4096 * total_pages <? 0 then Some (- EINVAL, dev)
  else Some (0, resize (Z.to_nat (4096 * total_pages)) dev).

(** [open_wlog].  [file] is the file if it exists; the inner [None] is a null
    pointer, the outer one undefined behaviour. *)
Definition open_wlog (file : option bytes) (uuid : bytes) (cfg : lsvd_config)
    : option (option (bytes * wcache)) :=
  '(err, dev) ← (match file with
                 | None => init_wcache uuid (wlog_bytes cfg)
                 | Some dev => Some (0, dev)
                 end);
  if err <? 0 then Some None else
  let '(_, buf) := dev_read dev 0 4096 in
  super ← load_at 0 buf;
  if negb (jh_magic super =? LSVD_MAGIC) then Some None
  else if negb (jh_type super =? LSVD_J_DATA) then Some None
  else
    match open_cache dev cfg with
    | Ret r => Some (Some r)
    | Throw => Some None
    | Fault => None
    end.
