(* ===== verification/WriteRing.v ===== *)
(** * The ring of the write log

    The allocator of [write_cache.cc]: what one allocation returns, the
    invariant of the allocation pointer, and that the ranges handed out within
    one length of the ring are disjoint and lie inside it.  The throttle of the
    same file does not bound the allocation by that length. *)

From S2P Require Import Prelude Bytes LsvdTypes Journal WriteCache.

(** The ring of a cache, [base, limit). *)
Definition ring_size (st : wcache) : Z := jw_limit (wc_super st) - jw_base (wc_super st).

(** Page numbers are positive [int]s and the pointer is inside the ring. *)
Definition ring_ok (st : wcache) : Prop :=
  0 < jw_base (wc_super st) ≤ wc_next_alloc st ∧
  wc_next_alloc st < jw_limit (wc_super st) < 2 ^ 31.

(** The ranges of an allocation of [n] pages. *)
Definition pad_ranges (a : allocation) : list (Z * Z) :=
  if al_pad a =? 0 then [] else [(al_pad a, al_n_pad a)].
Definition alloc_ranges (a : allocation) (n : Z) : list (Z * Z) :=
  pad_ranges a ++ [(al_start a, n)].

(** Allocations in a row, with the ranges handed out. *)
Fixpoint allocate_all (st : wcache) (ns : list Z) : option (wcache * list (Z * Z)) :=
  match ns with
  | [] => Some (st, [])
  | n :: ns =>
    '(st, a) ← allocate st n;
    '(st, rs) ← allocate_all st ns;
    Some (st, alloc_ranges a n ++ rs)
  end.

(** Pages in ranges, the pads included. *)
Definition span (rs : list (Z * Z)) : Z := sum_list_Z (snd <$> rs).

Lemma span_app r1 r2 : span (r1 ++ r2) = span r1 + span r2.
Proof. unfold span. by rewrite fmap_app, sum_list_Z_app. Qed.

(** Where the pointer goes after [n] pages at [start]. *)
Definition ring_next (st : wcache) (start n : Z) : Z :=
  if start + n =? jw_limit (wc_super st) then jw_base (wc_super st) else start + n.

Lemma allocate_fits st n :
  ring_ok st → 0 < n ≤ jw_limit (wc_super st) - wc_next_alloc st →
  allocate st n = Some (with_alloc st (wc_next_alloc st) (ring_next st (wc_next_alloc st) n),
                        mk_allocation (wc_next_alloc st) 0 0 (wc_previous_hdr st)).
Proof.
  intros [Hb Hn] Hl. unfold allocate.
  rewrite (assert_true (0 <? n)) by (apply Z.ltb_lt; lia). simpl.
  rewrite assert_true by (apply andb_true_iff; split; [apply Z.leb_le|apply Z.ltb_lt]; lia). simpl.
  rewrite (proj2 (Z.ltb_ge _ _)) by lia. done.
Qed.

Lemma allocate_pads st n :
  ring_ok st → jw_limit (wc_super st) - wc_next_alloc st < n →
  allocate st n = Some (with_alloc st (jw_base (wc_super st)) (ring_next st (jw_base (wc_super st)) n),
                        mk_allocation (jw_base (wc_super st)) (wc_next_alloc st)
                          (jw_limit (wc_super st) - wc_next_alloc st) (wc_previous_hdr st)).
Proof.
  intros [Hb Hn] Hl. unfold allocate.
  rewrite (assert_true (0 <? n)) by (apply Z.ltb_lt; lia). simpl.
  rewrite assert_true by (apply andb_true_iff; split; [apply Z.leb_le|apply Z.ltb_lt]; lia). simpl.
  rewrite (proj2 (Z.ltb_lt _ _)) by lia. done.
Qed.

(** The two cases of an allocation that the ring has room for. *)
Lemma allocate_cases st n :
  ring_ok st → 0 < n ≤ ring_size st →
  ∃ st' a, allocate st n = Some (st', a) ∧ ring_ok st' ∧ wc_super st' = wc_super st ∧
    wc_previous_hdr st' = al_start a ∧ wc_next_alloc st' = ring_next st (al_start a) n ∧
    al_prev a = wc_previous_hdr st ∧
    ((n ≤ jw_limit (wc_super st) - wc_next_alloc st ∧ al_start a = wc_next_alloc st ∧
      alloc_ranges a n = [(wc_next_alloc st, n)]) ∨
     (jw_limit (wc_super st) - wc_next_alloc st < n ∧ al_start a = jw_base (wc_super st) ∧
      alloc_ranges a n = [(wc_next_alloc st, jw_limit (wc_super st) - wc_next_alloc st);
                          (jw_base (wc_super st), n)])).
Proof.
  intros Hok Hn. unfold ring_size in Hn. pose proof Hok as [Hb Hx].
  destruct (decide (n ≤ jw_limit (wc_super st) - wc_next_alloc st)) as [Hf|Hf].
  - rewrite allocate_fits by (done || lia). do 2 eexists. split; [done|]. simpl.
    split_and!; try done; [|by left].
    unfold ring_ok, ring_next. simpl. case_if; lia.
  - rewrite allocate_pads by (done || lia). do 2 eexists. split; [done|]. simpl.
    split_and!; try done.
    + unfold ring_ok, ring_next. simpl. case_if; lia.
    + right. split_and!; [lia|done|]. unfold alloc_ranges, pad_ranges. simpl.
      rewrite (proj2 (Z.eqb_neq _ _)) by lia. done.
Qed.

(** Requests that fit in the ring. *)
Definition sizes_ok (st : wcache) (ns : list Z) : Prop := Forall (λ n, 0 < n ≤ ring_size st) ns.

Lemma sizes_ok_super st st' ns : wc_super st' = wc_super st → sizes_ok st ns → sizes_ok st' ns.
Proof. unfold sizes_ok, ring_size. by intros ->. Qed.

(** One step of a run of allocations. *)
Lemma allocate_all_cons st n ns st' rs :
  ring_ok st → sizes_ok st (n :: ns) → allocate_all st (n :: ns) = Some (st', rs) →
  ∃ st1 rs1 rs2, allocate_all st1 ns = Some (st', rs2) ∧ rs = rs1 ++ rs2 ∧
    ring_ok st1 ∧ sizes_ok st1 ns ∧ wc_super st1 = wc_super st ∧ 0 < n ∧
    ((n ≤ jw_limit (wc_super st) - wc_next_alloc st ∧ rs1 = [(wc_next_alloc st, n)] ∧
      wc_next_alloc st1 = ring_next st (wc_next_alloc st) n) ∨
     (jw_limit (wc_super st) - wc_next_alloc st < n ∧ n ≤ ring_size st ∧
      rs1 = [(wc_next_alloc st, jw_limit (wc_super st) - wc_next_alloc st); (jw_base (wc_super st), n)] ∧
      wc_next_alloc st1 = ring_next st (jw_base (wc_super st)) n)).
Proof.
  intros Hok [Hn Hns]%Forall_cons Hall. simpl in Hall.
  destruct (allocate_cases st n Hok Hn) as (st1 & a & Ha & Hok1 & Hsup & _ & Hnext & _ & Hc).
  rewrite Ha in Hall. simpl in Hall.
  destruct (allocate_all st1 ns) as [[st2 rs']|] eqn:Hrest; simplify_eq/=.
  exists st1, (alloc_ranges a n), rs'. split_and!; auto; [by apply (sizes_ok_super st)|lia|].
  destruct Hc as [(? & Hs & ?)|(? & Hs & ?)]; rewrite Hs in Hnext; [left|right]; split_and!; auto; lia.
Qed.

Lemma allocate_all_span ns st st' rs :
  ring_ok st → sizes_ok st ns → allocate_all st ns = Some (st', rs) → 0 ≤ span rs.
Proof.
  revert st rs. induction ns as [|n ns IH]; intros st rs Hok Hns Hall; [by simplify_eq/=|].
  destruct (allocate_all_cons _ _ _ _ _ Hok Hns Hall) as
    (st1 & rs1 & rs2 & Hr & -> & Hok1 & Hns1 & _ & ? & Hc).
  specialize (IH _ _ Hok1 Hns1 Hr). rewrite span_app. destruct Hok.
  destruct Hc as [(? & -> & _)|(? & ? & -> & _)]; unfold span in *; simpl; lia.
Qed.

Lemma allocate_all_nil ns st st' rs :
  ring_ok st → sizes_ok st ns → allocate_all st ns = Some (st', rs) → span rs ≤ 0 → rs = [].
Proof.
  destruct ns as [|n ns]; intros Hok Hns Hall Hle; [by simplify_eq/=|].
  destruct (allocate_all_cons _ _ _ _ _ Hok Hns Hall) as
    (st1 & rs1 & rs2 & Hr & -> & Hok1 & Hns1 & _ & ? & Hc).
  pose proof (allocate_all_span _ _ _ _ Hok1 Hns1 Hr). rewrite span_app in Hle. destruct Hok.
  destruct Hc as [(? & -> & _)|(? & ? & -> & _)]; unfold span in *; simpl in *; lia.
Qed.

(** Within a budget that ends at [hi] the pointer does not wrap. *)
Lemma allocate_all_ascending ns st st' rs hi :
  ring_ok st → sizes_ok st ns → allocate_all st ns = Some (st', rs) →
  hi ≤ jw_limit (wc_super st) → wc_next_alloc st ≤ hi → span rs ≤ hi - wc_next_alloc st →
  ascending (wc_next_alloc st) hi rs.
Proof.
  revert st rs. induction ns as [|n ns IH]; intros st rs Hok Hns Hall Hhi Hle Hspan;
    [by simplify_eq/=|].
  destruct (allocate_all_cons _ _ _ _ _ Hok Hns Hall) as
    (st1 & rs1 & rs2 & Hr & -> & Hok1 & Hns1 & Hsup & ? & Hc).
  pose proof (allocate_all_span _ _ _ _ Hok1 Hns1 Hr). rewrite span_app in Hspan.
  destruct Hc as [(? & -> & Hx)|(? & ? & -> & _)]; unfold span in Hspan; simpl in Hspan;
    fold (span rs2) in Hspan; [|lia].
  simpl. split_and!; [lia|lia|]. unfold ring_next in Hx. case_match; zb.
  - rewrite (allocate_all_nil _ _ _ _ Hok1 Hns1 Hr) by lia. simpl. lia.
  - rewrite <- Hx. apply (IH _ _ Hok1 Hns1 Hr); rewrite ?Hsup; lia.
Qed.

(** A run of at most one ring: an upper part, and after the wrap a lower part
    that stays below [lo]. *)
Lemma allocate_all_split ns st st' rs lo :
  ring_ok st → sizes_ok st ns → allocate_all st ns = Some (st', rs) →
  jw_base (wc_super st) ≤ lo ≤ wc_next_alloc st →
  span rs ≤ (jw_limit (wc_super st) - wc_next_alloc st) + (lo - jw_base (wc_super st)) →
  ∃ r1 r2, rs = r1 ++ r2 ∧ ascending (wc_next_alloc st) (jw_limit (wc_super st)) r1 ∧
    ascending (jw_base (wc_super st)) lo r2.
Proof.
  revert st rs. induction ns as [|n ns IH]; intros st rs Hok Hns Hall Hlo Hspan.
  { simplify_eq/=. exists [], []. destruct Hok. split_and!; simpl; [done|lia|lia]. }
  destruct (allocate_all_cons _ _ _ _ _ Hok Hns Hall) as
    (st1 & rs1 & rs2 & Hr & -> & Hok1 & Hns1 & Hsup & ? & Hc).
  pose proof (allocate_all_span _ _ _ _ Hok1 Hns1 Hr). rewrite span_app in Hspan. destruct Hok.
  destruct Hc as [(? & -> & Hx)|(? & ? & -> & Hx)]; unfold span in Hspan; simpl in Hspan;
    fold (span rs2) in Hspan; unfold ring_next in Hx; case_match; zb.
  - eexists [_], rs2. split_and!; [done|simpl; lia|]. rewrite <- Hx.
    apply (allocate_all_ascending _ _ _ _ _ Hok1 Hns1 Hr); rewrite ?Hsup; lia.
  - destruct (IH _ _ Hok1 Hns1 Hr) as (r1 & r2 & -> & Ha1 & Ha2); [rewrite ?Hsup; lia..|].
    rewrite Hsup, Hx in *. eexists (_ :: r1), r2. split_and!; [done| |done]. simpl. split_and!; auto; lia.
  - exfalso. lia.
  - eexists [_], (_ :: rs2). split_and!; [done|simpl; lia|]. simpl. split_and!; [lia|lia|].
    rewrite <- Hx. apply (allocate_all_ascending _ _ _ _ _ Hok1 Hns1 Hr); rewrite ?Hsup; lia.
Qed.

(** Ranges [(b, n)] that do not meet. *)
Definition ranges_disjoint (r r' : Z * Z) : Prop := r.1 + r.2 ≤ r'.1 ∨ r'.1 + r'.2 ≤ r.1.

(** Two ascending runs, the second below the first. *)
Lemma ascending_two lo mid hi r1 r2 i j r r' :
  ascending mid hi r1 → ascending lo mid r2 → (i < j)%nat →
  (r1 ++ r2) !! i = Some r → (r1 ++ r2) !! j = Some r' → ranges_disjoint r r'.
Proof.
  destruct r as [b n], r' as [b' n']. unfold ranges_disjoint. simpl.
  intros H1 H2 Hij Hi Hj. apply lookup_app_Some in Hi as [Hi|[? Hi]];
    apply lookup_app_Some in Hj as [Hj|[? Hj]].
  - left. by apply (ascending_disjoint _ _ _ _ _ _ _ _ _ H1 Hij Hi Hj).
  - right. destruct (ascending_range _ _ _ _ _ _ H1 Hi), (ascending_range _ _ _ _ _ _ H2 Hj). lia.
  - exfalso. apply lookup_lt_Some in Hj. lia.
  - left. apply (ascending_disjoint lo mid r2 (i - length r1) (j - length r1) b n b' n'); [done|lia|done..].
Qed.

Lemma ring_ranges ns st st' rs :
  ring_ok st → sizes_ok st ns → allocate_all st ns = Some (st', rs) → span rs ≤ ring_size st →
  (∀ i j r r', (i < j)%nat → rs !! i = Some r → rs !! j = Some r' → ranges_disjoint r r') ∧
  (∀ i r, rs !! i = Some r → jw_base (wc_super st) ≤ r.1 ∧ 0 < r.2 ∧ r.1 + r.2 ≤ jw_limit (wc_super st)).
Proof.
  intros Hok Hns Hall Hspan. pose proof Hok as [Hb Hn]. unfold ring_size in Hspan.
  destruct (allocate_all_split _ _ _ _ (wc_next_alloc st) Hok Hns Hall) as (r1 & r2 & -> & H1 & H2);
    [lia|lia|].
  split; [intros i j r r'; by apply (ascending_two _ _ _ _ _ _ _ _ _ H1 H2)|].
  intros i [b n] [Hi|[? Hi]]%lookup_app_Some; simpl.
  - destruct (ascending_range _ _ _ _ _ _ H1 Hi). lia.
  - destruct (ascending_range _ _ _ _ _ _ H2 Hi). lia.
Qed.

(** Allocations that fit never fail, and keep the invariant. *)
Lemma allocate_all_total ns st :
  ring_ok st → sizes_ok st ns →
  ∃ st' rs, allocate_all st ns = Some (st', rs) ∧ ring_ok st' ∧ wc_super st' = wc_super st.
Proof.
  revert st. induction ns as [|n ns IH]; intros st Hok Hns; [eexists _, _; eauto|].
  apply Forall_cons in Hns as [Hn Hns]. simpl.
  destruct (allocate_cases st n Hok Hn) as (st1 & a & -> & Hok1 & Hsup & _). simpl.
  destruct (IH st1 Hok1 (sizes_ok_super _ _ _ Hsup Hns)) as (st2 & rs & -> & ? & ?).
  simpl. do 2 eexists. split_and!; [done|done|congruence].
Qed.

(** The allocations of the log that lie within one length of the ring are
    pairwise disjoint ranges of pages of the ring, whatever the position of the
    allocation pointer and however often they wrap, pads included. *)
Theorem log_ring_disjoint ns st st' rs :
  ring_ok st → sizes_ok st ns → allocate_all st ns = Some (st', rs) → span rs ≤ ring_size st →
  ring_ok st' ∧
  (∀ i j r r', (i < j)%nat → rs !! i = Some r → rs !! j = Some r' → ranges_disjoint r r') ∧
  (∀ i r, rs !! i = Some r → jw_base (wc_super st) ≤ r.1 ∧ 0 < r.2 ∧ r.1 + r.2 ≤ jw_limit (wc_super st)).
Proof.
  intros Hok Hns Hall Hspan. split; [|by eapply ring_ranges].
  destruct (allocate_all_total ns st Hok Hns) as (st2 & rs2 & Hall2 & ? & _). congruence.
Qed.

(** A ring of [n] pages from page [b] on. *)
Definition demo_ring (b n next prev : Z) : wcache :=
  mk_wcache (mk_j_write_super LSVD_MAGIC LSVD_J_W_SUPER 1 0 1 1 b b (b + n) 0 0 0 0 0 0 0 []) []
    1 0 (n ÷ 2 + n ÷ 4) 0 8 prev next.

Lemma log_ring_disjoint_witness :
  let st := demo_ring 5 20 18 0 in
  let rs := [(18, 3); (21, 4); (5, 6); (11, 7)] in
  allocate_all st [3; 6; 7] = Some (with_alloc st 11 18, rs) ∧
  ∀ i j r r', (i < j)%nat → rs !! i = Some r → rs !! j = Some r' → ranges_disjoint r r'.
Proof.
  intros st rs.
  assert (allocate_all st [3; 6; 7] = Some (with_alloc st 11 18, rs)) as Hall by reflexivity.
  split; [exact Hall|].
  apply (log_ring_disjoint [3; 6; 7] st (with_alloc st 11 18) rs).
  - split; simpl; lia.
  - repeat first [apply Forall_nil_2 | apply Forall_cons_2; [vm_compute; by split|]].
  - exact Hall.
  - vm_compute. discriminate.
Defined.

(** ** The throttle *)

(** Writes of so many bytes: the throttle, then the allocation of header and
    data, as the write path does; none of them completes. *)
Fixpoint admit_all (st : wcache) (bs : list Z) : option (wcache * list (Z * Z)) :=
  match bs with
  | [] => Some (st, [])
  | b :: bs =>
    st ← reserve_room st (b / 512);
    let n := div_round_up b 4096 + 1 in
    '(st, a) ← allocate st n;
    '(st, rs) ← admit_all st bs;
    Some (st, alloc_ranges a n ++ rs)
  end.

(** A throttle that lets [n] more pages in. *)
Definition admits (st : wcache) (n : Z) : Prop := wc_total_write_pages st + n ≤ wc_max_write_pages st.

(** One page is admitted, and takes two. *)
Lemma admit_page st bs :
  ring_ok st → admits st 1 → wc_next_alloc st + 2 ≤ jw_limit (wc_super st) →
  admit_all st (4096 :: bs) =
    '(st', rs) ← admit_all (with_alloc (with_total st (wc_total_write_pages st + 1))
                              (wc_next_alloc st) (ring_next st (wc_next_alloc st) 2)) bs;
    Some (st', (wc_next_alloc st, 2) :: rs).
Proof.
  intros Hok Had Hl. unfold admits in Had. cbn [admit_all]. unfold reserve_room.
  change (4096 / 512 ÷ 8) with 1. rewrite (proj2 (Z.ltb_ge _ _)) by lia. simpl mbind at 1.
  change (div_round_up 4096 4096 + 1) with 2.
  rewrite allocate_fits; [done|exact Hok|simpl; lia].
Qed.

Lemma admit_pages st (i m : nat) (k : Z) bs :
  0 < jw_base (wc_super st) → jw_limit (wc_super st) < 2 ^ 31 → ring_size st = 2 * k →
  wc_next_alloc st = jw_base (wc_super st) + 2 * Z.of_nat i → Z.of_nat i + Z.of_nat m = k →
  (0 < m)%nat → admits st (Z.of_nat m) →
  ∃ st1 rs1, wc_super st1 = wc_super st ∧ wc_next_alloc st1 = jw_base (wc_super st) ∧
    wc_total_write_pages st1 = wc_total_write_pages st + Z.of_nat m ∧
    wc_max_write_pages st1 = wc_max_write_pages st ∧ length rs1 = m ∧
    head rs1 = Some (wc_next_alloc st, 2) ∧
    admit_all st (replicate m 4096 ++ bs) =
      '(st', rs) ← admit_all st1 bs; Some (st', rs1 ++ rs).
Proof.
  unfold ring_size. revert st i. induction m as [|m IH]; intros st i Hb Hl Hk Hn Hi Hm Had; [lia|].
  unfold admits in Had.
  assert (ring_ok st) as Hok by (split; lia). simpl replicate. simpl app.
  rewrite admit_page by (done || unfold admits; lia).
  set (st1 := with_alloc _ _ _). destruct m as [|m].
  { exists st1, [(wc_next_alloc st, 2)]. split_and!; try done; try (simpl; lia).
    subst st1. unfold ring_next. simpl. rewrite (proj2 (Z.eqb_eq _ _)) by lia. done. }
  destruct (IH st1 (S i)) as (st2 & rs2 & Hs2 & Hn2 & Ht2 & Hm2 & Hl2 & _ & Heq).
  1-7: subst st1; unfold admits, ring_next; simpl; try lia.
  { rewrite (proj2 (Z.eqb_neq _ _)) by lia. lia. }
  simpl replicate in Heq. simpl app in Heq.
  exists st2, ((wc_next_alloc st, 2) :: rs2). split_and!; subst st1; simpl in *; try done; try lia.
  rewrite Heq. by destruct (admit_all st2 bs) as [[? ?]|].
Qed.

(** The throttle does not keep the log from overwriting itself.  It counts
    data pages and admits three quarters of the ring, while every record also
    takes a header page: in a ring of [2 k] pages it admits [k + 1] one-page
    writes none of which has completed, and the last gets the pages of the
    first. *)
Theorem throttle_allows_overrun st (k : nat) :
  (2 ≤ k)%nat → 0 < jw_base (wc_super st) → jw_limit (wc_super st) < 2 ^ 31 →
  ring_size st = 2 * Z.of_nat k → wc_next_alloc st = jw_base (wc_super st) →
  wc_total_write_pages st = 0 →
  wc_max_write_pages st = ring_size st ÷ 2 + ring_size st ÷ 4 →
  ∃ st' rs, admit_all st (replicate (k + 1) 4096) = Some (st', rs) ∧
    rs !! 0%nat = Some (jw_base (wc_super st), 2) ∧ rs !! k = Some (jw_base (wc_super st), 2).
Proof.
  intros Hk Hb Hl Hsz Hn Ht Hm.
  assert (wc_total_write_pages st + Z.of_nat k + 1 ≤ wc_max_write_pages st) as Had.
  { rewrite Hm, Ht, Hsz, !Z.quot_div_nonneg by lia.
    pose proof (Z.div_mod (2 * Z.of_nat k) 2 ltac:(lia)).
    pose proof (Z.mod_pos_bound (2 * Z.of_nat k) 2 ltac:(lia)).
    pose proof (Z.div_le_lower_bound (2 * Z.of_nat k) 4 1 ltac:(lia) ltac:(lia)).
    pose proof (Z.div_mul (Z.of_nat k) 2 ltac:(lia)). lia. }
  rewrite replicate_add.
  destruct (admit_pages st 0 k (Z.of_nat k) (replicate 1 4096)) as
    (st1 & rs1 & Hs1 & Hn1 & Ht1 & Hm1 & Hl1 & Hh1 & ->); try (unfold admits; lia).
  unfold ring_size in Hsz. rewrite <- Hs1 in *.
  simpl replicate. rewrite admit_page.
  2: { split; lia. }
  2: { unfold admits. lia. }
  2: { lia. }
  simpl. do 2 eexists. split_and!; [done| |].
  - destruct rs1; [done|]. simpl in *. congruence.
  - rewrite lookup_middle by done. by rewrite Hn1.
Qed.

Lemma throttle_allows_overrun_witness :
  ∃ st' rs, admit_all (demo_ring 5 8 5 0) (replicate 5 4096) = Some (st', rs) ∧
    rs !! 0%nat = Some (5, 2) ∧ rs !! 4%nat = Some (5, 2).
Proof. apply (throttle_allows_overrun (demo_ring 5 8 5 0) 4); vm_compute; try done; lia. Defined.

(** ** Writes that do not fit *)

(** A write longer than the ring is not refused: the record starts at the
    base and runs over the end, the pad covers the rest of the ring, and the
    assertion of the next allocation fails. *)
Theorem oversized_write st n m :
  ring_ok st → ring_size st < n →
  ∃ st' a, allocate st n = Some (st', a) ∧ al_start a = jw_base (wc_super st) ∧
    jw_limit (wc_super st) < al_start a + n ∧
    al_pad a = wc_next_alloc st ∧ al_pad a + al_n_pad a = jw_limit (wc_super st) ∧
    allocate st' m = None.
Proof.
  intros Hok Hn. pose proof Hok as [Hb Hx]. unfold ring_size in Hn.
  rewrite allocate_pads by (done || lia). do 2 eexists. split; [done|]. simpl.
  split_and!; [done|lia|done|lia|]. unfold allocate, ring_next. simpl.
  rewrite (proj2 (Z.eqb_neq _ _)) by lia. destruct (0 <? m); [|done]. simpl.
  rewrite (proj2 (Z.ltb_ge (_ + n) _)) by lia. by rewrite andb_false_r.
Qed.

Lemma oversized_write_witness :
  ∃ st' a, allocate (demo_ring 5 8 7 0) 9 = Some (st', a) ∧ allocate st' 1 = None.
Proof.
  destruct (oversized_write (demo_ring 5 8 7 0) 9 1) as (st' & a & ? & _ & _ & _ & _ & ?).
  - split; simpl; lia.
  - reflexivity.
  - eauto.
Defined.
