(* ===== verification/WriteLog.v ===== *)
(** * The records of the write log

    What a run of writes puts in the file: the headers form a chain with
    consecutive sequence numbers and back links, they describe exactly the pages
    that were allocated, and, whatever the order in which the file writes
    complete, the records of one length of the ring can be read back. *)

From S2P Require Import Prelude Bytes Memory SmartIov LsvdTypes Objects Journal Config.
From S2P Require Import WriteCache WriteRing.

(** Writes in a row, on one heap. *)
Fixpoint log_writes (st : wcache) (h : heap) (ws : list (Z * SmartIov.smartiov))
    : option (wcache * list wcache_write_req) :=
  match ws with
  | [] => Some (st, [])
  | (lba, iovs) :: ws =>
    '(st, r) ← log_write st h lba iovs;
    '(st, rs) ← log_writes st h ws;
    Some (st, r :: rs)
  end.

(** The headers, and the file writes, of the requests in order. *)
Definition headers (rs : list wcache_write_req) : list (Z * j_hdr) := mjoin (wr_hdrs <$> rs).
Definition req_writes (r : wcache_write_req) : list nvme_write := option_list (wr_pad r) ++ [wr_data r].
Definition writes (rs : list wcache_write_req) : list nvme_write := mjoin (req_writes <$> rs).

(** Pages of one write, with the header. *)
Definition pages_of (iovs : SmartIov.smartiov) : Z :=
  div_round_up (Z.of_nat (SmartIov.bytes_of iovs)) 4096 + 1.

(** A write of less than 2 GiB whose memory is allocated, at an LBA and with a
    length that the extent's bit fields hold. *)
Definition write_ok (h : heap) (w : Z * SmartIov.smartiov) : Prop :=
  0 ≤ w.1 < 2 ^ 40 ∧ (0 < SmartIov.bytes_of w.2)%nat ∧ Z.of_nat (SmartIov.bytes_of w.2) < 2 ^ 31 ∧
  is_Some (SmartIov.contents h w.2).

(** Headers linked by [prev], with consecutive sequence numbers. *)
Fixpoint chained (prev sq : Z) (hs : list (Z * j_hdr)) : Prop :=
  match hs with
  | [] => True
  | (page, j) :: hs =>
    jh_magic j = LSVD_MAGIC ∧ (jh_type j = LSVD_J_DATA ∨ jh_type j = LSVD_J_PAD) ∧
    jh_prev j = prev ∧ jh_seq j = sq ∧ chained page (wrap_u 64 (sq + 1)) hs
  end.

(** The pages that a header describes. *)
Definition described (hs : list (Z * j_hdr)) : list (Z * Z) := (λ '(page, j), (page, jh_len j)) <$> hs.

Lemma described_app h1 h2 : described (h1 ++ h2) = described h1 ++ described h2.
Proof. apply fmap_app. Qed.

(** A file write and the header at its start; it stays inside the pages that the
    header describes. *)
Definition header_image (w : nvme_write) (hd : Z * j_hdr) : Prop :=
  w.1 = hd.1 ∧ slice 0 40 w.2 = enc hd.2 ∧ fits hd.2 ∧
  4096 ≤ Z.of_nat (length w.2) ≤ 4096 * jh_len hd.2.

(** The data write of a client write: one extent after the header, the client's
    bytes from the second page on. *)
Definition record_of (lba : Z) (data : bytes) (w : nvme_write) (j : j_hdr) : Prop :=
  jh_type j = LSVD_J_DATA ∧ jh_extent_offset j = 40 ∧ jh_extent_len j = 8 ∧
  slice 40 8 w.2 = enc (mk_j_extent lba (Z.of_nat (length data) / 512)) ∧
  drop 4096 w.2 = data.

Definition log_ok (st : wcache) : Prop :=
  ring_ok st ∧ 0 ≤ wc_previous_hdr st < 2 ^ 31 ∧ 0 ≤ wc_sequence st < 2 ^ 64.

Lemma mk_header_fits type blks prev sq :
  0 ≤ type < 2 ^ 32 → 0 ≤ sq < 2 ^ 64 →
  fits (mk_j_hdr LSVD_MAGIC type 1 (wrap_s 32 blks) sq 0 0 0 (wrap_s 32 prev)).
Proof.
  intros. simpl. unfold u32_ok, u64_ok, s32_ok, LSVD_MAGIC.
  pose proof (wrap_s_range 32 blks ltac:(lia)). pose proof (wrap_s_range 32 prev ltac:(lia)).
  split_and!; lia.
Qed.

Lemma slice_page_of off n (b c : bytes) :
  (off + n ≤ length b)%nat → (length b ≤ 4096)%nat → slice off n (page_of b ++ c) = slice off n b.
Proof.
  intros. unfold page_of. rewrite slice_app_l by (rewrite length_resize; lia).
  by apply resize_slice.
Qed.

Lemma drop_page_of (b c : bytes) : drop 4096 (page_of b ++ c) = c.
Proof. unfold page_of. rewrite drop_app_ge by (rewrite length_resize; lia). by rewrite length_resize, drop_0. Qed.

(** The pad record. *)
Lemma pad_image page n prev sq :
  0 < n < 2 ^ 31 → 0 ≤ sq < 2 ^ 64 →
  let ph := mk_j_hdr LSVD_MAGIC LSVD_J_PAD 1 (wrap_s 32 n) sq 0 0 0 (wrap_s 32 prev) in
  header_image (page, page_of (enc ph) ++ zeros (4096 * Z.to_nat (n - 1))) (page, ph).
Proof.
  intros Hn Hsq ph. split; [done|]. split; [|split].
  - cbn [snd]. rewrite slice_page_of by (rewrite enc_length; simpl; lia). apply slice_all. by rewrite enc_length.
  - by apply mk_header_fits.
  - cbn [fst snd]. unfold page_of. len. subst ph. simpl jh_len. rewrite wrap_s_id by lia. lia.
Qed.

(** The data record. *)
Lemma data_image page n prev sq lba data :
  0 < n < 2 ^ 31 → 0 ≤ sq < 2 ^ 64 → Z.of_nat (length data) ≤ 4096 * (n - 1) →
  0 ≤ lba < 2 ^ 40 → Z.of_nat (length data) < 2 ^ 31 →
  let j := with_extents (mk_j_hdr LSVD_MAGIC LSVD_J_DATA 1 (wrap_s 32 n) sq 0 0 0 (wrap_s 32 prev)) 40 8 in
  let e := mk_j_extent (wrap_u 40 lba) (wrap_u 24 (Z.of_nat (length data) / 512)) in
  let w := (page, page_of (enc j ++ enc_array [e]) ++ data) in
  header_image w (page, j) ∧ record_of lba data w j.
Proof.
  intros Hn Hsq Hd Hlba Hd2 j e w.
  assert (length (enc j ++ enc_array [e]) = 48%nat) as Hl by (len; simpl; lia).
  assert (0 ≤ Z.of_nat (length data) / 512 < 2 ^ 24) as Hx.
  { split; [apply Z.div_pos; lia|]. apply Z.div_lt_upper_bound; lia. }
  assert (fits j) as Hf.
  { pose proof (mk_header_fits LSVD_J_DATA n prev sq ltac:(unfold LSVD_J_DATA; lia) Hsq) as Hf.
    simpl in Hf |- *. unfold s32_ok in *. destruct Hf as (?&?&?&?&?&?&_&_&?). split_and!; done || lia. }
  split.
  - split; [done|]. split; [|split; [done|]]; subst w; cbn [fst snd].
    + rewrite slice_page_of by lia. apply slice_hit. by rewrite enc_length.
    + unfold page_of. len. subst j. simpl jh_len. rewrite wrap_s_id by lia. lia.
  - do 3 (split; [done|]). subst w. cbn [snd]. split; [|apply drop_page_of].
    rewrite slice_page_of by lia.
    rewrite slice_skip by (rewrite enc_length; simpl; lia). rewrite enc_length.
    change (enc_array [e]) with (enc e ++ []). rewrite app_nil_r. subst e. rewrite !wrap_u_id by lia.
    apply slice_all. by rewrite enc_length.
Qed.

Lemma pages_of_spec iovs :
  (0 < SmartIov.bytes_of iovs)%nat → Z.of_nat (SmartIov.bytes_of iovs) < 2 ^ 31 →
  1 < pages_of iovs ∧ Z.of_nat (SmartIov.bytes_of iovs) ≤ 4096 * (pages_of iovs - 1).
Proof.
  intros H0 H1. unfold pages_of.
  destruct (div_round_up_spec (Z.of_nat (SmartIov.bytes_of iovs)) 4096); lia.
Qed.

(** What one write leaves behind. *)
Record logged (h : heap) (w : Z * SmartIov.smartiov) (st : wcache) (a : allocation)
    (st' : wcache) (r : wcache_write_req) : Prop := mk_logged {
  lg_ok : log_ok st';
  lg_super : wc_super st' = wc_super st;
  lg_described : described (wr_hdrs r) = alloc_ranges a (pages_of w.2);
  lg_chain hs : chained (wc_previous_hdr st') (wc_sequence st') hs →
    chained (wc_previous_hdr st) (wc_sequence st) (wr_hdrs r ++ hs);
  lg_images : Forall2 header_image (req_writes r) (wr_hdrs r);
  lg_record : ∃ j data, last (wr_hdrs r) = Some ((wr_data r).1, j) ∧
    SmartIov.contents h w.2 = Some data ∧ record_of w.1 data (wr_data r) j ∧ wr_seq r = jh_seq j;
}.

Lemma bump_range sq : 0 ≤ wrap_u 64 sq < 2 ^ 64.
Proof. apply wrap_u_range. lia. Qed.

Lemma log_write_fits st h w :
  log_ok st → write_ok h w → pages_of w.2 ≤ jw_limit (wc_super st) - wc_next_alloc st →
  ∃ a st1 st' r, allocate st (pages_of w.2) = Some (st1, a) ∧
    wc_next_alloc st' = wc_next_alloc st1 ∧
    log_write st h w.1 w.2 = Some (st', r) ∧ logged h w st a st' r.
Proof.
  destruct w as [lba iovs]. intros (Hok & Hprev & Hseq) (Hlba & H0 & H31 & [data Hd]) Hfit.
  cbn [fst snd] in *. pose proof (SmartIov.contents_length _ _ _ Hd) as Hlen.
  destruct (pages_of_spec iovs H0 H31) as [Hp1 Hp2]. pose proof Hok as [Hb Hn].
  unfold log_write. fold (pages_of iovs).
  rewrite allocate_fits by (done || lia). cbn [mbind option_bind].
  unfold make_write_req. cbn [al_pad al_start al_n_pad al_prev]. change (0 =? 0) with true.
  cbn iota beta. unfold mk_header. rewrite (Z.add_comm 1). fold (pages_of iovs).
  rewrite Hd. cbn [mbind option_bind]. do 4 eexists.
  split; [done|]. split; [|split; [reflexivity|]]; [done|].
  destruct (data_image (wc_next_alloc st) (pages_of iovs) (wc_previous_hdr st) (wc_sequence st) lba data)
    as [Himg Hrec]; [lia|lia|lia|done|lia|]. rewrite <- Hlen.
  constructor.
  - split; [|split; [simpl; lia|apply bump_range]]. unfold ring_ok, ring_next. simpl. case_if; lia.
  - done.
  - unfold alloc_ranges, pad_ranges. simpl. by rewrite wrap_s_id by lia.
  - intros hs Hc. simpl. rewrite wrap_s_id by lia. by split_and!; auto.
  - simpl. constructor; [exact Himg|constructor].
  - eexists _, data. split; [done|]. split; [done|]. split; [exact Hrec|done].
Qed.

Lemma log_write_pads st h w :
  log_ok st → write_ok h w → jw_limit (wc_super st) - wc_next_alloc st < pages_of w.2 ≤ ring_size st →
  ∃ a st1 st' r, allocate st (pages_of w.2) = Some (st1, a) ∧
    wc_next_alloc st' = wc_next_alloc st1 ∧
    log_write st h w.1 w.2 = Some (st', r) ∧ logged h w st a st' r.
Proof.
  destruct w as [lba iovs]. intros (Hok & Hprev & Hseq) (Hlba & H0 & H31 & [data Hd]) Hfit.
  cbn [fst snd] in *. pose proof (SmartIov.contents_length _ _ _ Hd) as Hlen. unfold ring_size in Hfit.
  destruct (pages_of_spec iovs H0 H31) as [Hp1 Hp2]. pose proof Hok as [Hb Hn].
  set (room := jw_limit (wc_super st) - wc_next_alloc st) in *.
  unfold log_write. fold (pages_of iovs).
  rewrite allocate_pads by (done || lia). cbn [mbind option_bind]. fold room.
  unfold make_write_req. cbn [al_pad al_start al_n_pad al_prev].
  rewrite (proj2 (Z.eqb_neq (wc_next_alloc st) 0)) by lia.
  unfold mk_header. cbn iota beta. cbn iota beta. rewrite (Z.add_comm 1). fold (pages_of iovs).
  rewrite Hd. cbn [mbind option_bind]. do 4 eexists.
  split; [done|]. split; [|split; [reflexivity|]]; [done|].
  destruct (data_image (jw_base (wc_super st)) (pages_of iovs) (wc_next_alloc st)
              (wrap_u 64 (wc_sequence st + 1)) lba data)
    as [Himg Hrec]; [lia|apply bump_range|lia|done|lia|]. rewrite <- Hlen.
  pose proof (pad_image (wc_next_alloc st) room (wc_previous_hdr st) (wc_sequence st)
                ltac:(lia) Hseq) as Hpad.
  replace (room - 1 + 1) with room by lia.
  constructor.
  - split; [|split; [simpl; lia|apply bump_range]]. unfold ring_ok, ring_next. simpl. case_if; lia.
  - done.
  - unfold alloc_ranges, pad_ranges. simpl. rewrite (proj2 (Z.eqb_neq _ 0)) by lia.
    by rewrite !wrap_s_id by lia.
  - intros hs Hc. simpl. rewrite !wrap_s_id by lia. by split_and!; auto.
  - simpl. constructor; [exact Hpad|]. constructor; [exact Himg|constructor].
  - eexists _, data. split; [done|]. split; [done|]. split; [exact Hrec|done].
Qed.

Lemma log_write_logged st h w :
  log_ok st → write_ok h w → pages_of w.2 ≤ ring_size st →
  ∃ a st1 st' r, allocate st (pages_of w.2) = Some (st1, a) ∧
    wc_next_alloc st' = wc_next_alloc st1 ∧
    log_write st h w.1 w.2 = Some (st', r) ∧ logged h w st a st' r.
Proof.
  intros. destruct (decide (pages_of w.2 ≤ jw_limit (wc_super st) - wc_next_alloc st)).
  - by apply log_write_fits.
  - apply log_write_pads; auto. lia.
Qed.

(** ** A run of writes *)

(** The ranges handed out depend on the ring and the pointer only. *)
Lemma allocate_all_ext ns st1 st2 :
  wc_super st1 = wc_super st2 → wc_next_alloc st1 = wc_next_alloc st2 →
  snd <$> allocate_all st1 ns = snd <$> allocate_all st2 ns.
Proof.
  revert st1 st2. induction ns as [|n ns IH]; intros st1 st2 Hs Hn; [done|]. simpl. unfold allocate.
  rewrite Hs, Hn. destruct (assert _); [|done]. destruct (assert _); [|done]. simpl.
  destruct (_ <? n); simpl;
    match goal with |- context [allocate_all (with_alloc st1 ?p ?n) ns] =>
      specialize (IH (with_alloc st1 p n) (with_alloc st2 p n) Hs eq_refl) end;
    destruct (allocate_all (with_alloc st1 _ _) ns) as [[]|],
      (allocate_all (with_alloc st2 _ _) ns) as [[]|]; simplify_eq/=; done.
Qed.

Lemma headers_cons r rs : headers (r :: rs) = wr_hdrs r ++ headers rs.
Proof. done. Qed.
Lemma writes_cons r rs : writes (r :: rs) = req_writes r ++ writes rs.
Proof. done. Qed.

(** The request of a client write. *)
Definition request_of (h : heap) (w : Z * SmartIov.smartiov) (r : wcache_write_req) : Prop :=
  ∃ j data, last (wr_hdrs r) = Some ((wr_data r).1, j) ∧
    SmartIov.contents h w.2 = Some data ∧ record_of w.1 data (wr_data r) j ∧ wr_seq r = jh_seq j.

Definition writes_ok (st : wcache) (h : heap) (ws : list (Z * SmartIov.smartiov)) : Prop :=
  Forall (write_ok h) ws ∧ Forall (λ w, pages_of w.2 ≤ ring_size st) ws.

Lemma writes_sizes st h ws : writes_ok st h ws → sizes_ok st ((λ w, pages_of w.2) <$> ws).
Proof.
  intros [Hw Hs]. unfold sizes_ok. rewrite Forall_fmap. rewrite Forall_forall in *.
  intros w Hin. simpl. destruct (Hw w Hin) as (_ & H0 & H31 & _).
  destruct (pages_of_spec w.2 H0 H31). specialize (Hs w Hin). simpl in Hs. lia.
Qed.

(** States that differ in the counters of the throttle only. *)
Definition same_log (st st' : wcache) : Prop :=
  wc_super st' = wc_super st ∧ wc_next_alloc st' = wc_next_alloc st ∧
  wc_previous_hdr st' = wc_previous_hdr st ∧ wc_sequence st' = wc_sequence st.

(** Requests that have been made one after the other, each from the memory of its
    time; the counters may change in between. *)
Inductive logged_run : wcache → wcache → list (heap * (Z * SmartIov.smartiov)) → list wcache_write_req → Prop :=
| run_nil st st' : same_log st st' → logged_run st st' [] []
| run_cons st h w st1 r st' ws rs :
    write_ok h w → pages_of w.2 ≤ ring_size st → log_write st h w.1 w.2 = Some (st1, r) →
    logged_run st1 st' ws rs → logged_run st st' ((h, w) :: ws) (r :: rs).

Lemma same_log_ok st st' : same_log st st' → log_ok st → log_ok st'.
Proof. intros (E1 & E2 & E3 & E4). unfold log_ok, ring_ok. by rewrite E1, E2, E3, E4. Qed.

Lemma log_write_same st st' h lba iovs st1' r :
  same_log st st' → log_write st' h lba iovs = Some (st1', r) →
  ∃ st1, log_write st h lba iovs = Some (st1, r) ∧ same_log st1 st1'.
Proof.
  destruct st, st'. unfold same_log. simpl. intros (-> & -> & -> & ->). unfold log_write, allocate. simpl.
  destruct (assert (0 <? _)); simpl; [|intros [=]]. destruct (assert _); simpl; [|intros [=]].
  destruct (_ <? _); unfold make_write_req; simpl; try destruct (_ =? 0); simpl;
    destruct (SmartIov.contents h iovs); simpl; intros [= <- <-]; by eexists.
Qed.

Lemma logged_run_snoc st st' ws rs st1 h w st2 r :
  logged_run st st' ws rs → same_log st' st1 →
  write_ok h w → pages_of w.2 ≤ ring_size st1 → log_write st1 h w.1 w.2 = Some (st2, r) →
  logged_run st st2 (ws ++ [(h, w)]) (rs ++ [r]).
Proof.
  induction 1 as [st st' Hsm|st h' w' st1' r' st' ws rs Hok Hp Hl Hr IH]; intros Hs Hw Hpg Hlw.
  - assert (same_log st st1) as Hs1.
    { destruct Hs as (E1 & E2 & E3 & E4), Hsm as (F1 & F2 & F3 & F4). by split_and!; congruence. }
    destruct (log_write_same st st1 h w.1 w.2 st2 r Hs1 Hlw) as (st3 & Hl3 & Hs3).
    apply run_cons with (st1 := st3); [done| |done|by apply run_nil].
    unfold ring_size in *. by rewrite <- (proj1 Hs1).
  - cbn [app]. eapply run_cons; eauto.
Qed.

Lemma logged_run_ok st st' ws rs :
  logged_run st st' ws rs → log_ok st →
  log_ok st' ∧ wc_super st' = wc_super st ∧ sizes_ok st ((λ w, pages_of w.2.2) <$> ws) ∧
  (∃ sta, allocate_all st ((λ w, pages_of w.2.2) <$> ws) = Some (sta, described (headers rs))) ∧
  chained (wc_previous_hdr st) (wc_sequence st) (headers rs) ∧
  Forall2 header_image (writes rs) (headers rs) ∧ Forall2 (λ w r, request_of w.1 w.2 r) ws rs.
Proof.
  induction 1 as [st st' Hsm|st h w st1 r st' ws rs Hw Hsz Hr Hrun IH]; intros Hok.
  { split; [by apply (same_log_ok st)|]. split; [apply Hsm|]. split; [constructor|]. split_and!; try done. by exists st. }
  destruct (log_write_logged st h w Hok Hw Hsz) as (a & sta & st2 & r2 & Ha & Hn & Hr2 & Hl).
  rewrite Hr in Hr2. injection Hr2 as <- <-. destruct Hl as [Hok2 Hs2 Hdesc Hch Himg Hrec].
  destruct (IH Hok2) as (Hok3 & Hs3 & Hsizes & [stb Hstb] & Hc & Hi & Hreq).
  destruct w as [lba iovs]. cbn [fst snd] in *.
  assert (0 < pages_of iovs) as Hpos.
  { destruct Hw as (_ & H0 & H31 & _). destruct (pages_of_spec iovs H0 H31). lia. }
  rewrite headers_cons, writes_cons, described_app. split; [done|]. split; [congruence|]. split.
  { constructor; [done|]. by apply (sizes_ok_super st1); [done|]. }
  split; [|split_and!; auto using Forall2_app].
  cbn [fmap list_fmap allocate_all snd]. rewrite Ha. cbn [mbind option_bind].
  assert (wc_super sta = wc_super st) as Hs1.
  { destruct (allocate_cases st (pages_of iovs)) as (st1' & a' & Ha' & _ & ? & _); [apply Hok|lia|congruence]. }
  pose proof (allocate_all_ext ((λ w, pages_of w.2.2) <$> ws) st1 sta ltac:(congruence) Hn) as He.
  rewrite Hstb in He. destruct (allocate_all sta _) as [[st1' rs1]|]; simplify_eq/=.
  eexists. by rewrite Hdesc.
Qed.

Lemma log_writes_run ws st h :
  log_ok st → writes_ok st h ws →
  ∃ st' rs, log_writes st h ws = Some (st', rs) ∧ logged_run st st' (pair h <$> ws) rs.
Proof.
  revert st. induction ws as [|w ws IH]; intros st Hok [Hws Hsz]; [by exists st, []; split; [|apply run_nil]|].
  apply Forall_cons in Hws as [Hw Hws]. apply Forall_cons in Hsz as [Hsz1 Hsz].
  destruct (log_write_logged st h w Hok Hw Hsz1) as (a & st1 & st2 & r & Ha & Hn & Hr & Hl).
  destruct (IH st2 (lg_ok _ _ _ _ _ _ Hl)) as (st3 & rs & Hrs & Hrun).
  { unfold writes_ok, ring_size. by rewrite (lg_super _ _ _ _ _ _ Hl). }
  exists st3, (r :: rs). split; [|by eapply run_cons]. destruct w as [lba iovs]. cbn [fst snd log_writes] in *.
  rewrite Hr. cbn [mbind option_bind]. by rewrite Hrs.
Qed.

Lemma log_writes_logged ws st h :
  log_ok st → writes_ok st h ws →
  ∃ st' rs, log_writes st h ws = Some (st', rs) ∧ log_ok st' ∧
    (∃ sta, allocate_all st ((λ w, pages_of w.2) <$> ws) = Some (sta, described (headers rs))) ∧
    chained (wc_previous_hdr st) (wc_sequence st) (headers rs) ∧
    Forall2 header_image (writes rs) (headers rs) ∧ Forall2 (request_of h) ws rs.
Proof.
  intros Hok Hws. destruct (log_writes_run ws st h Hok Hws) as (st' & rs & Hr & Hrun).
  destruct (logged_run_ok _ _ _ _ Hrun Hok) as (Hok' & _ & _ & Ha & Hc & Hi & Hreq).
  exists st', rs. rewrite <- list_fmap_compose in Ha. apply Forall2_fmap_l in Hreq. by split_and!.
Qed.

(** C24: writes that fit in the ring are always accepted, and their headers form
    the chain that recovery would follow: every header carries the magic number,
    the page of the header before it and the next sequence number, across wraps
    and pads, and the pages that the headers describe are exactly the ones that
    the allocator handed out. *)
Theorem log_chained st h ws :
  log_ok st → writes_ok st h ws →
  ∃ st' rs, log_writes st h ws = Some (st', rs) ∧ log_ok st' ∧
    chained (wc_previous_hdr st) (wc_sequence st) (headers rs) ∧
    (snd <$> allocate_all st ((λ w, pages_of w.2) <$> ws)) = Some (described (headers rs)) ∧
    Forall2 (request_of h) ws rs.
Proof.
  intros Hok Hws. destruct (log_writes_logged ws st h Hok Hws)
    as (st' & rs & Hr & Hok' & [sta Ha] & Hc & _ & Hreq).
  exists st', rs. rewrite Ha. split_and!; auto.
Qed.

(** ** The file *)

(** The file after some writes. *)
Definition apply_writes (dev : bytes) (ws : list nvme_write) : bytes :=
  foldl (λ dev w, dev_write dev (4096 * Z.to_nat w.1) w.2) dev ws.

(** The pages of a file write, and of the header at its start. *)
Definition wr_start (w : nvme_write) : nat := 4096 * Z.to_nat w.1.
Definition wr_stop (w : nvme_write) : nat := wr_start w + length w.2.
Definition apart_writes (w w' : nvme_write) : Prop := (wr_stop w ≤ wr_start w' ∨ wr_stop w' ≤ wr_start w)%nat.

Lemma dev_write_bound (dev : bytes) off (bs : bytes) :
  (off + length bs ≤ length (resize (Nat.max (off + length bs) (length dev)) dev))%nat.
Proof. rewrite length_resize. lia. Qed.

Lemma length_dev_write dev off bs :
  length (dev_write dev off bs) = Nat.max (off + length bs) (length dev).
Proof. unfold dev_write. rewrite length_splice by apply dev_write_bound. by rewrite length_resize. Qed.

Lemma dev_write_same dev off (bs : bytes) : slice off (length bs) (dev_write dev off bs) = bs.
Proof. unfold dev_write. apply splice_slice; [apply dev_write_bound|done]. Qed.

Lemma dev_write_other dev off (bs : bytes) o n :
  (o + n ≤ length dev)%nat → (o + n ≤ off ∨ off + length bs ≤ o)%nat →
  slice o n (dev_write dev off bs) = slice o n dev.
Proof.
  intros Hl Hd. unfold dev_write.
  rewrite <- (resize_slice (Nat.max (off + length bs) (length dev)) dev o n) by lia.
  destruct Hd; [apply splice_slice_before|apply splice_slice_after]; try apply dev_write_bound; lia.
Qed.

(** A write that nothing later touches stays. *)
Lemma apply_writes_keeps ws : ∀ dev (w : nvme_write),
  (wr_stop w ≤ length dev)%nat → slice (wr_start w) (length w.2) dev = w.2 →
  Forall (apart_writes w) ws →
  slice (wr_start w) (length w.2) (apply_writes dev ws) = w.2 ∧
  (wr_stop w ≤ length (apply_writes dev ws))%nat.
Proof.
  induction ws as [|w' ws IH]; intros dev w Hl Hs Ha; [done|].
  apply Forall_cons in Ha as [Ha1 Ha]. unfold apart_writes, wr_stop, wr_start in *.
  apply (IH (dev_write dev (4096 * Z.to_nat w'.1) w'.2)); auto; unfold wr_stop, wr_start;
    [rewrite length_dev_write; lia|].
  rewrite dev_write_other; [done|lia|lia].
Qed.

(** Writes pairwise apart can all be read back. *)
Lemma apply_writes_read ws : ∀ dev,
  (∀ i j w w', (i ≠ j)%nat → ws !! i = Some w → ws !! j = Some w' → apart_writes w w') →
  Forall (λ w, slice (wr_start w) (length w.2) (apply_writes dev ws) = w.2 ∧
               (wr_stop w ≤ length (apply_writes dev ws))%nat) ws.
Proof.
  induction ws as [|w ws IH]; intros dev Ha; [constructor|]. constructor.
  - apply (apply_writes_keeps ws (dev_write dev (4096 * Z.to_nat w.1) w.2)).
    + unfold wr_stop, wr_start. rewrite length_dev_write. lia.
    + apply dev_write_same.
    + apply Forall_lookup. intros i w' Hi. by apply (Ha 0%nat (S i) w w').
  - apply (IH (dev_write dev (4096 * Z.to_nat w.1) w.2)).
    intros i j w1 w2 Hij H1 H2. apply (Ha (S i) (S j)); auto.
Qed.

(** The file writes of a run that fits in the ring are apart. *)
Lemma image_range w hd :
  header_image w hd → 0 ≤ hd.1 → 
  Z.of_nat (wr_start w) = 4096 * hd.1 ∧ Z.of_nat (wr_stop w) ≤ 4096 * (hd.1 + jh_len hd.2).
Proof. intros (Hp & _ & _ & Hl) H0. unfold wr_stop, wr_start. rewrite Hp. lia. Qed.

Lemma described_lookup hs i page j :
  hs !! i = Some (page, j) → described hs !! i = Some (page, jh_len j).
Proof. intros Hi. unfold described. by rewrite list_lookup_fmap, Hi. Qed.

Lemma images_apart ws hs :
  Forall2 header_image ws hs →
  (∀ i j r r', (i < j)%nat → described hs !! i = Some r → described hs !! j = Some r' → ranges_disjoint r r') →
  (∀ i r, described hs !! i = Some r → 0 ≤ r.1) →
  ∀ i j w w', (i ≠ j)%nat → ws !! i = Some w → ws !! j = Some w' → apart_writes w w'.
Proof.
  intros Himg Hdis Hpos i j w w' Hij Hi Hj.
  destruct (Forall2_lookup_l _ _ _ _ _ Himg Hi) as ([p h] & Hhi & Hiw).
  destruct (Forall2_lookup_l _ _ _ _ _ Himg Hj) as ([p' h'] & Hhj & Hjw).
  apply described_lookup in Hhi, Hhj. pose proof (Hpos _ _ Hhi). pose proof (Hpos _ _ Hhj).
  apply image_range in Hiw, Hjw; [|done..]. simpl in *.
  unfold apart_writes. destruct (decide (i < j)%nat).
  - destruct (Hdis i j _ _ ltac:(lia) Hhi Hhj); simpl in *; lia.
  - destruct (Hdis j i _ _ ltac:(lia) Hhj Hhi); simpl in *; lia.
Qed.

Lemma image_load file w hd :
  header_image w hd → slice (wr_start w) (length w.2) file = w.2 → (wr_stop w ≤ length file)%nat →
  load_at (wr_start w) file = Some hd.2.
Proof.
  intros (_ & Hh & Hf & Hl) Hs Hb. unfold wr_stop in Hb. generalize dependent (wr_start w).
  intros o Hs Hb.
  assert (csize j_hdr = 40%nat) as Hc by done. assert (40 ≤ length w.2)%nat by lia.
  apply load_slice; [rewrite Hc; lia| |done]. rewrite Hc.
  rewrite <- (Nat.add_0_r o), <- (slice_slice o (length w.2)), Hs by lia. exact Hh.
Qed.

(** C20: the log can be read back.  For writes that together take at most one
    ring, pads included, and for every order in which their file writes reach
    the file, each header is found at its page and each request's bytes are at
    the pages its header describes. *)
Theorem log_readable st h ws st' rs order dev :
  log_ok st → writes_ok st h ws → log_writes st h ws = Some (st', rs) →
  span (described (headers rs)) ≤ ring_size st → order ≡ₚ writes rs →
  let file := apply_writes dev order in
  Forall2 (λ hd w, load_at (4096 * Z.to_nat hd.1) file = Some hd.2 ∧
                   slice (4096 * Z.to_nat hd.1) (length w.2) file = w.2) (headers rs) (writes rs).
Proof.
  intros Hok Hws Hr Hspan Hperm file.
  destruct (log_writes_logged ws st h Hok Hws) as (? & ? & Hr' & _ & [sta Ha] & _ & Himg & _).
  rewrite Hr in Hr'. injection Hr' as <- <-.
  destruct (ring_ranges _ _ _ _ (proj1 Hok) (writes_sizes _ _ _ Hws) Ha Hspan) as [Hdis Hrange].
  assert (∀ i r, described (headers rs) !! i = Some r → 0 ≤ r.1) as Hpos.
  { intros i r Hi. destruct (Hrange i r Hi) as [? _]. destruct Hok as [[? _] _]. lia. }
  pose proof (images_apart _ _ Himg Hdis Hpos) as Hap.
  assert (Forall (λ w, slice (wr_start w) (length w.2) file = w.2 ∧ (wr_stop w ≤ length file)%nat) (writes rs)) as Hread.
  { rewrite <- Hperm. apply apply_writes_read.
    apply Permutation_inj in Hperm as (_ & f & Hf & Hlk). intros i j w w' Hij Hi Hj.
    rewrite Hlk in Hi, Hj. apply (Hap (f i) (f j)); auto. }
  clearbody file. clear -Himg Hread. induction Himg as [|w hd ws hs Hi _ IH]; [constructor|].
  pose proof Hi as (Hp & _).
  apply Forall_cons in Hread as [[Hs Hb] Hread]. constructor; [|by apply IH].
  rewrite <- Hp. split; [|exact Hs]. by apply (image_load file w hd).
Qed.

(** Two writes of eight bytes at the end of a ring: the second one wraps. *)
Definition demo_writes : list (Z * SmartIov.smartiov) :=
  [(16, SmartIov.demo_iov); (24, SmartIov.demo_iov)].
Definition demo_logged : option (wcache * list wcache_write_req) :=
  log_writes (demo_ring 5 20 22 0) SmartIov.demo_heap demo_writes.
Definition demo_reqs : list wcache_write_req := from_option snd [] demo_logged.
Definition demo_after : wcache := from_option fst (demo_ring 5 20 22 0) demo_logged.

Lemma demo_log_ok : log_ok (demo_ring 5 20 22 0).
Proof. repeat split; vm_compute; done. Qed.
Lemma demo_writes_ok : writes_ok (demo_ring 5 20 22 0) SmartIov.demo_heap demo_writes.
Proof.
  split; repeat first [apply Forall_nil_2 | apply Forall_cons_2]; try (vm_compute; discriminate);
    unfold write_ok; split_and!; try (vm_compute; done); try (simpl; lia);
    vm_compute; eauto.
Qed.

Lemma log_chained_witness :
  ∃ st' rs, log_writes (demo_ring 5 20 22 0) SmartIov.demo_heap demo_writes = Some (st', rs) ∧
    chained 0 1 (headers rs) ∧ described (headers rs) = [(22, 2); (24, 1); (5, 2)].
Proof.
  destruct (log_chained _ _ _ demo_log_ok demo_writes_ok) as (st' & rs & Hr & _ & Hc & Hd & _).
  exists st', rs. split; [exact Hr|]. split; [exact Hc|].
  apply (inj Some). rewrite <- Hd. reflexivity.
Defined.

Lemma log_readable_witness :
  let file := apply_writes [] (rev (writes demo_reqs)) in
  Forall2 (λ hd w, load_at (4096 * Z.to_nat hd.1) file = Some hd.2 ∧
                   slice (4096 * Z.to_nat hd.1) (length w.2) file = w.2)
    (headers demo_reqs) (writes demo_reqs).
Proof.
  apply (log_readable (demo_ring 5 20 22 0) SmartIov.demo_heap demo_writes demo_after).
  - exact demo_log_ok.
  - exact demo_writes_ok.
  - vm_compute. reflexivity.
  - vm_compute. discriminate.
  - symmetry. apply Permutation_rev.
Defined.
