(* ===== verification/WriteOpen.v ===== *)
(** * Opening, checkpointing and losing the write log

    The file that [init_wcache] makes, the state after [open_wlog], the clean
    shutdown, and what is left of the log after a crash. *)

From S2P Require Import Prelude Bytes Memory SmartIov LsvdTypes Objects Journal Config.
From S2P Require Import WriteCache WriteRing WriteLog.

(** The superblock of an open cache. *)
Definition super_ok (s : j_write_super) : Prop := fits s ∧ jw_magic s = LSVD_MAGIC.

(** A file with a superblock in its second page. *)
Definition has_super (dev : bytes) (s : j_write_super) (tail : bytes) : Prop :=
  slice 4096 4096 dev = enc s ++ tail ∧ length tail = 4012%nat.

Lemma has_super_length dev s tail : has_super dev s tail → (4096 + 4096 ≤ length dev)%nat.
Proof.
  intros [Hs Ht]. apply (f_equal length) in Hs. rewrite length_app, enc_length in Hs.
  unfold slice in Hs. rewrite length_take, length_drop, Ht in Hs. simpl csize in Hs. lia.
Qed.

(** The state that the constructor makes of a superblock. *)
Definition opened_cache (s : j_write_super) (tail : bytes) (sq : Z) (cfg : lsvd_config) : wcache :=
  let n_pages := jw_limit s - jw_base s in
  mk_wcache (set_clean s 0) tail sq 0 (n_pages ÷ 2 + n_pages ÷ 4) 0 (wlog_write_window cfg) 0 (jw_base s).

(** The sequence number the log starts with. *)
Definition first_sequence (s : j_write_super) : Z := if jw_clean s =? 0 then 1 else jw_seq s.

Lemma open_cache_super dev s tail cfg :
  super_ok s → has_super dev s tail →
  open_cache dev cfg =
    Ret (dev_write dev 4096 (enc (set_clean s 0) ++ tail), opened_cache s tail (first_sequence s) cfg).
Proof.
  intros [Hf Hm] Hd. pose proof (has_super_length _ _ _ Hd) as Hlen. destruct Hd as [Hs Ht].
  unfold open_cache, dev_read. change (4096 * SUPER_BLOCKNO)%nat with 4096%nat. rewrite Hs.
  assert (length (enc s ++ tail) = 4096%nat) as Hl by (rewrite length_app, enc_length, Ht; done).
  rewrite Hl. cbn [throw_on mbind outcome_bind]. change (Z.of_nat 4096 <? 0) with false.
  change (Z.of_nat 4096 <? 4096) with false. cbn [throw_on mbind outcome_bind].
  rewrite (load_slice 0 _ s); [|rewrite Hl; simpl; lia|apply slice_hit; apply enc_length|done].
  cbn [checked mbind outcome_bind]. rewrite Hm, Z.eqb_refl. cbn [negb throw_on mbind outcome_bind].
  assert (drop 84 (enc s ++ tail) = tail) as ->.
  { rewrite drop_app_ge by (rewrite enc_length; simpl; lia). rewrite enc_length. simpl csize.
    by rewrite Nat.sub_diag, drop_0. }
  unfold first_sequence, opened_cache. by destruct (jw_clean s =? 0).
Qed.

Lemma has_super_written dev s tail :
  (4096 + 4096 ≤ length dev)%nat → length tail = 4012%nat → has_super (dev_write dev 4096 (enc s ++ tail)) s tail.
Proof.
  intros Hl Ht. split; [|done]. assert (length (enc s ++ tail) = 4096%nat) as Hn
    by (rewrite length_app, enc_length, Ht; done).
  rewrite <- Hn at 2. apply dev_write_same.
Qed.

(** Writes from the third page on leave the superblock alone. *)
Lemma has_super_apply ws dev s tail :
  has_super dev s tail → Forall (λ w : nvme_write, 2 ≤ w.1) ws →
  has_super (apply_writes dev ws) s tail.
Proof.
  revert dev. induction ws as [|w ws IH]; intros dev Hd Hw; [done|].
  apply Forall_cons in Hw as [Hw1 Hw]. apply (IH (dev_write dev (4096 * Z.to_nat w.1) w.2)); [|done].
  pose proof (has_super_length _ _ _ Hd). destruct Hd as [Hs Ht]. split; [|done].
  rewrite dev_write_other; [done|lia|lia].
Qed.

Lemma super_ok_clean s : super_ok s → super_ok (set_clean s 0).
Proof.
  intros [Hf Hm]. split; [|done]. simpl in *. unfold u32_ok in *. destruct_and!. split_and!; done || lia.
Qed.

(** Nothing written to the log survives a crash.  After the log was opened
    and any records were written to it, opening the file again without a clean
    shutdown succeeds with the state of an empty log, whatever the records say:
    they are not replayed, and the sequence numbers start at 1 again. *)
Theorem crash_forgets_log dev s tail cfg ws :
  super_ok s → has_super dev s tail → Forall (λ w : nvme_write, 2 ≤ w.1) ws →
  ∃ dev1, open_cache dev cfg = Ret (dev1, opened_cache s tail (first_sequence s) cfg) ∧
    ∃ dev2, open_cache (apply_writes dev1 ws) cfg = Ret (dev2, opened_cache s tail 1 cfg).
Proof.
  intros Hs Hd Hw. rewrite (open_cache_super _ _ _ _ Hs Hd). eexists. split; [done|].
  assert (has_super (dev_write dev 4096 (enc (set_clean s 0) ++ tail)) (set_clean s 0) tail) as H1.
  { apply has_super_written; [by eapply has_super_length|apply Hd]. }
  rewrite (open_cache_super _ (set_clean s 0) tail); [by eexists|by apply super_ok_clean|by apply has_super_apply].
Qed.

(** [write_checkpoint] writes this superblock. *)
Definition checkpoint_super (st : wcache) : j_write_super :=
  let s := wc_super st in
  mk_j_write_super (jw_magic s) (jw_type s) (jw_version s) 1 (wc_sequence st)
    (jw_meta_base s) (jw_meta_limit s) (jw_base s) (jw_limit s) 0 0 0 0 0 0 0 (jw_vol_uuid s).

Lemma checkpoint_super_ok st :
  super_ok (wc_super st) → 0 ≤ wc_sequence st < 2 ^ 64 → super_ok (checkpoint_super st).
Proof.
  intros [Hf Hm] Hsq. split; [|done]. simpl in *. unfold u32_ok, u64_ok, s32_ok in *. destruct_and!.
  split_and!; done || lia.
Qed.

(** A clean shutdown keeps the sequence numbers: after [write_checkpoint],
    opening the file gives a cache over the same ring that continues with the
    next sequence number and allocates from the base. *)
Theorem checkpoint_reopen dev st cfg :
  super_ok (wc_super st) → length (wc_tail st) = 4012%nat → 0 ≤ wc_sequence st < 2 ^ 64 →
  (4096 + 4096 ≤ length dev)%nat →
  ∃ dev' st', open_cache (write_checkpoint st dev) cfg = Ret (dev', st') ∧
    wc_sequence st' = wc_sequence st ∧ ring_size st' = ring_size st ∧
    jw_base (wc_super st') = jw_base (wc_super st) ∧ wc_next_alloc st' = jw_base (wc_super st) ∧
    jw_clean (wc_super st') = 0 ∧ jw_vol_uuid (wc_super st') = jw_vol_uuid (wc_super st).
Proof.
  intros Hs0 Ht Hsq Hl. pose proof (checkpoint_super_ok st Hs0 Hsq) as Hs.
  pose proof (has_super_written dev (checkpoint_super st) (wc_tail st) Hl Ht) as Hd.
  unfold write_checkpoint. rewrite (open_cache_super _ (checkpoint_super st) (wc_tail st)) by done.
  do 2 eexists. split; [done|]. by split_and!.
Qed.

(** ** The file that [init_wcache] makes *)

(** Pages of the file and of the metadata region. *)
Definition log_pages (cfg : lsvd_config) : Z := wlog_bytes cfg / 4096.
Definition log_meta (tp : Z) : Z := 2 * (div_round_up (tp - 2) 256 + div_round_up (tp - 2) 512).

Definition init_super (tp : Z) (uuid : bytes) : j_write_super :=
  mk_j_write_super LSVD_MAGIC LSVD_J_W_SUPER 1 1 1 1 (1 + log_meta tp) (1 + log_meta tp)
    (1 + log_meta tp + (tp - 2 - log_meta tp)) (1 + log_meta tp) 0 0 0 0 0 0 uuid.
Definition init_hdr (tp : Z) : j_hdr := mk_j_hdr LSVD_MAGIC LSVD_J_DATA 1 tp 0 0 0 0 0.

Lemma log_meta_bound tp : 2 ≤ tp < 2 ^ 19 → 0 ≤ log_meta tp ≤ 4 + (tp - 2).
Proof.
  intros Htp. unfold log_meta.
  destruct (div_round_up_spec (tp - 2) 256), (div_round_up_spec (tp - 2) 512); lia.
Qed.

Lemma init_super_ok tp uuid : 2 ≤ tp < 2 ^ 19 → uuid_ok uuid → super_ok (init_super tp uuid).
Proof.
  intros Htp Hu. pose proof (log_meta_bound tp Htp). split; [|done]. simpl.
  unfold u32_ok, u64_ok, s32_ok, LSVD_MAGIC, LSVD_J_W_SUPER. split_and!; done || lia.
Qed.

Lemma page_of_enc {R} `{Codec R} (r : R) :
  (csize R ≤ 4096)%nat → page_of (enc r) = enc r ++ zeros (4096 - csize R).
Proof. intros. unfold page_of. rewrite resize_ge; by rewrite enc_length. Qed.

(** The new file: two header pages, and zeros. *)
Definition init_file (tp : Z) (uuid : bytes) : bytes :=
  page_of (enc (init_hdr tp)) ++ page_of (enc (init_super tp uuid)) ++ zeros (4096 * Z.to_nat (tp - 2)).

Lemma dev_write_fresh bs : dev_write [] 0 bs = bs.
Proof.
  unfold dev_write, splice. rewrite drop_ge, app_nil_r; [done|].
  rewrite length_resize. cbn [length]. lia.
Qed.

Lemma init_wcache_file uuid n :
  2 * 4096 ≤ n < 2 ^ 31 → init_wcache uuid n = Some (0, init_file (n / 4096) uuid).
Proof.
  intros Hn. pose proof (Z.div_mod n 4096 ltac:(lia)). pose proof (Z.mod_pos_bound n 4096 ltac:(lia)).
  assert (2 ≤ n / 4096) by (apply Z.div_le_lower_bound; lia).
  unfold init_wcache. rewrite wrap_s_id by lia. set (tp := n / 4096) in *.
  rewrite assert_true by (apply andb_true_iff; split; [apply Z.leb_le|apply Z.ltb_lt]; lia).
  cbn [mbind option_bind]. rewrite (proj2 (Z.ltb_ge _ _)) by lia. do 2 f_equal.
  change (mk_j_hdr LSVD_MAGIC LSVD_J_DATA 1 tp 0 0 0 0 0) with (init_hdr tp).
  fold (log_meta tp). fold (init_super tp uuid).
  set (a := page_of (enc (init_hdr tp))). set (b := page_of (enc (init_super tp uuid))).
  assert (length (a ++ b) = (2 * 4096)%nat) as Hab.
  { unfold a, b, page_of. by rewrite length_app, !length_resize. }
  assert (dev_write [] 0 (a ++ b) = a ++ b) as ->.
  { apply dev_write_fresh. }
  rewrite resize_ge by lia. rewrite Hab, <- app_assoc. unfold init_file. fold a b. do 2 f_equal.
  unfold zeros. f_equal. lia.
Qed.

Lemma init_file_super tp uuid : has_super (init_file tp uuid) (init_super tp uuid) (zeros 4012).
Proof.
  split; [|apply length_zeros]. unfold init_file.
  assert (∀ b, length (page_of b) = 4096%nat) as Hp by (intros; apply length_resize).
  rewrite slice_skip by (rewrite Hp; lia). rewrite Hp, Nat.sub_diag.
  rewrite slice_hit by apply Hp. rewrite page_of_enc by (apply Nat.leb_le; done). done.
Qed.

Lemma init_file_header tp uuid :
  0 ≤ tp < 2 ^ 31 → load_at 0 (slice 0 4096 (init_file tp uuid)) = Some (init_hdr tp).
Proof.
  intros Htp. assert (slice 0 4096 (init_file tp uuid) = page_of (enc (init_hdr tp))) as ->.
  { unfold init_file. apply slice_hit, length_resize. }
  apply load_slice.
  - unfold page_of. rewrite length_resize. apply Nat.leb_le. done.
  - rewrite page_of_enc by (apply Nat.leb_le; done). apply slice_hit. apply enc_length.
  - simpl. unfold u32_ok, u64_ok, s32_ok, LSVD_MAGIC, LSVD_J_DATA. split_and!; lia.
Qed.

Lemma open_new_log cfg uuid :
  uuid_ok uuid → 2 * 4096 ≤ wlog_bytes cfg < 2 ^ 31 →
  open_wlog None uuid cfg =
    Some (Some (dev_write (init_file (log_pages cfg) uuid) 4096
                  (enc (set_clean (init_super (log_pages cfg) uuid) 0) ++ zeros 4012),
                opened_cache (init_super (log_pages cfg) uuid) (zeros 4012) 1 cfg)).
Proof.
  intros Hu Hn. unfold open_wlog. rewrite init_wcache_file by done. fold (log_pages cfg).
  assert (2 ≤ log_pages cfg < 2 ^ 19) as Htp.
  { unfold log_pages. split; [apply Z.div_le_lower_bound|apply Z.div_lt_upper_bound]; lia. }
  cbn [mbind option_bind]. change (0 <? 0) with false. cbn iota.
  unfold dev_read. rewrite init_file_header by lia.
  cbn [mbind option_bind]. change (jh_magic _ =? LSVD_MAGIC) with true. change (jh_type _ =? LSVD_J_DATA) with true.
  cbn [negb]. rewrite (open_cache_super _ _ _ _ (init_super_ok _ _ Htp Hu) (init_file_super _ _)). done.
Qed.

(** C38: a new write log of seven pages to 2 GiB opens, with a ring inside the
    file, after the superblock and the metadata region, the first sequence
    number 1 and a state in which writes are accepted; a smaller one opens too,
    but has no ring: the assertion of every allocation fails. *)
Theorem new_log_usable cfg uuid :
  uuid_ok uuid → 2 * 4096 ≤ wlog_bytes cfg < 2 ^ 31 →
  ∃ dev st, open_wlog None uuid cfg = Some (Some (dev, st)) ∧
    wc_sequence st = 1 ∧ 4096 * jw_limit (wc_super st) ≤ Z.of_nat (length dev) ∧
    (7 * 4096 ≤ wlog_bytes cfg → log_ok st ∧ jw_meta_limit (wc_super st) = jw_base (wc_super st) ∧
      ring_size st = log_pages cfg - 2 - log_meta (log_pages cfg) ∧ 2 ≤ jw_base (wc_super st)) ∧
    (wlog_bytes cfg < 7 * 4096 → ∀ n, allocate st n = None).
Proof.
  intros Hu Hn. rewrite open_new_log by done. do 2 eexists. split; [done|].
  assert (2 ≤ log_pages cfg < 2 ^ 19) as Htp.
  { unfold log_pages. split; [apply Z.div_le_lower_bound|apply Z.div_lt_upper_bound]; lia. }
  set (tp := log_pages cfg) in *. split; [done|]. split; [|split].
  - change (jw_limit _) with (1 + log_meta tp + (tp - 2 - log_meta tp)). rewrite length_dev_write. unfold init_file, page_of.
    rewrite !length_app, !length_resize, !length_zeros. lia.
  - intros H7. assert (7 <= tp) as H7'. { unfold tp, log_pages. apply Z.div_le_lower_bound; lia. }
    assert (1 ≤ log_meta tp < tp - 2).
    { unfold log_meta. destruct (div_round_up_spec (tp - 2) 256), (div_round_up_spec (tp - 2) 512); lia. }
    unfold log_ok, ring_ok, ring_size. simpl. split_and!; lia.
  - intros H7 n. assert (tp < 7) as H7'. { unfold tp, log_pages. apply Z.div_lt_upper_bound; lia. }
    clearbody tp.
    assert (tp = 2 ∨ tp = 3 ∨ tp = 4 ∨ tp = 5 ∨ tp = 6) as Hc by lia. unfold allocate.
    destruct (0 <? n); [|done].
    destruct Hc as [->|[->|[->|[->| ->]]]]; reflexivity.
Qed.

(** A write log of 2 GiB or more cannot be made: the length that
    [init_wcache] gives to [ftruncate] is a product of [int]s and overflows. *)
Theorem init_wcache_overflow cfg uuid :
  2 ^ 31 ≤ wlog_bytes cfg < 2 ^ 43 → open_wlog None uuid cfg = None.
Proof.
  intros Hn. unfold open_wlog, init_wcache.
  assert (2 ^ 19 ≤ wlog_bytes cfg / 4096 < 2 ^ 31).
  { split; [apply Z.div_le_lower_bound|apply Z.div_lt_upper_bound]; lia. }
  rewrite wrap_s_id by lia. set (tp := wlog_bytes cfg / 4096) in *.
  rewrite (proj2 (Z.ltb_ge (4096 * tp) (2 ^ 31))) by lia. by rewrite andb_false_r.
Qed.

(** A log of 24 pages. *)
Definition demo_log_cfg : lsvd_config :=
  mk_lsvd_config "/tmp" 0 12 "/tmp" (24 * 4096) 8 0 67 8388608 8 500 2000 1000 60 4 false.
Definition demo_uuid : bytes := replicate 16 7.

Lemma new_log_usable_witness :
  ∃ dev st, open_wlog None demo_uuid demo_log_cfg = Some (Some (dev, st)) ∧ log_ok st ∧ ring_size st = 18.
Proof.
  destruct (new_log_usable demo_log_cfg demo_uuid) as (dev & st & Ho & _ & _ & Hok & _); [done|done|].
  destruct Hok as (Hok & _ & Hr & _); [done|].
  exists dev, st. split; [exact Ho|]. split; [exact Hok|]. rewrite Hr. reflexivity.
Defined.

Lemma init_wcache_overflow_witness :
  let cfg := mk_lsvd_config "/tmp" 0 12 "/tmp" (2 ^ 31) 8 0 67 8388608 8 500 2000 1000 60 4 false in
  open_wlog None demo_uuid cfg = None.
Proof. apply (init_wcache_overflow _ demo_uuid). vm_compute. split; [discriminate|reflexivity]. Defined.

Lemma demo_super_ok : super_ok (init_super 24 demo_uuid).
Proof. apply init_super_ok; [lia|done]. Qed.

Lemma crash_forgets_log_witness :
  ∃ dev1 dev2, open_cache (init_file 24 demo_uuid) demo_log_cfg =
      Ret (dev1, opened_cache (init_super 24 demo_uuid) (zeros 4012) 1 demo_log_cfg) ∧
    open_cache (apply_writes dev1 (writes demo_reqs)) demo_log_cfg =
      Ret (dev2, opened_cache (init_super 24 demo_uuid) (zeros 4012) 1 demo_log_cfg).
Proof.
  destruct (crash_forgets_log (init_file 24 demo_uuid) _ (zeros 4012) demo_log_cfg (writes demo_reqs)
              demo_super_ok (init_file_super 24 demo_uuid)) as (dev1 & H1 & dev2 & H2).
  - repeat first [apply Forall_nil_2 | apply Forall_cons_2; [vm_compute; discriminate|]].
  - exists dev1, dev2. split; [exact H1|exact H2].
Defined.

Lemma checkpoint_reopen_witness :
  let st := opened_cache (init_super 24 demo_uuid) (zeros 4012) 17 demo_log_cfg in
  ∃ dev' st', open_cache (write_checkpoint st (init_file 24 demo_uuid)) demo_log_cfg = Ret (dev', st') ∧
    wc_sequence st' = 17.
Proof.
  intros st.
  destruct (checkpoint_reopen (init_file 24 demo_uuid) st demo_log_cfg) as (dev' & st' & Ho & Hs & _).
  - pose proof demo_super_ok as [Hf Hm]. split; [|done]. simpl in *. unfold u32_ok in *.
    destruct_and!. split_and!; done || lia.
  - apply length_zeros.
  - simpl. lia.
  - eapply has_super_length, init_file_super.
  - exists dev', st'. split; [exact Ho|exact Hs].
Defined.
