(* ===== verification/WriteFlush.v ===== *)
(** * Flushing the write log

    [write_cache_impl::flush] as a step relation with the threads that run
    beside it: the flusher takes [m2] and [m], and its [write_cv.wait(lk)]
    releases [m] only.  [reserve_room] and [release_room] need [m2]; the end of
    a record needs [m]. *)

From S2P Require Import Prelude Bytes Memory SmartIov Journal WriteCache WriteRing.

(** Where the flusher is: before its loop, in [wait] (holding [m2]), or back. *)
Inductive flush_pc := FlushStart | FlushWait | FlushDone.

#[export] Instance flush_pc_eq_dec : EqDecision flush_pc.
Proof. solve_decision. Defined.

(** The test of the loop. *)
Definition flush_test (st : wcache) : flush_pc := if flushed st then FlushDone else FlushWait.

(** [m2] is free. *)
Definition m2_free (pc : flush_pc) : Prop := pc ≠ FlushWait.

Inductive flush_step : wcache * flush_pc → wcache * flush_pc → Prop :=
| flush_enter st : flush_step (st, FlushStart) (st, flush_test st)
| flush_wake st : flush_step (st, FlushWait) (st, flush_test st)
| flush_reserve st pc sectors st' :
    m2_free pc → reserve_room st sectors = Some st' → flush_step (st, pc) (st', pc)
| flush_release st pc sectors :
    m2_free pc → flush_step (st, pc) ((release_room st sectors).1, pc)
| flush_log st pc h lba iovs st' r :
    log_write st h lba iovs = Some (st', r) → flush_step (st, pc) (st', pc)
| flush_log_done st pc : flush_step (st, pc) (log_done st, pc).

Lemma allocate_total st n st' a :
  allocate st n = Some (st', a) → wc_total_write_pages st' = wc_total_write_pages st.
Proof.
  unfold allocate. destruct (assert (0 <? n)); [|done]. destruct (assert _); [|done]. simpl.
  destruct (_ <? n); by intros [= <- _].
Qed.

Lemma make_write_req_total st h lba iovs n_pages page n_pad pad prev st' r :
  make_write_req st h lba iovs n_pages page n_pad pad prev = Some (st', r) →
  wc_total_write_pages st' = wc_total_write_pages st.
Proof.
  unfold make_write_req. destruct (pad =? 0), (SmartIov.contents h iovs); simpl; try done;
    by intros [= <- _].
Qed.

Lemma log_write_total st h lba iovs st' r :
  log_write st h lba iovs = Some (st', r) → wc_total_write_pages st' = wc_total_write_pages st.
Proof.
  unfold log_write. destruct (allocate _ _) as [[st1 a]|] eqn:Ea; [|done]. cbn [mbind option_bind].
  destruct (make_write_req _ _ _ _ _ _ _ _ _) as [[st2 r2]|] eqn:Em; [|done].
  cbn [mbind option_bind]. intros [= <- _]. simpl.
  apply make_write_req_total in Em. apply allocate_total in Ea. congruence.
Qed.

(** A flush that finds reserved pages waits for ever.  It waits with [m2]
    held, and [release_room] needs [m2]: in no state that any steps of any
    threads lead to has the flush returned or the number of reserved pages
    changed.  Closing an image flushes the log, so it hangs when a write of a
    page or more is outstanding. *)
Theorem flush_waits_forever st s :
  0 < wc_total_write_pages st → rtc flush_step (st, FlushWait) s →
  s.2 = FlushWait ∧ wc_total_write_pages s.1 = wc_total_write_pages st.
Proof.
  intros Ht Hr. remember (st, FlushWait) as s0 eqn:E.
  assert (s0.2 = FlushWait ∧ wc_total_write_pages s0.1 = wc_total_write_pages st) as H0 by by subst.
  clear E. induction Hr as [|s0 s1 s Hs _ IH]; [done|]. apply IH. destruct H0 as [Hpc Htot].
  assert (flushed s0.1 = false) as Hf.
  { unfold flushed. rewrite Htot. by rewrite (proj2 (Z.ltb_lt _ _)) by done. }
  unfold flush_test, m2_free in *. inversion Hs; subst; simpl in *; try done; try congruence.
  - unfold flush_test. by rewrite Hf.
  - split; [done|]. by erewrite log_write_total by done.
Qed.

Lemma flush_waits_forever_witness :
  let st := with_total (demo_ring 5 20 5 0) 1 in
  flush_step (st, FlushStart) (st, FlushWait) ∧
  ∀ s, rtc flush_step (st, FlushWait) s → s.2 = FlushWait.
Proof.
  intros st. split; [exact (flush_enter st)|]. intros s Hs.
  by apply (flush_waits_forever st s ltac:(vm_compute; reflexivity) Hs).
Defined.
