(* ===== verification/ReadPath.v ===== *)
(** * The read path (src/src/image.cc, lsvd_image::handle_reads)

    A read marches through its sectors with one iterator in the buffer map and
    one in the object map: unmapped sectors are zeroed, sectors in memory are
    copied, and the others are cut at the blocks of the read cache and handed to
    it as calls of [make_read_req].  The three locks of the function make it
    atomic. *)

From S2P Require Import Prelude Bytes Extent ExtMap ExtMapShape ExtMapFlat ExtMapUpdate ExtMapSpec.
From S2P Require Import Memory SmartIov LsvdTypes.
Import Extmap.

(** [CACHE_CHUNK_SIZE], [block_sectors] *)
Definition CACHE_CHUNK_SIZE : Z := 65536.
Definition block_sectors : Z := CACHE_CHUNK_SIZE / 512.

(** A call of [make_read_req]: the image prefix, the object, the offset of the
    cache block in it, the offset in the block, and where the data goes. *)
Record read_call := mk_read_call {
  rc_prefix : string;
  rc_obj : Z;
  rc_offset : Z;
  rc_adjust : Z;
  rc_dest : SmartIov.smartiov;
}.

Section read.
Context (bm : @extmap sector_ptr) (om : @extmap obj_offset).
Variable prefix : Z → option string.
Variable iovs : SmartIov.smartiov.

(** The extent at an iterator, clipped to the rest of the read; at the end of
    the map the range is empty and lies at the end of the read. *)
Definition window {P : Type} `{Layout P} (m : @extmap P) (it : iterator) (dflt : P)
    (start_sector end_sector : Z) : option (Z * Z * P) :=
  if iter_eqb it (end_ m) then Some (end_sector, end_sector, dflt)
  else e ← deref m it; Some (vals_in start_sector end_sector e).

(** "skip any objmap extents fully obscured by this extent" *)
Fixpoint skip_obscured (fuel : nat) (backend_it : iterator) (limit1 : Z) : option iterator :=
  if iter_eqb backend_it (end_ om) then Some backend_it else
  match fuel with
  | O => None
  | S fuel =>
    e ← deref om backend_it;
    if e_limit e <=? limit1 then
      it ← incr om backend_it; skip_obscured fuel it limit1
    else Some backend_it
  end.

(** The call for the object extent at [start_sector] and the sectors it
    covers. *)
Definition cache_call (base1 limit2 start_sector : Z) (_offset : nat) (objptr : obj_offset)
    : option (read_call * Z) :=
  let limit2 := Z.min limit2 base1 in
  let sectors := limit2 - start_sector in
  let key := ObjOffset.make (obj objptr) (round_down (offset objptr) block_sectors) in
  let offset_limit := Z.min (offset key + block_sectors) (wrap_s 32 (offset objptr + sectors)) in
  let sectors := offset_limit - offset objptr in
  slice ← SmartIov.iov_slice iovs _offset (_offset + Z.to_nat (sectors * 512));
  p ← prefix (obj key);
  Some (mk_read_call p (obj key) (offset key * 512) (Z.rem (offset objptr) block_sectors * 512) slice,
        sectors).

(** The loop. *)
Fixpoint read_loop (fuel : nat) (bufmap_it backend_it : iterator) (start_sector end_sector : Z)
    (_offset : nat) (h : heap) : option (heap * list read_call) :=
  if end_sector <=? start_sector then Some (h, []) else
  match fuel with
  | O => None
  | S fuel =>
    '(base1, limit1, bufptr) ← window bm bufmap_it (mk_sector_ptr 0 0) start_sector end_sector;
    '(base2, limit2, objptr) ← window om backend_it (mk_obj_offset 0 0) start_sector end_sector;
    let base3 := Z.min base1 base2 in
    if start_sector <? base3 then
      let n := Z.to_nat ((base3 - start_sector) * 512) in
      h ← SmartIov.zero h iovs _offset (_offset + n);
      read_loop fuel bufmap_it backend_it base3 end_sector (_offset + n) h
    else if base1 =? start_sector then
      let n := Z.to_nat ((limit1 - start_sector) * 512) in
      slice ← SmartIov.iov_slice iovs _offset (_offset + n);
      h ← SmartIov.copy_in h slice (buf bufptr, byte_off bufptr);
      backend_it ← skip_obscured (S (length (concat (lists om)))) backend_it limit1;
      bufmap_it ← incr bm bufmap_it;
      read_loop fuel bufmap_it backend_it limit1 end_sector (_offset + n) h
    else
      _ ← assert (base2 =? start_sector);
      _ ← assert (negb (iter_eqb backend_it (end_ om)));
      '(call, sectors) ← cache_call base1 limit2 start_sector _offset objptr;
      let limit2 := start_sector + sectors in
      e ← deref om backend_it;
      backend_it ← (if limit2 =? e_limit e then incr om backend_it else Some backend_it);
      '(h, calls) ← read_loop fuel bufmap_it backend_it limit2 end_sector
                      (_offset + Z.to_nat (sectors * 512)) h;
      Some (h, call :: calls)
  end.

(** [handle_reads]; the loop advances by a sector at least. *)
Definition handle_reads (h : heap) (off : Z) : option (heap * list read_call) :=
  let start_sector := off / 512 in
  let n := Z.of_nat (SmartIov.bytes_of iovs) / 512 in
  bufmap_it ← (if 0 <? size bm then lookup bm start_sector else Some (end_ bm));
  backend_it ← lookup om start_sector;
  read_loop (Z.to_nat n) bufmap_it backend_it start_sector (start_sector + n) 0 h.
End read.
