(* ===== verification/ReadSpec.v ===== *)
(** * The read path returns the contents of its sectors

    Cursors in the maps, and the pieces of memory that a read fills: some at
    once, some when the read cache serves a call.  The pieces are disjoint and
    cover the client's vector, so the order in which the calls are served does
    not matter. *)

From Stdlib Require Import Sorting.Permutation.
From S2P Require Import Prelude Bytes Extent ExtMap ExtMapShape ExtMapFlat ExtMapUpdate ExtMapSpec.
From S2P Require Import Memory SmartIov LsvdTypes ReadPath.
Import Extmap.

(** ** Cursors *)

Section cursor.
Context {P : Type} `{LayoutOk P}.
Variable load : nat.
Implicit Types (m : @extmap P) (it : iterator) (e : extent P) (F : list (extent P)).

(** [it] stands at the first extent that ends above sector [s]. *)
Definition cursor m it (s : Z) : Prop :=
  ∃ F1 F2, flat m = F1 ++ F2 ∧ at_pos m it (length F1) ∧ splits_at s F1 F2.

Lemma cursor_lookup m s : wf load m → ∃ it, lookup m s = Some it ∧ cursor m it s.
Proof.
  intros Hwf. destruct (lower_bound_at load m s Hwf) as (it & F1 & F2 & Hlb & HF & Hk & Hs).
  exists it. split; [done|]. by exists F1, F2.
Qed.

Lemma cursor_end m s : wf load m → flat m = [] → cursor m (end_ m) s.
Proof.
  intros _ HF. exists [], []. rewrite HF. split; [done|]. split; [|split; constructor].
  apply at_end; [done|]. by rewrite HF.
Qed.

Lemma at_head m it F1 F2 :
  flat m = F1 ++ F2 → at_pos m it (length F1) →
  deref m it = head F2 ∧ iter_eqb it (end_ m) = bool_decide (F2 = []).
Proof.
  intros HF Hk. split.
  - rewrite (deref_at _ _ _ Hk), HF. rewrite lookup_app_r by lia.
    rewrite Nat.sub_diag. by destruct F2.
  - rewrite (is_end _ _ _ Hk), HF, length_app. destruct F2; simpl.
    + rewrite Nat.add_0_r, Nat.eqb_refl. done.
    + by rewrite (proj2 (Nat.eqb_neq _ _)) by lia.
Qed.

Lemma cursor_deref m it s :
  cursor m it s →
  ∃ F1 F2, flat m = F1 ++ F2 ∧ at_pos m it (length F1) ∧ splits_at s F1 F2 ∧
    deref m it = head F2 ∧ iter_eqb it (end_ m) = bool_decide (F2 = []).
Proof.
  intros (F1 & F2 & HF & Hk & Hs). destruct (at_head m it F1 F2 HF Hk) as [? ?].
  exists F1, F2. by split_and!.
Qed.

(** The next extent, once its end has been reached. *)
Lemma cursor_incr m it s e :
  wf load m → cursor m it s → deref m it = Some e →
  ∃ it', incr m it = Some it' ∧ cursor m it' (e_limit e).
Proof.
  intros [Hsh Ho] Hc He.
  destruct (cursor_deref _ _ _ Hc) as (F1 & F2 & HF & Hk & [H1 H2] & Hd & _).
  rewrite He in Hd. destruct F2 as [|e' F2]; [done|]. simpl in Hd. injection Hd as <-.
  destruct (incr_at load m it (length F1) Hsh Hk) as (it' & Hi & Hk'); [rewrite HF; len|].
  exists it'. split; [done|]. exists (F1 ++ [e]), F2. rewrite HF, <- app_assoc. split; [done|].
  split; [rewrite length_app; simpl; by rewrite Nat.add_1_r|].
  rewrite HF in Ho. apply ordered_mid in Ho as (_ & [_ Hok] & He' & HFe & HeF).
  pose proof (ext_ok_pos e He'). split.
  - apply Forall_app. split; [|by constructor]. eapply Forall_impl; [exact HFe|]. simpl. lia.
  - rewrite Forall_forall in *. intros a Ha. pose proof (ext_ok_pos a (Hok a Ha)).
    specialize (HeF a Ha). simpl in HeF. lia.
Qed.

(** A later sector of the same extent. *)
Lemma cursor_later m it s s' :
  cursor m it s → s ≤ s' → (∀ e, deref m it = Some e → s' < e_limit e) →
  ordered (flat m) → cursor m it s'.
Proof.
  intros Hc Hss Hd Ho.
  destruct (cursor_deref _ _ _ Hc) as (F1 & F2 & HF & Hk & [H1 H2] & Hd' & _).
  exists F1, F2. split; [done|]. split; [done|]. split.
  - eapply Forall_impl; [exact H1|]. simpl. lia.
  - destruct F2 as [|e F2]; [constructor|]. rewrite HF in Ho.
    eapply ordered_suffix_gt; [exact Ho|]. by apply Hd.
Qed.

Lemma window_spec m it (s t : Z) dflt :
  wf load m → cursor m it s → s < t →
  ∃ b l p, window m it dflt s t = Some (b, l, p) ∧ s ≤ b ∧
    (∀ x, s ≤ x < b → x < t → map_denote m x = None) ∧
    (∀ e, deref m it = Some e → b < e_limit e) ∧
    (b < t → ∃ e, deref m it = Some e ∧ iter_eqb it (end_ m) = false ∧
       b < l ≤ t ∧ l = Z.min (e_limit e) t ∧ span_ok p (l - b) ∧
       ∀ x, b ≤ x < l → map_denote m x = Some (p_add p (x - b))).
Proof.
  intros [Hsh Ho] Hc Hst.
  destruct (cursor_deref _ _ _ Hc) as (F1 & F2 & HF & Hk & [H1 H2] & Hd & He).
  unfold window, map_denote. rewrite He, Hd, HF. destruct F2 as [|e F2]; simpl.
  { exists t, t, dflt. split_and!; try done; [lia| |lia].
    intros x Hx _. rewrite app_nil_r. apply denote_none.
    eapply Forall_impl; [exact H1|]. simpl. lia. }
  rewrite HF in Ho. apply ordered_mid in Ho as (_ & _ & Hok & HFe & HeF).
  apply Forall_cons in H2 as [He2 _]. pose proof (ext_ok_pos e Hok) as Hpos.
  assert (∀ x, s ≤ x → denote (F1 ++ e :: F2) x =
            match ext_denote e x with Some p => Some p | None => denote F2 x end) as Hden.
  { intros x Hx. rewrite denote_app, denote_none; [done|].
    eapply Forall_impl; [exact H1|]. simpl. lia. }
  assert (∀ x, s ≤ x < e_base e → denote (F1 ++ e :: F2) x = None) as Hnone.
  { intros x Hx. rewrite Hden by lia. rewrite ext_denote_out by lia. apply denote_none.
    eapply Forall_impl; [exact HeF|]. simpl. lia. }
  destruct Hok as (Hb0 & Hlen & Hlim & Hsp).
  destruct (e_base e <? s) eqn:Eb; zb; eexists _, _, _; (split; [unfold vals_in;
    first [rewrite (proj2 (Z.ltb_lt _ _)) by lia | rewrite (proj2 (Z.ltb_ge _ _)) by lia]; reflexivity|]).
  - split_and!; [lia|intros; lia|intros ? [= <-]; lia|]. intros _. exists e.
    split_and!; try done; try lia.
    + eapply span_sub; [exact Hsp|lia|lia|]. unfold e_limit in *. lia.
    + intros x Hx. rewrite Hden, ext_denote_in by lia.
      rewrite (p_add_add _ (e_len e)) by (auto; unfold e_limit in *; lia). do 2 f_equal. lia.
  - split_and!; [lia|intros; apply Hnone; lia|intros ? [= <-]; lia|]. intros Hbt. exists e.
    split_and!; try done; try lia.
    + pose proof (span_sub _ _ 0 (Z.min (e_limit e) t - e_base e) Hsp ltac:(lia)) as Hs.
      rewrite (p_add_0 _ (e_len e)) in Hs by done. apply Hs; unfold e_limit in *; lia.
    + intros x Hx. by rewrite Hden, ext_denote_in by lia.
Qed.
End cursor.

(** ** Pieces of memory *)

(** Cells and the bytes written to them. *)
Fixpoint write_all (h : heap) (ws : list (list addr * bytes)) : option heap :=
  match ws with
  | [] => Some h
  | (cs, bs) :: ws => h ← write_cells h cs bs; write_all h ws
  end.

Lemma write_all_app h w1 w2 : write_all h (w1 ++ w2) = h' ← write_all h w1; write_all h' w2.
Proof.
  revert h. induction w1 as [|[cs bs] w1 IH]; intros h; [done|]. simpl.
  destruct (write_cells h cs bs); [apply IH|done].
Qed.

Definition piece_cells (ws : list (list addr * bytes)) : list addr := mjoin (fst <$> ws).
Definition piece_bytes (ws : list (list addr * bytes)) : bytes := mjoin (snd <$> ws).

Lemma elem_piece_cells ws w c : w ∈ ws → c ∈ w.1 → c ∈ piece_cells ws.
Proof.
  intros Hw Hc. unfold piece_cells. apply list_elem_of_join. exists w.1. split; [done|].
  by apply list_elem_of_fmap_2.
Qed.

Lemma NoDup_piece ws w : NoDup (piece_cells ws) → w ∈ ws → NoDup w.1.
Proof.
  intros Hnd (l1 & l2 & ->)%list_elem_of_split. unfold piece_cells in Hnd.
  rewrite fmap_app, join_app in Hnd. apply NoDup_app in Hnd as (_ & _ & Hnd). simpl in Hnd.
  by apply NoDup_app in Hnd as [Hnd _].
Qed.

(** Disjoint pieces, written in any order. *)
Lemma write_all_ok h ws :
  NoDup (piece_cells ws) → allocated h (piece_cells ws) → Forall (λ w, length w.2 = length w.1) ws →
  ∃ h', write_all h ws = Some h' ∧ (∀ c, c ∉ piece_cells ws → h' !! c = h !! c) ∧
    (∀ c, is_Some (h' !! c) ↔ is_Some (h !! c)) ∧
    Forall (λ w, read_cells h' w.1 = Some w.2) ws.
Proof.
  revert h. induction ws as [|[cs bs] ws IH]; intros h Hnd Ha Hl.
  { exists h. split_and!; try done; constructor. }
  change (piece_cells ((cs, bs) :: ws)) with (cs ++ piece_cells ws) in *.
  apply NoDup_app in Hnd as (Hnd1 & Hdis & Hnd2). apply Forall_cons in Hl as [Hl1 Hl]. simpl in Hl1.
  destruct (write_cells_allocated h cs bs) as [h1 Hw]; [intros c Hc; apply Ha; set_solver|done|].
  simpl. rewrite Hw. cbn [mbind option_bind]. pose proof (λ c, write_cells_dom _ _ _ _ c Hw) as Hdom.
  destruct (IH h1 Hnd2) as (h' & Hws & Hoth & Hd & Hr).
  { intros c Hc. apply Hdom, Ha. set_solver. }
  { done. }
  exists h'. split; [done|]. split; [|split; [|constructor; [|done]]].
  - intros c Hc. rewrite Hoth by set_solver. eapply write_cells_other; [exact Hw|set_solver].
  - intros c. by rewrite Hd, Hdom.
  - simpl. rewrite <- (write_cells_read _ _ _ _ Hw Hnd1). apply read_cells_ext.
    intros c Hc. apply Hoth. auto.
Qed.

Lemma read_pieces h ws :
  Forall (λ w, read_cells h w.1 = Some w.2) ws → read_cells h (piece_cells ws) = Some (piece_bytes ws).
Proof.
  induction 1 as [|[cs bs] ws Hw _ IH]; [done|].
  change (piece_cells ((cs, bs) :: ws)) with (cs ++ piece_cells ws).
  rewrite read_cells_app. simpl in Hw. rewrite Hw. cbn [mbind option_bind]. by rewrite IH.
Qed.

Lemma piece_cells_perm w1 w2 : w1 ≡ₚ w2 → piece_cells w1 ≡ₚ piece_cells w2.
Proof. intros Hp. unfold piece_cells. by rewrite Hp. Qed.

(** The pieces written at once and those written later, in any order. *)
Lemma write_split h h' ws now later order :
  ws ≡ₚ now ++ later → order ≡ₚ later →
  NoDup (piece_cells ws) → allocated h (piece_cells ws) → Forall (λ w, length w.2 = length w.1) ws →
  write_all h now = Some h' →
  ∃ h'', write_all h' order = Some h'' ∧ read_cells h'' (piece_cells ws) = Some (piece_bytes ws) ∧
    (∀ c, c ∉ piece_cells ws → h'' !! c = h !! c).
Proof.
  intros Hws Hord Hnd Ha Hl Hnow.
  assert (ws ≡ₚ now ++ order) as Hperm by by rewrite Hws, Hord.
  pose proof (piece_cells_perm _ _ Hperm) as Hpc.
  destruct (write_all_ok h (now ++ order)) as (h'' & Hw & Hoth & _ & Hr).
  - by rewrite <- Hpc.
  - intros c Hc. apply Ha. by rewrite Hpc.
  - by rewrite <- Hperm.
  - rewrite write_all_app, Hnow in Hw. exists h''. split; [done|]. split.
    + apply read_pieces. by rewrite Hperm.
    + intros c Hc. apply Hoth. by rewrite <- Hpc.
Qed.

(** ** Runs of sectors *)

Lemma slice_split {A} (off n : nat) (l : list A) : drop off l = slice off n l ++ drop (off + n) l.
Proof. unfold slice. by rewrite <- drop_drop, take_drop. Qed.

Lemma slice_plus {A} (off n m : nat) (l : list A) :
  slice off (n + m) l = slice off n l ++ slice (off + n) m l.
Proof.
  unfold slice. rewrite <- drop_drop. generalize (drop off l). intros k.
  rewrite <- (take_drop n (take (n + m) k)), take_take, skipn_firstn_comm. do 2 f_equal; lia.
Qed.

Section runs.
(** The size of a sector. *)
Variable u : nat.

(** Reading [k] sectors in a row, one by one. *)
Lemma mem_read_run h b d : ∀ k o off,
  (∀ i, (i < k)%nat → mem_read h (b, o + Z.of_nat (u * i)) u = Some (slice (off + u * i) u d)) →
  mem_read h (b, o) (u * k) = Some (slice off (u * k) d).
Proof.
  induction k as [|k IH]; intros o off Hs.
  { by rewrite Nat.mul_0_r. }
  replace (u * S k)%nat with (u + u * k)%nat by lia.
  unfold mem_read. rewrite cells_app, read_cells_app, slice_plus.
  pose proof (Hs 0%nat ltac:(lia)) as H0. rewrite Nat.mul_0_r, Nat.add_0_r in H0.
  change (Z.of_nat 0) with 0 in H0. rewrite Z.add_0_r in H0. unfold mem_read in H0. rewrite H0.
  cbn [mbind option_bind fst snd].
  pose proof (IH (o + Z.of_nat u) (off + u)%nat) as H1. unfold mem_read in H1. rewrite H1; [done|].
  intros i Hi. pose proof (Hs (S i) ltac:(lia)) as Hi'. unfold mem_read in Hi'.
  replace (o + Z.of_nat u + Z.of_nat (u * i)) with (o + Z.of_nat (u * S i)) by lia.
  rewrite Hi'. do 2 f_equal. lia.
Qed.

Lemma slice_run {A} (b d : list A) : ∀ k a off,
  (∀ i, (i < k)%nat → slice (a + u * i) u b = slice (off + u * i) u d) →
  slice a (u * k) b = slice off (u * k) d.
Proof.
  induction k as [|k IH]; intros a off Hs; [by rewrite Nat.mul_0_r|].
  replace (u * S k)%nat with (u + u * k)%nat by lia. rewrite !slice_plus. f_equal.
  - pose proof (Hs 0%nat ltac:(lia)) as H0. by rewrite Nat.mul_0_r, !Nat.add_0_r in H0.
  - apply IH. intros i Hi. pose proof (Hs (S i) ltac:(lia)) as Hi'.
    replace (a + u + u * i)%nat with (a + u * S i)%nat by lia.
    by replace (off + u + u * i)%nat with (off + u * S i)%nat by lia.
Qed.

Lemma zeros_run d : ∀ k off,
  (∀ i, (i < k)%nat → slice (off + u * i) u d = zeros u) → slice off (u * k) d = zeros (u * k).
Proof.
  induction k as [|k IH]; intros off Hs; [by rewrite Nat.mul_0_r|].
  replace (u * S k)%nat with (u + u * k)%nat by lia.
  rewrite slice_plus, SmartIov.zeros_app. f_equal.
  - pose proof (Hs 0%nat ltac:(lia)) as H0. by rewrite Nat.mul_0_r, !Nat.add_0_r in H0.
  - apply IH. intros i Hi. pose proof (Hs (S i) ltac:(lia)) as Hi'.
    by replace (off + u + u * i)%nat with (off + u * S i)%nat by lia.
Qed.
End runs.

(** [zero] stops at the end of the vector. *)
Lemma zero_loop_clamp iovs : ∀ h off len,
  (off ≤ SmartIov.bytes_of iovs)%nat → (SmartIov.bytes_of iovs ≤ off + len)%nat →
  SmartIov.zero_loop h iovs off len = SmartIov.zero_loop h iovs off (SmartIov.bytes_of iovs - off).
Proof.
  induction iovs as [|v iovs IH]; intros h off len H0 H1; [done|]. simpl in *.
  destruct (len =? 0)%nat eqn:E; zb.
  { subst. rewrite (proj2 (Nat.eqb_eq _ _)) by lia. done. }
  destruct (SmartIov.iov_len v + SmartIov.bytes_of iovs - off =? 0)%nat eqn:E1; zb.
  - destruct (SmartIov.iov_len v <? off)%nat eqn:E2; zb.
    + rewrite IH by lia. replace (SmartIov.bytes_of iovs - (off - SmartIov.iov_len v))%nat with 0%nat by lia.
      destruct iovs; simpl; [done|]. done.
    + replace (Nat.min len (SmartIov.iov_len v - off)) with 0%nat by lia. simpl.
      rewrite IH by lia. replace (SmartIov.bytes_of iovs - 0)%nat with 0%nat by lia.
      destruct iovs; done.
  - destruct (SmartIov.iov_len v <? off)%nat eqn:E2; zb.
    + rewrite IH by lia. f_equal. lia.
    + set (n := Nat.min len _).
      replace (Nat.min (SmartIov.iov_len v + SmartIov.bytes_of iovs - off) (SmartIov.iov_len v - off)) with n by lia.
      destruct (mem_write h _ (zeros n)) as [h1|]; simpl; [|done].
      rewrite IH by lia. f_equal. lia.
Qed.

(** ** The loop *)

Lemma bind_some {A B} (x : A) (f : A → option B) : Some x ≫= f = f x.
Proof. done. Qed.

Lemma to_nat_512 k : 0 ≤ k → Z.to_nat (k * 512) = (512 * Z.to_nat k)%nat.
Proof. intros. rewrite Z2Nat.inj_mul by lia. apply Nat.mul_comm. Qed.

(** What [make_read_req] asserts of a call. *)
Definition call_ok (c : read_call) : Prop :=
  0 ≤ rc_offset c ∧ rc_offset c mod CACHE_CHUNK_SIZE = 0 ∧ 0 ≤ rc_adjust c ∧
  rc_adjust c + Z.of_nat (SmartIov.bytes_of (rc_dest c)) ≤ CACHE_CHUNK_SIZE.

Section read_spec.
Context (bm : @extmap sector_ptr) (om : @extmap obj_offset).
Variable prefix : Z → option string.
Variable iovs : SmartIov.smartiov.
Variable load : nat.
(** The contents of the objects. *)
Variable obj_data : string → option bytes.
(** The sectors read, the heap, and the bytes they should give. *)
Variables (s0 t : Z) (h0 : heap) (full : bytes).

Notation cells := (SmartIov.cells iovs).

Definition expect (x : Z) : option bytes :=
  match map_denote bm x with
  | Some p => mem_read h0 (buf p, byte_off p) 512
  | None =>
    match map_denote om x with
    | Some o =>
      n ← prefix (obj o);
      b ← obj_data (oname n (obj o));
      Some (slice (Z.to_nat (512 * offset o)) 512 b)
    | None => Some (zeros 512)
    end
  end.

(** What the cache puts in the destination of a call. *)
Definition call_bytes (c : read_call) : option bytes :=
  b ← obj_data (oname (rc_prefix c) (rc_obj c));
  Some (slice (Z.to_nat (rc_offset c + rc_adjust c)) (SmartIov.bytes_of (rc_dest c)) b).

Definition served (c : read_call) (w : list addr * bytes) : Prop :=
  SmartIov.cells (rc_dest c) = w.1 ∧ call_bytes c = Some w.2 ∧ call_ok c.

(** The outcome of the loop from byte [off] of the vector on. *)
Definition result (off : nat) (h : heap) (res : option (heap * list read_call)) : Prop :=
  ∃ h' calls ws now later, res = Some (h', calls) ∧ ws ≡ₚ now ++ later ∧
    piece_cells ws = drop off cells ∧ piece_bytes ws = drop off full ∧
    Forall (λ w, length w.2 = length w.1) ws ∧
    write_all h now = Some h' ∧ Forall2 served calls later.

Hypothesis Hlen : length full = SmartIov.bytes_of iovs.
Hypothesis Hn : Z.of_nat (SmartIov.bytes_of iovs) = 512 * (t - s0).

Lemma length_read_cells : length cells = length full.
Proof. by rewrite SmartIov.length_cells_of, Hlen. Qed.

Lemma result_done off h : (length full ≤ off)%nat → result off h (Some (h, [])).
Proof.
  intros Ho. exists h, [], [], [], []. rewrite !drop_ge by (rewrite ?length_read_cells; lia).
  split_and!; done || constructor.
Qed.

(** A piece written at once. *)
Lemma result_now off n h h1 res :
  write_cells h (slice off n cells) (slice off n full) = Some h1 →
  result (off + n) h1 res → result off h res.
Proof.
  intros Hw (h' & calls & ws & now & later & -> & Hp & Hc & Hb & Hl & Hnow & Hs).
  exists h', calls, ((slice off n cells, slice off n full) :: ws),
    ((slice off n cells, slice off n full) :: now), later.
  split; [done|]. split; [by rewrite Hp|]. split; [|split; [|split; [|split; [|done]]]].
  - rewrite (slice_split off n cells), <- Hc. done.
  - rewrite (slice_split off n full), <- Hb. done.
  - constructor; [|done]. simpl. by apply write_cells_length in Hw.
  - simpl. by rewrite Hw.
Qed.

(** A piece left to the cache. *)
Lemma result_call off n h c res :
  served c (slice off n cells, slice off n full) →
  result (off + n) h res →
  result off h ('(h, calls) ← res; Some (h, c :: calls)).
Proof.
  intros Hserved (h' & calls & ws & now & later & -> & Hp & Hc & Hb & Hl & Hnow & Hs).
  exists h', (c :: calls), ((slice off n cells, slice off n full) :: ws), now,
    ((slice off n cells, slice off n full) :: later).
  split; [done|]. split; [rewrite Hp; apply Permutation_middle|].
  split; [|split; [|split; [|split; [done|by constructor]]]].
  - rewrite (slice_split off n cells), <- Hc. done.
  - rewrite (slice_split off n full), <- Hb. done.
  - constructor; [|done]. simpl. unfold slice.
    by rewrite !length_take, !length_drop, length_read_cells.
Qed.

Hypothesis Hexp : ∀ x, s0 ≤ x < t → expect x = Some (slice (Z.to_nat (512 * (x - s0))) 512 full).
Hypothesis Hbuf : ∀ x p c, s0 ≤ x < t → map_denote bm x = Some p →
  c ∈ cells_at (buf p, byte_off p) 512 → c ∉ cells.

(** Byte [off] of the vector is where sector [s] goes. *)
Definition at_off (s : Z) (off : nat) : Prop := Z.of_nat off = 512 * (s - s0).

Lemma at_off_plus s off k :
  at_off s off → 0 ≤ k → at_off (s + k) (off + 512 * Z.to_nat k).
Proof. unfold at_off. intros. rewrite Nat2Z.inj_add, Nat2Z.inj_mul. change (Z.of_nat 512) with 512. lia. Qed.

Lemma sector_at s off i :
  at_off s off → Z.to_nat (512 * (s + Z.of_nat i - s0)) = (off + 512 * i)%nat.
Proof.
  unfold at_off. intros Ho. apply Nat2Z.inj. rewrite Nat2Z.inj_add, Nat2Z.inj_mul.
  change (Z.of_nat 512) with 512. lia.
Qed.

Lemma run_zero s k off :
  s0 ≤ s → s + k ≤ t → at_off s off →
  (∀ x, s ≤ x < s + k → map_denote bm x = None ∧ map_denote om x = None) →
  slice off (512 * Z.to_nat k) full = zeros (512 * Z.to_nat k).
Proof.
  intros Hs Ht Ho Hx. apply zeros_run. intros i Hi. rewrite <- (sector_at s off i) by done.
  destruct (Hx (s + Z.of_nat i) ltac:(lia)) as [H1 H2].
  pose proof (Hexp (s + Z.of_nat i) ltac:(lia)) as He. unfold expect in He. rewrite H1, H2 in He.
  by injection He as <-.
Qed.

Lemma run_buf s k off p :
  s0 ≤ s → s + k ≤ t → at_off s off → span_ok p k →
  (∀ x, s ≤ x < s + k → map_denote bm x = Some (p_add p (x - s))) →
  mem_read h0 (buf p, byte_off p) (512 * Z.to_nat k) = Some (slice off (512 * Z.to_nat k) full).
Proof.
  intros Hs Ht Ho Hsp Hx. apply mem_read_run. intros i Hi. rewrite <- (sector_at s off i) by done.
  pose proof (Hexp (s + Z.of_nat i) ltac:(lia)) as He. unfold expect in He. rewrite Hx in He by lia.
  rewrite <- He. replace (s + Z.of_nat i - s) with (Z.of_nat i) by lia.
  change (p_add p (Z.of_nat i)) with (SectorPtr.add p (Z.of_nat i)).
  change (buf_span_ok p k) in Hsp.
  rewrite sector_ptr_add_small by (unfold buf_span_ok in *; lia). cbn [buf byte_off].
  rewrite Nat2Z.inj_mul. change (Z.of_nat 512) with 512. by rewrite Z.mul_comm.
Qed.

Lemma run_obj s k off o :
  s0 ≤ s → s + k ≤ t → 0 < k → at_off s off → span_ok o k →
  (∀ x, s ≤ x < s + k → map_denote bm x = None ∧ map_denote om x = Some (p_add o (x - s))) →
  ∃ n b, prefix (obj o) = Some n ∧ obj_data (oname n (obj o)) = Some b ∧
    slice (Z.to_nat (512 * offset o)) (512 * Z.to_nat k) b = slice off (512 * Z.to_nat k) full.
Proof.
  intros Hs Ht Hk Ho Hsp Hx. change (obj_span_ok o k) in Hsp.
  assert (∀ i, (i < Z.to_nat k)%nat →
    (n ← prefix (obj o); b ← obj_data (oname n (obj o));
     Some (slice (Z.to_nat (512 * (offset o + Z.of_nat i))) 512 b)) =
    Some (slice (off + 512 * i) 512 full)) as Hi.
  { intros i Hi. rewrite <- (sector_at s off i) by done.
    destruct (Hx (s + Z.of_nat i) ltac:(lia)) as [H1 H2].
    rewrite <- (Hexp (s + Z.of_nat i)) by lia. unfold expect. rewrite H1, H2.
    replace (s + Z.of_nat i - s) with (Z.of_nat i) by lia.
    change (p_add o (Z.of_nat i)) with (ObjOffset.add o (Z.of_nat i)).
    by rewrite obj_offset_add_small by (unfold obj_span_ok, OBJ_LIMIT in *; lia). }
  pose proof (Hi 0%nat ltac:(lia)) as Hi0.
  apply bind_Some in Hi0 as (n & Hp & Hi0). apply bind_Some in Hi0 as (b & Hb & _).
  exists n, b. split; [done|]. split; [done|].
  apply slice_run. intros i Hik. specialize (Hi i Hik). rewrite Hp, bind_some, Hb, bind_some in Hi.
  apply (inj Some) in Hi. rewrite <- Hi. f_equal. destruct Hsp as [Hsp0 _]. apply Nat2Z.inj.
  rewrite Nat2Z.inj_add, Nat2Z.inj_mul. change (Z.of_nat 512) with 512. lia.
Qed.

(** The heap outside the vector does not change. *)
Definition heap_ok (h : heap) : Prop := (∀ c, c ∉ cells → h !! c = h0 !! c) ∧ allocated h cells.

Lemma slice_cells_sub off n c : c ∈ slice off n cells → c ∈ cells.
Proof. unfold slice. intros Hc. eapply subseteq_drop, subseteq_take. exact Hc. Qed.

Lemma fill_piece off n h :
  heap_ok h → (off + n ≤ length full)%nat →
  ∃ h1, write_cells h (slice off n cells) (slice off n full) = Some h1 ∧ heap_ok h1.
Proof.
  intros [Ho Ha] Hle. pose proof length_read_cells as Hc.
  destruct (write_cells_allocated h (slice off n cells) (slice off n full)) as [h1 Hw].
  - intros c Hin. eapply Ha, slice_cells_sub, Hin.
  - by rewrite !length_slice by lia.
  - exists h1. split; [done|]. split.
    + intros c Hin. rewrite <- Ho by done. eapply write_cells_other; [exact Hw|].
      intros Hx. apply Hin. by apply (slice_cells_sub off n).
    + intros c Hin. apply (write_cells_dom _ _ _ _ c Hw). auto.
Qed.

Lemma result_beyond a b h res :
  (length full ≤ a)%nat → (length full ≤ b)%nat → result a h res → result b h res.
Proof.
  intros Ha Hb. unfold result. rewrite !(drop_ge cells), !(drop_ge full); rewrite ?length_read_cells; auto; lia.
Qed.

Lemma at_off_room s k off :
  at_off s off → s + k ≤ t → 0 ≤ k → (off + 512 * Z.to_nat k ≤ length full)%nat.
Proof.
  unfold at_off. intros Ho Ht Hk. apply Nat2Z.inj_le. rewrite Nat2Z.inj_add, Nat2Z.inj_mul, Hlen, Hn.
  change (Z.of_nat 512) with 512. lia.
Qed.

Lemma at_off_end s off : at_off s off → t ≤ s → (length full ≤ off)%nat.
Proof. unfold at_off. intros Ho Ht. apply Nat2Z.inj_le. rewrite Hlen, Hn. lia. Qed.

(** Unmapped sectors. *)
Lemma step_zero s b off h :
  s0 ≤ s → s < t → s < b → at_off s off → heap_ok h →
  (∀ x, s ≤ x < b → x < t → map_denote bm x = None ∧ map_denote om x = None) →
  ∃ h1, SmartIov.zero h iovs off (off + Z.to_nat ((b - s) * 512)) = Some h1 ∧ heap_ok h1 ∧
    ∀ res, result (off + Z.to_nat ((b - s) * 512)) h1 res → result off h res.
Proof.
  intros Hs Hst Hsb Ho Hh Hx. rewrite to_nat_512 by lia. unfold SmartIov.zero.
  assert (off + 512 * Z.to_nat (b - s) - off = 512 * Z.to_nat (b - s))%nat as ->
    by (generalize (512 * Z.to_nat (b - s))%nat; clear; lia).
  set (k := Z.min b t - s).
  pose proof (at_off_room s k off Ho ltac:(lia) ltac:(lia)) as Hroom.
  pose proof (run_zero s k off Hs ltac:(lia) Ho ltac:(intros; apply Hx; lia)) as Hz.
  destruct (fill_piece off (512 * Z.to_nat k) h Hh Hroom) as (h1 & Hw & Hh1).
  rewrite Hz in Hw. rewrite Hlen in Hroom. pose proof Hh as [_ Ha].
  destruct (decide (b ≤ t)).
  - assert (k = b - s) as Hk by lia. rewrite Hk in *.
    rewrite SmartIov.zero_loop_cells by done. exists h1. split; [done|]. split; [done|].
    intros res. apply result_now. by rewrite Hz.
  - assert (k = t - s) as Hk by lia.
    assert (SmartIov.bytes_of iovs = off + 512 * Z.to_nat k)%nat as Hend.
    { unfold at_off in Ho. apply Nat2Z.inj. rewrite Nat2Z.inj_add, Nat2Z.inj_mul, Hn, Ho.
      change (Z.of_nat 512) with 512. lia. }
    assert (512 * Z.to_nat k ≤ 512 * Z.to_nat (b - s))%nat as Hmul
      by (apply Nat.mul_le_mono_l; lia).
    rewrite zero_loop_clamp by (clear -Hend Hroom Hmul; lia).
    replace (SmartIov.bytes_of iovs - off)%nat with (512 * Z.to_nat k)%nat by (clear -Hend; lia).
    rewrite SmartIov.zero_loop_cells by done. exists h1. split; [done|]. split; [done|].
    intros res Hr. eapply (result_now off (512 * Z.to_nat k)); [by rewrite Hz|].
    eapply result_beyond; [| |exact Hr]; rewrite Hlen; clear -Hend Hmul; lia.
Qed.

(** Sectors in memory. *)
Lemma step_buf s k off h p :
  s0 ≤ s → s + k ≤ t → 0 < k → at_off s off → heap_ok h → span_ok p k →
  (∀ x, s ≤ x < s + k → map_denote bm x = Some (p_add p (x - s))) →
  ∃ sl h1, SmartIov.iov_slice iovs off (off + Z.to_nat (k * 512)) = Some sl ∧
    SmartIov.copy_in h sl (buf p, byte_off p) = Some h1 ∧ heap_ok h1 ∧
    ∀ res, result (off + Z.to_nat (k * 512)) h1 res → result off h res.
Proof.
  intros Hs Hst Hk Ho Hh Hsp Hx. rewrite to_nat_512 by lia. pose proof Hh as [Hoth Ha].
  pose proof (at_off_room s k off Ho Hst ltac:(lia)) as Hroom.
  pose proof (run_buf s k off p Hs Hst Ho Hsp Hx) as Hread.
  destruct (fill_piece off (512 * Z.to_nat k) h Hh Hroom) as (h1 & Hw & Hh1).
  set (n := (512 * Z.to_nat k)%nat) in *. rewrite Hlen in Hroom.
  unfold SmartIov.iov_slice. rewrite assert_true by (by apply Nat.leb_le).
  rewrite bind_some. replace (off + n - off)%nat with n by (clear; lia).
  assert (SmartIov.cells (SmartIov.slice_loop iovs off n) = slice off n cells) as Hsl
    by apply SmartIov.slice_loop_cells.
  assert (SmartIov.bytes_of (SmartIov.slice_loop iovs off n) = n) as Hb.
  { rewrite <- SmartIov.length_cells_of, Hsl. apply length_slice. by rewrite SmartIov.length_cells_of. }
  assert (∀ c, c ∈ cells_at (buf p, byte_off p) n → c ∉ cells) as Hsrc.
  { intros c Hc. apply elem_of_cells in Hc as [Hc1 Hc2]. cbn [fst snd] in *.
    set (i := (c.2 - byte_off p) / 512).
    pose proof (Z.div_mod (c.2 - byte_off p) 512 ltac:(lia)) as Hdm.
    pose proof (Z.mod_pos_bound (c.2 - byte_off p) 512 ltac:(lia)) as Hmb. fold i in Hdm.
    assert (Z.of_nat n = 512 * k) as Hnk.
    { unfold n. rewrite Nat2Z.inj_mul. change (Z.of_nat 512) with 512. lia. }
    assert (0 ≤ i < k) as Hi by lia.
    apply (Hbuf (s + i) (p_add p (s + i - s))); [lia|apply Hx; lia|].
    replace (s + i - s) with i by lia. change (p_add p i) with (SectorPtr.add p i).
    change (buf_span_ok p k) in Hsp. unfold buf_span_ok in Hsp.
    rewrite sector_ptr_add_small by (unfold buf_span_ok; lia). apply elem_of_cells.
    cbn [fst snd buf byte_off]. change (Z.of_nat 512) with 512. lia. }
  eexists _, h1. split; [done|]. split; [|split; [done|]].
  - rewrite (SmartIov.copy_in_cells _ h (buf p, byte_off p) (slice off n full)), Hsl; [done|..].
    + rewrite Hsl. intros c Hc. eapply Ha, slice_cells_sub, Hc.
    + rewrite Hb, <- Hread. apply read_cells_ext. intros c Hc. apply Hoth. by apply Hsrc.
    + rewrite Hb, Hsl. intros c Hc Hc'. apply slice_cells_sub in Hc'. by apply (Hsrc c).
  - intros res. by apply result_now.
Qed.

(** Sectors in an object: the call stops at the end of the cache block. *)
Lemma step_call s k off h o base1 limit2 :
  s0 ≤ s → s + k ≤ t → 0 < k → at_off s off → span_ok o k → 0 ≤ obj o < 2 ^ 35 →
  (∀ x, s ≤ x < s + k → map_denote bm x = None ∧ map_denote om x = Some (p_add o (x - s))) →
  Z.min limit2 base1 = s + k →
  ∃ c n, cache_call prefix iovs base1 limit2 s off o = Some (c, n) ∧ 0 < n ≤ k ∧
    ∀ res, result (off + Z.to_nat (n * 512)) h res → result off h ('(h, calls) ← res; Some (h, c :: calls)).
Proof.
  intros Hs Hst Hk Ho Hsp Hobj Hx Hmin. change (obj_span_ok o k) in Hsp.
  unfold obj_span_ok, OBJ_LIMIT in Hsp.
  destruct (round_down_spec (offset o) 128) as (Hrd & Hrd1 & Hrd2); [lia..|].
  unfold cache_call. cbv zeta. change block_sectors with 128. rewrite Hmin.
  unfold ObjOffset.make. cbn [obj offset].
  rewrite (wrap_s_id 36), (wrap_s_id 28), (wrap_s_id 32) by lia.
  set (n := Z.min _ _ - offset o).
  assert (0 < n ≤ k) as Hnk by lia.
  destruct (run_obj s n off o) as (pn & b & Hp & Hb & Hsl); try done; try lia.
  { change (obj_span_ok o n). unfold obj_span_ok, OBJ_LIMIT. lia. }
  { intros x Hxn. apply Hx. lia. }
  rewrite to_nat_512 by lia.
  pose proof (at_off_room s n off Ho ltac:(lia) ltac:(lia)) as Hroom.
  set (bytes_n := (512 * Z.to_nat n)%nat) in *.
  assert (Z.of_nat bytes_n = 512 * n) as Hbn.
  { unfold bytes_n. rewrite Nat2Z.inj_mul. change (Z.of_nat 512) with 512. lia. }
  unfold SmartIov.iov_slice. rewrite Hlen in Hroom. rewrite assert_true by (by apply Nat.leb_le).
  rewrite bind_some. replace (off + bytes_n - off)%nat with bytes_n by (clear; lia).
  rewrite !bind_some, Hp, bind_some.
  assert (SmartIov.cells (SmartIov.slice_loop iovs off bytes_n) = slice off bytes_n cells) as Hcs
    by apply SmartIov.slice_loop_cells.
  assert (SmartIov.bytes_of (SmartIov.slice_loop iovs off bytes_n) = bytes_n) as Hbs.
  { rewrite <- SmartIov.length_cells_of, Hcs. apply length_slice. by rewrite SmartIov.length_cells_of. }
  pose proof (Z.rem_bound_pos (offset o) 128 ltac:(lia) ltac:(lia)) as Hrem.
  pose proof (Z.quot_rem' (offset o) 128) as Hqr. rewrite Z.quot_div_nonneg in Hqr by lia.
  do 2 eexists. split; [reflexivity|]. split; [done|]. intros res.
  rewrite to_nat_512 by lia. apply result_call. fold bytes_n.
  split; [exact Hcs|]. split.
  - unfold call_bytes. cbn [rc_prefix rc_obj rc_offset rc_adjust rc_dest snd].
    rewrite Hb, bind_some, Hbs, <- Hsl. do 3 f_equal. rewrite Hrd. lia.
  - unfold call_ok, CACHE_CHUNK_SIZE. cbn [rc_offset rc_adjust rc_dest]. rewrite Hbs, Hbn, Hrd.
    split_and!; [lia| |lia|lia].
    replace (128 * (offset o / 128) * 512) with (offset o / 128 * 65536) by lia. apply Z.mod_mul. lia.
Qed.

Hypothesis Hbm : wf load bm.
Hypothesis Hom : wf load om.
Hypothesis Hobj : ∀ x o, s0 ≤ x < t → map_denote om x = Some o → 0 ≤ obj o < 2 ^ 35.

Lemma skip_obscured_at limit1 : ∀ fuel it F1 F2,
  flat om = F1 ++ F2 → at_pos om it (length F1) → Forall (λ e, e_limit e ≤ limit1) F1 →
  (length F2 ≤ fuel)%nat →
  ∃ it', skip_obscured om fuel it limit1 = Some it' ∧ cursor om it' limit1.
Proof.
  pose proof Hom as [Hsh Hord].
  induction fuel as [|fuel IH]; intros it F1 F2 HF Hk H1 Hf; simpl;
    destruct (at_head om it F1 F2 HF Hk) as [Hd He]; rewrite He;
    (case_bool_decide as HF2; [exists it; split; [done|]; exists F1, F2;
      split_and!; try done; split; [done|subst; constructor]|]).
  - destruct F2; [done|simpl in Hf; lia].
  - destruct F2 as [|e F2]; [done|]. rewrite Hd. cbn [head mbind option_bind].
    destruct (e_limit e <=? limit1) eqn:E; zb.
    + destruct (incr_at load om it (length F1) Hsh Hk) as (it' & Hi & Hk'); [rewrite HF; len|].
      rewrite Hi. cbn [mbind option_bind]. apply (IH it' (F1 ++ [e]) F2).
      * by rewrite <- app_assoc.
      * rewrite length_app. simpl. by rewrite Nat.add_1_r.
      * apply Forall_app. split; [done|]. by constructor.
      * simpl in Hf. lia.
    + exists it. split; [done|]. exists F1, (e :: F2). split_and!; try done. split; [done|].
      rewrite HF in Hord. by eapply ordered_suffix_gt.
Qed.

Lemma skip_obscured_ok it s limit1 :
  cursor om it s → s ≤ limit1 →
  ∃ it', skip_obscured om (S (length (concat (lists om)))) it limit1 = Some it' ∧ cursor om it' limit1.
Proof.
  intros (F1 & F2 & HF & Hk & [H1 _]) Hle. apply (skip_obscured_at limit1 _ it F1 F2 HF Hk).
  - eapply Forall_impl; [exact H1|]. simpl. lia.
  - change (concat (lists om)) with (flat om). rewrite HF, length_app. lia.
Qed.

(** One iteration from a sector [s] of the read, by cases. *)
Lemma read_loop_ok : ∀ fuel bit oit s off h,
  t - s ≤ Z.of_nat fuel → s0 ≤ s → at_off s off → heap_ok h →
  (s < t → cursor bm bit s ∧ cursor om oit s) →
  result off h (read_loop bm om prefix iovs fuel bit oit s t off h).
Proof.
  induction fuel as [|fuel IH]; intros bit oit s off h Hf Hs Ho Hh Hcur; cbn [read_loop];
    (destruct (t <=? s) eqn:E; zb; [apply result_done; by eapply at_off_end|]); [lia|].
  destruct (Hcur E) as [Hcb Hco].
  destruct (window_spec load bm bit s t (mk_sector_ptr 0 0) Hbm Hcb E)
    as (b1 & l1 & p1 & -> & Hsb1 & Hn1 & Hl1 & Hm1).
  destruct (window_spec load om oit s t (mk_obj_offset 0 0) Hom Hco E)
    as (b2 & l2 & p2 & -> & Hsb2 & Hn2 & Hl2 & Hm2).
  rewrite !bind_some. destruct (s <? Z.min b1 b2) eqn:E3; zb.
  - destruct (step_zero s (Z.min b1 b2) off h) as (h1 & -> & Hh1 & Hres); auto.
    { intros x Hx Hxt. split; [apply Hn1; lia|apply Hn2; lia]. }
    rewrite bind_some. apply Hres, IH; try lia.
    + rewrite to_nat_512 by lia. replace (Z.min b1 b2) with (s + (Z.min b1 b2 - s)) at 1 by lia.
      apply at_off_plus; [done|lia].
    + done.
    + intros Hlt. split; (eapply cursor_later; [eassumption|lia| |by apply (wf_ordered load)]);
        intros e He; [specialize (Hl1 e He)|specialize (Hl2 e He)]; lia.
  - destruct (b1 =? s) eqn:E1; zb.
    + subst b1. destruct (Hm1 ltac:(lia)) as (e1 & He1 & _ & Hsl1 & Hle1 & Hsp1 & Hx1).
      destruct (step_buf s (l1 - s) off h p1) as (sl & h1 & -> & Hcp & Hh1 & Hres);
        auto; [lia|lia|intros x Hx; apply Hx1; lia|].
      rewrite bind_some, Hcp, bind_some.
      destruct (skip_obscured_ok oit s l1 Hco) as (oit' & -> & Hco'); [lia|]. rewrite bind_some.
      destruct (cursor_incr load bm bit s e1 Hbm Hcb He1) as (bit' & -> & Hcb'). rewrite bind_some.
      apply Hres, IH; try lia; [|done|].
      * rewrite to_nat_512 by lia. replace l1 with (s + (l1 - s)) at 1 by lia.
        apply at_off_plus; [done|lia].
      * intros Hlt. split; [|done]. by replace l1 with (e_limit e1) by lia.
    + assert (b2 = s) as -> by lia. rewrite Z.eqb_refl. rewrite (assert_true true) by done.
      rewrite bind_some.
      destruct (Hm2 ltac:(lia)) as (e2 & He2 & Hne & Hsl2 & Hle2 & Hsp2 & Hx2).
      rewrite Hne, assert_true, bind_some by done.
      set (k := Z.min l2 b1 - s).
      assert (∀ x, s ≤ x < s + k → map_denote bm x = None ∧ map_denote om x = Some (p_add p2 (x - s))) as Hx.
      { intros x Hx. split; [apply Hn1; lia|apply Hx2; lia]. }
      assert (span_ok p2 k) as Hspk.
      { pose proof (span_sub _ _ 0 k Hsp2 ltac:(lia) ltac:(lia) ltac:(lia)) as Hs0.
        by rewrite (p_add_0 _ (l2 - s)) in Hs0 by done. }
      assert (0 ≤ obj p2 < 2 ^ 35) as Hobj2.
      { apply (Hobj s); [lia|]. rewrite Hx2 by lia. rewrite Z.sub_diag. by rewrite (p_add_0 _ (l2 - s)). }
      destruct (step_call s k off h p2 b1 l2) as (c & n & -> & Hnk & Hres); auto; [lia|lia|lia|].
      rewrite bind_some, He2, bind_some.
      assert (∃ oit', (if s + n =? e_limit e2 then incr om oit else Some oit) = Some oit' ∧
                (s + n < t → cursor om oit' (s + n))) as (oit' & -> & Hco').
      { destruct (s + n =? e_limit e2) eqn:E4; zb.
        - destruct (cursor_incr load om oit s e2 Hom Hco He2) as (oit' & -> & Hco').
          exists oit'. split; [done|]. by rewrite E4.
        - exists oit. split; [done|]. intros _. eapply cursor_later; [exact Hco|lia| |by apply (wf_ordered load)].
          intros e He. simplify_eq. lia. }
      rewrite bind_some. apply Hres, IH; try lia; [|done|].
      * rewrite to_nat_512 by lia. apply at_off_plus; [done|lia].
      * intros Hlt. split; [|by apply Hco']. eapply cursor_later; [exact Hcb|lia| |by apply (wf_ordered load)].
        intros e He. specialize (Hl1 e He). lia.
Qed.
End read_spec.

(** ** The whole read *)

Section whole.
Context (bm : @extmap sector_ptr) (om : @extmap obj_offset).
Variable prefix : Z → option string.
Variable iovs : SmartIov.smartiov.
Variable obj_data : string → option bytes.

(** The cache serves a call, at some time. *)
Definition serve (h : heap) (c : read_call) : option heap :=
  bs ← call_bytes obj_data c; write_cells h (SmartIov.cells (rc_dest c)) bs.
Fixpoint serve_all (h : heap) (cs : list read_call) : option heap :=
  match cs with [] => Some h | c :: cs => h ← serve h c; serve_all h cs end.

Lemma serve_all_writes h cs ws :
  Forall2 (served obj_data) cs ws → serve_all h cs = write_all h ws.
Proof.
  intros Hs. revert h. induction Hs as [|c [cl bs] cs ws (Hc & Hb & _) _ IH]; intros h; [done|].
  simpl in *. unfold serve. rewrite Hb, bind_some, Hc. destruct (write_cells h cl bs); [apply IH|done].
Qed.

(** A read of whole sectors into memory apart from the buffers: [full] is what
    the maps, the buffers and the objects say. *)
Definition read_ok (load : nat) (h : heap) (s0 n : Z) (full : bytes) : Prop :=
  wf load bm ∧ wf load om ∧ NoDup (SmartIov.cells iovs) ∧ allocated h (SmartIov.cells iovs) ∧
  Z.of_nat (SmartIov.bytes_of iovs) = 512 * n ∧ length full = SmartIov.bytes_of iovs ∧
  (∀ x, s0 ≤ x < s0 + n →
     expect bm om prefix obj_data h x = Some (slice (Z.to_nat (512 * (x - s0))) 512 full) ∧
     (∀ p c, map_denote bm x = Some p → c ∈ cells_at (buf p, byte_off p) 512 → c ∉ SmartIov.cells iovs) ∧
     (∀ o, map_denote om x = Some o → 0 ≤ obj o < 2 ^ 35)).

(** A call for bytes that its object has, into a part of the vector *)
Definition call_fits (c : read_call) : Prop :=
  call_ok c ∧ NoDup (SmartIov.cells (rc_dest c)) ∧
  (∃ bs, call_bytes obj_data c = Some bs ∧ length bs = SmartIov.bytes_of (rc_dest c)) ∧
  ∀ a, a ∈ SmartIov.cells (rc_dest c) → a ∈ SmartIov.cells iovs.

Lemma served_fits calls ws now later :
  Forall2 (served obj_data) calls later → ws ≡ₚ now ++ later → piece_cells ws = SmartIov.cells iovs →
  NoDup (SmartIov.cells iovs) → Forall (λ w, length w.2 = length w.1) ws → Forall call_fits calls.
Proof.
  intros Hs Hp Hc Hnd Hl. apply Forall_lookup. intros i c Hi.
  destruct (Forall2_lookup_l _ _ _ _ _ Hs Hi) as (w & Hw & Hcells & Hb & Hok).
  assert (w ∈ ws) as Hin.
  { rewrite Hp. apply elem_of_app. right. by eapply list_elem_of_lookup_2. }
  rewrite Forall_forall in Hl. unfold call_fits. rewrite Hcells, <- Hc. split_and!.
  - done.
  - apply (NoDup_piece ws); [by rewrite Hc|done].
  - exists w.2. split; [done|]. rewrite (Hl w Hin), <- Hcells. apply SmartIov.length_cells_of.
  - intros a Ha. by eapply elem_piece_cells.
Qed.

Lemma handle_reads_fits load h off n full :
  read_ok load h (off / 512) n full →
  ∃ h' calls, handle_reads bm om prefix iovs h off = Some (h', calls) ∧ Forall call_fits calls ∧
    ∀ order, order ≡ₚ calls →
      ∃ h'', serve_all h' order = Some h'' ∧ SmartIov.contents h'' iovs = Some full ∧
        ∀ c, c ∉ SmartIov.cells iovs → h'' !! c = h !! c.
Proof.
  intros (Hbm & Hom & Hnd & Ha & Hn & Hlen & Hx). unfold handle_reads. rewrite Hn.
  replace (512 * n / 512) with n by (symmetry; rewrite Z.mul_comm; apply Z.div_mul; lia).
  set (s0 := off / 512) in *.
  assert (∃ bit, (if 0 <? size bm then lookup bm s0 else Some (end_ bm)) = Some bit ∧ cursor bm bit s0)
    as (bit & -> & Hcb).
  { destruct (0 <? size bm) eqn:E; [by apply (cursor_lookup load)|]. zb. eexists. split; [done|].
    apply (cursor_end load); [done|]. apply length_zero_iff_nil.
    unfold size in E. rewrite (shape_count load bm (wf_shape _ _ Hbm)) in E. unfold flat in *. lia. }
  destruct (cursor_lookup load om s0 Hom) as (oit & -> & Hco). rewrite !bind_some.
  destruct (read_loop_ok bm om prefix iovs load obj_data s0 (s0 + n) h full) with
    (fuel := Z.to_nat n) (bit := bit) (oit := oit) (s := s0) (off := 0%nat) (h := h)
    as (h' & calls & ws & now & later & -> & Hp & Hc & Hb & Hl & Hnow & Hserved);
    try done; try lia.
  { intros x Hxr. by apply Hx. }
  { intros x p c Hxr. by apply Hx. }
  { intros x o Hxr. by apply Hx. }
  { unfold at_off. lia. }
  exists h', calls. split; [done|]. split.
  { rewrite drop_0 in Hc. by apply (served_fits calls ws now later). }
  intros order Hord. rewrite !drop_0 in *.
  destruct (Permutation_Forall2 (Permutation_sym Hord) Hserved) as (later' & Hord' & Hs').
  rewrite (serve_all_writes _ _ _ Hs').
  destruct (write_split h h' ws now later later') as (h'' & Hw & Hr & Hoth); try done; rewrite ?Hc; auto.
  exists h''. split; [done|]. rewrite Hc, Hb in Hr. split; [done|]. intros c Hcn. apply Hoth. by rewrite Hc.
Qed.

Lemma handle_reads_ok load h off n full :
  read_ok load h (off / 512) n full →
  ∃ h' calls, handle_reads bm om prefix iovs h off = Some (h', calls) ∧ Forall call_ok calls ∧
    ∀ order, order ≡ₚ calls →
      ∃ h'', serve_all h' order = Some h'' ∧ SmartIov.contents h'' iovs = Some full ∧
        ∀ c, c ∉ SmartIov.cells iovs → h'' !! c = h !! c.
Proof.
  intros Hok. destruct (handle_reads_fits load h off n full Hok) as (h' & calls & Hr & Hf & Hs).
  exists h', calls. split; [done|]. split; [|done]. eapply Forall_impl; [exact Hf|]. by intros c [? _].
Qed.

(** C14: a read returns the contents of its sectors, whatever the fragmentation of
    the maps and of the client's vector.  [handle_reads] does not fail, every
    call it makes meets the assertions of [make_read_req], and when the cache has
    served all calls, in any order, the vector holds, for each sector, the data
    in the write buffers, else the data of the object the map names, else
    zeros; no other memory has changed. *)
Theorem handle_reads_correct load h off n full :
  read_ok load h (off / 512) n full →
  ∃ h' calls, handle_reads bm om prefix iovs h off = Some (h', calls) ∧ Forall call_ok calls ∧
    ∀ order, order ≡ₚ calls →
      ∃ h'', serve_all h' order = Some h'' ∧ SmartIov.contents h'' iovs = Some full ∧
        ∀ c, c ∉ SmartIov.cells iovs → h'' !! c = h !! c.
Proof. apply handle_reads_ok. Qed.
End whole.

(** A buffer map with sectors 4-7 at byte 100 of allocation 1, in front of
    [demo_map]. *)
Definition demo_bufmap : @extmap sector_ptr :=
  mk_extmap [[mk_extent 4 4 (mk_sector_ptr 1 100)]] [8] 1.
Definition demo_read_iov : SmartIov.smartiov := [SmartIov.mk_iovec (0, 0) 1000; SmartIov.mk_iovec (0, 1000) 3096].
Definition demo_read_heap : heap := malloc (malloc ∅ 0 4096) 1 2148.
Definition demo_objects (n : string) : option bytes :=
  if decide (n = oname "vol" 1) then Some (replicate (28 * 512) 5) else
  if decide (n = oname "vol" 2) then Some (replicate (20 * 512) 6) else None.

Definition demo_full : bytes := replicate 1536 0 ++ replicate 1024 5 ++ replicate 1536 6.
Definition demo_prefix (_ : Z) : option string := Some "vol".

Lemma demo_bufmap_wf : wf 256 demo_bufmap.
Proof.
  split; split; try reflexivity; simpl.
  - by apply Forall_singleton.
  - apply Forall_singleton. simpl. lia.
  - left. lia.
  - repeat constructor; vm_compute; discriminate.
  - repeat apply Forall_cons_2; try apply Forall_nil_2; vm_compute; intuition discriminate.
Qed.

Lemma demo_read_cells : SmartIov.cells demo_read_iov = cells_at (0, 0) 1000 ++ cells_at (0, 1000) 3096.
Proof. unfold demo_read_iov. rewrite !SmartIov.cells_cons. by rewrite app_nil_r. Qed.

Lemma demo_expect :
  (λ i : nat, expect demo_bufmap demo_map demo_prefix demo_objects demo_read_heap (5 + Z.of_nat i)) <$> seq 0 8 =
  (λ i : nat, Some (slice (512 * i) 512 demo_full)) <$> seq 0 8.
Proof. vm_compute. reflexivity. Qed.

Lemma demo_read_ok :
  read_ok demo_bufmap demo_map demo_prefix demo_read_iov demo_objects 256 demo_read_heap (2560 / 512) 8 demo_full.
Proof.
  change (2560 / 512) with 5. split; [apply demo_bufmap_wf|]. split; [apply demo_map_wf|].
  rewrite demo_read_cells. split; [|split; [|split; [|split]]].
  - apply NoDup_app. split; [apply NoDup_cells|]. split; [|apply NoDup_cells].
    intros c. rewrite !elem_of_cells. simpl. lia.
  - intros c Hc. unfold demo_read_heap. rewrite malloc_other.
    + apply malloc_allocated. rewrite elem_of_app, !elem_of_cells in Hc. rewrite elem_of_cells. cbn [fst snd] in *. lia.
    + rewrite elem_of_app, !elem_of_cells in Hc. cbn [fst snd] in *. lia.
  - reflexivity.
  - vm_compute. reflexivity.
  - intros x Hx. split; [|split].
    + pose proof (f_equal (λ l, l !! Z.to_nat (x - 5)) demo_expect) as He. cbv beta in He.
      rewrite !list_lookup_fmap, lookup_seq_lt in He by lia. cbn [fmap option_fmap option_map] in He.
      apply (inj Some) in He. replace (5 + Z.of_nat (0 + Z.to_nat (x - 5))) with x in He by lia.
      rewrite He. rewrite Z2Nat.inj_mul by lia. reflexivity.
    + intros p c Hp [Hc _]%elem_of_cells. unfold map_denote, demo_bufmap, flat in Hp. simpl in Hp.
      unfold ext_denote in Hp. destruct (in_range _ _ x); [|done]. injection Hp as <-.
      change (c.1 = 1) in Hc. rewrite elem_of_app, !elem_of_cells. cbn [fst snd]. lia.
    + intros o Ho. unfold map_denote in Ho. rewrite denote_vals in Ho.
      apply vs_denote_piece in Ho as (b & l & q & Hin & _ & ->). simpl.
      assert (Forall (λ v, 0 ≤ obj v.2 < 2 ^ 35) (vals <$> flat demo_map)) as HF
        by (repeat constructor; vm_compute; discriminate).
      exact (proj1 (Forall_forall _ _) HF _ Hin).
Qed.

Lemma handle_reads_correct_witness :
  ∃ h calls, handle_reads demo_bufmap demo_map demo_prefix demo_read_iov demo_read_heap 2560 = Some (h, calls) ∧
    ∃ h', serve_all demo_objects h (rev calls) = Some h' ∧ SmartIov.contents h' demo_read_iov = Some demo_full.
Proof.
  destruct (handle_reads_correct demo_bufmap demo_map demo_prefix demo_read_iov demo_objects 256
              demo_read_heap 2560 8 demo_full demo_read_ok) as (h & calls & Hr & _ & Hs).
  exists h, calls. split; [exact Hr|].
  destruct (Hs (rev calls) (Permutation_sym (Permutation_rev calls))) as (h' & Hs' & Hc & _).
  exists h'. split; [exact Hs'|exact Hc].
Defined.
