(* ===== verification/ImageRead.v ===== *)
(** * Reads of an image

    The read path on top of the translation layer: in every reachable state of
    the layer a read of the image returns the disk. *)

From S2P Require Import Prelude Bytes Extent ExtMap ExtMapShape ExtMapFlat ExtMapUpdate ExtMapSpec.
From S2P Require Import Memory SmartIov LsvdTypes Backend Objects Serialise DataObject Config.
From S2P Require Import Translate Accounting Pipeline Completion Refine ReadPath ReadSpec.

Notation objmap := (@ExtMap.Extmap.extmap obj_offset).
Notation bufmap := (@ExtMap.Extmap.extmap sector_ptr).

Section image.
Context {S : Type} {HS : Rados S} {HSok : RadosOk S}.
Context {RC : Type}.
Variable insert_object : RC → string → Z → bytes → RC.
Variable crc32 : bytes → Z.
Variable cfg : lsvd_config.
Variables (name : string) (uuid : bytes) (vol_bytes : Z).
Notation state := (@xstate objmap bufmap S RC).
Implicit Types (st : state) (D : disk).

(** A read through the maps that the image shares with its translation layer. *)
Definition image_read st (iovs : SmartIov.smartiov) (off : Z) : option (heap * list read_call) :=
  handle_reads (p_bufmap (x_pipe st)) (om_map (x_om st)) (prefix name (x_clones st)) iovs
    (p_heap (x_pipe st)) off.

(** The client's vector: allocated memory of the client, whole sectors. *)
Definition client_iov (h : heap) (iovs : SmartIov.smartiov) (n : Z) : Prop :=
  NoDup (SmartIov.cells iovs) ∧ allocated h (SmartIov.cells iovs) ∧
  (∀ c, c ∈ SmartIov.cells iovs → c.1 ≤ 0) ∧ Z.of_nat (SmartIov.bytes_of iovs) = 512 * n.

Lemma expect_sector st D x :
  inv cfg name st D →
  expect (p_bufmap (x_pipe st)) (om_map (x_om st)) (prefix name (x_clones st)) (rados_obj (x_store st))
    (p_heap (x_pipe st)) x = read_sector name st x.
Proof.
  intros Hi. unfold expect, read_sector, map_denote, objmap_at, bufmap_at.
  rewrite (inv_clones _ _ _ _ Hi). rewrite !denote_vals. done.
Qed.

Lemma image_read_ok st D iovs off n full :
  inv cfg name st D → x_cur_seq st ≤ 2 ^ 31 →
  client_iov (p_heap (x_pipe st)) iovs n → length full = SmartIov.bytes_of iovs →
  (∀ x, off / 512 ≤ x < off / 512 + n →
     D x = Some (slice (Z.to_nat (512 * (x - off / 512))) 512 full)) →
  read_ok (p_bufmap (x_pipe st)) (om_map (x_om st)) (prefix name (x_clones st)) iovs
    (rados_obj (x_store st)) 256 (p_heap (x_pipe st)) (off / 512) n full.
Proof.
  intros Hi Hseq (Hnd & Ha & Hc & Hn) Hlen HD. split_and!; try done.
  - apply (inv_bwf _ _ _ _ Hi).
  - apply (inv_live _ _ _ _ Hi).
  - intros x Hx. specialize (HD x Hx). split.
    { rewrite (expect_sector _ _ _ Hi). by apply (inv_read cfg name st D). }
    unfold map_denote. rewrite !denote_vals. split.
    + intros p c Hp Hin Hc'. apply elem_of_cells in Hin as [Hin _]. apply Hc in Hc'. cbn [fst] in Hin.
      destruct (inv_buf _ _ _ _ Hi x p Hp) as (r & k & Hr & Hb & _).
      pose proof (live_buf_bound _ _ _ _ _ Hi Hr). lia.
    + intros o Ho. destruct (inv_objs _ _ _ _ Hi x o Ho). lia.
Qed.

(** A read of an open image returns what was last written.  In every state
    reachable by writes, trims, flushes, checkpoints, worker steps and
    completions, a read into the client's memory succeeds, makes only calls that
    the read cache accepts, and once they have been served, in any order, the
    client's vector holds the contents of the disk. *)
Theorem image_read_refines st D iovs off n full :
  cfg_ok cfg → uuid_ok uuid → 0 ≤ vol_bytes < 2 ^ 64 →
  reachable insert_object crc32 cfg name uuid vol_bytes st D →
  client_iov (p_heap (x_pipe st)) iovs n → length full = SmartIov.bytes_of iovs →
  (∀ x, off / 512 ≤ x < off / 512 + n →
     D x = Some (slice (Z.to_nat (512 * (x - off / 512))) 512 full)) →
  ∃ h calls, image_read st iovs off = Some (h, calls) ∧ Forall call_ok calls ∧
    ∀ order, order ≡ₚ calls → ∃ h', serve_all (rados_obj (x_store st)) h order = Some h' ∧
      SmartIov.contents h' iovs = Some full ∧
      ∀ c, c ∉ SmartIov.cells iovs → h' !! c = p_heap (x_pipe st) !! c.
Proof.
  intros Hcfg Hu Hv Hr Hc Hl HD. apply reachable_inv in Hr as [Hi Hseq]; [|done..].
  apply (handle_reads_ok _ _ _ _ _ 256 _ off n full). by apply (image_read_ok _ D).
Qed.
End image.

(** The first eight sectors of the image of Refine, read into its client's
    memory. *)
Lemma read_sector_obj {S RC : Type} `{Rados S} (st : @xstate objmap bufmap S RC) x bm m store oo b :
  p_bufmap (x_pipe st) = bm → om_map (x_om st) = m → x_store st = store →
  bufmap_at bm x = None → objmap_at m x = Some oo → rados_obj store (oname "vol" (obj oo)) = Some b →
  read_sector "vol" st x = Some (slice (Z.to_nat (512 * offset oo)) 512 b).
Proof. intros <- <- <- Hb Ho Hr. unfold read_sector. by rewrite Hb, Ho, Hr. Qed.

Lemma demo_at x : 0 ≤ x < 8 → objmap_at demo_map x = Some (mk_obj_offset 1 (8 + x)).
Proof.
  intros Hx. assert (x = 0 ∨ x = 1 ∨ x = 2 ∨ x = 3 ∨ x = 4 ∨ x = 5 ∨ x = 6 ∨ x = 7) as Hc by lia.
  repeat destruct Hc as [->|Hc]; [vm_compute; reflexivity..|]. subst. vm_compute. reflexivity.
Qed.

Lemma demo_room x m : 0 ≤ x < 8 → Z.of_nat m = 19456 → (Z.to_nat (512 * (8 + x)) + 512 ≤ m)%nat.
Proof. intros. lia. Qed.

Lemma demo_bm : p_bufmap (x_pipe demo_state) = lm_empty (M := bufmap).
Proof. reflexivity. Qed.
Lemma demo_om_map : om_map (x_om demo_state) = demo_map.
Proof. reflexivity. Qed.
Lemma demo_st : x_store demo_state = demo_store.
Proof. reflexivity. Qed.

Lemma demo_sectors x : 0 ≤ x < 8 → read_sector "vol" demo_state x = Some (replicate 512 5).
Proof.
  intros Hx.
  rewrite (read_sector_obj demo_state x (lm_empty (M := bufmap)) demo_map demo_store (mk_obj_offset 1 (8 + x))
             (replicate (38 * 512) 5) demo_bm demo_om_map demo_st eq_refl (demo_at x Hx)).
  - rewrite slice_replicate; [done|]. apply demo_room; [done|]. vm_compute. reflexivity.
  - cbn [obj]. unfold demo_store. cbn [rados_obj gmap_rados]. apply lookup_singleton_eq.
Qed.

Lemma cells_of_buf p n : SmartIov.cells (SmartIov.of_buf p n) = cells_at p n.
Proof. unfold SmartIov.of_buf. rewrite SmartIov.cells_cons. apply app_nil_r. Qed.

Lemma client_buf h o n k :
  is_Some (mem_read h (0, o) k) → Z.of_nat k = 512 * n → client_iov h (SmartIov.of_buf (0, o) k) n.
Proof.
  intros Hr Hk. unfold client_iov. rewrite cells_of_buf. split; [apply NoDup_cells|].
  split; [by apply read_cells_allocated|]. split; [by intros c [-> _]%elem_of_cells|].
  unfold SmartIov.of_buf. simpl. lia.
Qed.

Lemma read_malloc h id m p k : p.1 ≠ id → mem_read (malloc h id m) p k = mem_read h p k.
Proof.
  intros Hp. apply read_cells_ext. intros c [Hc _]%elem_of_cells. apply malloc_other. congruence.
Qed.

Lemma demo_client : client_iov (p_heap (x_pipe demo_state)) demo_iov 8.
Proof.
  apply client_buf; [|vm_compute; reflexivity].
  change (p_heap (x_pipe demo_state))
    with (malloc demo_heap 1 (Z.to_nat (backend_obj_bytes get_default + max_hdr_bytes get_default))).
  rewrite read_malloc by done. exists (replicate 4096 7). vm_compute. reflexivity.
Qed.

Lemma image_read_refines_witness :
  ∃ h calls, image_read "vol" demo_state demo_iov 0 = Some (h, calls) ∧
    ∃ h', serve_all (rados_obj demo_store) h calls = Some h' ∧
      SmartIov.contents h' demo_iov = Some (replicate 4096 5).
Proof.
  destruct (image_read_refines demo_insert demo_crc32 get_default "vol" demo_uuid (2 ^ 30) demo_state
              (read_sector "vol" demo_state) demo_iov 0 8 (replicate 4096 5)) as (h & calls & Hr & _ & Hs).
  - exact demo_cfg_ok.
  - exact (proj1 demo_params).
  - exact (proj2 demo_params).
  - exists demo_state. split; [exact demo_opened|apply rtc_refl].
  - exact demo_client.
  - apply length_replicate.
  - intros x Hx. change (0 / 512) with 0 in *. rewrite demo_sectors by lia. f_equal.
    unfold slice. rewrite drop_replicate, take_replicate. f_equal. lia.
  - exists h, calls. split; [exact Hr|]. destruct (Hs calls (reflexivity _)) as (h' & Hsv & Hc & _).
    exists h'. split; [exact Hsv|exact Hc].
Defined.
