(* ===== verification/Image.v ===== *)
(** * Opening and managing images (src/src/image.cc)

    Opening an image reads its superblock, loads the last checkpoint, applies
    the data objects that follow it, deletes the objects beyond them and starts
    the translation layer.  The static operations create, inspect and delete
    images.  Exceptions are [Throw]; [None] inside an [outcome] means that the
    fuel of a loop ran out. *)

From Stdlib Require Import Ascii String.
From S2P Require Import Prelude Bytes Extent ExtMapFlat ExtMapSpec Memory SmartIov LsvdTypes Backend.
From S2P Require Import Objects Serialise DataObject Config Translate Journal WriteCache.

(** [std::string(p, len)] *)
Definition string_of_bytes (bs : bytes) : string :=
  String.string_of_list_ascii ((λ b, ascii_of_N (Z.to_N b)) <$> bs).

Section image.
Context {M : Type} {HM : LbaMap M obj_offset}.
Context {S : Type} {HS : Rados S}.
Variable cfg : lsvd_config.
Variable imgname : string.

(** [class lsvd_image]: what recovery fills in. *)
Record lsvd_image := mk_image {
  im_size : Z;
  im_uuid : bytes;
  im_checkpoints : list Z;
  im_clones : list clone_base;
  im_obj_info : gmap Z data_obj_info;
  im_objmap : M;
}.

(** ** Recovery *)

(** The members before recovery. *)
Definition blank : lsvd_image := mk_image 0 [] [] [] ∅ lm_empty.

(** "Consume log records": the map and the extents it replaced. *)
Fixpoint apply_records (seq hdr_sectors offset : Z) (data_map : list data_map) (m : M)
    : option (M * list (Z * Z * obj_offset)) :=
  match data_map with
  | [] => Some (m, [])
  | dmap :: data_map =>
    let oo := ObjOffset.make seq (offset + hdr_sectors) in
    '(m, deleted) ← lm_update m (dm_lba dmap) (dm_lba dmap + dm_len dmap) oo;
    '(m, deleted') ← apply_records seq hdr_sectors (offset + dm_len dmap) data_map m;
    Some (m, deleted ++ deleted')
  end.

(** "Manage deleted extents"; [obj_info[...]] makes an entry of zeros when there
    is none. *)
Fixpoint manage_deleted (deleted : list (Z * Z * obj_offset)) (info : gmap Z data_obj_info)
    : outcome (gmap Z data_obj_info) :=
  match deleted with
  | [] => Ret info
  | (base, limit, ptr) :: deleted =>
    let oi := default (mk_data_obj_info 0 0 0) (info !! obj ptr) in
    let live := oi_live oi - (limit - base) in
    let info := <[obj ptr := mk_data_obj_info (oi_hdr oi) (oi_data oi) live]> info in
    _ ← throw_on (0 <=? live);
    manage_deleted deleted info
  end.

(** [apply_log]; [None] is [false]. *)
Definition apply_log (objstore : S) (im : lsvd_image) (seq : Z) : outcome (option lsvd_image) :=
  data_hdr ← read_data_hdr objstore (oname imgname seq);
  match data_hdr with
  | None => Ret None
  | Some data_hdr =>
    let ohdr := pd_hdr data_hdr in
    if type ohdr =? OBJ_CHECKPOINT then
      Ret (Some (mk_image (im_size im) (im_uuid im) (im_checkpoints im ++ [seq]) (im_clones im)
                   (im_obj_info im) (im_objmap im)))
    else
      let info := <[seq := mk_data_obj_info (hdr_sectors ohdr) (data_sectors ohdr)
                             (data_sectors ohdr)]> (im_obj_info im) in
      '(m, deleted) ← checked (apply_records seq (hdr_sectors ohdr) 0 (pd_data_map data_hdr)
                                 (im_objmap im));
      info ← manage_deleted deleted info;
      Ret (Some (mk_image (im_size im) (im_uuid im) (im_checkpoints im) (im_clones im) info m))
  end.

(** [lsvd_image::read_superblock] *)
Definition load_superblock (objstore : S) (im : lsvd_image) : outcome lsvd_image :=
  superblock ← Serialise.read_superblock objstore imgname;
  match superblock with
  | None => Throw
  | Some sb =>
    let base ci := mk_clone_base (string_of_bytes ci.2) (ci_last_seq ci.1)
                     (wrap_u 32 (ci_last_seq ci.1 + 1)) in
    Ret (mk_image (ps_vol_size sb) (ps_uuid sb) (im_checkpoints im ++ ps_ckpts sb)
           (im_clones im ++ (base <$> ps_clones sb)) (im_obj_info im) (im_objmap im))
  end.

Definition load_objects (objects : list ckpt_obj) (info : gmap Z data_obj_info)
    : gmap Z data_obj_info :=
  foldl (λ info o, <[co_seq o := mk_data_obj_info (co_hdr_sectors o) (co_data_sectors o)
                                   (co_live_sectors o)]> info) info objects.

Fixpoint load_map (dmap : list ckpt_mapentry) (m : M) : option M :=
  match dmap with
  | [] => Some m
  | e :: dmap =>
    let oo := ObjOffset.make (me_obj e) (me_offset e) in
    '(m, _) ← lm_update m (me_lba e) (me_lba e + me_len e) oo;
    load_map dmap m
  end.

(** [read_from_checkpoint] *)
Definition read_from_checkpoint (objstore : S) (im : lsvd_image) (seq : Z) : outcome lsvd_image :=
  parsed ← Serialise.read_checkpoint objstore (oname imgname seq);
  match parsed with
  | None => Throw
  | Some parsed =>
    let info := load_objects (pc_objects parsed) (im_obj_info im) in
    m ← checked (load_map (pc_dmap parsed) (im_objmap im));
    Ret (mk_image (im_size im) (im_uuid im) (im_checkpoints im) (im_clones im) info m)
  end.

(** The loop of [roll_forward_from_last_checkpoint]: the state and the sequence
    number at which [apply_log] has returned [false]. *)
Fixpoint replay (fuel : nat) (objstore : S) (im : lsvd_image) (seq : Z)
    : outcome (option (lsvd_image * Z)) :=
  match fuel with
  | O => Ret None
  | Datatypes.S fuel =>
    ret ← apply_log objstore im seq;
    match ret with
    | None => Ret (Some (im, seq))
    | Some im => replay fuel objstore im (wrap_u 32 (seq + 1))
    end
  end.

(** "Delete dangling objects" *)
Definition delete_dangling (objstore : S) (seq : Z) : S :=
  foldl (λ s i, (delete_obj s (oname imgname (wrap_u 32 (seq + i)))).2) objstore
    (seqZ 1 (wrap_u 64 (backend_write_window cfg * 4) - 1)).

(** [roll_forward_from_last_checkpoint] *)
Definition roll_forward (fuel : nat) (objstore : S) (im : lsvd_image)
    : outcome (option (lsvd_image * S * Z)) :=
  match last (im_checkpoints im) with
  | None => Ret (Some (im, objstore, 0))
  | Some last_ckpt =>
    r ← replay fuel objstore im (wrap_u 32 (last_ckpt + 1));
    match r with
    | None => Ret None
    | Some (im, seq) =>
      let seq := wrap_u 32 (seq - 1) in
      Ret (Some (im, delete_dangling objstore seq, seq))
    end
  end.

(** The constructor up to the construction of the translation layer. *)
Definition recover (fuel : nat) (objstore : S) : outcome (option (lsvd_image * S * Z)) :=
  im ← load_superblock objstore blank;
  im ← (match last (im_checkpoints im) with
        | Some c => read_from_checkpoint objstore im c
        | None => Ret im
        end);
  roll_forward fuel objstore im.

(** ** The constructor *)

Section open.
Context {MB : Type} {HB : LbaMap MB sector_ptr}.
Context {RC : Type}.

(** [h] is the client's memory, [rc] the read cache, [wlog] the file of the write
    log if there is one. *)
Definition open_image (fuel : nat) (h : heap) (rc : RC) (objstore : S) (wlog : option bytes)
    : outcome (option (lsvd_image * @xstate M MB S RC * (bytes * wcache))) :=
  r ← recover fuel objstore;
  match r with
  | None => Ret None
  | Some (im, objstore, last_data_seq) =>
    let xlate := init_translate cfg h lm_empty (im_objmap im) last_data_seq (im_clones im)
                   (im_obj_info im) (im_checkpoints im) rc objstore in
    wl ← checked (open_wlog wlog (im_uuid im) cfg);
    match wl with
    | None => Throw
    | Some wl => Ret (Some (im, xlate, wl))
    end
  end.
End open.
End image.
Arguments lsvd_image M : clear implicits.

(** ** Image management *)

Section management.
Context {S : Type} {HS : Rados S}.

Definition EEXIST : Z := 17.

(** [create_new]; [uuid] is what [uuid_generate_random] returns.  [None] is a
    fault of [serialise_superblock]. *)
Definition create_new (name : string) (size : Z) (uuid : bytes) (be : S) : option (Z * S) :=
  buf ← serialise_superblock (zeros 4096) [] [] uuid size;
  Some (write be name buf).

(** [get_uuid]: the result and the uuid. *)
Definition get_uuid (name : string) (be : S) : outcome (Z + bytes) :=
  osb ← Serialise.read_superblock be name;
  match osb with
  | None => Ret (inl (- EEXIST))
  | Some sb => Ret (inr (ps_uuid sb))
  end.

(** The loop over the checkpoints in [delete_image]: an error, or the store and
    [seq]. *)
Fixpoint delete_ckpts (name : string) (ckpts : list Z) (seq : Z) (be : S) : (Z * S) + (S * Z) :=
  match ckpts with
  | [] => inr (be, seq)
  | ckpt :: ckpts =>
    let '(rc, be) := delete_obj be (oname name ckpt) in
    if rc <? 0 then inl (rc, be) else delete_ckpts name ckpts ckpt be
  end.

(** [for (int n = 0; n < 16; seq++, n++)]; [None] when the fuel runs out. *)
Fixpoint delete_run (fuel : nat) (name : string) (seq n : Z) (be : S) : option S :=
  if n <? 16 then
    match fuel with
    | O => None
    | Datatypes.S fuel =>
      let '(rc, be) := delete_obj be (oname name seq) in
      let n := if 0 <=? rc then 0 else n in
      delete_run fuel name (wrap_u 32 (seq + 1)) (n + 1) be
    end
  else Some be.

(** [delete_image]; [seq] is declared without a value: [indet] is what it
    holds. *)
Definition delete_image (fuel : nat) (indet : Z) (name : string) (be : S)
    : outcome (option (Z * S)) :=
  osb ← Serialise.read_superblock be name;
  match osb with
  | None => Ret (Some (- EEXIST, be))
  | Some sb =>
    match delete_ckpts name (ps_ckpts sb) indet be with
    | inl (rc, be) => Ret (Some (rc, be))
    | inr (be, seq) =>
      Ret (be ← delete_run fuel name seq 0 be; Some (delete_obj be name))
    end
  end.
End management.
