(* ===== verification/Recovery.v ===== *)
(** * Recovery: the log of data objects

    When [apply_log] succeeds, when it throws, and what a missing checkpoint
    means.  The accounting of the recovered state is the invariant of
    Accounting, plus an entry of the object table for every object that is
    mapped. *)

From S2P Require Import Prelude Bytes Extent ExtMapFlat ExtMapSpec Memory SmartIov LsvdTypes Backend.
From S2P Require Import Objects Serialise DataObject Config Translate Accounting Image.

Section recovery.
Context {M : Type} {HM : LbaMap M obj_offset}.
Context {S : Type} {HS : Rados S}.
Variable cfg : lsvd_config.
Variable imgname : string.
Implicit Types (m : M) (es : list ckpt_mapentry) (im : lsvd_image M) (s : S).

Notation apply_log := (apply_log imgname).
Notation recover := (recover cfg imgname).

(** ** Records that replace nothing *)

(** A record of a data object as an entry of a batch. *)
Definition entry_of (d : data_map) : ckpt_mapentry := mk_ckpt_mapentry (dm_lba d) (dm_len d) 0 0.

Lemma apply_records_entries sq hdr : ∀ dms off m,
  apply_records sq hdr off dms m =
  '(m', del, _) ← map_entries sq (off + hdr) (entry_of <$> dms) m; Some (m', del).
Proof.
  induction dms as [|d dms IH]; intros off m; [done|]. simpl.
  destruct (lm_update m _ _ _) as [[m1 del1]|]; [|done]. simpl.
  rewrite IH. replace (off + dm_len d + hdr) with (off + hdr + dm_len d) by lia.
  by destruct (map_entries _ _ _ _) as [[[m2 del2] dm]|].
Qed.

Definition in_entry (e : ckpt_mapentry) (x : Z) : Prop := me_lba e ≤ x < me_lba e + me_len e.

(** No entry covers a sector that is mapped or covered by an earlier entry. *)
Fixpoint fresh (mapped : Z → Prop) es : Prop :=
  match es with
  | [] => True
  | e :: es => (∀ x, in_entry e x → ¬ mapped x) ∧ fresh (λ x, mapped x ∨ in_entry e x) es
  end.

Lemma fresh_iff es : ∀ P Q, (∀ x, P x ↔ Q x) → fresh P es ↔ fresh Q es.
Proof.
  induction es as [|e es IH]; intros P Q HPQ; [done|]. simpl. f_equiv.
  - split; intros HP x Hx; [rewrite <- HPQ|rewrite HPQ]; auto.
  - apply IH. intros x. by rewrite HPQ.
Qed.

Lemma pieces_nil (lo hi : Z) (ps : list (Z * Z * obj_offset)) :
  pieces_in lo hi ps → ps = [] ↔ ∀ x, lo ≤ x < hi → vs_denote ps x = None.
Proof.
  intros Hp. split; [by intros ->|]. intros Hn. destruct ps as [|[[b l] p] ps]; [done|].
  simpl in Hp. destruct Hp as (? & ? & _ & ?%pieces_in_le).
  specialize (Hn b ltac:(lia)). simpl in Hn. by rewrite (proj2 (in_range_true _ _ _)) in Hn by lia.
Qed.

Lemma map_entries_replaces sq es : ∀ off m m' del dm,
  lm_wf m → seq_ok sq → Forall entry_ok es → 0 ≤ off → off + sum_len es < OBJ_LIMIT →
  map_entries sq off es m = Some (m', del, dm) →
  del = [] ↔ fresh (λ x, is_Some (objmap_at m x)) es.
Proof.
  induction es as [|e es IH]; intros off m m' del dm Hwf Hs Hes Hoff Hlim; simpl.
  { by intros [= _ <- _]. }
  apply Forall_cons in Hes as [He Hes]. unfold entry_ok, VOL_LIMIT in He.
  pose proof (sum_len_nonneg es Hes). rewrite sum_len_cons in Hlim.
  destruct (obj_make_ok sq off (me_len e) Hs) as [_ Hsp]; try lia.
  destruct (lm_update_ok m (me_lba e) (me_lba e + me_len e) (ObjOffset.make sq off))
    as (m1 & del1 & -> & Hwf1 & Hp1 & Hd1 & Hdel & _); auto; try (unfold LBA_LIMIT; lia).
  { by replace (_ + _ - _) with (me_len e) by lia. }
  cbn [mbind option_bind].
  destruct (map_entries sq (off + me_len e) es m1) as [[[m2 del2] dm2]|] eqn:E; [|done].
  intros [= _ <- _]. rewrite app_nil. f_equiv.
  - rewrite (pieces_nil _ _ _ Hp1). unfold in_entry, objmap_at. split; intros HP x Hx.
    + specialize (HP x Hx). rewrite Hdel, (proj2 (in_range_true _ _ _)) in HP by lia.
      rewrite HP. by intros [? ?].
    + rewrite Hdel, (proj2 (in_range_true _ _ _)) by lia. apply eq_None_not_Some, HP, Hx.
  - rewrite (IH (off + me_len e) m1 m2 del2 dm2 Hwf1 Hs Hes ltac:(lia) ltac:(lia) E). apply fresh_iff. intros x.
    unfold objmap_at, in_entry. rewrite Hd1. destruct (in_range _ _ x) eqn:Ex.
    + apply in_range_true in Ex. split; intros _; [by right|by eexists].
    + split; [by left|]. intros [?|Hx]; [done|]. by rewrite (proj2 (in_range_true _ _ _)) in Ex by lia.
Qed.

(** ** Replaying one object *)

(** The recovered state: exact live counts, and a table entry for each mapped
    object. *)
Definition im_ok im : Prop :=
  live_ok (mk_omap (im_objmap im) (im_obj_info im) 0 0) ∧
  ∀ x p, objmap_at (im_objmap im) x = Some p → is_Some (im_obj_info im !! obj p).

(** What the backend holds as object [sq]: a data object with [hdr] header
    sectors and entries [es]. *)
Definition log_object s (sq hdr : Z) es : Prop :=
  ∃ p, read_data_hdr s (oname imgname sq) = Ret (Some p) ∧ type (pd_hdr p) = OBJ_LOGDATA ∧
    hdr_sectors (pd_hdr p) = hdr ∧ data_sectors (pd_hdr p) = sum_len es ∧
    entry_of <$> pd_data_map p = es.

Lemma manage_deleted_throws del (info : gmap Z data_obj_info) :
  del ≠ [] → Forall piece_pos del →
  (∀ b l p, (b, l, p) ∈ del → is_Some (info !! obj p)) →
  (∀ o oi, info !! o = Some oi → weight (of_obj o) del ≤ oi_live oi) →
  manage_deleted del info = Throw.
Proof.
  intros Hne Hpos Hin Hle. destruct del as [|[[b l] p] del]; [done|]. simpl.
  destruct (Hin b l p) as [oi Ho]; [left|]. rewrite Ho. simpl.
  specialize (Hle _ _ Ho). rewrite weight_cons in Hle.
  unfold of_obj in Hle at 1. rewrite Z.eqb_refl in Hle.
  apply Forall_cons in Hpos as [_ Hpos]. pose proof (weight_pos (of_obj (obj p)) del Hpos).
  by rewrite (proj2 (Z.leb_le _ _)) by lia.
Qed.

Lemma weight_pos_in o (del : list (Z * Z * obj_offset)) b l p :
  Forall piece_pos del → (b, l, p) ∈ del → obj p = o → 0 < weight (of_obj o) del.
Proof.
  intros Hpos Hin <-. apply list_elem_of_split in Hin as (d1 & d2 & ->).
  apply Forall_app in Hpos as [H1 H2]. apply Forall_cons in H2 as [Hp H2].
  unfold piece_pos in Hp. simpl in Hp. rewrite weight_app, weight_cons.
  unfold of_obj at 2. rewrite Z.eqb_refl.
  pose proof (weight_pos (of_obj (obj p)) _ H1). pose proof (weight_pos (of_obj (obj p)) _ H2). lia.
Qed.
(** The tables after the object has been entered and before the deleted extents
    are managed. *)
Lemma records_ok im sq hdr es :
  im_ok im → seq_ok sq → unused (im_objmap im) sq → Forall entry_ok es → 0 ≤ hdr →
  hdr + sum_len es < OBJ_LIMIT →
  ∃ m' del dm, map_entries sq hdr es (im_objmap im) = Some (m', del, dm) ∧ lm_wf m' ∧
    Forall piece_pos del ∧
    (∀ x, objmap_at m' x =
          match batch_lookup hdr es x with
          | Some k => Some (mk_obj_offset sq k)
          | None => objmap_at (im_objmap im) x
          end) ∧
    (∀ o, weight (of_obj o) (lm_pieces m') + weight (of_obj o) del =
          weight (of_obj o) (lm_pieces (im_objmap im)) + if o =? sq then sum_len es else 0) ∧
    (del = [] ↔ fresh (λ x, is_Some (objmap_at (im_objmap im) x)) es) ∧
    let info := <[sq := mk_data_obj_info hdr (sum_len es) (sum_len es)]> (im_obj_info im) in
    (∀ o oi, info !! o = Some oi → weight (of_obj o) del ≤ oi_live oi) ∧
    (∀ b l p, (b, l, p) ∈ del → is_Some (info !! obj p)).
Proof.
  intros [[Hwf Hl] Hown] Hs Hu Hes Hh Hlim. cbn [om_map om_info] in *.
  destruct (map_entries_ok sq es hdr (im_objmap im)) as (m' & del & dm & Hm & Hwf' & Hp & Hd & Hw & _); auto.
  exists m', del, dm. split_and!; auto; [by eapply map_entries_replaces|..].
  - intros o oi. specialize (Hw o). pose proof (weight_map_pos m' o Hwf').
    destruct (decide (sq = o)) as [<-|Hne].
    + rewrite lookup_insert_eq. intros [= <-]. simpl. rewrite Z.eqb_refl in Hw.
      rewrite (unused_weight _ _ Hwf Hu) in Hw. lia.
    + rewrite lookup_insert_ne by done. intros Ho. rewrite (Hl _ _ Ho).
      rewrite (proj2 (Z.eqb_neq _ _)) in Hw by done. lia.
  - intros b l p Hin. destruct (decide (sq = obj p)) as [<-|Hne]; [rewrite lookup_insert_eq; by eexists|].
    rewrite lookup_insert_ne by done.
    destruct (im_obj_info im !! obj p) as [oi|] eqn:Ho; [by eexists|exfalso].
    pose proof (weight_pos_in (obj p) del b l p Hp Hin eq_refl).
    specialize (Hw (obj p)). rewrite (proj2 (Z.eqb_neq _ _)) in Hw by done.
    rewrite (unused_weight (im_objmap im) (obj p)) in Hw; [pose proof (weight_map_pos m' (obj p) Hwf'); lia|done|].
    intros x q Hx Hq. apply Hown in Hx. rewrite Hq, Ho in Hx. by destruct Hx.
Qed.

(** C29: replaying a data object.  If none of its sectors is mapped and no sector
    is in it twice, [apply_log] succeeds, maps every sector of the object to its
    place in it, changes nothing else and keeps the accounting exact.  In every
    other case, that is, when the object overwrites anything, it throws, because
    the test on [live] is inverted: the image cannot be opened. *)
Theorem apply_log_correct s im sq hdr es :
  im_ok im → seq_ok sq → unused (im_objmap im) sq → Forall entry_ok es → 0 ≤ hdr →
  hdr + sum_len es < OBJ_LIMIT → log_object s sq hdr es →
  let overwrites := ¬ fresh (λ x, is_Some (objmap_at (im_objmap im) x)) es in
  (overwrites → apply_log s im sq = Throw) ∧
  (¬ overwrites →
   ∃ im', apply_log s im sq = Ret (Some im') ∧ im_ok im' ∧ im_checkpoints im' = im_checkpoints im ∧
     ∀ x, objmap_at (im_objmap im') x =
          match batch_lookup hdr es x with
          | Some k => Some (mk_obj_offset sq k)
          | None => objmap_at (im_objmap im) x
          end).
Proof.
  intros Hok Hs Hu Hes Hh Hlim (p & Hr & Ht & <- & Hd & Hdm) overwrites.
  destruct (records_ok im sq (hdr_sectors (pd_hdr p)) es)
    as (m' & del & dm & Hm & Hwf' & Hpos & Hat & Hw & Hfresh & Hle & Hin); auto.
  unfold Image.apply_log. rewrite Hr. cbn [mbind outcome_bind]. rewrite Ht. simpl.
  rewrite apply_records_entries, Hdm, Z.add_0_l, Hm, Hd. simpl. subst overwrites. rewrite <- Hfresh. split.
  - intros Hne. by rewrite manage_deleted_throws.
  - intros Hnil. destruct del as [|d del]; [|by destruct Hnil]. simpl. destruct Hok as [[Hwf Hl] Hown].
    cbn [om_map om_info] in Hwf, Hl. eexists. split; [done|]. split; [|done]. split; [split; [done|]|]; cbn [om_map om_info im_objmap im_obj_info].
    + intros o oi. specialize (Hw o). rewrite (eq_refl : weight (of_obj o) [] = 0) in Hw.
      destruct (decide (sq = o)) as [<-|Hne].
      * rewrite lookup_insert_eq. intros [= <-]. simpl. rewrite Z.eqb_refl in Hw.
        rewrite (unused_weight _ _ Hwf Hu) in Hw. lia.
      * rewrite lookup_insert_ne by done. intros Ho. rewrite (Hl _ _ Ho).
        rewrite (proj2 (Z.eqb_neq _ _)) in Hw by done. lia.
    + intros x q. rewrite Hat. destruct (batch_lookup _ es x) as [k|].
      * intros [= <-]. rewrite lookup_insert_eq. by eexists.
      * intros Hx%Hown. destruct (decide (sq = obj q)) as [<-|Hne];
          [rewrite lookup_insert_eq; by eexists|by rewrite lookup_insert_ne].
Qed.
(** ** The end of the log *)

Lemma no_object `{!RadosOk S} s name : rados_obj s name = None → read_data_hdr s name = Ret None.
Proof.
  intros Hn. unfold read_data_hdr, fetch_object_header, read. by rewrite rados_read_obj, Hn.
Qed.

(** ** Objects made by the translation layer *)

Definition record_of (e : ckpt_mapentry) : data_map := mk_data_map (me_lba e) (me_len e).

Lemma log_object_made `{!RadosOk S} crc32 s sq uuid hdr es is_gc b tail :
  uuid_ok uuid → seq_ok sq → Forall entry_ok es → sum_len es < 2 ^ 32 →
  entry_of <$> (record_of <$> es) = es →
  72 + 8 * Z.of_nat (length es) ≤ hdr * 512 < 2 ^ 32 →
  make_obj_hdr crc32 uuid sq hdr (sum_len es) (record_of <$> es) is_gc = Some b →
  rados_obj s (oname imgname sq) = Some (b ++ tail) →
  log_object s sq hdr es.
Proof.
  intros Hu Hs Hes Hsum Hrec Hh Hm Hobj. pose proof (sum_len_nonneg es Hes).
  unfold seq_ok in Hs.
  destruct (read_data_hdr_ok crc32 s (oname imgname sq) uuid sq hdr (sum_len es) (record_of <$> es) is_gc b tail)
    as (p & Hr & Hdm & _ & Ht & _ & Hhs & Hds & _); auto; try (unfold u32_ok; lia).
  - rewrite length_fmap. done.
  - apply Forall_fmap. eapply Forall_impl; [exact Hes|]. intros e He. simpl.
    unfold entry_ok, VOL_LIMIT in He. lia.
  - exists p. split_and!; auto. by rewrite Hdm.
Qed.
End recovery.

(** ** A concrete log *)

Definition demo_log_es : list ckpt_mapentry := [mk_ckpt_mapentry 100 8 0 0].
Definition demo_log_image (m : @ExtMap.Extmap.extmap obj_offset) info : lsvd_image _ :=
  mk_image (2 ^ 30) (replicate 16 1) [2] [] info m.

(** Object 3 maps the sectors 100 to 107 to its sectors 8 to 15; in the image of
    Accounting they are free, in an image that already has it they are not. *)
Lemma apply_log_correct_witness :
  ∃ b im', make_obj_hdr sum_list_Z (replicate 16 1) 3 8 8 (record_of <$> demo_log_es) false = Some b ∧
    let s := write (∅ : gmap string bytes) (oname "vol" 3) b in
    let im := demo_log_image (om_map demo_om) (om_info demo_om) in
    apply_log "vol" s.2 im 3 = Ret (Some im') ∧
    objmap_at (im_objmap im') 103 = Some (mk_obj_offset 3 11).
Proof.
  destruct (make_obj_hdr_ok sum_list_Z (replicate 16 1) 3 8 8 (record_of <$> demo_log_es) false)
    as (b & c & Hb & _); [reflexivity|unfold u32_ok; lia|unfold u32_ok; lia|lia|simpl; lia| |].
  { repeat constructor; vm_compute; intuition discriminate. }
  set (s := (write (∅ : gmap string bytes) (oname "vol" 3) b).2).
  set (im := demo_log_image (om_map demo_om) (om_info demo_om)).
  destruct (apply_log_correct "vol" s im 3 8 demo_log_es) as [_ Happ].
  - split; [exact demo_om_live|]. intros x p Hx. apply vs_denote_piece in Hx as (b' & l & q & Hin & _ & ->).
    assert (Forall (λ v, is_Some (im_obj_info im !! obj v.2)) (lm_pieces demo_map)) as HF
      by (repeat constructor; vm_compute; eexists; reflexivity).
    exact (proj1 (Forall_forall _ _) HF _ Hin).
  - unfold seq_ok. lia.
  - exact demo_unused.
  - repeat constructor; vm_compute; intuition discriminate.
  - lia.
  - vm_compute. reflexivity.
  - apply (log_object_made "vol" sum_list_Z s 3 (replicate 16 1) 8 demo_log_es false b []);
      try reflexivity; auto.
    + unfold seq_ok. lia.
    + repeat constructor; vm_compute; intuition discriminate.
    + simpl. lia.
    + unfold s, write. simpl. rewrite lookup_insert_eq, lookup_empty. simpl.
      by destruct (length b).
  - destruct Happ as (im' & Ha & _ & _ & Hat).
    + intros Hf. apply Hf. split; [|done]. intros x Hx [p Hp]. unfold in_entry in Hx. simpl in Hx.
      apply vs_denote_piece in Hp as (b' & l & q & Hin & Hx' & _).
      assert (Forall (λ v, v.1.2 ≤ 100) (lm_pieces demo_map)) as HF
        by (repeat constructor; vm_compute; discriminate).
      apply (proj1 (Forall_forall _ _) HF) in Hin. simpl in Hin. lia.
    + exists b, im'. split; [exact Hb|]. split; [exact Ha|]. rewrite Hat. vm_compute. reflexivity.
Defined.
