(* ===== verification/Reopen.v ===== *)
(** * Reopening an image from its checkpoint

    A checkpoint written by the translation layer, read back by the recovery of
    an image: the maps, tables and sequence numbers are the ones that were
    saved, so the new translation layer starts in a state [opened] with the
    contents that had reached the backend. *)

From stdpp Require Import sorting.
From S2P Require Import Prelude Bytes Extent ExtMapFlat ExtMapSpec Memory SmartIov LsvdTypes Backend.
From S2P Require Import Objects Serialise DataObject Config Translate Accounting Pipeline Completion Refine.
From S2P Require Import Image Recovery.

(** ** Loading the map *)

Lemma new_mapentry_id b l p :
  0 ≤ b < VOL_LIMIT → b < l → seq_ok (obj p) → span_ok p (l - b) →
  new_mapentry b (l - b) (obj p) (offset p) = mk_ckpt_mapentry b (l - b) (obj p) (offset p).
Proof.
  unfold VOL_LIMIT, seq_ok. simpl. unfold obj_span_ok, OBJ_LIMIT. intros. unfold new_mapentry.
  by rewrite !wrap_s_id by lia.
Qed.

Lemma make_id p n : seq_ok (obj p) → 0 ≤ n → span_ok p n → ObjOffset.make (obj p) (offset p) = p.
Proof.
  unfold seq_ok. simpl. unfold obj_span_ok, OBJ_LIMIT. intros. unfold ObjOffset.make.
  rewrite !wrap_s_id by lia. by destruct p.
Qed.

Section load.
Context {M : Type} {HM : LbaMap M obj_offset}.
Implicit Types (m : M) (ps : list (Z * Z * obj_offset)) (info : gmap Z data_obj_info).

(** A piece the on-disk format can hold *)
Definition piece_fits (v : Z * Z * obj_offset) : Prop := v.1.1 < VOL_LIMIT ∧ seq_ok (obj v.2).

Definition map_entry (v : Z * Z * obj_offset) : ckpt_mapentry :=
  let '(base, limit, ptr) := v in new_mapentry base (limit - base) (obj ptr) (offset ptr).

Lemma load_map_ok ps : ∀ lo m,
  pieces_in lo LBA_LIMIT ps → 0 ≤ lo → lm_wf m → (∀ x, lo ≤ x → objmap_at m x = None) →
  Forall piece_fits ps →
  ∃ m', load_map (map_entry <$> ps) m = Some m' ∧ lm_wf m' ∧
    (∀ x, objmap_at m' x = match vs_denote ps x with Some p => Some p | None => objmap_at m x end) ∧
    (∀ o, weight (of_obj o) (lm_pieces m') =
          weight (of_obj o) (lm_pieces m) + weight (of_obj o) ps).
Proof.
  induction ps as [|[[b l] p] ps IH]; intros lo m Hps Hlo Hwf Hfree Hfit.
  { exists m. split_and!; try done. intros o. rewrite (eq_refl : weight (of_obj o) [] = 0). lia. }
  simpl in Hps. destruct Hps as (Hb & Hl & Hsp & Hps).
  apply Forall_cons in Hfit as [[Hbv Hsq] Hfit]. cbn [fst snd] in Hbv, Hsq.
  pose proof (pieces_in_le _ _ _ Hps) as Hlim. rewrite fmap_cons. cbn [load_map map_entry].
  rewrite new_mapentry_id by (try done; lia). cbn [me_lba me_len me_obj me_offset].
  rewrite (make_id p (l - b)) by (try done; lia). replace (b + (l - b)) with l by lia.
  destruct (lm_update_ok m b l p) as (m1 & del & -> & Hwf1 & Hdel & Hd1 & Hdd & Hw1); try done; [lia|].
  cbn [mbind option_bind].
  assert (del = []) as ->.
  { apply (pieces_nil _ _ _ Hdel). intros x Hx. rewrite Hdd, (proj2 (in_range_true _ _ _)) by lia.
    apply Hfree. lia. }
  destruct (IH l m1) as (m' & -> & Hwf' & Hat & Hw); try done; [lia| |].
  { intros x Hx. unfold objmap_at. rewrite Hd1, (proj2 (in_range_false _ _ _)) by lia.
    apply Hfree. lia. }
  exists m'. split; [done|]. split; [done|]. split.
  - intros x. rewrite Hat. cbn [vs_denote v_denote]. unfold objmap_at at 1. rewrite Hd1.
    destruct (in_range b l x) eqn:Ex; [|done]. apply in_range_true in Ex.
    destruct (vs_denote ps x) as [q|] eqn:Eq; [|done].
    apply vs_denote_piece in Eq as (b' & l' & p' & Hin & Hx & _).
    destruct (pieces_in_range _ _ _ _ _ _ Hps Hin). lia.
  - intros o. rewrite Hw. specialize (Hw1 (of_obj o) (of_obj_add o)).
    rewrite (eq_refl : weight (of_obj o) [] = 0) in Hw1.
    change ((b, l, p) :: ps) with ([(b, l, p)] ++ ps). rewrite weight_app. lia.
Qed.

(** ** Loading the object table *)

Definition info_fits (o : Z) (oi : data_obj_info) : Prop :=
  u32_ok o ∧ u32_ok (oi_hdr oi) ∧ u32_ok (oi_data oi) ∧ u32_ok (oi_live oi).

Definition table_entry (e : Z * data_obj_info) : ckpt_obj :=
  let '(o, oi) := e in
  mk_ckpt_obj (wrap_u 32 o) (wrap_u 32 (oi_hdr oi)) (wrap_u 32 (oi_data oi)) (wrap_u 32 (oi_live oi)).

Lemma load_objects_table (l : list (Z * data_obj_info)) : ∀ info,
  Forall (λ e, info_fits e.1 e.2) l → NoDup l.*1 →
  load_objects (table_entry <$> l) info = list_to_map l ∪ info.
Proof.
  induction l as [|[o oi] l IH]; intros info Hfit Hnd; [by rewrite list_to_map_nil, (left_id_L ∅ (∪))|].
  apply Forall_cons in Hfit as [(Ho & Hh & Hd & Hl) Hfit]. rewrite fmap_cons, NoDup_cons in Hnd.
  destruct Hnd as [Hni Hnd]. unfold u32_ok in *. cbn [fst snd] in *.
  unfold load_objects in *. rewrite fmap_cons. cbn [foldl table_entry co_seq co_hdr_sectors co_data_sectors co_live_sectors].
  rewrite !wrap_u_id by lia. rewrite IH by done. destruct oi as [h d v]. simpl.
  rewrite <- (insert_union_r (M := gmap Z)) by (by apply not_elem_of_list_to_map_1).
  apply (insert_union_l (M := gmap Z)).
Qed.

Lemma load_objects_ok info :
  map_Forall info_fits info → load_objects (table_entry <$> sorted_info info) ∅ = info.
Proof.
  intros Hfit. assert (sorted_info info ≡ₚ map_to_list info) as Hp by apply merge_sort_Permutation.
  rewrite load_objects_table.
  - rewrite (right_id_L ∅ (∪)). rewrite (list_to_map_proper (M := gmap Z) (sorted_info info) (map_to_list info)).
    + by rewrite list_to_map_to_list.
    + rewrite Hp. apply NoDup_fst_map_to_list.
    + done.
  - rewrite Hp. apply Forall_forall. intros [o oi] Hin. apply elem_of_map_to_list in Hin.
    exact (Hfit _ _ Hin).
  - rewrite Hp. apply NoDup_fst_map_to_list.
Qed.
End load.

Section reopen.
Context {M : Type} {HM : LbaMap M obj_offset}.
Context {MB : Type} {HB : LbaMap MB sector_ptr}.
Context {S : Type} {HS : Rados S} {HSok : RadosOk S}.
Context {RC : Type}.
Variable insert_object : RC → string → Z → bytes → RC.
Variable crc32 : bytes → Z.
Variable cfg : lsvd_config.
Variables (name : string) (uuid : bytes) (vol_bytes : Z).
Hypothesis Hcfg : cfg_ok cfg.
Hypothesis Huuid : uuid_ok uuid.
Hypothesis Hvol : 0 ≤ vol_bytes < 2 ^ 64.

Notation state := (@xstate M MB S RC).
Notation inv := (inv cfg name).
Notation recover := (recover (M := M) cfg name).
Implicit Types (st : state) (D : disk) (s : S).

(** ** Reading back *)

(** The state of an image whose map and table fit the checkpoint format *)
Definition table_fits st : Prop :=
  ckpt_fits st ∧ Forall piece_fits (lm_pieces (om_map (x_om st))) ∧
  map_Forall info_fits (om_info (x_om st)).

(** What recovery makes of the image that [st] describes. *)
Definition recovered st (ckpts : list Z) (im : lsvd_image M) : Prop :=
  im_size im = vol_bytes / 512 * 512 ∧ im_uuid im = uuid ∧ im_checkpoints im = ckpts ∧
  im_clones im = [] ∧ im_obj_info im = om_info (x_om st) ∧ lm_wf (im_objmap im) ∧
  (∀ x, objmap_at (im_objmap im) x = objmap_at (om_map (x_om st)) x) ∧
  (∀ o, weight (of_obj o) (lm_pieces (im_objmap im)) =
        weight (of_obj o) (lm_pieces (om_map (x_om st)))).

Lemma recover_checkpointed st cp ckpts s fuel :
  lm_wf (om_map (x_om st)) → clones_len_zero (x_superblock_buf st) → table_fits st →
  Forall u32_ok ckpts → (length ckpts ≤ 3)%nat → last ckpts = Some cp → 0 ≤ cp < 2 ^ 31 - 1 →
  checkpointed name uuid vol_bytes st cp ckpts s → rados_obj s (oname name (cp + 1)) = None →
  ∃ im, recover (Datatypes.S fuel) s = Ret (Some (im, delete_dangling cfg name s cp, cp)) ∧
    recovered st ckpts im.
Proof.
  intros Hwf Hz (Hfit & Hpf & Hif) Hck Hlen Hlast Hcp (_ & (b & bt & Hb & Hbo) & (sb & st' & Hsb & Hso)) Hno.
  destruct (read_checkpoint_ok s (oname name cp) cp 0 (ckpt_entries st) (ckpt_objects st) uuid b bt)
    as (p & Hp & Hpo & Hpm & _); auto using ckpt_entries_fit, ckpt_objects_fit.
  { unfold u32_ok. lia. }
  { unfold u64_ok. lia. }
  { unfold ckpt_entries, ckpt_objects. rewrite !length_fmap. exact Hfit. }
  destruct (lm_all_ok (om_map (x_om st)) Hwf) as [_ Hpieces].
  destruct (lm_empty_ok (M := M)) as [He1 He2].
  destruct (load_map_ok (lm_pieces (om_map (x_om st))) 0 (lm_empty (M := M)))
    as (m' & Hm & Hwf' & Hat & Hw); auto; [lia| |].
  { intros x _. unfold objmap_at. by rewrite He2. }
  assert (∀ x, objmap_at m' x = objmap_at (om_map (x_om st)) x) as Hat'.
  { intros x. rewrite Hat. unfold objmap_at. rewrite He2. by destruct (vs_denote _ x). }
  eexists. split.
  - unfold Image.recover, load_superblock.
    rewrite (read_superblock_back s name (x_superblock_buf st) ckpts uuid vol_bytes sb st'); [|done|done|lia|done..].
    cbn [mbind outcome_bind im_checkpoints blank app ps_ckpts ps_clones ps_vol_size ps_uuid].
    rewrite Hlast. unfold read_from_checkpoint. rewrite Hp. cbn [mbind outcome_bind].
    rewrite Hpm, Hpo. change (ckpt_entries st) with (map_entry <$> lm_pieces (om_map (x_om st))).
    cbn [im_objmap im_obj_info blank]. rewrite Hm. cbn [checked mbind outcome_bind].
    change (ckpt_objects st) with (table_entry <$> sorted_info (om_info (x_om st))).
    rewrite load_objects_ok by done. unfold roll_forward. cbn [im_checkpoints]. rewrite Hlast.
    rewrite !(wrap_u_id 32 (cp + 1)) by lia. cbn [replay]. unfold apply_log.
    rewrite no_object by done. cbn [mbind outcome_bind].
    rewrite (wrap_u_id 32) by lia. replace (cp + 1 - 1) with cp by lia. reflexivity.
  - split_and!; try done. intros o. cbn [im_objmap]. rewrite Hw, He2.
    rewrite (eq_refl : weight (of_obj o) [] = 0). lia.
Qed.
(** ** A checkpoint written by the worker thread *)

Notation reachable := (reachable insert_object crc32 cfg name uuid vol_bytes).
Notation worker_step := (worker_step insert_object crc32 cfg name uuid vol_bytes).

(** The worker thread writes a checkpoint in state [st]; no object has the next
    number, so the log ends there; and the objects that recovery deletes have
    numbers of 32 bits. *)
Record ckpt_step st D (st' : state) : Prop := {
  cs_reach : reachable st D;
  cs_queue : ∃ z q, p_queue (x_pipe st) = z :: q ∧ t_op z = REQ_CKPT;
  cs_step : worker_step st = Some (Some st');
  cs_fits : table_fits st;
  cs_seq : x_cur_seq st < 2 ^ 31 - 1;
  cs_end : rados_obj (x_store st) (oname name (x_cur_seq st + 1)) = None;
  cs_window : 0 ≤ backend_write_window cfg < 2 ^ 28;
}.

Lemma delete_dangling_other s cp o :
  0 ≤ o ≤ cp → cp < 2 ^ 31 → 0 ≤ backend_write_window cfg < 2 ^ 28 →
  rados_obj (delete_dangling cfg name s cp) (oname name o) = rados_obj s (oname name o).
Proof.
  intros Ho Hcp Hw. unfold delete_dangling. rewrite wrap_u_id by lia.
  assert (∀ i, i ∈ seqZ 1 (backend_write_window cfg * 4 - 1) → 1 ≤ i < 2 ^ 30) as Hr
    by (intros i Hi; apply elem_of_seqZ in Hi; lia).
  revert s Hr. generalize (seqZ 1 (backend_write_window cfg * 4 - 1)). intros l.
  induction l as [|i l IH]; intros s Hr; [done|]. simpl. rewrite IH by set_solver.
  unfold delete_obj. apply rados_remove_other. specialize (Hr i ltac:(left)).
  rewrite wrap_u_id by lia. intros [_ ?]%oname_inj; lia.
Qed.

Lemma ckpt_step_recovers st D st' fuel :
  ckpt_step st D st' →
  let cp := x_cur_seq st in
  let s := delete_dangling cfg name (x_store st') cp in
  inv st D ∧
  (∃ im, recover (Datatypes.S fuel) (x_store st') = Ret (Some (im, s, cp)) ∧
     recovered st (x_checkpoints st') im) ∧
  (∀ c, c ∈ x_checkpoints st' → c ∈ x_checkpoints st ∨ c = cp) ∧
  (∀ o, 0 ≤ o < cp → o ∉ x_checkpoints st →
        rados_obj s (oname name o) = rados_obj (x_store st) (oname name o)).
Proof.
  intros [Hr (z & q & Hq & Hz) Hst Hfits Hseq Hend Hwin] cp s.
  apply reachable_inv in Hr as [Hi _]; [|done..]. pose proof (inv_seq _ _ _ _ Hi) as Hpos.
  unfold Translate.worker_step in Hst. rewrite Hq, Hz in Hst.
  assert (inv (requeue st q (cp + 1)) D) as Hi1 by (eapply dequeue_inv; eauto; [unfold cp; lia|congruence]).
  destruct (write_checkpoint_ok crc32 cfg name uuid vol_bytes (requeue st q (cp + 1)) D cp)
    as (sb & store & Hwc & _ & Hck); auto; [apply Hfits|unfold cp; lia|apply (inv_ckpts _ _ _ _ Hi)|].
  change (dequeue st q true) with (requeue st q (cp + 1)) in Hst. fold cp in Hst.
  rewrite Hwc in Hst. cbn [mbind option_bind] in Hst. apply (inj Some), (inj Some) in Hst.
  subst st'. unfold s. clear s. cbn [x_store x_checkpoints].
  change (x_checkpoints (requeue st q (cp + 1))) with (x_checkpoints st) in *.
  destruct (last_kept (x_checkpoints st) cp) as [Hlast Hlen].
  pose proof (kept_ckpts (x_checkpoints st) cp) as Hkept.
  pose proof Hck as (Hdata & _).
  split; [done|]. split; [|split; [exact Hkept|]].
  - apply (recover_checkpointed (requeue st q (cp + 1))); auto.
    + apply (inv_live _ _ _ _ Hi).
    + apply (inv_sbuf _ _ _ _ Hi).
    + apply Forall_forall. intros c [Hc| ->]%Hkept; [|unfold u32_ok, cp; lia].
      apply (proj1 (Forall_forall _ _) (inv_ckpts _ _ _ _ Hi)) in Hc. unfold u32_ok. lia.
    + rewrite Hdata; [exact Hend|unfold cp; lia|lia|].
      intros Hc. apply (proj1 (Forall_forall _ _) (inv_ckpts _ _ _ _ Hi)) in Hc. unfold cp in Hc. lia.
  - intros o Ho Hni. rewrite delete_dangling_other by (unfold cp in *; lia).
    apply Hdata; [unfold cp in *; lia|lia|done].
Qed.
(** The translation layer of the reopened image *)
Definition reopened (h : heap) (rc : RC) (im : lsvd_image M) s (cp : Z) : state :=
  init_translate cfg h lm_empty (im_objmap im) cp (im_clones im) (im_obj_info im)
    (im_checkpoints im) rc s.

Lemma read_reopened h rc im s cp x :
  read_sector name (reopened h rc im s cp) x =
  match objmap_at (im_objmap im) x with
  | Some oo => b ← rados_obj s (oname name (obj oo)); Some (slice (Z.to_nat (512 * offset oo)) 512 b)
  | None => Some (zeros 512)
  end.
Proof.
  unfold read_sector, reopened, init_translate. cbn [new_put x_pipe x_om x_store p_bufmap om_map].
  unfold bufmap_at. by rewrite (proj2 (lm_empty_ok (M := MB))).
Qed.

(** C9: an image can be reopened from its checkpoint.  After the worker thread
    has written a checkpoint, recovery finds it, restores the object map, the
    object table and the sequence number exactly, and the translation layer
    starts in a state [opened], with the contents of every sector that was not
    waiting in the buffer map.  (With that, [translation_refines_disk] applies
    to the reopened image.) *)
Theorem reopen_from_checkpoint st D st' fuel h rc :
  ckpt_step st D st' →
  ∃ im s, recover (Datatypes.S fuel) (x_store st') = Ret (Some (im, s, x_cur_seq st)) ∧
    recovered st (x_checkpoints st') im ∧
    opened cfg (reopened h rc im s (x_cur_seq st)) ∧
    ∀ x d, D x = Some d → bufmap_at (p_bufmap (x_pipe st)) x = None →
      read_sector name (reopened h rc im s (x_cur_seq st)) x = Some d.
Proof.
  intros Hcs. destruct (ckpt_step_recovers _ _ _ fuel Hcs) as (Hi & (im & Hrec & Him) & Hck & Hobj).
  pose proof Him as (_ & _ & Hcks & Hcl & Hinfo & Hwf & Hat & Hw).
  pose proof (cs_seq _ _ _ Hcs). pose proof (inv_seq _ _ _ _ Hi) as Hpos.
  set (s := delete_dangling _ _ _ _) in *.
  exists im, s. split; [exact Hrec|]. split; [done|]. split.
  - exists h, (im_objmap im), (x_cur_seq st), (im_obj_info im), (im_checkpoints im), rc, s.
    split; [unfold reopened; by rewrite Hcl|]. split; [|split; [lia|split]].
    + split; [done|]. intros o oi. simpl. rewrite Hinfo, Hw. apply (inv_live _ _ _ _ Hi).
    + intros x p. rewrite Hat, Hcks. intros [Ho Hn]%(inv_objs _ _ _ _ Hi). split; [lia|].
      intros [?|?]%Hck; [done|lia].
    + rewrite Hcks. apply Forall_forall. intros c [Hc|?]%Hck; [|lia].
      apply (proj1 (Forall_forall _ _) (inv_ckpts _ _ _ _ Hi)) in Hc. lia.
  - intros x d HD Hb. rewrite read_reopened, Hat.
    pose proof (inv_durable _ _ _ _ Hi x d Hb HD) as Hx.
    destruct (objmap_at (om_map (x_om st)) x) as [oo|] eqn:Eo; [|by subst].
    destruct Hx as (_ & b & Hbo & <-). apply (inv_objs _ _ _ _ Hi) in Eo as [? ?].
    rewrite Hobj by (done || lia). by rewrite Hbo.
Qed.

(** C40: a checkpoint does not wait for the PUTs that precede it.  If it is
    written while the object [r] with the last write of a sector has been sent
    and not stored, and the client stops before it is, the recovered map sends
    the sector to an object that does not exist, and the sector, whatever it
    held before, cannot be read. *)
Theorem checkpoint_ahead_of_data st D st' fuel h rc r n b x p d :
  ckpt_step st D st' → (r, n, b) ∈ p_flight (x_pipe st) →
  rados_obj (x_store st) (oname name (t_seq r)) = None →
  bufmap_at (p_bufmap (x_pipe st)) x = Some p → buf p = t_batch_buf r → D x = Some d →
  ∃ im s k, recover (Datatypes.S fuel) (x_store st') = Ret (Some (im, s, x_cur_seq st)) ∧
    objmap_at (im_objmap im) x = Some (mk_obj_offset (t_seq r) k) ∧
    read_sector name (reopened h rc im s (x_cur_seq st)) x = None.
Proof.
  intros Hcs Hf Hno Hb Hbuf HD.
  destruct (ckpt_step_recovers _ _ _ fuel Hcs) as (Hi & (im & Hrec & Him) & Hck & Hobj).
  pose proof Him as (_ & _ & _ & _ & _ & _ & Hat & _).
  destruct (inv_sent _ _ _ _ Hi r n b x p d Hf Hb Hbuf HD) as (k & Hx & _).
  eexists im, _, k. split; [exact Hrec|]. split; [by rewrite Hat|].
  rewrite read_reopened, Hat, Hx. cbn [obj]. apply (inv_objs _ _ _ _ Hi) in Hx as [? ?]. cbn [obj] in *.
  rewrite Hobj by (done || lia). by rewrite Hno.
Qed.
End reopen.

(** ** Concrete images *)

Local Notation demo_reachable := (reachable demo_insert demo_crc32 get_default "vol" demo_uuid (2 ^ 30)).
Local Notation demo_worker := (worker_step demo_insert demo_crc32 get_default "vol" demo_uuid (2 ^ 30)).
Local Notation demo_ckpt_step := (ckpt_step demo_insert demo_crc32 get_default "vol" demo_uuid (2 ^ 30)).

Local Notation demo_xstate :=
  (@xstate (@ExtMap.Extmap.extmap obj_offset) (@ExtMap.Extmap.extmap sector_ptr) (gmap string bytes) unit).

Lemma demo_no_object o : 1 < o < 16 → rados_obj demo_store (oname "vol" o) = None.
Proof.
  intros Ho. unfold demo_store. cbn [rados_obj gmap_rados]. apply lookup_singleton_ne.
  intros [_ ?]%oname_inj; lia.
Qed.

(** A checkpoint at the head of the queue is written. *)
Lemma demo_ckpt_step_ok (st : demo_xstate) D z q :
  demo_reachable st D → p_queue (x_pipe st) = z :: q → t_op z = REQ_CKPT → table_fits st →
  x_store st = demo_store → 1 ≤ x_cur_seq st < 15 →
  ∃ st', demo_ckpt_step st D st'.
Proof.
  intros Hr Hq Hz Hfits Hst Hseq.
  destruct (reachable_inv _ _ _ _ _ _ demo_cfg_ok (proj1 demo_params) (proj2 demo_params) _ _ Hr) as [Hi _].
  destruct (worker_ckpt_inv demo_crc32 get_default "vol" demo_uuid (2 ^ 30) st D z q)
    as (st' & Hw & _); auto; [apply demo_params|apply demo_params|apply Hfits|lia|congruence|].
  exists st'. split; auto; [by exists z, q| |lia| |done].
  - unfold worker_step. rewrite Hq, Hz, Hw. done.
  - rewrite Hst. apply demo_no_object. lia.
Qed.

Definition demo_ckpt : xstate :=
  with_pipe demo_state (submit get_default REQ_CKPT (x_pipe demo_state)).

Lemma demo_ckpt_reachable : demo_reachable demo_ckpt (read_sector "vol" demo_state).
Proof.
  exists demo_state. split; [apply demo_opened|]. apply rtc_once, step_submit. by right.
Qed.

Lemma demo_table : table_fits demo_ckpt.
Proof.
  unfold table_fits, ckpt_fits. change (x_om demo_ckpt) with (x_om demo_state).
  change (om_map (x_om demo_state)) with demo_map.
  change (om_info (x_om demo_state)) with (om_info demo_om).
  split; [vm_compute; reflexivity|]. split.
  - repeat constructor; vm_compute; intuition discriminate.
  - repeat apply map_Forall_insert_2; [..|apply map_Forall_empty]; unfold info_fits, u32_ok; simpl; lia.
Qed.

Lemma reopen_from_checkpoint_witness :
  ∃ st' (im : lsvd_image (@ExtMap.Extmap.extmap obj_offset)) s, demo_worker demo_ckpt = Some (Some st') ∧
    recover get_default "vol" 1 (x_store st') = Ret (Some (im, s, 3)) ∧
    read_sector "vol" (reopened (MB := @ExtMap.Extmap.extmap sector_ptr) get_default ∅ tt im s 3) 3 =
      Some (replicate 512 5).
Proof.
  destruct (demo_ckpt_step_ok demo_ckpt _ (new_req REQ_CKPT [] []) [] demo_ckpt_reachable)
    as [st' Hcs]; [reflexivity|reflexivity|exact demo_table|reflexivity|change (x_cur_seq demo_ckpt) with 3; lia|].
  destruct (reopen_from_checkpoint _ _ _ _ _ _ demo_cfg_ok (proj1 demo_params) (proj2 demo_params)
              _ _ _ 0 ∅ tt Hcs) as (im & s & Hrec & _ & _ & Hread).
  exists st', im, s. split; [apply Hcs|]. split; [exact Hrec|].
  apply Hread; [exact demo_read|reflexivity].
Defined.

(** The parts of a write and of a batch that do not depend on the memory *)
Lemma writev_inv {MB} {HB : LbaMap MB sector_ptr} cfg (p p' : pipeline MB) off iov :
  let n := Z.of_nat (SmartIov.bytes_of iov) in
  let cur := p_current p in
  writev cfg p off iov = Some p' → room cur n = true →
  ∃ h bm del,
    lm_update (p_bufmap p) (off / 512) ((off + n) / 512)
      (mk_sector_ptr (t_batch_buf cur) (t_data_ptr cur + t_len cur)) = Some (bm, del) ∧
    p' = mk_pipeline h (p_next_buf p) bm
           (mk_translate_req (t_op cur) (t_batch_buf cur) (t_data_ptr cur) (t_len cur + n) (t_max cur)
              (t_gc_data cur) (t_entries cur ++ [new_mapentry (off / 512) (n / 512) 0 0]) (t_seq cur))
           (p_queue p) (p_flight p) (p_outstanding p).
Proof.
  intros n cur. unfold writev. fold n. fold cur. intros Hw Hroom. rewrite Hroom in Hw. fold cur in Hw.
  apply bind_Some in Hw as ([[h r] ptr] & Ha & Hw). unfold append in Ha. fold n in Ha.
  apply bind_Some in Ha as (_ & _ & Ha). apply bind_Some in Ha as (h' & _ & Ha).
  apply (inj Some) in Ha. injection Ha as <- <- <-.
  apply bind_Some in Hw as (_ & _ & Hw). apply bind_Some in Hw as ([bm del] & Hu & Hw).
  apply (inj Some) in Hw. subst p'. by exists h', bm, del.
Qed.

Lemma process_batch_inv {M} {HM : LbaMap M obj_offset} {MB S RC} insert_object crc32 name uuid
    (st st' : @xstate M MB S RC) sq req :
  process_batch insert_object crc32 name uuid st sq req = Some st' →
  ∃ om dm h n b,
    batch_objmap sq (batch_hdr_sectors (length (t_entries req))) (t_len req / 512) (t_entries req)
      (x_om st) = Some (om, dm) ∧
    x_om st' = om ∧ x_pipe st' = aio_write (x_pipe st) h (with_seq req sq (t_entries req)) n b ∧
    x_cur_seq st' = x_cur_seq st ∧ x_store st' = x_store st ∧ x_checkpoints st' = x_checkpoints st.
Proof.
  unfold process_batch. intros ([om dm] & Hom & Hp)%bind_Some.
  apply bind_Some in Hp as (? & _ & Hp). apply bind_Some in Hp as (h & _ & Hp).
  apply bind_Some in Hp as (pf & _ & Hp). apply bind_Some in Hp as (b & _ & Hp).
  apply (inj Some) in Hp. subst st'. by exists om, dm, h, (oname pf sq), b.
Qed.

(** The object map after a page has been written at sector 8 as object 3 *)
Definition demo_om' : omap (@ExtMap.Extmap.extmap obj_offset) :=
  Eval vm_compute in
    match batch_objmap 3 8 8 [mk_ckpt_mapentry 8 8 0 0] demo_om with
    | Some (om, _) => om
    | None => demo_om
    end.

Lemma demo_table' (st : demo_xstate) : x_om st = demo_om' → table_fits st.
Proof.
  intros Hom. unfold table_fits, ckpt_fits. rewrite Hom.
  split; [vm_compute; reflexivity|]. split.
  - repeat constructor; vm_compute; intuition discriminate.
  - apply map_Forall_to_list. apply (bool_decide_unpack _). vm_compute. exact I.
Qed.

(** The pipeline after the write *)
Definition demo_cur : translate_req :=
  mk_translate_req REQ_PUT 1 (max_hdr_bytes get_default) 4096 (backend_obj_bytes get_default) []
    [mk_ckpt_mapentry 8 8 0 0] 0.

Definition demo_written_map : option (@ExtMap.Extmap.extmap sector_ptr) :=
  fst <$> lm_update (lm_empty (M := @ExtMap.Extmap.extmap sector_ptr)) 8 16
            (mk_sector_ptr 1 (max_hdr_bytes get_default)).

Lemma demo_write :
  ∃ h bm D, let p := mk_pipeline h 2 bm demo_cur [] [] 0 in
    demo_reachable (with_pipe demo_state p) D ∧ D 8 = Some (replicate 512 7) ∧
    bufmap_at bm 8 = Some (mk_sector_ptr 1 (max_hdr_bytes get_default)).
Proof.
  destruct demo_written as (p & Hw & Hr).
  destruct (writev_inv _ _ _ _ _ Hw eq_refl) as (h & bm & del & Hbm & Hp).
  assert (p = mk_pipeline h 2 bm demo_cur [] [] 0) as -> by (rewrite Hp; reflexivity).
  eexists h, bm, _. split; [exact Hr|]. split.
  { unfold disk_write. change (in_range 8 (8 + 8) 8) with true. cbv iota. vm_compute. reflexivity. }
  assert (demo_written_map = Some bm) as Hb by (unfold demo_written_map; exact (f_equal (fmap fst) Hbm)).
  assert ((λ m, bufmap_at m 8) <$> demo_written_map = Some (Some (mk_sector_ptr 1 (max_hdr_bytes get_default))))
    as Hat by (vm_compute; reflexivity).
  rewrite Hb in Hat. by apply (inj Some) in Hat.
Qed.

(** The page has been sent as object 3, and a checkpoint is next in the queue. *)
Lemma demo_sent :
  ∃ (st : demo_xstate) D n b z,
    let r := with_seq demo_cur 3 (t_entries demo_cur) in
    demo_reachable st D ∧ p_queue (x_pipe st) = [z] ∧
    t_op z = REQ_CKPT ∧ table_fits st ∧ x_store st = demo_store ∧ x_cur_seq st = 4 ∧
    p_flight (x_pipe st) = [(r, n, b)] ∧
    bufmap_at (p_bufmap (x_pipe st)) 8 = Some (mk_sector_ptr 1 (max_hdr_bytes get_default)) ∧
    D 8 = Some (replicate 512 7).
Proof.
  destruct demo_write as (h & bm & D & Hr & HD & Hbm). set (p := mk_pipeline h 2 bm demo_cur [] [] 0) in Hr.
  set (st1 := with_pipe (with_pipe demo_state p) (submit get_default REQ_CKPT p)).
  assert (demo_reachable st1 D) as Hr1.
  { destruct Hr as (st0 & Ho & Hs). exists st0. split; [done|]. eapply rtc_r; [exact Hs|].
    apply (step_submit _ _ _ _ _ _ (with_pipe demo_state p) D REQ_CKPT). by right. }
  destruct (reachable_inv _ _ _ _ _ _ demo_cfg_ok (proj1 demo_params) (proj2 demo_params) _ _ Hr1) as [Hi _].
  assert (p_queue (x_pipe st1) = [demo_cur; new_req REQ_CKPT [] []]) as Hq by reflexivity.
  destruct (worker_put_inv demo_insert demo_crc32 get_default "vol" demo_uuid st1 D demo_cur
              [new_req REQ_CKPT [] []] demo_cfg_ok (proj1 demo_params) Hi Hq eq_refl) as (st & Hb & _).
  { change (x_cur_seq st1) with 3. lia. }
  pose proof Hb as Hb'. apply process_batch_inv in Hb' as (om & dm & h' & n & b & Hom & Hxom & Hxp & Hxs & Hst & _).
  change (batch_objmap 3 8 8 [mk_ckpt_mapentry 8 8 0 0] demo_om = Some (om, dm)) in Hom.
  assert (x_om st = demo_om') as Hom'.
  { rewrite Hxom. apply (inj Some). transitivity (fst <$> Some (om, dm)); [done|]. rewrite <- Hom.
    vm_compute. reflexivity. }
  exists st, D, n, b, (new_req REQ_CKPT [] []).
  split; [|by rewrite Hxp, Hxs; split_and!; auto using demo_table'].
  destruct Hr1 as (st0 & Ho & Hs). exists st0. split; [done|]. eapply rtc_r; [exact Hs|].
  apply step_worker; [change (x_cur_seq st1) with 3; lia|apply demo_table|].
  unfold worker_step. rewrite Hq. cbn [t_op demo_cur]. by rewrite Hb.
Qed.

Lemma checkpoint_ahead_of_data_witness :
  ∃ (st st' : demo_xstate) (im : lsvd_image (@ExtMap.Extmap.extmap obj_offset)) s,
    demo_worker st = Some (Some st') ∧
    recover get_default "vol" 1 (x_store st') = Ret (Some (im, s, 4)) ∧
    read_sector "vol" (reopened (MB := @ExtMap.Extmap.extmap sector_ptr) get_default ∅ tt im s 4) 8 = None.
Proof.
  destruct demo_sent as (st & D & n & b & z & Hr & Hq & Hz & Hfits & Hst & Hseq & Hf & Hbm & HD).
  destruct (demo_ckpt_step_ok st D z [] Hr Hq Hz Hfits Hst) as [st' Hcs]; [lia|].
  destruct (checkpoint_ahead_of_data demo_insert demo_crc32 get_default "vol" demo_uuid (2 ^ 30) demo_cfg_ok (proj1 demo_params) (proj2 demo_params)
              st D st' 0 ∅ tt (with_seq demo_cur 3 (t_entries demo_cur)) n b 8
              (mk_sector_ptr 1 (max_hdr_bytes get_default)) (replicate 512 7))
    as (im & s & k & Hrec & _ & Hread); [exact Hcs| | |exact Hbm|reflexivity|exact HD|].
  - rewrite Hf. left.
  - rewrite Hst. apply demo_no_object. simpl. lia.
  - exists st, st', im, s. rewrite Hseq in *. split; [apply Hcs|]. split; [exact Hrec|exact Hread].
Defined.
