(* ===== verification/Manage.v ===== *)
(** * Creating, opening and deleting images

    What the static operations of [lsvd_image] leave in the backend: a created
    image recovers as an empty one, whatever was written to it, until its first
    checkpoint; a deleted image leaves its data behind. *)

From S2P Require Import Prelude Bytes Extent ExtMapFlat ExtMapSpec Memory SmartIov LsvdTypes Backend.
From S2P Require Import Objects Serialise DataObject Config Translate Accounting Pipeline Refine.
From S2P Require Import Image Recovery Reopen.

Section manage.
Context {M : Type} {HM : LbaMap M obj_offset}.
Context {MB : Type} {HB : LbaMap MB sector_ptr}.
Context {S : Type} {HS : Rados S} {HSok : RadosOk S}.
Context {RC : Type}.
Variable cfg : lsvd_config.
Variable name : string.
Implicit Types (s be : S).

(** ** Creation *)

(** A created image opens empty, and so does every image that has not
    written a checkpoint: as long as the superblock is the one of [create_new],
    recovery returns an empty map and sequence number 0 without looking at any
    data object, so the sectors of everything written and flushed before the
    first checkpoint read as zeros after a crash. *)
Theorem create_new_recovers uuid size s s1 rc s2 fuel h (cache : RC) :
  uuid_ok uuid → 0 ≤ size < 2 ^ 64 →
  create_new name size uuid s = Some (rc, s1) → rados_obj s2 name = rados_obj s1 name →
  rc = 0 ∧
  ∃ im : lsvd_image M, recover cfg name fuel s2 = Ret (Some (im, s2, 0)) ∧
    im_size im = size / 512 * 512 ∧ im_uuid im = uuid ∧ im_checkpoints im = [] ∧
    im_obj_info im = ∅ ∧
    let st : xstate := reopened (MB := MB) cfg h cache im s2 0 in
    opened cfg st ∧ x_cur_seq st = 1 ∧ ∀ x, read_sector name st x = Some (zeros 512).
Proof.
  intros Hu Hsz Hc Hs2. unfold create_new in Hc.
  destruct (serialise_superblock (zeros 4096) [] [] uuid size) as [sb|] eqn:Hsb; [|done].
  cbn [mbind option_bind] in Hc. unfold write in Hc. injection Hc as <- <-. split; [done|].
  rewrite rados_write_same in Hs2. destruct (lm_empty_ok (M := M)) as [He1 He2].
  exists (mk_image (size / 512 * 512) uuid [] [] ∅ lm_empty). split.
  { unfold recover, load_superblock.
    rewrite (read_superblock_back s2 name (zeros 4096) [] uuid size sb
               (drop (length sb) (default [] (rados_obj s name))));
      [done|done|constructor|simpl; lia|done|apply zeros_clones_len|done|exact Hs2]. }
  do 4 (split; [done|]). split; [|split; [done|]].
  - exists h, lm_empty, 0, ∅, [], cache, s2. split; [done|]. split; [|split; [lia|split; [|constructor]]].
    + split; [done|]. intros o oi. simpl. by rewrite lookup_empty.
    + intros x p. unfold objmap_at. by rewrite He2.
  - intros x. rewrite read_reopened. cbn [im_objmap]. unfold objmap_at. by rewrite He2.
Qed.

(** ** Deletion *)

Lemma delete_ckpts_ok ckpts : ∀ be seq,
  NoDup ckpts → Forall u32_ok ckpts →
  Forall (λ c, is_Some (rados_obj be (oname name c))) ckpts →
  ∃ be', delete_ckpts name ckpts seq be = inr (be', default seq (last ckpts)) ∧
    (∀ n, (∀ c, c ∈ ckpts → oname name c ≠ n) → rados_obj be' n = rados_obj be n).
Proof.
  induction ckpts as [|c ckpts IH]; intros be seq Hnd Hu Hin; [by exists be|].
  apply NoDup_cons in Hnd as [Hc Hnd]. apply Forall_cons in Hu as [Huc Hu].
  apply Forall_cons in Hin as [[b Hb] Hin]. simpl.
  pose proof (rados_remove_ret be (oname name c)) as Hret. rewrite Hb in Hret.
  unfold delete_obj. destruct (rados_remove be (oname name c)) as [rc be1] eqn:E. simpl in Hret.
  subst rc. simpl.
  assert (∀ n, oname name c ≠ n → rados_obj be1 n = rados_obj be n) as Hoth.
  { intros n Hn. pose proof (rados_remove_other be (oname name c) n Hn) as H1. by rewrite E in H1. }
  destruct (IH be1 c Hnd Hu) as (be' & -> & Hn).
  { apply Forall_forall. intros c' Hc'. rewrite Hoth.
    - exact (proj1 (Forall_forall _ _) Hin c' Hc').
    - intros [_ ->]%oname_inj; [done|apply Huc|]. exact (proj1 (Forall_forall _ _) Hu c' Hc'). }
  exists be'. split; [by rewrite last_cons; destruct (last ckpts)|].
  intros n Hdis. rewrite Hn by (intros; apply Hdis; by right). apply Hoth, Hdis. left.
Qed.

(** The loop stops at the first sixteen missing numbers and deletes nothing
    below its start. *)
Lemma delete_run_ok limit fuel : ∀ seq n be,
  (∀ o, limit ≤ o < limit + 16 → rados_obj be (oname name o) = None) →
  limit + 16 < 2 ^ 32 → 0 ≤ seq ≤ limit + 16 → 0 ≤ n → seq - limit ≤ n →
  (Z.to_nat (limit + 16 - seq) ≤ fuel)%nat →
  ∃ be', delete_run fuel name seq n be = Some be' ∧
    (∀ nm, (∀ o, seq ≤ o < 2 ^ 32 → oname name o ≠ nm) → rados_obj be' nm = rados_obj be nm).
Proof.
  induction fuel as [|fuel IH]; intros seq n be Hnone Hlim Hseq Hn Hsn Hf; simpl.
  { rewrite (proj2 (Z.ltb_ge _ _)) by lia. by exists be. }
  destruct (n <? 16) eqn:E; zb; [|by exists be].
  pose proof (rados_remove_ret be (oname name seq)) as Hret.
  unfold delete_obj. destruct (rados_remove be (oname name seq)) as [rc be1] eqn:Er. simpl in Hret.
  assert (∀ m, oname name seq ≠ m → rados_obj be1 m = rados_obj be m) as Hoth.
  { intros m Hm. pose proof (rados_remove_other be (oname name seq) m Hm) as H1. by rewrite Er in H1. }
  assert (∀ o, limit ≤ o < limit + 16 → rados_obj be1 (oname name o) = None) as Hnone1.
  { intros o Ho. destruct (decide (oname name seq = oname name o)) as [<-|Hne].
    - pose proof (rados_remove_same be (oname name seq)) as H1. by rewrite Er in H1.
    - rewrite Hoth by done. auto. }
  assert (limit ≤ seq → rc < 0) as Hrc.
  { intros Hl. rewrite Hret, Hnone by lia. unfold ENOENT. lia. }
  destruct (IH (wrap_u 32 (seq + 1)) ((if 0 <=? rc then 0 else n) + 1) be1) as (be' & -> & Hkeep);
    try rewrite wrap_u_id by lia; try done; try lia.
  { destruct (0 <=? rc); lia. }
  { destruct (0 <=? rc) eqn:E0; zb; lia. }
  exists be'. split; [done|]. intros nm Hnm. rewrite Hkeep.
  - apply Hoth, Hnm. lia.
  - intros o Ho. rewrite wrap_u_id in Ho by lia. apply Hnm. lia.
Qed.

(** Deleting an image leaves its data behind.  [delete_image] removes the
    superblock, the checkpoints and the objects that follow the last checkpoint,
    but every data object numbered below the last checkpoint stays in the pool
    under its name. *)
Theorem delete_image_leaves_data be sb ckpts c limit indet fuel :
  Serialise.read_superblock be name = Ret (Some sb) → ps_ckpts sb = ckpts ++ [c] →
  NoDup (ckpts ++ [c]) → Forall u32_ok (ckpts ++ [c]) →
  Forall (λ c, is_Some (rados_obj be (oname name c))) (ckpts ++ [c]) →
  (∀ o, limit ≤ o < limit + 16 → rados_obj be (oname name o) = None) →
  c ≤ limit → limit + 16 < 2 ^ 32 → (Z.to_nat (limit + 16 - c) ≤ fuel)%nat →
  is_Some (rados_obj be name) →
  ∃ be', delete_image fuel indet name be = Ret (Some (0, be')) ∧ rados_obj be' name = None ∧
    ∀ o, 0 ≤ o < c → o ∉ ckpts →
      rados_obj be' (oname name o) = rados_obj be (oname name o).
Proof.
  intros Hsb Hck Hnd Hu Hin Hnone Hcl Hlim Hfuel [b Hb]. unfold delete_image. rewrite Hsb.
  cbn [mbind outcome_bind]. rewrite Hck.
  destruct (delete_ckpts_ok (ckpts ++ [c]) be indet Hnd Hu Hin) as (be1 & -> & Hk1).
  rewrite last_snoc. change (default indet (Some c)) with c.
  assert (u32_ok c) as Huc by (apply (proj1 (Forall_forall _ _) Hu c); apply elem_of_app; right; left).
  unfold u32_ok in Huc.
  destruct (delete_run_ok limit fuel c 0 be1) as (be2 & -> & Hk2); try lia.
  { intros o Ho. rewrite Hk1; [auto|]. intros c' Hc' Heq.
    assert (is_Some (rados_obj be (oname name c'))) as [? Hs]
      by exact (proj1 (Forall_forall _ _) Hin c' Hc').
    rewrite Heq, Hnone in Hs by done. done. }
  cbn [mbind option_bind id]. unfold delete_obj.
  pose proof (rados_remove_ret be2 name) as Hret. pose proof (rados_remove_same be2 name) as Hsame.
  assert (∀ n, name ≠ n → rados_obj (rados_remove be2 name).2 n = rados_obj be2 n) as Hoth
    by (intros n; apply rados_remove_other).
  rewrite Hk2, Hk1, Hb in Hret by (intros; apply oname_ne).
  destruct (rados_remove be2 name) as [r be3]. simpl in Hret, Hsame, Hoth. subst r.
  exists be3. split; [done|]. split; [done|]. intros o Ho Hni.
  rewrite Hoth by apply not_eq_sym, oname_ne. rewrite Hk2, Hk1; [done| |].
  - intros c' Hc' [_ ->]%oname_inj; [|exact (proj1 (Forall_forall _ _) Hu c' Hc')|lia].
    apply elem_of_app in Hc' as [?|?%list_elem_of_singleton]; [done|lia].
  - intros o' Ho' [_ ->]%oname_inj; lia.
Qed.
End manage.

(** ** Concrete images *)

Local Notation demo_map_type := (@ExtMap.Extmap.extmap obj_offset).

(** A created image to which object 1 has been written *)
Lemma create_new_recovers_witness :
  ∃ s1 (im : lsvd_image demo_map_type), create_new "vol" (2 ^ 30) (zeros 16) (∅ : gmap string bytes) = Some (0, s1) ∧
    let s2 := <[oname "vol" 1 := replicate 1024 5]> s1 in
    recover get_default "vol" 0 s2 = Ret (Some (im, s2, 0)) ∧ im_size im = 2 ^ 30 ∧
    read_sector "vol" (reopened (MB := @ExtMap.Extmap.extmap sector_ptr) get_default ∅ tt im s2 0) 0 =
      Some (zeros 512).
Proof.
  destruct (create_new "vol" (2 ^ 30) (zeros 16) (∅ : gmap string bytes)) as [[rc s1]|] eqn:E;
    [|vm_compute in E; discriminate].
  destruct (create_new_recovers (M := demo_map_type) (MB := @ExtMap.Extmap.extmap sector_ptr) get_default "vol"
              (zeros 16) (2 ^ 30) ∅ s1 rc (<[oname "vol" 1 := replicate 1024 5]> s1) 0 ∅ tt)
    as (-> & im & Hr & Hs & _ & _ & _ & _ & _ & Hread); [reflexivity|lia|exact E| |].
  - cbn [rados_obj gmap_rados]. apply lookup_insert_ne. apply oname_ne.
  - exists s1, im. split; [done|]. split; [exact Hr|]. split; [by rewrite Hs|]. apply Hread.
Defined.

(** An image whose only checkpoint is object 2, with a data object 1 *)
Definition demo_deletable : gmap string bytes :=
  <["vol" := default [] (serialise_superblock (zeros 4096) [2] [] (zeros 16) (2 ^ 30))]>
    (<[oname "vol" 1 := replicate 1024 5]> {[oname "vol" 2 := replicate 512 6]}).

Lemma demo_deletable_at o :
  0 ≤ o < 2 ^ 32 →
  rados_obj demo_deletable (oname "vol" o) =
  if decide (o = 1) then Some (replicate 1024 5) else if decide (o = 2) then Some (replicate 512 6) else None.
Proof.
  intros Ho. unfold demo_deletable. cbn [rados_obj gmap_rados].
  rewrite lookup_insert_ne by apply not_eq_sym, oname_ne.
  destruct (decide (o = 1)) as [->|H1]; [apply lookup_insert_eq|].
  rewrite lookup_insert_ne by (intros [_ ?]%oname_inj; lia).
  destruct (decide (o = 2)) as [->|H2]; [apply lookup_singleton_eq|].
  apply lookup_singleton_ne. intros [_ ?]%oname_inj; lia.
Qed.

Lemma delete_image_leaves_data_witness :
  ∃ be, delete_image 17 99 "vol" demo_deletable = Ret (Some (0, be)) ∧
    rados_obj be (oname "vol" 1) = Some (replicate 1024 5).
Proof.
  destruct (serialise_superblock (zeros 4096) [2] [] (zeros 16) (2 ^ 30)) as [sb|] eqn:E;
    [|vm_compute in E; discriminate].
  assert (rados_obj demo_deletable "vol" = Some (sb ++ [])) as Hobj.
  { unfold demo_deletable. rewrite E, app_nil_r. cbn [rados_obj gmap_rados]. apply lookup_insert_eq. }
  destruct (delete_image_leaves_data "vol" demo_deletable
              (mk_parsed_superblock (2 ^ 30 / 512 * 512) [2] [] [] (zeros 16)) [] 2 3 99 17)
    as (be & Hd & _ & Hk).
  - apply (read_superblock_back demo_deletable "vol" (zeros 4096) [2] (zeros 16) (2 ^ 30) sb []);
      [reflexivity|repeat constructor; discriminate|simpl; lia|lia|apply zeros_clones_len|exact E|exact Hobj].
  - reflexivity.
  - apply NoDup_singleton.
  - repeat constructor; discriminate.
  - apply Forall_singleton. rewrite demo_deletable_at by lia. by eexists.
  - intros o Ho. rewrite demo_deletable_at by lia. rewrite !decide_False by lia. done.
  - lia.
  - lia.
  - simpl. lia.
  - rewrite Hobj. by eexists.
  - exists be. split; [exact Hd|]. rewrite Hk by (lia || apply not_elem_of_nil).
    by rewrite demo_deletable_at by lia.
Defined.
