(* ===== verification/ReadCache.v ===== *)
(** * The read cache (src/src/shared_read_cache.cc)

    A shard is a table of chunks backed by a file, a map from object blocks to
    chunks, and a clock hand for eviction.  Requests outlive the call that makes
    them; each has an identifier, and the functions below are the critical
    sections of its life: [run], the completion of the backend read, the
    dispatch of the reads that wait for it, the completion of the cache write.
    [None] is a failed assertion, an access outside an allocation, or a clock
    hand that has not stopped within the fuel. *)

From Stdlib Require Import String.
From S2P Require Import Prelude Bytes Extent Memory SmartIov LsvdTypes WriteCache ReadPath.

(** [CACHE_HEADER_SIZE], [chunk_key] *)
Definition CACHE_HEADER_SIZE : Z := 4096.
Definition chunk_key : Type := string * Z * Z.

(** [enum entry_status] *)
Inductive entry_status := EMPTY | FETCHING | FILLING | VALID.

#[export] Instance entry_status_eq_dec : EqDecision entry_status.
Proof. solve_decision. Defined.

(** [struct entry_state]; buffers and requests are known by number. *)
Record entry_state := mk_entry {
  status : entry_status;
  accessed : bool;
  refcount : Z;
  pending_fill_data : option Z;
  pending_reads : list Z;
  key : chunk_key;
}.

Definition new_entry : entry_state := mk_entry EMPTY false 0 None [] (EmptyString, 0, 0).

Definition with_status (e : entry_state) (s : entry_status) : entry_state :=
  mk_entry s (accessed e) (refcount e) (pending_fill_data e) (pending_reads e) (key e).
Definition with_accessed (e : entry_state) (a : bool) : entry_state :=
  mk_entry (status e) a (refcount e) (pending_fill_data e) (pending_reads e) (key e).
Definition add_ref (e : entry_state) (n : Z) : entry_state :=
  mk_entry (status e) (accessed e) (refcount e + n) (pending_fill_data e) (pending_reads e) (key e).
Definition with_reads (e : entry_state) (rs : list Z) : entry_state :=
  mk_entry (status e) (accessed e) (refcount e) (pending_fill_data e) rs (key e).

(** Where a [cache_miss_request] is: made, running, serving the reads that wait
    for it, or writing the chunk to the cache. *)
Inductive miss_stage := Made | Running | Dispatching (reqs : list Z) | Storing.

(** The four classes of requests *)
Inductive cache_req :=
| PendingRead (chunk : nat) (adjust : Z) (dest : SmartIov.smartiov) (has_parent is_backend_done : bool)
| CacheHit (chunk : nat) (offset : Z) (dest : SmartIov.smartiov) (running : bool)
| CacheMiss (chunk : nat) (k : chunk_key) (buf adjust : Z) (dest : SmartIov.smartiov) (stage : miss_stage)
| CacheInsert (chunk : nat) (k : chunk_key) (buf : Z).

(** The rolling statistics: the last samples, newest first. *)
Record cache_stats := mk_stats {
  total_requests : Z;
  hitrate_stats : list Z;
  user_bytes : list Z;
  backend_bytes : list Z;
}.

Definition CACHE_STATS_WINDOW : nat := 10000.
Definition sample (x : Z) (l : list Z) : list Z := take CACHE_STATS_WINDOW (x :: l).

Definition record_stats (s : cache_stats) (hit user backend : Z) : cache_stats :=
  mk_stats (total_requests s) (sample hit (hitrate_stats s)) (sample user (user_bytes s))
    (sample backend (backend_bytes s)).
Definition count_request (s : cache_stats) : cache_stats :=
  mk_stats (wrap_s 32 (total_requests s + 1)) (hitrate_stats s) (user_bytes s) (backend_bytes s).

(** [class shared_read_cache]: [sc_reqs] are the requests in existence,
    [sc_file] the cache file. *)
Record shared_read_cache := mk_cache {
  sc_entries : list entry_state;
  sc_map : gmap chunk_key nat;
  sc_clock : nat;
  sc_reqs : gmap Z cache_req;
  sc_next : Z;
  sc_file : bytes;
  sc_stats : cache_stats;
}.

(** The memory of the process and the number of its next allocation *)
Record memory := mk_memory { m_heap : heap; m_next : Z }.

Definition size_in_chunks (sc : shared_read_cache) : nat := length (sc_entries sc).
Definition chunk_bytes : nat := Z.to_nat CACHE_CHUNK_SIZE.
#[global] Arguments chunk_bytes : simpl never.

(** The constructor *)
Definition new_cache (num_cache_blocks : nat) : shared_read_cache :=
  mk_cache (replicate num_cache_blocks new_entry) ∅ 0 ∅ 0
    (zeros (chunk_bytes * num_cache_blocks + Z.to_nat CACHE_HEADER_SIZE)) (mk_stats 0 [] [] []).

Definition with_entry (sc : shared_read_cache) (i : nat) (e : entry_state) : shared_read_cache :=
  mk_cache (<[i := e]> (sc_entries sc)) (sc_map sc) (sc_clock sc) (sc_reqs sc) (sc_next sc)
    (sc_file sc) (sc_stats sc).
Definition with_reqs (sc : shared_read_cache) (rs : gmap Z cache_req) : shared_read_cache :=
  mk_cache (sc_entries sc) (sc_map sc) (sc_clock sc) rs (sc_next sc) (sc_file sc) (sc_stats sc).
Definition with_stats (sc : shared_read_cache) (s : cache_stats) : shared_read_cache :=
  mk_cache (sc_entries sc) (sc_map sc) (sc_clock sc) (sc_reqs sc) (sc_next sc) (sc_file sc) s.

(** [new] of a request *)
Definition new_request (sc : shared_read_cache) (r : cache_req) : shared_read_cache * Z :=
  (mk_cache (sc_entries sc) (sc_map sc) (sc_clock sc) (<[sc_next sc := r]> (sc_reqs sc))
     (sc_next sc + 1) (sc_file sc) (sc_stats sc), sc_next sc).

(** [get_store_offset_for_chunk] *)
Definition get_store_offset_for_chunk (idx : nat) : Z :=
  Z.of_nat idx * CACHE_CHUNK_SIZE + CACHE_HEADER_SIZE.

(** ** Allocation of chunks *)

(** "search for the first empty or evictable entry" *)
Fixpoint clock_search (fuel : nat) (es : list entry_state) (idx : nat)
    : option (list entry_state * nat) :=
  e ← es !! idx;
  if bool_decide (status e = EMPTY) || ((refcount e =? 0) && negb (accessed e)) then Some (es, idx)
  else
    match fuel with
    | O => None
    | S fuel =>
      let es := if refcount e =? 0 then <[idx := with_accessed e false]> es else es in
      clock_search fuel es ((idx + 1) mod length es)%nat
    end.

(** [allocate_chunk] *)
Definition allocate_chunk (fuel : nat) (sc : shared_read_cache) : option (shared_read_cache * nat) :=
  '(es, idx) ← clock_search fuel (sc_entries sc) (sc_clock sc);
  e ← es !! idx;
  _ ← assert (bool_decide (pending_fill_data e = None));
  _ ← assert (bool_decide (pending_reads e = []));
  Some (mk_cache (<[idx := with_status e EMPTY]> es) (delete (key e) (sc_map sc))
          ((idx + 1) mod length es)%nat (sc_reqs sc) (sc_next sc) (sc_file sc) (sc_stats sc), idx).

(** [cache_map.insert]: an existing entry stays. *)
Definition map_insert (m : gmap chunk_key nat) (k : chunk_key) (i : nat) : gmap chunk_key nat :=
  match m !! k with Some _ => m | None => <[k := i]> m end.

(** The new entry of a miss or an insertion *)
Definition claim (sc : shared_read_cache) (idx : nat) (e : entry_state) (k : chunk_key)
    : shared_read_cache :=
  mk_cache (<[idx := e]> (sc_entries sc)) (map_insert (sc_map sc) k idx) (sc_clock sc) (sc_reqs sc)
    (sc_next sc) (sc_file sc) (sc_stats sc).

(** [aligned_alloc] *)
Definition alloc_buf (m : memory) : memory * Z :=
  (mk_memory (malloc (m_heap m) (m_next m) chunk_bytes) (m_next m + 1), m_next m).

(** ** Reads *)

(** "Cache miss path" *)
Definition read_miss (fuel : nat) (sc : shared_read_cache) (m : memory) (k : chunk_key)
    (adjust : Z) (dest : SmartIov.smartiov) : option (shared_read_cache * memory * option Z) :=
  let req_size := Z.of_nat (SmartIov.bytes_of dest) in
  let sc := with_stats sc (record_stats (sc_stats sc) 0 req_size CACHE_CHUNK_SIZE) in
  let '(m, buf) := alloc_buf m in
  '(sc, idx) ← allocate_chunk fuel sc;
  e ← sc_entries sc !! idx;
  let e := mk_entry FETCHING (accessed e) (refcount e + 1) (Some buf) (pending_reads e) k in
  let '(sc, id) := new_request (claim sc idx e k) (CacheMiss idx k buf adjust dest Made) in
  Some (sc, m, Some id).

(** [make_read_req]; no request is a null pointer. *)
Definition make_read_req (fuel : nat) (sc : shared_read_cache) (m : memory) (c : read_call)
    : option (shared_read_cache * memory * option Z) :=
  let k := (rc_prefix c, rc_obj c, rc_offset c) in
  let req_size := Z.of_nat (SmartIov.bytes_of (rc_dest c)) in
  _ ← assert (rc_offset c mod CACHE_CHUNK_SIZE =? 0);
  _ ← assert (rc_adjust c + req_size <=? CACHE_CHUNK_SIZE);
  let sc := with_stats sc (count_request (sc_stats sc)) in
  match sc_map sc !! k with
  | Some idx =>
    let sc := with_stats sc (record_stats (sc_stats sc) 1 req_size 0) in
    e ← sc_entries sc !! idx;
    _ ← assert (negb (bool_decide (status e = EMPTY)));
    let e := with_accessed (add_ref e 1) true in
    match status e with
    | VALID =>
      let '(sc, id) := new_request (with_entry sc idx e)
                         (CacheHit idx (get_store_offset_for_chunk idx + rc_adjust c) (rc_dest c) false) in
      Some (sc, m, Some id)
    | FILLING =>
      buf ← pending_fill_data e;
      h ← SmartIov.copy_in (m_heap m) (rc_dest c) (buf, rc_adjust c);
      Some (with_entry sc idx (add_ref e (-1)), mk_memory h (m_next m), None)
    | FETCHING =>
      let '(sc, id) := new_request sc (PendingRead idx (rc_adjust c) (rc_dest c) false false) in
      Some (with_entry sc idx (with_reads e (pending_reads e ++ [id])), m, Some id)
    | EMPTY => None
    end
  | None => read_miss fuel sc m k (rc_adjust c) (rc_dest c)
  end.

(** [dec_chunk_refcount] *)
Definition dec_chunk_refcount (sc : shared_read_cache) (idx : nat) : option shared_read_cache :=
  e ← sc_entries sc !! idx;
  _ ← assert (0 <? refcount e);
  Some (with_entry sc idx (add_ref e (-1))).

(** [get_chunk_status], [set_chunk_status] *)
Definition get_chunk_status (sc : shared_read_cache) (idx : nat) : option entry_status :=
  status <$> sc_entries sc !! idx.
Definition set_chunk_status (sc : shared_read_cache) (idx : nat) (s : entry_status)
    : option shared_read_cache :=
  e ← sc_entries sc !! idx; Some (with_entry sc idx (with_status e s)).

(** [on_store_done] *)
Definition on_store_done (sc : shared_read_cache) (idx : nat) : option shared_read_cache :=
  e ← sc_entries sc !! idx;
  Some (with_entry sc idx (mk_entry VALID (accessed e) (refcount e - 1) None (pending_reads e) (key e))).

(** [run] of a request, once; the flag says that its parent has been
    notified. *)
Definition run (sc : shared_read_cache) (id : Z) : option (shared_read_cache * bool) :=
  match sc_reqs sc !! id with
  | Some (PendingRead chunk adjust dest false done) =>
    if done then Some (with_reqs sc (delete id (sc_reqs sc)), true)
    else Some (with_reqs sc (<[id := PendingRead chunk adjust dest true done]> (sc_reqs sc)), false)
  | Some (CacheHit chunk offset dest false) =>
    Some (with_reqs sc (<[id := CacheHit chunk offset dest true]> (sc_reqs sc)), false)
  | Some (CacheMiss chunk k buf adjust dest Made) =>
    sc ← set_chunk_status sc chunk FETCHING;
    Some (with_reqs sc (<[id := CacheMiss chunk k buf adjust dest Running]> (sc_reqs sc)), false)
  | _ => None
  end.

(** [cache_hit_request::notify], when the read of the cache file has put its
    data into [dest] *)
Definition hit_done (sc : shared_read_cache) (m : memory) (id : Z)
    : option (shared_read_cache * memory) :=
  match sc_reqs sc !! id with
  | Some (CacheHit chunk offset dest true) =>
    let '(_, bs) := dev_read (sc_file sc) (Z.to_nat offset) (SmartIov.bytes_of dest) in
    h ← write_cells (m_heap m) (SmartIov.cells dest) bs;
    sc ← dec_chunk_refcount sc chunk;
    Some (with_reqs sc (delete id (sc_reqs sc)), mk_memory h (m_next m))
  | _ => None
  end.

(** [pending_read_request::on_backend_done]; the flag says that its parent has
    been notified. *)
Definition pending_done (sc : shared_read_cache) (m : memory) (id : Z) (buf : Z)
    : option (shared_read_cache * memory * bool) :=
  match sc_reqs sc !! id with
  | Some (PendingRead chunk adjust dest has_parent _) =>
    h ← SmartIov.copy_in (m_heap m) dest (buf, adjust);
    sc ← dec_chunk_refcount sc chunk;
    let rs := if has_parent then delete id (sc_reqs sc)
              else <[id := PendingRead chunk adjust dest has_parent true]> (sc_reqs sc) in
    Some (with_reqs sc rs, mk_memory h (m_next m), has_parent)
  | _ => None
  end.

(** The completion of the backend read and the critical section of
    [cache_miss_request::on_backend_done].  [obj] is the object at that time: the
    read stores what there is of the block in the buffer; its return value is
    not looked at. *)
Definition backend_done (sc : shared_read_cache) (m : memory) (id : Z) (obj : option bytes)
    : option (shared_read_cache * memory) :=
  match sc_reqs sc !! id with
  | Some (CacheMiss chunk k buf adjust dest Running) =>
    h ← (match obj with
         | Some b => mem_write (m_heap m) (buf, 0) (slice (Z.to_nat k.2) chunk_bytes b)
         | None => Some (m_heap m)
         end);
    e ← sc_entries sc !! chunk;
    let sc := with_entry sc chunk (mk_entry FILLING (accessed e) (refcount e) (Some buf) [] (key e)) in
    Some (with_reqs sc (<[id := CacheMiss chunk k buf adjust dest (Dispatching (pending_reads e))]> (sc_reqs sc)),
          mk_memory h (m_next m))
  | _ => None
  end.

(** The rest of [on_backend_done]: one iteration of the loop over the waiting
    reads, or the end: the request's own data, its parent, the write to the
    cache file. *)
Definition dispatch (sc : shared_read_cache) (m : memory) (id : Z)
    : option (shared_read_cache * memory * option Z) :=
  match sc_reqs sc !! id with
  | Some (CacheMiss chunk k buf adjust dest (Dispatching (r :: rs))) =>
    '(sc, m, _) ← pending_done sc m r buf;
    Some (with_reqs sc (<[id := CacheMiss chunk k buf adjust dest (Dispatching rs)]> (sc_reqs sc)), m, Some r)
  | Some (CacheMiss chunk k buf adjust dest (Dispatching [])) =>
    h ← SmartIov.copy_in (m_heap m) dest (buf, adjust);
    Some (with_reqs sc (<[id := CacheMiss chunk k buf adjust dest Storing]> (sc_reqs sc)),
          mk_memory h (m_next m), None)
  | _ => None
  end.

(** The write of a chunk to the cache file *)
Definition store_chunk (sc : shared_read_cache) (m : memory) (chunk : nat) (buf : Z)
    : option shared_read_cache :=
  bs ← mem_read (m_heap m) (buf, 0) chunk_bytes;
  Some (mk_cache (sc_entries sc) (sc_map sc) (sc_clock sc) (sc_reqs sc) (sc_next sc)
          (dev_write (sc_file sc) (Z.to_nat (get_store_offset_for_chunk chunk)) bs) (sc_stats sc)).

(** [on_store_done] of a miss and [notify] of an insertion: the write has
    completed. *)
Definition fill_done (sc : shared_read_cache) (m : memory) (id : Z)
    : option (shared_read_cache * memory) :=
  '(chunk, buf) ← (match sc_reqs sc !! id with
                   | Some (CacheMiss chunk _ buf _ _ Storing) => Some (chunk, buf)
                   | Some (CacheInsert chunk _ buf) => Some (chunk, buf)
                   | _ => None
                   end);
  sc ← store_chunk sc m chunk buf;
  sc ← on_store_done sc chunk;
  Some (with_reqs sc (delete id (sc_reqs sc)), mk_memory (free (m_heap m) buf) (m_next m)).

(** ** Insertion of new objects *)

(** [shared_read_cache::insert_object] *)
Definition insert_chunk (fuel : nat) (sc : shared_read_cache) (k : chunk_key) (data : Z)
    : option shared_read_cache :=
  '(sc, idx) ← allocate_chunk fuel sc;
  e ← sc_entries sc !! idx;
  let e := mk_entry FILLING false (refcount e + 1) (Some data) (pending_reads e) k in
  let '(sc, _) := new_request (claim sc idx e k) (CacheInsert idx k data) in
  Some sc.

(** [should_bypass_cache]: the quotient of the rolling sums, in doubles, is
    compared with 2; it is exact for sums below 2^52. *)
Definition should_bypass_cache (sc : shared_read_cache) : bool :=
  let frontend := sum_list_Z (user_bytes (sc_stats sc)) in
  let backend := sum_list_Z (backend_bytes (sc_stats sc)) in
  if frontend =? 0 then false else 2 * frontend <? backend.

(** [served_bypass_request] *)
Definition served_bypass_request (sc : shared_read_cache) (bytes : Z) : shared_read_cache :=
  with_stats sc (record_stats (count_request (sc_stats sc)) 0 bytes bytes).

(** ** Shards *)

Section sharded.
(** [boost::hash_combine] of the three parts of a key *)
Variable chunk_key_hash : chunk_key → Z.

Definition num_shards : Z := 16.

(** [class sharded_cache] and the memory it works on *)
Record sharded_cache := mk_sharded { shards : list shared_read_cache; sh_mem : memory }.

(** The constructor *)
Definition new_sharded (cache_bytes : Z) (m : memory) : option sharded_cache :=
  _ ← assert (cache_bytes mod (num_shards * CACHE_CHUNK_SIZE) =? 0);
  Some (mk_sharded (replicate (Z.to_nat num_shards)
                      (new_cache (Z.to_nat (cache_bytes / num_shards / CACHE_CHUNK_SIZE)))) m).

(** [get_shard] *)
Definition get_shard (k : chunk_key) : nat := Z.to_nat (chunk_key_hash k mod num_shards).

(** [sharded_cache::make_read_req] *)
Definition sharded_read (fuel : nat) (s : sharded_cache) (c : read_call)
    : option (sharded_cache * option Z) :=
  let i := get_shard (rc_prefix c, rc_obj c, rc_offset c) in
  sc ← shards s !! i;
  '(sc, m, r) ← make_read_req fuel sc (sh_mem s) c;
  Some (mk_sharded (<[i := sc]> (shards s)) m, r).

(** [sharded_cache::should_bypass_cache] and [served_bypass_request] ask the
    shard of the block. *)
Definition sharded_should_bypass (s : sharded_cache) (k : chunk_key) : option bool :=
  should_bypass_cache <$> shards s !! get_shard k.
Definition sharded_served_bypass (s : sharded_cache) (k : chunk_key) (bytes : Z) : option sharded_cache :=
  sc ← shards s !! get_shard k;
  Some (mk_sharded (<[get_shard k := served_bypass_request sc bytes]> (shards s)) (sh_mem s)).

(** One chunk of [sharded_cache::insert_object]: [malloc], [memcpy] and
    [insert_object] of its shard *)
Definition insert_piece (fuel : nat) (s : sharded_cache) (k : chunk_key) (data : bytes)
    : option sharded_cache :=
  let i := get_shard k in
  sc ← shards s !! i;
  let '(m, buf) := alloc_buf (sh_mem s) in
  h ← mem_write (m_heap m) (buf, 0) data;
  sc ← insert_chunk fuel sc k buf;
  Some (mk_sharded (<[i := sc]> (shards s)) (mk_memory h (m_next m))).

(** The keys and the data of the pieces of an object *)
Fixpoint object_pieces (n : nat) (pfx : string) (seqnum processed : Z) (obj : bytes)
    : list (chunk_key * bytes) :=
  match n with
  | O => []
  | S n =>
    if Z.of_nat (length obj) <=? processed then [] else
    let to_copy := Z.min (Z.of_nat (length obj) - processed) CACHE_CHUNK_SIZE in
    ((pfx, seqnum, processed), slice (Z.to_nat processed) (Z.to_nat to_copy) obj) ::
    object_pieces n pfx seqnum (processed + to_copy) obj
  end.

(** [sharded_cache::insert_object]; a piece has a byte at least. *)
Definition insert_object (fuel : nat) (s : sharded_cache) (img_prefix : string) (seqnum : Z)
    (obj : bytes) : option sharded_cache :=
  foldl (λ s kd, s ← s; insert_piece fuel s kd.1 kd.2) (Some s)
    (object_pieces (length obj) img_prefix seqnum 0 obj).
End sharded.
