(* ===== verification/ReadClock.v ===== *)
(** * The clock of the read cache

    The search for a chunk to evict stops after at most two turns when some
    chunk can be evicted, and never stops when none can. *)

From S2P Require Import Prelude Bytes Extent Memory SmartIov LsvdTypes WriteCache ReadPath ReadCache.

(** The test of the search, and the entries it may ever take *)
Definition found (e : entry_state) : bool :=
  bool_decide (status e = EMPTY) || ((refcount e =? 0) && negb (accessed e)).
Definition evictable (e : entry_state) : Prop := status e = EMPTY ∨ refcount e = 0.

#[export] Instance evictable_dec e : Decision (evictable e).
Proof. unfold evictable. apply _. Defined.

(** The same entry but for its access bit *)
Definition same_entry (e e' : entry_state) : Prop := e' = e ∨ e' = with_accessed e false.

Lemma same_entry_fields e e' :
  same_entry e e' →
  status e' = status e ∧ refcount e' = refcount e ∧ pending_fill_data e' = pending_fill_data e ∧
  pending_reads e' = pending_reads e ∧ key e' = key e.
Proof. by intros [->| ->]. Qed.

Lemma same_entry_trans e1 e2 e3 : same_entry e1 e2 → same_entry e2 e3 → same_entry e1 e3.
Proof. intros [->| ->] [->| ->]; unfold same_entry; auto. Qed.

Lemma found_evictable e : found e = true → evictable e.
Proof. unfold found, evictable. intros [?%bool_decide_eq_true|H]%orb_true_iff; [auto|]. zb. auto. Qed.

Lemma clear_bit es idx e :
  es !! idx = Some e →
  Forall2 same_entry es (if refcount e =? 0 then <[idx := with_accessed e false]> es else es).
Proof.
  intros He. assert (Forall2 same_entry es es) as Hrefl by (apply Forall_Forall2_diag, Forall_forall; by left).
  destruct (refcount e =? 0); [|done]. rewrite <- (list_insert_id es idx e) at 1 by done.
  apply Forall2_insert; [done|by right].
Qed.

(** A search that stops has found an entry and changed access bits only. *)
Lemma clock_search_some fuel : ∀ es idx es' i,
  clock_search fuel es idx = Some (es', i) →
  ∃ e, es' !! i = Some e ∧ found e = true ∧ Forall2 same_entry es es'.
Proof.
  induction fuel as [|fuel IH]; intros es idx es' i; simpl; intros (e & He & Hs)%bind_Some;
    fold (found e) in Hs; (destruct (found e) eqn:Ef;
      [injection Hs as <- <-; exists e; split_and!; auto;
       apply Forall_Forall2_diag, Forall_forall; by left|]); [done|].
  pose proof (clear_bit es idx e He) as Hc. set (es1 := if _ =? _ then _ else _) in *.
  apply IH in Hs as (e' & ? & ? & Hs). exists e'. split_and!; auto.
  clear -Hc Hs. revert es' Hs. induction Hc as [|? ? ? ? Hxy _ IHc]; intros es' Hs.
  - by apply Forall2_nil_inv_l in Hs as ->.
  - apply Forall2_cons_inv_l in Hs as (? & ? & ? & ? & ->). constructor; [|auto].
    eapply same_entry_trans; eauto.
Qed.

(** The position [d] steps after the hand *)
Lemma hand_next (n idx d : nat) : (0 < n)%nat → (((idx + 1) mod n + d) mod n = (idx + S d) mod n)%nat.
Proof. intros. rewrite Nat.Div0.add_mod_idemp_l. f_equal. lia. Qed.

Lemma clock_stops fuel : ∀ es (idx d : nat) e,
  (d < length es)%nat → es !! ((idx + d) mod length es)%nat = Some e → evictable e →
  (idx < length es)%nat →
  (d + (if accessed e then length es else 0) ≤ fuel)%nat → is_Some (clock_search fuel es idx).
Proof.
  induction fuel as [|fuel IH]; intros es idx d e Hd He Hev Hidx Hf; simpl;
    destruct (lookup_lt_is_Some_2 es idx Hidx) as [e0 He0]; rewrite He0; cbn [mbind option_bind];
    fold (found e0); (destruct (found e0) eqn:Ef; [by eexists|]).
  - destruct d as [|d]; [|lia]. rewrite Nat.add_0_r, Nat.mod_small, He0 in He by done.
    injection He as <-. destruct (accessed e0) eqn:Ea; [lia|].
    unfold found, evictable in *. rewrite Ea in Ef. destruct Hev as [Hs|Hr].
    + by rewrite bool_decide_true in Ef by done.
    + rewrite (proj2 (Z.eqb_eq _ _) Hr) in Ef. by rewrite orb_true_r in Ef.
  - set (es1 := if _ =? _ then _ else _).
    assert (length es1 = length es) as Hl by (unfold es1; case_if; [apply length_insert|done]).
    destruct d as [|d].
    + rewrite Nat.add_0_r, Nat.mod_small, He0 in He by done. injection He as <-.
      assert (refcount e0 = 0) as Hr.
      { destruct Hev as [Hs|Hr]; [|done]. unfold found in Ef. by rewrite bool_decide_true in Ef by done. }
      assert (accessed e0 = true) as Ha.
      { unfold found in Ef. rewrite (proj2 (Z.eqb_eq _ _) Hr) in Ef. apply orb_false_iff in Ef as [_ Ef].
        by apply negb_false_iff in Ef. }
      rewrite Ha in Hf. apply (IH es1 _ (length es - 1)%nat (with_accessed e0 false)).
      * lia.
      * rewrite Hl, hand_next by lia. replace (idx + S (length es - 1))%nat with (idx + 1 * length es)%nat by lia.
        rewrite Nat.Div0.mod_add, Nat.mod_small by done. unfold es1.
        rewrite (proj2 (Z.eqb_eq _ _) Hr). by rewrite list_lookup_insert_eq by done.
      * right. done.
      * rewrite Hl. apply Nat.mod_upper_bound. lia.
      * simpl. lia.
    + assert ((idx + S d) mod length es ≠ idx)%nat as Hne.
      { intros Heq. destruct (decide (idx + S d < length es)%nat).
        - rewrite Nat.mod_small in Heq by done. lia.
        - replace (idx + S d)%nat with (idx + S d - length es + 1 * length es)%nat in Heq by lia.
          rewrite Nat.Div0.mod_add, Nat.mod_small in Heq by lia. lia. }
      apply (IH es1 _ d e); try lia.
      * rewrite Hl, hand_next by lia. unfold es1. case_if; [|done]. by rewrite list_lookup_insert_ne by done.
      * done.
      * rewrite Hl. apply Nat.mod_upper_bound. lia.
      * rewrite Hl. destruct (accessed e); lia.
Qed.

Lemma clock_stops_any fuel es idx :
  (idx < length es)%nat → Exists evictable es → (2 * length es ≤ fuel)%nat →
  is_Some (clock_search fuel es idx).
Proof.
  intros Hidx Hex Hfuel. apply Exists_exists in Hex as (e & Hin & Hev).
  apply list_elem_of_lookup in Hin as [j Hj]. pose proof (lookup_lt_Some _ _ _ Hj) as Hjl.
  pose proof (Nat.mod_upper_bound (j + length es - idx) (length es) ltac:(lia)) as Hd.
  apply (clock_stops fuel es idx ((j + length es - idx) mod length es) e); [done| |done|done|case_if; lia].
  rewrite Nat.Div0.add_mod_idemp_r. replace (idx + (j + length es - idx))%nat with (j + 1 * length es)%nat by lia.
  by rewrite Nat.Div0.mod_add, Nat.mod_small by done.
Qed.

Lemma clock_never es fuel : ∀ idx,
  (idx < length es)%nat → ¬ Exists evictable es → clock_search fuel es idx = None.
Proof.
  induction fuel as [|fuel IH]; intros idx Hidx Hno; simpl;
    destruct (lookup_lt_is_Some_2 es idx Hidx) as [e He]; rewrite He; cbn [mbind option_bind];
    fold (found e); (destruct (found e) eqn:Ef;
      [exfalso; apply Hno, Exists_exists; exists e; split;
       [by eapply list_elem_of_lookup_2|by apply found_evictable]|]); [done|].
  destruct (refcount e =? 0) eqn:Er.
  - exfalso. apply Hno, Exists_exists. exists e. split; [by eapply list_elem_of_lookup_2|].
    right. by apply Z.eqb_eq.
  - apply IH; [apply Nat.mod_upper_bound; lia|done].
Qed.

(** C36: the search for a chunk to evict stops after at most two turns of the
    clock, at a chunk that is empty or unused, if there is such a chunk; if every
    chunk is in use it does not stop, and as it runs under the lock that the
    completions need, it never will. *)
Theorem clock_terminates es idx :
  (idx < length es)%nat →
  (Exists evictable es →
   ∃ es' i e, clock_search (2 * length es) es idx = Some (es', i) ∧ es' !! i = Some e ∧
     evictable e ∧ length es' = length es) ∧
  (¬ Exists evictable es → ∀ fuel, clock_search fuel es idx = None).
Proof.
  intros Hidx. split.
  - intros Hex. destruct (clock_stops_any (2 * length es) es idx Hidx Hex) as [[es' i] Hs]; [done|].
    destruct (clock_search_some _ _ _ _ _ Hs) as (e' & He' & Hf & Hsame).
    exists es', i, e'. split_and!; auto using found_evictable. by apply Forall2_length in Hsame.
  - intros Hno fuel. by apply clock_never.
Qed.

(** Three chunks: two in use, one unused and accessed; and all in use *)
Lemma clock_terminates_witness :
  let busy := mk_entry VALID true 1 None [] ("vol", 1, 0) in
  let idle := mk_entry VALID true 0 None [] ("vol", 2, 0) in
  (∃ es' i e, clock_search 6 [busy; idle; busy] 2 = Some (es', i) ∧ es' !! i = Some e ∧
     evictable e ∧ length es' = 3%nat) ∧
  (∀ fuel, clock_search fuel [busy; busy] 0 = None).
Proof.
  intros busy idle. split.
  - apply (clock_terminates [busy; idle; busy] 2); [simpl; lia|]. right. left. by right.
  - apply (clock_terminates [busy; busy] 0); [simpl; lia|]. intros Hex.
    apply Exists_exists in Hex as (e & Hin & Hev). unfold evictable in Hev.
    assert (e = busy) as -> by set_solver. by destruct Hev.
Defined.
