(* ===== verification/ReadCoherence.v ===== *)
(** * The read cache is coherent

    The invariant of a shard, chunk by chunk: an entry that is VALID has the data
    of its key in the cache file, one that is FILLING has it in a buffer, and in
    every state the reference count is the number of requests that use the
    chunk.  Each request belongs to one chunk, so an operation has to be examined
    at its own chunk only ([coherent_update]). *)

From S2P Require Import Prelude Bytes Extent Memory SmartIov LsvdTypes WriteCache ReadPath ReadSpec.
From S2P Require Import ReadCache ReadClock.

Section coherence.
(** The contents of the objects, which never change. *)
Variable obj_data : string → option bytes.

(** ** Chunks and their data *)

Definition key_of (c : read_call) : chunk_key := (rc_prefix c, rc_obj c, rc_offset c).

(** [bs] is the block of the object that the key names, as far as the object
    goes. *)
Definition chunk_ok (k : chunk_key) (bs : bytes) : Prop :=
  length bs = chunk_bytes ∧
  ∀ b o n, obj_data (oname k.1.1 k.1.2) = Some b → (o + n ≤ chunk_bytes)%nat →
    (Z.to_nat k.2 + o + n ≤ length b)%nat → slice o n bs = slice (Z.to_nat k.2 + o) n b.

Definition chunk_off (i : nat) : nat := Z.to_nat (get_store_offset_for_chunk i).

(** A call whose range lies inside its object *)
Definition covered (c : read_call) : Prop :=
  ∃ bs, call_bytes obj_data c = Some bs ∧ length bs = SmartIov.bytes_of (rc_dest c).

(** The destination of a call: memory of the client, allocations up to 0 *)
Definition client_call (h : heap) (c : read_call) : Prop :=
  call_ok c ∧ NoDup (SmartIov.cells (rc_dest c)) ∧ allocated h (SmartIov.cells (rc_dest c)) ∧
  ∀ a, a ∈ SmartIov.cells (rc_dest c) → a.1 ≤ 0.

Lemma copy_chunk h buf bs c :
  1 ≤ buf → mem_read h (buf, 0) chunk_bytes = Some bs → client_call h c →
  SmartIov.copy_in h (rc_dest c) (buf, rc_adjust c) =
  write_cells h (SmartIov.cells (rc_dest c))
    (slice (Z.to_nat (rc_adjust c)) (SmartIov.bytes_of (rc_dest c)) bs).
Proof.
  intros Hb Hr ((_ & _ & Ha & Hn) & _ & Hal & Hc).
  apply SmartIov.copy_in_cells; [done| |].
  - replace (buf, rc_adjust c) with ((buf, 0).1, (buf, 0).2 + Z.of_nat (Z.to_nat (rc_adjust c)))
      by (simpl; f_equal; lia).
    apply (mem_read_slice _ _ chunk_bytes); [done|]. unfold chunk_bytes. lia.
  - intros a [Ha1 _]%elem_of_cells Hin. simpl in Ha1. specialize (Hc a Hin). lia.
Qed.

(** The bytes of a chunk that a call asks for are the ones it should get. *)
Lemma chunk_call_bytes bs c :
  chunk_ok (key_of c) bs → call_ok c → covered c →
  call_bytes obj_data c =
  Some (slice (Z.to_nat (rc_adjust c)) (SmartIov.bytes_of (rc_dest c)) bs).
Proof.
  intros [_ Hok] (Ho & _ & Ha & Hn) (bs' & Hb & Hlen). rewrite Hb. unfold call_bytes in Hb.
  apply bind_Some in Hb as (b & Hb & [= <-]). f_equal. unfold slice in Hlen. rewrite length_take, length_drop in Hlen.
  destruct (decide (SmartIov.bytes_of (rc_dest c) = 0)%nat) as [->|Hne]; [unfold slice; by rewrite !take_0|].
  rewrite (Hok b); simpl; [|done|unfold chunk_bytes; lia|lia]. f_equal. lia.
Qed.

Lemma serve_bytes h c bs :
  chunk_ok (key_of c) bs → call_ok c → covered c →
  serve obj_data h c =
  write_cells h (SmartIov.cells (rc_dest c))
    (slice (Z.to_nat (rc_adjust c)) (SmartIov.bytes_of (rc_dest c)) bs).
Proof. intros Hk Hc Hv. unfold serve. by rewrite (chunk_call_bytes bs c Hk Hc Hv). Qed.

(** ** The invariant of a chunk *)

Definition chunk_of (r : cache_req) : nat :=
  match r with
  | PendingRead i _ _ _ _ | CacheHit i _ _ _ | CacheMiss i _ _ _ _ _ | CacheInsert i _ _ => i
  end.

(** The requests of chunk [i] *)
Definition reqs_at (i : nat) (rs : gmap Z cache_req) : gmap Z cache_req :=
  filter (λ p, chunk_of p.2 = i) rs.

Implicit Types (rs : gmap Z cache_req) (calls : gmap Z read_call) (h : heap) (e : entry_state).

(** The call a request serves *)
Definition for_call calls (id : Z) (k : chunk_key) (adjust : Z) (dest : SmartIov.smartiov) : Prop :=
  ∃ c, calls !! id = Some c ∧ key_of c = k ∧ adjust = rc_adjust c ∧ dest = rc_dest c.

Definition done_read (r : cache_req) : Prop :=
  match r with PendingRead _ _ _ false true => True | _ => False end.
Definition waiting_read i k calls id (r : cache_req) : Prop :=
  ∃ adjust dest p, r = PendingRead i adjust dest p false ∧ for_call calls id k adjust dest.
Definition hit_read i k calls id (r : cache_req) : Prop :=
  ∃ adjust dest b, r = CacheHit i (get_store_offset_for_chunk i + adjust) dest b ∧
    for_call calls id k adjust dest.

(** The request that fills the chunk, and the reads it has yet to serve *)
Definition fill_req i k buf calls id (l : list Z) (r : cache_req) : Prop :=
  (∃ adjust dest, r = CacheMiss i k buf adjust dest (Dispatching l) ∧ for_call calls id k adjust dest) ∨
  (∃ adjust dest, r = CacheMiss i k buf adjust dest Storing ∧ l = []) ∨
  (r = CacheInsert i k buf ∧ l = []).

(** The requests [rs] are [mid], those in [l], which satisfy [P], and finished
    reads. *)
Definition clients (P : Z → cache_req → Prop) (l : list Z) (mid : option Z) rs : Prop :=
  NoDup l ∧ (∀ id, id ∈ l → Some id ≠ mid ∧ ∃ r, rs !! id = Some r ∧ P id r) ∧
  (∀ id r, rs !! id = Some r → id ∉ l → Some id ≠ mid → done_read r).

Definition chunk_inv i e rs (data : bytes) h calls : Prop :=
  match status e with
  | EMPTY => pending_fill_data e = None ∧ pending_reads e = [] ∧ refcount e = 0 ∧
             clients (waiting_read i (key e) calls) [] None rs
  | VALID => pending_fill_data e = None ∧ pending_reads e = [] ∧ chunk_ok (key e) data ∧
             ∃ l, refcount e = Z.of_nat (length l) ∧ clients (hit_read i (key e) calls) l None rs
  | FETCHING => ∃ mid buf adjust dest st,
      rs !! mid = Some (CacheMiss i (key e) buf adjust dest st) ∧ for_call calls mid (key e) adjust dest ∧
      (st = Made ∨ st = Running) ∧ pending_fill_data e = Some buf ∧
      allocated h (cells_at (buf, 0) chunk_bytes) ∧
      refcount e = 1 + Z.of_nat (length (pending_reads e)) ∧
      clients (waiting_read i (key e) calls) (pending_reads e) (Some mid) rs
  | FILLING => ∃ mid r buf l bs,
      rs !! mid = Some r ∧ fill_req i (key e) buf calls mid l r ∧ pending_reads e = [] ∧
      pending_fill_data e = Some buf ∧ mem_read h (buf, 0) chunk_bytes = Some bs ∧
      chunk_ok (key e) bs ∧ refcount e = 1 + Z.of_nat (length l) ∧
      clients (waiting_read i (key e) calls) l (Some mid) rs
  end.

Lemma for_call_mono calls calls' id k a d :
  for_call calls id k a d → calls ⊆ calls' → for_call calls' id k a d.
Proof. intros (c & Hc & H) Hs. exists c. split; [by eapply lookup_weaken|done]. Qed.

Lemma clients_mono (P Q : Z → cache_req → Prop) l mid rs :
  (∀ id r, P id r → Q id r) → clients P l mid rs → clients Q l mid rs.
Proof.
  intros HPQ (Hnd & Hin & Hd). split; [done|]. split; [|done].
  intros id Hid. destruct (Hin id Hid) as (? & r & ? & ?). split; [done|]. exists r. auto.
Qed.

(** Other buffers, other calls *)
Lemma chunk_inv_frame i e rs data h h' calls calls' :
  chunk_inv i e rs data h calls → calls ⊆ calls' →
  (∀ b c, pending_fill_data e = Some b → c.1 = b → h' !! c = h !! c) →
  chunk_inv i e rs data h' calls'.
Proof.
  unfold chunk_inv. intros Hi Hs Hh.
  assert (∀ id r, waiting_read i (key e) calls id r → waiting_read i (key e) calls' id r) as Hw.
  { intros id r (a & d & p & -> & Hc). exists a, d, p. split; [done|]. by eapply for_call_mono. }
  assert (∀ id r, hit_read i (key e) calls id r → hit_read i (key e) calls' id r) as Hhit.
  { intros id r (a & d & p & -> & Hc). exists a, d, p. split; [done|]. by eapply for_call_mono. }
  destruct (status e).
  - destruct Hi as (? & ? & ? & ?). split_and!; auto. by eapply clients_mono.
  - destruct Hi as (mid & buf & a & d & st & Hr & Hc & Hst & Hb & Hal & Href & Hcl).
    exists mid, buf, a, d, st. split_and!; auto; [by eapply for_call_mono| |by eapply clients_mono].
    intros c Hin. pose proof Hin as [Hc1 _]%elem_of_cells. rewrite (Hh buf) by done. auto.
  - destruct Hi as (mid & r & buf & l & bs & Hr & Hf & Hpr & Hb & Hread & Hok & Href & Hcl).
    exists mid, r, buf, l, bs. split_and!; auto; [| |by eapply clients_mono].
    + destruct Hf as [(a & d & -> & Hc)|Hf]; [left|by right]. exists a, d. split; [done|]. by eapply for_call_mono.
    + rewrite <- Hread. apply read_cells_ext. intros c [Hc1 _]%elem_of_cells. by apply (Hh buf).
  - destruct Hi as (Hb & Hpr & Hok & l & Href & Hcl). split_and!; auto. exists l. split; [done|].
    by eapply clients_mono.
Qed.

(** ** The invariant of a shard *)

Record coherent (sc : shared_read_cache) (m : memory) calls : Prop := {
  co_file : length (sc_file sc) = (chunk_bytes * size_in_chunks sc + Z.to_nat CACHE_HEADER_SIZE)%nat;
  co_clock : (0 < size_in_chunks sc)%nat → (sc_clock sc < size_in_chunks sc)%nat;
  co_ids id : is_Some (sc_reqs sc !! id) → id < sc_next sc;
  co_calls id : is_Some (calls !! id) → id < sc_next sc;
  co_map k i : sc_map sc !! k = Some i →
    ∃ e, sc_entries sc !! i = Some e ∧ key e = k ∧ status e ≠ EMPTY;
  co_chunk id r : sc_reqs sc !! id = Some r → (chunk_of r < size_in_chunks sc)%nat;
  co_inv i e : sc_entries sc !! i = Some e →
    chunk_inv i e (reqs_at i (sc_reqs sc)) (slice (chunk_off i) chunk_bytes (sc_file sc))
      (m_heap m) calls;
  co_next : 1 ≤ m_next m;
  co_buf i e b : sc_entries sc !! i = Some e → pending_fill_data e = Some b → 1 ≤ b < m_next m;
  co_bufs i j e f b : sc_entries sc !! i = Some e → sc_entries sc !! j = Some f →
    pending_fill_data e = Some b → pending_fill_data f = Some b → i = j;
  co_client id c : calls !! id = Some c → client_call (m_heap m) c;
}.
(** ** Updates of one chunk *)

(** What an operation on chunk [i] may change elsewhere: nothing. *)
Record update_ok (sc sc' : shared_read_cache) (m m' : memory) calls calls' i e e' : Prop := {
  up_entry : sc_entries sc !! i = Some e;
  up_entries : sc_entries sc' = <[i := e']> (sc_entries sc);
  up_map k j : sc_map sc' !! k = Some j →
    (j ≠ i ∧ sc_map sc !! k = Some j) ∨ (j = i ∧ key e' = k ∧ status e' ≠ EMPTY);
  up_clock : (sc_clock sc' < size_in_chunks sc)%nat;
  up_reqs j : j ≠ i → reqs_at j (sc_reqs sc') = reqs_at j (sc_reqs sc);
  up_ids id : is_Some (sc_reqs sc' !! id) → id < sc_next sc';
  up_next : sc_next sc ≤ sc_next sc';
  up_file : length (sc_file sc') = length (sc_file sc);
  up_slices j : j ≠ i → (j < size_in_chunks sc)%nat →
    slice (chunk_off j) chunk_bytes (sc_file sc') = slice (chunk_off j) chunk_bytes (sc_file sc);
  up_heap c : 1 ≤ c.1 < m_next m → pending_fill_data e ≠ Some c.1 → m_heap m' !! c = m_heap m !! c;
  up_dom c : c.1 ≤ 0 → is_Some (m_heap m !! c) → is_Some (m_heap m' !! c);
  up_alloc : m_next m ≤ m_next m';
  up_calls : calls ⊆ calls';
  up_new id c : calls' !! id = Some c → calls !! id = Some c ∨ id < sc_next sc' ∧ client_call (m_heap m) c;
  up_buf b : pending_fill_data e' = Some b →
    pending_fill_data e = Some b ∨ m_next m ≤ b < m_next m';
  up_inv : chunk_inv i e' (reqs_at i (sc_reqs sc')) (slice (chunk_off i) chunk_bytes (sc_file sc'))
             (m_heap m') calls';
}.

(** What an operation on one shard leaves alone: the buffers of others. *)
Record frame (sc sc' : shared_read_cache) (m m' : memory) : Prop := {
  fr_next : m_next m ≤ m_next m';
  fr_dom a : a.1 ≤ 0 → is_Some (m_heap m !! a) → is_Some (m_heap m' !! a);
  fr_heap a : 1 ≤ a.1 < m_next m →
    (∀ i e, sc_entries sc !! i = Some e → pending_fill_data e ≠ Some a.1) → m_heap m' !! a = m_heap m !! a;
  fr_buf i e b : sc_entries sc' !! i = Some e → pending_fill_data e = Some b →
    (∃ j f, sc_entries sc !! j = Some f ∧ pending_fill_data f = Some b) ∨ m_next m ≤ b < m_next m';
}.

(** A state that an operation leads to *)
Definition moves (sc sc' : shared_read_cache) (m m' : memory) calls' : Prop :=
  coherent sc' m' calls' ∧ frame sc sc' m m'.

Lemma frame_trans sc1 sc2 sc3 m1 m2 m3 : frame sc1 sc2 m1 m2 → frame sc2 sc3 m2 m3 → frame sc1 sc3 m1 m3.
Proof.
  intros [Hn1 Hd1 Hh1 Hb1] [Hn2 Hd2 Hh2 Hb2]. split; [lia|auto|..].
  - intros a Ha Hp. rewrite Hh2; [by apply Hh1|lia|]. intros i e He Hb.
    destruct (Hb1 i e _ He Hb) as [(j & f & Hf & Hbf)|?]; [by apply (Hp j f)|lia].
  - intros i e b He Hb. destruct (Hb2 i e b He Hb) as [(j & f & Hf & Hbf)|?]; [|right; lia].
    destruct (Hb1 j f b Hf Hbf) as [?|?]; [by left|right; lia].
Qed.

Lemma update_frame sc sc' m m' calls calls' i e e' :
  update_ok sc sc' m m' calls calls' i e e' → frame sc sc' m m'.
Proof.
  intros Hup. pose proof (up_entry _ _ _ _ _ _ _ _ _ Hup) as He. split.
  - apply Hup.
  - intros a. apply (up_dom _ _ _ _ _ _ _ _ _ Hup).
  - intros a Ha Hp. apply (up_heap _ _ _ _ _ _ _ _ _ Hup); [done|]. by apply (Hp i).
  - intros j f b. rewrite (up_entries _ _ _ _ _ _ _ _ _ Hup). destruct (decide (j = i)) as [->|Hne].
    + rewrite list_lookup_insert_eq by (by eapply lookup_lt_Some). intros [= <-] Hb.
      destruct (up_buf _ _ _ _ _ _ _ _ _ Hup b Hb); [left; by exists i, e|by right].
    + rewrite list_lookup_insert_ne by done. intros Hf Hb. left. by exists j, f.
Qed.

Lemma reqs_at_lookup i rs id r : reqs_at i rs !! id = Some r ↔ rs !! id = Some r ∧ chunk_of r = i.
Proof. unfold reqs_at. apply map_lookup_filter_Some. Qed.

Lemma client_call_dom h h' c :
  client_call h c → (∀ a, a.1 ≤ 0 → is_Some (h !! a) → is_Some (h' !! a)) → client_call h' c.
Proof.
  intros (Hok & Hnd & Hal & Hc) Hd. split_and!; auto. intros a Ha. apply Hd; auto.
Qed.

Lemma coherent_update sc sc' m m' calls calls' i e e' :
  coherent sc m calls → update_ok sc sc' m m' calls calls' i e e' → moves sc sc' m m' calls'.
Proof.
  intros Hco Hup. split; [|by eapply update_frame]. pose proof (up_entry _ _ _ _ _ _ _ _ _ Hup) as He.
  pose proof (lookup_lt_Some _ _ _ He) as Hi. fold (size_in_chunks sc) in Hi.
  assert (size_in_chunks sc' = size_in_chunks sc) as Hsize
    by (unfold size_in_chunks; rewrite (up_entries _ _ _ _ _ _ _ _ _ Hup); apply length_insert).
  assert (∀ j f, sc_entries sc' !! j = Some f → (j = i ∧ f = e') ∨ (j ≠ i ∧ sc_entries sc !! j = Some f)) as Hent.
  { intros j f. rewrite (up_entries _ _ _ _ _ _ _ _ _ Hup). destruct (decide (j = i)) as [->|Hne].
    - rewrite list_lookup_insert_eq by done. intros [= <-]. by left.
    - rewrite list_lookup_insert_ne by done. by right. }
  assert (∀ c, c.1 ≤ 0 → is_Some (m_heap m !! c) → is_Some (m_heap m' !! c)) as Hdom
    by (intros c; apply (up_dom _ _ _ _ _ _ _ _ _ Hup)).
  pose proof (up_alloc _ _ _ _ _ _ _ _ _ Hup) as Hal. pose proof (co_next _ _ _ Hco) as Hnx.
  split.
  - rewrite Hsize, (up_file _ _ _ _ _ _ _ _ _ Hup). apply Hco.
  - rewrite Hsize. intros _. apply Hup.
  - apply (up_ids _ _ _ _ _ _ _ _ _ Hup).
  - intros id [c Hc]. destruct (up_new _ _ _ _ _ _ _ _ _ Hup id c Hc) as [H|[? _]]; [|done].
    pose proof (up_next _ _ _ _ _ _ _ _ _ Hup). pose proof (co_calls _ _ _ Hco id ltac:(by eexists)). lia.
  - intros k j Hk. rewrite (up_entries _ _ _ _ _ _ _ _ _ Hup).
    destruct (up_map _ _ _ _ _ _ _ _ _ Hup k j Hk) as [[Hne Hk']|(-> & ? & ?)].
    + rewrite list_lookup_insert_ne by done. by apply (co_map _ _ _ Hco).
    + rewrite list_lookup_insert_eq by done. by exists e'.
  - intros id r Hr. rewrite Hsize. destruct (decide (chunk_of r = i)) as [->|Hne]; [done|].
    apply (co_chunk _ _ _ Hco id). apply (reqs_at_lookup (chunk_of r)).
    rewrite <- (up_reqs _ _ _ _ _ _ _ _ _ Hup) by done. by apply reqs_at_lookup.
  - intros j f [[-> ->]|[Hne Hf]]%Hent; [apply Hup|].
    pose proof (lookup_lt_Some _ _ _ Hf) as Hj.
    rewrite (up_reqs _ _ _ _ _ _ _ _ _ Hup), (up_slices _ _ _ _ _ _ _ _ _ Hup) by done.
    eapply chunk_inv_frame; [by apply Hco|apply Hup|]. intros b c Hb <-.
    pose proof (co_buf _ _ _ Hco _ _ _ Hf Hb). apply (up_heap _ _ _ _ _ _ _ _ _ Hup); [lia|].
    intros Hb'. apply Hne. by eapply (co_bufs _ _ _ Hco).
  - lia.
  - intros j f b [[-> ->]|[Hne Hf]]%Hent Hb.
    + destruct (up_buf _ _ _ _ _ _ _ _ _ Hup b Hb) as [Hb'|?]; [|lia].
      pose proof (co_buf _ _ _ Hco _ _ _ He Hb'). lia.
    + pose proof (co_buf _ _ _ Hco _ _ _ Hf Hb). lia.
  - intros j1 j2 f1 f2 b [[-> ->]|[Hne1 Hf1]]%Hent [[-> ->]|[Hne2 Hf2]]%Hent Hb1 Hb2; [done|..].
    + destruct (up_buf _ _ _ _ _ _ _ _ _ Hup b Hb1) as [Hb'|?]; [by eapply (co_bufs _ _ _ Hco)|].
      pose proof (co_buf _ _ _ Hco _ _ _ Hf2 Hb2). lia.
    + destruct (up_buf _ _ _ _ _ _ _ _ _ Hup b Hb2) as [Hb'|?]; [by eapply (co_bufs _ _ _ Hco)|].
      pose proof (co_buf _ _ _ Hco _ _ _ Hf1 Hb1). lia.
    + by eapply (co_bufs _ _ _ Hco).
  - intros id c Hc. eapply client_call_dom; [|exact Hdom].
    destruct (up_new _ _ _ _ _ _ _ _ _ Hup id c Hc) as [H|[_ ?]]; [|done]. by apply (co_client _ _ _ Hco id).
Qed.
End coherence.
