(* ===== verification/ReadSteps.v ===== *)
(** * The steps of the read cache keep it coherent

    One lemma per critical section: from a coherent state it runs without a
    fault, leads to a coherent state, and if it puts bytes into the memory of a
    client, they are the bytes that the call should get. *)

From S2P Require Import Prelude Bytes Extent Memory SmartIov LsvdTypes WriteCache WriteLog ReadPath ReadSpec.
From S2P Require Import ReadCache ReadClock ReadCoherence.

Implicit Types (rs : gmap Z cache_req) (calls : gmap Z read_call) (h : heap) (e : entry_state).

(** ** The requests of a chunk *)

Lemma reqs_at_insert i id r rs :
  chunk_of r = i → reqs_at i (<[id := r]> rs) = <[id := r]> (reqs_at i rs).
Proof. intros. unfold reqs_at. by apply map_filter_insert_True. Qed.

Lemma reqs_at_insert_ne j id r rs :
  chunk_of r ≠ j → (∀ r0, rs !! id = Some r0 → chunk_of r0 ≠ j) →
  reqs_at j (<[id := r]> rs) = reqs_at j rs.
Proof.
  intros Hr H0. apply map_eq. intros k. apply option_eq. intros x. rewrite !reqs_at_lookup.
  destruct (decide (k = id)) as [->|].
  - rewrite lookup_insert_eq. split; [by intros [[= <-] ?]|]. intros [Hx ?]. by destruct (H0 x).
  - by rewrite lookup_insert_ne.
Qed.

Lemma reqs_at_delete i id rs : reqs_at i (delete id rs) = delete id (reqs_at i rs).
Proof. unfold reqs_at. apply map_filter_delete. Qed.

Lemma reqs_at_delete_ne j id r rs :
  rs !! id = Some r → chunk_of r ≠ j → reqs_at j (delete id rs) = reqs_at j rs.
Proof.
  intros Hr Hne. rewrite reqs_at_delete. apply delete_id. unfold reqs_at.
  apply map_lookup_filter_None. right. intros x Hx. rewrite Hr in Hx. by injection Hx as <-.
Qed.

(** ** Clients *)

Section clients.
Variable P : Z → cache_req → Prop.

Lemma clients_role l mid rs id r :
  clients P l mid rs → rs !! id = Some r → (id ∈ l ∧ P id r) ∨ Some id = mid ∨ (id ∉ l ∧ done_read r).
Proof.
  intros (_ & Hin & Hd) Hr. destruct (decide (id ∈ l)) as [Hl|Hl].
  - left. destruct (Hin id Hl) as (_ & r' & Hr' & Hp). rewrite Hr in Hr'. injection Hr' as <-. done.
  - right. destruct (decide (Some id = mid)); [by left|right]. by eauto.
Qed.

(** Another request of the same kind in place of [id] *)
Lemma clients_replace l mid rs id r :
  clients P l mid rs → id ∈ l → P id r → clients P l mid (<[id := r]> rs).
Proof.
  intros (Hnd & Hin & Hd) Hl Hr. split; [done|]. split.
  - intros k Hk. split; [by apply Hin|]. destruct (decide (k = id)) as [->|].
    + exists r. by rewrite lookup_insert_eq.
    + destruct (Hin k Hk) as (_ & r' & ? & ?). exists r'. by rewrite lookup_insert_ne.
  - intros k r' Hk Hkl. rewrite lookup_insert_ne in Hk by (intros ->; done). by apply (Hd k).
Qed.

(** [id], which may be finished or new, is finished or deleted. *)
Lemma clients_finish l mid rs id rs' :
  clients P l mid rs → id ∉ l → (∀ k, k ≠ id → rs' !! k = rs !! k) →
  (∀ r, rs' !! id = Some r → Some id ≠ mid → done_read r) → clients P l mid rs'.
Proof.
  intros (Hnd & Hin & Hd) Hl Hk Hid. split; [done|]. split.
  - intros k Hkl. destruct (Hin k Hkl) as (? & r & ? & ?). split; [done|]. exists r.
    by rewrite Hk by (intros ->; done).
  - intros k r Hr Hkl Hm. destruct (decide (k = id)) as [->|]; [by apply Hid|].
    rewrite Hk in Hr by done. by apply (Hd k).
Qed.

(** [id] is a client no more. *)
Lemma clients_remove l1 id l2 mid rs rs' :
  clients P (l1 ++ id :: l2) mid rs → (∀ k, k ≠ id → rs' !! k = rs !! k) →
  (∀ r, rs' !! id = Some r → done_read r) → clients P (l1 ++ l2) mid rs'.
Proof.
  intros (Hnd & Hin & Hd) Hk Hid. assert (id ∉ l1 ++ l2 ∧ NoDup (l1 ++ l2)) as [Hni Hnd'].
  { rewrite NoDup_app, NoDup_cons in Hnd. rewrite NoDup_app. set_solver. }
  split; [done|]. split.
  - intros k Hkl. assert (k ≠ id) as Hne by (intros ->; done).
    destruct (Hin k) as (? & r & ? & ?); [set_solver|]. split; [done|]. exists r. by rewrite Hk.
  - intros k r Hr Hkl Hm. destruct (decide (k = id)) as [->|]; [by apply Hid|].
    rewrite Hk in Hr by done. apply (Hd k); [done|set_solver|done].
Qed.

Lemma clients_add l mid rs id r :
  clients P l mid rs → rs !! id = None → Some id ≠ mid → P id r →
  clients P (l ++ [id]) mid (<[id := r]> rs).
Proof.
  intros (Hnd & Hin & Hd) Hn Hm Hr. assert (id ∉ l) as Hni.
  { intros Hl. destruct (Hin id Hl) as (_ & r' & Hr' & _). congruence. }
  split; [apply NoDup_app; split_and!; [done|set_solver|apply NoDup_singleton]|]. split.
  - intros k [Hk| ->%list_elem_of_singleton]%elem_of_app.
    + destruct (Hin k Hk) as (? & r' & ? & ?). split; [done|]. exists r'.
      rewrite lookup_insert_ne by (intros ->; done). done.
    + split; [done|]. exists r. by rewrite lookup_insert_eq.
  - intros k r' Hk Hkl Hkm. rewrite lookup_insert_ne in Hk by set_solver. apply (Hd k); [done|set_solver|done].
Qed.
End clients.

(** A chunk without clients, before and after its fill *)
Lemma clients_none P Q rs : clients P [] None rs → clients Q [] None rs.
Proof. intros (_ & _ & Hd). split; [constructor|]. split; [set_solver|done]. Qed.

Lemma clients_begin P Q rs id r :
  clients P [] None rs → clients Q [] (Some id) (<[id := r]> rs).
Proof.
  intros (_ & _ & Hd). split; [constructor|]. split; [set_solver|]. intros k r' Hk _ Hm.
  rewrite lookup_insert_ne in Hk by congruence. apply (Hd k); [done|set_solver|done].
Qed.

Lemma clients_end P Q rs id : clients P [] (Some id) rs → clients Q [] None (delete id rs).
Proof.
  intros (_ & _ & Hd). split; [constructor|]. split; [set_solver|]. intros k r' Hk _ _.
  apply lookup_delete_Some in Hk as [? Hk]. apply (Hd k); [done|set_solver|congruence].
Qed.

Lemma waiting_not_done i k calls id r : waiting_read i k calls id r → ¬ done_read r.
Proof. by intros (? & ? & [] & -> & _) []. Qed.
Lemma hit_not_done i k calls id r : hit_read i k calls id r → ¬ done_read r.
Proof. by intros (? & ? & [] & -> & _) []. Qed.
Create HintDb lsvd_read.
#[export] Hint Resolve waiting_not_done hit_not_done : lsvd_read.

(** ** Updates in place *)

Lemma chunk_off_range (i n len : nat) :
  (i < n)%nat → len = (chunk_bytes * n + Z.to_nat CACHE_HEADER_SIZE)%nat →
  (chunk_off i + chunk_bytes ≤ len)%nat.
Proof.
  unfold chunk_off, get_store_offset_for_chunk, chunk_bytes, CACHE_CHUNK_SIZE, CACHE_HEADER_SIZE. lia.
Qed.

Lemma chunk_off_apart i j :
  i ≠ j → (chunk_off i + chunk_bytes ≤ chunk_off j ∨ chunk_off j + chunk_bytes ≤ chunk_off i)%nat.
Proof.
  unfold chunk_off, get_store_offset_for_chunk, chunk_bytes, CACHE_CHUNK_SIZE, CACHE_HEADER_SIZE. lia.
Qed.

Section steps.
Variable obj_data : string → option bytes.
Notation coherent := (coherent obj_data).
Notation chunk_inv := (chunk_inv obj_data).
Notation chunk_ok := (chunk_ok obj_data).
Notation covered := (covered obj_data).
Notation moves := (moves obj_data).

(** A write into the memory of clients *)
Definition client_write h h' : Prop :=
  (∀ a, 1 ≤ a.1 → h' !! a = h !! a) ∧ (∀ a, is_Some (h' !! a) ↔ is_Some (h !! a)).

Lemma client_write_refl h : client_write h h.
Proof. by split. Qed.

Lemma client_write_cells h c bs h' :
  client_call h c → write_cells h (SmartIov.cells (rc_dest c)) bs = Some h' → client_write h h'.
Proof.
  intros (_ & _ & _ & Hc) Hw. split.
  - intros a Ha. eapply write_cells_other; [done|]. intros Hin. specialize (Hc a Hin). lia.
  - intros a. by eapply write_cells_dom.
Qed.

(** The entry, the requests of the chunk and the memory of clients change. *)
Lemma update_in_place sc m calls calls' i e e' rs' n' stats' h' :
  coherent sc m calls → sc_entries sc !! i = Some e →
  key e' = key e → (status e' = EMPTY → status e = EMPTY) →
  (∀ b, pending_fill_data e' = Some b → pending_fill_data e = Some b) →
  (∀ j, j ≠ i → reqs_at j rs' = reqs_at j (sc_reqs sc)) →
  (∀ id, is_Some (rs' !! id) → id < n') → sc_next sc ≤ n' →
  (∀ a, 1 ≤ a.1 → pending_fill_data e ≠ Some a.1 → h' !! a = m_heap m !! a) →
  (∀ a, a.1 ≤ 0 → is_Some (m_heap m !! a) → is_Some (h' !! a)) →
  calls ⊆ calls' →
  (∀ id c, calls' !! id = Some c → calls !! id = Some c ∨ id < n' ∧ client_call (m_heap m) c) →
  chunk_inv i e' (reqs_at i rs') (slice (chunk_off i) chunk_bytes (sc_file sc)) h' calls' →
  moves sc (mk_cache (<[i := e']> (sc_entries sc)) (sc_map sc) (sc_clock sc) rs' n' (sc_file sc) stats')
    m (mk_memory h' (m_next m)) calls'.
Proof.
  intros Hco He Hk Hst Hb Hrs Hids Hn Hh Hd Hc Hnew Hinv.
  eapply coherent_update; [exact Hco|]. split; simpl; eauto; try lia.
  - intros k j Hm. destruct (decide (j = i)) as [->|]; [right|by left].
    destruct (co_map _ _ _ _ Hco _ _ Hm) as (e0 & He0 & <- & Hs).
    rewrite He in He0. injection He0 as <-. split_and!; auto.
  - apply (co_clock _ _ _ _ Hco). apply lookup_lt_Some in He. unfold size_in_chunks. lia.
  - intros a [Ha _] Hp. by apply Hh.
Qed.

(** ** Requests that change nothing but themselves *)

Definition kind (i : nat) (k : chunk_key) calls (P : Z → cache_req → Prop) : Prop :=
  P = waiting_read i k calls ∨ P = hit_read i k calls.
Definition is_client (r : cache_req) : Prop :=
  match r with PendingRead _ _ _ _ _ | CacheHit _ _ _ _ => True | _ => False end.

Lemma kind_not_done i k calls P id r : kind i k calls P → P id r → ¬ done_read r.
Proof. intros [-> | ->]; eauto with lsvd_read. Qed.

(** What becomes of a client: another of its kind, or nothing when it is
    finished. *)
Definition swaps (i : nat) (k : chunk_key) calls (id : Z) (r : cache_req) rs rs' : Prop :=
  (∀ j, j ≠ id → rs' !! j = rs !! j) ∧
  (∀ P, kind i k calls P → P id r → ∃ r', rs' !! id = Some r' ∧ P id r') ∧
  (∀ r', done_read r → rs' !! id = Some r' → done_read r').

Lemma clients_swap i k calls P l mid rs rs' id r :
  kind i k calls P → clients P l mid rs → rs !! id = Some r → Some id ≠ mid →
  swaps i k calls id r rs rs' → clients P l mid rs'.
Proof.
  intros HP Hcl Hr Hm (Hoth & Hp & Hdone).
  destruct (clients_role P l mid rs id r Hcl Hr) as [[Hl Hpr]|[?|[Hl Hd]]]; [|done|].
  - destruct (Hp P HP Hpr) as (r' & Hr' & Hpr').
    replace rs' with (<[id := r']> rs); [by apply clients_replace|].
    apply map_eq. intros j. destruct (decide (j = id)) as [->|]; [by rewrite lookup_insert_eq|].
    rewrite lookup_insert_ne by done. symmetry. by apply Hoth.
  - eapply clients_finish; eauto.
Qed.

Lemma chunk_inv_swap i e rs rs' data h calls id r :
  chunk_inv i e rs data h calls → rs !! id = Some r → is_client r →
  swaps i (key e) calls id r rs rs' → chunk_inv i e rs' data h calls.
Proof.
  unfold ReadCoherence.chunk_inv. intros Hi Hr Hc Hsw. destruct (status e).
  - destruct Hi as (? & ? & ? & Hcl). split_and!; auto. eapply clients_swap; eauto; by left.
  - destruct Hi as (mid & buf & a & d & st & Hmid & Hi). assert (mid ≠ id) as Hne.
    { intros ->. rewrite Hr in Hmid. by injection Hmid as ->. }
    exists mid, buf, a, d, st. destruct Hsw as [Hoth ?]. split; [by rewrite Hoth|].
    destruct Hi as (? & ? & ? & ? & ? & Hcl). split_and!; auto.
    eapply clients_swap; eauto; [by left|congruence|by split].
  - destruct Hi as (mid & r0 & buf & l & bs & Hmid & Hf & Hi). assert (mid ≠ id) as Hne.
    { intros ->. rewrite Hr in Hmid. injection Hmid as <-.
      by destruct Hf as [(? & ? & -> & _)|[(? & ? & -> & _)|[-> _]]]. }
    exists mid, r0, buf, l, bs. destruct Hsw as [Hoth ?]. split; [by rewrite Hoth|].
    destruct Hi as (? & ? & ? & ? & ? & Hcl). split_and!; auto.
    eapply clients_swap; eauto; [by left|congruence|by split].
  - destruct Hi as (? & ? & ? & l & ? & Hcl). split_and!; auto. exists l. split; [done|].
    eapply clients_swap; eauto; by right.
Qed.

Lemma coherent_inv sc m calls id r :
  coherent sc m calls → sc_reqs sc !! id = Some r →
  ∃ e, sc_entries sc !! (chunk_of r) = Some e ∧
    chunk_inv (chunk_of r) e (reqs_at (chunk_of r) (sc_reqs sc))
      (slice (chunk_off (chunk_of r)) chunk_bytes (sc_file sc)) (m_heap m) calls ∧
    reqs_at (chunk_of r) (sc_reqs sc) !! id = Some r.
Proof.
  intros Hco Hr. pose proof (co_chunk _ _ _ _ Hco _ _ Hr) as Hlt.
  apply lookup_lt_is_Some_2 in Hlt as [e He]. exists e. split; [done|]. split; [by apply Hco|].
  by apply reqs_at_lookup.
Qed.

Lemma coherent_id sc m calls id r : coherent sc m calls → sc_reqs sc !! id = Some r → id < sc_next sc.
Proof. intros Hco Hr. apply (co_ids _ _ _ _ Hco). by eexists. Qed.

(** A request put in place of another of the same chunk *)
Lemma ids_insert sc m calls id r r' k :
  coherent sc m calls → sc_reqs sc !! id = Some r →
  is_Some (<[id := r']> (sc_reqs sc) !! k) → k < sc_next sc.
Proof.
  intros Hco Hr [x Hx]. destruct (decide (k = id)) as [->|]; [by eapply coherent_id|].
  rewrite lookup_insert_ne in Hx by done. by eapply coherent_id.
Qed.

Lemma ids_delete sc m calls id k :
  coherent sc m calls → is_Some (delete id (sc_reqs sc) !! k) → k < sc_next sc.
Proof. intros Hco [x [_ Hx]%lookup_delete_Some]. by eapply coherent_id. Qed.

(** A request replaced, an entry that stays *)
Lemma swap_in_place sc m calls id r rs' :
  coherent sc m calls → sc_reqs sc !! id = Some r → is_client r →
  (∀ k, swaps (chunk_of r) k calls id r (sc_reqs sc) rs') →
  (∀ r', rs' !! id = Some r' → chunk_of r' = chunk_of r) →
  moves sc (with_reqs sc rs') m m calls.
Proof.
  intros Hco Hr Hc Hsw Hch. destruct (coherent_inv _ _ _ _ _ Hco Hr) as (e & He & Hi & Hra).
  destruct (Hsw (EmptyString, 0, 0)) as (Hoth & _ & _).
  unfold with_reqs. rewrite <- (list_insert_id _ _ _ He). destruct m as [h nx].
  eapply (update_in_place sc (mk_memory h nx)); eauto; simpl.
  - intros j Hj. apply map_eq. intros k. apply option_eq. intros x. rewrite !reqs_at_lookup.
    destruct (decide (k = id)) as [->|]; [|by rewrite Hoth].
    split; intros [Hx Hxj]; [apply Hch in Hx|rewrite Hr in Hx; injection Hx as <-]; congruence.
  - intros k [x Hx]. destruct (decide (k = id)) as [->|Hne]; [by eapply coherent_id|].
    rewrite Hoth in Hx by done. by eapply coherent_id.
  - done.
  - eapply chunk_inv_swap; [exact Hi|exact Hra|done|]. destruct (Hsw (key e)) as (_ & Hp & Hd). split_and!.
    + intros j Hj. apply option_eq. intros x. rewrite !reqs_at_lookup. by rewrite Hoth.
    + intros P HP Hpr. destruct (Hp P HP Hpr) as (r' & Hr' & ?). exists r'. split; [|done].
      apply reqs_at_lookup. auto.
    + intros r' Hd' [Hr' _]%reqs_at_lookup. by apply Hd.
Qed.

(** The request [id] has been made and not run. *)
Definition fresh_req (r : cache_req) : Prop :=
  match r with
  | PendingRead _ _ _ has_parent _ => has_parent = false
  | CacheHit _ _ _ running => running = false
  | CacheMiss _ _ _ _ _ stage => stage = Made
  | CacheInsert _ _ _ => False
  end.

Lemma clients_other_mid P l mid rs r :
  clients P l (Some mid) rs → clients P l (Some mid) (<[mid := r]> rs).
Proof.
  intros (Hnd & Hin & Hd). split; [done|]. split.
  - intros k Hk. destruct (Hin k Hk) as (? & r' & ? & ?). split; [done|]. exists r'.
    by rewrite lookup_insert_ne by congruence.
  - intros k r' Hk Hl Hm. rewrite lookup_insert_ne in Hk by congruence. by apply (Hd k).
Qed.

(** The request that fills a chunk *)
Definition is_filler (r : cache_req) : Prop :=
  match r with CacheMiss _ _ _ _ _ _ | CacheInsert _ _ _ => True | _ => False end.

Lemma filler_mid i k calls P l mid rs id r :
  kind i k calls P → clients P l mid rs → rs !! id = Some r → is_filler r → Some id = mid.
Proof.
  intros HP Hcl Hr Hf. destruct (clients_role P l mid rs id r Hcl Hr) as [[_ Hp]|[?|[_ Hd]]]; [|done|].
  - destruct HP as [-> | ->]; by destruct Hp as (? & ? & ? & -> & _).
  - by destruct r.
Qed.

Lemma fetching_inv i e rs data h calls id k buf a d st :
  chunk_inv i e rs data h calls → rs !! id = Some (CacheMiss i k buf a d st) → st = Made ∨ st = Running →
  status e = FETCHING ∧ k = key e ∧ pending_fill_data e = Some buf ∧ for_call calls id k a d ∧
  allocated h (cells_at (buf, 0) chunk_bytes) ∧ refcount e = 1 + Z.of_nat (length (pending_reads e)) ∧
  clients (waiting_read i k calls) (pending_reads e) (Some id) rs.
Proof.
  unfold ReadCoherence.chunk_inv. intros Hi Hr Hst.
  assert (∀ P l mid, kind i (key e) calls P → clients P l mid rs → Some id = mid) as Hmid
    by (intros P l mid HP Hcl; by eapply filler_mid).
  destruct (status e).
  - destruct Hi as (_ & _ & _ & Hcl). apply Hmid in Hcl; [done|by left].
  - destruct Hi as (mid & b' & a' & d' & st' & Hm & Hc & _ & Hb & Hal & Href & Hcl).
    pose proof (Hmid _ _ _ (or_introl eq_refl) Hcl) as [= <-]. rewrite Hr in Hm.
    injection Hm as -> -> -> -> ->. by split_and!.
  - destruct Hi as (mid & r & b' & l & bs & Hm & Hf & _ & _ & _ & _ & _ & Hcl).
    pose proof (Hmid _ _ _ (or_introl eq_refl) Hcl) as [= <-]. rewrite Hr in Hm. injection Hm as <-.
    destruct Hf as [(? & ? & [= -> -> -> -> ->] & _)|[(? & ? & [= -> -> -> -> ->] & _)|[[=] _]]]; by destruct Hst.
  - destruct Hi as (_ & _ & _ & l & _ & Hcl). apply Hmid in Hcl; [done|by right].
Qed.

Lemma filling_inv i e rs data h calls id r :
  chunk_inv i e rs data h calls → rs !! id = Some r → is_filler r →
  (∀ k buf a d st, r = CacheMiss i k buf a d st → st ≠ Made ∧ st ≠ Running) →
  status e = FILLING ∧ ∃ buf l bs,
    fill_req i (key e) buf calls id l r ∧ pending_reads e = [] ∧ pending_fill_data e = Some buf ∧
    mem_read h (buf, 0) chunk_bytes = Some bs ∧ chunk_ok (key e) bs ∧
    refcount e = 1 + Z.of_nat (length l) ∧ clients (waiting_read i (key e) calls) l (Some id) rs.
Proof.
  unfold ReadCoherence.chunk_inv. intros Hi Hr Hfl Hst.
  assert (∀ P l mid, kind i (key e) calls P → clients P l mid rs → Some id = mid) as Hmid
    by (intros P l mid HP Hcl; by eapply filler_mid).
  destruct (status e).
  - destruct Hi as (_ & _ & _ & Hcl). apply Hmid in Hcl; [done|by left].
  - destruct Hi as (mid & b' & a' & d' & st' & Hm & _ & Hst' & _ & _ & _ & Hcl).
    pose proof (Hmid _ _ _ (or_introl eq_refl) Hcl) as [= <-]. rewrite Hr in Hm. injection Hm as ->.
    destruct (Hst _ _ _ _ _ eq_refl). by destruct Hst'.
  - destruct Hi as (mid & r' & b' & l & bs & Hm & Hf & Hpr & Hb & Hread & Hok & Href & Hcl).
    pose proof (Hmid _ _ _ (or_introl eq_refl) Hcl) as [= <-]. rewrite Hr in Hm. injection Hm as <-.
    split; [done|]. exists b', l, bs. by split_and!.
  - destruct Hi as (_ & _ & _ & l & _ & Hcl). apply Hmid in Hcl; [done|by right].
Qed.

Lemma swaps_delete i k calls id r rs :
  rs !! id = Some r → done_read r → swaps i k calls id r rs (delete id rs).
Proof.
  intros Hr Hd. split_and!.
  - intros j Hj. by apply lookup_delete_ne.
  - intros P HP Hp. by destruct (kind_not_done _ _ _ _ _ _ HP Hp).
  - intros r' _. by rewrite lookup_delete_eq.
Qed.

Lemma swaps_insert i k calls id r r' rs :
  (∀ P, kind i k calls P → P id r → P id r') → ¬ done_read r → swaps i k calls id r rs (<[id := r']> rs).
Proof.
  intros HP Hd. split_and!.
  - intros j Hj. by apply lookup_insert_ne.
  - intros P HP' Hp. exists r'. rewrite lookup_insert_eq. split; [done|by apply HP].
  - done.
Qed.

Lemma run_ok sc m calls id r :
  coherent sc m calls → sc_reqs sc !! id = Some r → fresh_req r →
  ∃ sc' b, run sc id = Some (sc', b) ∧ moves sc sc' m m calls.
Proof.
  intros Hco Hr Hf. unfold run. rewrite Hr.
  destruct r as [i a d p b|i o d b|i k buf a d st|]; simpl in Hf; try done; subst.
  - destruct b; (eexists _, _; split; [reflexivity|]; eapply swap_in_place; eauto; try done).
    + intros k. by apply swaps_delete.
    + intros r'. by rewrite lookup_delete_eq.
    + intros k. apply swaps_insert; [|by intros []]. intros P [-> | ->] (a' & d' & p & Hp & Hc); [|discriminate Hp].
      injection Hp as <- <- <-. exists a, d, true. split; [reflexivity|exact Hc].
    + intros r'. rewrite lookup_insert_eq. by intros [= <-].
  - eexists _, _; split; [reflexivity|]; eapply swap_in_place; eauto; try done.
    + intros k. apply swaps_insert; [|by intros []]. intros P [-> | ->] (a' & d' & p & Hp & Hc); [discriminate Hp|].
      injection Hp as -> <- <-. exists a', d, true. split; [reflexivity|exact Hc].
    + intros r'. rewrite lookup_insert_eq. by intros [= <-].
  - destruct (coherent_inv _ _ _ _ _ Hco Hr) as (e & He & Hi & Hra). simpl in *.
    destruct (fetching_inv _ _ _ _ _ _ _ _ _ _ _ _ Hi Hra ltac:(by left))
      as (Hst & -> & Hb & Hc & Hal & Href & Hcl).
    unfold set_chunk_status. rewrite He, bind_some. simpl. eexists _, _. split; [done|].
    destruct m as [h nx]. eapply (update_in_place sc (mk_memory h nx)); eauto; simpl; try done.
    + intros j Hj. apply reqs_at_insert_ne; [done|]. rewrite Hr. by intros ? [= <-].
    + intros k'. by eapply ids_insert.
    + rewrite reqs_at_insert by done. exists id, buf, a, d, Running. cbn [status key pending_fill_data refcount pending_reads with_status].
      rewrite lookup_insert_eq. split_and!; auto. by apply clients_other_mid.
Qed.

(** ** Reads that are served *)

(** The call [c] has been served. *)
Definition serves calls (id : Z) (m m' : memory) : Prop :=
  ∃ c, calls !! id = Some c ∧ client_write (m_heap m) (m_heap m') ∧
    (covered c → serve obj_data (m_heap m) c = Some (m_heap m')).

(** A hit: the read of the cache file gives the bytes of the chunk. *)
Lemma hit_bytes sc m calls i c :
  coherent sc m calls → (i < size_in_chunks sc)%nat → call_ok c →
  dev_read (sc_file sc) (Z.to_nat (get_store_offset_for_chunk i + rc_adjust c))
    (SmartIov.bytes_of (rc_dest c)) =
  (Z.of_nat (SmartIov.bytes_of (rc_dest c)),
   slice (Z.to_nat (rc_adjust c)) (SmartIov.bytes_of (rc_dest c))
     (slice (chunk_off i) chunk_bytes (sc_file sc))).
Proof.
  intros Hco Hi (Ho & Hm & Ha & Hn). pose proof (chunk_off_range i _ _ Hi (co_file _ _ _ _ Hco)) as Hr.
  assert (Z.to_nat (rc_adjust c) + SmartIov.bytes_of (rc_dest c) ≤ chunk_bytes)%nat as Hb
    by (unfold chunk_bytes; lia).
  unfold dev_read. rewrite slice_slice by done.
  replace (Z.to_nat (get_store_offset_for_chunk i + rc_adjust c)) with (chunk_off i + Z.to_nat (rc_adjust c))%nat.
  - by rewrite length_slice by lia.
  - unfold chunk_off, get_store_offset_for_chunk, CACHE_CHUNK_SIZE, CACHE_HEADER_SIZE. lia.
Qed.

Lemma write_client h c bs :
  client_call h c → length bs = SmartIov.bytes_of (rc_dest c) →
  ∃ h', write_cells h (SmartIov.cells (rc_dest c)) bs = Some h' ∧ client_write h h'.
Proof.
  intros Hc Hl. destruct (write_cells_allocated h (SmartIov.cells (rc_dest c)) bs) as [h' Hw].
  - apply Hc.
  - by rewrite Hl, SmartIov.length_cells_of.
  - exists h'. split; [done|]. by eapply client_write_cells.
Qed.

Lemma hit_inv i e rs data h calls id off d b :
  chunk_inv i e rs data h calls → rs !! id = Some (CacheHit i off d b) →
  status e = VALID ∧ pending_fill_data e = None ∧ pending_reads e = [] ∧ chunk_ok (key e) data ∧
  for_call calls id (key e) (off - get_store_offset_for_chunk i) d ∧
  ∃ l1 l2, refcount e = Z.of_nat (length (l1 ++ id :: l2)) ∧
    clients (hit_read i (key e) calls) (l1 ++ id :: l2) None rs.
Proof.
  unfold ReadCoherence.chunk_inv. intros Hi Hr.
  assert (∀ l mid, clients (waiting_read i (key e) calls) l mid rs → Some id = mid) as Hrole.
  { intros l mid Hcl. destruct (clients_role _ l mid rs id _ Hcl Hr) as [[Hl Hp]|[?|[_ []]]]; [|done].
    by destruct Hp as (? & ? & ? & [=] & _). }
  destruct (status e).
  - destruct Hi as (_ & _ & _ & Hcl). by apply Hrole in Hcl.
  - destruct Hi as (mid & ? & ? & ? & ? & Hm & _ & _ & _ & _ & _ & Hcl).
    apply Hrole in Hcl as [= <-]. by rewrite Hr in Hm.
  - destruct Hi as (mid & r & ? & l & ? & Hm & Hf & _ & _ & _ & _ & _ & Hcl).
    apply Hrole in Hcl as [= <-]. rewrite Hr in Hm. injection Hm as <-.
    by destruct Hf as [(? & ? & [=] & _)|[(? & ? & [=] & _)|[[=] _]]].
  - destruct Hi as (Hb & Hpr & Hok & l & Href & Hcl).
    destruct (clients_role _ l None rs id _ Hcl Hr) as [[Hl Hp]|[?|[_ []]]]; [|done].
    destruct Hp as (a & d' & b' & [= -> <- <-] & Hc). apply list_elem_of_split in Hl as (l1 & l2 & ->).
    split_and!; try done; [|by exists l1, l2].
    by replace (get_store_offset_for_chunk i + a - get_store_offset_for_chunk i) with a by lia.
Qed.

Lemma hit_done_ok sc m calls id i off d :
  coherent sc m calls → sc_reqs sc !! id = Some (CacheHit i off d true) →
  ∃ sc' m', hit_done sc m id = Some (sc', m') ∧ moves sc sc' m m' calls ∧ serves calls id m m'.
Proof.
  intros Hco Hr. destruct (coherent_inv _ _ _ _ _ Hco Hr) as (e & He & Hi & Hra). cbn [chunk_of] in *.
  destruct (hit_inv _ _ _ _ _ _ _ _ _ _ Hi Hra) as (Hst & Hb & Hpr & Hok & Hc & l1 & l2 & Href & Hcl).
  destruct Hc as (c & Hc & Hk & Ha & ->). pose proof (co_client _ _ _ _ Hco _ _ Hc) as Hclient.
  pose proof (lookup_lt_Some _ _ _ He) as Hlt. fold (size_in_chunks sc) in Hlt.
  replace off with (get_store_offset_for_chunk i + rc_adjust c) in * by lia.
  unfold hit_done. rewrite Hr, (hit_bytes sc m calls i c Hco Hlt (proj1 Hclient)). cbv zeta beta iota.
  set (bs := slice _ _ (slice _ _ _)).
  assert (length bs = SmartIov.bytes_of (rc_dest c)) as Hlen.
  { apply length_slice. rewrite (proj1 Hok). destruct Hclient as ((_ & _ & ? & ?) & _). unfold chunk_bytes. lia. }
  destruct (write_client _ _ bs Hclient Hlen) as (h' & Hw & Hcw).
  rewrite Hw, bind_some. unfold dec_chunk_refcount. rewrite He, !bind_some.
  rewrite length_app in Href. cbn [length] in Href.
  rewrite assert_true by (apply Z.ltb_lt; lia). rewrite !bind_some. eexists _, _. split; [reflexivity|].
  split; [|exists c; split_and!; [done..|]; intros Hcov; cbn [m_heap]; rewrite <- Hw; apply (serve_bytes obj_data); [by rewrite Hk|apply Hclient|done]].
  eapply (update_in_place sc m); eauto; simpl; try done.
  - intros j Hj. by eapply reqs_at_delete_ne.
  - intros k. by eapply ids_delete.
  - intros a Ha' _. by apply Hcw.
  - intros a _. by apply Hcw.
  - rewrite reqs_at_delete. unfold ReadCoherence.chunk_inv. cbn [status add_ref]. rewrite Hst.
    cbn [add_ref key pending_fill_data pending_reads refcount]. split_and!; try done.
    exists (l1 ++ l2). split; [rewrite length_app; lia|].
    eapply clients_remove; [exact Hcl|intros; by apply lookup_delete_ne|by rewrite lookup_delete_eq].
Qed.

(** ** Fills *)

(** What there is of a block of an object, copied into a buffer of the block's
    size *)
Lemma fill_block h buf off n b :
  allocated h (cells_at (buf, 0) n) →
  ∃ h' bs, mem_write h (buf, 0) (slice off n b) = Some h' ∧ mem_read h' (buf, 0) n = Some bs ∧
    length bs = n ∧
    (∀ o l, (o + l ≤ n)%nat → (off + o + l ≤ length b)%nat → slice o l bs = slice (off + o) l b) ∧
    (∀ a, a.1 ≠ buf → h' !! a = h !! a) ∧ (∀ a, is_Some (h' !! a) ↔ is_Some (h !! a)).
Proof.
  intros Hal. set (s := slice off n b).
  assert (length s = Nat.min n (length b - off)) as Hs
    by (unfold s, slice; by rewrite length_take, length_drop).
  destruct (proj1 (read_cells_allocated _ _) Hal) as [old Hold].
  pose proof (read_cells_length _ _ _ Hold) as Hol. rewrite length_cells in Hol.
  destruct (write_cells_allocated h (cells_at (buf, 0) (length s)) s) as [h' Hw].
  { intros a Ha. apply Hal. apply elem_of_cells in Ha as [? ?]. apply elem_of_cells. split; [done|]. lia. }
  { by rewrite length_cells. }
  exists h', (splice 0 s old). split_and!.
  - exact Hw.
  - apply (write_slice_read h); [apply NoDup_cells|done|rewrite length_cells; lia|].
    rewrite slice_cells by lia. exact Hw.
  - rewrite length_splice; lia.
  - intros o l Hon Hlen. unfold splice. rewrite take_0, app_nil_l. rewrite slice_app_l by lia.
    by apply slice_slice.
  - intros a Ha. eapply write_cells_other; [exact Hw|]. intros [? _]%elem_of_cells. by destruct Ha.
  - intros a. by eapply write_cells_dom.
Qed.

Lemma fill_buffer h buf (k : chunk_key) b :
  allocated h (cells_at (buf, 0) chunk_bytes) →
  (∀ b', obj_data (oname k.1.1 k.1.2) = Some b' → b' = b) →
  ∃ h' bs, mem_write h (buf, 0) (slice (Z.to_nat k.2) chunk_bytes b) = Some h' ∧
    mem_read h' (buf, 0) chunk_bytes = Some bs ∧ chunk_ok k bs ∧
    (∀ a, a.1 ≠ buf → h' !! a = h !! a) ∧ (∀ a, is_Some (h' !! a) ↔ is_Some (h !! a)).
Proof.
  intros Hal Hobj.
  destruct (fill_block h buf (Z.to_nat k.2) chunk_bytes b Hal) as (h' & bs & ? & ? & ? & Hs & ? & ?).
  exists h', bs. split_and!; try assumption. split; [assumption|].
  intros b' o n Hb'. rewrite (Hobj b' Hb'). apply Hs.
Qed.

(** The completion of the backend read, of the object as it is for good *)
Lemma backend_done_ok sc m calls id i k buf a d :
  coherent sc m calls → sc_reqs sc !! id = Some (CacheMiss i k buf a d Running) →
  ∃ sc' m', backend_done sc m id (obj_data (oname k.1.1 k.1.2)) = Some (sc', m') ∧
    moves sc sc' m m' calls ∧ (∀ c, c.1 ≤ 0 → m_heap m' !! c = m_heap m !! c).
Proof.
  intros Hco Hr. destruct (coherent_inv _ _ _ _ _ Hco Hr) as (e & He & Hi & Hra). cbn [chunk_of] in *.
  destruct (fetching_inv _ _ _ _ _ _ _ _ _ _ _ _ Hi Hra ltac:(by right))
    as (Hst & -> & Hb & Hc & Hal & Href & Hcl).
  pose proof (co_buf _ _ _ _ Hco _ _ _ He Hb) as Hbuf.
  set (k := key e) in *. unfold backend_done. rewrite Hr, He.
  assert (∃ h' bs, (match obj_data (oname k.1.1 k.1.2) with
      | Some b => mem_write (m_heap m) (buf, 0) (slice (Z.to_nat k.2) chunk_bytes b)
      | None => Some (m_heap m) end) = Some h' ∧
    mem_read h' (buf, 0) chunk_bytes = Some bs ∧ chunk_ok k bs ∧
    (∀ a, a.1 ≠ buf → h' !! a = m_heap m !! a) ∧ (∀ a, is_Some (h' !! a) ↔ is_Some (m_heap m !! a)))
    as (h' & bs & -> & Hread & Hok & Hoth & Hdom).
  { destruct (obj_data _) as [b|] eqn:Hb'; [apply fill_buffer; [done|]; rewrite Hb'; by intros ? [= <-]|].
    destruct (proj1 (read_cells_allocated _ _) Hal) as [old Hold]. exists (m_heap m), old.
    split_and!; try done. split; [exact (mem_read_length _ _ _ _ Hold)|]. intros b o n Hob. congruence. }
  rewrite !bind_some. eexists _, _. split; [reflexivity|]. split; [|intros c Hc1; apply Hoth; lia].
  eapply (update_in_place sc m); eauto; simpl; try done.
  - intros b [= <-]. done.
  - intros j Hj. apply reqs_at_insert_ne; [done|]. rewrite Hr. by intros ? [= <-].
  - intros k'. by eapply ids_insert.
  - intros c _ Hne. apply Hoth. congruence.
  - intros c _. by apply Hdom.
  - rewrite reqs_at_insert by done. eexists id, _, buf, (pending_reads e), bs. rewrite lookup_insert_eq.
    cbn [key pending_reads pending_fill_data refcount]. split_and!; try done.
    + left. by exists a, d.
    + by apply clients_other_mid.
Qed.

(** A copy from the buffer of a chunk to the destination of a call *)
Lemma copy_client h buf bs k calls id a d :
  1 ≤ buf → mem_read h (buf, 0) chunk_bytes = Some bs → chunk_ok k bs →
  for_call calls id k a d → (∀ c, calls !! id = Some c → client_call h c) →
  ∃ h' c, calls !! id = Some c ∧ SmartIov.copy_in h d (buf, a) = Some h' ∧ client_write h h' ∧
    (covered c → serve obj_data h c = Some h').
Proof.
  intros Hb Hr Hok (c & Hc & <- & -> & ->) Hcl. specialize (Hcl c Hc).
  rewrite (copy_chunk h buf bs c Hb Hr Hcl).
  destruct (write_client h c (slice (Z.to_nat (rc_adjust c)) (SmartIov.bytes_of (rc_dest c)) bs) Hcl)
    as (h' & Hw & Hcw).
  { apply length_slice. rewrite (proj1 Hok). destruct Hcl as ((_ & _ & ? & ?) & _). unfold chunk_bytes. lia. }
  exists h', c. rewrite Hw. split_and!; try done. intros Hcov. rewrite <- Hw.
  apply (serve_bytes obj_data); [done|apply Hcl|done].
Qed.

Lemma client_write_buffer h h' buf : 1 ≤ buf → client_write h h' → mem_read h' (buf, 0) chunk_bytes = mem_read h (buf, 0) chunk_bytes.
Proof.
  intros Hb [Hw _]. apply read_cells_ext. intros c [Hc _]%elem_of_cells. apply Hw. simpl in Hc. lia.
Qed.

Lemma waiting_inv i k calls l mid rs id :
  clients (waiting_read i k calls) (id :: l) mid rs →
  ∃ a d p, rs !! id = Some (PendingRead i a d p false) ∧ for_call calls id k a d ∧ Some id ≠ mid.
Proof.
  intros (_ & Hin & _). destruct (Hin id) as (Hm & r & Hr & a & d & p & -> & Hc); [by left|].
  by exists a, d, p.
Qed.

(** One waiting read is served. *)
Lemma dispatch_one_ok sc m calls id i k buf a d r ws :
  coherent sc m calls → sc_reqs sc !! id = Some (CacheMiss i k buf a d (Dispatching (r :: ws))) →
  ∃ sc' m', dispatch sc m id = Some (sc', m', Some r) ∧ moves sc sc' m m' calls ∧ serves calls r m m'.
Proof.
  intros Hco Hr. destruct (coherent_inv _ _ _ _ _ Hco Hr) as (e & He & Hi & Hra). cbn [chunk_of] in *.
  destruct (filling_inv _ _ _ _ _ _ _ _ Hi Hra I) as (Hst & b & l & bs & Hf & Hpr & Hb & Hread & Hok & Href & Hcl).
  { intros ? ? ? ? st Heq. split; intros ->; discriminate Heq. }
  destruct Hf as [(a0 & d0 & Hreq & Hc)|[(? & ? & [=] & _)|[[=] _]]]. injection Hreq as -> -> -> -> <-.
  destruct (waiting_inv _ _ _ _ _ _ _ Hcl) as (a1 & d1 & p & Hr1 & Hc1 & Hne).
  pose proof Hr1 as [Hr1' _]%reqs_at_lookup. pose proof (co_buf _ _ _ _ Hco _ _ _ He Hb) as Hbuf.
  destruct (copy_client (m_heap m) b bs (key e) calls r a1 d1) as (h' & c & Hcall & Hcopy & Hcw & Hserve);
    try done; [lia|intros c; by apply (co_client _ _ _ _ Hco)|].
  unfold dispatch. rewrite Hr. unfold pending_done. rewrite Hr1', Hcopy, !bind_some.
  unfold dec_chunk_refcount. rewrite He, !bind_some. cbn [length] in Href.
  rewrite assert_true by (apply Z.ltb_lt; lia). rewrite !bind_some. eexists _, _. split; [reflexivity|].
  split; [|by exists c].
  set (rs1 := if p then delete r _ else _).
  assert (∀ j, j ≠ r → rs1 !! j = sc_reqs sc !! j) as Hoth.
  { intros j Hj. unfold rs1. destruct p; [by apply lookup_delete_ne|by apply lookup_insert_ne]. }
  assert (∀ x, rs1 !! r = Some x → done_read x ∧ chunk_of x = i) as Hdone.
  { intros x. unfold rs1. destruct p; [by rewrite lookup_delete_eq|].
    rewrite lookup_insert_eq. by intros [= <-]. }
  clearbody rs1. eapply (update_in_place sc m); eauto; cbn; try done.
  - intros j Hj. rewrite reqs_at_insert_ne; [|done|].
    + apply map_eq. intros x. apply option_eq. intros y. rewrite !reqs_at_lookup.
      destruct (decide (x = r)) as [->|]; [|by rewrite Hoth].
      rewrite Hr1'. split; intros [Hx Hy]; [by destruct (Hdone y Hx); congruence|].
      injection Hx as <-. cbn [chunk_of] in Hy. congruence.
    + intros r0. rewrite Hoth by congruence. rewrite Hr. by intros [= <-].
  - intros j [x Hx]. destruct (decide (j = id)) as [->|]; [by eapply coherent_id|].
    rewrite lookup_insert_ne in Hx by done. destruct (decide (j = r)) as [->|]; [by eapply coherent_id|].
    rewrite Hoth in Hx by done. by eapply coherent_id.
  - intros x Hx _. by apply Hcw.
  - intros x _. by apply Hcw.
  - rewrite reqs_at_insert by done. unfold ReadCoherence.chunk_inv. cbn [status add_ref]. rewrite Hst.
    eexists id, _, b, ws, bs. cbn [key pending_reads pending_fill_data refcount add_ref].
    rewrite lookup_insert_eq. split_and!; try done.
    + left. by exists a0, d0.
    + rewrite (client_write_buffer _ _ b) in * by (done || lia). done.
    + lia.
    + apply clients_other_mid. apply (clients_remove _ [] r ws (Some id) (reqs_at i (sc_reqs sc))); [exact Hcl| |].
      * intros j Hj. apply option_eq. intros x. rewrite !reqs_at_lookup. by rewrite Hoth.
      * intros x [Hx _]%reqs_at_lookup. by apply Hdone.
Qed.

(** The request's own read, when no other is waiting *)
Lemma dispatch_end_ok sc m calls id i k buf a d :
  coherent sc m calls → sc_reqs sc !! id = Some (CacheMiss i k buf a d (Dispatching [])) →
  ∃ sc' m', dispatch sc m id = Some (sc', m', None) ∧ moves sc sc' m m' calls ∧ serves calls id m m'.
Proof.
  intros Hco Hr. destruct (coherent_inv _ _ _ _ _ Hco Hr) as (e & He & Hi & Hra). cbn [chunk_of] in *.
  destruct (filling_inv _ _ _ _ _ _ _ _ Hi Hra I) as (Hst & b & l & bs & Hf & Hpr & Hb & Hread & Hok & Href & Hcl).
  { intros ? ? ? ? st Heq. split; intros ->; discriminate Heq. }
  destruct Hf as [(a0 & d0 & Hreq & Hc)|[(? & ? & [=] & _)|[[=] _]]]. injection Hreq as -> -> -> -> <-.
  pose proof (co_buf _ _ _ _ Hco _ _ _ He Hb) as Hbuf.
  destruct (copy_client (m_heap m) b bs (key e) calls id a0 d0) as (h' & c & Hcall & Hcopy & Hcw & Hserve);
    try done; [lia|intros c; by apply (co_client _ _ _ _ Hco)|].
  unfold dispatch. rewrite Hr, Hcopy, !bind_some. eexists _, _. split; [reflexivity|].
  split; [|by exists c]. unfold with_reqs. rewrite <- (list_insert_id _ _ _ He).
  eapply (update_in_place sc m); eauto; cbn; try done.
  - intros j Hj. apply reqs_at_insert_ne; [done|]. rewrite Hr. by intros ? [= <-].
  - intros k'. by eapply ids_insert.
  - intros x Hx _. by apply Hcw.
  - intros x _. by apply Hcw.
  - rewrite reqs_at_insert by done. unfold ReadCoherence.chunk_inv. rewrite Hst.
    eexists id, _, b, [], bs. rewrite lookup_insert_eq. split_and!; try done.
    + right. left. by exists a0, d0.
    + rewrite (client_write_buffer _ _ b) in * by (done || lia). done.
    + by apply clients_other_mid.
Qed.

(** The write to the cache file is done: the chunk is valid. *)
Lemma fill_done_ok sc m calls id r :
  coherent sc m calls → sc_reqs sc !! id = Some r →
  (∃ i k buf, r = CacheInsert i k buf) ∨ (∃ i k buf a d, r = CacheMiss i k buf a d Storing) →
  ∃ sc' m', fill_done sc m id = Some (sc', m') ∧ moves sc sc' m m' calls ∧
    (∀ c, c.1 ≤ 0 → m_heap m' !! c = m_heap m !! c).
Proof.
  intros Hco Hr Hkind. destruct (coherent_inv _ _ _ _ _ Hco Hr) as (e & He & Hi & Hra).
  destruct (filling_inv _ _ _ _ _ _ _ _ Hi Hra) as (Hst & b & l & bs & Hf & Hpr & Hb & Hread & Hok & Href & Hcl).
  { destruct Hkind as [(? & ? & ? & ->)|(? & ? & ? & ? & ? & ->)]; exact I. }
  { intros ? ? ? ? st Hq. destruct Hkind as [(? & ? & ? & Heq)|(? & ? & ? & ? & ? & Heq)];
      rewrite Heq in Hq; split; intros ->; discriminate Hq. }
  set (i := chunk_of r) in *. pose proof (co_buf _ _ _ _ Hco _ _ _ He Hb) as Hbuf.
  assert (l = [] ∧ (match sc_reqs sc !! id with
                   | Some (CacheMiss chunk _ buf _ _ Storing) => Some (chunk, buf)
                   | Some (CacheInsert chunk _ buf) => Some (chunk, buf)
                   | _ => None
                   end) = Some (i, b)) as [-> Hmatch].
  { rewrite Hr. destruct Hf as [(? & ? & Hq & _)|[(? & ? & Hq & ->)|[Hq ->]]]; rewrite Hq; [|done..].
    destruct Hkind as [(? & ? & ? & Heq)|(? & ? & ? & ? & ? & Heq)]; rewrite Heq in Hq; discriminate Hq. }
  pose proof (lookup_lt_Some _ _ _ He) as Hlt. fold (size_in_chunks sc) in Hlt.
  pose proof (chunk_off_range i _ _ Hlt (co_file _ _ _ _ Hco)) as Hoff.
  pose proof (proj1 Hok) as Hlen.
  unfold fill_done. rewrite Hmatch, bind_some. unfold store_chunk. rewrite Hread, !bind_some.
  unfold on_store_done. cbn [sc_entries]. rewrite He, !bind_some.
  eexists _, _. split; [reflexivity|]. split; [|intros c Hc; apply free_other; lia].
  fold (chunk_off i). set (file := dev_write _ _ _).
  assert (length file = length (sc_file sc)) as Hfl by (unfold file; rewrite length_dev_write; lia).
  assert (slice (chunk_off i) chunk_bytes file = bs) as Hown
    by (unfold file; rewrite <- Hlen; apply dev_write_same).
  assert (∀ j, j ≠ i → (j < size_in_chunks sc)%nat →
    slice (chunk_off j) chunk_bytes file = slice (chunk_off j) chunk_bytes (sc_file sc)) as Hother.
  { intros j Hj Hjlt. pose proof (chunk_off_range j _ _ Hjlt (co_file _ _ _ _ Hco)). unfold file.
    apply dev_write_other; [done|]. rewrite Hlen. by apply chunk_off_apart. }
  clearbody file. eapply coherent_update; [exact Hco|]. split; cbn; eauto; try lia; try done.
  - intros k j Hm. destruct (decide (j = i)) as [->|]; [right|by left].
    destruct (co_map _ _ _ _ Hco _ _ Hm) as (e0 & He0 & <- & Hs).
    rewrite He in He0. injection He0 as <-. by split_and!.
  - apply (co_clock _ _ _ _ Hco). lia.
  - intros j Hj. by eapply reqs_at_delete_ne.
  - intros k. by eapply ids_delete.
  - intros c _ Hne. apply free_other. congruence.
  - intros c Hc Hs. by rewrite free_other by lia.
  - rewrite reqs_at_delete. unfold ReadCoherence.chunk_inv. cbn [status pending_fill_data pending_reads key refcount].
    rewrite Hown. split_and!; try done. exists []. split; [rewrite Href; cbn [length]; lia|].
    by eapply clients_end.
Qed.
End steps.
