(* ===== verification/ReadMake.v ===== *)
(** * Reads of the read cache

    [make_read_req] in its four cases, and the insertion of a chunk: from a
    coherent state with a chunk to evict they run without a fault and lead to a
    coherent state. *)

From S2P Require Import Prelude Bytes Extent Memory SmartIov LsvdTypes WriteCache ReadPath ReadSpec.
From S2P Require Import ReadCache ReadClock ReadCoherence ReadSteps.

Implicit Types (rs : gmap Z cache_req) (calls : gmap Z read_call) (h : heap) (e : entry_state).

Section make.
Variable obj_data : string → option bytes.
Notation coherent := (coherent obj_data).
Notation chunk_inv := (chunk_inv obj_data).
Notation chunk_ok := (chunk_ok obj_data).
Notation covered := (covered obj_data).
Notation moves := (moves obj_data).

(** ** Changes that do not matter *)

Lemma coherent_stats sc m calls s : coherent sc m calls → coherent (with_stats sc s) m calls.
Proof. intros []. by split. Qed.

Lemma chunk_inv_same i e e' rs data h calls :
  same_entry e e' → chunk_inv i e rs data h calls → chunk_inv i e' rs data h calls.
Proof. by intros [-> | ->]. Qed.

(** The access bits and the hand of the clock *)
Lemma coherent_clock sc m calls es clk :
  coherent sc m calls → Forall2 same_entry (sc_entries sc) es → (clk < length es)%nat →
  coherent (mk_cache es (sc_map sc) clk (sc_reqs sc) (sc_next sc) (sc_file sc) (sc_stats sc)) m calls.
Proof.
  intros Hco Hs Hclk. pose proof (Forall2_length _ _ _ Hs) as Hl.
  assert (∀ i e', es !! i = Some e' → ∃ e, sc_entries sc !! i = Some e ∧ same_entry e e') as Hback.
  { intros i e' He'. by apply (Forall2_lookup_r _ _ _ _ _ Hs). }
  destruct Hco. split; unfold size_in_chunks in *; cbn; rewrite <- ?Hl; try done.
  - lia.
  - intros k i Hk. destruct (co_map k i Hk) as (e & He & Hke & Hst).
    destruct (Forall2_lookup_l _ _ _ _ _ Hs He) as (e' & He' & Hsame).
    destruct (same_entry_fields _ _ Hsame) as (Hs1 & _ & _ & _ & Hk1). exists e'. split; [done|].
    split; congruence.
  - intros i e' He'. destruct (Hback i e' He') as (e & He & Hsame).
    eapply chunk_inv_same; eauto.
  - intros i e' b He' Hb. destruct (Hback i e' He') as (e & He & Hsame).
    destruct (same_entry_fields _ _ Hsame) as (_ & _ & Hp & _). apply (co_buf i e); congruence.
  - intros i j e' f' b He' Hf' Hb Hb'. destruct (Hback i e' He') as (e & He & Hsame).
    destruct (Hback j f' Hf') as (f & Hf & Hsame').
    destruct (same_entry_fields _ _ Hsame) as (_ & _ & Hp & _).
    destruct (same_entry_fields _ _ Hsame') as (_ & _ & Hp' & _). apply (co_bufs i j e f b); congruence.
Qed.

Lemma moves_stats sc sc' m m' calls s : moves (with_stats sc s) sc' m m' calls → moves sc sc' m m' calls.
Proof. intros [? []]. split; [done|]. by split. Qed.

Lemma moves_after sc sc1 sc' m m' calls : frame sc sc1 m m → moves sc1 sc' m m' calls → moves sc sc' m m' calls.
Proof. intros Hf [? ?]. split; [done|]. by eapply frame_trans. Qed.

Lemma clock_frame sc m es clk :
  Forall2 same_entry (sc_entries sc) es →
  frame sc (mk_cache es (sc_map sc) clk (sc_reqs sc) (sc_next sc) (sc_file sc) (sc_stats sc)) m m.
Proof.
  intros Hs. split; [done|done|done|]. intros i e' b He' Hb. left.
  destruct (Forall2_lookup_r _ _ _ _ _ Hs He') as (e & He & Hsame).
  destruct (same_entry_fields _ _ Hsame) as (_ & _ & Hp & _). exists i, e. split; [done|congruence].
Qed.

(** ** Eviction *)

(** A chunk that the clock stops at has no clients. *)
Lemma evictable_inv i e rs data h calls :
  chunk_inv i e rs data h calls → evictable e →
  pending_fill_data e = None ∧ pending_reads e = [] ∧ refcount e = 0 ∧
  ∀ P, clients P [] None rs.
Proof.
  unfold ReadCoherence.chunk_inv. intros Hi Hev. unfold evictable in Hev. destruct (status e).
  - destruct Hi as (? & ? & ? & Hcl). split_and!; try done. intros P. by eapply clients_none.
  - destruct Hi as (_ & _ & _ & _ & _ & _ & _ & _ & _ & _ & Href & _). destruct Hev; [done|lia].
  - destruct Hi as (_ & _ & _ & l & _ & _ & _ & _ & _ & _ & _ & Href & _). destruct Hev; [done|lia].
  - destruct Hi as (? & ? & _ & l & Href & Hcl). destruct Hev as [?|Hr]; [done|].
    destruct l; [|cbn [length] in Href; lia]. split_and!; try done. intros P. by eapply clients_none.
Qed.

Lemma allocate_chunk_ok fuel sc m calls :
  coherent sc m calls → Exists evictable (sc_entries sc) → (2 * size_in_chunks sc ≤ fuel)%nat →
  ∃ es idx e clk, let sc' := mk_cache es (delete (key e) (sc_map sc)) clk (sc_reqs sc) (sc_next sc)
                           (sc_file sc) (sc_stats sc) in
    allocate_chunk fuel sc = Some (sc', idx) ∧ moves sc sc' m m calls ∧
    es !! idx = Some (with_status e EMPTY).
Proof.
  intros Hco Hex Hfuel. assert (sc_clock sc < length (sc_entries sc))%nat as Hclk.
  { apply (co_clock _ _ _ _ Hco). unfold size_in_chunks. apply Exists_exists in Hex as (e & Hin & _).
    destruct (sc_entries sc); [by apply not_elem_of_nil in Hin|simpl; lia]. }
  destruct (clock_stops_any fuel _ _ Hclk Hex Hfuel) as [[es idx] Hs].
  destruct (clock_search_some _ _ _ _ _ Hs) as (e & He & Hf & Hsame).
  pose proof (Forall2_length _ _ _ Hsame) as Hl. pose proof (lookup_lt_Some _ _ _ He) as Hlt.
  pose proof (Nat.mod_upper_bound (idx + 1) (length es) ltac:(lia)) as Hmod.
  pose proof (coherent_clock sc m calls es _ Hco Hsame Hmod) as Hco1.
  destruct (evictable_inv _ _ _ _ _ _ (co_inv _ _ _ _ Hco1 idx e He) (found_evictable _ Hf))
    as (Hb & Hpr & Href & Hcl).
  exists (<[idx := with_status e EMPTY]> es), idx, e, ((idx + 1) mod length es)%nat. cbv zeta.
  split; [|split; [|by apply list_lookup_insert_eq]].
  - unfold allocate_chunk. rewrite Hs, bind_some, He, bind_some, Hb, Hpr. done.
  - match goal with |- ReadCoherence.moves _ _ ?sc2 _ _ _ => set (sc' := sc2) end.
    match type of Hco1 with ReadCoherence.coherent _ ?sc1 _ _ => set (sc0 := sc1) in * end.
    apply (moves_after sc sc0); [by apply clock_frame|].
    subst sc0 sc'. destruct m as [h nx]. eapply coherent_update; [exact Hco1|]. split; cbn; eauto; try lia; try done.
    + intros k j [Hk Hj]%lookup_delete_Some. left. split; [|done]. intros ->.
      destruct (co_map _ _ _ _ Hco1 _ _ Hj) as (e0 & He0 & <- & _). cbn in He0. rewrite He in He0.
      by injection He0 as <-.
    + apply (co_ids _ _ _ _ Hco).
Qed.

(** ** New requests *)

(** The chunk [i], empty so far, gets a new key, a buffer and a request. *)
Lemma claim_ok sc m m' calls calls' i e e' r :
  coherent sc m calls → sc_entries sc !! i = Some e → status e = EMPTY → status e' ≠ EMPTY →
  chunk_of r = i → calls ⊆ calls' →
  (∀ a, 1 ≤ a.1 < m_next m → m_heap m' !! a = m_heap m !! a) →
  (∀ a, a.1 ≤ 0 → is_Some (m_heap m !! a) → is_Some (m_heap m' !! a)) →
  m_next m ≤ m_next m' →
  (∀ b, pending_fill_data e' = Some b → m_next m ≤ b < m_next m') →
  (∀ id c, calls' !! id = Some c → calls !! id = Some c ∨ id < sc_next sc + 1 ∧ client_call (m_heap m) c) →
  chunk_inv i e' (<[sc_next sc := r]> (reqs_at i (sc_reqs sc)))
    (slice (chunk_off i) chunk_bytes (sc_file sc)) (m_heap m') calls' →
  moves sc (new_request (claim sc i e' (key e')) r).1 m m' calls'.
Proof.
  intros Hco He Hst Hst' Hr Hc Hh Hd Hn Hb Hnew Hinv.
  assert (sc_reqs sc !! sc_next sc = None) as Hfresh.
  { destruct (sc_reqs sc !! sc_next sc) as [r0|] eqn:E; [|done].
    pose proof (coherent_id _ _ _ _ _ _ Hco E). lia. }
  eapply coherent_update; [exact Hco|]. split; cbn; eauto; try lia; try done.
  - intros k j Hk. unfold map_insert in Hk.
    assert (sc_map sc !! k = Some j → (j ≠ i ∧ sc_map sc !! k = Some j)) as Hold.
    { intros Hj. split; [|done]. intros ->. destruct (co_map _ _ _ _ Hco _ _ Hj) as (e0 & He0 & _ & Hs).
      rewrite He in He0. by injection He0 as <-. }
    destruct (sc_map sc !! key e') eqn:E; [auto|]. destruct (decide (k = key e')) as [->|Hne].
    + rewrite lookup_insert_eq in Hk. injection Hk as <-. by right.
    + rewrite lookup_insert_ne in Hk by done. auto.
  - apply (co_clock _ _ _ _ Hco). apply lookup_lt_Some in He. unfold size_in_chunks. lia.
  - intros j Hj. apply reqs_at_insert_ne; [congruence|]. by rewrite Hfresh.
  - intros id [x Hx]. destruct (decide (id = sc_next sc)) as [->|]; [lia|].
    rewrite lookup_insert_ne in Hx by done. pose proof (coherent_id _ _ _ _ _ _ Hco Hx). lia.
  - rewrite reqs_at_insert by done. done.
Qed.

(** A new call *)
Lemma new_call sc m calls c :
  coherent sc m calls → client_call (m_heap m) c →
  calls ⊆ <[sc_next sc := c]> calls ∧
  ∀ id c', <[sc_next sc := c]> calls !! id = Some c' →
    calls !! id = Some c' ∨ id < sc_next sc + 1 ∧ client_call (m_heap m) c'.
Proof.
  intros Hco Hc. split.
  - apply insert_subseteq. destruct (calls !! sc_next sc) as [c0|] eqn:E; [|done].
    pose proof (co_calls _ _ _ _ Hco (sc_next sc) ltac:(by eexists)). lia.
  - intros id c'. destruct (decide (id = sc_next sc)) as [->|].
    + rewrite lookup_insert_eq. intros [= <-]. right. split; [lia|done].
    + rewrite lookup_insert_ne by done. by left.
Qed.

Lemma fresh_id sc m calls i : coherent sc m calls → reqs_at i (sc_reqs sc) !! sc_next sc = None.
Proof.
  intros Hco. destruct (reqs_at i _ !! _) as [r|] eqn:E; [|done]. apply reqs_at_lookup in E as [E _].
  pose proof (coherent_id _ _ _ _ _ _ Hco E). lia.
Qed.

(** What a read that has been made leaves *)
Definition made sc m calls c (res : option (shared_read_cache * memory * option Z)) : Prop :=
  ∃ sc' m' r, res = Some (sc', m', r) ∧
    match r with
    | Some id => id = sc_next sc ∧ moves sc sc' m m' (<[id := c]> calls) ∧
                 ∀ a, a.1 ≤ 0 → m_heap m' !! a = m_heap m !! a
    | None => moves sc sc' m m' calls ∧ client_write (m_heap m) (m_heap m') ∧
              (covered c → serve obj_data (m_heap m) c = Some (m_heap m'))
    end.

Lemma read_miss_ok fuel sc m calls c :
  coherent sc m calls → client_call (m_heap m) c → Exists evictable (sc_entries sc) →
  (2 * size_in_chunks sc ≤ fuel)%nat → sc_map sc !! key_of c = None →
  made sc m calls c (read_miss fuel sc m (key_of c) (rc_adjust c) (rc_dest c)).
Proof.
  intros Hco Hc Hex Hfuel Hk. unfold read_miss. cbv zeta. unfold alloc_buf.
  set (sc0 := with_stats sc _). apply (coherent_stats _ _ _ (sc_stats sc0)) in Hco as Hco0.
  fold sc0 in Hco0. change (with_stats sc (sc_stats sc0)) with sc0 in Hco0.
  destruct (allocate_chunk_ok fuel sc0 m calls Hco0 Hex Hfuel) as (es & i & e & clk & Hal & [Hco1 Hfr1] & He).
  cbv zeta in *. rewrite Hal, bind_some. cbn [sc_entries]. rewrite He, bind_some.
  set (sc1 := mk_cache es _ _ _ _ _ _) in *.
  destruct (evictable_inv _ _ _ _ _ _ (co_inv _ _ _ _ Hco1 i _ He) (or_introl eq_refl))
    as (Hb & Hpr & Href & Hcl).
  destruct (new_call sc1 m calls c Hco1 Hc) as [Hsub Hnew].
  pose proof (co_next _ _ _ _ Hco) as Hnx.
  pose proof (malloc_other (m_heap m) (m_next m) chunk_bytes) as Hm.
  pose proof (malloc_allocated (m_heap m) (m_next m) chunk_bytes) as Hma.
  set (h' := malloc _ _ _) in *. clearbody h'.
  set (e' := mk_entry FETCHING _ _ _ _ _).
  set (r := CacheMiss i (key_of c) (m_next m) (rc_adjust c) (rc_dest c) Made).
  eexists _, _, _. split; [reflexivity|]. cbv iota. split; [done|].
  split; [|intros a Ha; apply Hm; lia].
  change (key_of c) with (key e') at 1.
  eapply moves_stats, moves_after; [exact Hfr1|]. eapply (claim_ok sc1 m _ calls _ i _ e' r); eauto; cbn; try done; try lia.
  - intros a Ha. apply Hm. lia.
  - intros a Ha Hs. by rewrite Hm by lia.
  - intros b [= <-]. lia.
  - eexists (sc_next sc), (m_next m), (rc_adjust c), (rc_dest c), Made.
    rewrite lookup_insert_eq. cbn in Hb, Hpr, Href. rewrite Hpr, Href.
    cbn [e' key pending_fill_data refcount pending_reads length].
    split_and!; try done; [exists c; rewrite lookup_insert_eq; done|by left|].
    eapply clients_begin. apply (Hcl (λ _ _, False)).
Qed.

(** The entry of a key, and its invariant with the call of the next request *)
Lemma hit_entry sc m calls c i :
  coherent sc m calls → client_call (m_heap m) c → sc_map sc !! key_of c = Some i →
  ∃ e, sc_entries sc !! i = Some e ∧ key e = key_of c ∧ status e ≠ EMPTY ∧
    chunk_inv i e (reqs_at i (sc_reqs sc)) (slice (chunk_off i) chunk_bytes (sc_file sc)) (m_heap m)
      (<[sc_next sc := c]> calls).
Proof.
  intros Hco Hc Hk. destruct (co_map _ _ _ _ Hco _ _ Hk) as (e & He & Hke & Hst).
  exists e. split_and!; try done. eapply chunk_inv_frame; [by apply Hco|by apply new_call with (m := m)|done].
Qed.

(** A new request of a chunk that is in the cache *)
Lemma hit_made sc m calls c i e e' r s :
  coherent sc m calls → client_call (m_heap m) c → sc_entries sc !! i = Some e →
  key e' = key e → status e' ≠ EMPTY → pending_fill_data e' = pending_fill_data e → chunk_of r = i →
  chunk_inv i e' (<[sc_next sc := r]> (reqs_at i (sc_reqs sc)))
    (slice (chunk_off i) chunk_bytes (sc_file sc)) (m_heap m) (<[sc_next sc := c]> calls) →
  moves sc (mk_cache (<[i := e']> (sc_entries sc)) (sc_map sc) (sc_clock sc)
              (<[sc_next sc := r]> (sc_reqs sc)) (sc_next sc + 1) (sc_file sc) s)
    m m (<[sc_next sc := c]> calls).
Proof.
  intros Hco Hc He Hk Hst Hb Hr Hinv. destruct (new_call sc m calls c Hco Hc) as [Hsub Hnew].
  destruct m as [h nx]. eapply (update_in_place obj_data sc (mk_memory h nx)); eauto; simpl; try done; try lia.
  - congruence.
  - intros j Hj. apply reqs_at_insert_ne; [congruence|]. intros r0 Hr0.
    pose proof (coherent_id _ _ _ _ _ _ Hco Hr0). lia.
  - intros id [x Hx]. destruct (decide (id = sc_next sc)) as [->|]; [lia|].
    rewrite lookup_insert_ne in Hx by done. pose proof (coherent_id _ _ _ _ _ _ Hco Hx). lia.
  - by rewrite reqs_at_insert.
Qed.

Lemma make_valid_ok sc m calls c i e s :
  coherent sc m calls → client_call (m_heap m) c → sc_entries sc !! i = Some e → key e = key_of c →
  chunk_inv i e (reqs_at i (sc_reqs sc)) (slice (chunk_off i) chunk_bytes (sc_file sc)) (m_heap m)
    (<[sc_next sc := c]> calls) →
  status e = VALID →
  moves sc (mk_cache (<[i := with_accessed (add_ref e 1) true]> (sc_entries sc)) (sc_map sc) (sc_clock sc)
     (<[sc_next sc := CacheHit i (get_store_offset_for_chunk i + rc_adjust c) (rc_dest c) false]> (sc_reqs sc))
     (sc_next sc + 1) (sc_file sc) s) m m (<[sc_next sc := c]> calls).
Proof.
  intros Hco Hc He Hke Hi Hst. apply (hit_made sc m calls c i e); try done; [cbn; congruence|].
  unfold ReadCoherence.chunk_inv in *. cbn [status with_accessed add_ref]. rewrite Hst in *.
  destruct Hi as (Hb & Hpr & Hok & l & Href & Hcl). cbn. split_and!; try done.
  exists (l ++ [sc_next sc]). rewrite length_app, Href. split; [cbn [length]; lia|].
  apply clients_add; [done|by eapply fresh_id|done|].
  exists (rc_adjust c), (rc_dest c), false. split; [done|]. exists c. by rewrite lookup_insert_eq.
Qed.

Lemma make_fetching_ok sc m calls c i e s :
  coherent sc m calls → client_call (m_heap m) c → sc_entries sc !! i = Some e → key e = key_of c →
  chunk_inv i e (reqs_at i (sc_reqs sc)) (slice (chunk_off i) chunk_bytes (sc_file sc)) (m_heap m)
    (<[sc_next sc := c]> calls) →
  status e = FETCHING →
  moves sc (mk_cache
     (<[i := with_reads (with_accessed (add_ref e 1) true) (pending_reads e ++ [sc_next sc])]> (sc_entries sc))
     (sc_map sc) (sc_clock sc)
     (<[sc_next sc := PendingRead i (rc_adjust c) (rc_dest c) false false]> (sc_reqs sc))
     (sc_next sc + 1) (sc_file sc) s) m m (<[sc_next sc := c]> calls).
Proof.
  intros Hco Hc He Hke Hi Hst. apply (hit_made sc m calls c i e); try done; [cbn; congruence|].
  unfold ReadCoherence.chunk_inv in *. cbn [status with_accessed add_ref with_reads]. rewrite Hst in *.
  destruct Hi as (mid & buf & a & d & st & Hmid & Hcall & Hst' & Hb & Hal & Href & Hcl).
  pose proof (fresh_id sc m calls i Hco) as Hf. exists mid, buf, a, d, st.
  cbn [key pending_fill_data refcount pending_reads with_reads with_accessed add_ref].
  assert (mid ≠ sc_next sc) by congruence. split_and!; try done.
  - by rewrite lookup_insert_ne.
  - rewrite length_app, Href. cbn [length]. lia.
  - apply clients_add; [done..|congruence|]. exists (rc_adjust c), (rc_dest c), false. split; [done|].
    exists c. by rewrite lookup_insert_eq.
Qed.

Lemma make_filling_ok sc m calls c i e s :
  coherent sc m calls → client_call (m_heap m) c → sc_entries sc !! i = Some e → key e = key_of c →
  status e = FILLING →
  ∃ buf h', pending_fill_data e = Some buf ∧
    SmartIov.copy_in (m_heap m) (rc_dest c) (buf, rc_adjust c) = Some h' ∧ client_write (m_heap m) h' ∧
    (covered c → serve obj_data (m_heap m) c = Some h') ∧
    moves sc (mk_cache (<[i := add_ref (with_accessed (add_ref e 1) true) (-1)]> (sc_entries sc)) (sc_map sc)
       (sc_clock sc) (sc_reqs sc) (sc_next sc) (sc_file sc) s) m (mk_memory h' (m_next m)) calls.
Proof.
  intros Hco Hc He Hke Hst. pose proof (co_inv _ _ _ _ Hco i e He) as Hi.
  unfold ReadCoherence.chunk_inv in Hi. rewrite Hst in Hi.
  destruct Hi as (mid & r & buf & l & bs & Hmid & Hf & Hpr & Hb & Hread & Hok & Href & Hcl).
  pose proof (co_buf _ _ _ _ Hco _ _ _ He Hb) as Hbuf.
  destruct (copy_client obj_data (m_heap m) buf bs (key e) (<[0 := c]> ∅) 0 (rc_adjust c) (rc_dest c))
    as (h' & c' & Hc' & Hcopy & Hcw & Hserve); try done; [lia|by exists c|by intros ? [= <-]|].
  rewrite lookup_insert_eq in Hc'. injection Hc' as <-.
  exists buf, h'. split_and!; try done.
  eapply (update_in_place obj_data sc m); eauto; simpl; try done.
  - intros id. apply (co_ids _ _ _ _ Hco).
  - intros a Ha _. by apply Hcw.
  - intros a _. by apply Hcw.
  - unfold ReadCoherence.chunk_inv. cbn [status add_ref with_accessed]. rewrite Hst.
    exists mid, r, buf, l, bs. split_and!; try done; [|cbn; lia].
    by rewrite (client_write_buffer (m_heap m)) by (done || lia).
Qed.

(** [make_read_req] *)
Lemma make_read_req_ok fuel sc m calls c :
  coherent sc m calls → client_call (m_heap m) c →
  (sc_map sc !! key_of c = None → Exists evictable (sc_entries sc)) →
  (2 * size_in_chunks sc ≤ fuel)%nat → made sc m calls c (make_read_req fuel sc m c).
Proof.
  intros Hco Hc Hex Hfuel. pose proof Hc as ((Ho & Hm & Ha & Hn) & _).
  unfold make_read_req. cbv zeta. rewrite (assert_true (_ mod _ =? _)) by lia.
  rewrite (assert_true (_ <=? _)) by lia. rewrite !bind_some.
  change (rc_prefix c, rc_obj c, rc_offset c) with (key_of c).
  set (sc0 := with_stats sc _). assert (coherent sc0 m calls) as Hco0 by by apply coherent_stats.
  change (sc_map sc0) with (sc_map sc).
  match goal with |- context [match ?x with Some _ => _ | None => _ end] => destruct x as [i|] eqn:Hk end.
  - destruct (hit_entry sc m calls c i Hco Hc Hk) as (e & He & Hke & Hst & Hi).
    change (sc_entries (with_stats sc0 _)) with (sc_entries sc). rewrite He, bind_some. rewrite bool_decide_false by done.
    rewrite assert_true by done. rewrite bind_some. cbn [status with_accessed add_ref].
    destruct (status e) eqn:Es; [done|..].
    + eexists _, _, _. split; [reflexivity|]. split; [done|]. split; [|done]. by apply (make_fetching_ok sc m calls c i e).
    + destruct (make_filling_ok sc m calls c i e
        (record_stats (sc_stats sc0) 1 (Z.of_nat (SmartIov.bytes_of (rc_dest c))) 0) Hco Hc He Hke Es)
        as (buf & h' & Hb & Hcopy & ? & ? & ?).
      cbn [pending_fill_data with_accessed add_ref]. rewrite Hb, bind_some, Hcopy, bind_some.
      eexists _, _, _. split; [reflexivity|]. by split_and!.
    + eexists _, _, _. split; [reflexivity|]. split; [done|]. split; [|done]. by apply (make_valid_ok sc m calls c i e).
  - destruct (read_miss_ok fuel sc0 m calls c Hco0 Hc (Hex Hk) Hfuel Hk) as (sc' & m' & [id|] & Hr & Hok);
      exists sc', m'; eexists; (split; [exact Hr|]).
    + destruct Hok as (? & ?%moves_stats & ?). done.
    + destruct Hok as (?%moves_stats & ? & ?). done.
Qed.

(** An insertion: the buffer, the copy of the block and [insert_object] *)
Lemma insert_chunk_ok fuel sc m calls k b :
  coherent sc m calls → Exists evictable (sc_entries sc) → (2 * size_in_chunks sc ≤ fuel)%nat →
  (∀ b', obj_data (oname k.1.1 k.1.2) = Some b' → b' = b) →
  ∃ h sc', mem_write (m_heap (alloc_buf m).1) ((alloc_buf m).2, 0) (slice (Z.to_nat k.2) chunk_bytes b) = Some h ∧
    insert_chunk fuel sc k (alloc_buf m).2 = Some sc' ∧
    moves sc sc' m (mk_memory h (m_next (alloc_buf m).1)) calls ∧
    ∀ a, a.1 ≠ m_next m → h !! a = m_heap m !! a.
Proof.
  intros Hco Hex Hfuel Hobj. unfold alloc_buf. cbn [fst snd m_heap m_next].
  destruct (fill_buffer obj_data _ (m_next m) k b (malloc_allocated (m_heap m) (m_next m) chunk_bytes) Hobj)
    as (h & bs & Hw & Hread & Hok & Hoth & Hdom).
  assert (∀ a, a.1 ≠ m_next m → h !! a = m_heap m !! a) as Hoth'
    by (intros a Ha; rewrite Hoth by done; by apply malloc_other).
  destruct (allocate_chunk_ok fuel sc m calls Hco Hex Hfuel) as (es & i & e & clk & Hal & [Hco1 Hfr1] & He).
  cbv zeta in *. unfold insert_chunk. rewrite Hal, bind_some. cbn [sc_entries]. rewrite He, bind_some.
  set (sc1 := mk_cache es _ _ _ _ _ _) in *.
  destruct (evictable_inv _ _ _ _ _ _ (co_inv _ _ _ _ Hco1 i _ He) (or_introl eq_refl))
    as (Hb & Hpr & Href & Hcl).
  pose proof (co_next _ _ _ _ Hco) as Hnx.
  set (e' := mk_entry FILLING _ _ _ _ _).
  exists h. eexists. split; [exact Hw|]. split; [reflexivity|]. split; [|exact Hoth'].
  change k with (key e') at 1.
  eapply moves_after; [exact Hfr1|]. eapply (claim_ok sc1 m (mk_memory h _) calls calls i _ e' (CacheInsert i k (m_next m)));
    eauto; cbn; try done; try lia.
  - intros a Ha. apply Hoth'. lia.
  - intros a Ha Hs. by rewrite Hoth' by lia.
  - intros b' [= <-]. lia.
  - cbn in Hb, Hpr, Href. eexists (sc_next sc), _, (m_next m), [], bs.
    rewrite lookup_insert_eq, Hpr, Href.
    cbn [e' key pending_fill_data refcount pending_reads length].
    split_and!; try done; [by right; right|]. eapply clients_begin. apply (Hcl (λ _ _, False)).
Qed.
End make.
