(* ===== verification/ReadRefine.v ===== *)
(** * The read cache implements reads of objects

    The critical sections of the read cache as a step relation, interleaved in
    any order and with any activity of the rest of the process outside the
    cache's buffers.  Whatever has happened, a step that serves a call puts the
    bytes of the object into the call's destination and changes no other memory
    of a client ([read_cache_refines]), and the requests in flight always have a
    next step ([read_cache_drains]). *)

From stdpp Require Import relations.
From S2P Require Import Prelude Bytes Extent Memory SmartIov LsvdTypes WriteCache ReadPath ReadSpec.
From S2P Require Import ReadCache ReadClock ReadCoherence ReadSteps ReadMake.

Section refine.
(** The contents of the objects, which never change. *)
Variable obj_data : string → option bytes.
Notation coherent := (coherent obj_data).
Notation covered := (covered obj_data).

(** A shard, the memory of the process, and the calls made so far by the number
    of their request *)
Definition cache_state : Type := shared_read_cache * memory * gmap Z read_call.
Implicit Types (s : cache_state) (calls : gmap Z read_call).

(** What a step does for calls: a request is made, is run, is served; or the call
    is served while it is made.  The flag says that the parent of the request is
    notified. *)
Inductive event :=
| Quiet
| Begun (id : Z) (c : read_call)
| ReadNow (c : read_call)
| Ran (id : Z) (notified : bool)
| Served (id : Z) (c : read_call) (notified : bool)
| Outside.

(** The rest of the process: clients use their memory, other shards and
    components allocate theirs. *)
Definition outside (sc : shared_read_cache) (m m' : memory) : Prop :=
  m_next m ≤ m_next m' ∧
  (∀ a, a.1 ≤ 0 → is_Some (m_heap m !! a) → is_Some (m_heap m' !! a)) ∧
  (∀ i e a, sc_entries sc !! i = Some e → pending_fill_data e = Some a.1 → m_heap m' !! a = m_heap m !! a).

Inductive step : cache_state → event → cache_state → Prop :=
| step_read sc m calls c sc' m' id :
  client_call (m_heap m) c →
  make_read_req (2 * size_in_chunks sc) sc m c = Some (sc', m', Some id) →
  step (sc, m, calls) (Begun id c) (sc', m', <[id := c]> calls)
| step_read_now sc m calls c sc' m' :
  client_call (m_heap m) c →
  make_read_req (2 * size_in_chunks sc) sc m c = Some (sc', m', None) →
  step (sc, m, calls) (ReadNow c) (sc', m', calls)
| step_run sc m calls id r sc' b :
  sc_reqs sc !! id = Some r → fresh_req r →
  run sc id = Some (sc', b) → step (sc, m, calls) (Ran id b) (sc', m, calls)
| step_hit sc m calls id c sc' m' :
  calls !! id = Some c → hit_done sc m id = Some (sc', m') →
  step (sc, m, calls) (Served id c true) (sc', m', calls)
| step_backend sc m calls id i k buf a d sc' m' :
  sc_reqs sc !! id = Some (CacheMiss i k buf a d Running) →
  backend_done sc m id (obj_data (oname k.1.1 k.1.2)) = Some (sc', m') →
  step (sc, m, calls) Quiet (sc', m', calls)
| step_dispatch sc m calls id r c i a d has_parent b sc' m' :
  calls !! r = Some c → sc_reqs sc !! r = Some (PendingRead i a d has_parent b) →
  dispatch sc m id = Some (sc', m', Some r) →
  step (sc, m, calls) (Served r c has_parent) (sc', m', calls)
| step_parent sc m calls id c sc' m' :
  calls !! id = Some c → dispatch sc m id = Some (sc', m', None) →
  step (sc, m, calls) (Served id c true) (sc', m', calls)
| step_stored sc m calls id sc' m' :
  fill_done sc m id = Some (sc', m') → step (sc, m, calls) Quiet (sc', m', calls)
| step_insert sc m calls k b h sc' :
  (∀ b', obj_data (oname k.1.1 k.1.2) = Some b' → b' = b) →
  mem_write (m_heap (alloc_buf m).1) ((alloc_buf m).2, 0) (slice (Z.to_nat k.2) chunk_bytes b) = Some h →
  insert_chunk (2 * size_in_chunks sc) sc k (alloc_buf m).2 = Some sc' →
  step (sc, m, calls) Quiet (sc', mk_memory h (m_next (alloc_buf m).1), calls)
| step_outside sc m calls m' :
  outside sc m m' → step (sc, m, calls) Outside (sc, m', calls).

Definition inv s : Prop := coherent s.1.1 s.1.2 s.2.

(** The states of a shard of [n] chunks *)
Definition reachable (n : nat) s : Prop :=
  ∃ m, 1 ≤ m_next m ∧ rtc (λ s s', ∃ ev, step s ev s') (new_cache n, m, ∅) s.

(** What an event does to the memory of clients *)
Definition event_ok (ev : event) (m m' : memory) : Prop :=
  match ev with
  | Quiet | Begun _ _ | Ran _ _ => ∀ a, a.1 ≤ 0 → m_heap m' !! a = m_heap m !! a
  | ReadNow c | Served _ c _ => covered c → serve obj_data (m_heap m) c = Some (m_heap m')
  | Outside => True
  end.

(** ** The invariant *)

Lemma coherent_outside sc m m' calls : coherent sc m calls → outside sc m m' → coherent sc m' calls.
Proof.
  intros Hco (Hn & Hd & Hb). destruct Hco. split; try done.
  - intros i e He. eapply chunk_inv_frame; [by apply co_inv|done|]. intros b a Hp <-. by eapply Hb.
  - lia.
  - intros i e b He Hp. specialize (co_buf i e b He Hp). lia.
  - intros id c Hc. eapply client_call_dom; eauto.
Qed.

Lemma new_cache_coherent n m : 1 ≤ m_next m → coherent (new_cache n) m ∅.
Proof.
  intros Hn. assert (∀ i e, replicate n new_entry !! i = Some e → e = new_entry) as Hrep.
  { intros i e [-> _]%lookup_replicate. done. }
  split; unfold size_in_chunks; cbn; try done.
  - by rewrite length_zeros, length_replicate.
  - intros id [x Hx]. done.
  - intros id [x Hx]. done.
  - intros i e ->%Hrep. cbn. split_and!; try done. split; [constructor|]. split; [set_solver|].
    intros id r [Hr _]%reqs_at_lookup. done.
  - intros i e b ->%Hrep. done.
  - intros i j e f b ->%Hrep _. done.
Qed.

(** A search that succeeds has found a chunk. *)
Lemma allocate_inv fuel sc res :
  (sc_clock sc < size_in_chunks sc)%nat → allocate_chunk fuel sc = Some res → Exists evictable (sc_entries sc).
Proof.
  intros Hclk Hal. destruct (decide (Exists evictable (sc_entries sc))) as [|Hno]; [done|].
  unfold allocate_chunk in Hal. by rewrite clock_never in Hal by done.
Qed.

Lemma allocate_empty fuel sc : size_in_chunks sc = 0%nat → allocate_chunk fuel sc = None.
Proof.
  unfold size_in_chunks, allocate_chunk. intros ->%length_zero_iff_nil. destruct fuel; done.
Qed.

Lemma allocate_evictable fuel sc m calls res :
  coherent sc m calls → allocate_chunk fuel sc = Some res → Exists evictable (sc_entries sc).
Proof.
  intros Hco Hal. destruct (decide (size_in_chunks sc = 0)%nat) as [H0|Hne].
  - by rewrite allocate_empty in Hal.
  - eapply allocate_inv; [|done]. apply (co_clock _ _ _ _ Hco). lia.
Qed.

Lemma make_read_evictable fuel sc m calls c res :
  coherent sc m calls → make_read_req fuel sc m c = Some res → sc_map sc !! key_of c = None →
  Exists evictable (sc_entries sc).
Proof.
  intros Hco Hmake Hk. unfold make_read_req in Hmake.
  apply bind_Some in Hmake as (_ & _ & Hmake). apply bind_Some in Hmake as (_ & _ & Hmake).
  cbv zeta in Hmake. set (sc0 := with_stats sc _) in *.
  change (sc_map sc0 !! (rc_prefix c, rc_obj c, rc_offset c)) with (sc_map sc !! key_of c) in Hmake.
  match type of Hmake with context [match ?x with Some _ => _ | None => _ end] =>
    assert (x = None) as Hx by exact Hk; rewrite Hx in Hmake end.
  unfold read_miss in Hmake. cbv zeta in Hmake. destruct (alloc_buf m) as [m1 buf].
  apply bind_Some in Hmake as ([sc1 i] & Hal & _).
  change (sc_entries sc) with (sc_entries (with_stats sc0
    (record_stats (sc_stats sc0) 0 (Z.of_nat (SmartIov.bytes_of (rc_dest c))) CACHE_CHUNK_SIZE))).
  eapply allocate_evictable; [|exact Hal]. by do 2 apply coherent_stats.
Qed.

Lemma hit_done_req sc m id res :
  hit_done sc m id = Some res → ∃ i off d, sc_reqs sc !! id = Some (CacheHit i off d true).
Proof.
  unfold hit_done. destruct (sc_reqs sc !! id) as [[| i off d [] | |]|]; try done. by exists i, off, d.
Qed.

Lemma dispatch_req sc m id res :
  dispatch sc m id = Some res →
  ∃ i k buf a d l, sc_reqs sc !! id = Some (CacheMiss i k buf a d (Dispatching l)) ∧
    (l = [] → res.2 = None) ∧ (∀ r l', l = r :: l' → res.2 = Some r).
Proof.
  unfold dispatch.
  destruct (sc_reqs sc !! id) as [[| |i k buf a d [| |[|r l]|]|]|]; try done; intros H.
  - exists i, k, buf, a, d, []. apply bind_Some in H as (h & _ & [= <-]). by split_and!.
  - exists i, k, buf, a, d, (r :: l). apply bind_Some in H as ([[sc1 m1] b] & _ & [= <-]).
    split_and!; [done..|]. by intros r' l' [= -> ->].
Qed.

Lemma fill_done_req sc m id res :
  fill_done sc m id = Some res →
  ∃ r, sc_reqs sc !! id = Some r ∧
    ((∃ i k buf, r = CacheInsert i k buf) ∨ (∃ i k buf a d, r = CacheMiss i k buf a d Storing)).
Proof.
  unfold fill_done. intros ([i b] & Hr & _)%bind_Some.
  destruct (sc_reqs sc !! id) as [[| |? ? ? ? ? []|]|]; try done; eexists; (split; [done|]).
  - right. by repeat eexists.
  - left. by repeat eexists.
Qed.

(** The operations are functions. *)
Ltac same_result H1 H2 := rewrite H1 in H2; simplify_eq.

Ltac moved := split_and!; [done|done|by right].

Lemma step_moves s ev s' :
  inv s → step s ev s' →
  inv s' ∧ event_ok ev s.1.2 s'.1.2 ∧ (ev = Outside ∨ frame s.1.1 s'.1.1 s.1.2 s'.1.2).
Proof.
  unfold inv. intros Hinv Hstep. destruct Hstep as
    [sc m calls c sc' m' id Hc Hmake|sc m calls c sc' m' Hc Hmake|sc m calls id r sc' b Hr Hf Hrun
    |sc m calls id c sc' m' Hc Hhit|sc m calls id i k buf a d sc' m' Hr Hb|sc m calls id r c i0 a0 d0 hp b0 sc' m' Hc Hr0 Hd
    |sc m calls id c sc' m' Hc Hd|sc m calls id sc' m' Hs|sc m calls k b h sc' Hobj Hw Hins|sc m calls m' Hout];
    cbn [fst snd] in *.
  - destruct (make_read_req_ok obj_data (2 * size_in_chunks sc) sc m calls c) as (sc1 & m1 & r & Hr & Hok);
      try done; [by eapply make_read_evictable|]. same_result Hr Hmake. destruct Hok as (-> & [? ?] & ?). moved.
  - destruct (make_read_req_ok obj_data (2 * size_in_chunks sc) sc m calls c) as (sc1 & m1 & r & Hr & Hok);
      try done; [by eapply make_read_evictable|]. same_result Hr Hmake. destruct Hok as ([? ?] & ? & ?). moved.
  - destruct (run_ok obj_data sc m calls id r Hinv Hr Hf) as (sc1 & b1 & Hr1 & [? ?]).
    same_result Hr1 Hrun. moved.
  - destruct (hit_done_req _ _ _ _ Hhit) as (i & off & d & Hr).
    destruct (hit_done_ok obj_data sc m calls id i off d Hinv Hr) as (sc1 & m1 & Hr1 & [? ?] & c1 & Hc1 & ? & ?).
    same_result Hr1 Hhit. moved.
  - destruct (backend_done_ok obj_data sc m calls id i k buf a d Hinv Hr) as (sc1 & m1 & Hr1 & [? ?] & ?).
    same_result Hr1 Hb. moved.
  - destruct (dispatch_req _ _ _ _ Hd) as (i & k & buf & a & d & [|r' l] & Hr & Hnil & Hcons).
    { by specialize (Hnil eq_refl). }
    destruct (dispatch_one_ok obj_data sc m calls id i k buf a d r' l Hinv Hr)
      as (sc1 & m1 & Hr1 & [? ?] & c1 & Hc1 & ? & ?). same_result Hr1 Hd. moved.
  - destruct (dispatch_req _ _ _ _ Hd) as (i & k & buf & a & d & [|r' l] & Hr & Hnil & Hcons).
    2: { by specialize (Hcons r' l eq_refl). }
    destruct (dispatch_end_ok obj_data sc m calls id i k buf a d Hinv Hr)
      as (sc1 & m1 & Hr1 & [? ?] & c1 & Hc1 & ? & ?). same_result Hr1 Hd. moved.
  - destruct (fill_done_req _ _ _ _ Hs) as (r & Hr & Hkind).
    destruct (fill_done_ok obj_data sc m calls id r Hinv Hr Hkind) as (sc1 & m1 & Hr1 & [? ?] & ?).
    same_result Hr1 Hs. moved.
  - assert (Exists evictable (sc_entries sc)) as Hex.
    { unfold insert_chunk in Hins. apply bind_Some in Hins as ([sc1 i] & Hal & _).
      by eapply allocate_evictable. }
    destruct (insert_chunk_ok obj_data (2 * size_in_chunks sc) sc m calls k b Hinv Hex)
      as (h1 & sc1 & Hw1 & Hins1 & [? ?] & Hoth); [done..|]. same_result Hw1 Hw.
    split; [done|]. split; [|by right]. intros a Ha. apply Hoth. pose proof (co_next _ _ _ _ Hinv). lia.
  - split; [by eapply coherent_outside|]. split; [done|by left].
Qed.

Lemma step_ok s ev s' : inv s → step s ev s' → inv s' ∧ event_ok ev s.1.2 s'.1.2.
Proof. intros Hi Hs. by destruct (step_moves s ev s' Hi Hs) as (? & ? & _). Qed.

Lemma cache_reachable_inv n s : reachable n s → inv s.
Proof.
  intros (m & Hm & Hsteps). remember (new_cache n, m, ∅) as s0 eqn:E.
  assert (inv s0) as H0 by (rewrite E; by apply new_cache_coherent). clear E.
  induction Hsteps as [|s0 s1 s2 [ev Hs] _ IH]; [done|]. apply IH. by eapply step_ok.
Qed.

(** C7: whatever the interleaving of reads, completions, evictions, insertions
    and the activity of the rest of the process, a step of the read cache that
    serves a call puts exactly the bytes of the object into its destination, and
    every other step leaves the memory of clients alone. *)
Theorem read_cache_refines n s ev s' :
  reachable n s → step s ev s' → event_ok ev s.1.2 s'.1.2.
Proof. intros Hs Hstep. eapply step_ok; [by eapply cache_reachable_inv|done]. Qed.

(** ** Requests complete *)

(** The critical sections a request has before it *)
Definition work (r : cache_req) : nat :=
  match r with
  | PendingRead _ _ _ has_parent is_backend_done =>
    (if has_parent then 0 else 1) + (if is_backend_done then 0 else 1)
  | CacheHit _ _ _ running => if running then 1 else 2
  | CacheMiss _ _ _ _ _ Made => 4
  | CacheMiss _ _ _ _ _ Running => 3
  | CacheMiss _ _ _ _ _ (Dispatching _) => 2
  | CacheMiss _ _ _ _ _ Storing => 1
  | CacheInsert _ _ _ => 1
  end.

Definition total (rs : gmap Z cache_req) : nat := map_fold (λ _ r n, (work r + n)%nat) 0%nat rs.

Lemma total_insert id r rs : rs !! id = None → total (<[id := r]> rs) = (work r + total rs)%nat.
Proof.
  intros Hn. unfold total.
  rewrite (map_fold_insert_L (λ _ r n, (work r + n)%nat)); [done|intros; lia|done].
Qed.

Lemma total_delete id r rs : rs !! id = Some r → total rs = (work r + total (delete id rs))%nat.
Proof.
  intros Hr. rewrite <- (insert_delete_id rs id r Hr) at 1.
  by rewrite total_insert by apply lookup_delete_eq.
Qed.

Lemma total_replace id r r' rs :
  rs !! id = Some r → (total (<[id := r']> rs) + work r = total rs + work r')%nat.
Proof.
  intros Hr. rewrite (total_delete id r rs Hr), <- insert_delete_eq.
  rewrite total_insert by apply lookup_delete_eq. lia.
Qed.

Lemma run_work sc id sc' b : run sc id = Some (sc', b) → (total (sc_reqs sc') < total (sc_reqs sc))%nat.
Proof.
  unfold run. destruct (sc_reqs sc !! id) as [r|] eqn:Hr; [|done].
  pose proof (total_delete id r _ Hr) as Hd. pose proof (λ r', total_replace id r r' _ Hr) as Hw.
  destruct r as [i a d [] []|i o d []|i k buf a d []|]; try done; cbn [work] in *.
  - intros [= <- <-]. cbn [with_reqs sc_reqs]. lia.
  - intros [= <- <-]. specialize (Hw (PendingRead i a d true false)). cbn [with_reqs sc_reqs work] in *. lia.
  - intros [= <- <-]. specialize (Hw (CacheHit i o d true)). cbn [with_reqs sc_reqs work] in *. lia.
  - unfold set_chunk_status. destruct (sc_entries sc !! i); [|done]. rewrite !bind_some. intros [= <- <-].
    specialize (Hw (CacheMiss i k buf a d Running)). cbn [with_reqs with_entry sc_reqs work] in *. lia.
Qed.

Lemma hit_done_work sc m id sc' m' :
  hit_done sc m id = Some (sc', m') → (total (sc_reqs sc') < total (sc_reqs sc))%nat.
Proof.
  unfold hit_done. destruct (sc_reqs sc !! id) as [r|] eqn:Hr; [|done].
  pose proof (total_delete id r _ Hr) as Hd. destruct r as [|i o d []| |]; try done; cbn [work] in *.
  destruct (dev_read _ _ _) as [n bs]. intros (h & _ & (sc1 & Hdec & [= <- <-])%bind_Some)%bind_Some.
  unfold dec_chunk_refcount in Hdec. apply bind_Some in Hdec as (e & _ & Hdec).
  apply bind_Some in Hdec as (_ & _ & [= <-]). cbn [with_reqs with_entry sc_reqs]. lia.
Qed.

Lemma backend_done_work sc m id o sc' m' :
  backend_done sc m id o = Some (sc', m') → (total (sc_reqs sc') < total (sc_reqs sc))%nat.
Proof.
  unfold backend_done. destruct (sc_reqs sc !! id) as [r|] eqn:Hr; [|done].
  pose proof (λ r', total_replace id r r' _ Hr) as Hw. destruct r as [| |i k buf a d []|]; try done.
  intros (h & _ & (e & _ & [= <- <-])%bind_Some)%bind_Some. cbn [with_reqs with_entry sc_reqs].
  specialize (Hw (CacheMiss i k buf a d (Dispatching (pending_reads e)))). cbn [work] in Hw. lia.
Qed.

Lemma store_chunk_reqs sc m i buf sc' : store_chunk sc m i buf = Some sc' → sc_reqs sc' = sc_reqs sc.
Proof. unfold store_chunk. intros (bs & _ & H)%bind_Some. by apply (inj Some) in H as <-. Qed.

Lemma on_store_done_reqs sc i sc' : on_store_done sc i = Some sc' → sc_reqs sc' = sc_reqs sc.
Proof. unfold on_store_done. intros (e & _ & H)%bind_Some. by apply (inj Some) in H as <-. Qed.

Lemma fill_done_work sc m id sc' m' :
  fill_done sc m id = Some (sc', m') → (total (sc_reqs sc') < total (sc_reqs sc))%nat.
Proof.
  intros H. destruct (fill_done_req _ _ _ _ H) as (r & Hr & Hkind).
  pose proof (total_delete id r _ Hr) as Hd.
  assert (0 < work r)%nat by (destruct Hkind as [(? & ? & ? & ->)|(? & ? & ? & ? & ? & ->)]; cbn; lia).
  unfold fill_done in H. apply bind_Some in H as ([i buf] & _ & H).
  apply bind_Some in H as (sc1 & H1%store_chunk_reqs & H).
  apply bind_Some in H as (sc2 & H2%on_store_done_reqs & [= <- <-]).
  cbn [with_reqs sc_reqs]. rewrite H2, H1. lia.
Qed.

Lemma dispatch_end_work sc m id sc' m' :
  dispatch sc m id = Some (sc', m', None) → (total (sc_reqs sc') < total (sc_reqs sc))%nat.
Proof.
  unfold dispatch. destruct (sc_reqs sc !! id) as [r|] eqn:Hr; [|done].
  pose proof (λ r', total_replace id r r' _ Hr) as Hw.
  destruct r as [| |i k buf a d [| |[|r l]|]|]; try done.
  - intros (h & _ & [= <- <-])%bind_Some. cbn [with_reqs sc_reqs].
    specialize (Hw (CacheMiss i k buf a d Storing)). cbn [work] in Hw. lia.
  - by intros ([[sc1 m1] b] & _ & [=])%bind_Some.
Qed.

Lemma dispatch_one_work sc m id r i a d p sc' m' :
  dispatch sc m id = Some (sc', m', Some r) → sc_reqs sc !! r = Some (PendingRead i a d p false) →
  (total (sc_reqs sc') < total (sc_reqs sc))%nat.
Proof.
  unfold dispatch. intros H Hr1. destruct (sc_reqs sc !! id) as [q|] eqn:Hr; [|done].
  destruct q as [| |j k buf a' d' [| |[|r' l]|]|]; try done; [by apply bind_Some in H as (? & _ & [=])|].
  apply bind_Some in H as ([[sc1 m1] b] & Hp & [= <- <- <-]).
  unfold pending_done in Hp. rewrite Hr1 in Hp. apply bind_Some in Hp as (h & _ & Hp).
  apply bind_Some in Hp as (sc2 & Hdec & Hp). unfold dec_chunk_refcount in Hdec.
  apply bind_Some in Hdec as (e & _ & Hdec). apply bind_Some in Hdec as (_ & _ & [= <-]).
  injection Hp as <- <- <-. cbn [with_reqs with_entry sc_reqs]. set (rs1 := if p then _ else _).
  assert (id ≠ r') as Hne by congruence.
  assert (total rs1 < total (sc_reqs sc) ∧ rs1 !! id = sc_reqs sc !! id)%nat as [Ht Hid].
  { unfold rs1. destruct p.
    - rewrite (total_delete _ _ _ Hr1), lookup_delete_ne by done. cbn [work]. split; [lia|done].
    - pose proof (total_replace _ _ (PendingRead i a d false true) _ Hr1) as Hw. cbn [work] in Hw.
      rewrite lookup_insert_ne by done. split; [lia|done]. }
  rewrite Hr in Hid. pose proof (total_replace id _ (CacheMiss j k buf a' d' (Dispatching l)) _ Hid) as Hw.
  cbn [work] in Hw. lia.
Qed.

Definition internal (ev : event) : Prop :=
  match ev with Quiet | Ran _ _ | Served _ _ _ => True | _ => False end.

Definition progresses s : Prop :=
  ∃ ev s', step s ev s' ∧ internal ev ∧ (total (sc_reqs s'.1.1) < total (sc_reqs s.1.1))%nat.

Lemma fresh_progresses sc m calls id r :
  inv (sc, m, calls) → sc_reqs sc !! id = Some r → fresh_req r → progresses (sc, m, calls).
Proof.
  intros Hinv Hr Hf. destruct (run_ok obj_data sc m calls id r Hinv Hr Hf) as (sc' & b & Hrun & _).
  exists (Ran id b), (sc', m, calls). split; [by eapply step_run|split; [done|]]. by eapply run_work.
Qed.

Lemma filler_progresses sc m calls id r :
  inv (sc, m, calls) → sc_reqs sc !! id = Some r → is_filler r → progresses (sc, m, calls).
Proof.
  intros Hinv Hr Hf.
  assert ((∃ i k buf, r = CacheInsert i k buf) ∨ (∃ i k buf a d, r = CacheMiss i k buf a d Storing) →
          progresses (sc, m, calls)) as Hstore.
  { intros Hk. destruct (fill_done_ok obj_data sc m calls id r Hinv Hr Hk) as (sc' & m' & Hs & _).
    exists Quiet, (sc', m', calls). split; [by eapply step_stored|split; [done|]]. by eapply fill_done_work. }
  destruct r as [| |i k buf a d [| |[|r l]|]|i k buf]; try done.
  - by eapply fresh_progresses.
  - destruct (backend_done_ok obj_data sc m calls id i k buf a d Hinv Hr) as (sc' & m' & Hs & _).
    exists Quiet, (sc', m', calls). split; [by eapply step_backend|split; [done|]]. by eapply backend_done_work.
  - destruct (dispatch_end_ok obj_data sc m calls id i k buf a d Hinv Hr) as (sc' & m' & Hs & _ & c & Hc & _).
    exists (Served id c true), (sc', m', calls). split; [by eapply step_parent|split; [done|]]. by eapply dispatch_end_work.
  - destruct (dispatch_one_ok obj_data sc m calls id i k buf a d r l Hinv Hr)
      as (sc' & m' & Hs & _ & c & Hc & _).
    destruct (coherent_inv _ _ _ _ _ _ Hinv Hr) as (e & He & Hi & Hra).
    destruct (filling_inv _ _ _ _ _ _ _ _ _ Hi Hra I) as (_ & b & l' & bs & Hfr & _ & _ & _ & _ & _ & Hcl).
    { intros ? ? ? ? st Heq. split; intros ->; discriminate Heq. }
    destruct Hfr as [(a0 & d0 & Hreq & _)|[(? & ? & [=] & _)|[[=] _]]]. injection Hreq as _ _ _ _ <-.
    destruct (waiting_inv _ _ _ _ _ _ _ Hcl) as (a1 & d1 & p & [Hr1 _]%reqs_at_lookup & _).
    exists (Served r c p), (sc', m', calls). split; [by eapply step_dispatch|split; [done|]]. by eapply dispatch_one_work.
  - apply Hstore. right. by exists i, k, buf, a, d.
  - apply Hstore. left. by exists i, k, buf.
Qed.

(** A read that waits does so for a request that fills its chunk. *)
Lemma waiting_filler sc m calls id i a d b :
  inv (sc, m, calls) → sc_reqs sc !! id = Some (PendingRead i a d true b) →
  ∃ mid r, sc_reqs sc !! mid = Some r ∧ is_filler r ∧ chunk_of r = i.
Proof.
  intros Hinv Hr. destruct (coherent_inv _ _ _ _ _ _ Hinv Hr) as (e & He & Hi & Hra).
  cbn [fst snd chunk_of] in *. unfold ReadCoherence.chunk_inv in Hi. destruct (status e).
  - destruct Hi as (_ & _ & _ & Hcl).
    by destruct (clients_role _ _ _ _ _ _ Hcl Hra) as [[?%not_elem_of_nil _]|[?|[_ ?]]].
  - destruct Hi as (mid & buf & a' & d' & st & [Hmid ?]%reqs_at_lookup & _). eexists mid, _. by split_and!.
  - destruct Hi as (mid & r & buf & l & bs & [Hmid ?]%reqs_at_lookup & Hf & _). exists mid, r.
    split_and!; try done. by destruct Hf as [(? & ? & -> & _)|[(? & ? & -> & _)|[-> _]]].
  - destruct Hi as (_ & _ & _ & l & _ & Hcl).
    destruct (clients_role _ _ _ _ _ _ Hcl Hra) as [[_ Hp]|[?|[_ ?]]]; try done.
    by destruct Hp as (? & ? & ? & [=] & _).
Qed.

Lemma progress s : inv s → sc_reqs s.1.1 ≠ ∅ → progresses s.
Proof.
  destruct s as [[sc m] calls]. intros Hinv Hne. apply map_choose in Hne as (id & r & Hr).
  cbn [fst snd] in Hr. destruct r as [i a d [] b|i o d []| |].
  - destruct (waiting_filler _ _ _ _ _ _ _ _ Hinv Hr) as (mid & r & Hmid & Hf & _).
    by eapply filler_progresses.
  - by eapply fresh_progresses.
  - destruct (hit_done_ok obj_data sc m calls id i o d Hinv Hr) as (sc' & m' & Hs & _ & c & Hc & _).
    exists (Served id c true), (sc', m', calls). split; [by eapply step_hit|split; [done|]]. by eapply hit_done_work.
  - by eapply fresh_progresses.
  - by eapply filler_progresses.
  - by eapply filler_progresses.
Qed.

Lemma drained s : inv s → sc_reqs s.1.1 = ∅ →
  Forall (λ e, (status e = EMPTY ∨ status e = VALID) ∧ refcount e = 0) (sc_entries s.1.1).
Proof.
  intros Hinv He. apply Forall_lookup. intros i e Hi. pose proof (co_inv _ _ _ _ Hinv i e Hi) as Hc.
  rewrite He in Hc. unfold ReadCoherence.chunk_inv in Hc. destruct (status e).
  - split; [by left|apply Hc].
  - by destruct Hc as (mid & ? & ? & ? & ? & [? _]%reqs_at_lookup & _).
  - by destruct Hc as (mid & ? & ? & ? & ? & [? _]%reqs_at_lookup & _).
  - split; [by right|]. destruct Hc as (_ & _ & _ & l & -> & Hcl). destruct l as [|id l]; [done|].
    destruct Hcl as (_ & Hin & _). destruct (Hin id) as (_ & r & [? _]%reqs_at_lookup & _); [by left|done].
Qed.

(** C22: in every reachable state some request in flight has a next critical
    section, which runs without a fault, and the requests can all complete: then
    no chunk is pinned, and every chunk is empty or valid. *)
Theorem read_cache_drains n s :
  reachable n s →
  (sc_reqs s.1.1 ≠ ∅ → progresses s) ∧
  ∃ s', rtc (λ s s', ∃ ev, step s ev s') s s' ∧ sc_reqs s'.1.1 = ∅ ∧
    Forall (λ e, (status e = EMPTY ∨ status e = VALID) ∧ refcount e = 0) (sc_entries s'.1.1).
Proof.
  intros Hs%cache_reachable_inv. split; [by apply progress|].
  remember (total (sc_reqs s.1.1)) as w eqn:Hw. revert s Hs Hw.
  induction (lt_wf w) as [w _ IH]. intros s Hs ->.
  destruct (decide (sc_reqs s.1.1 = ∅)) as [He|Hne].
  - exists s. split_and!; [apply rtc_refl|done|by apply drained].
  - destruct (progress s Hs Hne) as (ev & s1 & Hstep & _ & Hlt).
    destruct (IH _ Hlt s1) as (s' & Hsteps & ? & ?); [by eapply step_ok|done|].
    exists s'. split_and!; try done. eapply rtc_l; [by exists ev|done].
Qed.

(** C35: a read fails for one reason: its block is not in the cache and all
    chunks of the shard are in use; then it never returns.  Else it needs no more
    than two turns of the clock. *)
Theorem read_blocks_iff n s c :
  reachable n s → client_call (m_heap s.1.2) c →
  ((∀ fuel, make_read_req fuel s.1.1 s.1.2 c = None) ↔
   sc_map s.1.1 !! key_of c = None ∧ Forall (λ e, status e ≠ EMPTY ∧ refcount e ≠ 0) (sc_entries s.1.1)) ∧
  (∀ fuel, is_Some (make_read_req fuel s.1.1 s.1.2 c) →
   is_Some (make_read_req (2 * size_in_chunks s.1.1) s.1.1 s.1.2 c)).
Proof.
  destruct s as [[sc m] calls]. intros Hs%cache_reachable_inv Hc. unfold inv in Hs. cbn [fst snd] in *.
  assert (∀ fuel, (sc_map sc !! key_of c = None → Exists evictable (sc_entries sc)) →
    (2 * size_in_chunks sc ≤ fuel)%nat → is_Some (make_read_req fuel sc m c)) as Hok.
  { intros fuel Hex Hf. destruct (make_read_req_ok obj_data fuel sc m calls c Hs Hc Hex Hf)
      as (sc' & m' & r & -> & _). by eexists. }
  split.
  - split.
    + intros Hnone. destruct (decide (sc_map sc !! key_of c = None ∧ ¬ Exists evictable (sc_entries sc)))
        as [[Hk Hno]|Hyes].
      * split; [done|]. apply Forall_Exists_neg in Hno. eapply Forall_impl; [exact Hno|].
        intros e He. unfold evictable in He. tauto.
      * destruct (Hok (2 * size_in_chunks sc)%nat) as [x Hx]; [|done|by rewrite Hnone in Hx].
        intros Hk. destruct (decide (Exists evictable (sc_entries sc))); tauto.
    + intros [Hk Hno] fuel. destruct (make_read_req fuel sc m c) as [x|] eqn:Hx; [|done].
      pose proof (make_read_evictable _ _ _ _ _ _ Hs Hx Hk) as Hex. exfalso.
      apply Exists_exists in Hex as (e & Hin & He). rewrite Forall_forall in Hno.
      specialize (Hno e Hin). unfold evictable in He. tauto.
  - intros fuel [x Hx]. apply Hok; [|done]. by eapply make_read_evictable.
Qed.
End refine.

(** ** A small cache *)

Definition demo_obj (n : string) : option bytes :=
  if bool_decide (n = oname "vol" 1) then Some [1; 2; 3; 4; 5; 6; 7; 8] else None.
Definition demo_call : read_call := mk_read_call "vol" 1 0 2 [SmartIov.mk_iovec (0, 0) 4].
Definition demo_memory : memory := mk_memory (malloc ∅ 0 4) 1.
Definition demo_chunk : chunk_key := ("vol", 1, 0).

(** One chunk, whose insertion is under way *)
Definition demo_filling (file : bytes) : shared_read_cache :=
  mk_cache [mk_entry FILLING false 1 (Some 1) [] demo_chunk] {[ demo_chunk := 0%nat ]} 0
    {[ 0 := CacheInsert 0 demo_chunk 1 ]} 1 file (mk_stats 0 [] [] []).

Lemma demo_insert_chunk file :
  insert_chunk 2 (mk_cache [new_entry] ∅ 0 ∅ 0 file (mk_stats 0 [] [] [])) demo_chunk 1 = Some (demo_filling file).
Proof. reflexivity. Qed.

Lemma new_cache_1 : ∃ file, new_cache 1 = mk_cache [new_entry] ∅ 0 ∅ 0 file (mk_stats 0 [] [] []).
Proof. eexists. reflexivity. Qed.

Lemma demo_cache_client h : (∀ a, a.1 = 0 → h !! a = malloc ∅ 0 4 !! a) → client_call h demo_call.
Proof.
  intros Hh. split_and!.
  - split_and!; vm_compute; congruence.
  - apply (bool_decide_unpack _). vm_compute. exact I.
  - intros a Ha. assert (a.1 = 0) as H0 by (cbn in Ha; set_solver). rewrite Hh by done.
    apply malloc_allocated. exact Ha.
  - intros a Ha. assert (a.1 = 0) as H0 by (cbn in Ha; set_solver). lia.
Qed.

Lemma demo_block : slice 0 chunk_bytes [1; 2; 3; 4; 5; 6; 7; 8] = [1; 2; 3; 4; 5; 6; 7; 8].
Proof. unfold slice. rewrite drop_0. apply take_ge. cbn [length]. unfold chunk_bytes, CACHE_CHUNK_SIZE. lia. Qed.

Lemma demo_reachable :
  ∃ h file, reachable demo_obj 1 (demo_filling file, mk_memory h 2, ∅) ∧ client_call h demo_call ∧
    mem_read h (1, 0) 8 = Some [1; 2; 3; 4; 5; 6; 7; 8].
Proof.
  assert (∀ b', demo_obj (oname "vol" 1) = Some b' → b' = [1; 2; 3; 4; 5; 6; 7; 8]) as Hobj
    by (intros b' Hb'; by injection Hb' as <-).
  destruct new_cache_1 as [file Hnew]. pose proof (demo_insert_chunk file) as Hins. rewrite <- Hnew in Hins.
  destruct (insert_chunk_ok demo_obj 2 (new_cache 1) demo_memory ∅ demo_chunk [1; 2; 3; 4; 5; 6; 7; 8])
    as (h & sc' & Hw & _ & _ & Hoth).
  - by apply new_cache_coherent.
  - rewrite Hnew. left. by left.
  - by rewrite Hnew.
  - exact Hobj.
  - change (alloc_buf demo_memory).2 with 1 in *. exists h, file. split_and!.
    + exists demo_memory. split; [done|]. apply rtc_once. exists Quiet.
      eapply (step_insert demo_obj (new_cache 1) demo_memory ∅ demo_chunk [1; 2; 3; 4; 5; 6; 7; 8]);
        [exact Hobj|exact Hw|]. rewrite Hnew. apply demo_insert_chunk.
    + apply demo_cache_client. intros a Ha. apply Hoth. cbn. lia.
    + change (Z.to_nat demo_chunk.2) with 0%nat in Hw. rewrite demo_block in Hw.
      apply (mem_write_read _ _ _ _ Hw).
Qed.

(** A read of the chunk that is being inserted is served from its buffer. *)
Lemma demo_cache_read file h :
  make_read_req 2 (demo_filling file) (mk_memory h 2) demo_call =
  (h' ← SmartIov.copy_in h (rc_dest demo_call) (1, 2);
   Some (mk_cache [mk_entry FILLING true 1 (Some 1) [] demo_chunk] {[ demo_chunk := 0%nat ]} 0
           {[ 0 := CacheInsert 0 demo_chunk 1 ]} 1 file (mk_stats 1 [1] [4] [0]), mk_memory h' 2, None)).
Proof. reflexivity. Qed.

Lemma demo_copy h :
  client_call h demo_call → mem_read h (1, 0) 8 = Some [1; 2; 3; 4; 5; 6; 7; 8] →
  ∃ h', SmartIov.copy_in h (rc_dest demo_call) (1, 2) = Some h'.
Proof.
  intros Hc Hr. rewrite (SmartIov.copy_in_cells _ h (1, 2) [3; 4; 5; 6]).
  - apply write_cells_allocated; [apply Hc|done].
  - apply Hc.
  - apply (mem_read_slice _ _ _ _ 2 4 Hr). lia.
  - intros a Ha Hin. apply elem_of_cells in Ha as [Ha _]. cbn in Ha, Hin. set_solver.
Qed.

Lemma read_cache_refines_witness :
  ∃ h file sc', step demo_obj (demo_filling file, h, ∅) (ReadNow demo_call) sc' ∧
    serve demo_obj (m_heap h) demo_call = Some (m_heap sc'.1.2) ∧
    call_bytes demo_obj demo_call = Some [3; 4; 5; 6].
Proof.
  destruct demo_reachable as (h & file & Hreach & Hc & Hr). destruct (demo_copy h Hc Hr) as [h' Hcopy].
  pose proof (demo_cache_read file h) as Hmake. rewrite Hcopy, bind_some in Hmake.
  exists (mk_memory h 2), file. eexists. split_and!.
  - eapply (step_read_now demo_obj (demo_filling file) (mk_memory h 2) ∅ demo_call _ _ Hc). exact Hmake.
  - apply (read_cache_refines demo_obj 1 _ (ReadNow demo_call) _ Hreach).
    + eapply (step_read_now demo_obj (demo_filling file) (mk_memory h 2) ∅ demo_call _ _ Hc). exact Hmake.
    + by exists [3; 4; 5; 6].
  - reflexivity.
Defined.

Lemma read_cache_drains_witness :
  ∃ s s', reachable demo_obj 1 s ∧ sc_reqs s.1.1 ≠ ∅ ∧ progresses demo_obj s ∧
    rtc (λ s s', ∃ ev, step demo_obj s ev s') s s' ∧ sc_reqs s'.1.1 = ∅.
Proof.
  destruct demo_reachable as (h & file & Hreach & _).
  destruct (read_cache_drains demo_obj 1 _ Hreach) as (Hp & s' & Hs & He & _).
  eexists _, s'. split_and!; [exact Hreach|done|by apply Hp|exact Hs|exact He].
Defined.

(** While the only chunk is in use, a read of another block does not return. *)
Lemma read_blocks_iff_witness :
  ∃ h file, reachable demo_obj 1 (demo_filling file, h, ∅) ∧
    ∀ fuel, make_read_req fuel (demo_filling file) h
              (mk_read_call "vol" 2 0 2 [SmartIov.mk_iovec (0, 0) 4]) = None.
Proof.
  destruct demo_reachable as (h & file & Hreach & Hc & _). exists (mk_memory h 2), file.
  split; [exact Hreach|].
  apply (read_blocks_iff demo_obj 1 _ (mk_read_call "vol" 2 0 2 [SmartIov.mk_iovec (0, 0) 4]) Hreach Hc).
  split; [reflexivity|]. by repeat constructor.
Defined.
