(* ===== verification/ReadShards.v ===== *)
(** * The shards of the read cache

    The life of one request as the parent sees it, and the 16 shards working on
    the memory of one process: every shard stays coherent, whatever the others
    do, and what a call gets is still the bytes of its object. *)

From stdpp Require Import relations.
From S2P Require Import Prelude Bytes Extent Memory SmartIov LsvdTypes WriteCache ReadPath ReadSpec.
From S2P Require Import ReadCache ReadClock ReadCoherence ReadSteps ReadMake ReadRefine.

(** ** The life of a request *)

(** Made and not run; run and not served; served before it is run; served and its
    parent notified, or never made. *)
Inductive phase := Fresh | Open | Ready | Over.

Definition req_phase (r : option cache_req) : phase :=
  match r with
  | Some (PendingRead _ _ _ false false) | Some (CacheHit _ _ _ false) | Some (CacheMiss _ _ _ _ _ Made) => Fresh
  | Some (PendingRead _ _ _ true false) | Some (CacheHit _ _ _ true) | Some (CacheMiss _ _ _ _ _ Running)
  | Some (CacheMiss _ _ _ _ _ (Dispatching _)) => Open
  | Some (PendingRead _ _ _ false true) => Ready
  | _ => Over
  end.
Definition phase_of (sc : shared_read_cache) (id : Z) : phase := req_phase (sc_reqs sc !! id).

(** The same phase but for the requests that satisfy [P]. *)
Definition phases_but (P : Z → Prop) (sc sc' : shared_read_cache) : Prop :=
  ∀ j, ¬ P j → phase_of sc' j = phase_of sc j.

Lemma phases_insert sc id r rs :
  rs = <[id := r]> (sc_reqs sc) → ∀ j, j ≠ id → req_phase (rs !! j) = phase_of sc j.
Proof. intros -> j Hj. by rewrite lookup_insert_ne. Qed.

Lemma phases_delete sc id rs :
  rs = delete id (sc_reqs sc) → ∀ j, j ≠ id → req_phase (rs !! j) = phase_of sc j.
Proof. intros -> j Hj. by rewrite lookup_delete_ne. Qed.

Section shards.
Variable obj_data : string → option bytes.
Notation coherent := (coherent obj_data).
Notation covered := (covered obj_data).
Notation step := (step obj_data).
Notation event_ok := (event_ok obj_data).
Implicit Types (calls : gmap Z read_call).

(** What an event says of the phases *)
Definition event_phase (ev : event) (sc sc' : shared_read_cache) calls : Prop :=
  match ev with
  | Begun id _ => id = sc_next sc ∧ phase_of sc' id = Fresh ∧ phases_but (eq id) sc sc'
  | Ran id b =>
    (phase_of sc id = Fresh ∧ b = false ∧ phase_of sc' id = Open ∨
     phase_of sc id = Ready ∧ b = true ∧ phase_of sc' id = Over) ∧ phases_but (eq id) sc sc'
  | Served id c b =>
    calls !! id = Some c ∧
    (phase_of sc id = Fresh ∧ b = false ∧ phase_of sc' id = Ready ∨
     phase_of sc id = Open ∧ b = true ∧ phase_of sc' id = Over) ∧ phases_but (eq id) sc sc'
  | Quiet | ReadNow _ | Outside => phases_but (λ _, False) sc sc'
  end.

Lemma allocate_reqs fuel sc sc' i :
  allocate_chunk fuel sc = Some (sc', i) → sc_reqs sc' = sc_reqs sc ∧ sc_next sc' = sc_next sc.
Proof.
  unfold allocate_chunk. intros ([es idx] & _ & (e & _ & (_ & _ & (_ & _ & [= <- _])%bind_Some)%bind_Some)%bind_Some)%bind_Some.
  done.
Qed.

Lemma make_phase fuel sc m c sc' m' r :
  make_read_req fuel sc m c = Some (sc', m', r) →
  match r with
  | Some id => id = sc_next sc ∧ phase_of sc' id = Fresh ∧ phases_but (eq id) sc sc'
  | None => sc_reqs sc' = sc_reqs sc
  end.
Proof.
  unfold make_read_req. intros (_ & _ & H)%bind_Some. apply bind_Some in H as (_ & _ & H). cbv zeta in H.
  match type of H with context [match ?x with Some _ => _ | None => _ end] => destruct x as [i|] end.
  - apply bind_Some in H as (e & _ & H). apply bind_Some in H as (_ & _ & H).
    cbn [status with_accessed add_ref] in H. destruct (status e); [done|..].
    + injection H as <- <- <-. split; [done|]. unfold phases_but, phase_of. cbn. rewrite lookup_insert_eq.
      split; [done|]. intros j Hj. by rewrite lookup_insert_ne.
    + apply bind_Some in H as (buf & _ & (h & _ & [= <- <- <-])%bind_Some). done.
    + injection H as <- <- <-. split; [done|]. unfold phases_but, phase_of. cbn. rewrite lookup_insert_eq.
      split; [done|]. intros j Hj. by rewrite lookup_insert_ne.
  - unfold read_miss in H. cbv zeta in H. destruct (alloc_buf m) as [m1 buf].
    apply bind_Some in H as ([sc1 i] & Hal & (e & _ & [= <- <- <-])%bind_Some).
    apply allocate_reqs in Hal as [Er En]. cbn [with_stats sc_reqs sc_next] in Er, En.
    unfold phases_but, phase_of. cbn. rewrite Er, En, lookup_insert_eq.
    split; [done|]. split; [done|]. intros j Hj. by rewrite lookup_insert_ne.
Qed.

Lemma run_phase sc id sc' b :
  run sc id = Some (sc', b) →
  (phase_of sc id = Fresh ∧ b = false ∧ phase_of sc' id = Open ∨
   phase_of sc id = Ready ∧ b = true ∧ phase_of sc' id = Over) ∧ phases_but (eq id) sc sc'.
Proof.
  unfold run, phases_but, phase_of.
  destruct (sc_reqs sc !! id) as [[i a d [] []|i o d []|i k buf a d []|]|] eqn:Hr; try done; intros H.
  - injection H as <- <-. cbn. rewrite lookup_delete_eq. split; [by right|]. intros j Hj. by rewrite lookup_delete_ne.
  - injection H as <- <-. cbn. rewrite lookup_insert_eq. split; [by left|]. intros j Hj. by rewrite lookup_insert_ne.
  - injection H as <- <-. cbn. rewrite lookup_insert_eq. split; [by left|]. intros j Hj. by rewrite lookup_insert_ne.
  - apply bind_Some in H as (sc1 & Hs & [= <- <-]). unfold set_chunk_status in Hs.
    apply bind_Some in Hs as (e & _ & [= <-]). cbn. rewrite lookup_insert_eq.
    split; [by left|]. intros j Hj. by rewrite lookup_insert_ne.
Qed.

Lemma dec_reqs sc i sc' : dec_chunk_refcount sc i = Some sc' → sc_reqs sc' = sc_reqs sc.
Proof. unfold dec_chunk_refcount. by intros (e & _ & (_ & _ & [= <-])%bind_Some)%bind_Some. Qed.

Lemma hit_phase sc m id sc' m' :
  hit_done sc m id = Some (sc', m') →
  phase_of sc id = Open ∧ phase_of sc' id = Over ∧ phases_but (eq id) sc sc'.
Proof.
  unfold hit_done, phases_but, phase_of. destruct (sc_reqs sc !! id) as [[|i o d []| |]|] eqn:Hr; try done.
  destruct (dev_read _ _ _). intros (h & _ & (sc1 & Hd & [= <- <-])%bind_Some)%bind_Some.
  apply dec_reqs in Hd. cbn. rewrite Hd, lookup_delete_eq. split_and!; [done..|].
  intros j Hj. by rewrite lookup_delete_ne.
Qed.

Lemma backend_phase sc m id o sc' m' :
  backend_done sc m id o = Some (sc', m') → phases_but (λ _, False) sc sc'.
Proof.
  unfold backend_done, phases_but, phase_of. destruct (sc_reqs sc !! id) as [[| |i k buf a d []|]|] eqn:Hr; try done.
  intros (h & _ & (e & _ & [= <- <-])%bind_Some)%bind_Some j _. cbn.
  destruct (decide (j = id)) as [->|]; [by rewrite lookup_insert_eq, Hr|by rewrite lookup_insert_ne].
Qed.

Lemma fill_phase sc m id sc' m' : fill_done sc m id = Some (sc', m') → phases_but (λ _, False) sc sc'.
Proof.
  intros H. destruct (fill_done_req _ _ _ _ H) as (r & Hr & Hk). unfold fill_done in H.
  apply bind_Some in H as ([i buf] & _ & (sc1 & Hs & (sc2 & Hd & [= <- <-])%bind_Some)%bind_Some).
  apply store_chunk_reqs in Hs. unfold on_store_done in Hd. apply bind_Some in Hd as (e & _ & [= <-]).
  intros j _. unfold phase_of. cbn. rewrite Hs. destruct (decide (j = id)) as [->|]; [|by rewrite lookup_delete_ne].
  rewrite lookup_delete_eq, Hr. by destruct Hk as [(? & ? & ? & ->)|(? & ? & ? & ? & ? & ->)].
Qed.

Lemma insert_phase fuel sc m calls k data sc' :
  coherent sc m calls → insert_chunk fuel sc k data = Some sc' → phases_but (λ _, False) sc sc'.
Proof.
  unfold insert_chunk. intros Hco ([sc1 i] & Hal & (e & _ & [= <-])%bind_Some)%bind_Some.
  apply allocate_reqs in Hal as [Er En]. intros j _. unfold phase_of. cbn. rewrite Er, En.
  destruct (decide (j = sc_next sc)) as [->|]; [|by rewrite lookup_insert_ne]. rewrite lookup_insert_eq.
  destruct (sc_reqs sc !! sc_next sc) as [r|] eqn:E; [|done]. pose proof (coherent_id _ _ _ _ _ _ Hco E). lia.
Qed.

Lemma dispatch_end_phase sc m id sc' m' :
  dispatch sc m id = Some (sc', m', None) →
  phase_of sc id = Open ∧ phase_of sc' id = Over ∧ phases_but (eq id) sc sc'.
Proof.
  intros H. destruct (dispatch_req _ _ _ _ H) as (i & k & buf & a & d & [|r l] & Hr & _ & Hc);
    [|by specialize (Hc r l eq_refl)].
  unfold dispatch in H. rewrite Hr in H. apply bind_Some in H as (h & _ & [= <- <-]).
  unfold phases_but, phase_of. cbn. rewrite Hr, lookup_insert_eq. split_and!; [done..|].
  intros j Hj. by rewrite lookup_insert_ne.
Qed.

Lemma dispatch_one_phase sc m calls id r i a d has_parent b sc' m' :
  coherent sc m calls → sc_reqs sc !! r = Some (PendingRead i a d has_parent b) →
  dispatch sc m id = Some (sc', m', Some r) →
  (phase_of sc r = Fresh ∧ has_parent = false ∧ phase_of sc' r = Ready ∨
   phase_of sc r = Open ∧ has_parent = true ∧ phase_of sc' r = Over) ∧ phases_but (eq r) sc sc'.
Proof.
  intros Hco Hp H. destruct (dispatch_req _ _ _ _ H) as (i0 & k & buf & a0 & d0 & [|r0 l] & Hr & Hn & Hc);
    [by specialize (Hn eq_refl)|].
  specialize (Hc r0 l eq_refl) as [= ->].
  assert (b = false) as ->.
  { destruct (coherent_inv _ _ _ _ _ _ Hco Hr) as (e & He & Hi & Hra). cbn [chunk_of] in *.
    destruct (filling_inv _ _ _ _ _ _ _ _ _ Hi Hra I) as (_ & b' & l' & bs & Hf & _ & _ & _ & _ & _ & Hcl).
    { intros ? ? ? ? st Heq. split; intros ->; discriminate Heq. }
    destruct Hf as [(a1 & d1 & Hreq & _)|[(? & ? & [=] & _)|[[=] _]]]. injection Hreq as _ _ _ _ <-.
    destruct (waiting_inv _ _ _ _ _ _ _ Hcl) as (a2 & d2 & p & [Hr1 _]%reqs_at_lookup & _). congruence. }
  assert (r0 ≠ id) as Hne by congruence. unfold dispatch in H. rewrite Hr in H. unfold pending_done in H. rewrite Hp in H.
  apply bind_Some in H as ([[sc1 m1] b1] & (h & _ & (sc2 & Hd & [= <- <- <-])%bind_Some)%bind_Some & [= <- <-]).
  apply dec_reqs in Hd. unfold phases_but, phase_of. cbn. rewrite lookup_insert_ne by done. rewrite Hd, Hp.
  split; [destruct has_parent; [right; by rewrite lookup_delete_eq|left; by rewrite lookup_insert_eq]|].
  intros j Hj. destruct (decide (j = id)) as [->|Hji]; [by rewrite lookup_insert_eq, Hr|].
  rewrite lookup_insert_ne by done.
  destruct has_parent; [by rewrite lookup_delete_ne by congruence|by rewrite lookup_insert_ne by congruence].
Qed.

Definition calls_after (ev : event) calls : gmap Z read_call :=
  match ev with Begun id c => <[id := c]> calls | _ => calls end.

Lemma step_phase s ev s' :
  coherent s.1.1 s.1.2 s.2 → step s ev s' →
  event_phase ev s.1.1 s'.1.1 s.2 ∧ s'.2 = calls_after ev s.2.
Proof.
  intros Hco Hs. destruct Hs as
    [sc m calls c sc' m' id Hc Hmake|sc m calls c sc' m' Hc Hmake|sc m calls id r sc' b Hr Hf Hrun
    |sc m calls id c sc' m' Hc Hhit|sc m calls id i k buf a d sc' m' Hr Hb|sc m calls id r c i0 a0 d0 hp b0 sc' m' Hc Hr0 Hd
    |sc m calls id c sc' m' Hc Hd|sc m calls id sc' m' Hs|sc m calls k b h sc' Hobj Hw Hins|sc m calls m' Hout];
    cbn [fst snd event_phase] in *; (split; [|done]).
  - by apply make_phase in Hmake.
  - apply make_phase in Hmake. intros j _. unfold phase_of. by rewrite Hmake.
  - by apply run_phase.
  - apply hit_phase in Hhit as (? & ? & ?). split; [done|]. split; [by right|done].
  - by eapply backend_phase.
  - split; [done|]. by eapply dispatch_one_phase.
  - apply dispatch_end_phase in Hd as (? & ? & ?). split; [done|]. split; [by right|done].
  - by eapply fill_phase.
  - by eapply insert_phase.
  - done.
Qed.

(** ** The shards of one process *)

Definition sharded_state : Type := sharded_cache * list (gmap Z read_call).
Implicit Types (s : sharded_state).

(** The requests of a shard, and the rest of the process, for which every shard's
    buffers are closed *)
Inductive shard_step : sharded_state → option nat * event → sharded_state → Prop :=
| ss_shard s i sc calls ev sc' m' calls' :
  shards s.1 !! i = Some sc → s.2 !! i = Some calls → ev ≠ Outside →
  step (sc, sh_mem s.1, calls) ev (sc', m', calls') →
  shard_step s (Some i, ev) (mk_sharded (<[i := sc']> (shards s.1)) m', <[i := calls']> s.2)
| ss_outside s m' :
  (∀ i sc, shards s.1 !! i = Some sc → outside sc (sh_mem s.1) m') →
  m_next (sh_mem s.1) ≤ m_next m' →
  shard_step s (None, Outside) (mk_sharded (shards s.1) m', s.2).

(** [sharded_cache::make_read_req] and a piece of [insert_object] are such steps. *)
Lemma sharded_read_step hash s c i sc calls sh' o :
  i = get_shard hash (key_of c) → shards s.1 !! i = Some sc → s.2 !! i = Some calls →
  client_call (m_heap (sh_mem s.1)) c →
  sharded_read hash (2 * size_in_chunks sc) s.1 c = Some (sh', o) →
  let ev := match o with Some id => Begun id c | None => ReadNow c end in
  shard_step s (Some i, ev) (sh', <[i := calls_after ev calls]> s.2).
Proof.
  intros -> Hsc Hcalls Hc Hr. unfold sharded_read in Hr. fold (key_of c) in Hr. rewrite Hsc in Hr.
  cbn [mbind option_bind] in Hr. apply bind_Some in Hr as ([[sc' m'] r] & Hm & [= <- <-]).
  destruct r as [id|]; (eapply ss_shard; [exact Hsc|exact Hcalls|done|]).
  - by apply step_read.
  - by apply step_read_now.
Qed.

Lemma insert_piece_inv hash fuel sh k data sh' :
  insert_piece hash fuel sh k data = Some sh' →
  let (m, buf) := alloc_buf (sh_mem sh) in
  ∃ sc h sc', shards sh !! get_shard hash k = Some sc ∧ mem_write (m_heap m) (buf, 0) data = Some h ∧
    insert_chunk fuel sc k buf = Some sc' ∧
    sh' = mk_sharded (<[get_shard hash k := sc']> (shards sh)) (mk_memory h (m_next m)).
Proof.
  unfold insert_piece. cbv zeta. destruct (shards sh !! get_shard hash k) as [sc|]; cbn [mbind option_bind]; [|discriminate].
  destruct (alloc_buf (sh_mem sh)) as [m buf]. intros (h & Hw & (sc' & Hi & [= <-])%bind_Some)%bind_Some.
  by exists sc, h, sc'.
Qed.

Lemma insert_piece_step hash s k b i sc calls sh' :
  i = get_shard hash k → shards s.1 !! i = Some sc → s.2 !! i = Some calls →
  (∀ b', obj_data (oname k.1.1 k.1.2) = Some b' → b' = b) →
  insert_piece hash (2 * size_in_chunks sc) s.1 k (slice (Z.to_nat k.2) chunk_bytes b) = Some sh' →
  shard_step s (Some i, Quiet) (sh', <[i := calls]> s.2).
Proof.
  intros -> Hsc Hcalls Hob Hp%insert_piece_inv.
  pose proof (step_insert obj_data sc (sh_mem s.1) calls k b) as Hstep.
  destruct (alloc_buf (sh_mem s.1)) as [m buf]. cbn [fst snd] in Hstep.
  destruct Hp as (sc0 & h & sc' & Hsc0 & Hw & Hi & ->). rewrite Hsc in Hsc0. injection Hsc0 as <-.
  eapply ss_shard; [exact Hsc|exact Hcalls|discriminate|]. exact (Hstep h sc' Hob Hw Hi).
Qed.

(** The states of a cache of [cache_bytes], from the constructor *)
Definition sharded_reachable (cache_bytes : Z) s : Prop :=
  ∃ sh m, 1 ≤ m_next m ∧ new_sharded cache_bytes m = Some sh ∧
    rtc (λ s s', ∃ ev, shard_step s ev s') (sh, replicate (Z.to_nat num_shards) ∅) s.

Record sharded_inv s : Prop := {
  si_len : length (shards s.1) = length s.2;
  si_coherent i sc calls : shards s.1 !! i = Some sc → s.2 !! i = Some calls → coherent sc (sh_mem s.1) calls;
  si_apart i j sc sc' p q e f b : shards s.1 !! i = Some sc → shards s.1 !! j = Some sc' →
    sc_entries sc !! p = Some e → sc_entries sc' !! q = Some f →
    pending_fill_data e = Some b → pending_fill_data f = Some b → i = j;
}.

(** The other shards see a step of one of them as activity of the process. *)
Lemma frame_outside s i sc calls sc' m' j scj :
  sharded_inv s → shards s.1 !! i = Some sc → s.2 !! i = Some calls → frame sc sc' (sh_mem s.1) m' →
  j ≠ i → shards s.1 !! j = Some scj → outside scj (sh_mem s.1) m'.
Proof.
  intros Hi Hsc Hc Hf Hne Hj. split; [apply Hf|]. split; [apply Hf|].
  intros p e a He Hp. assert (is_Some (s.2 !! j)) as [cj Hcj].
  { apply lookup_lt_is_Some_2. rewrite <- (si_len s Hi). by eapply lookup_lt_Some. }
  apply (fr_heap _ _ _ _ Hf); [by apply (co_buf _ _ _ _ (si_coherent s Hi j scj cj Hj Hcj) p e)|].
  intros q f Hq Hb. apply Hne. symmetry. by eapply (si_apart s Hi i j).
Qed.

Lemma shard_step_inv s ev s' :
  sharded_inv s → shard_step s ev s' → sharded_inv s' ∧ event_ok ev.2 (sh_mem s.1) (sh_mem s'.1).
Proof.
  intros Hi Hs. destruct Hs as [s i sc calls ev sc' m' calls' Hsc Hc Hev Hs|s m' Hout Hn]; cbn [fst snd sh_mem shards].
  - destruct (step_moves obj_data (sc, sh_mem s.1, calls) ev (sc', m', calls') (si_coherent s Hi i sc calls Hsc Hc) Hs) as (Hco & Hok & [?|Hf]); [done|].
    cbn [fst snd] in *. split; [|done]. pose proof (lookup_lt_Some _ _ _ Hsc) as Hlt.
    assert (∀ j scj, <[i := sc']> (shards s.1) !! j = Some scj → j = i ∧ scj = sc' ∨ j ≠ i ∧ shards s.1 !! j = Some scj) as Hj.
    { intros j scj. destruct (decide (j = i)) as [->|Hne].
      - rewrite list_lookup_insert_eq by done. intros [= <-]. by left.
      - rewrite list_lookup_insert_ne by done. by right. }
    split; cbn [fst snd sh_mem shards].
    + rewrite !length_insert. apply (si_len s Hi).
    + intros j scj cj [[-> ->]|[Hne Hscj]]%Hj.
      * rewrite list_lookup_insert_eq by (rewrite <- (si_len s Hi); done). by intros [= <-].
      * rewrite list_lookup_insert_ne by done. intros Hcj. eapply coherent_outside; [by apply (si_coherent s Hi j)|].
        exact (frame_outside s i sc calls sc' m' j scj Hi Hsc Hc Hf Hne Hscj).
    + intros j k scj sck p q e f b Hjj Hkk He Hq Hb Hb'.
      assert (∀ p e scj j, sc_entries sc' !! p = Some e → pending_fill_data e = Some b → j ≠ i →
        shards s.1 !! j = Some scj → ∀ q f, sc_entries scj !! q = Some f → pending_fill_data f = Some b → False) as Hnew.
      { clear dependent p e j scj. intros p e scj j He Hpb Hne Hscj q0 f0 Hq0 Hb0.
        assert (is_Some (s.2 !! j)) as [cj Hcj].
        { apply lookup_lt_is_Some_2. rewrite <- (si_len s Hi). by eapply lookup_lt_Some. }
        pose proof (co_buf _ _ _ _ (si_coherent s Hi j scj cj Hscj Hcj) _ _ _ Hq0 Hb0).
        destruct (fr_buf _ _ _ _ Hf p e b He Hpb) as [(r & g & Hr & Hg)|?]; [|lia].
        apply Hne. by eapply (si_apart s Hi j i scj sc q0 r). }
      apply Hj in Hjj as [[-> ->]|[Hne1 H1]], Hkk as [[-> ->]|[Hne2 H2]]; [done|exfalso; by eapply Hnew..|].
      by eapply (si_apart s Hi j k).
  - split; [|done]. split; cbn [fst snd sh_mem shards]; [apply Hi| |apply Hi].
    intros i sc calls Hsc Hc. eapply coherent_outside; [by apply (si_coherent s Hi i)|by apply (Hout i)].
Qed.

Lemma new_shards_inv n k m :
  1 ≤ m_next m → sharded_inv (mk_sharded (replicate k (new_cache n)) m, replicate k ∅).
Proof.
  intros Hm. split; cbn [fst snd shards sh_mem].
  - by rewrite !length_replicate.
  - intros i sc calls [-> _]%lookup_replicate [-> _]%lookup_replicate. by apply new_cache_coherent.
  - intros i j sc sc' p q e f b [-> _]%lookup_replicate [-> _]%lookup_replicate He _ Hb.
    cbn in He. apply lookup_replicate in He as [-> _]. done.
Qed.

Lemma new_sharded_inv cache_bytes m sh :
  new_sharded cache_bytes m = Some sh → ∃ k, sh = mk_sharded (replicate (Z.to_nat num_shards) (new_cache k)) m.
Proof. intros (_ & _ & Heq)%bind_Some. apply (inj Some) in Heq as <-. by eexists. Qed.

Lemma sharded_reachable_inv n s : sharded_reachable n s → sharded_inv s.
Proof.
  intros (sh & m & Hm & [k ->]%new_sharded_inv & Hr). pose proof (new_shards_inv k (Z.to_nat num_shards) m Hm) as H0.
  induction Hr as [|s0 s1 s2 [ev Hs] _ IH]; [done|]. apply IH. by eapply shard_step_inv.
Qed.

Lemma shard_step_length s ev s' : shard_step s ev s' → length (shards s'.1) = length (shards s.1).
Proof. destruct 1; cbn [fst shards]; [apply length_insert|done]. Qed.

Lemma sharded_reachable_length n s : sharded_reachable n s → length (shards s.1) = Z.to_nat num_shards.
Proof.
  intros (sh & m & _ & [k ->]%new_sharded_inv & Hr). remember (mk_sharded _ m, _) as s0 eqn:E.
  assert (length (shards s0.1) = Z.to_nat num_shards) as H0 by (rewrite E; apply length_replicate). clear E.
  induction Hr as [|s0 s1 s2 [ev Hs] _ IH]; [done|]. apply IH. by rewrite (shard_step_length _ _ _ Hs).
Qed.

(** What an event of a shard says of the phases; the requests of other shards
    stay as they are. *)
Lemma shard_step_phase s i ev s' sc calls :
  sharded_inv s → shard_step s (Some i, ev) s' → shards s.1 !! i = Some sc → s.2 !! i = Some calls →
  ∃ sc', shards s'.1 = <[i := sc']> (shards s.1) ∧ s'.2 = <[i := calls_after ev calls]> s.2 ∧
    event_phase ev sc sc' calls.
Proof.
  intros Hi Hs Hsc Hc. inversion Hs as [? ? sc0 calls0 ? sc' m' calls' Hsc0 Hc0 Hne Hst|]; subst.
  cbn [fst snd shards] in *. rewrite Hsc in Hsc0. rewrite Hc in Hc0. injection Hsc0 as <-. injection Hc0 as <-.
  destruct (step_phase (sc, sh_mem s.1, calls) ev (sc', m', calls') (si_coherent s Hi i sc calls Hsc Hc) Hst) as [Hp Ha]. cbn [fst snd] in *.
  exists sc'. subst. by split_and!.
Qed.

(** ** Requests by shard and number *)

Definition tag : Type := nat * Z.

Definition phase_at s (t : tag) : option phase := (λ sc, phase_of sc t.2) <$> shards s.1 !! t.1.
Definition call_at s (t : tag) : option read_call := s.2 !! t.1 ≫= λ calls, calls !! t.2.

(** Request [id] of shard [i] goes from one phase to another, the others stay. *)
Definition passes s s' (t : tag) (p p' : phase) : Prop :=
  phase_at s t = Some p ∧ phase_at s' t = Some p'.
Definition same_phases (P : tag → Prop) s s' : Prop := ∀ t, ¬ P t → phase_at s' t = phase_at s t.
Definition same_calls (P : tag → Prop) s s' : Prop := ∀ t, ¬ P t → call_at s' t = call_at s t.

(** What an event does to the requests of the process *)
Definition event_at (ev : option nat * event) s s' : Prop :=
  match ev with
  | (Some i, Begun id c) =>
    call_at s (i, id) = None ∧ call_at s' (i, id) = Some c ∧ phase_at s' (i, id) = Some Fresh ∧
    same_phases (eq (i, id)) s s' ∧ same_calls (eq (i, id)) s s'
  | (Some i, Ran id b) =>
    (passes s s' (i, id) Fresh Open ∧ b = false ∨ passes s s' (i, id) Ready Over ∧ b = true) ∧
    same_phases (eq (i, id)) s s' ∧ same_calls (λ _, False) s s'
  | (Some i, Served id c b) =>
    call_at s (i, id) = Some c ∧
    (passes s s' (i, id) Fresh Ready ∧ b = false ∨ passes s s' (i, id) Open Over ∧ b = true) ∧
    same_phases (eq (i, id)) s s' ∧ same_calls (λ _, False) s s'
  | _ => same_phases (λ _, False) s s' ∧ same_calls (λ _, False) s s'
  end.

Lemma same_phases_at (P : Z → Prop) s s' i sc sc' :
  shards s.1 !! i = Some sc → shards s'.1 = <[i := sc']> (shards s.1) → phases_but P sc sc' →
  same_phases (λ t, t.1 = i ∧ P t.2) s s'.
Proof.
  intros Hsc Hs' Hp [j id] Ht. unfold phase_at. cbn [fst snd] in *. rewrite Hs'.
  destruct (decide (j = i)) as [->|Hne]; [|by rewrite list_lookup_insert_ne].
  rewrite list_lookup_insert_eq by (by eapply lookup_lt_Some). rewrite Hsc. cbn. f_equal. apply Hp. tauto.
Qed.

Lemma shard_step_at s ev s' : sharded_inv s → shard_step s ev s' → event_at ev s s'.
Proof.
  intros Hi Hst. destruct ev as [[i|] ev]; [|inversion Hst; subst; by split].
  inversion Hst as [? ? sc calls ? sc0 m0 calls0 Hsc Hc Hne Hst0|]; subst.
  destruct (shard_step_phase s i ev _ sc calls Hi Hst Hsc Hc) as (sc' & Hs' & Ha & Hp).
  clear Hst0 Hst. set (s' := (_, _)) in *. clearbody s'.
  assert (∀ id, phase_at s (i, id) = Some (phase_of sc id)) as Hph by (intros id; unfold phase_at; cbn; by rewrite Hsc).
  assert (∀ id, phase_at s' (i, id) = Some (phase_of sc' id)) as Hph'.
  { intros id. unfold phase_at. cbn. rewrite Hs', list_lookup_insert_eq by (by eapply lookup_lt_Some). done. }
  assert (∀ id, call_at s (i, id) = calls !! id) as Hca by (intros id; unfold call_at; cbn; by rewrite Hc).
  assert (∀ id, call_at s' (i, id) = calls_after ev calls !! id) as Hca'.
  { intros id. unfold call_at. cbn. rewrite Ha, list_lookup_insert_eq by (by eapply lookup_lt_Some). done. }
  assert (∀ j id, j ≠ i → call_at s' (j, id) = call_at s (j, id)) as Hcj.
  { intros j id Hj. unfold call_at. cbn. by rewrite Ha, list_lookup_insert_ne. }
  assert (calls_after ev calls = calls → same_calls (λ _, False) s s') as Hcs.
  { intros E [j id] _. destruct (decide (j = i)) as [->|]; [by rewrite Hca, Hca', E|by apply Hcj]. }
  assert (∀ id, phases_but (eq id) sc sc' → same_phases (eq (i, id)) s s') as Hpb.
  { intros id Hb [j k] Ht. apply (same_phases_at _ _ _ _ _ _ Hsc Hs' Hb). intros [E1 E2]. cbn in E1, E2. subst. done. }
  assert (phases_but (λ _, False) sc sc' → same_phases (λ _, False) s s') as Hpn.
  { intros Hb [j k] Ht. apply (same_phases_at _ _ _ _ _ _ Hsc Hs' Hb). by intros [_ ?]. }
  destruct ev as [|id c|c|id b|id c b|]; cbn [event_at event_phase calls_after] in *; unfold passes; rewrite ?Hph, ?Hph'; auto.
  - destruct Hp as (-> & Hf & Hb). rewrite Hca, Hca', lookup_insert_eq, Hf. split_and!; auto.
    + destruct (calls !! sc_next sc) as [c0|] eqn:E; [|done].
      pose proof (co_calls _ _ _ _ (si_coherent s Hi i sc calls Hsc Hc) (sc_next sc) ltac:(by eexists)). lia.
    + intros [j k] Ht. destruct (decide (j = i)) as [->|]; [|by apply Hcj].
      rewrite Hca, Hca', lookup_insert_ne by congruence. done.
  - destruct Hp as [Hp Hb]. split; [|auto]. destruct Hp as [(-> & -> & ->)|(-> & -> & ->)]; auto.
  - destruct Hp as (Hcall & Hp & Hb). rewrite Hca. split; [done|]. split; [|auto].
    destruct Hp as [(-> & -> & ->)|(-> & -> & ->)]; auto.
Qed.
End shards.
