(* ===== verification/ReadRequest.v ===== *)
(** * Read requests of an image (src/src/image.cc)

    [read_request] runs the sub-requests that [handle_reads] made, which the read
    cache completes in any order, also while later ones are still being started;
    the last notification completes the request.  Together with ImageRead: the
    callback runs once, and the client's vector then holds the disk. *)

From stdpp Require Import relations.
From S2P Require Import Prelude Bytes Extent ExtMap ExtMapShape ExtMapFlat ExtMapUpdate ExtMapSpec.
From S2P Require Import Memory SmartIov LsvdTypes Backend Objects Serialise DataObject Config.
From S2P Require Import Translate Accounting Pipeline Completion Refine ReadPath ReadSpec ImageRead.

(** [class read_request]: [num_subreqs], the sub-requests that have not been run
    and those that have not notified, and the values given to the callback.  A
    sub-request is known here by its call, in CachedRead by its number. *)
Record read_request (R : Type) := mk_read {
  rd_bytes : Z;
  rd_num : Z;
  rd_unrun : list R;
  rd_open : list R;
  rd_cb : list Z;
}.
Arguments mk_read {R}.
Arguments rd_bytes {R}.
Arguments rd_num {R}.
Arguments rd_unrun {R}.
Arguments rd_open {R}.
Arguments rd_cb {R}.

(** [notify], with [complete_request(req_bytes)] *)
Definition read_notify {R} (r : read_request R) : read_request R :=
  let old := rd_num r in
  mk_read (rd_bytes r) (old - 1) (rd_unrun r) (rd_open r)
    (if 1 <? old then rd_cb r else rd_cb r ++ [rd_bytes r]).

(** [run]: the sub-requests are made; without any the request notifies itself. *)
Definition read_run {R} (req_bytes : Z) (requests : list R) : read_request R :=
  let r := mk_read req_bytes (Z.of_nat (length requests)) requests [] [] in
  if (length requests =? 0)%nat then read_notify r else r.

(** One [r->run(this)] *)
Definition read_run_next {R} (r : read_request R) : option (read_request R * R) :=
  match rd_unrun r with
  | [] => None
  | c :: rest => Some (mk_read (rd_bytes r) (rd_num r) rest (rd_open r ++ [c]) (rd_cb r), c)
  end.

(** A sub-request is complete: the cache has filled its part of the vector. *)
Definition read_sub_done (load : string → option bytes) (h : heap) (r : read_request read_call) (i : nat)
    : option (heap * read_request read_call) :=
  c ← rd_open r !! i;
  h ← serve load h c;
  Some (h, read_notify (mk_read (rd_bytes r) (rd_num r) (rd_unrun r) (delete i (rd_open r)) (rd_cb r))).

Section read.
Variable load : string → option bytes.

Inductive read_step : heap * read_request read_call → heap * read_request read_call → Prop :=
| rs_next h r r' c : read_run_next r = Some (r', c) → read_step (h, r) (h, r')
| rs_done h r i h' r' : read_sub_done load h r i = Some (h', r') → read_step (h, r) (h', r').

(** The sub-requests that have been served, in order, have brought the memory to
    where it is; the count is that of the others. *)
Definition read_inv (h0 : heap) (calls : list read_call) (n : Z) (s : heap * read_request read_call) : Prop :=
  ∃ done, done ++ rd_open s.2 ++ rd_unrun s.2 ≡ₚ calls ∧ serve_all load h0 done = Some s.1 ∧
    rd_bytes s.2 = n ∧
    (calls ≠ [] → rd_num s.2 = Z.of_nat (length (rd_open s.2) + length (rd_unrun s.2))) ∧
    rd_cb s.2 = match rd_open s.2 ++ rd_unrun s.2 with [] => [n] | _ => [] end.

Lemma serve_all_app h cs ds : serve_all load h (cs ++ ds) = h ← serve_all load h cs; serve_all load h ds.
Proof.
  revert h. induction cs as [|c cs IH]; intros h; [done|]. simpl. destruct (serve load h c); [apply IH|done].
Qed.

Lemma read_start_inv h calls n : read_inv h calls n (h, read_run n calls).
Proof.
  exists []. unfold read_run. destruct calls as [|c calls]; simpl; [done|].
  split_and!; try done.
Qed.

Lemma read_step_inv h0 calls n s s' : read_step s s' → read_inv h0 calls n s → read_inv h0 calls n s'.
Proof.
  destruct 1 as [h r r' c Hr|h r i h' r' Hr]; intros (done & Hp & Hs & Hb & Hn & Hcb); cbn [fst snd] in *.
  - unfold read_run_next in Hr. destruct (rd_unrun r) as [|c' rest] eqn:E; [done|]. injection Hr as <- <-.
    exists done. cbn [fst snd rd_open rd_unrun rd_bytes rd_num rd_cb]. rewrite <- app_assoc. split_and!; try done.
    intros Hc. rewrite (Hn Hc), length_app. simpl. lia.
  - unfold read_sub_done in Hr. apply bind_Some in Hr as (c & Hc & (h1 & Hh & [= <- <-])%bind_Some).
    assert (rd_open r ≡ₚ c :: delete i (rd_open r)) as Hperm by by apply delete_Permutation.
    assert (calls ≠ []) as Hne.
    { intros ->. apply Permutation_nil_r, app_eq_nil in Hp as [_ Hp]. apply app_eq_nil in Hp as [Hp _].
      by rewrite Hp in Hc. }
    pose proof (Permutation_length Hperm) as Hlen. simpl in Hlen.
    exists (done ++ [c]). unfold read_notify. cbn [fst snd rd_open rd_unrun rd_bytes rd_num rd_cb]. split_and!.
    + rewrite <- Hp, <- app_assoc. apply Permutation_app_head.
      symmetry. exact (Permutation_app_tail (rd_unrun r) Hperm).
    + rewrite serve_all_app, Hs. simpl. by rewrite Hh.
    + done.
    + intros _. rewrite (Hn Hne). lia.
    + rewrite (Hn Hne), Hcb, Hb.
      assert (rd_open r ++ rd_unrun r ≠ []) as Hex by (by destruct (rd_open r)).
      destruct (rd_open r ++ rd_unrun r) eqn:E1; [done|].
      destruct (1 <? _) eqn:E2; zb.
      * destruct (delete i (rd_open r) ++ rd_unrun r) eqn:E3; [|done].
        apply (f_equal length) in E3. rewrite length_app in E3. simpl in E3. lia.
      * destruct (delete i (rd_open r) ++ rd_unrun r) eqn:E3; [done|].
        apply (f_equal length) in E3. rewrite length_app in E3. simpl in E3. lia.
Qed.

Lemma read_steps_inv h0 calls n s :
  rtc read_step (h0, read_run n calls) s → read_inv h0 calls n s.
Proof.
  intros Hr. pose proof (read_start_inv h0 calls n) as H0. remember (h0, read_run n calls) as s0 eqn:E. clear E.
  induction Hr as [|s1 s2 s3 Hs _ IH]; [done|]. apply IH. by apply (read_step_inv h0 calls n s1).
Qed.
End read.

Section image.
Context {S : Type} {HS : Rados S} {HSok : RadosOk S}.
Context {RC : Type}.
Variable insert_object : RC → string → Z → bytes → RC.
Variable crc32 : bytes → Z.
Variable cfg : lsvd_config.
Variables (name : string) (uuid : bytes) (vol_bytes : Z).
Notation state := (@xstate objmap bufmap S RC).
Implicit Types (st : state) (D : disk).

(** A read request completes once, with the contents of the disk.  Its
    sub-requests may be completed in any order and while others are started: none
    of them fails, the callback has run exactly when all of them have notified,
    once and with the length of the request, and then the client's vector holds the
    disk as it was when the request was made. *)
Theorem read_request_completes st D iovs off n full :
  cfg_ok cfg → uuid_ok uuid → 0 ≤ vol_bytes < 2 ^ 64 →
  reachable insert_object crc32 cfg name uuid vol_bytes st D →
  client_iov (p_heap (x_pipe st)) iovs n → length full = SmartIov.bytes_of iovs →
  (∀ x, off / 512 ≤ x < off / 512 + n →
     D x = Some (slice (Z.to_nat (512 * (x - off / 512))) 512 full)) →
  let load := rados_obj (x_store st) in
  ∃ h0 calls, image_read name st iovs off = Some (h0, calls) ∧
    ∀ h r, rtc (read_step load) (h0, read_run (512 * n) calls) (h, r) →
      (∀ i, (i < length (rd_open r))%nat → is_Some (read_sub_done load h r i)) ∧
      (rd_open r = [] ∧ rd_unrun r = [] ∧ rd_cb r = [512 * n] ∧ SmartIov.contents h iovs = Some full ∨
       (rd_open r ≠ [] ∨ rd_unrun r ≠ []) ∧ rd_cb r = []).
Proof.
  intros Hcfg Hu Hv Hr Hc Hl HD load. apply reachable_inv in Hr as [Hi Hseq]; [|done..].
  destruct (handle_reads_ok (p_bufmap (x_pipe st)) (om_map (x_om st)) (prefix name (x_clones st)) iovs load 256
              (p_heap (x_pipe st)) off n full) as (h0 & calls & Hread & _ & Hserve);
    [by apply (image_read_ok cfg name st D)|].
  exists h0, calls. split; [exact Hread|]. intros h r (done & Hp & Hs & Hb & _ & Hcb)%read_steps_inv.
  cbn [fst snd] in *. split.
  - intros i Hlt. destruct (lookup_lt_is_Some_2 (rd_open r) i Hlt) as [c Hci]. unfold read_sub_done. rewrite Hci.
    cbn [mbind option_bind].
    destruct (Hserve (done ++ c :: delete i (rd_open r) ++ rd_unrun r)) as (h' & Hs' & _).
    { rewrite <- Hp. apply Permutation_app_head.
      symmetry. exact (Permutation_app_tail (rd_unrun r) (delete_Permutation _ _ _ Hci)). }
    rewrite serve_all_app, Hs in Hs'. cbn [mbind option_bind serve_all] in Hs'.
    destruct (serve load h c) as [h1|]; [by eexists|done].
  - destruct (rd_open r) as [|c op] eqn:E1, (rd_unrun r) as [|c' un] eqn:E2; cbn [app] in Hcb;
      [left|right; split; [by right|done]|right; split; [by left|done]|right; split; [by left|done]].
    split_and!; try done.
    rewrite !app_nil_r in Hp. destruct (Hserve done Hp) as (h' & Hs' & Hcont & _).
    rewrite Hs in Hs'. by injection Hs' as ->.
Qed.
End image.

Lemma read_request_completes_witness :
  ∃ h0 calls, image_read "vol" demo_state demo_iov 0 = Some (h0, calls) ∧
    ∀ h r, rtc (read_step (rados_obj demo_store)) (h0, read_run 4096 calls) (h, r) →
      rd_cb r ≠ [] → SmartIov.contents h demo_iov = Some (replicate 4096 5).
Proof.
  destruct (read_request_completes demo_insert demo_crc32 get_default "vol" demo_uuid (2 ^ 30) demo_state
              (read_sector "vol" demo_state) demo_iov 0 8 (replicate 4096 5)) as (h0 & calls & Hr & Hs).
  - exact demo_cfg_ok.
  - exact (proj1 demo_params).
  - exact (proj2 demo_params).
  - exists demo_state. split; [exact demo_opened|apply rtc_refl].
  - exact demo_client.
  - apply length_replicate.
  - intros x Hx. change (0 / 512) with 0 in *. rewrite demo_sectors by lia. f_equal.
    unfold slice. rewrite drop_replicate, take_replicate. f_equal. lia.
  - exists h0, calls. split; [exact Hr|]. intros h r Hrt Hcb.
    destruct (Hs h r Hrt) as [_ [(_ & _ & _ & Hc)|[_ Hn]]]; [exact Hc|]. destruct (Hcb Hn).
Defined.
