(* ===== verification/Settled.v ===== *)
(** * Objects that no longer change

    A data object that has been numbered and stored is never written again.  Only
    the collector makes it disappear, and only when no sector is mapped into it
    any more.  These are the objects that a read asks for: what a read gets does
    not depend on how far the layer has gone when its sub-requests reach the
    object store, as long as the collector has not deleted them. *)

From stdpp Require Import relations.
From S2P Require Import Prelude Bytes Extent ExtMap ExtMapShape ExtMapFlat ExtMapUpdate ExtMapSpec.
From S2P Require Import Memory SmartIov LsvdTypes Backend Objects Serialise DataObject Config.
From S2P Require Import Translate Accounting Pipeline Completion Refine Gc Collector ReadPath ReadSpec ImageRead Image Recovery Reopen.

(** ** Stored objects do not change *)

Section immutable.
Context {M : Type} {HM : LbaMap M obj_offset}.
Context {MB : Type} {HB : LbaMap MB sector_ptr}.
Context {S : Type} {HS : Rados S} {HSok : RadosOk S}.
Context {RC : Type}.
Variable insert_object : RC → string → Z → bytes → RC.
Variable crc32 : bytes → Z.
Variable cfg : lsvd_config.
Variables (name : string) (uuid : bytes) (vol_bytes : Z).
Hypothesis Hcfg : cfg_ok cfg.
Hypothesis Huuid : uuid_ok uuid.
Hypothesis Hvol : 0 ≤ vol_bytes < 2 ^ 64.
Notation state := (@xstate M MB S RC).
Notation collected := (collected insert_object crc32 cfg name uuid vol_bytes).
Notation cstep := (cstep insert_object crc32 cfg name uuid vol_bytes).
Implicit Types (st : state) (D : disk) (o : Z) (g : gc_phase).

(** What the collector's objects that are on their way leave of a settled one *)
Lemma settled_later st D g st' D' g' o :
  collected st D g → rtc cstep (st, D, g) (st', D', g') → settled st o →
  settled st' o ∧ (same_object name st st' o ∨
                   rados_obj (x_store st') (oname name o) = None ∧ unmapped st' [o]).
Proof.
  intros Hsys%collected_system Hs Ho; [|done..].
  destruct (csteps_ok insert_object crc32 cfg name uuid vol_bytes Hcfg Huuid Hvol _ _ Hs Hsys) as (_ & _ & Hsv).
  by apply Hsv.
Qed.

(** C6: stored objects are immutable, also while the collector runs.  Once the
    number of a data object has been given out and its PUT has completed, no
    sequence of steps of the translation layer (writes, trims, batches, flushes,
    checkpoints with their deletions, completions in any order) and of the
    collector's thread (reaping, planning, collection requests, deletions)
    overwrites the object.  It keeps its bytes until the collector deletes it, and
    then no sector is mapped into it.  The object of every sector that is not in
    the buffer map is such an object, or one of the collector that is on its way. *)
Theorem stored_objects_immutable st D g :
  collected st D g →
  (∀ x d q, bufmap_at (p_bufmap (x_pipe st)) x = None → D x = Some d →
     objmap_at (om_map (x_om st)) x = Some q →
     settled st (obj q) ∨ ∃ r n b, (r, n, b) ∈ p_flight (x_pipe st) ∧ t_op r = REQ_GC ∧ t_seq r = obj q) ∧
  ∀ st' D' g' o, rtc cstep (st, D, g) (st', D', g') → settled st o →
    settled st' o ∧
    (rados_obj (x_store st') (oname name o) = rados_obj (x_store st) (oname name o) ∨
     rados_obj (x_store st') (oname name o) = None ∧
     ∀ x q, objmap_at (om_map (x_om st')) x = Some q → obj q ≠ o).
Proof.
  intros Hr. split.
  - intros x d q Hb Hd Hq. apply collected_system in Hr as [Hl _]; [|done..].
    pose proof (landed_sector cfg name st D _ x d Hl Hd Hb) as Hx. rewrite Hq in Hx.
    destruct Hx as [[Hs|([[r n] b] & [Hg Hf]%list_elem_of_filter & _ & Ho)] _]; [by left|right].
    exists r, n, b. split; [done|]. cbn in Hg, Ho. unfold is_gc in Hg. by destruct (t_op r).
  - intros st' D' g' o Hs Ho. destruct (settled_later st D g st' D' g' o Hr Hs Ho) as [Ho' Hc]. split; [done|].
    destruct Hc as [Hc|[Hn Hu]]; [by left|right]. split; [done|]. intros x q Hx Heq. apply (Hu x q Hx).
    by apply list_elem_of_singleton.
Qed.
End immutable.

(** ** Reads of a later store *)

Section image.
Context {S : Type} {HS : Rados S} {HSok : RadosOk S}.
Context {RC : Type}.
Variable insert_object : RC → string → Z → bytes → RC.
Variable crc32 : bytes → Z.
Variable cfg : lsvd_config.
Variables (name : string) (uuid : bytes) (vol_bytes : Z).
Hypothesis Hcfg : cfg_ok cfg.
Hypothesis Huuid : uuid_ok uuid.
Hypothesis Hvol : 0 ≤ vol_bytes < 2 ^ 64.
Notation state := (@xstate objmap bufmap S RC).
Notation collected := (collected insert_object crc32 cfg name uuid vol_bytes).
Notation cstep := (cstep insert_object crc32 cfg name uuid vol_bytes).
Implicit Types (st : state) (D : disk).

Lemma map_denote_buf (bm : bufmap) x : map_denote bm x = bufmap_at bm x.
Proof. unfold map_denote, bufmap_at. by rewrite denote_vals. Qed.

Lemma map_denote_obj (om : objmap) x : map_denote om x = objmap_at om x.
Proof. unfold map_denote, objmap_at. by rewrite denote_vals. Qed.

(** The objects that a read of [n] sectors at [off] needs, made in [st], are there
    in the store of [st']: they had arrived when the request was made, and the
    collector has not deleted them since. *)
Definition objects_there st st' (off n : Z) : Prop :=
  ∀ x q, off / 512 ≤ x < off / 512 + n → bufmap_at (p_bufmap (x_pipe st)) x = None →
    objmap_at (om_map (x_om st)) x = Some q →
    obj q ∉ t_seq <$> sent (x_pipe st) ∧ is_Some (rados_obj (x_store st') (oname name (obj q))).

(** Without collection they always are. *)
Lemma objects_there_without_gc st D st' D' off n :
  Refine.reachable insert_object crc32 cfg name uuid vol_bytes st D →
  rtc (Refine.step insert_object crc32 cfg name uuid vol_bytes) (st, D) (st', D') →
  (∀ x, off / 512 ≤ x < off / 512 + n → is_Some (D x)) → objects_there st st' off n.
Proof.
  intros Hr Hs HD x q Hx Hb Hq. apply reachable_inv in Hr as [Hi Hlim]; [|done..].
  destruct (HD x Hx) as [d Hd]. pose proof (inv_durable _ _ _ _ Hi x d Hb Hd) as Ho. rewrite Hq in Ho.
  destruct Ho as (Hn & b & Hob & _), (inv_objs _ _ _ _ Hi x q Hq) as [Hr Hc]. split; [done|].
  destruct (layer_keeps insert_object crc32 cfg name uuid vol_bytes Hcfg Huuid Hvol _ _ Hs (linv_plain _ _ _ _ Hi Hlim))
    as [_ Hk]. cbn [fst] in Hk. rewrite (Hk (obj q)); [by exists b|]. by split; [|split].
Qed.

(** What a read finds, through the maps of [st] and the objects of a later state *)
Lemma image_read_later st D g st' D' g' iovs off n full :
  collected st D g → rtc cstep (st, D, g) (st', D', g') → objects_there st st' off n →
  client_iov (p_heap (x_pipe st)) iovs n → length full = SmartIov.bytes_of iovs →
  (∀ x, off / 512 ≤ x < off / 512 + n →
     D x = Some (slice (Z.to_nat (512 * (x - off / 512))) 512 full)) →
  read_ok (p_bufmap (x_pipe st)) (om_map (x_om st)) (prefix name (x_clones st)) iovs
    (rados_obj (x_store st')) 256 (p_heap (x_pipe st)) (off / 512) n full.
Proof.
  intros Hr Hsteps Hthere Hc Hl HD.
  pose proof (collected_system insert_object crc32 cfg name uuid vol_bytes Hcfg Huuid Hvol st D g Hr) as [Hli _].
  pose proof (li_inv _ _ _ _ _ Hli) as Hi. pose proof (li_lim _ _ _ _ _ Hli) as Hlim.
  destruct (image_read_ok cfg name (landed st) D iovs off n full Hi Hlim Hc Hl HD) as (H1 & H2 & H3 & H4 & H5 & H6 & Hx).
  split_and!; try done. intros x Hxr. destruct (Hx x Hxr) as (He & H7 & H8). split; [|done].
  rewrite <- He. unfold expect. change (p_bufmap (x_pipe (landed st))) with (p_bufmap (x_pipe st)).
  change (om_map (x_om (landed st))) with (om_map (x_om st)). change (x_clones (landed st)) with (x_clones st).
  destruct (map_denote (p_bufmap (x_pipe st)) x) as [p|] eqn:Eb; [done|].
  destruct (map_denote (om_map (x_om st)) x) as [q|] eqn:Eo; [|done].
  rewrite (inv_clones _ _ _ _ Hi : x_clones st = []). cbn [prefix mbind option_bind].
  rewrite map_denote_buf in Eb. rewrite map_denote_obj in Eo.
  destruct (Hthere x q Hxr Eb Eo) as [Hns [b Hb]].
  assert (settled st (obj q)) as Hset.
  { destruct (inv_objs _ _ _ _ Hi x q Eo) as [Ho Hck]. by split; [|split]. }
  rewrite (landed_settled name st (obj q)); [|apply Hli|done|done].
  destruct (settled_later insert_object crc32 cfg name uuid vol_bytes Hcfg Huuid Hvol _ _ _ _ _ _ _ Hr Hsteps Hset)
    as [_ [Hsame|[Hn _]]]; [|congruence]. unfold same_object in Hsame. by rewrite Hsame.
Qed.
End image.

(** The image of Refine, with the collector's thread *)
Lemma demo_info_known : info_known demo_state.
Proof.
  intros o. change (om_info (x_om demo_state)) with (om_info demo_om). change (x_cur_seq demo_state) with 3. cbn.
  destruct (decide (1 = o)) as [<-|H1]; [lia|]. rewrite lookup_insert_ne by done.
  destruct (decide (2 = o)) as [<-|H2]; [lia|]. rewrite lookup_insert_ne, lookup_empty by done. by intros [].
Qed.

Lemma demo_collected :
  collected demo_insert demo_crc32 get_default "vol" demo_uuid (2 ^ 30) demo_state (read_sector "vol" demo_state) GcIdle.
Proof. exists demo_state. split; [exact demo_opened|]. split; [exact demo_info_known|apply rtc_refl]. Qed.

(** Object 1 of the image of Refine, when a checkpoint has been written *)
Lemma stored_objects_immutable_witness :
  ∃ st', worker_step demo_insert demo_crc32 get_default "vol" demo_uuid (2 ^ 30) demo_ckpt = Some (Some st') ∧
    settled st' 1 ∧
    (rados_obj (x_store st') (oname "vol" 1) = Some (replicate (38 * 512) 5) ∨
     rados_obj (x_store st') (oname "vol" 1) = None ∧
     ∀ x q, objmap_at (om_map (x_om st')) x = Some q → obj q ≠ 1).
Proof.
  destruct (demo_ckpt_step_ok demo_ckpt _ (new_req REQ_CKPT [] []) [] demo_ckpt_reachable)
    as [st' Hcs]; [reflexivity|reflexivity|exact demo_table|reflexivity|change (x_cur_seq demo_ckpt) with 3; lia|].
  destruct (stored_objects_immutable demo_insert demo_crc32 get_default "vol" demo_uuid (2 ^ 30)
              demo_cfg_ok (proj1 demo_params) (proj2 demo_params) demo_state
              (read_sector "vol" demo_state) GcIdle demo_collected) as [_ Hkeep].
  destruct (Hkeep st' (read_sector "vol" demo_state) GcIdle 1) as [Hs Ho].
  - apply (rtc_l _ _ (demo_ckpt, read_sector "vol" demo_state, GcIdle)).
    + apply cs_layer, step_submit. by right.
    + apply rtc_once, cs_layer, step_worker; [change (x_cur_seq demo_ckpt) with 3; lia|apply demo_table|apply Hcs].
  - split; [change (x_cur_seq demo_state) with 3; lia|].
    split; [change (x_checkpoints demo_state) with (@nil Z)|change (sent (x_pipe demo_state)) with (@nil translate_req)];
      apply not_elem_of_nil.
  - exists st'. split; [apply Hcs|]. split; [exact Hs|]. change (x_store demo_state) with demo_store in Ho.
    unfold demo_store in Ho. cbn [rados_obj gmap_rados] in Ho. rewrite lookup_singleton_eq in Ho. exact Ho.
Defined.
