(* ===== verification/CachedRead.v ===== *)
(** * A read through the cache

    The request of an image and the read cache together: [handle_reads] asks the
    cache for its parts, which are requests of the shards or are served at once,
    [run] starts them, and the shards serve and notify in any order, between the
    requests of other readers.  The callback runs once, and the vector then holds
    the disk. *)

From stdpp Require Import relations.
From S2P Require Import Prelude Bytes Extent ExtMap ExtMapShape ExtMapFlat ExtMapUpdate ExtMapSpec.
From S2P Require Import Memory SmartIov LsvdTypes Backend Objects Serialise DataObject Config.
From S2P Require Import Translate Accounting Pipeline Completion Refine WriteCache ReadPath ReadSpec ImageRead.
From S2P Require Import ReadCache ReadClock ReadCoherence ReadSteps ReadMake ReadRefine ReadShards ReadRequest Gc Collector Settled.

(** ** Lists of requests *)

Definition without (t : tag) (l : list tag) : list tag := filter (λ u, u ≠ t) l.

Lemma without_id t l : t ∉ l → without t l = l.
Proof.
  unfold without. induction l as [|u l IH]; intros Hn; [done|]. rewrite filter_cons_True by set_solver.
  f_equal. apply IH. set_solver.
Qed.

Lemma without_perm t l : NoDup l → t ∈ l → l ≡ₚ t :: without t l.
Proof.
  intros Hnd (l1 & l2 & ->)%list_elem_of_split. apply NoDup_app in Hnd as (_ & H1 & [H2 _]%NoDup_cons).
  unfold without. rewrite filter_app, filter_cons_False by auto. fold (without t l1) (without t l2).
  rewrite !without_id; [by rewrite <- Permutation_middle|done|]. intros Ht. apply (H1 t Ht). by left.
Qed.

Lemma elem_of_without t u l : u ∈ without t l ↔ u ≠ t ∧ u ∈ l.
Proof. unfold without. by rewrite list_elem_of_filter. Qed.

(** ** Requests *)

(** A [read_request]: in [handle_reads], with the calls to make and the
    sub-requests made; or past it. *)
Inductive cached_read :=
| Making (todo : list read_call) (made : list tag)
| Going (r : read_request tag).

Definition todo_of (r : cached_read) : list read_call := match r with Making todo _ => todo | Going _ => [] end.
Definition unrun_of (r : cached_read) : list tag := match r with Making _ made => made | Going r => rd_unrun r end.
Definition open_of (r : cached_read) : list tag := match r with Making _ _ => [] | Going r => rd_open r end.
Definition cb_of (r : cached_read) : list Z := match r with Making _ _ => [] | Going r => rd_cb r end.

(** [notify] by the sub-request [t] *)
Definition sub_notify (r : read_request tag) (t : tag) : read_request tag :=
  read_notify (mk_read (rd_bytes r) (rd_num r) (rd_unrun r) (without t (rd_open r)) (rd_cb r)).

(** The count and the callback agree with the sub-requests. *)
Definition going_ok (n : Z) (r : read_request tag) : Prop :=
  rd_bytes r = n ∧
  (rd_unrun r ++ rd_open r ≠ [] → rd_num r = Z.of_nat (length (rd_unrun r) + length (rd_open r))) ∧
  rd_cb r = match rd_unrun r ++ rd_open r with [] => [n] | _ => [] end.

Lemma going_run n made : going_ok n (read_run n made).
Proof.
  unfold read_run, going_ok. destruct made as [|t made]; simpl; [done|].
  split_and!; [done|intros _; lia|done].
Qed.

Lemma going_next n r r' t :
  going_ok n r → read_run_next r = Some (r', t) →
  going_ok n r' ∧ ∃ rest, rd_unrun r = t :: rest ∧ rd_unrun r' = rest ∧ rd_open r' = rd_open r ++ [t].
Proof.
  intros (Hb & Hn & Hc) Hr. unfold read_run_next in Hr. destruct (rd_unrun r) as [|u rest] eqn:E; [done|].
  injection Hr as <- <-. split; [|by exists rest]. unfold going_ok. cbn [rd_bytes rd_num rd_unrun rd_open rd_cb].
  split; [done|]. split.
  - intros _. rewrite Hn by done. rewrite length_app. simpl. lia.
  - rewrite Hc. simpl. destruct (rest ++ rd_open r ++ [u]) eqn:E'; [|done]. by apply app_nil in E' as [_ [_ ?]%app_nil].
Qed.

Lemma going_notify n r t :
  going_ok n r → NoDup (rd_open r) → t ∈ rd_open r → going_ok n (sub_notify r t).
Proof.
  intros (Hb & Hn & Hc) Hnd Ht. pose proof (Permutation_length (without_perm t _ Hnd Ht)) as Hlen. simpl in Hlen.
  assert (rd_unrun r ++ rd_open r ≠ []) as Hne by (intros [_ E]%app_nil; rewrite E in Ht; by apply elem_of_nil in Ht).
  specialize (Hn Hne). unfold sub_notify, read_notify, going_ok. cbn [rd_bytes rd_num rd_unrun rd_open rd_cb].
  split; [done|]. split; [intros _; lia|].
  destruct (rd_unrun r ++ rd_open r) eqn:E0; [done|]. rewrite Hc, Hb.
  destruct (rd_unrun r ++ without t (rd_open r)) eqn:E; apply (f_equal length) in E; rewrite length_app in E; simpl in E.
  - by rewrite (proj2 (Z.ltb_ge 1 (rd_num r))) by lia.
  - by rewrite (proj2 (Z.ltb_lt 1 (rd_num r))) by lia.
Qed.

Section cached.
(** The contents of the objects, the hash of the shards, the vector and its
    length *)
Variable obj_data : string → option bytes.
Variable hash : chunk_key → Z.
Variable iovs : SmartIov.smartiov.
Variable n : Z.
Notation shard_step := (shard_step obj_data).
Notation sharded_inv := (sharded_inv obj_data).
Notation covered := (covered obj_data).
Implicit Types (s : sharded_state) (r : cached_read) (t : tag).

(** A call of another reader: it asks for bytes that exist, into other memory. *)
Definition foreign (c : read_call) : Prop :=
  covered c ∧ ∀ a, a ∈ SmartIov.cells (rc_dest c) → a ∉ SmartIov.cells iovs.

(** What the rest of the process may do to the shards *)
Definition other_event r (ev : option nat * event) : Prop :=
  match ev with
  | (_, Begun _ c) | (_, ReadNow c) => foreign c
  | (Some i, Ran id _) => (i, id) ∉ unrun_of r
  | (Some i, Served id _ _) => (i, id) ∉ open_of r
  | _ => True
  end.

Inductive cached_step : sharded_state * cached_read → sharded_state * cached_read → Prop :=
| cs_make s s' id c todo made :
  let i := get_shard hash (key_of c) in
  shard_step s (Some i, Begun id c) s' →
  cached_step (s, Making (c :: todo) made) (s', Making todo (made ++ [(i, id)]))
| cs_now s s' c todo made :
  shard_step s (Some (get_shard hash (key_of c)), ReadNow c) s' →
  cached_step (s, Making (c :: todo) made) (s', Making todo made)
| cs_run s made : cached_step (s, Making [] made) (s, Going (read_run n made))
| cs_next s s' (q q' : read_request tag) i id b :
  read_run_next q = Some (q', (i, id)) → shard_step s (Some i, Ran id b) s' →
  cached_step (s, Going q) (s', Going (if b then sub_notify q' (i, id) else q'))
| cs_served s s' (q : read_request tag) i id c b :
  (i, id) ∈ rd_open q → shard_step s (Some i, Served id c b) s' →
  cached_step (s, Going q) (s', Going (if b then sub_notify q (i, id) else q))
| cs_other s s' r ev :
  other_event r ev → shard_step s ev s' →
  (ev.2 = Outside → ∀ a, a ∈ SmartIov.cells iovs → m_heap (sh_mem s'.1) !! a = m_heap (sh_mem s.1) !! a) →
  cached_step (s, r) (s', r).

(** ** Memory *)

Definition agree (h h' : heap) : Prop := ∀ a, a ∈ SmartIov.cells iovs → h !! a = h' !! a.

Lemma write_cells_agree h1 h2 cs bs h1' h2' :
  agree h1 h2 → write_cells h1 cs bs = Some h1' → write_cells h2 cs bs = Some h2' → agree h1' h2'.
Proof.
  revert h1 h2 bs. induction cs as [|c cs IH]; intros h1 h2 [|b bs] Ha H1 H2; simplify_eq/=; [done|].
  apply bind_Some in H1 as (x & _ & H1), H2 as (y & _ & H2). apply (IH _ _ _) with (2 := H1) (3 := H2).
  intros a Hin. destruct (decide (a = c)) as [->|]; [by rewrite !lookup_insert_eq|].
  rewrite !lookup_insert_ne by done. by apply Ha.
Qed.

Lemma serve_agree h1 h2 c h1' h2' :
  agree h1 h2 → serve obj_data h1 c = Some h1' → serve obj_data h2 c = Some h2' → agree h1' h2'.
Proof.
  unfold serve. intros Ha H1 H2. destruct (call_bytes obj_data c) as [bs|]; [|done].
  cbn [mbind option_bind] in H1, H2. by eapply write_cells_agree.
Qed.

Lemma serve_foreign h c h' : foreign c → serve obj_data h c = Some h' → agree h' h.
Proof.
  unfold serve. intros [_ Hd] (bs & _ & Hw)%bind_Some a Ha. apply (write_cells_other _ _ _ _ _ Hw).
  intros Hin. by apply (Hd a Hin).
Qed.

(** ** The invariant *)

(** Where a request of ours is in the lists, by its phase *)
Definition placed r (waiting : list (tag * read_call)) t (p : phase) : Prop :=
  match p with
  | Fresh => t ∈ unrun_of r ∧ t ∈ waiting.*1
  | Open => t ∈ open_of r ∧ t ∈ waiting.*1
  | Ready => t ∈ unrun_of r ∧ t ∉ waiting.*1
  | Over => t ∉ unrun_of r ∧ t ∉ open_of r ∧ t ∉ waiting.*1
  end.

Variable h0 : heap.
Variable calls0 : list read_call.

(** The requests that have been made, those whose call waits, the calls that have
    been served in order *)
Record tracked (mine : list tag) (waiting : list (tag * read_call)) (served : list read_call) s r : Prop := {
  tr_inv : sharded_inv s;
  tr_calls : calls0 ≡ₚ todo_of r ++ waiting.*2 ++ served;
  tr_heap : ∃ h, serve_all obj_data h0 served = Some h ∧ agree (m_heap (sh_mem s.1)) h;
  tr_foreign t c : call_at s t = Some c → t ∈ mine ∨ foreign c;
  tr_waiting t c : (t, c) ∈ waiting → t ∈ mine ∧ call_at s t = Some c;
  tr_nodup : NoDup (unrun_of r ++ open_of r);
  tr_nodup_waiting : NoDup waiting.*1;
  tr_mine t : t ∈ unrun_of r ++ open_of r → t ∈ mine;
  tr_placed t : t ∈ mine → is_Some (call_at s t) ∧ ∃ p, phase_at s t = Some p ∧ placed r waiting t p;
  tr_going : match r with Making _ _ => True | Going q => going_ok n q end;
}.

Hypothesis Hfits : Forall (call_fits iovs obj_data) calls0.
Hypothesis Hclient : ∀ a, a ∈ SmartIov.cells iovs → a.1 ≤ 0.
Hypothesis Horder : ∀ order, order ≡ₚ calls0 → is_Some (serve_all obj_data h0 order).

Lemma fits_covered c : c ∈ calls0 → covered c.
Proof. intros Hc. rewrite Forall_forall in Hfits. by destruct (Hfits c Hc) as (_ & _ & ? & _). Qed.

Lemma placed_ext r r' w w' t p :
  (t ∈ unrun_of r' ↔ t ∈ unrun_of r) → (t ∈ open_of r' ↔ t ∈ open_of r) → (t ∈ w'.*1 ↔ t ∈ w.*1) →
  placed r w t p → placed r' w' t p.
Proof. unfold placed. destruct p; tauto. Qed.

(** A step that leaves the memory of clients alone *)
Lemma heap_still served s s' :
  (∃ h, serve_all obj_data h0 served = Some h ∧ agree (m_heap (sh_mem s.1)) h) →
  (∀ a, a ∈ SmartIov.cells iovs → m_heap (sh_mem s'.1) !! a = m_heap (sh_mem s.1) !! a) →
  ∃ h, serve_all obj_data h0 served = Some h ∧ agree (m_heap (sh_mem s'.1)) h.
Proof.
  intros (h & Hs & Ha) Hm. exists h. split; [done|]. intros a Hin. rewrite Hm by done. by apply Ha.
Qed.

(** A step that serves one of the calls *)
Lemma heap_served served c rest s s' :
  calls0 ≡ₚ rest ++ served ++ [c] →
  (∃ h, serve_all obj_data h0 served = Some h ∧ agree (m_heap (sh_mem s.1)) h) →
  serve obj_data (m_heap (sh_mem s.1)) c = Some (m_heap (sh_mem s'.1)) →
  ∃ h, serve_all obj_data h0 (served ++ [c]) = Some h ∧ agree (m_heap (sh_mem s'.1)) h.
Proof.
  intros Hp (h & Hs & Ha) Hc. destruct (Horder ((served ++ [c]) ++ rest)) as [hf Hf].
  { by rewrite Hp, Permutation_app_comm. }
  rewrite serve_all_app in Hf. apply bind_Some in Hf as (h' & Hh & _). exists h'. split; [done|].
  rewrite serve_all_app, Hs in Hh. cbn [mbind option_bind serve_all] in Hh.
  destruct (serve obj_data h c) as [h1|] eqn:E; [|done]. injection Hh as <-. by eapply serve_agree.
Qed.

(** The calls when a request is served *)
Lemma waiting_split todo waiting served t c :
  calls0 ≡ₚ todo ++ waiting.*2 ++ served → (t, c) ∈ waiting → NoDup waiting.*1 →
  ∃ waiting', calls0 ≡ₚ todo ++ waiting'.*2 ++ served ++ [c] ∧ NoDup waiting'.*1 ∧ t ∉ waiting'.*1 ∧
    (∀ x, x ∈ waiting' → x ∈ waiting) ∧ ∀ u, u ≠ t → u ∈ waiting'.*1 ↔ u ∈ waiting.*1.
Proof.
  intros Hp (w1 & w2 & ->)%list_elem_of_split Hnd. exists (w1 ++ w2).
  rewrite !fmap_app, fmap_cons in *. cbn [fst snd] in *. split.
  { rewrite Hp. rewrite <- !app_assoc. apply Permutation_app_head, Permutation_app_head.
    rewrite (app_assoc (w2.*2)). rewrite <- Permutation_cons_append. done. }
  apply NoDup_app in Hnd as (H1 & H2 & [H3 H4]%NoDup_cons). split_and!.
  - apply NoDup_app. split_and!; [done| |done]. intros u Hu Hu2. apply (H2 u Hu). by right.
  - intros [Ht|Ht]%elem_of_app; [|done]. apply (H2 t Ht). by left.
  - intros x [?|?]%elem_of_app; apply elem_of_app; [by left|right; by right].
  - intros u Hu. rewrite !elem_of_app, elem_of_cons. tauto.
Qed.

(** One of our requests goes from a phase to the next. *)
Lemma tracked_pass mine w served s r t0 p p' w' served' s' r' :
  tracked mine w served s r → sharded_inv s' → t0 ∈ mine →
  passes s s' t0 p p' → same_phases (eq t0) s s' → same_calls (λ _, False) s s' →
  calls0 ≡ₚ todo_of r' ++ w'.*2 ++ served' →
  (∃ h, serve_all obj_data h0 served' = Some h ∧ agree (m_heap (sh_mem s'.1)) h) →
  (∀ x, x ∈ w' → x ∈ w) → NoDup w'.*1 → NoDup (unrun_of r' ++ open_of r') →
  placed r' w' t0 p' →
  (∀ t, t ≠ t0 → (t ∈ unrun_of r' ↔ t ∈ unrun_of r) ∧ (t ∈ open_of r' ↔ t ∈ open_of r) ∧ (t ∈ w'.*1 ↔ t ∈ w.*1)) →
  match r' with Making _ _ => True | Going q => going_ok n q end →
  tracked mine w' served' s' r'.
Proof.
  intros Htr Hi H0 [_ Hp'] Hph Hca Hcalls Hheap Hw Hndw Hnd Hpl Hext Hgo. split; try done.
  - intros t c. rewrite Hca by auto. apply (tr_foreign _ _ _ _ _ Htr).
  - intros t c Hin. rewrite Hca by auto. by apply (tr_waiting _ _ _ _ _ Htr), Hw.
  - intros t Ht. destruct (decide (t = t0)) as [->|Hne]; [done|]. destruct (Hext t Hne) as (E1 & E2 & _).
    apply (tr_mine _ _ _ _ _ Htr). rewrite elem_of_app in *. tauto.
  - intros t Ht. rewrite Hca by auto. destruct (tr_placed _ _ _ _ _ Htr t Ht) as (Hc & q & Hq & Hpt).
    split; [done|]. destruct (decide (t = t0)) as [->|Hne]; [by exists p'|].
    exists q. rewrite Hph by auto. split; [done|]. destruct (Hext t Hne) as (? & ? & ?). by eapply placed_ext.
Qed.

(** A step that concerns none of our requests *)
Lemma tracked_still mine w served s r s' :
  tracked mine w served s r → sharded_inv s' →
  (∀ t, t ∈ mine → phase_at s' t = phase_at s t ∧ call_at s' t = call_at s t) →
  (∀ t c, call_at s' t = Some c → call_at s t = Some c ∨ foreign c) →
  (∀ a, a ∈ SmartIov.cells iovs → m_heap (sh_mem s'.1) !! a = m_heap (sh_mem s.1) !! a) →
  tracked mine w served s' r.
Proof.
  intros Htr Hi Hsame Hnew Hm. destruct Htr. split; try done.
  - by eapply heap_still.
  - intros t c Hc. destruct (Hnew t c Hc) as [?|?]; [by apply (tr_foreign0 t)|by right].
  - intros t c Hin. destruct (tr_waiting0 t c Hin) as [Ht ?]. split; [done|]. by rewrite (proj2 (Hsame t Ht)).
  - intros t Ht. destruct (Hsame t Ht) as [-> ->]. by apply tr_placed0.
Qed.

(** What the event of a step of the shards leaves in the vector *)
Definition quiet_event (ev : event) : Prop :=
  match ev with Quiet | Begun _ _ | Ran _ _ => True | _ => False end.

Lemma quiet_memory s ev s' :
  quiet_event ev.2 → sharded_inv s → shard_step s ev s' →
  ∀ a, a ∈ SmartIov.cells iovs → m_heap (sh_mem s'.1) !! a = m_heap (sh_mem s.1) !! a.
Proof.
  intros Hq Hi Hs a Ha. destruct (shard_step_inv obj_data s ev s' Hi Hs) as [_ Hok]. apply Hclient in Ha.
  destruct ev as [o []]; cbn [snd event_ok] in *; try done; by apply Hok.
Qed.

Lemma served_memory s i id c b s' :
  covered c → sharded_inv s → shard_step s (Some i, Served id c b) s' →
  serve obj_data (m_heap (sh_mem s.1)) c = Some (m_heap (sh_mem s'.1)).
Proof. intros Hc Hi Hs. destruct (shard_step_inv obj_data _ _ _ Hi Hs) as [_ Hok]. by apply Hok. Qed.

Lemma now_memory s o c s' :
  covered c → sharded_inv s → shard_step s (o, ReadNow c) s' →
  serve obj_data (m_heap (sh_mem s.1)) c = Some (m_heap (sh_mem s'.1)).
Proof. intros Hc Hi Hs. destruct (shard_step_inv obj_data _ _ _ Hi Hs) as [_ Hok]. by apply Hok. Qed.

Lemma tracked_make mine w served s s' i id c todo made :
  tracked mine w served s (Making (c :: todo) made) → shard_step s (Some i, Begun id c) s' →
  tracked (mine ++ [(i, id)]) (w ++ [((i, id), c)]) served s' (Making todo (made ++ [(i, id)])).
Proof.
  intros Htr Hs. set (t0 := (i, id)). pose proof (tr_inv _ _ _ _ _ Htr) as Hi.
  destruct (shard_step_at obj_data s _ s' Hi Hs) as (Hnone & Hcall & Hfresh & Hph & Hca). fold t0 in Hnone, Hcall, Hfresh, Hph, Hca. clearbody t0.
  assert (t0 ∉ mine) as Hn0.
  { intros Hin. destruct (tr_placed _ _ _ _ _ Htr t0 Hin) as [[x Hx] _]. congruence. }
  assert (∀ t, t ∈ mine → t ≠ t0) as Hne by (intros t Ht ->; done).
  assert (t0 ∉ w.*1) as Hnw.
  { intros [[u x] [Hux Hin]]%list_elem_of_fmap. cbn in Hux. subst u. by destruct (tr_waiting _ _ _ _ _ Htr _ _ Hin). }
  destruct (shard_step_inv obj_data s _ s' Hi Hs) as [Hi' _].
  destruct Htr as [_ Hcalls Hheap Hfor Hw Hnd Hndw Hmine Hpl _]. cbn [todo_of unrun_of open_of] in *. rewrite app_nil_r in *.
  split; cbn [todo_of unrun_of open_of]; try done; rewrite ?app_nil_r.
  - rewrite Hcalls, fmap_app, <- !app_assoc. cbn [fmap list_fmap app snd]. by rewrite app_assoc, Permutation_middle, app_assoc.
  - eapply heap_still; [exact Hheap|]. by eapply (quiet_memory s (Some i, Begun id c)).
  - intros t x Hx. destruct (decide (t = t0)) as [->|Ht]; [left; set_solver|]. rewrite Hca in Hx by auto.
    destruct (Hfor t x Hx); [left; set_solver|by right].
  - intros t x [Hin| [= -> ->]%list_elem_of_singleton]%elem_of_app.
    + destruct (Hw t x Hin) as [Ht ?]. split; [set_solver|]. rewrite Hca by (intros <-; done). done.
    + split; [set_solver|done].
  - apply NoDup_app. split_and!; [done| |apply NoDup_singleton]. intros t Ht ->%list_elem_of_singleton. by apply Hn0, Hmine.
  - rewrite fmap_app. apply NoDup_app. split_and!; [done| |apply NoDup_singleton].
    intros t Ht ->%list_elem_of_singleton. done.
  - intros t [Ht|Ht]%elem_of_app; [apply elem_of_app; left; by apply Hmine|set_solver].
  - intros t [Ht| ->%list_elem_of_singleton]%elem_of_app.
    + rewrite Hca by (intros <-; done). destruct (Hpl t Ht) as (? & p & Hp & Hpt). split; [done|]. exists p.
      rewrite Hph by (intros <-; done). split; [done|]. specialize (Hne t Ht). eapply placed_ext; [..|exact Hpt];
        cbn [unrun_of open_of]; rewrite ?fmap_app, ?elem_of_app; set_solver.
    + split; [by eexists|]. exists Fresh. split; [done|]. cbn [placed unrun_of]. rewrite fmap_app. set_solver.
Qed.

Lemma tracked_now mine w served s s' o c todo made :
  tracked mine w served s (Making (c :: todo) made) → shard_step s (o, ReadNow c) s' →
  tracked mine w (served ++ [c]) s' (Making todo made).
Proof.
  intros Htr Hs. pose proof (tr_inv _ _ _ _ _ Htr) as Hi.
  destruct (shard_step_inv obj_data s _ s' Hi Hs) as [Hi' _].
  assert (same_phases (λ _, False) s s' ∧ same_calls (λ _, False) s s') as [Hph Hca].
  { pose proof (shard_step_at obj_data s _ s' Hi Hs) as He. by destruct o. }
  destruct Htr as [_ Hcalls Hheap Hfor Hw Hnd Hndw Hmine Hpl _]. cbn [todo_of unrun_of open_of] in *.
  assert (calls0 ≡ₚ (todo ++ w.*2) ++ served ++ [c]) as Hp.
  { rewrite Hcalls. cbn [app]. by rewrite Permutation_cons_append, <- !app_assoc. }
  split; cbn [todo_of unrun_of open_of]; try done.
  - by rewrite Hp, <- app_assoc.
  - eapply heap_served; [exact Hp|exact Hheap|]. eapply now_memory; [|exact Hi|exact Hs].
    apply fits_covered. rewrite Hcalls. by left.
  - intros t x. rewrite Hca by auto. apply Hfor.
  - intros t x Hin. rewrite Hca by auto. by apply Hw.
  - intros t Ht. rewrite Hca, Hph by auto. by apply Hpl.
Qed.

Lemma tracked_run mine w served s made :
  tracked mine w served s (Making [] made) → tracked mine w served s (Going (read_run n made)).
Proof.
  assert (rd_unrun (read_run n made) = made ∧ rd_open (read_run n made) = []) as [Eu Eo] by by destruct made.
  intros []. cbn [todo_of unrun_of open_of] in *. split; cbn [todo_of unrun_of open_of]; rewrite ?Eu, ?Eo; try done.
  - intros t Ht. destruct (tr_placed0 t Ht) as (? & p & ? & Hp). split; [done|]. exists p. split; [done|].
    eapply placed_ext; [..|exact Hp]; cbn [unrun_of open_of]; by rewrite ?Eu, ?Eo.
  - apply going_run.
Qed.

Lemma tracked_phase mine w served s r t p :
  tracked mine w served s r → t ∈ mine → phase_at s t = Some p → placed r w t p.
Proof. intros Htr Ht Hp. destruct (tr_placed _ _ _ _ _ Htr t Ht) as (_ & q & Hq & Hpl). congruence. Qed.

Lemma waiting_call mine w served s r t c :
  tracked mine w served s r → t ∈ w.*1 → call_at s t = Some c → (t, c) ∈ w.
Proof.
  intros Htr [[u x] [-> Hin]]%list_elem_of_fmap Hc. cbn [fst] in *.
  destruct (tr_waiting _ _ _ _ _ Htr _ _ Hin) as [_ Hx]. congruence.
Qed.

Lemma tracked_next mine w served s s' (q q' : read_request tag) i id b :
  tracked mine w served s (Going q) → read_run_next q = Some (q', (i, id)) → shard_step s (Some i, Ran id b) s' →
  tracked mine w served s' (Going (if b then sub_notify q' (i, id) else q')).
Proof.
  intros Htr Hq Hs. pose proof (tr_inv _ _ _ _ _ Htr) as Hi. pose proof (tr_going _ _ _ _ _ Htr) as Hgo.
  destruct (shard_step_inv obj_data s _ s' Hi Hs) as [Hi' _].
  destruct (shard_step_at obj_data s _ s' Hi Hs) as (Hpass & Hph & Hca).
  destruct (going_next n q q' _ Hgo Hq) as (Hgo' & rest & Eu & Eu' & Eo').
  set (t0 := (i, id)) in *. pose proof (tr_nodup _ _ _ _ _ Htr) as Hnd. cbn [unrun_of open_of] in Hnd.
  assert (t0 ∈ mine) as H0 by (apply (tr_mine _ _ _ _ _ Htr); cbn [unrun_of]; rewrite Eu; by left).
  pose proof Hnd as Hnd'. rewrite Eu in Hnd'. cbn [app] in Hnd'. apply NoDup_cons in Hnd' as [Hn0 Hnd'].
  assert (∃ h, serve_all obj_data h0 served = Some h ∧ agree (m_heap (sh_mem s'.1)) h) as Hheap.
  { eapply heap_still; [apply (tr_heap _ _ _ _ _ Htr)|]. by apply (quiet_memory s (Some i, Ran id b)). }
  destruct Hpass as [[Hp ->]|[Hp ->]].
  - destruct (tracked_phase _ _ _ _ _ _ _ Htr H0 (proj1 Hp)) as [_ Hw].
    eapply tracked_pass; try done; try (by apply Htr); cbn [unrun_of open_of placed]; rewrite ?Eu', ?Eo'.
    + by rewrite app_assoc, <- Permutation_cons_append, NoDup_cons.
    + split; [set_solver|done].
    + intros t Ht. rewrite Eu. set_solver.
  - destruct (tracked_phase _ _ _ _ _ _ _ Htr H0 (proj1 Hp)) as [_ Hw].
    assert (rd_open (sub_notify q' t0) = rd_open q) as Eo.
    { cbn [sub_notify read_notify rd_open]. rewrite Eo'. unfold without.
      rewrite filter_app, filter_cons_False by auto. cbn. rewrite app_nil_r. apply without_id. set_solver. }
    eapply tracked_pass; try done; try (by apply Htr); cbn [unrun_of open_of placed];
      rewrite ?Eo; change (rd_unrun (sub_notify q' t0)) with (rd_unrun q'); rewrite ?Eu'.
    + done.
    + set_solver.
    + intros t Ht. rewrite Eu. set_solver.
    + apply going_notify; [done| |rewrite Eo'; set_solver]. rewrite Eo'.
      apply NoDup_app in Hnd' as (_ & _ & Hndo). apply NoDup_app. split_and!; [done|set_solver|apply NoDup_singleton].
Qed.

Lemma tracked_served mine w served s s' (q : read_request tag) i id c b :
  tracked mine w served s (Going q) → (i, id) ∈ rd_open q → shard_step s (Some i, Served id c b) s' →
  ∃ w', tracked mine w' (served ++ [c]) s' (Going (if b then sub_notify q (i, id) else q)).
Proof.
  intros Htr Ht Hs. pose proof (tr_inv _ _ _ _ _ Htr) as Hi. pose proof (tr_going _ _ _ _ _ Htr) as Hgo.
  destruct (shard_step_inv obj_data s _ s' Hi Hs) as [Hi' _].
  destruct (shard_step_at obj_data s _ s' Hi Hs) as (Hc & Hpass & Hph & Hca).
  set (t0 := (i, id)) in *. pose proof (tr_nodup _ _ _ _ _ Htr) as Hnd. cbn [unrun_of open_of] in Hnd.
  assert (t0 ∈ mine) as H0 by (apply (tr_mine _ _ _ _ _ Htr); cbn [unrun_of open_of]; set_solver).
  apply NoDup_app in Hnd as (Hnd1 & Hdis & Hnd2).
  destruct Hpass as [[Hp _]|[Hp ->]]; pose proof (tracked_phase _ _ _ _ _ _ _ Htr H0 (proj1 Hp)) as [Hu Hw].
  { cbn [unrun_of] in Hu. by destruct (Hdis t0 Hu). }
  pose proof (waiting_call _ _ _ _ _ _ _ Htr Hw Hc) as Hin.
  destruct (waiting_split _ _ _ _ _ (tr_calls _ _ _ _ _ Htr) Hin (tr_nodup_waiting _ _ _ _ _ Htr))
    as (w' & Hp' & Hnw & Hn0 & Hsub & Heq).
  exists w'. cbn [todo_of app] in Hp'.
  assert (covered c) as Hcov.
  { apply fits_covered. rewrite Hp'. apply elem_of_app. right. apply elem_of_app. right. by left. }
  eapply tracked_pass; try done; cbn [unrun_of open_of placed todo_of app];
    change (rd_unrun (sub_notify q t0)) with (rd_unrun q);
    change (rd_open (sub_notify q t0)) with (without t0 (rd_open q)).
  - eapply heap_served; [exact Hp'|apply (tr_heap _ _ _ _ _ Htr)|]. by eapply served_memory.
  - apply NoDup_app. split_and!; [done| |by apply NoDup_filter]. intros t Hut [_ Ho]%elem_of_without. by apply (Hdis t).
  - rewrite elem_of_without. split_and!; [|by intros [? _]|done]. intros Hut. by apply (Hdis t0).
  - intros t Hne. rewrite elem_of_without. split_and!; [done|tauto|by apply Heq].
  - by apply going_notify.
Qed.

Lemma tracked_other mine w served s s' r ev :
  tracked mine w served s r → other_event r ev → shard_step s ev s' →
  (ev.2 = Outside → ∀ a, a ∈ SmartIov.cells iovs → m_heap (sh_mem s'.1) !! a = m_heap (sh_mem s.1) !! a) →
  ∃ w' served', tracked mine w' served' s' r.
Proof.
  intros Htr Hother Hs Hout. pose proof (tr_inv _ _ _ _ _ Htr) as Hi.
  destruct (shard_step_inv obj_data s ev s' Hi Hs) as [Hi' _].
  pose proof (shard_step_at obj_data s ev s' Hi Hs) as Hat.
  assert (same_phases (λ _, False) s s' ∧ same_calls (λ _, False) s s' →
    (∀ a, a ∈ SmartIov.cells iovs → m_heap (sh_mem s'.1) !! a = m_heap (sh_mem s.1) !! a) →
    ∃ w' served', tracked mine w' served' s' r) as Hstill.
  { intros [Hph Hca] Hm. exists w, served. eapply tracked_still; try done.
    - intros t _. by rewrite Hph, Hca by auto.
    - intros t c. rewrite Hca by auto. by left. }
  assert (∀ t0, same_phases (eq t0) s s' → (∀ t, t ≠ t0 → call_at s' t = call_at s t) → t0 ∉ mine →
    (∀ c, call_at s' t0 = Some c → call_at s t0 = Some c ∨ foreign c) →
    (∀ a, a ∈ SmartIov.cells iovs → m_heap (sh_mem s'.1) !! a = m_heap (sh_mem s.1) !! a) →
    ∃ w' served', tracked mine w' served' s' r) as Hforeign.
  { intros t0 Hph Hca Hn Hnew Hm. exists w, served. eapply tracked_still; try done.
    - intros t Ht. assert (t ≠ t0) by (intros ->; done). by rewrite Hph, Hca by auto.
    - intros t c Hc. destruct (decide (t = t0)) as [->|Hne]; [by apply Hnew|]. left. by rewrite <- Hca. }
  destruct ev as [[i|] ev].
  2: { apply Hstill; [done|]. apply Hout. by inversion Hs. }
  destruct ev as [|id c|c|id b|id c b|]; cbn [event_at other_event snd] in *; try (by apply Hstill; auto).
  - apply Hstill; [done|]. by apply (quiet_memory s (Some i, Quiet)).
  - destruct Hat as (Hnone & Hc & _ & Hph & Hca). apply (Hforeign (i, id)); try done.
    + intros t Hne. apply Hca. congruence.
    + intros Hin. destruct (tr_placed _ _ _ _ _ Htr _ Hin) as [[x Hx] _]. congruence.
    + rewrite Hc. intros x [= <-]. by right.
    + by apply (quiet_memory s (Some i, Begun id c)).
  - apply Hstill; [done|]. apply (serve_foreign _ c); [done|]. by eapply now_memory; [apply Hother| |].
  - destruct Hat as (Hpass & Hph & Hca). apply (Hforeign (i, id)); try done.
    + intros t _. apply Hca. auto.
    + intros Hin. apply Hother.
      destruct Hpass as [[Hp _]|[Hp _]]; by destruct (tracked_phase _ _ _ _ _ _ _ Htr Hin (proj1 Hp)).
    + rewrite Hca by auto. by left.
    + by apply (quiet_memory s (Some i, Ran id b)).
  - destruct Hat as (Hc & Hpass & Hph & Hca). destruct (decide ((i, id) ∈ mine)) as [Hin|Hn].
    + destruct Hpass as [[Hp ->]|[Hp _]]; pose proof (tracked_phase _ _ _ _ _ _ _ Htr Hin (proj1 Hp)) as [Hu Hw];
        [|by destruct Hother].
      destruct (waiting_split _ _ _ _ _ (tr_calls _ _ _ _ _ Htr) (waiting_call _ _ _ _ _ _ _ Htr Hw Hc)
                  (tr_nodup_waiting _ _ _ _ _ Htr)) as (w' & Hp' & Hnw & Hn0 & Hsub & Heq).
      exists w', (served ++ [c]). eapply tracked_pass; try done; try (by apply Htr).
      * eapply (heap_served served c (todo_of r ++ w'.*2)); [by rewrite Hp', <- app_assoc|apply (tr_heap _ _ _ _ _ Htr)|].
        eapply served_memory; [|exact Hi|exact Hs]. apply fits_covered. rewrite Hp'.
        do 2 (apply elem_of_app; right). apply elem_of_app. right. by left.
      * intros t Hne. split_and!; [done|done|by apply Heq].
    + destruct (tr_foreign _ _ _ _ _ Htr _ _ Hc) as [?|Hf]; [done|]. apply (Hforeign (i, id)); try done.
      * intros t _. apply Hca. auto.
      * rewrite Hca by auto. by left.
      * apply (serve_foreign _ c); [done|]. by eapply served_memory; [apply Hf| |].
Qed.

Lemma cached_step_tracked x x' :
  cached_step x x' → (∃ mine w served, tracked mine w served x.1 x.2) →
  ∃ mine w served, tracked mine w served x'.1 x'.2.
Proof.
  intros Hs (mine & w & served & Htr). destruct Hs as [s s' id c todo made i Hs|s s' c todo made Hs|s made
    |s s' q q' i id b Hq Hs|s s' q i id c b Ht Hs|s s' r ev Ho Hs Hm]; cbn [fst snd] in *.
  - eexists _, _, _. by eapply tracked_make.
  - eexists _, _, _. by eapply tracked_now.
  - eexists _, _, _. by eapply tracked_run.
  - eexists _, _, _. by eapply tracked_next.
  - destruct (tracked_served _ _ _ _ _ _ _ _ _ _ Htr Ht Hs) as [w' ?]. by eexists _, _, _.
  - destruct (tracked_other _ _ _ _ _ _ _ Htr Ho Hs Hm) as (w' & served' & ?). by eexists _, _, _.
Qed.

Lemma cached_steps_tracked x x' :
  rtc cached_step x x' → (∃ mine w served, tracked mine w served x.1 x.2) →
  ∃ mine w served, tracked mine w served x'.1 x'.2.
Proof. induction 1 as [|x y z Hs _ IH]; [done|]. intros Ht. by eapply IH, cached_step_tracked. Qed.

Lemma tracked_start s :
  sharded_inv s → agree (m_heap (sh_mem s.1)) h0 → (∀ t c, call_at s t = Some c → foreign c) →
  tracked [] [] [] s (Making calls0 []).
Proof.
  clear Hfits Hclient Horder. intros Hi Ha Hf. split; cbn; try done; try (by apply NoDup_nil_2); try (by intros; set_solver).
  - by rewrite app_nil_r.
Qed.

(** When the callback has run all calls have been served. *)
Lemma tracked_end mine w served s q :
  tracked mine w served s (Going q) → rd_cb q ≠ [] →
  rd_cb q = [n] ∧ ∃ h, serve_all obj_data h0 served = Some h ∧ agree (m_heap (sh_mem s.1)) h ∧ served ≡ₚ calls0.
Proof.
  clear Hfits Hclient Horder. intros Htr Hcb. destruct (tr_going _ _ _ _ _ Htr) as (_ & _ & Hc).
  destruct (rd_unrun q ++ rd_open q) eqn:E; [|congruence]. apply app_nil in E as [Eu Eo].
  assert (w = []) as ->.
  { destruct w as [|[t c] w]; [done|].
    destruct (tr_waiting _ _ _ _ _ Htr t c) as [Ht _]; [by left|].
    destruct (tr_placed _ _ _ _ _ Htr t Ht) as (_ & p & _ & Hp). cbn [placed unrun_of open_of] in Hp.
    destruct p; cbn [placed unrun_of open_of] in Hp; rewrite ?Eu, ?Eo in Hp; set_solver. }
  split; [done|]. destruct (tr_heap _ _ _ _ _ Htr) as (h & Hh & Ha). exists h. split_and!; [done|done|].
  symmetry. apply (tr_calls _ _ _ _ _ Htr).
Qed.

(** ** Completion *)

Definition sum_nat (l : list nat) : nat := foldr Nat.add 0%nat l.
Definition total_work s : nat := sum_nat ((λ sc, total (sc_reqs sc)) <$> shards s.1).

Lemma sum_nat_insert l i x y :
  l !! i = Some x → (sum_nat (<[i := y]> l) + x = sum_nat l + y)%nat.
Proof.
  revert i. induction l as [|z l IH]; intros [|i] Hi; simplify_eq/=; [lia|]. specialize (IH i Hi). lia.
Qed.

Lemma total_work_insert s i sc sc' m' calls' :
  shards s.1 !! i = Some sc → (total (sc_reqs sc') < total (sc_reqs sc))%nat →
  (total_work (mk_sharded (<[i := sc']> (shards s.1)) m', calls') < total_work s)%nat.
Proof.
  intros Hsc Hlt. unfold total_work. cbn [fst shards]. rewrite list_fmap_insert.
  pose proof (sum_nat_insert ((λ sc, total (sc_reqs sc)) <$> shards s.1) i (total (sc_reqs sc)) (total (sc_reqs sc'))) as Hs.
  rewrite list_lookup_fmap, Hsc in Hs. specialize (Hs eq_refl). lia.
Qed.

Lemma phase_at_shard s t p : phase_at s t = Some p → ∃ sc, shards s.1 !! t.1 = Some sc ∧ phase_of sc t.2 = p.
Proof. unfold phase_at. intros (sc & Hsc & ->)%fmap_Some. by exists sc. Qed.

Lemma call_at_calls s t : is_Some (call_at s t) → ∃ calls, s.2 !! t.1 = Some calls.
Proof. unfold call_at. intros [c (calls & Hc & _)%bind_Some]. by exists calls. Qed.

Lemma phase_fresh sc id :
  phase_of sc id = Fresh ∨ phase_of sc id = Ready → ∃ x, sc_reqs sc !! id = Some x ∧ fresh_req x.
Proof.
  unfold phase_of. destruct (sc_reqs sc !! id) as [r|]; [|by intros [|]].
  intros Hp. exists r. split; [done|].
  destruct r as [? ? ? [] []|? ? ? []|? ? ? ? ? []|]; cbn in *; try done; by destruct Hp.
Qed.

(** A request whose callback has not run has a next step. *)
Lemma going_proceeds mine w served s q :
  tracked mine w served s (Going q) → rd_cb q = [] →
  ∃ s' q', cached_step (s, Going q) (s', Going q') ∧ (total_work s' < total_work s)%nat.
Proof.
  intros Htr Hcb. pose proof (tr_inv _ _ _ _ _ Htr) as Hi. destruct (tr_going _ _ _ _ _ Htr) as (_ & _ & Hc).
  assert (∃ t, t ∈ rd_unrun q ++ rd_open q ∧ (rd_unrun q = [] ∨ ∃ rest, rd_unrun q = t :: rest)) as (t & Ht & Hor).
  { destruct (rd_unrun q) as [|t rest]; cbn [app] in *.
    - destruct (rd_open q) as [|t rest]; [congruence|]. exists t. split; [by left|by left].
    - exists t. split; [by left|right; by exists rest]. }
  pose proof (tr_mine _ _ _ _ _ Htr t Ht) as Hm. destruct (tr_placed _ _ _ _ _ Htr t Hm) as (Hcall & p & Hp & Hpl).
  apply phase_at_shard in Hp as (sc & Hsc & Hp). apply call_at_calls in Hcall as [calls Hcalls].
  pose proof (si_coherent _ s Hi _ _ _ Hsc Hcalls) as Hco. destruct t as [i id]. cbn [fst snd] in *.
  destruct Hor as [Eu|[rest Eu]].
  - assert (sc_reqs sc ≠ ∅) as Hne.
    { intros E. unfold phase_of in Hp. rewrite E, lookup_empty in Hp. cbn in Hp. subst p.
      destruct Hpl as (? & ? & _). cbn [unrun_of open_of] in *. set_solver. }
    destruct (progress obj_data (sc, sh_mem s.1, calls) Hco Hne) as (ev & [[sc' m'] calls'] & Hst & Hint & Hlt).
    cbn [fst snd] in *. set (s' := (mk_sharded (<[i := sc']> (shards s.1)) m', <[i := calls']> s.2)).
    assert (shard_step s (Some i, ev) s') as Hss by (eapply ss_shard; [exact Hsc|exact Hcalls|by intros ->|exact Hst]).
    assert (total_work s' < total_work s)%nat as Hw by by eapply total_work_insert.
    destruct ev as [|k c|c|k b|k c b|]; try done.
    + exists s', q. split; [|done]. by apply (cs_other s s' (Going q) (Some i, Quiet)).
    + exists s', q. split; [|done]. apply (cs_other s s' (Going q) (Some i, Ran k b)); [|done|done].
      cbn. rewrite Eu. set_solver.
    + destruct (decide ((i, k) ∈ rd_open q)) as [Hin|Hn].
      * eexists s', _. split; [by eapply cs_served|done].
      * exists s', q. split; [|done]. by apply (cs_other s s' (Going q) (Some i, Served k c b)).
  - destruct (phase_fresh sc id) as (r & Hr & Hf).
    { rewrite Hp. destruct p; auto; cbn [placed unrun_of open_of] in Hpl; rewrite ?Eu in Hpl.
      - pose proof (tr_nodup _ _ _ _ _ Htr) as Hnd. cbn [unrun_of open_of] in Hnd. rewrite Eu in Hnd.
        apply NoDup_cons in Hnd as [Hnd _]. set_solver.
      - set_solver. }
    destruct (run_ok obj_data sc (sh_mem s.1) calls id r Hco Hr Hf) as (sc' & b & Hrun & _).
    eexists _, _. split; [|eapply (total_work_insert s i sc sc'); [done|by eapply run_work]].
    eapply cs_next; [unfold read_run_next; by rewrite Eu|].
    eapply ss_shard; [done|done|done|]. by eapply step_run.
Qed.

Lemma going_finishes mine w served s q :
  tracked mine w served s (Going q) → ∃ s' q', rtc cached_step (s, Going q) (s', Going q') ∧ rd_cb q' ≠ [].
Proof.
  remember (total_work s) as k eqn:Hk. revert mine w served s q Hk.
  induction (lt_wf k) as [k _ IH]. intros mine w served s q -> Htr.
  destruct (decide (rd_cb q = [])) as [Hcb|Hcb]; [|exists s, q; split; [apply rtc_refl|done]].
  destruct (going_proceeds _ _ _ _ _ Htr Hcb) as (s1 & q1 & Hs & Hlt).
  destruct (cached_step_tracked _ _ Hs) as (mine1 & w1 & served1 & Htr1); [by eexists _, _, _|].
  destruct (IH _ Hlt _ _ _ s1 q1 eq_refl Htr1) as (s2 & q2 & Hs2 & Hc).
  exists s2, q2. split; [|done]. by eapply rtc_l.
Qed.

(** ** The calls of [handle_reads] *)

Lemma serve_all_dom h cs h' a : serve_all obj_data h cs = Some h' → is_Some (h' !! a) ↔ is_Some (h !! a).
Proof.
  revert h. induction cs as [|c cs IH]; intros h Hs; simpl in Hs; [by simplify_eq|].
  apply bind_Some in Hs as (h1 & Hc & Hs). rewrite (IH _ Hs). unfold serve in Hc.
  apply bind_Some in Hc as (bs & _ & Hw). by eapply write_cells_dom.
Qed.

Lemma cached_step_length x x' : cached_step x x' → length (shards x'.1.1) = length (shards x.1.1).
Proof.
  destruct 1; cbn [fst]; try done; by eapply shard_step_length.
Qed.

Lemma cached_steps_length x x' : rtc cached_step x x' → length (shards x'.1.1) = length (shards x.1.1).
Proof. induction 1 as [|x y z Hs _ IH]; [done|]. rewrite IH. by apply cached_step_length. Qed.

(** The next call can be made, unless its block is not in its shard, where all
    chunks are in use. *)
Lemma making_proceeds mine w served s c todo made :
  tracked mine w served s (Making (c :: todo) made) → length (shards s.1) = Z.to_nat num_shards →
  allocated h0 (SmartIov.cells iovs) →
  (∃ x, cached_step (s, Making (c :: todo) made) x ∧ todo_of x.2 = todo) ∨
  ∃ sc, shards s.1 !! get_shard hash (key_of c) = Some sc ∧
    sc_map sc !! key_of c = None ∧ Forall (λ e, status e ≠ EMPTY ∧ refcount e ≠ 0) (sc_entries sc).
Proof.
  intros Htr Hlen Hal. pose proof (tr_inv _ _ _ _ _ Htr) as Hi. set (i := get_shard hash (key_of c)).
  assert (is_Some (shards s.1 !! i)) as [sc Hsc].
  { apply lookup_lt_is_Some_2. rewrite Hlen. unfold i, get_shard, num_shards.
    pose proof (Z.mod_pos_bound (hash (key_of c)) 16). lia. }
  assert (is_Some (s.2 !! i)) as [calls Hcalls].
  { apply lookup_lt_is_Some_2. rewrite <- (si_len _ s Hi). by eapply lookup_lt_Some. }
  pose proof (si_coherent _ s Hi _ _ _ Hsc Hcalls) as Hco.
  assert (client_call (m_heap (sh_mem s.1)) c) as Hc.
  { rewrite Forall_forall in Hfits. destruct (Hfits c) as (Hok & Hnd & _ & Hsub).
    { rewrite (tr_calls _ _ _ _ _ Htr). by left. }
    split_and!; [done|done| |auto]. intros a Ha. destruct (tr_heap _ _ _ _ _ Htr) as (h & Hh & Hag).
    rewrite Hag by auto. apply (serve_all_dom _ _ _ _ Hh). by apply Hal, Hsub. }
  destruct (decide (sc_map sc !! key_of c = None ∧ ¬ Exists evictable (sc_entries sc))) as [[Hk Hno]|Hyes].
  - right. exists sc. split_and!; [done|done|]. apply Forall_Exists_neg in Hno.
    eapply Forall_impl; [exact Hno|]. intros e He. unfold evictable in He. tauto.
  - left. destruct (make_read_req_ok obj_data (2 * size_in_chunks sc) sc (sh_mem s.1) calls c) as (sc' & m' & o & Hr & _);
      [done|done| |done|].
    { intros Hk. destruct (decide (Exists evictable (sc_entries sc))); tauto. }
    destruct o as [id|].
    + eexists (_, _). split; [apply cs_make with (id := id); eapply ss_shard; [exact Hsc|exact Hcalls|done|by eapply step_read]|done].
    + eexists (_, _). split; [apply cs_now; eapply ss_shard; [exact Hsc|exact Hcalls|done|by eapply step_read_now]|done].
Qed.
End cached.

(** ** Reads of an image *)

Section image.
Context {S : Type} {HS : Rados S} {HSok : RadosOk S}.
Context {RC : Type}.
Variable insert_object : RC → string → Z → bytes → RC.
Variable crc32 : bytes → Z.
Variable cfg : lsvd_config.
Variables (name : string) (uuid : bytes) (vol_bytes : Z).
Variable hash : chunk_key → Z.
Notation state := (@xstate objmap bufmap S RC).
Implicit Types (st : state) (D : disk).

(** C4: a read of the image through the read cache, while the translation layer and
    the collector's thread go on.  Let the read be made in a state that they reach,
    and let the shards read the objects of a later state [st'], in which the objects
    of the request are there ([objects_there]: they had arrived when the request was
    made, and the collector has not deleted them since; nothing in the code ensures
    this; without collection it always holds, [objects_there_without_gc]).  Whatever the layer
    and the collector do in between, and whatever the requests of other readers, the
    evictions and the insertions that the shards run between its steps, the callback
    of the read runs at most once, with the length of the request, and then the
    vector holds the disk as it was when the request was made.  A request that has
    made its sub-requests can always go on to its callback; before that it can go on
    unless the block it asks for is not in a shard whose chunks are all in use. *)
Theorem cached_read_completes st D g iovs off n full :
  cfg_ok cfg → uuid_ok uuid → 0 ≤ vol_bytes < 2 ^ 64 →
  collected insert_object crc32 cfg name uuid vol_bytes st D g →
  client_iov (p_heap (x_pipe st)) iovs n → length full = SmartIov.bytes_of iovs →
  (∀ x, off / 512 ≤ x < off / 512 + n →
     D x = Some (slice (Z.to_nat (512 * (x - off / 512))) 512 full)) →
  ∃ h0 calls, image_read name st iovs off = Some (h0, calls) ∧
    ∀ st' D' g', rtc (cstep insert_object crc32 cfg name uuid vol_bytes) (st, D, g) (st', D', g') →
    objects_there name st st' off n →
    let load := rados_obj (x_store st') in
    ∀ cache_bytes s0 s r, sharded_reachable load cache_bytes s0 → agree iovs (m_heap (sh_mem s0.1)) h0 →
      (∀ t c, call_at s0 t = Some c → foreign load iovs c) →
      rtc (cached_step load hash iovs (512 * n)) (s0, Making calls []) (s, r) →
      (cb_of r = [] ∨ cb_of r = [512 * n] ∧ SmartIov.contents (m_heap (sh_mem s.1)) iovs = Some full) ∧
      match r with
      | Making [] _ => ∃ q, cached_step load hash iovs (512 * n) (s, r) (s, Going q)
      | Making (c :: todo) _ =>
        (∃ x, cached_step load hash iovs (512 * n) (s, r) x ∧ todo_of x.2 = todo) ∨
        ∃ sc, shards s.1 !! get_shard hash (key_of c) = Some sc ∧
          sc_map sc !! key_of c = None ∧ Forall (λ e, status e ≠ EMPTY ∧ refcount e ≠ 0) (sc_entries sc)
      | Going _ => ∃ s' q, rtc (cached_step load hash iovs (512 * n)) (s, r) (s', Going q) ∧ rd_cb q = [512 * n]
      end.
Proof.
  intros Hcfg Hu Hv Hr Hc Hl HD.
  assert (∃ h0 calls, image_read name st iovs off = Some (h0, calls)) as (h0 & calls & Hread).
  { destruct (collected_system insert_object crc32 cfg name uuid vol_bytes Hcfg Hu Hv st D g Hr) as [Hli _].
    destruct (handle_reads_fits _ _ _ _ _ 256 _ off n full
                (image_read_ok cfg name (landed st) D iovs off n full (li_inv _ _ _ _ _ Hli) (li_lim _ _ _ _ _ Hli) Hc Hl HD))
      as (h0 & calls & Hread & _). by exists h0, calls. }
  assert (∀ st' D' g', rtc (cstep insert_object crc32 cfg name uuid vol_bytes) (st, D, g) (st', D', g') →
            objects_there name st st' off n →
            ∃ h0 calls, image_read name st iovs off = Some (h0, calls) ∧
              Forall (call_fits iovs (rados_obj (x_store st'))) calls ∧
              ∀ order, order ≡ₚ calls → ∃ h, serve_all (rados_obj (x_store st')) h0 order = Some h ∧
                SmartIov.contents h iovs = Some full ∧ ∀ c, c ∉ SmartIov.cells iovs → h !! c = p_heap (x_pipe st) !! c)
    as Hreads.
  { intros st' D' g' Hsteps Hthere. apply (handle_reads_fits _ _ _ _ _ 256 _ off n full).
    by apply (image_read_later insert_object crc32 cfg name uuid vol_bytes Hcfg Hu Hv st D g st' D' g'). }
  exists h0, calls. split; [exact Hread|]. intros st' D' g' Hlater Hthere load cache_bytes s0 s r Hs0 Hag Hfor Hsteps.
  destruct (Hreads st' D' g' Hlater Hthere) as (h0' & calls' & Hread' & Hfits & Hserve).
  rewrite Hread in Hread'. injection Hread' as <- <-. fold load in Hfits, Hserve. clear Hreads.
  assert (∀ order, order ≡ₚ calls → is_Some (serve_all load h0 order)) as Horder.
  { intros order Ho. destruct (Hserve order Ho) as (h & Hh & _). by exists h. }
  assert (∀ a, a ∈ SmartIov.cells iovs → a.1 ≤ 0) as Hcl by apply Hc.
  assert (allocated h0 (SmartIov.cells iovs)) as Hal.
  { destruct (Hserve calls) as (h & Hh & Hcont & _); [done|]. intros a Ha.
    apply (serve_all_dom load _ _ _ a Hh). revert a Ha. apply read_cells_allocated. by exists full. }
  assert (length (shards s.1) = Z.to_nat num_shards) as Hlen.
  { pose proof (cached_steps_length load hash iovs (512 * n) _ _ Hsteps) as E. cbn [fst] in E.
    rewrite E. by eapply sharded_reachable_length. }
  destruct (cached_steps_tracked load hash iovs (512 * n) h0 calls Hfits Hcl Horder _ _ Hsteps)
    as (mine & w & served & Htr).
  { exists [], [], []. apply tracked_start; [by eapply sharded_reachable_inv|done|done]. }
  cbn [fst snd] in Htr. split.
  - destruct r as [todo made|q]; [by left|]. cbn [cb_of]. destruct (decide (rd_cb q = [])) as [|Hne]; [by left|right].
    destruct (tracked_end load iovs (512 * n) h0 calls mine w served s q Htr Hne) as (Hcb & h & Hh & Ha & Hp).
    split; [done|]. destruct (Hserve served Hp) as (h' & Hh' & Hcont & _). rewrite Hh in Hh'. injection Hh' as <-.
    rewrite <- Hcont. apply read_cells_ext. exact Ha.
  - destruct r as [[|c todo] made|q].
    + eexists. apply cs_run.
    + by eapply making_proceeds.
    + destruct (going_finishes load hash iovs (512 * n) h0 calls Hfits Hcl Horder _ _ _ _ _ Htr) as (s' & q' & Hs' & Hne).
      exists s', q'. split; [done|].
      destruct (cached_steps_tracked load hash iovs (512 * n) h0 calls Hfits Hcl Horder _ _ Hs') as (m1 & w1 & sv1 & Htr1);
        [by exists mine, w, served|].
      by destruct (tracked_end load iovs (512 * n) h0 calls m1 w1 sv1 s' q' Htr1 Hne).
Qed.
End image.

(** New shards of one chunk each *)
Definition demo_shards (h : heap) : sharded_state :=
  (mk_sharded (replicate (Z.to_nat num_shards) (new_cache 1)) (mk_memory h 1000), replicate (Z.to_nat num_shards) ∅).

Definition demo_cache_bytes : Z := num_shards * CACHE_CHUNK_SIZE.

Lemma demo_shards_reachable load h : sharded_reachable load demo_cache_bytes (demo_shards h).
Proof. eexists _, (mk_memory h 1000). split; [cbn; lia|]. split; [reflexivity|]. apply rtc_refl. Qed.

Lemma demo_shards_calls h t : call_at (demo_shards h) t = None.
Proof.
  unfold call_at, demo_shards. cbn [snd]. destruct (replicate _ ∅ !! t.1) as [calls|] eqn:E; [|done].
  apply lookup_replicate in E as [-> _]. apply lookup_empty.
Qed.

Lemma demo_there : objects_there "vol" demo_state demo_state 0 8.
Proof.
  intros x q Hx _ Hq. change (0 / 512) with 0 in Hx. change (om_map (x_om demo_state)) with demo_map in Hq. rewrite (demo_at x) in Hq by lia. injection Hq as <-. cbn [obj].
  change (sent (x_pipe demo_state)) with (@nil translate_req). split; [apply not_elem_of_nil|].
  change (x_store demo_state) with demo_store. unfold demo_store. cbn [rados_obj gmap_rados].
  rewrite lookup_singleton_eq. by eexists.
Qed.

Lemma cached_read_completes_witness :
  ∃ h0 calls, image_read "vol" demo_state demo_iov 0 = Some (h0, calls) ∧
    ∀ s r, rtc (cached_step (rados_obj demo_store) (λ _, 0) demo_iov 4096) (demo_shards h0, Making calls []) (s, r) →
      cb_of r ≠ [] → SmartIov.contents (m_heap (sh_mem s.1)) demo_iov = Some (replicate 4096 5).
Proof.
  destruct (cached_read_completes demo_insert demo_crc32 get_default "vol" demo_uuid (2 ^ 30) (λ _, 0) demo_state
              (read_sector "vol" demo_state) GcIdle demo_iov 0 8 (replicate 4096 5)) as (h0 & calls & Hr & Hs).
  - exact demo_cfg_ok.
  - exact (proj1 demo_params).
  - exact (proj2 demo_params).
  - exact demo_collected.
  - exact demo_client.
  - apply length_replicate.
  - intros x Hx. change (0 / 512) with 0 in *. rewrite demo_sectors by lia. f_equal.
    unfold slice. rewrite drop_replicate, take_replicate. f_equal. lia.
  - exists h0, calls. split; [exact Hr|]. intros s r Hrt Hcb.
    destruct (Hs demo_state (read_sector "vol" demo_state) GcIdle (rtc_refl _ _) demo_there demo_cache_bytes (demo_shards h0) s r (demo_shards_reachable _ _)) as [[Hn|[_ Hc]] _].
    + intros a _. reflexivity.
    + intros t c Hc. rewrite demo_shards_calls in Hc. discriminate Hc.
    + exact Hrt.
    + destruct (Hcb Hn).
    + exact Hc.
Defined.
