(* ===== verification/ImageWrite.v ===== *)
(** * Requests of an image (src/src/image.cc)

    A write of the image is cut into chunks.  Each chunk is appended to the write
    log and handed to the translation layer, by two critical sections of
    different locks, so that writes of several threads interleave between them;
    then the records of the chunks are written to the log file, and when the last
    of them is done the room in the log is released and the callback runs.

    The state has the requests with the place where each stands; the functions
    below are the critical sections in the order in which [run] and [notify]
    execute them.  [None] means that the thread waits, that the request is not at
    that place, or a fault. *)

From S2P Require Import Prelude Bytes Extent ExtMapSpec Memory SmartIov LsvdTypes Backend Objects Config.
From S2P Require Import Translate Journal WriteCache.

(** ** Chunks *)

(** One chunk: [s_offset], [_sectors] and [cur_offset] *)
Definition chunk : Type := Z * Z * Z.

(** The loop of [write_request::run] *)
Fixpoint chunk_loop (fuel : nat) (s_offset size_sectors max_sectors cur_offset : Z) : list chunk :=
  match fuel with
  | O => []
  | S fuel =>
    if s_offset <? size_sectors then
      let _sectors := Z.min (size_sectors - s_offset) max_sectors in
      (s_offset, _sectors, cur_offset) ::
      chunk_loop fuel (s_offset + max_sectors) size_sectors max_sectors (cur_offset + _sectors * 512)
    else []
  end.

(** The chunks of a request; each but the last has [max_sectors]. *)
Definition chunks (cfg : lsvd_config) (req_offset req_bytes : Z) : list chunk :=
  chunk_loop (Z.to_nat (req_bytes / 512)) 0 (req_bytes / 512) (wlog_chunk_bytes cfg / 512) req_offset.

(** ** Requests *)

(** Where a [write_request] stands: made; with room in the log; in the loop, with
    the chunks to do, the chunk that is in the log and not yet in the translation
    layer; running its log requests. *)
Inductive write_stage :=
| WNew
| WReserved
| WMaking (todo : list chunk) (pending : option (Z * SmartIov.smartiov))
| WRunning (unrun : list Z).

(** [class write_request]: [requests] are the numbers of its log requests,
    [cb] the values its callback has been given. *)
Record write_request := mk_write {
  w_offset : Z;
  w_iovs : SmartIov.smartiov;
  w_stage : write_stage;
  w_n_req : Z;
  w_requests : list Z;
  w_cb : list Z;
}.

Definition req_bytes (w : write_request) : Z := Z.of_nat (SmartIov.bytes_of (w_iovs w)).

(** The nvme requests of a log request: [r_pad], if any, and [r_data] *)
Definition log_writes_of (req : wcache_write_req) : list nvme_write :=
  from_option (λ w, [w]) [] (wr_pad req) ++ [wr_data req].

(** A [wcache_write_req] with its parent: [l_reqs] is [reqs], [l_open] the writes
    to the log file that have been submitted and are not complete. *)
Record log_request := mk_log {
  l_req : wcache_write_req;
  l_parent : Z;
  l_reqs : Z;
  l_open : list nvme_write;
  l_notified : bool;
  l_closed : bool;
}.

Section image.
Context {M : Type} {HM : LbaMap M obj_offset}.
Context {MB : Type} {HB : LbaMap MB sector_ptr}.
Context {S : Type} {HS : Rados S}.
Context {RC : Type}.
Variable cfg : lsvd_config.
Notation xstate := (@xstate M MB S RC).

(** The image with the requests that have been made.  [im_stored] and [im_failed]
    are the writes to the log file that have succeeded and failed, in order. *)
Record image := mk_image {
  im_wlog : wcache;
  im_dev : bytes;
  im_xlate : xstate;
  im_writes : gmap Z write_request;
  im_log : gmap Z log_request;
  im_stored : list nvme_write;
  im_failed : list nvme_write;
}.

Definition with_wlog (im : image) (wl : wcache) : image :=
  mk_image wl (im_dev im) (im_xlate im) (im_writes im) (im_log im) (im_stored im) (im_failed im).
Definition with_xlate (im : image) (x : xstate) : image :=
  mk_image (im_wlog im) (im_dev im) x (im_writes im) (im_log im) (im_stored im) (im_failed im).
Definition with_write (im : image) (id : Z) (w : write_request) : image :=
  mk_image (im_wlog im) (im_dev im) (im_xlate im) (<[id := w]> (im_writes im)) (im_log im)
    (im_stored im) (im_failed im).
Definition with_log (im : image) (lid : Z) (l : log_request) : image :=
  mk_image (im_wlog im) (im_dev im) (im_xlate im) (im_writes im) (<[lid := l]> (im_log im))
    (im_stored im) (im_failed im).

Definition stage (w : write_request) (s : write_stage) : write_request :=
  mk_write (w_offset w) (w_iovs w) s (w_n_req w) (w_requests w) (w_cb w).

(** [lsvd_image::write] *)
Definition image_write (im : image) (id : Z) (offset : Z) (iovs : SmartIov.smartiov) : image :=
  with_write im id (mk_write offset iovs WNew 0 [] []).

(** [reserve_room] *)
Definition write_reserve (im : image) (id : Z) : option image :=
  w ← im_writes im !! id;
  match w_stage w with
  | WNew => wl ← reserve_room (im_wlog im) (req_bytes w / 512);
            Some (with_write (with_wlog im wl) id (stage w WReserved))
  | _ => None
  end.

(** [backend_backpressure], and the count of the chunks *)
Definition write_begin (im : image) (id : Z) : option image :=
  w ← im_writes im !! id;
  match w_stage w with
  | WReserved =>
    if backpressure cfg (x_pipe (im_xlate im)) then None
    else
      let max_sectors := wlog_chunk_bytes cfg / 512 in
      Some (with_write im id
              (mk_write (w_offset w) (w_iovs w) (WMaking (chunks cfg (w_offset w) (req_bytes w)) None)
                 (w_n_req w + div_round_up (req_bytes w / 512) max_sectors) (w_requests w) (w_cb w)))
  | _ => None
  end.

(** One chunk: [iovs.slice], and [writev] of the log as far as its lock goes;
    [lid] is the number of the new request. *)
Definition write_log (im : image) (id lid : Z) : option image :=
  w ← im_writes im !! id;
  match w_stage w with
  | WMaking ((s_offset, _sectors, cur_offset) :: todo) None =>
    let off := Z.to_nat (s_offset * 512) in
    iov ← SmartIov.iov_slice (w_iovs w) off (off + Z.to_nat (_sectors * 512));
    '(wl, req) ← log_write (im_wlog im) (p_heap (x_pipe (im_xlate im))) (cur_offset / 512) iov;
    let l := mk_log req id (Z.of_nat (length (log_writes_of req))) [] false false in
    Some (with_log (with_write (with_wlog im wl) id
            (mk_write (w_offset w) (w_iovs w) (WMaking todo (Some (cur_offset / 512, iov))) (w_n_req w)
               (w_requests w ++ [lid]) (w_cb w))) lid l)
  | _ => None
  end.

(** The rest of [writev]: the translation layer *)
Definition write_xlate (im : image) (id : Z) : option image :=
  w ← im_writes im !! id;
  match w_stage w with
  | WMaking todo (Some (lba, iov)) =>
    let x := im_xlate im in
    p ← writev cfg (x_pipe x) (lba * 512) iov;
    Some (with_write (with_xlate im (with_pipe x p)) id (stage w (WMaking todo None)))
  | _ => None
  end.

(** The end of the loop *)
Definition write_made (im : image) (id : Z) : option image :=
  w ← im_writes im !! id;
  match w_stage w with
  | WMaking [] None => Some (with_write im id (stage w (WRunning (w_requests w))))
  | _ => None
  end.

(** The loop, when no other thread runs meanwhile; [lid] is the number of the next
    log request. *)
Fixpoint write_loop (fuel : nat) (im : image) (id lid : Z) : option image :=
  match fuel with
  | O => None
  | Datatypes.S fuel =>
    match write_made im id with
    | Some im => Some im
    | None =>
      im ← write_log im id lid;
      im ← write_xlate im id;
      write_loop fuel im id (lid + 1)
    end
  end.

(** [run] up to the log requests *)
Definition write_submit (im : image) (id lid : Z) : option image :=
  w ← im_writes im !! id;
  im ← write_reserve im id;
  im ← write_begin im id;
  write_loop (Datatypes.S (length (chunks cfg (w_offset w) (req_bytes w)))) im id lid.

(** One [r->run(this)]: [wcache_write_req::run] submits its writes. *)
Definition write_run (im : image) (id : Z) : option image :=
  w ← im_writes im !! id;
  match w_stage w with
  | WRunning (lid :: unrun) =>
    l ← im_log im !! lid;
    Some (with_log (with_write im id (stage w (WRunning unrun))) lid
            (mk_log (l_req l) (l_parent l) (l_reqs l) (log_writes_of (l_req l)) (l_notified l) (l_closed l)))
  | _ => None
  end.

(** The completion of a write to the log file with [n] bytes written:
    [nvme_uring_request::on_complete], which only logs a short write, or, when
    [n] is 0, [on_fail]; both notify the parent in the same way. *)
Definition nvme_done (im : image) (lid : Z) (i n : nat) : option image :=
  l ← im_log im !! lid;
  w ← l_open l !! i;
  let l := mk_log (l_req l) (l_parent l) (l_reqs l - 1) (delete i (l_open l)) (l_notified l) (l_closed l) in
  let dev := if (n =? 0)%nat then im_dev im
             else dev_write (im_dev im) (4096 * Z.to_nat w.1) (take n w.2) in
  let stored := (length w.2 <=? n)%nat in
  Some (mk_image (im_wlog im) dev (im_xlate im) (im_writes im) (<[lid := l]> (im_log im))
          (if stored then im_stored im ++ [w] else im_stored im)
          (if stored then im_failed im else im_failed im ++ [w])).

(** [write_request::notify] and [complete_request(0)] *)
Definition write_notify (im : image) (id : Z) : option image :=
  w ← im_writes im !! id;
  let old := w_n_req w in
  if 1 <? old then
    Some (with_write im id (mk_write (w_offset w) (w_iovs w) (w_stage w) (old - 1) (w_requests w) (w_cb w)))
  else
    let '(wl, _) := release_room (im_wlog im) (req_bytes w / 512) in
    Some (with_write (with_wlog im wl) id
            (mk_write (w_offset w) (w_iovs w) (w_stage w) (old - 1) (w_requests w) (w_cb w ++ [0]))).

(** [wcache_write_req::notify] of the last of its writes: the parent is notified; *)
Definition log_notify (im : image) (lid : Z) : option image :=
  l ← im_log im !! lid;
  _ ← assert ((l_reqs l =? 0) && negb (l_notified l));
  write_notify
    (with_log im lid (mk_log (l_req l) (l_parent l) (l_reqs l) (l_open l) true (l_closed l))) (l_parent l).

(** then, with the lock, the write is no more outstanding. *)
Definition log_close (im : image) (lid : Z) : option image :=
  l ← im_log im !! lid;
  _ ← assert (l_notified l && negb (l_closed l));
  Some (with_log (with_wlog im (log_done (im_wlog im))) lid
          (mk_log (l_req l) (l_parent l) (l_reqs l) (l_open l) (l_notified l) true)).

(** [trim_request::run], with the value its callback is given *)
Definition trim_run (im : image) (offset len : Z) : option (image * Z) :=
  x ← trim (im_xlate im) offset len;
  Some (with_xlate im x, 0).

(** [flush_request::run] up to the wait, which ends when the worker has processed
    the request. *)
Definition flush_run (im : image) : image :=
  with_xlate im (with_pipe (im_xlate im) (submit cfg REQ_FLUSH (x_pipe (im_xlate im)))).
End image.
Arguments image M MB S RC : clear implicits.
