(* ===== verification/ImageInv.v ===== *)
(** * The requests of an image, interleaved

    The chunks of a write cover it; the steps of all requests in any order, with
    the steps of the translation layer between them; the invariant that the
    counters of the image and of the write log are exact. *)

From stdpp Require Import relations.
From S2P Require Import Prelude Bytes Extent ExtMapSpec Memory SmartIov LsvdTypes Backend Objects Config.
From S2P Require Import Translate Accounting Pipeline Refine Journal WriteCache WriteRing WriteLog ImageWrite.

(** ** Chunks *)

(** [l] are consecutive chunks from sector [s] to sector [e] of a request at
    byte [off]. *)
Fixpoint tiles (off s e : Z) (l : list chunk) : Prop :=
  match l with
  | [] => s = e
  | (s_offset, n, cur_offset) :: l =>
    s_offset = s ∧ 0 < n ∧ s + n ≤ e ∧ cur_offset = off + 512 * s ∧ tiles off (s + n) e l
  end.

Lemma chunk_loop_tiles off fuel : ∀ s e max,
  0 < max → s ≤ e → e - s ≤ Z.of_nat fuel → tiles off s e (chunk_loop fuel s e max (off + 512 * s)).
Proof.
  induction fuel as [|fuel IH]; intros s e max Hmax Hs Hf; simpl; [lia|].
  destruct (s <? e) eqn:E; zb; [|simpl; lia]. simpl. split_and!; try lia.
  destruct (decide (e - s ≤ max)) as [Hle|Hgt].
  - rewrite Z.min_l by lia. replace (s + (e - s)) with e by lia.
    destruct fuel; simpl; [done|]. by rewrite (proj2 (Z.ltb_ge (s + max) e)) by lia.
  - rewrite Z.min_r by lia. replace (off + 512 * s + max * 512) with (off + 512 * (s + max)) by lia.
    apply IH; lia.
Qed.

Lemma chunk_loop_max fuel : ∀ s e max c,
  0 < max → Forall (λ x, x.1.2 ≤ max) (chunk_loop fuel s e max c).
Proof.
  induction fuel as [|fuel IH]; intros s e max c Hmax; simpl; [constructor|].
  destruct (s <? e); constructor; [simpl; lia|]. by apply IH.
Qed.

(** The count of the chunks that [run] computes in advance *)
Lemma chunk_loop_length fuel : ∀ s e max c,
  0 < max → e - s ≤ Z.of_nat fuel → s ≤ e →
  max * (Z.of_nat (length (chunk_loop fuel s e max c)) - 1) < e - s ≤
    max * Z.of_nat (length (chunk_loop fuel s e max c)) ∨
  (s = e ∧ chunk_loop fuel s e max c = []).
Proof.
  induction fuel as [|fuel IH]; intros s e max c Hmax Hf Hs; simpl; [right; split; [lia|done]|].
  destruct (s <? e) eqn:E; zb; [|right; split; [lia|done]]. left. cbn [length].
  destruct (decide (e - s ≤ max)) as [Hle|Hgt].
  - destruct fuel; simpl; [lia|]. rewrite (proj2 (Z.ltb_ge (s + max) e)) by lia. simpl. lia.
  - destruct (IH (s + max) e max (c + Z.min (e - s) max * 512)) as [H|[? _]]; [done|lia|lia| |lia].
    lia.
Qed.

Lemma chunks_tiles cfg off n :
  0 < wlog_chunk_bytes cfg / 512 → 0 ≤ n / 512 → tiles off 0 (n / 512) (chunks cfg off n).
Proof.
  intros Hm Hn. unfold chunks. replace off with (off + 512 * 0) at 2 by lia.
  apply chunk_loop_tiles; lia.
Qed.

Lemma chunks_count cfg off n :
  0 < wlog_chunk_bytes cfg / 512 < 2 ^ 31 → 0 ≤ n / 512 → n / 512 + wlog_chunk_bytes cfg / 512 < 2 ^ 31 →
  div_round_up (n / 512) (wlog_chunk_bytes cfg / 512) = Z.of_nat (length (chunks cfg off n)).
Proof.
  intros Hm Hn Hs. set (mx := wlog_chunk_bytes cfg / 512) in *.
  destruct (div_round_up_spec (n / 512) mx) as [Hd Hd0]; [lia..|].
  destruct (chunk_loop_length (Z.to_nat (n / 512)) 0 (n / 512) mx off) as [Hl|[H0 Hl]]; [lia|lia|lia| |].
  - unfold chunks. fold mx. nia.
  - unfold chunks. fold mx. rewrite Hl, <- H0 in *. cbn [length]. nia.
Qed.

(** ** Steps *)

Section image.
Context {M : Type} {HM : LbaMap M obj_offset}.
Context {MB : Type} {HB : LbaMap MB sector_ptr}.
Context {S : Type} {HS : Rados S}.
Context {RC : Type}.
Variable cfg : lsvd_config.
Notation image := (image M MB S RC).
Implicit Types (im : image) (w : write_request) (l : log_request).

(** The next chunk of a write is one that the log takes: its memory is allocated,
    its address fits the extent in the header, and it is not longer than the ring. *)
Definition log_takes im (id : Z) : Prop :=
  ∃ w s_off k cur todo iov, im_writes im !! id = Some w ∧ w_stage w = WMaking ((s_off, k, cur) :: todo) None ∧
    SmartIov.iov_slice (w_iovs w) (Z.to_nat (s_off * 512)) (Z.to_nat (s_off * 512) + Z.to_nat (k * 512)) = Some iov ∧
    WriteLog.write_ok (p_heap (x_pipe (im_xlate im))) (cur / 512, iov) ∧ pages_of iov ≤ ring_size (im_wlog im).

(** A step of a request.  Requests and log requests have numbers that have not
    been used; the sizes are such that the count of the chunks does not
    overflow. *)
Inductive request_step : image → image → Prop :=
| rs_write im id off iovs :
    im_writes im !! id = None →
    Z.of_nat (SmartIov.bytes_of iovs) / 512 + wlog_chunk_bytes cfg / 512 < 2 ^ 31 →
    request_step im (image_write im id off iovs)
| rs_reserve im id im' : write_reserve im id = Some im' → request_step im im'
| rs_begin im id im' : write_begin cfg im id = Some im' → request_step im im'
| rs_log im id lid im' :
    im_log im !! lid = None → log_takes im id → write_log im id lid = Some im' → request_step im im'
| rs_made im id im' : write_made im id = Some im' → request_step im im'
| rs_run im id im' : write_run im id = Some im' → request_step im im'
| rs_nvme im lid i n im' : nvme_done im lid i n = Some im' → request_step im im'
| rs_notify im lid im' : log_notify im lid = Some im' → request_step im im'
| rs_close im lid im' : log_close im lid = Some im' → request_step im im'.

(** An image without requests *)
Definition idle im : Prop :=
  im_writes im = ∅ ∧ im_log im = ∅ ∧ im_stored im = [] ∧ im_failed im = [] ∧
  wc_total_write_pages (im_wlog im) = 0 ∧ wc_outstanding_writes (im_wlog im) = 0 ∧
  0 ≤ wc_max_write_pages (im_wlog im) ∧ log_ok (im_wlog im).

(** ** The invariant *)

(** The pages of the log that a write has reserved *)
Definition room_of w : Z :=
  match w_stage w, w_cb w with
  | WNew, _ => 0
  | _, [] => (req_bytes w / 512) ÷ 8
  | _, _ => 0
  end.

Definition count_open l : Z := if l_closed l then 0 else 1.
Definition count_unnotified l : Z := if l_notified l then 0 else 1.
Definition unnotified (log : gmap Z log_request) (lids : list Z) : Z :=
  sum_list_Z ((λ lid, from_option count_unnotified 0 (log !! lid)) <$> lids).

Definition fresh_log l : Prop :=
  l_open l = [] ∧ l_reqs l = Z.of_nat (length (log_writes_of (l_req l))) ∧
  l_notified l = false ∧ l_closed l = false.

(** A log request that has been run: every write is in flight or has completed. *)
Definition ran_log (stored failed : list nvme_write) l : Prop :=
  l_reqs l = Z.of_nat (length (l_open l)) ∧
  (∀ x, x ∈ log_writes_of (l_req l) → x ∈ l_open l ∨ x ∈ stored ∨ x ∈ failed) ∧
  (l_notified l = true → l_open l = []) ∧ (l_closed l = true → l_notified l = true).

(** The log request [lid] is what [writev] made of the chunk [c] of [w]. *)
Definition chunk_logged (log : gmap Z log_request) (id : Z) w (c : chunk) (lid : Z) : Prop :=
  ∃ l wl wl' h iov, log !! lid = Some l ∧ l_parent l = id ∧
    SmartIov.iov_slice (w_iovs w) (Z.to_nat (c.1.1 * 512))
      (Z.to_nat (c.1.1 * 512) + Z.to_nat (c.1.2 * 512)) = Some iov ∧
    log_write wl h (c.2 / 512) iov = Some (wl', l_req l) ∧
    log_ok wl ∧ WriteLog.write_ok h (c.2 / 512, iov) ∧ pages_of iov ≤ ring_size wl.

Definition stage_ok (stored failed : list nvme_write) (log : gmap Z log_request) (id : Z) w : Prop :=
  match w_stage w with
  | WNew | WReserved => w_requests w = [] ∧ w_n_req w = 0 ∧ w_cb w = []
  | WMaking todo _ =>
    w_cb w = [] ∧ w_n_req w = Z.of_nat (length todo + length (w_requests w)) ∧
    (∀ lid l, lid ∈ w_requests w → log !! lid = Some l → fresh_log l) ∧
    ∃ made, chunks cfg (w_offset w) (req_bytes w) = made ++ todo ∧
      Forall2 (chunk_logged log id w) made (w_requests w)
  | WRunning unrun =>
    w_n_req w = unnotified log (w_requests w) ∧
    (w_cb w = [] ∧ (w_requests w = [] ∨ 0 < w_n_req w) ∨
     w_cb w = [0] ∧ w_requests w ≠ [] ∧ w_n_req w = 0) ∧
    Forall2 (chunk_logged log id w) (chunks cfg (w_offset w) (req_bytes w)) (w_requests w) ∧
    ∃ ran, w_requests w = ran ++ unrun ∧
      (∀ lid l, lid ∈ ran → log !! lid = Some l → ran_log stored failed l) ∧
      (∀ lid l, lid ∈ unrun → log !! lid = Some l → fresh_log l)
  end.

Definition write_wf (stored failed : list nvme_write) (log : gmap Z log_request) (id : Z) w : Prop :=
  req_bytes w / 512 + wlog_chunk_bytes cfg / 512 < 2 ^ 31 ∧ NoDup (w_requests w) ∧
  (∀ lid, lid ∈ w_requests w → ∃ l, log !! lid = Some l ∧ l_parent l = id) ∧
  stage_ok stored failed log id w.

Record image_inv im : Prop := mk_image_inv {
  ii_total : wc_total_write_pages (im_wlog im) = msum room_of (im_writes im);
  ii_max : wc_total_write_pages (im_wlog im) ≤ wc_max_write_pages (im_wlog im);
  ii_outstanding : wc_outstanding_writes (im_wlog im) = msum count_open (im_log im);
  ii_writes : ∀ id w, im_writes im !! id = Some w →
    write_wf (im_stored im) (im_failed im) (im_log im) id w;
  ii_log : ∀ lid l, im_log im !! lid = Some l →
    ∃ w, im_writes im !! l_parent l = Some w ∧ lid ∈ w_requests w;
  ii_log_ok : log_ok (im_wlog im);
}.

(** ** Frame *)

Lemma unnotified_ext log log' lids :
  (∀ lid, lid ∈ lids → log' !! lid = log !! lid) → unnotified log' lids = unnotified log lids.
Proof.
  intros H. unfold unnotified. f_equal. apply list_fmap_ext. intros i lid Hi.
  by rewrite H by (by eapply list_elem_of_lookup_2).
Qed.

Lemma unnotified_app log k1 k2 : unnotified log (k1 ++ k2) = unnotified log k1 + unnotified log k2.
Proof. unfold unnotified. by rewrite fmap_app, sum_list_Z_app. Qed.

Lemma unnotified_cons log lid lids :
  unnotified log (lid :: lids) = from_option count_unnotified 0 (log !! lid) + unnotified log lids.
Proof. done. Qed.

Lemma unnotified_update log lids lid l l' :
  NoDup lids → lid ∈ lids → log !! lid = Some l →
  unnotified (<[lid := l']> log) lids = unnotified log lids - count_unnotified l + count_unnotified l'.
Proof.
  intros Hnd (l1 & l2 & ->)%list_elem_of_split Hl.
  apply NoDup_app in Hnd as (_ & H1 & (H2 & _)%NoDup_cons).
  assert (lid ∉ l1) by (intros H; apply H1 in H; set_solver).
  rewrite !unnotified_app, !unnotified_cons, lookup_insert_eq, Hl. cbn [from_option].
  rewrite (unnotified_ext log (<[lid := l']> log) l1), (unnotified_ext log (<[lid := l']> log) l2);
    [lia|..]; intros k Hk; apply lookup_insert_ne; congruence.
Qed.

Lemma unnotified_nonneg log lids : 0 ≤ unnotified log lids.
Proof.
  induction lids as [|lid lids IH]; [unfold unnotified; simpl; lia|]. rewrite unnotified_cons.
  destruct (log !! lid) as [l|]; simpl; [|lia]. unfold count_unnotified. destruct (l_notified l); lia.
Qed.

Lemma ran_log_mono s f s' f' l : s ⊆ s' → f ⊆ f' → ran_log s f l → ran_log s' f' l.
Proof.
  intros Hs Hf (? & Hw & ?). split; [done|]. split; [|done]. intros x Hx.
  destruct (Hw x Hx) as [|[|]]; auto.
Qed.

Lemma logged_ext log log' id w w' cs lids :
  w_iovs w' = w_iovs w →
  (∀ lid l, lid ∈ lids → log !! lid = Some l →
     ∃ l', log' !! lid = Some l' ∧ l_parent l' = l_parent l ∧ l_req l' = l_req l) →
  Forall2 (chunk_logged log id w) cs lids → Forall2 (chunk_logged log' id w') cs lids.
Proof.
  intros Hiov Hl H. induction H as [|c lid cs lids Hc _ IH]; constructor.
  - destruct Hc as (l & wl & wl' & h & iov & Hl1 & Hp & Hs & Hw & Hok).
    destruct (Hl lid l) as (l' & Hl' & Hp' & Hr); [set_solver|done|].
    exists l', wl, wl', h, iov. rewrite Hiov, Hp', Hr. done.
  - apply IH. set_solver.
Qed.

Lemma write_wf_ext s f s' f' log log' id w :
  s ⊆ s' → f ⊆ f' → (∀ lid, lid ∈ w_requests w → log' !! lid = log !! lid) →
  write_wf s f log id w → write_wf s' f' log' id w.
Proof.
  intros Hs Hf Hl (Hsz & Hnd & Hp & Hst). split; [done|]. split; [done|].
  split; [intros lid Hin; rewrite Hl by done; auto|].
  assert (∀ cs lids, lids ⊆ w_requests w →
            Forall2 (chunk_logged log id w) cs lids → Forall2 (chunk_logged log' id w) cs lids) as Hcs.
  { intros cs lids Hin. apply logged_ext; [done|]. intros lid l Hl1 ?. exists l. by rewrite Hl by (by apply Hin). }
  unfold stage_ok in *. destruct (w_stage w) as [| |todo pending|unrun].
  - done.
  - done.
  - destruct Hst as (? & ? & Hfr & made & ? & HF). split_and!; [done|done| |].
    + intros lid l Hin. rewrite Hl by done. by apply Hfr.
    + exists made. split; [done|]. by apply Hcs.
  - destruct Hst as (Hn & ? & HF & ran & Hreq & Hr & Hu). split_and!.
    + by rewrite (unnotified_ext log log').
    + done.
    + by apply Hcs.
    + exists ran. split; [done|]. split; intros lid l Hin.
      * rewrite Hl by (rewrite Hreq; apply elem_of_app; by left). intros Hl'. apply (ran_log_mono s f); [done|done|]. by apply (Hr lid).
      * rewrite Hl by (rewrite Hreq; apply elem_of_app; by right). by apply Hu.
Qed.

(** A step that concerns the write [id] alone. *)
Lemma frame im im' id w w' :
  image_inv im → im_writes im !! id = Some w → im_writes im' = <[id := w']> (im_writes im) →
  im_stored im ⊆ im_stored im' → im_failed im ⊆ im_failed im' →
  (∀ lid l, im_log im !! lid = Some l → l_parent l ≠ id → im_log im' !! lid = Some l) →
  (∀ lid l, im_log im' !! lid = Some l →
     l_parent l = id ∧ lid ∈ w_requests w' ∨ im_log im !! lid = Some l ∧ l_parent l ≠ id) →
  write_wf (im_stored im') (im_failed im') (im_log im') id w' →
  wc_total_write_pages (im_wlog im') = wc_total_write_pages (im_wlog im) - room_of w + room_of w' →
  wc_total_write_pages (im_wlog im') ≤ wc_max_write_pages (im_wlog im') →
  wc_outstanding_writes (im_wlog im') = msum count_open (im_log im') →
  log_ok (im_wlog im') →
  image_inv im'.
Proof.
  intros [Ht Hmx Ho Hw Hl Hlok] Hid Hws Hs Hf Hold Hnew Hwf Ht' Hmx' Ho' Hlok'. split; [|done|done|..|done].
  - rewrite Hws, (msum_update room_of _ _ _ _ Hid). lia.
  - rewrite Hws. intros id' w1 Hw1. destruct (decide (id' = id)) as [->|Hne].
    + rewrite lookup_insert_eq in Hw1. by simplify_eq.
    + rewrite lookup_insert_ne in Hw1 by done. pose proof (Hw id' w1 Hw1) as Hwf1.
      eapply write_wf_ext; [done|done| |exact Hwf1]. intros lid Hin.
      destruct Hwf1 as (_ & _ & Hp & _). destruct (Hp lid Hin) as (l & Hll & Hpl).
      rewrite Hll. apply Hold; [done|congruence].
  - rewrite Hws. intros lid l Hll. destruct (Hnew lid l Hll) as [[-> Hin]|[Hll' Hne]].
    + exists w'. by rewrite lookup_insert_eq.
    + rewrite lookup_insert_ne by done. by apply Hl.
Qed.

(** The log requests do not change. *)
Lemma frame_write im im' id w w' :
  image_inv im → im_writes im !! id = Some w → im_writes im' = <[id := w']> (im_writes im) →
  im_stored im' = im_stored im → im_failed im' = im_failed im → im_log im' = im_log im →
  w_requests w' = w_requests w →
  (write_wf (im_stored im) (im_failed im) (im_log im) id w →
   write_wf (im_stored im) (im_failed im) (im_log im) id w') →
  wc_total_write_pages (im_wlog im') = wc_total_write_pages (im_wlog im) - room_of w + room_of w' →
  wc_total_write_pages (im_wlog im') ≤ wc_max_write_pages (im_wlog im') →
  wc_outstanding_writes (im_wlog im') = wc_outstanding_writes (im_wlog im) →
  (log_ok (im_wlog im) → log_ok (im_wlog im')) →
  image_inv im'.
Proof.
  intros Hi Hid Hws Es Ef El Hr Hwf Ht Hmx Ho Hlok. pose proof Hi as [_ _ Hout Hw Hl Hlok0].
  apply (frame im _ id w w'); rewrite ?Es, ?Ef, ?El; try done; [|by apply Hwf, Hw|congruence|by apply Hlok].
  intros lid l Hll. destruct (decide (l_parent l = id)) as [<-|Hne]; [left|by right].
  split; [done|]. destruct (Hl lid l Hll) as (w1 & Hw1 & Hin). rewrite Hr. congruence.
Qed.

(** A log request changes. *)
Lemma frame_log im im' lid l l' w w' :
  image_inv im → im_log im !! lid = Some l → im_log im' = <[lid := l']> (im_log im) →
  l_parent l' = l_parent l →
  im_writes im !! l_parent l = Some w → im_writes im' = <[l_parent l := w']> (im_writes im) →
  w_requests w' = w_requests w →
  im_stored im ⊆ im_stored im' → im_failed im ⊆ im_failed im' →
  write_wf (im_stored im') (im_failed im') (<[lid := l']> (im_log im)) (l_parent l) w' →
  wc_total_write_pages (im_wlog im') = wc_total_write_pages (im_wlog im) - room_of w + room_of w' →
  wc_total_write_pages (im_wlog im') ≤ wc_max_write_pages (im_wlog im') →
  wc_outstanding_writes (im_wlog im') =
    wc_outstanding_writes (im_wlog im) - count_open l + count_open l' →
  (log_ok (im_wlog im) → log_ok (im_wlog im')) →
  image_inv im'.
Proof.
  intros Hi Hl El Hp Hid Hws Hr Hs Hf Hwf Ht Hmx Ho Hlok. pose proof Hi as [_ _ Hout Hw Hlog Hlok0].
  apply (frame im _ (l_parent l) w w'); rewrite ?El; try done.
  - intros k l1 Hk Hne. rewrite lookup_insert_ne; [done|]. intros ->. congruence.
  - intros k l1. destruct (decide (k = lid)) as [->|Hne].
    + rewrite lookup_insert_eq. intros [= <-]. left. split; [done|].
      destruct (Hlog lid l Hl) as (w1 & Hw1 & Hin). rewrite Hr. congruence.
    + rewrite lookup_insert_ne by done. intros Hk.
      destruct (decide (l_parent l1 = l_parent l)) as [E|]; [left|by right].
      split; [done|]. destruct (Hlog k l1 Hk) as (w1 & Hw1 & Hin). rewrite Hr. congruence.
  - rewrite (msum_update count_open _ _ _ _ Hl). lia.
  - by apply Hlok.
Qed.

Lemma stage_wf s f log id w st n cb :
  write_wf s f log id w →
  stage_ok s f log id (mk_write (w_offset w) (w_iovs w) st n (w_requests w) cb) →
  write_wf s f log id (mk_write (w_offset w) (w_iovs w) st n (w_requests w) cb).
Proof. intros (? & ? & ? & _) Hst. by split_and!. Qed.

(** ** Preservation *)

Hypothesis Hchunk : 0 < wlog_chunk_bytes cfg / 512 < 2 ^ 31.

Lemma sectors_nonneg w : 0 ≤ req_bytes w / 512.
Proof. unfold req_bytes. apply Z.div_pos; lia. Qed.

Lemma room_nonneg w : 0 ≤ room_of w.
Proof.
  pose proof (sectors_nonneg w). unfold room_of.
  assert (0 ≤ (req_bytes w / 512) ÷ 8) by (apply Z.quot_pos; lia).
  destruct (w_stage w), (w_cb w); lia.
Qed.

Lemma write_new_inv im id off iovs :
  image_inv im → im_writes im !! id = None →
  Z.of_nat (SmartIov.bytes_of iovs) / 512 + wlog_chunk_bytes cfg / 512 < 2 ^ 31 →
  image_inv (image_write im id off iovs).
Proof.
  intros [Ht Hmx Ho Hw Hl Hlok] Hid Hsz. unfold image_write, with_write.
  split; cbn [im_wlog im_writes im_log im_stored im_failed].
  - rewrite msum_new by done. unfold room_of at 1. simpl. lia.
  - done.
  - done.
  - intros id' w. destruct (decide (id' = id)) as [->|Hne].
    + rewrite lookup_insert_eq. intros [= <-]. split; [done|]. split; [constructor|].
      split; [|done]. intros lid Hin. by apply elem_of_nil in Hin.
    + rewrite lookup_insert_ne by done. by apply Hw.
  - intros lid l Hll. destruct (Hl lid l Hll) as (w & Hw1 & Hin). exists w.
    rewrite lookup_insert_ne; [done|]. congruence.
  - done.
Qed.

Lemma write_reserve_inv im id im' : image_inv im → write_reserve im id = Some im' → image_inv im'.
Proof.
  intros Hi Hs. pose proof (ii_writes im Hi id) as Hw. unfold write_reserve in Hs.
  destruct (im_writes im !! id) as [w|] eqn:Hid; [|done]. cbn [mbind option_bind] in Hs.
  destruct (w_stage w) eqn:Est; try done. unfold reserve_room in Hs.
  destruct (_ <? _) eqn:E in Hs; [done|]. zb. cbn [mbind option_bind] in Hs. injection Hs as <-.
  destruct (Hw w eq_refl) as (_ & _ & _ & Hst). unfold stage_ok in Hst. rewrite Est in Hst.
  destruct Hst as (Hr & Hn & Hcb).
  apply (frame_write im _ id w (stage w WReserved)); try done.
  - intros Hwf. by apply stage_wf.
  - unfold room_of. rewrite Est. simpl. rewrite Hcb. unfold req_bytes, stage. cbn [w_iovs]. lia.
Qed.

Lemma write_begin_inv im id im' : image_inv im → write_begin cfg im id = Some im' → image_inv im'.
Proof.
  intros Hi Hs. pose proof (ii_writes im Hi id) as Hw. unfold write_begin in Hs.
  destruct (im_writes im !! id) as [w|] eqn:Hid; [|done]. cbn [mbind option_bind] in Hs.
  destruct (w_stage w) eqn:Est; try done. destruct (backpressure _ _); [done|]. injection Hs as <-.
  destruct (Hw w eq_refl) as (Hsz & _ & _ & Hst). unfold stage_ok in Hst. rewrite Est in Hst.
  destruct Hst as (Hr & Hn & Hcb). pose proof (ii_max im Hi).
  eapply (frame_write im _ id w); try done.
  - intros Hwf. apply stage_wf; [done|]. unfold stage_ok. cbn [w_stage w_cb w_n_req w_requests w_offset].
    rewrite Hr, Hcb, Hn. split_and!.
    + done.
    + pose proof (sectors_nonneg w). rewrite (chunks_count cfg (w_offset w)) by lia. simpl. lia.
    + intros lid l Hin. by apply elem_of_nil in Hin.
    + exists []. split; [done|constructor].
  - unfold room_of. rewrite Est. cbn [w_stage w_cb]. rewrite Hcb. unfold req_bytes. cbn [w_iovs]. simpl. lia.
Qed.

Lemma write_made_inv im id im' : image_inv im → write_made im id = Some im' → image_inv im'.
Proof.
  intros Hi Hs. pose proof (ii_writes im Hi id) as Hw. unfold write_made in Hs.
  destruct (im_writes im !! id) as [w|] eqn:Hid; [|done]. cbn [mbind option_bind] in Hs.
  destruct (w_stage w) as [| |[|? ?] [?|]|] eqn:Est; try done. injection Hs as <-.
  destruct (Hw w eq_refl) as (_ & _ & Hp & Hst). unfold stage_ok in Hst. rewrite Est in Hst.
  destruct Hst as (Hcb & Hn & Hfr & made & Hm & HF). rewrite app_nil_r in Hm. subst made.
  pose proof (ii_max im Hi).
  eapply (frame_write im _ id w); try done.
  - intros Hwf. apply stage_wf; [done|]. unfold stage_ok. cbn [w_stage w_cb w_n_req w_requests w_offset].
    assert (w_n_req w = unnotified (im_log im) (w_requests w)) as Hu.
    { rewrite Hn. simpl. clear -Hp Hfr. induction (w_requests w) as [|lid lids IH]; [done|].
      rewrite unnotified_cons. destruct (Hp lid) as (l & Hl & _); [by left|]. rewrite Hl.
      destruct (Hfr lid l) as (_ & _ & Hnt & _); [by left|done|]. cbn [from_option].
      unfold count_unnotified. rewrite Hnt, <- IH; [simpl; lia|..]; intros; eauto using list_elem_of_further. }
    split_and!; [done| |done|].
    + left. split; [done|]. destruct (w_requests w); [by left|]. right. simpl in Hn. lia.
    + exists []. split; [done|]. split; [|done]. intros lid l Hin. by apply elem_of_nil in Hin.
  - unfold room_of. rewrite Est. simpl. rewrite Hcb. unfold req_bytes. simpl. lia.
Qed.

Lemma write_xlate_inv im id im' : image_inv im → write_xlate cfg im id = Some im' → image_inv im'.
Proof.
  intros Hi Hs. unfold write_xlate in Hs.
  destruct (im_writes im !! id) as [w|] eqn:Hid; [|done]. cbn [mbind option_bind] in Hs.
  destruct (w_stage w) as [| |todo [[lba iov]|]|] eqn:Est; try done.
  apply bind_Some in Hs as (p & _ & [= <-]). pose proof (ii_max im Hi).
  eapply (frame_write im _ id w); try done.
  - intros Hwf. apply stage_wf; [done|]. destruct Hwf as (_ & _ & _ & Hst).
    unfold stage_ok in Hst. by rewrite Est in Hst.
  - unfold room_of. rewrite Est. unfold stage, req_bytes. cbn [w_stage w_cb w_iovs]. simpl. lia.
Qed.

Lemma log_write_counts wl h lba iov wl' req :
  log_write wl h lba iov = Some (wl', req) →
  wc_total_write_pages wl' = wc_total_write_pages wl ∧ wc_max_write_pages wl' = wc_max_write_pages wl ∧
  wc_outstanding_writes wl' = wc_outstanding_writes wl + 1.
Proof.
  unfold log_write. intros ([wl1 a] & Ha & Hm)%bind_Some.
  apply bind_Some in Hm as ([wl2 r] & Hm & [= <- _]). unfold allocate in Ha.
  apply bind_Some in Ha as (? & _ & Ha). apply bind_Some in Ha as (? & _ & Ha).
  assert (∃ prev next, wl1 = with_alloc wl prev next) as (prev & next & ->).
  { destruct (jw_limit (wc_super wl) - wc_next_alloc wl <? _) in Ha; injection Ha as <- _; eauto. }
  unfold make_write_req in Hm. destruct (al_pad a =? 0); unfold mk_header in Hm;
    apply bind_Some in Hm as (? & _ & [= <- _]); done.
Qed.

Lemma write_log_inv im id lid im' :
  image_inv im → im_log im !! lid = None → log_takes im id → write_log im id lid = Some im' → image_inv im'.
Proof.
  intros Hi Hlid (w0 & so & k0 & cu & td & iov0 & Hid0 & Est0 & Hiov0 & Hwok & Hpg) Hs.
  pose proof (ii_writes im Hi id) as Hw. unfold write_log in Hs.
  destruct (im_writes im !! id) as [w|] eqn:Hid; [|done]. cbn [mbind option_bind] in Hs.
  destruct (w_stage w) as [| |[|[[s_off n] cur] todo] [?|]|] eqn:Est; try done.
  apply bind_Some in Hs as (iov & Hiov & Hs). apply bind_Some in Hs as ([wl req] & Hlw & [= <-]).
  pose proof (log_write_counts _ _ _ _ _ _ Hlw) as (Et & Em & Eo).
  destruct (Hw w eq_refl) as (Hsz & Hnd & Hp & Hst). unfold stage_ok in Hst. rewrite Est in Hst.
  destruct Hst as (Hcb & Hn & Hfr & made & Hm & HF). pose proof Hi as [_ Hmx Hout _ Hl Hlok].
  injection Hid0 as <-. rewrite Est in Est0. injection Est0 as <- <- <- <-.
  rewrite Hiov in Hiov0. injection Hiov0 as <-.
  assert (lid ∉ w_requests w) as Hnew by (intros (l & ? & _)%Hp; congruence).
  eapply (frame im _ id w); cbn [with_log with_write with_wlog im_wlog im_writes im_log im_stored im_failed];
    [done|done|done|done|done|..].
  - intros k l Hk _. rewrite lookup_insert_ne; [done|]. congruence.
  - intros k l. destruct (decide (k = lid)) as [->|Hne].
    + rewrite lookup_insert_eq. intros [= <-]. left. split; [done|]. cbn [w_requests].
      apply elem_of_app. right. by left.
    + rewrite lookup_insert_ne by done. intros Hk. destruct (decide (l_parent l = id)) as [E|]; [left|by right].
      split; [done|]. destruct (Hl k l Hk) as (w1 & Hw1 & Hin). cbn [w_requests].
      apply elem_of_app. left. congruence.
  - split; [done|]. cbn [w_requests]. split.
    { apply NoDup_app. split; [done|]. split; [|apply NoDup_singleton].
      intros k Hk ->%list_elem_of_singleton. done. }
    assert (∀ k, k ∈ w_requests w →
              ∃ l, <[lid := mk_log req id (Z.of_nat (length (log_writes_of req))) [] false false]> (im_log im) !! k =
                     Some l ∧ im_log im !! k = Some l ∧ l_parent l = id) as Hold.
    { intros k Hk. destruct (Hp k Hk) as (l & Hkl & Hpl). exists l.
      rewrite lookup_insert_ne by congruence. done. }
    split.
    { intros k [Hk| ->%list_elem_of_singleton]%elem_of_app.
      - destruct (Hold k Hk) as (l & ? & _ & ?). by exists l.
      - rewrite lookup_insert_eq. by eexists. }
    unfold stage_ok. cbn [w_stage w_cb w_n_req w_requests w_offset]. split_and!.
    + done.
    + rewrite Hn, length_app. simpl. lia.
    + intros k l [Hk| ->%list_elem_of_singleton]%elem_of_app.
      * destruct (Hold k Hk) as (l' & -> & Hk' & _). intros [= <-]. by apply (Hfr k).
      * rewrite lookup_insert_eq. by intros [= <-].
    + exists (made ++ [(s_off, n, cur)]). split; [rewrite <- app_assoc; exact Hm|].
      apply Forall2_app.
      * eapply logged_ext; [|  |exact HF]; [done|]. intros k l Hk Hkl. exists l.
        rewrite lookup_insert_ne by congruence. done.
      * constructor; [|constructor]. eexists _, (im_wlog im), wl, _, iov. rewrite lookup_insert_eq. done.
  - rewrite Et. unfold room_of. rewrite Est. cbn [w_stage w_cb]. rewrite Hcb. unfold req_bytes.
    cbn [w_iovs]. lia.
  - lia.
  - rewrite msum_new by done. unfold count_open at 1. simpl. lia.
  - destruct (log_write_logged (im_wlog im) _ (cur / 512, iov) Hlok Hwok Hpg)
      as (? & ? & wl1 & r1 & _ & _ & Hlw1 & Hlg). cbn [fst snd] in Hlw1. rewrite Hlw in Hlw1.
    injection Hlw1 as -> _. apply (lg_ok _ _ _ _ _ _ Hlg).
Qed.

(** ** Running log requests *)

Lemma not_fresh_running s f log id w lid l :
  write_wf s f log id w → lid ∈ w_requests w → log !! lid = Some l → ¬ fresh_log l →
  ∃ unrun, w_stage w = WRunning unrun ∧ lid ∉ unrun ∧ ran_log s f l.
Proof.
  intros (_ & _ & _ & Hst) Hin Hl Hnf. unfold stage_ok in Hst.
  destruct (w_stage w) as [| |todo pending|unrun].
  - destruct Hst as (Hr & _). rewrite Hr in Hin. by apply elem_of_nil in Hin.
  - destruct Hst as (Hr & _). rewrite Hr in Hin. by apply elem_of_nil in Hin.
  - destruct Hst as (_ & _ & Hfr & _). destruct Hnf. by apply (Hfr lid).
  - destruct Hst as (_ & _ & _ & ran & Hr & Hran & Hun). exists unrun. split; [done|].
    assert (lid ∉ unrun) as Hnu by (intros Hu; destruct Hnf; by apply (Hun lid)).
    split; [done|]. rewrite Hr in Hin. apply elem_of_app in Hin as [Hin|]; [|done].
    by apply (Hran lid).
Qed.

Lemma running_update s f s' f' log id w lid l l' unrun unrun' n cb :
  write_wf s f log id w → w_stage w = WRunning unrun → lid ∈ w_requests w →
  log !! lid = Some l → l_parent l' = l_parent l → l_req l' = l_req l →
  s ⊆ s' → f ⊆ f' → ran_log s' f' l' →
  unrun = lid :: unrun' ∨ lid ∉ unrun ∧ unrun' = unrun →
  n = w_n_req w - count_unnotified l + count_unnotified l' →
  cb = [] ∧ 0 < n ∨ cb = [0] ∧ n = 0 →
  write_wf s' f' (<[lid := l']> log) id (mk_write (w_offset w) (w_iovs w) (WRunning unrun') n (w_requests w) cb).
Proof.
  intros (Hsz & Hnd & Hp & Hst) Est Hin Hl Hpl Hrl Hs Hf Hran' Hun Hn Hcb.
  unfold stage_ok in Hst. rewrite Est in Hst. destruct Hst as (Hn' & _ & HF & ran & Hr & Hran & Hunr).
  split; [done|]. split; [done|]. split.
  { intros k Hk. cbn [w_requests] in Hk. destruct (Hp k Hk) as (l1 & Hl1 & Hp1).
    destruct (decide (k = lid)) as [->|Hne].
    - exists l'. rewrite lookup_insert_eq. split; [done|]. congruence.
    - exists l1. by rewrite lookup_insert_ne. }
  unfold stage_ok. cbn [w_stage w_cb w_n_req w_requests w_offset]. split; [|split; [|split]].
  - rewrite (unnotified_update _ _ _ l) by done. lia.
  - destruct Hcb as [[-> ?]|[-> ->]]; [left; split; [done|by right]|right; split_and!; [done| |done]].
    intros E. rewrite E in Hin. by apply elem_of_nil in Hin.
  - eapply logged_ext; [| |exact HF]; [done|]. intros k l1 _ Hk.
    destruct (decide (k = lid)) as [->|Hne].
    + exists l'. rewrite lookup_insert_eq. split; [done|]. simplify_eq. done.
    + exists l1. by rewrite lookup_insert_ne.
  - assert (∃ ran', w_requests w = ran' ++ unrun' ∧ (∀ k, k ∈ ran' → k = lid ∨ k ∈ ran) ∧
              (∀ k, k ∈ unrun' → k ∈ unrun) ∧ lid ∉ unrun') as (ran' & Hr' & H1 & H2 & H3).
    { destruct Hun as [->|[Hu ->]].
      - exists (ran ++ [lid]). rewrite <- app_assoc. split; [exact Hr|]. split_and!.
        + intros k [?| ->%list_elem_of_singleton]%elem_of_app; auto.
        + intros k Hk. by right.
        + rewrite Hr in Hnd. apply NoDup_app in Hnd as (_ & _ & [? _]%NoDup_cons). done.
      - exists ran. split_and!; auto. }
    exists ran'. split; [done|]. split.
    + intros k l1 Hk. destruct (decide (k = lid)) as [->|Hne].
      * rewrite lookup_insert_eq. by intros [= <-].
      * rewrite lookup_insert_ne by done. intros Hk1. apply (ran_log_mono s f); [done|done|].
        destruct (H1 k Hk) as [|Hk2]; [done|]. by apply (Hran k).
    + intros k l1 Hk. rewrite lookup_insert_ne by congruence. apply Hunr. by apply H2.
Qed.

Lemma log_parent im lid l :
  image_inv im → im_log im !! lid = Some l →
  ∃ w, im_writes im !! l_parent l = Some w ∧ lid ∈ w_requests w ∧
    write_wf (im_stored im) (im_failed im) (im_log im) (l_parent l) w.
Proof.
  intros Hi Hl. destruct (ii_log im Hi lid l Hl) as (w & Hw & Hin). exists w.
  split; [done|]. split; [done|]. by apply (ii_writes im Hi).
Qed.

(** The callback of a running write that still waits for a log request *)
Lemma running_waits s f log id w lid l unrun :
  write_wf s f log id w → w_stage w = WRunning unrun → lid ∈ w_requests w → log !! lid = Some l →
  l_notified l = false → w_cb w = [] ∧ 0 < w_n_req w.
Proof.
  intros (_ & Hnd & _ & Hst) Est Hin Hl Hnt. unfold stage_ok in Hst. rewrite Est in Hst.
  destruct Hst as (Hn & Hcb & _).
  pose proof (unnotified_update log _ lid l l Hnd Hin Hl) as Hu.
  assert (0 < w_n_req w); [|destruct Hcb as [[? _]|(_ & _ & ?)]; [done|lia]].
  rewrite Hn. apply list_elem_of_split in Hin as (k1 & k2 & ->).
  rewrite unnotified_app, unnotified_cons, Hl. cbn [from_option]. replace (count_unnotified l) with 1 by (unfold count_unnotified; by rewrite Hnt).
  pose proof (unnotified_nonneg log k1). pose proof (unnotified_nonneg log k2). lia.
Qed.

(** A write whose callback has run *)
Lemma acked_stored s f log id w :
  write_wf s f log id w → w_cb w ≠ [] →
  w_cb w = [0] ∧ w_requests w ≠ [] ∧
  Forall2 (chunk_logged log id w) (chunks cfg (w_offset w) (req_bytes w)) (w_requests w) ∧
  ∀ lid, lid ∈ w_requests w → ∃ l, log !! lid = Some l ∧
    ∀ x, x ∈ log_writes_of (l_req l) → x ∈ s ∨ x ∈ f.
Proof.
  intros Hwf Hcb. pose proof Hwf as (_ & _ & Hp & Hst). unfold stage_ok in Hst.
  destruct (w_stage w) as [| |todo pending|unrun] eqn:Est; [by destruct Hst as (_ & _ & ?)..|by destruct Hst as (? & _)|].
  destruct Hst as (_ & [[? _]|(Hcb' & Hne & Hz)] & HF & _); [done|].
  split_and!; [done..|]. intros lid Hin. destruct (Hp lid Hin) as (l & Hl & _). exists l. split; [done|].
  assert (l_notified l = true) as Hnt.
  { destruct (l_notified l) eqn:E; [done|]. destruct (running_waits _ _ _ _ w lid l _ Hwf Est Hin Hl E). lia. }
  destruct (not_fresh_running _ _ _ _ w lid l Hwf Hin Hl) as (u & _ & _ & _ & Hio & Hno & _).
  { intros (_ & _ & E & _). congruence. }
  intros x Hx. destruct (Hio x Hx) as [Ho|]; [|done]. rewrite Hno in Ho by done. by apply elem_of_nil in Ho.
Qed.

Lemma stage_id w st : w_stage w = st → mk_write (w_offset w) (w_iovs w) st (w_n_req w) (w_requests w) (w_cb w) = w.
Proof. destruct w. by intros <-. Qed.

Lemma write_run_inv im id im' : image_inv im → write_run im id = Some im' → image_inv im'.
Proof.
  intros Hi Hs. pose proof (ii_writes im Hi id) as Hw. unfold write_run in Hs.
  destruct (im_writes im !! id) as [w|] eqn:Hid; [|done]. cbn [mbind option_bind] in Hs.
  destruct (w_stage w) as [| | |[|lid unrun]] eqn:Est; try done.
  apply bind_Some in Hs as (l & Hl & [= <-]). specialize (Hw w eq_refl) as Hwf.
  destruct Hwf as (Hsz & Hnd & Hp & Hst). pose proof Hst as Hst'. unfold stage_ok in Hst'. rewrite Est in Hst'.
  destruct Hst' as (_ & _ & _ & ran & Hr & _ & Hun).
  assert (lid ∈ w_requests w) as Hin by (rewrite Hr; apply elem_of_app; right; left).
  destruct (Hun lid l) as (Hop & Hrq & Hnt & Hcl); [left|done|].
  destruct (Hp lid Hin) as (l1 & Hl1 & Hpl). simplify_eq.
  destruct (running_waits _ _ _ _ w lid l _ (Hw w eq_refl) Est Hin Hl Hnt) as [Hcb Hpos].
  eapply (frame_log im _ lid l _ w); try done.
  - cbn [with_log with_write im_stored im_failed]. eapply running_update; try done.
    + split; [done|]. cbn [l_open l_req l_notified l_closed].
      split; [intros x Hx; by left|]. rewrite Hnt, Hcl. done.
    + by left.
    + unfold count_unnotified. cbn [l_notified]. lia.
    + left. split; [done|lia].
  - cbn [with_log with_write im_wlog]. unfold room_of. rewrite Est. unfold stage, req_bytes. cbn [w_stage w_cb w_iovs].
    rewrite Hcb. lia.
  - apply (ii_max im Hi).
  - cbn [with_log with_write im_wlog]. unfold count_open. cbn [l_closed]. lia.
Qed.

Lemma elem_of_delete {A} (x : A) (i : nat) (k : list A) y : k !! i = Some y → x ∈ k → x ∈ delete i k ∨ x = y.
Proof.
  intros Hi Hx. rewrite <- (take_drop_middle k i y Hi) in Hx. rewrite delete_take_drop. set_solver.
Qed.

Lemma nvme_done_inv im lid i n im' : image_inv im → nvme_done im lid i n = Some im' → image_inv im'.
Proof.
  intros Hi Hs. unfold nvme_done in Hs. apply bind_Some in Hs as (l & Hl & (x & Hx & [= <-])%bind_Some).
  destruct (log_parent im lid l Hi Hl) as (w & Hid & Hin & Hwf).
  assert (¬ fresh_log l) as Hnf by (intros (E & _); rewrite E in Hx; done).
  destruct (not_fresh_running _ _ _ _ _ _ _ Hwf Hin Hl Hnf) as (unrun & Est & Hun & Hrq & Hio & Hno & Hcl).
  assert (l_notified l = false) as Hnt.
  { destruct (l_notified l); [|done]. rewrite Hno in Hx; done. }
  assert (l_closed l = false) as Hcd.
  { destruct (l_closed l); [|done]. specialize (Hcl eq_refl). congruence. }
  destruct (running_waits _ _ _ _ w lid l _ Hwf Est Hin Hl Hnt) as [Hcb Hpos].
  eapply (frame_log im _ lid l _ w w); cbn [im_wlog im_writes im_log im_stored im_failed];
    [done|done|done|done|done|by rewrite insert_id|done|by case_match; set_solver|by case_match; set_solver| | | | |done].
  - rewrite <- (stage_id w _ Est). eapply running_update; try done;
      [by case_match; set_solver|by case_match; set_solver| |by right| |].
    + split; cbn [l_open l_req l_reqs l_notified l_closed].
      { pose proof (length_delete (l_open l) i ltac:(by eexists)) as Hlen.
        apply lookup_lt_Some in Hx. unfold nvme_write in *. lia. }
      split; [|by rewrite Hnt, Hcd]. intros y Hy.
      destruct (Hio y Hy) as [Ho|Hsf]; [|right; case_match; set_solver].
      destruct (elem_of_delete y i _ x Hx Ho) as [| ->]; [by left|]. right. case_match; set_solver.
    + unfold count_unnotified. cbn [l_notified]. lia.
    + left. split; [done|lia].
  - lia.
  - apply (ii_max im Hi).
  - unfold count_open. cbn [l_closed]. lia.
Qed.

Lemma log_writes_pos r : (0 < length (log_writes_of r))%nat.
Proof. unfold log_writes_of. rewrite length_app. simpl. lia. Qed.

Lemma log_notify_inv im lid im' : image_inv im → log_notify im lid = Some im' → image_inv im'.
Proof.
  intros Hi Hs. unfold log_notify in Hs. apply bind_Some in Hs as (l & Hl & Hs).
  unfold assert in Hs. destruct (_ && _) eqn:E in Hs; [|done]. cbn [mbind option_bind] in Hs.
  apply andb_true_iff in E as [Hz%Z.eqb_eq Hnt%negb_true_iff].  
  destruct (log_parent im lid l Hi Hl) as (w & Hid & Hin & Hwf).
  assert (¬ fresh_log l) as Hnf.
  { intros (_ & E & _). pose proof (log_writes_pos (l_req l)). lia. }
  destruct (not_fresh_running _ _ _ _ _ _ _ Hwf Hin Hl Hnf) as (unrun & Est & Hun & Hrq & Hio & Hno & Hcl).
  destruct (running_waits _ _ _ _ w lid l _ Hwf Est Hin Hl Hnt) as [Hcb Hpos].
  assert (l_open l = []) as Hop by (apply length_zero_iff_nil; unfold nvme_write in *; lia).
  assert (l_closed l = false) as Hcd.
  { destruct (l_closed l); [|done]. specialize (Hcl eq_refl). congruence. }
  unfold write_notify in Hs. cbn [with_log im_writes im_wlog] in Hs. rewrite Hid in Hs.
  cbn [mbind option_bind] in Hs.
  assert (∀ n cb, n = w_n_req w - 1 → cb = [] ∧ 0 < n ∨ cb = [0] ∧ n = 0 →
    write_wf (im_stored im) (im_failed im)
      (<[lid := mk_log (l_req l) (l_parent l) (l_reqs l) (l_open l) true (l_closed l)]> (im_log im)) (l_parent l)
      (mk_write (w_offset w) (w_iovs w) (w_stage w) n (w_requests w) cb)) as Hwf'.
  { intros n cb Hn Hcb'. rewrite Est. eapply running_update; try done; [by right|].
    unfold count_unnotified. rewrite Hnt. cbn [l_notified]. lia. }
  pose proof (ii_max im Hi). destruct (1 <? w_n_req w) eqn:E; zb.
  - injection Hs as <-. eapply (frame_log im _ lid l _ w); try done.
    + apply Hwf'; [done|]. left. split; [done|lia].
    + cbn [with_log with_write im_wlog]. unfold room_of, req_bytes. cbn [w_stage w_cb w_iovs]. lia.
    + cbn [with_log with_write im_wlog]. unfold count_open. cbn [l_closed]. lia.
  - unfold release_room in Hs. injection Hs as <-. eapply (frame_log im _ lid l _ w); try done.
    + apply Hwf'; [done|]. right. rewrite Hcb. split; [done|lia].
    + cbn [with_log with_write with_wlog im_wlog with_total wc_total_write_pages].
      unfold room_of, req_bytes. cbn [w_stage w_cb w_iovs]. rewrite Est, Hcb. simpl. lia.
    + cbn [with_log with_write with_wlog im_wlog with_total wc_total_write_pages wc_max_write_pages].
      pose proof (sectors_nonneg w). assert (0 ≤ (req_bytes w / 512) ÷ 8) by (apply Z.quot_pos; lia). lia.
    + cbn [with_log with_write with_wlog im_wlog with_total wc_outstanding_writes]. unfold count_open.
      cbn [l_closed]. lia.
Qed.

Lemma log_close_inv im lid im' : image_inv im → log_close im lid = Some im' → image_inv im'.
Proof.
  intros Hi Hs. unfold log_close in Hs. apply bind_Some in Hs as (l & Hl & Hs).
  unfold assert in Hs. destruct (_ && _) eqn:E in Hs; [|done]. injection Hs as <-.
  apply andb_true_iff in E as [Hnt Hcd%negb_true_iff].
  destruct (log_parent im lid l Hi Hl) as (w & Hid & Hin & Hwf).
  assert (¬ fresh_log l) as Hnf by (intros (_ & _ & E & _); congruence).
  destruct (not_fresh_running _ _ _ _ _ _ _ Hwf Hin Hl Hnf) as (unrun & Est & Hun & Hrq & Hio & Hno & Hcl).
  pose proof Hwf as (_ & _ & _ & Hst). unfold stage_ok in Hst. rewrite Est in Hst.
  destruct Hst as (_ & Hcb & _).
  eapply (frame_log im _ lid l _ w w); cbn [with_log with_wlog im_wlog im_writes im_log im_stored im_failed];
    [done|done|done|done|done|by rewrite insert_id|done|done|done| | | | |done].
  - rewrite <- (stage_id w _ Est). eapply running_update; try done; [by right| |].
    + unfold count_unnotified. cbn [l_notified]. lia.
    + destruct Hcb as [[? [E|?]]|(? & _ & ?)]; [|by left|by right].
      rewrite E in Hin. by apply elem_of_nil in Hin.
  - unfold log_done, with_outstanding. cbn [wc_total_write_pages]. lia.
  - apply (ii_max im Hi).
  - unfold log_done, with_outstanding, count_open. cbn [wc_outstanding_writes l_closed]. rewrite Hcd. lia.
Qed.

Lemma request_step_inv im im' : request_step im im' → image_inv im → image_inv im'.
Proof.
  destruct 1; intros Hi.
  - by apply write_new_inv.
  - by apply (write_reserve_inv im id).
  - by apply (write_begin_inv im id).
  - by apply (write_log_inv im id lid).
  - by apply (write_made_inv im id).
  - by apply (write_run_inv im id).
  - by apply (nvme_done_inv im lid i n).
  - by apply (log_notify_inv im lid).
  - by apply (log_close_inv im lid).
Qed.

Lemma xlate_inv im x : image_inv im → image_inv (with_xlate im x).
Proof. intros [? ? ? ? ? ?]. by split. Qed.

Lemma idle_inv im : idle im → image_inv im.
Proof.
  intros (Ew & El & _ & _ & Et & Eo & Hmx & Hlok). split; rewrite ?Ew, ?El, ?Et, ?Eo; done.
Qed.
End image.
