(* ===== verification/ImageRefine.v ===== *)
(** * The image refines a disk

    Chunks of a write have the effect of the whole; requests of the image
    interleaved with the translation layer below; what holds of the counters and
    of acknowledged writes in every reachable state; and a write that runs by
    itself, from the room in the log to its log requests. *)

From stdpp Require Import relations.
From S2P Require Import Prelude Bytes Extent ExtMap ExtMapShape ExtMapFlat ExtMapUpdate ExtMapSpec.
From S2P Require Import Memory SmartIov LsvdTypes Backend Objects Serialise DataObject Config.
From S2P Require Import Translate Accounting Pipeline Completion Refine Journal WriteCache WriteRing WriteLog.
From S2P Require Import ReadPath ReadSpec ImageRead ImageWrite ImageInv.

(** ** The client's memory *)

Lemma copy_out_other iovs : ∀ h p h' c,
  SmartIov.copy_out h iovs p = Some h' → c.1 ≠ p.1 → h' !! c = h !! c.
Proof.
  induction iovs as [|v iovs IH]; intros h p h' c Hc Hne; simpl in Hc; [by simplify_eq|].
  apply bind_Some in Hc as (bs & _ & (h1 & Hw & Hc)%bind_Some).
  rewrite (IH h1 (SmartIov.addr_add p (SmartIov.iov_len v)) h' c Hc Hne).
  apply (write_cells_other _ _ _ _ _ Hw). intros [? _]%elem_of_cells. done.
Qed.

Lemma slice_contents h iovs off n data :
  SmartIov.contents h iovs = Some data → (off + n ≤ length data)%nat →
  ∃ sl, SmartIov.iov_slice iovs off (off + n) = Some sl ∧
    SmartIov.contents h sl = Some (slice off n data) ∧ SmartIov.bytes_of sl = n ∧
    ∀ c, c ∈ SmartIov.cells sl → c ∈ SmartIov.cells iovs.
Proof.
  intros Hc Hl. pose proof (read_cells_length _ _ _ Hc) as Hlen. rewrite SmartIov.length_cells_of in Hlen.
  unfold SmartIov.iov_slice. rewrite assert_true by (apply Nat.leb_le; lia). cbn [mbind option_bind].
  replace (off + n - off)%nat with n by lia. eexists. split; [done|].
  unfold SmartIov.contents. split; [rewrite SmartIov.slice_loop_cells; by apply read_cells_slice|]. split.
  - rewrite <- SmartIov.length_cells_of, SmartIov.slice_loop_cells. apply length_slice.
    rewrite SmartIov.length_cells_of. lia.
  - intros c Hin. rewrite SmartIov.slice_loop_cells in Hin. unfold slice in Hin.
    rewrite <- (take_drop off (SmartIov.cells iovs)), elem_of_app. right.
    rewrite <- (take_drop n (drop off (SmartIov.cells iovs))), elem_of_app. by left.
Qed.

Lemma writev_client {MB : Type} {HB : LbaMap MB sector_ptr} (cfg : lsvd_config)
    (p p' : pipeline MB) off iov :
  writev cfg p off iov = Some p' → 0 < t_batch_buf (p_current p) → 0 < p_next_buf p →
  ∀ c, c.1 ≤ 0 → p_heap p' !! c = p_heap p !! c.
Proof.
  unfold writev. intros Hw Hb Hn c Hc. set (p1 := if room _ _ then _ else _) in Hw.
  assert (p_heap p1 !! c = p_heap p !! c ∧ 0 < t_batch_buf (p_current p1)) as [Hh Hb1].
  { unfold p1. destruct (room _ _); [done|]. unfold put_current, new_put. cbn [p_heap p_current t_batch_buf].
    split; [|done]. apply malloc_other. lia. }
  apply bind_Some in Hw as ([[h cur] ptr] & Ha & Hw). apply bind_Some in Hw as (? & _ & Hw).
  apply bind_Some in Hw as ([bm del] & _ & [= <-]). cbn [p_heap]. rewrite <- Hh.
  unfold append in Ha. apply bind_Some in Ha as (? & _ & (h1 & Ho & [= <- _ _])%bind_Some).
  apply (copy_out_other _ _ _ _ _ Ho). cbn [fst]. lia.
Qed.

(** ** Chunks are the whole *)

(** The write of one chunk of [data] *)
Definition write_chunk (data : bytes) (D : disk) (c : chunk) : disk :=
  disk_write D (c.2 / 512) c.1.2 (slice (Z.to_nat (c.1.1 * 512)) (Z.to_nat (c.1.2 * 512)) data).

Lemma chunk_at off s : (off + 512 * s) / 512 = off / 512 + s.
Proof. replace (off + 512 * s) with (off + s * 512) by lia. rewrite Z.div_add by lia. done. Qed.

Lemma tiles_le off e l : ∀ s, tiles off s e l → s ≤ e.
Proof.
  induction l as [|[[s0 n] cur] l IH]; intros s Ht; [simpl in Ht; lia|].
  destruct Ht as (-> & ? & ? & _ & Ht). apply IH in Ht. lia.
Qed.

Lemma tiles_write off e data l : ∀ s D x,
  0 ≤ s → tiles off s e l → 512 * e ≤ Z.of_nat (length data) →
  foldl (write_chunk data) D l x =
    if in_range (off / 512 + s) (off / 512 + e) x
    then Some (slice (Z.to_nat (512 * (x - off / 512))) 512 data) else D x.
Proof.
  induction l as [|[[s0 n] cur] l IH]; intros s D x Hs Ht Hl; cbn [foldl].
  { simpl in Ht. subst. unfold in_range. destruct (_ && _) eqn:E; [|done]. zb. lia. }
  destruct Ht as (-> & Hn & Hle & -> & Ht). rewrite (IH (s + n)) by (done || lia).
  unfold write_chunk at 1, disk_write. cbn [fst snd]. rewrite chunk_at. unfold in_range.
  pose proof (tiles_le _ _ _ _ Ht).
  destruct (off / 512 + (s + n) <=? x) eqn:E1, (x <? off / 512 + e) eqn:E2,
    (off / 512 + s <=? x) eqn:E3, (x <? off / 512 + s + n) eqn:E4; zb; simpl; try done; try lia.
  f_equal. rewrite slice_slice by lia. f_equal. lia.
Qed.

(** C18: writing the chunks of a request one after the other is writing the
    request: every sector has the contents that one write of the whole gives
    it. *)
Theorem chunks_write_whole cfg off data D x :
  0 < wlog_chunk_bytes cfg / 512 →
  foldl (write_chunk data) D (chunks cfg off (Z.of_nat (length data))) x =
  disk_write D (off / 512) (Z.of_nat (length data) / 512) data x.
Proof.
  intros Hmx. assert (0 ≤ Z.of_nat (length data) / 512) by (apply Z.div_pos; lia).
  rewrite (tiles_write off (Z.of_nat (length data) / 512) data _ 0).
  - rewrite Z.add_0_r. done.
  - done.
  - by apply chunks_tiles.
  - apply Z.mul_div_le. lia.
Qed.

(** Five sectors in chunks of two. *)
Definition demo_chunk_cfg : lsvd_config := {|
  rcache_dir := "/tmp/lsvd/"; rcache_bytes := 0; rcache_fetch_window := 12;
  wlog_dir := "/tmp/lsvd/"; wlog_bytes := 2 ^ 20; wlog_write_window := 8; wlog_chunk_bytes := 1024;
  antithrash_ratio := 67; backend_obj_bytes := 2 ^ 21; backend_write_window := 8;
  checkpoint_interval_objs := 500; flush_timeout_ms := 2000; flush_interval_ms := 1000;
  gc_threshold_pc := 60; gc_write_window := 4; no_gc := false |}.

Lemma chunks_write_whole_witness :
  chunks demo_chunk_cfg 4096 (Z.of_nat (length (zeros 2560))) = [(0, 2, 4096); (2, 2, 5120); (4, 1, 6144)] ∧
  ∀ x, foldl (write_chunk (zeros 2560)) (λ _, None)
         (chunks demo_chunk_cfg 4096 (Z.of_nat (length (zeros 2560)))) x =
       disk_write (λ _, None) 8 5 (zeros 2560) x.
Proof.
  split; [vm_compute; reflexivity|]. intros x.
  apply (chunks_write_whole demo_chunk_cfg 4096 (zeros 2560) (λ _, None) x). reflexivity.
Defined.

(** ** Requests and the translation layer *)

Section image.
Context {S : Type} {HS : Rados S} {HSok : RadosOk S}.
Context {RC : Type}.
Variable insert_object : RC → string → Z → bytes → RC.
Variable crc32 : bytes → Z.
Variable cfg : lsvd_config.
Variables (name : string) (uuid : bytes) (vol_bytes : Z).
Notation state := (@xstate objmap bufmap S RC).
Notation image := (image objmap bufmap S RC).
Notation layer_step := (step insert_object crc32 cfg name uuid vol_bytes).
Notation layer_reachable := (reachable insert_object crc32 cfg name uuid vol_bytes).
Notation inv := (inv cfg name).
Implicit Types (im : image) (D : disk) (w : write_request) (l : log_request).

(** Steps of the requests of an image; a chunk that reaches the translation layer
    is written to the disk; and the steps of the translation layer's own
    threads, trims and flushes. *)
Inductive image_step : image * disk → image * disk → Prop :=
| is_request im im' D : request_step cfg im im' → image_step (im, D) (im', D)
| is_xlate im im' D id w todo lba iov n data :
    im_writes im !! id = Some w → w_stage w = WMaking todo (Some (lba, iov)) →
    Pipeline.write_ok cfg (p_heap (x_pipe (im_xlate im))) lba n iov data →
    write_xlate cfg im id = Some im' →
    image_step (im, D) (im', disk_write D lba n data)
| is_layer im D x' D' : layer_step (im_xlate im, D) (x', D') → image_step (im, D) (with_xlate im x', D').

(** Reachable from an image that has just been opened. *)
Definition image_reachable im D : Prop :=
  ∃ im0, idle im0 ∧ opened cfg (im_xlate im0) ∧
    rtc image_step (im0, read_sector name (im_xlate im0)) (im, D).

(** Trims and flushes of the image are steps of its translation layer. *)
Lemma trim_run_step im D off len im' v :
  0 ≤ off → off / 512 < (off + len) / 512 → trim_run im off len = Some (im', v) →
  v = 0 ∧ image_step (im, D) (im', disk_trim D (off / 512) ((off + len) / 512)).
Proof.
  unfold trim_run. intros Ho Hl (x & Hx & [= <- <-])%bind_Some. split; [done|].
  apply is_layer. by apply step_trim.
Qed.

Lemma flush_run_step im D : image_step (im, D) (flush_run cfg im, D).
Proof. apply is_layer. apply step_submit. by left. Qed.

Lemma request_xlate im im' : request_step cfg im im' → im_xlate im' = im_xlate im.
Proof.
  destruct 1 as [|? id ? H|? id ? H|? id lid ? _ _ H|? id ? H|? id ? H|? lid i n ? H|? lid ? H|? lid ? H].
  - done.
  - unfold write_reserve in H. apply bind_Some in H as (w & _ & H).
    destruct (w_stage w); try done. by apply bind_Some in H as (? & _ & [= <-]).
  - unfold write_begin in H. apply bind_Some in H as (w & _ & H).
    destruct (w_stage w); try done. destruct (backpressure _ _); [done|]. by injection H as <-.
  - unfold write_log in H. apply bind_Some in H as (w & _ & H).
    destruct (w_stage w) as [| |[|[[? ?] ?] ?] [?|]|]; try done.
    apply bind_Some in H as (iov & _ & H). by apply bind_Some in H as ([? ?] & _ & [= <-]).
  - unfold write_made in H. apply bind_Some in H as (w & _ & H).
    destruct (w_stage w) as [| |[|? ?] [?|]|]; try done. by injection H as <-.
  - unfold write_run in H. apply bind_Some in H as (w & _ & H).
    destruct (w_stage w) as [| | |[|? ?]]; try done. by apply bind_Some in H as (? & _ & [= <-]).
  - unfold nvme_done in H. apply bind_Some in H as (l & _ & H). by apply bind_Some in H as (? & _ & [= <-]).
  - unfold log_notify in H. apply bind_Some in H as (l & _ & H). apply bind_Some in H as (_ & _ & H).
    unfold write_notify in H. apply bind_Some in H as (w & _ & H). destruct (1 <? w_n_req w).
    + by injection H as <-.
    + unfold release_room in H. by injection H as <-.
  - unfold log_close in H. apply bind_Some in H as (l & _ & H). by apply bind_Some in H as (? & _ & [= <-]).
Qed.

Lemma image_step_xlate im D im' D' :
  image_step (im, D) (im', D') → rtc layer_step (im_xlate im, D) (im_xlate im', D').
Proof.
  inversion 1 as [? ? ? Hr|? ? ? id w todo lba iov n data Hw Hst Hok Hx|? ? ? ? Hl]; subst.
  - rewrite (request_xlate _ _ Hr). apply rtc_refl.
  - unfold write_xlate in Hx. rewrite Hw in Hx. cbn [mbind option_bind] in Hx. rewrite Hst in Hx.
    apply bind_Some in Hx as (p & Hp & [= <-]). apply rtc_once. cbn [with_write with_xlate im_xlate].
    apply step_write with (iov := iov); [done|]. by rewrite (Z.mul_comm 512).
  - apply rtc_once. exact Hl.
Qed.

Lemma image_steps_xlate a b : rtc image_step a b → rtc layer_step (im_xlate a.1, a.2) (im_xlate b.1, b.2).
Proof.
  induction 1 as [|[im D] [im1 D1] b Hs _ IH]; [apply rtc_refl|].
  etrans; [exact (image_step_xlate _ _ _ _ Hs)|exact IH].
Qed.

Lemma image_reachable_layer im D : image_reachable im D → layer_reachable (im_xlate im) D.
Proof.
  intros (im0 & _ & Ho & Hr). exists (im_xlate im0). split; [done|]. exact (image_steps_xlate _ _ Hr).
Qed.

Hypothesis Hchunk : 0 < wlog_chunk_bytes cfg / 512 < 2 ^ 31.

Lemma image_step_inv im D im' D' : image_step (im, D) (im', D') → image_inv cfg im → image_inv cfg im'.
Proof.
  inversion 1; subst; intros Hi.
  - by apply (request_step_inv cfg Hchunk im).
  - by apply (write_xlate_inv cfg im id).
  - by apply xlate_inv.
Qed.

Lemma image_reachable_inv im D : image_reachable im D → image_inv cfg im.
Proof.
  intros (im0 & Hid & _ & Hr). apply idle_inv with (cfg := cfg) in Hid.
  remember (im0, read_sector name (im_xlate im0)) as a eqn:Ea. remember (im, D) as b eqn:Eb.
  assert (image_inv cfg a.1) as Ha by by rewrite Ea. clear Hid Ea.
  assert (image_inv cfg b.1) as Hb; [|by rewrite Eb in Hb]. clear Eb.
  induction Hr as [|[im1 D1] [im2 D2] b Hs _ IH]; [done|]. apply IH. exact (image_step_inv _ _ _ _ Hs Ha).
Qed.

(** C2: an image with requests in any state of progress refines a disk: a read
    returns the chunks that the translation layer has been given, in that order,
    whatever the log, the acknowledgements and the other threads have done.  A
    write of several chunks is therefore not atomic. *)
Theorem image_refines_disk im D iovs off n full :
  cfg_ok cfg → uuid_ok uuid → 0 ≤ vol_bytes < 2 ^ 64 → image_reachable im D →
  client_iov (p_heap (x_pipe (im_xlate im))) iovs n → length full = SmartIov.bytes_of iovs →
  (∀ x, off / 512 ≤ x < off / 512 + n →
     D x = Some (slice (Z.to_nat (512 * (x - off / 512))) 512 full)) →
  ∃ h calls, image_read name (im_xlate im) iovs off = Some (h, calls) ∧ Forall call_ok calls ∧
    ∀ order, order ≡ₚ calls → ∃ h', serve_all (rados_obj (x_store (im_xlate im))) h order = Some h' ∧
      SmartIov.contents h' iovs = Some full ∧
      ∀ c, c ∉ SmartIov.cells iovs → h' !! c = p_heap (x_pipe (im_xlate im)) !! c.
Proof.
  intros Hcfg Hu Hv Hr Hc Hl HD. apply image_reachable_layer, reachable_inv in Hr as [Hi Hseq]; [|done..].
  apply (handle_reads_ok _ _ _ _ _ 256 _ off n full). by apply (image_read_ok cfg name (im_xlate im) D).
Qed.

(** C16: the accounts of the log are exact in every reachable state: the pages that
    are reserved are those of the writes that have got room and have not been
    acknowledged, there are never more than the log allows, and the outstanding
    writes are the log requests that have not finished; an image whose writes have
    all been acknowledged and whose log requests have all finished is flushed. *)
Theorem write_room_exact im D :
  image_reachable im D →
  wc_total_write_pages (im_wlog im) = msum room_of (im_writes im) ∧
  0 ≤ wc_total_write_pages (im_wlog im) ≤ wc_max_write_pages (im_wlog im) ∧
  wc_outstanding_writes (im_wlog im) = msum count_open (im_log im) ∧
  (map_Forall (λ _ w, w_stage w = WNew ∨ w_cb w ≠ []) (im_writes im) →
   map_Forall (λ _ l, l_closed l = true) (im_log im) → flushed (im_wlog im) = true).
Proof.
  intros Hi%image_reachable_inv. pose proof Hi as [Ht Hmx Ho _ _ _]. split; [done|].
  split; [split; [rewrite Ht; apply msum_nonneg; exact room_nonneg|done]|]. split; [done|].
  intros Hw Hl. unfold flushed. rewrite Ht, Ho, !msum_zero; [done|..].
  - intros lid l Hll. unfold count_open. by rewrite (Hl lid l Hll).
  - intros id w Hw'. destruct (Hw id w Hw') as [Hst|Hcb]; unfold room_of.
    + by rewrite Hst.
    + destruct (w_stage w), (w_cb w); done.
Qed.

(** C3: an acknowledged write is in the log.  The callback of a write runs at most
    once, with 0, and then the write consists of one log request per chunk, the
    chunks cover the request, and every write of those log requests to the log
    file has completed; it has succeeded or it is among those that the nvme layer
    has reported as failed, which the image acknowledges all the same. *)
Theorem write_acknowledged im D id w :
  image_reachable im D → im_writes im !! id = Some w →
  w_cb w = [] ∨
  w_cb w = [0] ∧ w_requests w ≠ [] ∧
  tiles (w_offset w) 0 (req_bytes w / 512) (chunks cfg (w_offset w) (req_bytes w)) ∧
  Forall2 (chunk_logged (im_log im) id w) (chunks cfg (w_offset w) (req_bytes w)) (w_requests w) ∧
  ∀ lid, lid ∈ w_requests w → ∃ l, im_log im !! lid = Some l ∧
    ∀ x, x ∈ log_writes_of (l_req l) → x ∈ im_stored im ∨ x ∈ im_failed im.
Proof.
  intros Hi%image_reachable_inv Hw. destruct (decide (w_cb w = [])) as [|Hne]; [by left|right].
  destruct (acked_stored cfg _ _ _ id w (ii_writes _ _ Hi id w Hw) Hne) as (Hcb & Hreq & HF & Hst).
  split_and!; [done|done| |done|done]. apply chunks_tiles; [lia|apply sectors_nonneg].
Qed.

(** ** A write by itself *)

(** A chunk that both the log and the translation layer accept *)
Definition chunk_ok (c : chunk) : Prop := 8 ≤ c.1.2 ∧ 512 * c.1.2 ≤ wlog_chunk_bytes cfg.

Lemma chunk_loop_ok fuel : ∀ s e cur,
  0 < wlog_chunk_bytes cfg → wlog_chunk_bytes cfg mod 4096 = 0 → (e - s) mod 8 = 0 →
  Forall chunk_ok (chunk_loop fuel s e (wlog_chunk_bytes cfg / 512) cur).
Proof.
  set (C := wlog_chunk_bytes cfg) in *.
  induction fuel as [|fuel IH]; intros s e cur Hc Hm He; simpl; [constructor|].
  assert (C / 512 = 8 * (C / 4096)) as HC.
  { symmetry. apply Z.div_unique_exact; [done|]. pose proof (Z.div_mod C 4096). lia. }
  assert (0 < C / 4096) as Hp by (pose proof (Z.div_mod C 4096); lia).
  destruct (s <? e) eqn:E; zb; [|constructor]. constructor.
  - unfold chunk_ok. fold C. cbn [fst snd]. pose proof (Z.div_mod C 4096). pose proof (Z.div_mod (e - s) 8). lia.
  - apply IH; [done|done|]. rewrite HC. replace (e - (s + 8 * (C / 4096))) with (e - s + (- (C / 4096)) * 8) by lia.
    by rewrite Z.mod_add.
Qed.

(** What the loop needs of the state: [w] reads [data] from the client's memory,
    and the log has room for a chunk in its ring. *)
Record loop_ok im D w (n : Z) (data : bytes) : Prop := mk_loop_ok {
  lo_inv : inv (im_xlate im) D;
  lo_log : log_ok (im_wlog im);
  lo_ring : wlog_chunk_bytes cfg / 4096 + 2 ≤ ring_size (im_wlog im);
  lo_data : SmartIov.contents (p_heap (x_pipe (im_xlate im))) (w_iovs w) = Some data;
  lo_client : ∀ c, c ∈ SmartIov.cells (w_iovs w) → c.1 ≤ 0;
  lo_len : Z.of_nat (length data) = 512 * n;
  lo_off : 0 ≤ w_offset w / 512 ∧ w_offset w / 512 + n ≤ VOL_LIMIT;
}.

Lemma pages_of_chunk iovs n :
  Z.of_nat (SmartIov.bytes_of iovs) = 512 * n → 0 < n → 512 * n ≤ wlog_chunk_bytes cfg →
  wlog_chunk_bytes cfg < 2 ^ 31 → pages_of iovs ≤ wlog_chunk_bytes cfg / 4096 + 2.
Proof.
  intros Hb Hn Hc Hl. unfold pages_of. rewrite Hb.
  destruct (div_round_up_spec (512 * n) 4096) as [Hd _]; [lia..|].
  set (q := div_round_up (512 * n) 4096) in *. pose proof (Z.div_mod (wlog_chunk_bytes cfg) 4096).
  pose proof (Z.mod_pos_bound (wlog_chunk_bytes cfg) 4096). nia.
Qed.

Lemma write_log_eq im id lid w s_off k cur todo iov wl req :
  im_writes im !! id = Some w → w_stage w = WMaking ((s_off, k, cur) :: todo) None →
  SmartIov.iov_slice (w_iovs w) (Z.to_nat (s_off * 512)) (Z.to_nat (s_off * 512) + Z.to_nat (k * 512)) = Some iov →
  log_write (im_wlog im) (p_heap (x_pipe (im_xlate im))) (cur / 512) iov = Some (wl, req) →
  write_log im id lid =
    Some (with_log (with_write (with_wlog im wl) id
            (mk_write (w_offset w) (w_iovs w) (WMaking todo (Some (cur / 512, iov))) (w_n_req w)
               (w_requests w ++ [lid]) (w_cb w))) lid
            (mk_log req id (Z.of_nat (length (log_writes_of req))) [] false false)).
Proof.
  intros Hid Est Hsl Hlw. unfold write_log. rewrite Hid. cbn [mbind option_bind]. rewrite Est. cbn iota beta.
  rewrite Hsl. cbn [mbind option_bind]. by rewrite Hlw.
Qed.

(** One chunk: the log, then the translation layer. *)
Lemma chunk_total im D id lid w n data s_off k cur todo :
  cfg_ok cfg → wlog_chunk_bytes cfg ≤ backend_obj_bytes cfg → loop_ok im D w n data →
  im_writes im !! id = Some w → w_stage w = WMaking ((s_off, k, cur) :: todo) None →
  chunk_ok (s_off, k, cur) → 0 ≤ s_off → s_off + k ≤ n → cur / 512 = w_offset w / 512 + s_off →
  ∃ im1 im2 w2, write_log im id lid = Some im1 ∧ write_xlate cfg im1 id = Some im2 ∧
    im_writes im2 !! id = Some w2 ∧ w_stage w2 = WMaking todo None ∧
    w_requests w2 = w_requests w ++ [lid] ∧ w_offset w2 = w_offset w ∧
    loop_ok im2 (write_chunk data D (s_off, k, cur)) w2 n data.
Proof.
  intros Hcfg HCB [Hi Hlog Hring Hdata Hcl Hlen Hoff] Hid Est [Hk8 HkC] Hs0 Hsn Hcur. cbn [fst snd] in Hk8, HkC.
  assert (512 * k ≤ 2 ^ 28 ∧ 512 * k ≤ backend_obj_bytes cfg ∧ wlog_chunk_bytes cfg < 2 ^ 31) as (Hk28 & HkB & HC31)
    by (unfold cfg_ok in Hcfg; lia).
  set (off := Z.to_nat (s_off * 512)) in *. set (nk := Z.to_nat (k * 512)).
  destruct (slice_contents (p_heap (x_pipe (im_xlate im))) (w_iovs w) off nk data)
    as (sl & Hsl & Hslc & Hslb & Hslin); [done|unfold off, nk; lia|].
  assert (Z.of_nat (SmartIov.bytes_of sl) = 512 * k) as Hb by (rewrite Hslb; unfold nk; lia).
  destruct (log_write_logged (im_wlog im) (p_heap (x_pipe (im_xlate im))) (cur / 512, sl))
    as (a & st1 & wl & req & _ & _ & Hlw & Hlg); [done| | |].
  { unfold WriteLog.write_ok. cbn [fst snd]. unfold VOL_LIMIT in Hoff. split; [lia|].
    split; [unfold nk in Hslb; lia|]. split; [lia|]. by rewrite Hslc. }
  { cbn [snd]. etrans; [apply (pages_of_chunk sl k)|]; try done; lia. }
  cbn [fst snd] in Hlw.
  assert (Pipeline.write_ok cfg (p_heap (x_pipe (im_xlate im))) (cur / 512) k sl (slice off nk data)) as Hwok.
  { split_and!; try done; try lia. intros c Hc. apply Hcl, Hslin, Hc. }
  destruct (write_inv cfg name (im_xlate im) D _ _ _ _ Hcfg Hi Hwok) as (p & Hp & Hi').
  assert (0 < t_batch_buf (p_current (x_pipe (im_xlate im)))) as Hbuf.
  { assert (p_current (x_pipe (im_xlate im)) ∈ pending (x_pipe (im_xlate im))) as Hin.
    { unfold pending. apply elem_of_app. right. by left. }
    pose proof (inv_current _ _ _ _ Hi) as Hop.
    pose proof (proj1 (Forall_forall _ _) (inv_pend _ _ _ _ Hi) _ Hin) as Hreq.
    unfold req_ok in Hreq. rewrite Hop in Hreq. destruct Hreq as [? _]. lia. }
  pose proof (writev_client cfg _ _ _ _ Hp Hbuf (inv_next _ _ _ _ Hi)) as Hmem.
  do 3 eexists. split.
  { exact (write_log_eq _ _ _ _ _ _ _ _ _ _ _ Hid Est Hsl Hlw). }
  split.
  { unfold write_xlate. cbn [with_log with_write with_wlog im_writes im_xlate]. rewrite lookup_insert_eq.
    cbn [mbind option_bind w_stage]. rewrite (Z.mul_comm _ 512), Hp. cbn [mbind option_bind]. reflexivity. }
  cbn [with_log with_write with_wlog with_xlate im_writes im_xlate im_wlog]. rewrite lookup_insert_eq.
  split; [done|]. split; [done|]. split; [done|]. split; [done|]. split; cbn [stage w_iovs w_offset]; try done.
  - apply (lg_ok _ _ _ _ _ _ Hlg).
  - unfold ring_size. cbn [with_log with_write with_wlog with_xlate im_wlog].
    rewrite (lg_super _ _ _ _ _ _ Hlg). exact Hring.
  - rewrite <- Hdata. apply read_cells_ext. intros c Hc. apply Hmem. by apply Hcl.
Qed.

Lemma write_loop_total todo : ∀ im D id lid w n data s,
  cfg_ok cfg → wlog_chunk_bytes cfg ≤ backend_obj_bytes cfg → loop_ok im D w n data →
  im_writes im !! id = Some w → w_stage w = WMaking todo None →
  Forall chunk_ok todo → 0 ≤ s → tiles (w_offset w) s n todo →
  ∃ im' w', write_loop cfg (Datatypes.S (length todo)) im id lid = Some im' ∧
    loop_ok im' (foldl (write_chunk data) D todo) w' n data ∧
    im_writes im' !! id = Some w' ∧ w_stage w' = WRunning (w_requests w') ∧
    w_requests w' = w_requests w ++ seqZ lid (Z.of_nat (length todo)).
Proof.
  induction todo as [|[[s_off k] cur] todo IH];
    intros im D id lid w n data s Hcfg HCB Hok Hid Est Hch Hs Ht.
  - cbn [length write_loop foldl]. unfold write_made. rewrite Hid. cbn [mbind option_bind]. rewrite Est.
    do 2 eexists. split; [done|]. cbn [with_write im_writes]. rewrite lookup_insert_eq.
    split; [|split; [done|]]; [by destruct Hok|]. cbn [stage w_requests w_stage].
    split; [done|]. by rewrite app_nil_r.
  - apply Forall_cons in Hch as [Hc Hch]. destruct Ht as (-> & Hk & Hle & -> & Ht).
    destruct (chunk_total im D id lid w n data s k (w_offset w + 512 * s) todo)
      as (im1 & im2 & w2 & Hl & Hx & Hid2 & Est2 & Hr2 & Ho2 & Hok2); try done; [apply chunk_at|].
    rewrite <- Ho2 in Ht.
    destruct (IH im2 _ id (lid + 1) w2 n data (s + k) Hcfg HCB Hok2 Hid2 Est2 Hch ltac:(lia) Ht)
      as (im' & w' & Hw' & Hok' & Hid' & Est' & Hr').
    exists im', w'. split.
    { cbn [length]. cbn [length] in Hw'. rewrite <- Hw'.
      change (write_loop cfg (Datatypes.S (Datatypes.S (length todo))) im id lid) with
        (match write_made im id with Some im => Some im | None =>
           im ← write_log im id lid; im ← write_xlate cfg im id;
           write_loop cfg (Datatypes.S (length todo)) im id (lid + 1) end).
      unfold write_made. rewrite Hid. cbn [mbind option_bind]. rewrite Est, Hl. cbn [mbind option_bind].
      by rewrite Hx. }
    split; [exact Hok'|]. split; [done|]. split; [done|]. rewrite Hr', Hr2, <- app_assoc. f_equal.
    cbn [length]. rewrite (seqZ_cons lid (Z.of_nat (Datatypes.S (length todo)))) by lia.
    replace (Z.pred (Z.of_nat (Datatypes.S (length todo)))) with (Z.of_nat (length todo)) by lia.
    replace (Z.succ lid) with (lid + 1) by lia. done.
Qed.

(** C10: a write whose thread runs alone does what it promises: with room in the log
    and no backpressure every chunk is logged and handed over without a fault, the
    loop ends, the log requests are consecutive, one per chunk, and reading gives
    what one write of all the data to the disk gives. *)
Theorem write_submit_total im D id lid w n data :
  cfg_ok cfg → uuid_ok uuid → 0 ≤ vol_bytes < 2 ^ 64 → image_reachable im D →
  wlog_chunk_bytes cfg mod 4096 = 0 → wlog_chunk_bytes cfg ≤ backend_obj_bytes cfg →
  wlog_chunk_bytes cfg / 4096 + 2 ≤ ring_size (im_wlog im) →
  im_writes im !! id = Some w → w_stage w = WNew →
  SmartIov.contents (p_heap (x_pipe (im_xlate im))) (w_iovs w) = Some data →
  (∀ c, c ∈ SmartIov.cells (w_iovs w) → c.1 ≤ 0) →
  Z.of_nat (length data) = 512 * n → n mod 8 = 0 →
  0 ≤ w_offset w / 512 ∧ w_offset w / 512 + n ≤ VOL_LIMIT →
  wc_total_write_pages (im_wlog im) + n ÷ 8 ≤ wc_max_write_pages (im_wlog im) →
  backpressure cfg (x_pipe (im_xlate im)) = false →
  ∃ im' w', write_submit cfg im id lid = Some im' ∧
    im_writes im' !! id = Some w' ∧ w_stage w' = WRunning (w_requests w') ∧
    w_requests w' = seqZ lid (Z.of_nat (length (chunks cfg (w_offset w) (512 * n)))) ∧
    (∀ x d, disk_write D (w_offset w / 512) n data x = Some d → read_sector name (im_xlate im') x = Some d) ∧
    log_ok (im_wlog im').
Proof.
  intros Hcfg Hu Hv Hr HC8 HCB Hring Hid Est Hdata Hcl Hlen Hn8 Hoff Hroom Hbp.
  pose proof (image_reachable_inv _ _ Hr) as Hii. pose proof (ii_log_ok _ _ Hii) as Hlog.
  apply image_reachable_layer, reachable_inv in Hr as [Hi _]; [|done..].
  assert (req_bytes w = 512 * n) as Hrb.
  { unfold req_bytes. pose proof (SmartIov.contents_length _ _ _ Hdata). lia. }
  destruct (ii_writes _ _ Hii id w Hid) as (_ & _ & _ & Hst). unfold stage_ok in Hst. rewrite Est in Hst.
  destruct Hst as (Hreq & _ & _).
  assert (512 * n / 512 = n) as Hdiv by (rewrite Z.mul_comm; by apply Z.div_mul).
  assert (0 < wlog_chunk_bytes cfg) as HC0 by (pose proof (Z.div_mod (wlog_chunk_bytes cfg) 512);
    pose proof (Z.mod_pos_bound (wlog_chunk_bytes cfg) 512); lia).
  assert (0 ≤ n) as Hn0 by lia.
  set (wl := with_total (im_wlog im) (wc_total_write_pages (im_wlog im) + n ÷ 8)).
  set (w1 := mk_write (w_offset w) (w_iovs w) (WMaking (chunks cfg (w_offset w) (512 * n)) None)
               (w_n_req w + div_round_up n (wlog_chunk_bytes cfg / 512)) (w_requests w) (w_cb w)).
  set (im1 := with_write (with_write (with_wlog im wl) id (stage w WReserved)) id w1).
  destruct (write_loop_total (chunks cfg (w_offset w) (512 * n)) im1 D id lid w1 n data 0)
    as (im' & w' & Hl & Hok & Hid' & Est' & Hr').
  - done.
  - done.
  - by split.
  - unfold im1. cbn [with_write im_writes]. apply lookup_insert_eq.
  - done.
  - apply chunk_loop_ok; [done|done|]. by rewrite Z.sub_0_r, Hdiv.
  - done.
  - rewrite <- Hdiv at 1. apply chunks_tiles; [lia|]. by rewrite Hdiv.
  - exists im', w'. split.
    { unfold write_submit. rewrite Hid. cbn [mbind option_bind]. unfold write_reserve. rewrite Hid.
      cbn [mbind option_bind]. rewrite Est, Hrb, Hdiv. unfold reserve_room.
      rewrite (proj2 (Z.ltb_ge _ _)) by lia. cbn [mbind option_bind]. fold wl.
      unfold write_begin. cbn [with_write with_wlog im_writes im_xlate]. rewrite lookup_insert_eq.
      cbn [mbind option_bind stage w_stage w_offset w_iovs w_n_req w_requests w_cb]. rewrite Hbp.
      change (req_bytes _) with (req_bytes w). rewrite Hrb, Hdiv. exact Hl. }
    split; [done|]. split; [done|]. split; [rewrite Hr'; cbn [w1 w_requests]; by rewrite Hreq|].
    split; [|apply (lo_log _ _ _ _ _ Hok)]. intros x d Hx.
    apply (inv_read cfg name _ _ _ _ (lo_inv _ _ _ _ _ Hok)). rewrite <- Hx.
    rewrite (tiles_write (w_offset w) n data _ 0); [by rewrite Z.add_0_r|done| |lia].
    rewrite <- Hdiv at 1. apply chunks_tiles; [lia|]. by rewrite Hdiv.
Qed.

(** A write without bytes has no chunks, and its callback never runs. *)
Theorem empty_write_never_completes im D id w :
  image_reachable im D → im_writes im !! id = Some w → req_bytes w = 0 → w_cb w = [].
Proof.
  intros Hi%image_reachable_inv Hw Hz. destruct (ii_writes _ _ Hi id w Hw) as (_ & _ & _ & Hst).
  unfold stage_ok in Hst. destruct (w_stage w) as [| |todo pending|unrun].
  - by destruct Hst as (_ & _ & ?).
  - by destruct Hst as (_ & _ & ?).
  - by destruct Hst as (? & _).
  - destruct Hst as (_ & [[? _]|(_ & Hne & _)] & HF & _); [done|]. rewrite Hz in HF.
    unfold chunks in HF. change (0 / 512) with 0 in HF. simpl in HF. inversion HF. congruence.
Qed.
End image.

(** ** An image with one write *)

(** The image of Refine with a log of 2000 pages, and one write of its client's
    page. *)
Definition demo_image : image objmap bufmap (gmap string bytes) unit :=
  mk_image (demo_ring 5 2000 22 0) [] demo_state ∅ ∅ [] [].
Definition demo_image_write := image_write demo_image 1 4096 demo_iov.

Notation demo_image_reachable := (image_reachable demo_insert demo_crc32 get_default "vol" demo_uuid (2 ^ 30)).

Lemma demo_idle : idle demo_image.
Proof.
  unfold idle, demo_image. cbn [im_writes im_log im_stored im_failed im_wlog].
  repeat (split; [reflexivity|]). split; [vm_compute; discriminate|]. repeat split; vm_compute; done.
Qed.

Lemma demo_write_start iovs off :
  Z.of_nat (SmartIov.bytes_of iovs) / 512 + wlog_chunk_bytes get_default / 512 < 2 ^ 31 →
  demo_image_reachable (image_write demo_image 1 off iovs) (read_sector "vol" demo_state).
Proof.
  intros Hs. exists demo_image. split; [exact demo_idle|]. split; [exact demo_opened|].
  apply rtc_once, is_request. apply rs_write; [apply lookup_empty|exact Hs].
Qed.

Lemma default_chunk : 0 < wlog_chunk_bytes get_default / 512 < 2 ^ 31.
Proof. vm_compute. done. Qed.


(** The write when it is in the log and in the translation layer. *)
Definition demo_made (wl : wcache) (x : xstate) (req : wcache_write_req) : image objmap bufmap (gmap string bytes) unit :=
  mk_image wl [] x {[1 := mk_write 4096 demo_iov (WMaking [] None) 1 [10] []]}
    {[10 := mk_log req 1 1 [] false false]} [] [].

(** Its write to the log file fails; the log request reports to the write. *)
Definition demo_acked (wl : wcache) (x : xstate) (req : wcache_write_req) : image objmap bufmap (gmap string bytes) unit :=
  mk_image (fst (release_room wl 8)) [] x {[1 := mk_write 4096 demo_iov (WRunning []) 0 [10] [0]]}
    {[10 := mk_log req 1 0 [] true false]} [] [wr_data req].

Lemma demo_request im im' D :
  demo_image_reachable im D → request_step get_default im im' → demo_image_reachable im' D.
Proof.
  intros (im0 & ? & ? & Hr) Hs. exists im0. split; [done|]. split; [done|]. eapply rtc_r; [exact Hr|].
  by apply is_request.
Qed.

Lemma demo_run wl x req D :
  wr_pad req = None → (0 < length (wr_data req).2)%nat →
  demo_image_reachable (demo_made wl x req) D → demo_image_reachable (demo_acked wl x req) D.
Proof.
  destruct req as [sq hdrs pad [pg dat]]. cbn [wr_pad wr_data snd]. intros -> Hd Hr.
  set (req := mk_wcache_write_req sq hdrs None (pg, dat)) in *.
  set (w n st cb := mk_write 4096 demo_iov st n [10] cb).
  set (im ws ls f := mk_image wl [] x {[1 := ws]} {[10 := ls]} [] f : image objmap bufmap (gmap string bytes) unit).
  assert (demo_image_reachable (im (w 1 (WRunning [10]) []) (mk_log req 1 1 [] false false) []) D) as H1.
  { apply (demo_request _ _ _ Hr). apply (rs_made _ _ 1). reflexivity. }
  assert (demo_image_reachable (im (w 1 (WRunning []) []) (mk_log req 1 1 [(pg, dat)] false false) []) D) as H2.
  { apply (demo_request _ _ _ H1). apply (rs_run _ _ 1). reflexivity. }
  assert (demo_image_reachable (im (w 1 (WRunning []) []) (mk_log req 1 0 [] false false) [(pg, dat)]) D) as H3.
  { apply (demo_request _ _ _ H2). apply (rs_nvme _ _ 10 0 0). unfold nvme_done.
    cbn [im im_log]. rewrite lookup_singleton_eq. cbn [mbind option_bind l_open lookup list_lookup snd].
    rewrite (proj2 (Nat.leb_gt _ _)) by done. reflexivity. }
  apply (demo_request _ _ _ H3). apply (rs_notify _ _ 10). reflexivity.
Qed.

Lemma log_write_no_pad st h w :
  log_ok st → WriteLog.write_ok h w → pages_of w.2 ≤ jw_limit (wc_super st) - wc_next_alloc st →
  ∃ st' r, log_write st h w.1 w.2 = Some (st', r) ∧ wr_pad r = None ∧ (0 < length (wr_data r).2)%nat ∧
    span (described (wr_hdrs r)) = pages_of w.2.
Proof.
  intros Hok Hw Hfit. pose proof Hw as (_ & Hb0 & Hb31 & _).
  destruct (log_write_fits st h w Hok Hw Hfit) as (a & st1 & st' & r & Ha & _ & Hl & Hlg).
  exists st', r. split; [done|]. rewrite allocate_fits in Ha; [|apply Hok|destruct (pages_of_spec w.2 Hb0 Hb31); lia].
  pose proof (lg_described _ _ _ _ _ _ Hlg) as Hd. pose proof (lg_images _ _ _ _ _ _ Hlg) as Hi.
  injection Ha as _ <-. unfold alloc_ranges, pad_ranges in Hd. cbn [al_pad] in Hd.
  change (0 =? 0) with true in Hd. rewrite assoc by apply _. split; [|rewrite Hd; unfold span; simpl; lia].
  apply (f_equal length) in Hd. unfold described in Hd.
  rewrite length_fmap in Hd. rewrite <- (Forall2_length _ _ _ Hi) in Hd. unfold req_writes in Hd.
  rewrite length_app in Hd. split; [destruct (wr_pad r); simpl in Hd; [lia|done]|].
  unfold req_writes in Hi. apply Forall2_app_inv_l in Hi as (h1 & h2 & _ & Hi & _).
  inversion Hi as [|? hd ? ? (_ & _ & _ & Hlen)]; subst. lia.
Qed.

Lemma demo_log_write h :
  SmartIov.contents h demo_iov = Some (replicate 4096 7) →
  ∃ wl req, log_write (with_total (demo_ring 5 2000 22 0) 1) h 8 demo_iov = Some (wl, req) ∧
    wr_pad req = None ∧ (0 < length (wr_data req).2)%nat ∧ span (described (wr_hdrs req)) = pages_of demo_iov.
Proof.
  intros Hc. apply (log_write_no_pad _ h (8, demo_iov)).
  - repeat split; vm_compute; done.
  - unfold WriteLog.write_ok. cbn [fst snd]. split; [lia|].
    split; [apply Nat.ltb_lt; reflexivity|]. split; [reflexivity|].
    exists (replicate 4096 7). exact Hc.
  - vm_compute. discriminate.
Qed.

Lemma demo_slice :
  SmartIov.iov_slice demo_iov (Z.to_nat (0 * 512)) (Z.to_nat (0 * 512) + Z.to_nat (8 * 512)) = Some demo_iov.
Proof. vm_compute. reflexivity. Qed.

Lemma demo_sectors_of st n lids cb : req_bytes (mk_write 4096 demo_iov st n lids cb) / 512 = 8.
Proof. vm_compute. reflexivity. Qed.

Lemma demo_chunks_of st n lids cb :
  chunks get_default 4096 (req_bytes (mk_write 4096 demo_iov st n lids cb)) = [(0, 8, 4096)].
Proof. vm_compute. reflexivity. Qed.

Lemma demo_div : div_round_up 8 (wlog_chunk_bytes get_default / 512) = 1.
Proof. vm_compute. reflexivity. Qed.

(** The write with room in the log and its chunk to do; with the chunk in the log. *)
Definition demo_begun (x : xstate) : image objmap bufmap (gmap string bytes) unit :=
  mk_image (with_total (demo_ring 5 2000 22 0) 1) [] x
    {[1 := mk_write 4096 demo_iov (WMaking [(0, 8, 4096)] None) 1 [] []]} ∅ [] [].
Definition demo_appended (wl : wcache) (x : xstate) (req : wcache_write_req) : image objmap bufmap (gmap string bytes) unit :=
  mk_image wl [] x {[1 := mk_write 4096 demo_iov (WMaking [] (Some (8, demo_iov))) 1 [10] []]}
    {[10 := mk_log req 1 1 [] false false]} [] [].

Lemma demo_begin x0 D0 :
  backpressure get_default (x_pipe x0) = false →
  demo_image_reachable (image_write (mk_image (demo_ring 5 2000 22 0) [] x0 ∅ ∅ [] []) 1 4096 demo_iov) D0 →
  demo_image_reachable (demo_begun x0) D0.
Proof.
  intros Hbp H0.
  set (im := mk_image (with_total (demo_ring 5 2000 22 0) 1) [] x0 {[1 := mk_write 4096 demo_iov WReserved 0 [] []]} ∅ [] []
        : image objmap bufmap (gmap string bytes) unit).
  assert (demo_image_reachable im D0) as H1.
  { apply (demo_request _ _ _ H0). apply (rs_reserve _ _ 1). unfold write_reserve, image_write.
    cbn [with_write im_writes im_wlog]. rewrite lookup_insert_eq. cbn [mbind option_bind w_stage].
    rewrite demo_sectors_of. reflexivity. }
  apply (demo_request _ _ _ H1). apply (rs_begin _ _ 1). unfold write_begin.
  cbn [im im_writes im_xlate]. rewrite lookup_singleton_eq. cbn [mbind option_bind w_stage]. rewrite Hbp.
  cbn [w_offset w_iovs w_n_req w_requests w_cb]. rewrite demo_sectors_of, demo_chunks_of, demo_div. reflexivity.
Qed.

Lemma demo_takes x0 :
  SmartIov.contents (p_heap (x_pipe x0)) demo_iov = Some (replicate 4096 7) → log_takes (demo_begun x0) 1.
Proof.
  intros Hd. exists (mk_write 4096 demo_iov (WMaking [(0, 8, 4096)] None) 1 [] []), 0, 8, 4096, [], demo_iov.
  split; [apply lookup_singleton_eq|]. split; [reflexivity|]. split; [exact demo_slice|].
  change (4096 / 512) with 8. split; [|vm_compute; discriminate]. unfold WriteLog.write_ok. cbn [fst snd].
  split; [lia|]. split; [apply Nat.ltb_lt; reflexivity|]. split; [reflexivity|]. by exists (replicate 4096 7).
Qed.

Lemma demo_append x0 wl req :
  log_write (with_total (demo_ring 5 2000 22 0) 1) (p_heap (x_pipe x0)) 8 demo_iov = Some (wl, req) →
  wr_pad req = None → write_log (demo_begun x0) 1 10 = Some (demo_appended wl x0 req).
Proof.
  intros Hlw Hpad. assert (log_writes_of req = [wr_data req]) as Hws by (unfold log_writes_of; by rewrite Hpad).
  rewrite (write_log_eq (demo_begun x0) 1 10 _ 0 8 4096 [] demo_iov wl req (lookup_singleton_eq _ _) eq_refl
             demo_slice Hlw), Hws. reflexivity.
Qed.

Lemma demo_xlate x0 D0 p wl req :
  Pipeline.write_ok get_default (p_heap (x_pipe x0)) 8 8 demo_iov (replicate 4096 7) →
  writev get_default (x_pipe x0) (512 * 8) demo_iov = Some p →
  image_step demo_insert demo_crc32 get_default "vol" demo_uuid (2 ^ 30)
    (demo_appended wl x0 req, D0) (demo_made wl (with_pipe x0 p) req, disk_write D0 8 8 (replicate 4096 7)).
Proof.
  intros Hok Hp. eapply is_xlate with (id := 1) (todo := []) (iov := demo_iov); [reflexivity|reflexivity|exact Hok|].
  unfold write_xlate. cbn [demo_appended im_writes im_xlate]. rewrite lookup_singleton_eq. cbn [mbind option_bind w_stage].
  rewrite (Z.mul_comm 8), Hp. reflexivity.
Qed.

Lemma demo_submit x0 D0 p wl req :
  Pipeline.write_ok get_default (p_heap (x_pipe x0)) 8 8 demo_iov (replicate 4096 7) →
  backpressure get_default (x_pipe x0) = false →
  writev get_default (x_pipe x0) (512 * 8) demo_iov = Some p →
  log_write (with_total (demo_ring 5 2000 22 0) 1) (p_heap (x_pipe x0)) 8 demo_iov = Some (wl, req) →
  wr_pad req = None →
  demo_image_reachable (image_write (mk_image (demo_ring 5 2000 22 0) [] x0 ∅ ∅ [] []) 1 4096 demo_iov) D0 →
  demo_image_reachable (demo_made wl (with_pipe x0 p) req) (disk_write D0 8 8 (replicate 4096 7)).
Proof.
  intros Hok Hbp Hp Hlw Hpad H0. pose proof (demo_begin _ _ Hbp H0) as H1.
  assert (demo_image_reachable (demo_appended wl x0 req) D0) as H2.
  { apply (demo_request _ _ _ H1). apply (rs_log _ _ 1 10); [reflexivity|apply demo_takes, Hok|by apply demo_append]. }
  destruct H2 as (im0 & ? & ? & Hr). exists im0. split; [done|]. split; [done|]. eapply rtc_r; [exact Hr|].
  by apply demo_xlate.
Qed.

Lemma demo_acknowledged : ∃ wl x req D, demo_image_reachable (demo_acked wl x req) D.
Proof.
  pose proof demo_write_ok as (_ & _ & _ & _ & _ & Hc & _).
  destruct (demo_log_write _ Hc) as (wl & req & Hlw & Hpad & Hlen & _). destruct demo_written as (p & Hp & _).
  pose proof (demo_write_start demo_iov 4096 ltac:(vm_compute; reflexivity)) as H0.
  pose proof (demo_submit demo_state _ p wl req demo_write_ok eq_refl Hp Hlw Hpad H0) as H1.
  pose proof (demo_run wl _ req _ Hpad Hlen H1) as H2.
  exists wl, (with_pipe demo_state p), req, (disk_write (read_sector "vol" demo_state) 8 8 (replicate 4096 7)). exact H2.
Qed.

Lemma write_room_exact_witness :
  ∃ im : image objmap bufmap (gmap string bytes) unit, wc_total_write_pages (im_wlog im) = msum room_of (im_writes im) ∧
    wc_outstanding_writes (im_wlog im) = msum count_open (im_log im) ∧
    im_writes im !! 1 = Some (mk_write 4096 demo_iov (WRunning []) 0 [10] [0]).
Proof.
  destruct demo_acknowledged as (wl & x & req & D & HD). exists (demo_acked wl x req).
  destruct (write_room_exact demo_insert demo_crc32 get_default "vol" demo_uuid (2 ^ 30) default_chunk _ D HD)
    as (Ht & _ & Ho & _). split; [exact Ht|]. split; [exact Ho|reflexivity].
Defined.

Lemma write_acknowledged_witness :
  ∃ (im : image objmap bufmap (gmap string bytes) unit) w, im_writes im !! 1 = Some w ∧ w_cb w = [0] ∧
    ∀ lid, lid ∈ w_requests w → ∃ l, im_log im !! lid = Some l ∧
      ∀ y, y ∈ log_writes_of (l_req l) → y ∈ im_stored im ∨ y ∈ im_failed im.
Proof.
  destruct demo_acknowledged as (wl & x & req & D & HD).
  exists (demo_acked wl x req), (mk_write 4096 demo_iov (WRunning []) 0 [10] [0]).
  destruct (write_acknowledged demo_insert demo_crc32 get_default "vol" demo_uuid (2 ^ 30) default_chunk _ D 1 _ HD
              eq_refl) as [Hcb|(Hcb & _ & _ & _ & Hl)]; [discriminate Hcb|].
  split; [reflexivity|]. split; [exact Hcb|exact Hl].
Defined.

Lemma image_refines_disk_witness :
  ∃ h calls, image_read "vol" (im_xlate demo_image_write) demo_iov 0 = Some (h, calls) ∧
    ∃ h', serve_all (rados_obj demo_store) h calls = Some h' ∧
      SmartIov.contents h' demo_iov = Some (replicate 4096 5).
Proof.
  destruct (image_refines_disk demo_insert demo_crc32 get_default "vol" demo_uuid (2 ^ 30) demo_image_write
              (read_sector "vol" demo_state) demo_iov 0 8 (replicate 4096 5)) as (h & calls & Hr & _ & Hs).
  - exact demo_cfg_ok.
  - exact (proj1 demo_params).
  - exact (proj2 demo_params).
  - apply demo_write_start. vm_compute. reflexivity.
  - exact demo_client.
  - apply length_replicate.
  - intros x Hx. change (0 / 512) with 0 in *. rewrite demo_sectors by lia. f_equal.
    unfold slice. rewrite drop_replicate, take_replicate. f_equal. lia.
  - exists h, calls. split; [exact Hr|]. destruct (Hs calls (reflexivity _)) as (h' & Hs' & Hc & _).
    exists h'. by split.
Defined.

Definition demo_write_request : write_request := mk_write 4096 demo_iov WNew 0 [] [].

Lemma write_submit_total_witness :
  ∃ im' w', write_submit get_default demo_image_write 1 10 = Some im' ∧
    im_writes im' !! 1 = Some w' ∧ w_requests w' = [10] ∧
    read_sector "vol" (im_xlate im') 8 = Some (replicate 512 7).
Proof.
  destruct (write_submit_total demo_insert demo_crc32 get_default "vol" demo_uuid (2 ^ 30) default_chunk
              demo_image_write (read_sector "vol" demo_state) 1 10 demo_write_request 8 (replicate 4096 7))
    as (im' & w' & Hs & Hw & _ & Hr & Hd & _).
  - exact demo_cfg_ok.
  - exact (proj1 demo_params).
  - exact (proj2 demo_params).
  - apply demo_write_start. vm_compute. reflexivity.
  - vm_compute. reflexivity.
  - vm_compute. discriminate.
  - change (im_wlog demo_image_write) with (demo_ring 5 2000 22 0). vm_compute. discriminate.
  - apply lookup_insert_eq.
  - reflexivity.
  - change (w_iovs demo_write_request) with demo_iov. apply demo_write_ok.
  - change (w_iovs demo_write_request) with demo_iov. apply demo_write_ok.
  - rewrite length_replicate. vm_compute. reflexivity.
  - reflexivity.
  - vm_compute. split; discriminate.
  - change (im_wlog demo_image_write) with (demo_ring 5 2000 22 0). vm_compute. discriminate.
  - reflexivity.
  - exists im', w'. split; [exact Hs|]. split; [exact Hw|]. split; [exact Hr|].
    apply Hd. reflexivity.
Defined.

Lemma empty_write_never_completes_witness :
  ∃ w, im_writes (image_write demo_image 1 4096 []) !! 1 = Some w ∧ w_cb w = [].
Proof.
  exists (mk_write 4096 [] WNew 0 [] []). split; [apply lookup_insert_eq|].
  apply (empty_write_never_completes demo_insert demo_crc32 get_default "vol" demo_uuid (2 ^ 30) default_chunk
           (image_write demo_image 1 4096 []) (read_sector "vol" demo_state) 1).
  - apply demo_write_start. vm_compute. reflexivity.
  - apply lookup_insert_eq.
  - reflexivity.
Defined.
