(* ===== verification/Durable.v ===== *)
(** * Acknowledged writes are in the log file

    What the requests of an image do to the file of the write log: the log
    requests are a run of the log, the writes that succeed reach the file, and a
    write that has been acknowledged without a failure of the nvme layer can be
    read back from the file, header, extent and data, as long as the log has not
    gone around its ring. *)

From stdpp Require Import relations.
From S2P Require Import Prelude Bytes Extent ExtMapSpec Memory SmartIov LsvdTypes Backend Objects Config.
From S2P Require Import Translate Accounting Pipeline Refine Journal WriteCache WriteRing WriteLog.
From S2P Require Import ImageRead ImageWrite ImageInv ImageRefine.

(** ** Files *)

Lemma apply_writes_snoc dev ws w :
  apply_writes dev (ws ++ [w]) = dev_write (apply_writes dev ws) (wr_start w) w.2.
Proof. unfold apply_writes. by rewrite foldl_app. Qed.

(** A write of the file that nothing else overlaps *)
Lemma apply_writes_member dev ws w :
  w ∈ ws → (∀ w', w' ∈ ws → w' = w ∨ apart_writes w w') →
  slice (wr_start w) (length w.2) (apply_writes dev ws) = w.2 ∧
  (wr_stop w ≤ length (apply_writes dev ws))%nat.
Proof.
  induction ws as [|x ws IH] using rev_ind; intros Hin Hap; [by apply elem_of_nil in Hin|].
  rewrite apply_writes_snoc.
  assert (x = w ∨ apart_writes w x ∧ w ∈ ws) as [->|[Ha Hw]].
  { destruct (Hap x) as [|Ha]; [set_solver|by left|].
    apply elem_of_app in Hin as [Hin|Hin%list_elem_of_singleton]; [by right|by left]. }
  - split; [apply dev_write_same|]. rewrite length_dev_write. unfold wr_stop. lia.
  - destruct IH as [Hs Hb]; [done|set_solver|]. rewrite length_dev_write. split; [|lia].
    unfold apart_writes, wr_stop in *. rewrite dev_write_other by lia. exact Hs.
Qed.

(** The file writes of a run that has not gone around the ring *)
Lemma run_apart st st' ws rs :
  logged_run st st' ws rs → log_ok st → span (described (headers rs)) ≤ ring_size st →
  ∀ w w', w ∈ writes rs → w' ∈ writes rs → w' = w ∨ apart_writes w w'.
Proof.
  intros Hrun Hok Hspan w w' Hw Hw'.
  destruct (logged_run_ok _ _ _ _ Hrun Hok) as (_ & _ & Hsz & [sta Ha] & _ & Himg & _).
  destruct (ring_ranges _ _ _ _ (proj1 Hok) Hsz Ha Hspan) as [Hdis Hrange].
  apply list_elem_of_lookup_1 in Hw as [i Hi], Hw' as [j Hj].
  destruct (decide (i = j)) as [->|Hne]; [left; congruence|right].
  apply (images_apart _ _ Himg Hdis) with (i := i) (j := j); [|done..].
  intros k r Hk. destruct (Hrange k r Hk) as [? _]. destruct Hok as [[? _] _]. lia.
Qed.

Lemma req_writes_log r : log_writes_of r = req_writes r.
Proof. unfold log_writes_of, req_writes. by destruct (wr_pad r). Qed.

Lemma elem_of_writes x r rs : r ∈ rs → x ∈ req_writes r → x ∈ writes rs.
Proof. intros Hr Hx. apply list_elem_of_join. exists (req_writes r). split; [done|]. by apply list_elem_of_fmap_2. Qed.

Lemma logged_run_same st st' st1 ws rs :
  logged_run st st' ws rs → same_log st' st1 → logged_run st st1 ws rs.
Proof.
  induction 1 as [st st' (E1 & E2 & E3 & E4)|]; intros Hs.
  - apply run_nil. destruct Hs as (F1 & F2 & F3 & F4). repeat split; congruence.
  - eapply run_cons; eauto.
Qed.

(** The record of a write is in the file at [page]: the header, the extent for
    [lba] and the data. *)
Definition record_at (file : bytes) (page lba : Z) (data : bytes) : Prop :=
  let o := (4096 * Z.to_nat page)%nat in
  ∃ j : j_hdr, load_at o file = Some j ∧ jh_magic j = LSVD_MAGIC ∧ jh_type j = LSVD_J_DATA ∧
    jh_extent_offset j = 40 ∧ jh_extent_len j = 8 ∧
    slice (o + 40) 8 file = enc (mk_j_extent lba (Z.of_nat (length data) / 512)) ∧
    slice (o + 4096) (length data) file = data.

Lemma chained_magic prev sq hs : chained prev sq hs → Forall (λ h, jh_magic h.2 = LSVD_MAGIC) hs.
Proof.
  revert prev sq. induction hs as [|[p j] hs IH]; intros prev sq Hc; [constructor|].
  destruct Hc as (Hm & _ & _ & _ & Hc). constructor; [done|]. by eapply IH.
Qed.

(** A request of the log whose data is in the file *)
Lemma logged_record h w st a st' r file :
  logged h w st a st' r →
  slice (wr_start (wr_data r)) (length (wr_data r).2) file = (wr_data r).2 →
  (wr_stop (wr_data r) ≤ length file)%nat →
  ∃ data, SmartIov.contents h w.2 = Some data ∧ record_at file (wr_data r).1 w.1 data.
Proof.
  intros Hlg Hs Hb. destruct (lg_record _ _ _ _ _ _ Hlg) as (j & data & Hlast & Hd & Hrec & _).
  exists data. split; [done|]. pose proof (lg_images _ _ _ _ _ _ Hlg) as Himg.
  pose proof (chained_magic _ _ _ (lg_chain _ _ _ _ _ _ Hlg [] I)) as Hmg. rewrite app_nil_r in Hmg.
  apply last_Some in Hlast as [hs Hhs]. rewrite Hhs in Himg, Hmg. unfold req_writes in Himg.
  apply Forall2_app_inv in Himg as [_ Himg];
    [|apply Forall2_length in Himg; rewrite !length_app in Himg; simpl in *; lia].
  apply Forall2_cons in Himg as [Himg _]. apply Forall_app in Hmg as [_ [Hmg _]%Forall_cons].
  exists j. split; [by apply (image_load file (wr_data r) ((wr_data r).1, j))|].
  destruct Hrec as (Ht & He & Hel & Hx & Hdrop). destruct Himg as (_ & _ & _ & Hlen).
  assert (∀ o n, (o + n ≤ length (wr_data r).2)%nat →
    slice (wr_start (wr_data r) + o) n file = slice o n (wr_data r).2) as Hsub.
  { intros o n Ho. transitivity (slice o n (slice (wr_start (wr_data r)) (length (wr_data r).2) file));
      [symmetry; by apply slice_slice|by rewrite Hs]. }
  split_and!; try done.
  - rewrite <- Hx. by apply Hsub; lia.
  - rewrite <- Hdrop at 2. rewrite <- Hdrop, length_drop. rewrite Hsub by lia.
    unfold slice. apply take_ge. by rewrite length_drop.
Qed.

(** ** Steps *)

Section image.
Context {S : Type} {HS : Rados S} {HSok : RadosOk S}.
Context {RC : Type}.
Variable insert_object : RC → string → Z → bytes → RC.
Variable crc32 : bytes → Z.
Variable cfg : lsvd_config.
Variables (name : string) (uuid : bytes) (vol_bytes : Z).
Notation image := (image objmap bufmap S RC).
Notation image_step := (image_step insert_object crc32 cfg name uuid vol_bytes).
Notation image_reachable := (image_reachable insert_object crc32 cfg name uuid vol_bytes).
Implicit Types (im : image) (D : disk) (w : write_request) (l : log_request).

(** The requests that the log has made, and their pages. *)
Definition log_reqs im : gmap Z wcache_write_req := l_req <$> im_log im.
Definition log_pages (r : wcache_write_req) : Z := span (described (wr_hdrs r)).

Definition opens_ok im : Prop := ∀ lid l, im_log im !! lid = Some l → l_open l ⊆ log_writes_of (l_req l).

Record durable im0 im : Prop := mk_durable {
  du_opens : opens_ok im;
  du_dev : im_failed im = [] → im_dev im = apply_writes (im_dev im0) (im_stored im);
  du_run : ∃ ws rs, logged_run (im_wlog im0) (im_wlog im) ws rs ∧
    (∀ lid r, log_reqs im !! lid = Some r → r ∈ rs) ∧
    span (described (headers rs)) = msum log_pages (log_reqs im) ∧ im_stored im ⊆ writes rs;
}.

(** A step that leaves the file, its requests and the allocator alone. *)
Record quiet im im' : Prop := mk_quiet {
  qu_log : same_log (im_wlog im) (im_wlog im');
  qu_dev : im_dev im' = im_dev im;
  qu_stored : im_stored im' = im_stored im;
  qu_failed : im_failed im' = im_failed im;
  qu_reqs : log_reqs im' = log_reqs im;
  qu_opens : opens_ok im → opens_ok im';
}.

Lemma quiet_durable im0 im im' : durable im0 im → quiet im im' → durable im0 im'.
Proof.
  intros [Ho Hd (ws & rs & Hrun & Hin & Hsp & Hst)] [Hl Ed Es Ef Er Hq]. split; [auto| |].
  - rewrite Ef, Ed, Es. exact Hd.
  - exists ws, rs. rewrite Er, Es. split; [by apply (logged_run_same _ (im_wlog im))|done].
Qed.

Lemma same_log_refl (st : wcache) : same_log st st.
Proof. done. Qed.

(** The same log requests, in the same or a later place *)
Lemma quiet_same im im' :
  same_log (im_wlog im) (im_wlog im') → im_dev im' = im_dev im → im_stored im' = im_stored im →
  im_failed im' = im_failed im → im_log im' = im_log im → quiet im im'.
Proof. intros ? ? ? ? El. split; try done; unfold log_reqs, opens_ok; by rewrite El. Qed.

Lemma log_reqs_update im lid l l' (log : gmap Z log_request) :
  im_log im !! lid = Some l → l_req l' = l_req l → log = <[lid := l']> (im_log im) →
  l_req <$> log = log_reqs im.
Proof.
  intros Hl Hr ->. unfold log_reqs. rewrite fmap_insert, Hr. apply insert_id. by rewrite lookup_fmap, Hl.
Qed.

Lemma quiet_update im im' lid l l' :
  same_log (im_wlog im) (im_wlog im') → im_dev im' = im_dev im → im_stored im' = im_stored im →
  im_failed im' = im_failed im → im_log im !! lid = Some l → im_log im' = <[lid := l']> (im_log im) →
  l_req l' = l_req l → l_open l' = l_open l ∨ l_open l' = log_writes_of (l_req l) → quiet im im'.
Proof.
  intros Hw Ed Es Ef Hl Hl' Hr Ho. split; [done|done|done|done|by eapply log_reqs_update|].
  intros Hop k l1. rewrite Hl'. destruct (decide (k = lid)) as [->|Hne].
  - rewrite lookup_insert_eq. intros [= <-]. rewrite Hr. destruct Ho as [->| ->]; [by apply (Hop lid)|done].
  - rewrite lookup_insert_ne by done. apply Hop.
Qed.

Lemma headers_snoc rs r : headers (rs ++ [r]) = headers rs ++ wr_hdrs r.
Proof. unfold headers. rewrite fmap_app, join_app. simpl. by rewrite app_nil_r. Qed.

Lemma writes_snoc rs r : writes (rs ++ [r]) = writes rs ++ req_writes r.
Proof. unfold writes. rewrite fmap_app, join_app. simpl. by rewrite app_nil_r. Qed.

Lemma durable_log im0 im id lid im' :
  durable im0 im → im_log im !! lid = None → log_takes im id → write_log im id lid = Some im' →
  durable im0 im'.
Proof.
  intros [Ho Hd (ws & rs & Hrun & Hin & Hsp & Hst)] Hlid
    (w & s_off & k & cur & todo & iov & Hw & Est & Hsl & Hok & Hpg) Hs.
  unfold write_log in Hs. rewrite Hw in Hs. cbn [mbind option_bind] in Hs. rewrite Est, Hsl in Hs.
  cbn [mbind option_bind] in Hs. apply bind_Some in Hs as ([wl req] & Hlw & [= <-]).
  split; cbn [with_log with_write with_wlog im_dev im_stored im_failed im_wlog]; [|done|].
  - intros i l. cbn [with_log with_write with_wlog im_log]. destruct (decide (i = lid)) as [->|Hne].
    + rewrite lookup_insert_eq. intros [= <-]. set_solver.
    + rewrite lookup_insert_ne by done. apply Ho.
  - exists (ws ++ [(p_heap (x_pipe (im_xlate im)), (cur / 512, iov))]), (rs ++ [req]).
    unfold log_reqs. cbn [with_log with_write with_wlog im_log]. rewrite fmap_insert. cbn [l_req].
    rewrite headers_snoc, writes_snoc, described_app, span_app. split_and!.
    + by apply (logged_run_snoc _ (im_wlog im) _ _ (im_wlog im)).
    + intros i r. destruct (decide (i = lid)) as [->|Hne].
      * rewrite lookup_insert_eq. intros [= <-]. set_solver.
      * rewrite lookup_insert_ne by done. intros Hi%Hin. set_solver.
    + rewrite msum_new by (by rewrite lookup_fmap, Hlid). fold (log_reqs im).
      unfold log_pages at 1. lia.
    + set_solver.
Qed.

Lemma run_long st st' ws rs x : logged_run st st' ws rs → log_ok st → x ∈ writes rs → (0 < length x.2)%nat.
Proof.
  intros Hrun Hok Hx. destruct (logged_run_ok _ _ _ _ Hrun Hok) as (_ & _ & _ & _ & _ & Himg & _).
  apply list_elem_of_lookup_1 in Hx as [i Hi].
  destruct (Forall2_lookup_l _ _ _ _ _ Himg Hi) as (hd & _ & _ & _ & _ & Hl). lia.
Qed.

Lemma durable_nvme im0 im lid i n im' :
  log_ok (im_wlog im0) → durable im0 im → nvme_done im lid i n = Some im' → durable im0 im'.
Proof.
  intros Hlok [Ho Hd (ws & rs & Hrun & Hin & Hsp & Hst)] Hs. unfold nvme_done in Hs.
  apply bind_Some in Hs as (l & Hl & (x & Hx & [= <-])%bind_Some).
  pose proof (Ho lid l Hl) as Hop. assert (x ∈ writes rs) as Hxw.
  { apply (elem_of_writes x (l_req l)); [apply (Hin lid); unfold log_reqs; by rewrite lookup_fmap, Hl|].
    rewrite <- req_writes_log. apply Hop. by eapply list_elem_of_lookup_2. }
  split; cbn [im_dev im_stored im_failed im_wlog].
  - intros k l1. cbn [im_log]. destruct (decide (k = lid)) as [->|Hne].
    + rewrite lookup_insert_eq. intros [= <-]. cbn [l_open l_req]. intros y Hy. apply Hop.
      rewrite delete_take_drop in Hy. apply elem_of_app in Hy as [Hy|Hy];
        [by eapply elem_of_take in Hy as (? & ? & ?); eapply list_elem_of_lookup_2|].
      rewrite <- (take_drop (Datatypes.S i) (l_open l)). apply elem_of_app. by right.
    + rewrite lookup_insert_ne by done. apply Ho.
  - destruct (length x.2 <=? n)%nat eqn:E; intros Hf; [|by apply app_nil in Hf as [_ ?]].
    apply Nat.leb_le in E. rewrite apply_writes_snoc, <- Hd by done. unfold wr_start.
    pose proof (run_long _ _ _ _ x Hrun Hlok Hxw) as Hlen.
    rewrite (proj2 (Nat.eqb_neq n 0)) by (unfold nvme_write in *; lia). by rewrite take_ge by (unfold nvme_write in *; lia).
  - exists ws, rs. unfold log_reqs in *. cbn [im_log]. rewrite fmap_insert. cbn [l_req].
    rewrite insert_id by (by rewrite lookup_fmap, Hl). split_and!; [done|done|done|].
    case_match; set_solver.
Qed.

Lemma write_notify_quiet im0 im id im' :
  write_notify im id = Some im' → quiet im0 im → quiet im0 im'.
Proof.
  intros Hs [(E1 & E2 & E3 & E4) Ed Es Ef Er Hq]. unfold write_notify in Hs.
  apply bind_Some in Hs as (w & _ & Hs). destruct (1 <? w_n_req w).
  - injection Hs as <-. by split.
  - unfold release_room in Hs. injection Hs as <-. by split.
Qed.

(** What a step does to the log. *)
Inductive effect im im' : Prop :=
| eff_quiet : quiet im im' → effect im im'
| eff_log id lid :
    im_log im !! lid = None → log_takes im id → write_log im id lid = Some im' → effect im im'
| eff_nvme lid i n : nvme_done im lid i n = Some im' → effect im im'.

Lemma request_effect im im' : request_step cfg im im' → effect im im'.
Proof.
  destruct 1 as [|? id ? H|? id ? H|? id lid ? Hlid Hok H|? id ? H|? id ? H|? lid i n ? H|? lid ? H|? lid ? H];
    [|unfold write_reserve in H|unfold write_begin in H| |unfold write_made in H|
      unfold write_run in H| |unfold log_notify in H|unfold log_close in H].
  - by apply eff_quiet, quiet_same.
  - apply bind_Some in H as (w & _ & H). destruct (w_stage w); try done.
    apply bind_Some in H as (wl & Hr & [= <-]). unfold reserve_room in Hr. case_match; [done|].
    injection Hr as <-. by apply eff_quiet, quiet_same.
  - apply bind_Some in H as (w & _ & H). destruct (w_stage w); try done.
    destruct (backpressure _ _); [done|]. injection H as <-. by apply eff_quiet, quiet_same.
  - by apply (eff_log _ _ id lid).
  - apply bind_Some in H as (w & _ & H). destruct (w_stage w) as [| |[|? ?] [?|]|]; try done.
    injection H as <-. by apply eff_quiet, quiet_same.
  - apply bind_Some in H as (w & _ & H). destruct (w_stage w) as [| | |[|lid unrun]]; try done.
    apply bind_Some in H as (l & Hl & [= <-]). apply eff_quiet.
    eapply quiet_update; [done..|exact Hl|reflexivity|reflexivity|by right].
  - by apply (eff_nvme _ _ lid i n).
  - apply bind_Some in H as (l & Hl & (_ & _ & H)%bind_Some). apply eff_quiet, (write_notify_quiet _ _ _ _ H).
    eapply quiet_update; [done..|exact Hl|reflexivity|reflexivity|by left].
  - apply bind_Some in H as (l & Hl & (_ & _ & [= <-])%bind_Some). apply eff_quiet.
    eapply quiet_update; [done..|exact Hl|reflexivity|reflexivity|by left].
Qed.

Lemma image_step_effect im D im' D' : image_step (im, D) (im', D') → effect im im'.
Proof.
  inversion 1 as [? ? ? Hr|? ? ? id w todo lba iov n data Hw Hst Hok Hx|? ? ? ? Hl]; subst.
  - by apply request_effect.
  - unfold write_xlate in Hx. rewrite Hw in Hx. cbn [mbind option_bind] in Hx. rewrite Hst in Hx.
    apply bind_Some in Hx as (p & _ & [= <-]). by apply eff_quiet, quiet_same.
  - by apply eff_quiet, quiet_same.
Qed.

Lemma effect_durable im0 im im' : log_ok (im_wlog im0) → effect im im' → durable im0 im → durable im0 im'.
Proof.
  intros Hlok [Hq|id lid Hlid Hok Hs|lid i n Hs] Hd.
  - by apply (quiet_durable _ im).
  - by apply (durable_log _ im id lid).
  - by apply (durable_nvme _ im lid i n).
Qed.

(** A request of the log stays. *)
Lemma effect_keeps im im' lid r :
  effect im im' → log_reqs im !! lid = Some r → log_reqs im' !! lid = Some r.
Proof.
  intros [Hq|id lid' Hlid Hok Hs|lid' i n Hs] Hr.
  - by rewrite (qu_reqs _ _ Hq).
  - unfold write_log in Hs. apply bind_Some in Hs as (w & _ & Hs).
    destruct (w_stage w) as [| |[|[[s_off k] cur] todo] [?|]|]; try done.
    apply bind_Some in Hs as (iov & _ & ([wl req] & _ & [= <-])%bind_Some).
    unfold log_reqs in *. cbn [with_log with_write with_wlog im_log]. rewrite fmap_insert.
    rewrite lookup_insert_ne; [done|]. intros ->. by rewrite lookup_fmap, Hlid in Hr.
  - unfold nvme_done in Hs. apply bind_Some in Hs as (l & Hl & (x & _ & [= <-])%bind_Some).
    unfold log_reqs at 1. cbn [im_log]. by erewrite (log_reqs_update im lid' l); [|exact Hl| |reflexivity].
Qed.

Lemma idle_durable im0 : idle im0 → durable im0 im0.
Proof.
  intros (_ & El & Es & Ef & _). split.
  - intros lid l. rewrite El. by rewrite lookup_empty.
  - by rewrite Es.
  - exists [], []. unfold log_reqs. rewrite El, Es, fmap_empty. split_and!; [by apply run_nil| |done|done].
    intros lid r. by rewrite lookup_empty.
Qed.

Lemma reachable_durable im D : image_reachable im D → ∃ im0, idle im0 ∧ durable im0 im.
Proof.
  intros (im0 & Hid & _ & Hr). exists im0. split; [done|].
  assert (log_ok (im_wlog im0)) as Hlok by apply Hid.
  enough (∀ a b, rtc image_step a b → durable im0 a.1 → durable im0 b.1) as Hs
    by exact (Hs _ _ Hr (idle_durable im0 Hid)).
  induction 1 as [|[im1 D1] [im2 D2] b Hs _ IH]; [done|]. intros Hd. apply IH.
  exact (effect_durable _ _ _ Hlok (image_step_effect _ _ _ _ Hs) Hd).
Qed.

Lemma steps_keep im D im' D' lid r :
  rtc image_step (im, D) (im', D') → log_reqs im !! lid = Some r → log_reqs im' !! lid = Some r.
Proof.
  enough (∀ a b, rtc image_step a b → log_reqs a.1 !! lid = Some r → log_reqs b.1 !! lid = Some r) as H
    by apply (H (im, D) (im', D')).
  induction 1 as [|[im1 D1] [im2 D2] b Hs _ IH]; [done|]. intros Hr. apply IH.
  exact (effect_keeps _ _ _ _ (image_step_effect _ _ _ _ Hs) Hr).
Qed.

(** The writes that have succeeded are in the file. *)
Lemma stored_in_file im0 im x :
  idle im0 → durable im0 im → im_failed im = [] → msum log_pages (log_reqs im) ≤ ring_size (im_wlog im) →
  x ∈ im_stored im →
  slice (wr_start x) (length x.2) (im_dev im) = x.2 ∧ (wr_stop x ≤ length (im_dev im))%nat.
Proof.
  intros Hid [_ Hdev (ws & rs & Hrun & _ & Hsp & Hst)] Hf Hpg Hx. assert (log_ok (im_wlog im0)) as Hlok by apply Hid.
  destruct (logged_run_ok _ _ _ _ Hrun Hlok) as (_ & Hsup & _).
  rewrite (Hdev Hf). apply apply_writes_member; [done|]. intros y Hy.
  apply (run_apart _ _ _ _ Hrun Hlok); auto. rewrite Hsp. unfold ring_size in *. by rewrite <- Hsup.
Qed.

(** [write_log] appends the next chunk of [id], at sector [lba] and with the
    bytes [data], which the client's memory holds at that moment. *)
Definition appends im (id lid lba : Z) (data : bytes) im' : Prop :=
  im_log im !! lid = None ∧ log_takes im id ∧ write_log im id lid = Some im' ∧
  ∃ w s_off k cur todo iov, im_writes im !! id = Some w ∧ w_stage w = WMaking ((s_off, k, cur) :: todo) None ∧
    SmartIov.iov_slice (w_iovs w) (Z.to_nat (s_off * 512)) (Z.to_nat (s_off * 512) + Z.to_nat (k * 512)) = Some iov ∧
    lba = cur / 512 ∧ SmartIov.contents (p_heap (x_pipe (im_xlate im))) iov = Some data.

Lemma appends_logged im id lid lba data im' :
  log_ok (im_wlog im) → appends im id lid lba data im' →
  ∃ h c st a st' r, log_reqs im' !! lid = Some r ∧ logged h c st a st' r ∧ c.1 = lba ∧
    SmartIov.contents h c.2 = Some data.
Proof.
  intros Hlok (_ & (w & s_off & k & cur & todo & iov & Hw & Est & Hsl & Hok & Hpg) & Hs &
    (w1 & ? & ? & ? & ? & iov1 & Hw1 & Est1 & Hsl1 & -> & Hd)).
  rewrite Hw in Hw1. injection Hw1 as <-. rewrite Est in Est1. simplify_eq.
  unfold write_log in Hs. rewrite Hw in Hs. cbn [mbind option_bind] in Hs. rewrite Est, Hsl in Hs.
  cbn [mbind option_bind] in Hs. apply bind_Some in Hs as ([wl req] & Hlw & [= <-]).
  destruct (log_write_logged _ _ _ Hlok Hok Hpg) as (a & st1 & wl1 & r & _ & _ & Hlw1 & Hlg).
  cbn [fst snd] in Hlw1. rewrite Hlw in Hlw1. injection Hlw1 as -> ->.
  eexists _, _, _, a, _, r. split; [|split; [exact Hlg|done]].
  unfold log_reqs. cbn [with_log with_write with_wlog im_log]. by rewrite fmap_insert, lookup_insert_eq.
Qed.

Hypothesis Hchunk : 0 < wlog_chunk_bytes cfg / 512 < 2 ^ 31.

(** C5: an acknowledged write is durable.  Once a chunk has been appended to the log,
    whatever steps of this and other requests, of the nvme layer and of the
    translation layer follow: if the write it belongs to has been acknowledged and
    no write to the log file has failed, the file has a record of the chunk, with
    its address and the bytes that the client's memory held when it was appended,
    as long as the log has not gone around its ring. *)
Theorem acknowledged_write_in_log im1 D1 id lid lba data im2 im D id' w :
  image_reachable im1 D1 → appends im1 id lid lba data im2 → rtc image_step (im2, D1) (im, D) →
  im_failed im = [] → msum log_pages (log_reqs im) ≤ ring_size (im_wlog im) →
  im_writes im !! id' = Some w → lid ∈ w_requests w → w_cb w ≠ [] →
  ∃ page, record_at (im_dev im) page lba data.
Proof.
  intros Hr1 Hap Hsteps Hf Hpg Hw Hin Hcb.
  assert (image_reachable im D) as Hr.
  { destruct Hr1 as (im0 & Hid & Ho & Hr0). exists im0. split; [done|]. split; [done|].
    etrans; [exact Hr0|]. eapply rtc_l; [|exact Hsteps]. destruct Hap as (Hn & Ht & Hs & _).
    apply is_request. by apply (rs_log _ _ id lid). }
  pose proof (image_reachable_inv _ _ _ _ _ _ Hchunk _ _ Hr1) as Hi1.
  pose proof (image_reachable_inv _ _ _ _ _ _ Hchunk _ _ Hr) as Hi.
  destruct (appends_logged _ _ _ _ _ _ (ii_log_ok _ _ Hi1) Hap) as (h & c & st & a & st' & r & Hlr & Hlg & <- & Hd).
  apply (steps_keep _ _ _ _ _ _ Hsteps) in Hlr. unfold log_reqs in Hlr. apply lookup_fmap_Some in Hlr as (l & <- & Hl).
  destruct (acked_stored _ _ _ _ _ _ (ii_writes _ _ Hi id' w Hw) Hcb) as (_ & _ & _ & Hst).
  destruct (Hst lid Hin) as (l' & Hl' & Hx). simplify_eq.
  destruct (reachable_durable _ _ Hr) as (im0 & Hid & Hdu).
  destruct (stored_in_file _ _ (wr_data (l_req l)) Hid Hdu Hf Hpg) as [Hs Hb].
  { destruct (Hx (wr_data (l_req l))) as [|He]; [unfold log_writes_of; set_solver|done|].
    rewrite Hf in He. by apply elem_of_nil in He. }
  destruct (logged_record _ _ _ _ _ _ _ Hlg Hs Hb) as (data' & Hd' & Hrec). exists (wr_data (l_req l)).1. congruence.
Qed.
End image.
(** ** The write of ImageRefine, stored and acknowledged *)

Definition demo_durable (wl : wcache) (x : xstate) (req : wcache_write_req) : image objmap bufmap (gmap string bytes) unit :=
  mk_image (fst (release_room wl 8)) (dev_write [] (4096 * Z.to_nat (wr_data req).1) (wr_data req).2) x
    {[1 := mk_write 4096 demo_iov (WRunning []) 0 [10] [0]]} {[10 := mk_log req 1 0 [] true false]} [wr_data req] [].

Notation demo_step := (image_step demo_insert demo_crc32 get_default "vol" demo_uuid (2 ^ 30)).

Lemma demo_store_steps wl x req D :
  wr_pad req = None → (0 < length (wr_data req).2)%nat →
  rtc demo_step (demo_made wl x req, D) (demo_durable wl x req, D).
Proof.
  destruct req as [sq hdrs pad [pg dat]]. cbn [wr_pad wr_data snd]. intros -> Hd.
  set (req := mk_wcache_write_req sq hdrs None (pg, dat)).
  set (w n st := mk_write 4096 demo_iov st n [10] []).
  set (im dev ws ls f := mk_image wl dev x {[1 := ws]} {[10 := ls]} f [] : image objmap bufmap (gmap string bytes) unit).
  eapply rtc_l with (y := (im [] (w 1 (WRunning [10])) (mk_log req 1 1 [] false false) [], D)).
  { apply is_request, (rs_made _ _ 1). reflexivity. }
  eapply rtc_l with (y := (im [] (w 1 (WRunning [])) (mk_log req 1 1 [(pg, dat)] false false) [], D)).
  { apply is_request, (rs_run _ _ 1). reflexivity. }
  eapply rtc_l with (y := (im (dev_write [] (4096 * Z.to_nat pg) dat) (w 1 (WRunning [])) (mk_log req 1 0 [] false false) [(pg, dat)], D)).
  { apply is_request, (rs_nvme _ _ 10 0 (length dat)). unfold nvme_done.
    cbn [im im_log]. rewrite lookup_singleton_eq. cbn [mbind option_bind l_open lookup list_lookup snd fst].
    rewrite (proj2 (Nat.leb_le _ _)) by done. rewrite (proj2 (Nat.eqb_neq _ _)) by lia.
    rewrite take_ge by done. reflexivity. }
  apply rtc_once, is_request, (rs_notify _ _ 10). reflexivity.
Qed.

Lemma demo_appends x wl req :
  SmartIov.contents (p_heap (x_pipe x)) demo_iov = Some (replicate 4096 7) →
  log_write (with_total (demo_ring 5 2000 22 0) 1) (p_heap (x_pipe x)) 8 demo_iov = Some (wl, req) →
  wr_pad req = None → appends (demo_begun x) 1 10 8 (replicate 4096 7) (demo_appended wl x req).
Proof.
  intros Hd Hlw Hpad. split; [reflexivity|]. split; [by apply demo_takes|]. split; [by apply demo_append|].
  exists (mk_write 4096 demo_iov (WMaking [(0, 8, 4096)] None) 1 [] []), 0, 8, 4096, [], demo_iov.
  split; [apply lookup_singleton_eq|]. split; [reflexivity|]. split; [exact demo_slice|]. split; [reflexivity|exact Hd].
Qed.

Lemma demo_pages wl x req : msum log_pages (log_reqs (demo_durable wl x req)) = log_pages req.
Proof.
  unfold log_reqs, demo_durable. cbn [im_log]. rewrite map_fmap_singleton. unfold msum.
  rewrite map_to_list_singleton. simpl. lia.
Qed.

Lemma demo_ring_size wl x req :
  log_write (with_total (demo_ring 5 2000 22 0) 1) (p_heap (x_pipe x)) 8 demo_iov = Some (wl, req) →
  SmartIov.contents (p_heap (x_pipe x)) demo_iov = Some (replicate 4096 7) →
  ring_size (im_wlog (demo_durable wl x req)) = 2000.
Proof.
  intros Hlw Hd. destruct (log_write_logged (with_total (demo_ring 5 2000 22 0) 1) (p_heap (x_pipe x)) (8, demo_iov))
    as (a & st1 & wl1 & r1 & _ & _ & Hlw1 & Hlg).
  - repeat split; vm_compute; done.
  - unfold WriteLog.write_ok. cbn [fst snd].
    split; [lia|]. split; [apply Nat.ltb_lt; reflexivity|]. split; [reflexivity|]. by exists (replicate 4096 7).
  - vm_compute. discriminate.
  - cbn [fst snd] in Hlw1. rewrite Hlw in Hlw1. injection Hlw1 as <- <-.
    unfold ring_size, demo_durable, release_room. cbn [im_wlog fst with_total wc_super].
    rewrite (lg_super _ _ _ _ _ _ Hlg). reflexivity.
Qed.

Lemma acknowledged_write_in_log_witness :
  ∃ im : image objmap bufmap (gmap string bytes) unit, im_writes im !! 1 = Some (mk_write 4096 demo_iov (WRunning []) 0 [10] [0]) ∧
    ∃ page, record_at (im_dev im) page 8 (replicate 4096 7).
Proof.
  pose proof demo_write_ok as (_ & _ & _ & _ & _ & Hc & _).
  destruct (demo_log_write _ Hc) as (wl & req & Hlw & Hpad & Hlen & Hsp). destruct demo_written as (p & Hp & _).
  set (x' := with_pipe demo_state p).
  set (D' := disk_write (read_sector "vol" demo_state) 8 8 (replicate 4096 7)).
  exists (demo_durable wl x' req). split; [reflexivity|].
  apply (acknowledged_write_in_log demo_insert demo_crc32 get_default "vol" demo_uuid (2 ^ 30) default_chunk
           (demo_begun demo_state) (read_sector "vol" demo_state) 1 10 8 (replicate 4096 7)
           (demo_appended wl demo_state req) (demo_durable wl x' req) D' 1
           (mk_write 4096 demo_iov (WRunning []) 0 [10] [0])).
  - apply demo_begin; [reflexivity|]. apply demo_write_start. vm_compute. reflexivity.
  - exact (demo_appends _ _ _ Hc Hlw Hpad).
  - eapply rtc_l; [exact (demo_xlate _ _ p wl req demo_write_ok Hp)|]. exact (demo_store_steps _ _ _ _ Hpad Hlen).
  - reflexivity.
  - rewrite demo_pages. unfold log_pages. rewrite Hsp.
    replace (ring_size (im_wlog (demo_durable wl x' req))) with 2000; [vm_compute; discriminate|].
    symmetry. exact (demo_ring_size wl demo_state req Hlw Hc).
  - reflexivity.
  - left.
  - discriminate.
Defined.
