(* ===== verification/Close.v ===== *)
(** * Closing an image and opening it again

    [~lsvd_image] flushes the write log, saves its superblock and shuts the
    translation layer down, which submits what has not been submitted and a
    checkpoint.  When the worker has written it and the outstanding PUTs have
    completed, opening the image again gives the same disk. *)

From stdpp Require Import relations.
From S2P Require Import Prelude Bytes Extent ExtMap ExtMapShape ExtMapFlat ExtMapUpdate ExtMapSpec.
From S2P Require Import Memory SmartIov LsvdTypes Backend Objects Serialise DataObject Config.
From S2P Require Import Translate Accounting Pipeline Completion Refine Journal WriteCache WriteRing WriteLog WriteOpen.
From S2P Require Import ReadPath ReadSpec ImageRead Image Recovery Reopen ImageWrite ImageInv ImageRefine Durable.

(** ** The translation layer *)

Section layer.
Context {M : Type} {HM : LbaMap M obj_offset}.
Context {MB : Type} {HB : LbaMap MB sector_ptr}.
Context {S : Type} {HS : Rados S} {HSok : RadosOk S}.
Context {RC : Type}.
Variable insert_object : RC → string → Z → bytes → RC.
Variable crc32 : bytes → Z.
Variable cfg : lsvd_config.
Variables (name : string) (uuid : bytes) (vol_bytes : Z).
Hypothesis Hcfg : cfg_ok cfg.
Hypothesis Huuid : uuid_ok uuid.
Hypothesis Hvol : 0 ≤ vol_bytes < 2 ^ 64.
Notation state := (@xstate M MB S RC).
Notation inv := (inv cfg name).
Notation step := (Refine.step insert_object crc32 cfg name uuid vol_bytes).
Notation worker_step := (worker_step insert_object crc32 cfg name uuid vol_bytes).
Notation checkpointed := (checkpointed name uuid vol_bytes).
Implicit Types (st : state) (D : disk).

(** [shutdown] up to its wait for the checkpoint *)
Definition shutdown st : state := with_pipe st (submit cfg REQ_CKPT (x_pipe st)).

(** What goes on while a layer shuts down: the worker and the completions. *)
Inductive closing_step : state → state → Prop :=
| closing_worker st st' :
    x_cur_seq st < 2 ^ 31 → ckpt_fits st → worker_step st = Some (Some st') → closing_step st st'
| closing_complete st i st' : complete st i = Some st' → closing_step st st'.

Lemma closing_refine st st' D : closing_step st st' → step (st, D) (st', D).
Proof. destruct 1; [by apply step_worker|by eapply step_complete]. Qed.

(** [st] with another image of the superblock *)
Definition with_super st (sb : bytes) : state :=
  mk_xstate (x_om st) (x_pipe st) (x_cur_seq st) (x_checkpoints st) (x_clones st) (x_refcount st)
    sb (x_rcache st) (x_store st).

(** The last number given out is that of a checkpoint of the maps as they are. *)
Definition saved st : Prop :=
  ∃ sb, clones_len_zero sb ∧
    checkpointed (with_super st sb) (x_cur_seq st - 1) (x_checkpoints st) (x_store st) ∧
    last (x_checkpoints st) = Some (x_cur_seq st - 1) ∧ (length (x_checkpoints st) ≤ 3)%nat.

(** The last request in the queue is a checkpoint, or it has been written. *)
Definition closing st : Prop :=
  t_entries (p_current (x_pipe st)) = [] ∧
  ((∃ q z, p_queue (x_pipe st) = q ++ [z] ∧ t_op z = REQ_CKPT) ∨ p_queue (x_pipe st) = [] ∧ saved st).

Lemma shutdown_closing st D : inv st D → closing (shutdown st).
Proof.
  intros Hi. unfold shutdown, submit, closing. cbn [with_pipe x_pipe p_current p_queue]. split.
  - destruct (0 <? t_len _) eqn:E.
    + unfold put_current. by destruct (new_put cfg _ _) as [h r] eqn:En; unfold new_put in En; injection En as _ <-.
    + pose proof (inv_pend _ _ _ _ Hi) as HP. apply Forall_app in HP as [_ HP].
      apply Forall_cons in HP as [HP _].
      unfold req_ok in HP. rewrite (inv_current _ _ _ _ Hi) in HP.
      destruct HP as (_ & _ & _ & _ & Hlen & Hsum & _). zb.
      apply sum_len_ge in Hlen. destruct (t_entries _) as [|e es]; [done|]. simpl length in Hlen. lia.
  - left. by eexists _, _.
Qed.

Lemma write_checkpoint_pipe st cp st' :
  Translate.write_checkpoint name uuid vol_bytes st cp = Some st' → x_pipe st' = x_pipe st.
Proof.
  unfold Translate.write_checkpoint. intros (ps & _ & (b & _ & H)%bind_Some)%bind_Some.
  destruct (keep_last_3 _) as [del ck]. by apply bind_Some in H as (sb & _ & [= <-]).
Qed.

(** A worker step takes the head of the queue. *)
Lemma worker_queue st st' z q :
  p_queue (x_pipe st) = z :: q → worker_step st = Some (Some st') → t_op z ≠ REQ_GC →
  p_queue (x_pipe st') = q ∧ p_current (x_pipe st') = p_current (x_pipe st) ∧
  (length (p_flight (x_pipe st')) ≤ length (p_flight (x_pipe st)) + 1)%nat.
Proof.
  intros Hq Hw Hgc. unfold Translate.worker_step in Hw. rewrite Hq in Hw. destruct (t_op z).
  - apply bind_Some in Hw as (st1 & Hb & [= <-]). apply process_batch_inv in Hb as (om & dm & h & n & b & _ & _ & -> & _).
    cbn [aio_write dequeue x_pipe p_queue p_current p_flight]. rewrite length_app. simpl. split_and!; [done|done|lia].
  - destruct (0 <? _); [done|]. injection Hw as <-. simpl. split_and!; [done|done|lia].
  - apply bind_Some in Hw as (st1 & Hb & [= <-]). apply write_checkpoint_pipe in Hb as ->. simpl. split_and!; [done|done|lia].
  - done.
Qed.

Lemma head_op st D z q : inv st D → p_queue (x_pipe st) = z :: q → t_op z ≠ REQ_GC.
Proof.
  intros Hi Hq. pose proof (inv_pend _ _ _ _ Hi) as HP. unfold pending in HP. rewrite Hq in HP.
  apply Forall_cons in HP as [Hz _]. unfold req_ok in Hz. by intros E; rewrite E in Hz.
Qed.

(** The checkpoint is written. *)
Lemma saved_checkpoint st D z :
  inv st D → x_cur_seq st < 2 ^ 31 → ckpt_fits st → p_queue (x_pipe st) = [z] → t_op z = REQ_CKPT →
  ∃ st', worker_step st = Some (Some st') ∧ saved st' ∧ x_om st' = x_om st ∧ x_cur_seq st' = x_cur_seq st + 1 ∧
    p_queue (x_pipe st') = [] ∧ p_flight (x_pipe st') = p_flight (x_pipe st) ∧
    ∀ o, 0 ≤ o < 2 ^ 32 → o ≠ x_cur_seq st → o ∉ x_checkpoints st →
      rados_obj (x_store st') (oname name o) = rados_obj (x_store st) (oname name o).
Proof.
  intros Hi Hlim Hfit Hq Hz. unfold Translate.worker_step. rewrite Hq, Hz.
  change (dequeue st [] true) with (requeue st [] (x_cur_seq st + 1)).
  assert (inv (requeue st [] (x_cur_seq st + 1)) D) as Hi1 by (eapply dequeue_inv; eauto; [lia|congruence]).
  destruct (write_checkpoint_ok crc32 cfg name uuid vol_bytes (requeue st [] (x_cur_seq st + 1)) D (x_cur_seq st))
    as (sb & store & -> & _ & Hobj & Hck & Hsb); auto; [pose proof (inv_seq _ _ _ _ Hi); lia|apply (inv_ckpts _ _ _ _ Hi)|].
  eexists. split; [reflexivity|]. split; [|by split_and!]. exists (x_superblock_buf st). split; [apply (inv_sbuf _ _ _ _ Hi)|].
  cbn [requeue x_cur_seq x_checkpoints x_store x_om]. replace (x_cur_seq st + 1 - 1) with (x_cur_seq st) by lia.
  split; [|apply last_kept]. split; [done|]. split; [exact Hck|exact Hsb].
Qed.

(** A PUT that completes does not touch the checkpoint. *)
Lemma saved_complete st D i st' :
  inv st D → x_cur_seq st ≤ 2 ^ 31 → complete st i = Some st' → saved st → saved st'.
Proof.
  intros Hi Hlim Hc (sb & Hz & (_ & (b & bt & Hb & Hbo) & (sb' & st2 & Hs & Hso)) & Hlast & Hlen).
  unfold complete in Hc. apply bind_Some in Hc as ([[r n] d] & Hf & (p & _ & [= <-])%bind_Some).
  apply list_elem_of_lookup_2 in Hf. destruct (proj1 (Forall_forall _ _) (inv_flight _ _ _ _ Hi) _ Hf) as (_ & _ & -> & Hr & Hnc).
  exists sb. split; [done|]. cbn [x_cur_seq x_checkpoints x_store]. split; [|done]. split; [done|]. unfold write. split.
  - exists b, bt. split; [exact Hb|]. cbn [snd]. rewrite rados_write_other; [exact Hbo|].
    intros [_ Heq]%oname_inj; [|lia|].
    + apply Hnc. rewrite Heq. by apply last_Some_elem_of.
    + apply last_Some_elem_of in Hlast. pose proof (proj1 (Forall_forall _ _) (inv_ckpts _ _ _ _ Hi) _ Hlast). simpl in *. lia.
  - exists sb', st2. split; [exact Hs|]. cbn [snd]. rewrite rados_write_other; [exact Hso|apply oname_ne].
Qed.

Lemma complete_pipe st i st' :
  complete st i = Some st' →
  p_queue (x_pipe st') = p_queue (x_pipe st) ∧ p_current (x_pipe st') = p_current (x_pipe st) ∧
  p_flight (x_pipe st') = delete i (p_flight (x_pipe st)) ∧ (i < length (p_flight (x_pipe st)))%nat.
Proof.
  unfold complete. intros ([[r n] b] & Hf & (p & Hp & [= <-])%bind_Some)%bind_Some. cbn [x_pipe].
  apply lookup_lt_Some in Hf. unfold notify in Hp.
  destruct (t_op r); [apply bind_Some in Hp as (? & _ & (? & _ & [= <-])%bind_Some)|injection Hp as <-..]; done.
Qed.

Lemma closing_step_closing st D st' :
  inv st D → x_cur_seq st ≤ 2 ^ 31 → closing_step st st' → closing st → closing st'.
Proof.
  intros Hi Hlim Hs [Hcur Hcl]. destruct Hs as [st st' Hseq Hfit Hw|st i st' Hc].
  - destruct Hcl as [(q & z & Hq & Hz)|[Hq _]]; [|by unfold Translate.worker_step in Hw; rewrite Hq in Hw].
    destruct q as [|z0 q].
    + destruct (saved_checkpoint st D z) as (st1 & Hw1 & Hsv & _); [done..|]. rewrite Hw in Hw1. injection Hw1 as <-.
      destruct (worker_queue _ _ _ _ Hq Hw) as (Hq' & Hc' & _); [congruence|].
      split; [congruence|]. by right.
    + destruct (worker_queue _ _ _ _ Hq Hw) as (Hq' & Hc' & _); [by eapply head_op|].
      split; [congruence|]. left. by exists q, z.
  - destruct (complete_pipe _ _ _ Hc) as (Hq & Hcc & _). split; [congruence|]. rewrite Hq.
    destruct Hcl as [?|[? ?]]; [by left|right]. split; [done|]. by eapply saved_complete.
Qed.

Lemma closing_steps st st' D :
  rtc closing_step st st' → inv st D → x_cur_seq st ≤ 2 ^ 31 → closing st →
  inv st' D ∧ x_cur_seq st' ≤ 2 ^ 31 ∧ closing st'.
Proof.
  induction 1 as [|st st1 st' Hs _ IH]; [done|]. intros Hi Hlim Hc.
  destruct (step_inv insert_object crc32 cfg name uuid vol_bytes Hcfg Huuid Hvol st D st1 D) as [Hi1 Hlim1];
    [by apply closing_refine|done|].
  apply IH; [done|done|]. exact (closing_step_closing st D st1 Hi Hlim Hs Hc).
Qed.

(** Nothing is waiting. *)
Definition drained st : Prop := p_queue (x_pipe st) = [] ∧ p_flight (x_pipe st) = [].

Definition closing_work st : nat := 2 * length (p_queue (x_pipe st)) + length (p_flight (x_pipe st)).

(** A layer that shuts down goes on until it is drained. *)
Lemma closing_proceeds st D :
  inv st D → out_ok st → x_cur_seq st < 2 ^ 31 → ckpt_fits st → ¬ drained st →
  ∃ st', closing_step st st' ∧ (closing_work st' < closing_work st)%nat.
Proof.
  intros Hi Hout Hlim Hfit Hnd. destruct (p_flight (x_pipe st)) as [|f fl] eqn:Ef.
  - destruct (p_queue (x_pipe st)) as [|z q] eqn:Eq; [by destruct Hnd|].
    destruct (worker_inv insert_object crc32 cfg name uuid vol_bytes st D) as (o & Hw & _); [done..|].
    destruct o as [st'|].
    + exists st'. split; [by apply closing_worker|]. destruct (worker_queue _ _ _ _ Eq Hw) as (Hq' & _ & Hl); [by eapply head_op|].
      unfold closing_work. rewrite Hq', Eq. simpl. lia.
    + exfalso. unfold Translate.worker_step in Hw. rewrite Eq in Hw. destruct (t_op z);
        [by apply bind_Some in Hw as (? & _ & [=])| |by apply bind_Some in Hw as (? & _ & [=])..].
      destruct (0 <? _) eqn:E; [|done]. zb. unfold out_ok in Hout. rewrite Ef in Hout. simpl in Hout. lia.
  - destruct (complete_inv cfg name st D 0) as (st' & Hc & _); [done|lia|rewrite Ef; simpl; lia|].
    exists st'. split; [by eapply closing_complete|]. destruct (complete_pipe _ _ _ Hc) as (Hq & _ & Hf & _).
    unfold closing_work. rewrite Hq, Hf, Ef. simpl. lia.
Qed.

(** Then no sector is in memory only. *)
Lemma drained_bufmap st D x :
  inv st D → drained st → t_entries (p_current (x_pipe st)) = [] → bufmap_at (p_bufmap (x_pipe st)) x = None.
Proof.
  intros Hi [Hq Hf] Hc. apply eq_None_not_Some. intros [p Hp].
  destruct (inv_buf _ _ _ _ Hi _ _ Hp) as (r & k & [_ Hin]%elem_of_puts & _ & Hk & _).
  unfold sent, pending in Hin. rewrite Hf, Hq in Hin. simpl in Hin.
  apply list_elem_of_singleton in Hin as ->. rewrite Hc in Hk. done.
Qed.

(** The checkpoint recovers the disk. *)
Lemma saved_recovers st D (fuel : nat) (h : heap) (rc : RC) :
  inv st D → saved st → (∀ x, bufmap_at (p_bufmap (x_pipe st)) x = None) → table_fits st → x_cur_seq st < 2 ^ 31 →
  0 ≤ backend_write_window cfg < 2 ^ 28 → rados_obj (x_store st) (oname name (x_cur_seq st)) = None →
  ∃ im s, recover (M := M) cfg name (Datatypes.S fuel) (x_store st) = Ret (Some (im, s, x_cur_seq st - 1)) ∧
    im_uuid im = uuid ∧ im_size im = vol_bytes / 512 * 512 ∧
    opened cfg (reopened (MB := MB) cfg h rc im s (x_cur_seq st - 1)) ∧
    ∀ x d, D x = Some d → read_sector name (reopened (MB := MB) cfg h rc im s (x_cur_seq st - 1)) x = Some d.
Proof.
  intros Hi (sb & Hz & Hck & Hlast & Hlen) Hbuf Hfits Hlim Hwin Hno. set (cp := x_cur_seq st - 1) in *.
  assert (∀ c, c ∈ x_checkpoints st → 0 ≤ c ≤ cp) as Hcks.
  { intros c Hc. pose proof (proj1 (Forall_forall _ _) (inv_ckpts _ _ _ _ Hi) c Hc). unfold cp. simpl in *. lia. }
  assert (0 ≤ cp) as Hcp0.
  { pose proof (last_Some_elem_of _ _ Hlast) as Hin. apply Hcks in Hin. lia. }
  destruct (recover_checkpointed cfg name uuid vol_bytes Huuid Hvol (with_super st sb) cp (x_checkpoints st) (x_store st) fuel)
    as (im & Hrec & Him).
  - apply (inv_live _ _ _ _ Hi).
  - exact Hz.
  - exact Hfits.
  - apply Forall_forall. intros c Hc. apply Hcks in Hc. unfold u32_ok, cp in *. lia.
  - exact Hlen.
  - exact Hlast.
  - unfold cp in *. lia.
  - exact Hck.
  - replace (cp + 1) with (x_cur_seq st) by (unfold cp; lia). exact Hno.
  - pose proof Him as (Hsz & Hid & Hcs & Hcl & Hinfo & Hwf & Hat & Hw). set (s := delete_dangling _ _ _ _) in *.
    assert (∀ x p, objmap_at (om_map (x_om st)) x = Some p → 0 ≤ obj p ≤ cp ∧ obj p ∉ x_checkpoints st) as Hobjs.
    { intros x p Hx. destruct (inv_objs _ _ _ _ Hi x p Hx). unfold cp. split; [lia|done]. }
    exists im, s. split; [exact Hrec|]. split; [done|]. split; [done|]. split.
    + exists h, (im_objmap im), cp, (im_obj_info im), (im_checkpoints im), rc, s.
      split; [unfold reopened; by rewrite Hcl|]. split; [|split; [unfold cp in *; lia|split]].
      * split; [done|]. intros o oi. simpl. rewrite Hinfo, Hw. apply (inv_live _ _ _ _ Hi).
      * intros x p. rewrite Hat, Hcs. apply Hobjs.
      * rewrite Hcs. apply Forall_forall. apply Hcks.
    + intros x d HD. rewrite read_reopened, Hat. pose proof (inv_durable _ _ _ _ Hi x d (Hbuf x) HD) as Hx.
      change (x_om (with_super st sb)) with (x_om st).
      destruct (objmap_at (om_map (x_om st)) x) as [oo|] eqn:Eo; [|by subst].
      destruct Hx as (_ & b & Hbo & <-). apply Hobjs in Eo as [? ?].
      unfold s. rewrite (delete_dangling_other crc32 cfg name uuid vol_bytes Hcfg Huuid Hvol) by (unfold cp in *; done || lia).
      by rewrite Hbo.
Qed.
End layer.

(** ** The file of the write log *)

(** The two header pages, as opening the log leaves them *)
Definition log_file (wl : wcache) (dev : bytes) : Prop :=
  super_ok (wc_super wl) ∧ 2 ≤ jw_base (wc_super wl) ∧ length (wc_tail wl) = 4012%nat ∧
  (4096 + 4096 ≤ length dev)%nat ∧
  ∃ j : j_hdr, load_at 0 (slice 0 4096 dev) = Some j ∧ jh_magic j = LSVD_MAGIC ∧ jh_type j = LSVD_J_DATA.

Lemma log_file_ext wl dev wl' dev' :
  log_file wl dev → wc_super wl' = wc_super wl → wc_tail wl' = wc_tail wl →
  (length dev ≤ length dev')%nat → slice 0 4096 dev' = slice 0 4096 dev → log_file wl' dev'.
Proof.
  intros (H1 & H2 & H3 & H4 & H5) Hs Ht Hl Hp. unfold log_file. rewrite Hs, Ht, Hp. split_and!; done || lia.
Qed.

(** A write from the second page on *)
Lemma log_file_write wl dev off bs :
  log_file wl dev → (4096 ≤ off)%nat → log_file wl (dev_write dev off bs).
Proof.
  intros Hf Ho. apply (log_file_ext wl dev); [done..| |].
  - rewrite length_dev_write. lia.
  - destruct Hf as (_ & _ & _ & Hl & _). apply dev_write_other; lia.
Qed.

Lemma page_past (p : Z) : 2 ≤ p → (4096 ≤ 4096 * Z.to_nat p)%nat.
Proof. intros Hp. rewrite <- (Nat.mul_1_r 4096) at 1. apply Nat.mul_le_mono_l. lia. Qed.

Lemma allocate_all_base ns : ∀ st st' rs,
  ring_ok st → sizes_ok st ns → allocate_all st ns = Some (st', rs) →
  Forall (λ r, jw_base (wc_super st) ≤ r.1) rs.
Proof.
  induction ns as [|n ns IH]; intros st st' rs Hok Hns Hall; [by simplify_eq/=|].
  destruct (allocate_all_cons _ _ _ _ _ Hok Hns Hall) as (st1 & rs1 & rs2 & Hr & -> & Hok1 & Hns1 & Hsup & _ & Hc).
  specialize (IH _ _ _ Hok1 Hns1 Hr). rewrite Hsup in IH. apply Forall_app. split; [|done]. destruct Hok as [? _].
  destruct Hc as [(_ & -> & _)|(_ & _ & -> & _)]; repeat constructor; simpl; lia.
Qed.

(** The writes of the log are in its ring. *)
Lemma run_base st st' ws rs x :
  logged_run st st' ws rs → log_ok st → x ∈ writes rs → jw_base (wc_super st) ≤ x.1.
Proof.
  intros Hrun Hok Hx. destruct (logged_run_ok _ _ _ _ Hrun Hok) as (_ & _ & Hsz & [sta Ha] & _ & Himg & _).
  pose proof (allocate_all_base _ _ _ _ (proj1 Hok) Hsz Ha) as Hbase.
  apply list_elem_of_lookup_1 in Hx as [i Hi].
  destruct (Forall2_lookup_l _ _ _ _ _ Himg Hi) as (hd & Hhd & -> & _).
  apply (proj1 (Forall_lookup _ _) Hbase i (hd.1, jh_len hd.2)). unfold described.
  rewrite list_lookup_fmap, Hhd. by destruct hd.
Qed.

Lemma log_write_super st h lba iovs st' r :
  log_write st h lba iovs = Some (st', r) → wc_super st' = wc_super st ∧ wc_tail st' = wc_tail st.
Proof.
  unfold log_write, allocate. destruct (assert (0 <? _)); simpl; [|intros [=]]. destruct (assert _); simpl; [|intros [=]].
  destruct (_ <? _); unfold make_write_req; simpl; try destruct (_ =? 0); simpl;
    destruct (SmartIov.contents h iovs); simpl; by intros [= <- _].
Qed.

(** ** The image *)

Section image.
Context {S : Type} {HS : Rados S} {HSok : RadosOk S}.
Context {RC : Type}.
Variable insert_object : RC → string → Z → bytes → RC.
Variable crc32 : bytes → Z.
Variable cfg : lsvd_config.
Variables (name : string) (uuid : bytes) (vol_bytes : Z).
Notation image := (image objmap bufmap S RC).
Notation image_step := (image_step insert_object crc32 cfg name uuid vol_bytes).
Implicit Types (im : image) (D : disk).

(** The superblock of the log in memory does not change. *)
Definition same_super im im' : Prop :=
  wc_super (im_wlog im') = wc_super (im_wlog im) ∧ wc_tail (im_wlog im') = wc_tail (im_wlog im).

Lemma write_notify_super im id im' : write_notify im id = Some im' → same_super im im'.
Proof.
  unfold write_notify. intros (w & _ & H)%bind_Some. destruct (1 <? _); [by injection H as <-|].
  unfold release_room in H. by injection H as <-.
Qed.

Lemma request_super im im' : request_step cfg im im' → same_super im im'.
Proof.
  destruct 1 as [|? id ? H|? id ? H|? id lid ? _ _ H|? id ? H|? id ? H|? lid i n ? H|? lid ? H|? lid ? H]; [done|..].
  - unfold write_reserve in H. apply bind_Some in H as (w & _ & H). destruct (w_stage w); try done.
    apply bind_Some in H as (wl & Hr & [= <-]). unfold reserve_room in Hr. destruct (_ <? _); [done|].
    by injection Hr as <-.
  - unfold write_begin in H. apply bind_Some in H as (w & _ & H). destruct (w_stage w); try done.
    destruct (backpressure _ _); [done|]. by injection H as <-.
  - unfold write_log in H. apply bind_Some in H as (w & _ & H).
    destruct (w_stage w) as [| |[|[[? ?] ?] ?] [?|]|]; try done.
    apply bind_Some in H as (iov & _ & ([wl req] & Hl & [= <-])%bind_Some). by apply log_write_super in Hl.
  - unfold write_made in H. apply bind_Some in H as (w & _ & H).
    destruct (w_stage w) as [| |[|? ?] [?|]|]; try done. by injection H as <-.
  - unfold write_run in H. apply bind_Some in H as (w & _ & H).
    destruct (w_stage w) as [| | |[|? ?]]; try done. by apply bind_Some in H as (? & _ & [= <-]).
  - unfold nvme_done in H. apply bind_Some in H as (l & _ & H). by apply bind_Some in H as (? & _ & [= <-]).
  - unfold log_notify in H. apply bind_Some in H as (l & _ & (_ & _ & H)%bind_Some).
    by apply write_notify_super in H.
  - unfold log_close in H. apply bind_Some in H as (l & _ & H). by apply bind_Some in H as (? & _ & [= <-]).
Qed.

Lemma image_step_super im D im' D' : image_step (im, D) (im', D') → same_super im im'.
Proof.
  inversion 1 as [? ? ? Hr|? ? ? id w todo lba iov n data Hw Hst Hok Hx|? ? ? ? Hl]; subst; [by apply request_super| |done].
  unfold write_xlate in Hx. rewrite Hw in Hx. cbn [mbind option_bind] in Hx. rewrite Hst in Hx.
  by apply bind_Some in Hx as (p & _ & [= <-]).
Qed.

(** Its file keeps its header pages. *)
Lemma effect_file im0 im im' :
  log_ok (im_wlog im0) → durable im0 im → effect im im' → log_file (im_wlog im) (im_dev im) →
  log_file (im_wlog im) (im_dev im').
Proof.
  intros Hlok Hd [Hq|id lid _ _ Hs|lid i n Hs] Hf.
  - by rewrite (qu_dev _ _ Hq).
  - unfold write_log in Hs. apply bind_Some in Hs as (w & _ & Hs).
    destruct (w_stage w) as [| |[|[[? ?] ?] ?] [?|]|]; try done.
    by apply bind_Some in Hs as (iov & _ & ([wl req] & _ & [= <-])%bind_Some).
  - unfold nvme_done in Hs. apply bind_Some in Hs as (l & Hl & (x & Hx & [= <-])%bind_Some). cbn [im_dev].
    destruct (n =? 0)%nat; [done|]. apply log_file_write; [done|].
    destruct (du_run _ _ Hd) as (ws & rs & Hrun & Hin & _).
    destruct (logged_run_ok _ _ _ _ Hrun Hlok) as (_ & Hsup & _).
    assert (jw_base (wc_super (im_wlog im0)) ≤ x.1) as Hx0.
    { apply (run_base _ _ _ _ _ Hrun Hlok), (elem_of_writes x (l_req l));
        [apply (Hin lid); unfold log_reqs; by rewrite lookup_fmap, Hl|].
      rewrite <- req_writes_log. apply (du_opens _ _ Hd lid l Hl). by eapply list_elem_of_lookup_2. }
    apply page_past. rewrite <- Hsup in Hx0. destruct Hf as (_ & Hb & _). exact (Z.le_trans _ _ _ Hb Hx0).
Qed.

(** An image that has just been opened *)
Definition fresh_image im : Prop :=
  idle im ∧ opened cfg (im_xlate im) ∧ log_file (im_wlog im) (im_dev im).

Lemma image_steps_file im0 a b :
  log_ok (im_wlog im0) → rtc image_step a b → durable im0 a.1 → log_file (im_wlog a.1) (im_dev a.1) →
  durable im0 b.1 ∧ log_file (im_wlog b.1) (im_dev b.1).
Proof.
  intros Hlok. induction 1 as [|[im D] [im' D'] b Hs _ IH]; [done|]. intros Hd Hf. cbn [fst] in *.
  pose proof (image_step_effect _ _ _ _ _ _ _ _ _ _ Hs) as He. apply IH.
  - by eapply effect_durable.
  - pose proof (effect_file _ _ _ Hlok Hd He Hf) as Hf'. apply image_step_super in Hs as [Es Et].
    by apply (log_file_ext (im_wlog im) (im_dev im')).
Qed.

(** [~lsvd_image], up to the waits of [shutdown]; [None]: the flush of the log
    waits. *)
Definition close_image im : option image :=
  if flushed (im_wlog im) then
    Some (mk_image (im_wlog im) (WriteCache.write_checkpoint (im_wlog im) (im_dev im)) (shutdown cfg (im_xlate im))
            (im_writes im) (im_log im) (im_stored im) (im_failed im))
  else None.

Lemma open_wlog_file (file : bytes) (j : j_hdr) r :
  load_at 0 (slice 0 4096 file) = Some j → jh_magic j = LSVD_MAGIC → jh_type j = LSVD_J_DATA →
  open_cache file cfg = Ret r → open_wlog (Some file) uuid cfg = Some (Some r).
Proof.
  intros Hj Hm Ht Hr. unfold open_wlog, dev_read. cbn [mbind option_bind]. rewrite Hj, Hr.
  change (0 <? 0) with false. cbn [mbind option_bind]. by rewrite Hm, Ht, !Z.eqb_refl.
Qed.

(** The state that opening the log makes of its file *)
Lemma open_closed_log wl dev :
  log_file wl dev → log_ok wl →
  ∃ dev', open_wlog (Some (WriteCache.write_checkpoint wl dev)) uuid cfg =
      Some (Some (dev', opened_cache (checkpoint_super wl) (wc_tail wl) (wc_sequence wl) cfg)) ∧
    log_file (opened_cache (checkpoint_super wl) (wc_tail wl) (wc_sequence wl) cfg) dev'.
Proof.
  intros Hf (Hring & Hprev & Hseq). pose proof Hf as (Hs & Hb & Ht & Hl & j & Hj & Hm & Hty).
  pose proof (checkpoint_super_ok wl Hs Hseq) as Hck.
  pose proof (has_super_written dev (checkpoint_super wl) (wc_tail wl) Hl Ht) as Hd.
  pose proof (log_file_write wl dev 4096 (enc (checkpoint_super wl) ++ wc_tail wl) Hf (le_n _)) as Hf1.
  pose proof (log_file_write wl _ 4096 (enc (set_clean (checkpoint_super wl) 0) ++ wc_tail wl) Hf1 (le_n _)) as Hf2.
  pose proof (open_cache_super _ (checkpoint_super wl) (wc_tail wl) cfg Hck Hd) as Hopen.
  change (first_sequence (checkpoint_super wl)) with (wc_sequence wl) in Hopen.
  unfold WriteCache.write_checkpoint. fold (checkpoint_super wl).
  set (file := dev_write dev 4096 (enc (checkpoint_super wl) ++ wc_tail wl)) in *. clearbody file.
  exists (dev_write file 4096 (enc (set_clean (checkpoint_super wl) 0) ++ wc_tail wl)). split.
  - destruct Hf1 as (_ & _ & _ & _ & j1 & Hj1 & Hm1 & Ht1). by apply (open_wlog_file file j1).
  - destruct Hf2 as (_ & _ & _ & Hl2 & Hj2). split; [by apply super_ok_clean|]. split; [exact Hb|].
    split; [exact Ht|]. split; [exact Hl2|exact Hj2].
Qed.

Lemma opened_cache_idle wl :
  log_ok wl → let wl' := opened_cache (checkpoint_super wl) (wc_tail wl) (wc_sequence wl) cfg in
  log_ok wl' ∧ 0 ≤ wc_max_write_pages wl'.
Proof.
  intros ([Hb Hn] & Hp & Hs). split.
  - split; [|split; [|exact Hs]]; unfold ring_ok; simpl; lia.
  - simpl. apply Z.add_nonneg_nonneg; apply Z.quot_pos; lia.
Qed.

Lemma closing_reachable (st st' : @xstate objmap bufmap S RC) D :
  Refine.reachable insert_object crc32 cfg name uuid vol_bytes st D →
  rtc (closing_step insert_object crc32 cfg name uuid vol_bytes) st st' →
  Refine.reachable insert_object crc32 cfg name uuid vol_bytes st' D.
Proof.
  intros (st0 & Ho & Hr) Hs. exists st0. split; [done|]. etransitivity; [exact Hr|].
  induction Hs as [|st st1 st' Hs _ IH]; [apply rtc_refl|]. eapply rtc_l; [by eapply closing_refine|]. apply IH.
  eapply rtc_r; [exact Hr|by eapply closing_refine].
Qed.

Lemma open_image_ok (fuel : nat) (h : heap) (rc : RC) (store : S) file (im : lsvd_image objmap) s cp wl :
  recover cfg name fuel store = Ret (Some (im, s, cp)) → open_wlog file (im_uuid im) cfg = Some (Some wl) →
  open_image (MB := bufmap) cfg name fuel h rc store file = Ret (Some (im, reopened cfg h rc im s cp, wl)).
Proof.
  intros Hrec Hwl. unfold open_image. rewrite Hrec. cbn [mbind outcome_bind]. rewrite Hwl. reflexivity.
Qed.

(** C8: closing an image and opening it again gives the same disk.  When the
    destructor's flush returns, the log is saved and the translation layer submits
    its batch and a checkpoint; the worker and the completions then go on until
    nothing is outstanding, without a fault; and opening what is in the object
    store and in the file of the log gives an image without requests, in a state
    in which everything above holds again, with the contents of every sector and
    with the next sequence number of the log. *)
Theorem close_and_reopen im0 im D im' (x' : @xstate objmap bufmap S RC) (fuel : nat) (h : heap) (rc : RC) :
  cfg_ok cfg → uuid_ok uuid → 0 ≤ vol_bytes < 2 ^ 64 → 0 ≤ backend_write_window cfg < 2 ^ 28 →
  fresh_image im0 → rtc image_step (im0, read_sector name (im_xlate im0)) (im, D) →
  close_image im = Some im' →
  rtc (closing_step insert_object crc32 cfg name uuid vol_bytes) (im_xlate im') x' →
  x_cur_seq x' < 2 ^ 31 → table_fits x' →
  (drained x' → rados_obj (x_store x') (oname name (x_cur_seq x')) = None →
    ∃ (im2 : lsvd_image objmap) s wl dev, let x := reopened cfg h rc im2 s (x_cur_seq x' - 1) in
      open_image cfg name (Datatypes.S fuel) h rc (x_store x') (Some (im_dev im')) = Ret (Some (im2, x, (dev, wl))) ∧
      im_size im2 = vol_bytes / 512 * 512 ∧ wc_sequence wl = wc_sequence (im_wlog im) ∧
      fresh_image (mk_image wl dev x ∅ ∅ [] []) ∧
      ∀ k d, D k = Some d → read_sector name x k = Some d) ∧
  (¬ drained x' → ∃ x'', closing_step insert_object crc32 cfg name uuid vol_bytes x' x'' ∧
    (closing_work x'' < closing_work x')%nat).
Proof.
  intros Hcfg Hu Hv Hwin (Hid & Ho & Hlf) Hsteps Hclose Hcl Hlim Hfits.
  assert (log_ok (im_wlog im0)) as Hlok by apply Hid.
  destruct (image_steps_file im0 _ _ Hlok Hsteps (idle_durable im0 Hid) Hlf) as [Hd Hf]. cbn [fst] in *.
  destruct (du_run _ _ Hd) as (ws & rs & Hrun & _). destruct (logged_run_ok _ _ _ _ Hrun Hlok) as (Hlog & _).
  unfold close_image in Hclose. destruct (flushed _); [|done]. injection Hclose as <-. cbn [im_xlate im_dev] in *.
  assert (Refine.reachable insert_object crc32 cfg name uuid vol_bytes (im_xlate im) D) as Hr.
  { exists (im_xlate im0). split; [done|]. by apply image_steps_xlate in Hsteps. }
  assert (Refine.reachable insert_object crc32 cfg name uuid vol_bytes (shutdown cfg (im_xlate im)) D) as Hrs.
  { destruct Hr as (st0 & Ho0 & Hr). exists st0. split; [done|]. eapply rtc_r; [exact Hr|]. apply step_submit. by right. }
  pose proof (closing_reachable _ _ _ Hrs Hcl) as Hr'.
  pose proof (reachable_out insert_object crc32 cfg name uuid vol_bytes Hcfg Hu Hv _ _ Hr') as Hout.
  apply reachable_inv in Hr as [Hi _]; [|done..]. apply reachable_inv in Hrs as [His Hseqs]; [|done..].
  destruct (closing_steps insert_object crc32 cfg name uuid vol_bytes Hcfg Hu Hv _ _ D Hcl His Hseqs) as (Hi' & _ & Hcur & Hph).
  { by eapply shutdown_closing. }
  split.
  - intros Hdr Hno. destruct Hph as [(q & z & Hq & _)|[_ Hsv]].
    { destruct Hdr as [Hq0 _]. rewrite Hq0 in Hq. by destruct q. }
    destruct (saved_recovers crc32 cfg name uuid vol_bytes Hcfg Hu Hv x' D fuel h rc Hi' Hsv) as (im2 & s & Hrec & Huid & Hsz & Hop & Hread);
      [intros k; by eapply drained_bufmap|done..|].
    destruct (open_closed_log (im_wlog im) (im_dev im) Hf Hlog) as (dev & Hopen & Hlf').
    destruct (opened_cache_idle (im_wlog im) Hlog) as [Hlok' Hmax].
    exists im2, s, (opened_cache (checkpoint_super (im_wlog im)) (wc_tail (im_wlog im)) (wc_sequence (im_wlog im)) cfg), dev.
    split; [|split; [exact Hsz|split; [reflexivity|split; [|exact Hread]]]].
    + rewrite <- Huid in Hopen. exact (open_image_ok _ _ _ _ _ _ _ _ _ Hrec Hopen).
    + split; [|split; [exact Hop|exact Hlf']]. by split_and!.
  - intros Hnd. apply (closing_proceeds insert_object crc32 cfg name uuid vol_bytes Hcfg Hu Hv x' D); try done. apply Hfits.
Qed.
End image.

(** ** A concrete image *)

Definition demo_closable : image objmap bufmap (gmap string bytes) unit :=
  mk_image (opened_cache (init_super 24 demo_uuid) (zeros 4012) 1 get_default) (init_file 24 demo_uuid)
    demo_state ∅ ∅ [] [].

Lemma demo_fresh : fresh_image get_default demo_closable.
Proof.
  assert (jw_base (init_super 24 demo_uuid) = 5) as Hb by reflexivity.
  assert (jw_limit (init_super 24 demo_uuid) = 23) as Hl by reflexivity.
  split; [|split; [exact demo_opened|]]; unfold idle, demo_closable, opened_cache;
    cbn [im_writes im_log im_stored im_failed im_wlog im_dev].
  - split_and!; cbn [wc_total_write_pages wc_outstanding_writes wc_max_write_pages]; try reflexivity.
    + rewrite Hb, Hl. apply Z.leb_le. reflexivity.
    + unfold log_ok, ring_ok. cbn [wc_super wc_next_alloc wc_previous_hdr wc_sequence set_clean jw_base jw_limit].
      rewrite Hb, Hl. lia.
  - unfold log_file. cbn [wc_super wc_tail]. split; [apply super_ok_clean, init_super_ok; [lia|reflexivity]|].
    split; [cbn [set_clean jw_base]; rewrite Hb; lia|].
    split; [apply length_zeros|]. split; [eapply has_super_length, init_file_super|].
    exists (init_hdr 24). split; [apply init_file_header; lia|]. split; reflexivity.
Qed.

Lemma table_fits_om {M MB S RC} {HM : LbaMap M obj_offset} (st st' : @xstate M MB S RC) :
  x_om st' = x_om st → table_fits st → table_fits st'.
Proof. unfold table_fits, ckpt_fits. by intros ->. Qed.

(** The image closed without requests *)
Definition demo_closed : image objmap bufmap (gmap string bytes) unit :=
  mk_image (im_wlog demo_closable) (WriteCache.write_checkpoint (im_wlog demo_closable) (im_dev demo_closable)) demo_ckpt
    ∅ ∅ [] [].

Lemma close_and_reopen_witness :
  close_image get_default demo_closable = Some demo_closed ∧
  ∃ (im : lsvd_image objmap) s wl dev store,
    open_image (MB := bufmap) get_default "vol" 1 ∅ tt store (Some (im_dev demo_closed)) =
      Ret (Some (im, reopened get_default ∅ tt im s 3, (dev, wl))) ∧
    read_sector "vol" (reopened (MB := bufmap) get_default ∅ tt im s 3) 3 = Some (replicate 512 5).
Proof.
  split; [reflexivity|].
  destruct (reachable_inv demo_insert demo_crc32 get_default "vol" Refine.demo_uuid (2 ^ 30) demo_cfg_ok (proj1 demo_params)
              (proj2 demo_params) _ _ demo_ckpt_reachable) as [Hi _].
  destruct (saved_checkpoint demo_insert demo_crc32 get_default "vol" Refine.demo_uuid (2 ^ 30) (proj1 demo_params)
              (proj2 demo_params) demo_ckpt _ (new_req REQ_CKPT [] []) Hi) as (x' & Hw & _ & Hom & Hseq & Hq & Hf & Hobj).
  - change (x_cur_seq demo_ckpt) with 3. lia.
  - apply demo_table.
  - reflexivity.
  - reflexivity.
  - change (x_cur_seq demo_ckpt) with 3 in *. change (p_flight (x_pipe demo_ckpt)) with (@nil (translate_req * string * bytes)) in Hf.
    destruct (close_and_reopen demo_insert demo_crc32 get_default "vol" Refine.demo_uuid (2 ^ 30) demo_closable demo_closable
                (read_sector "vol" demo_state) demo_closed x' 0 ∅ tt) as [Hopen _].
    + exact demo_cfg_ok.
    + exact (proj1 demo_params).
    + exact (proj2 demo_params).
    + vm_compute. split; [discriminate|reflexivity].
    + exact demo_fresh.
    + apply rtc_refl.
    + reflexivity.
    + apply rtc_once. apply closing_worker; [change (im_xlate demo_closed) with demo_ckpt; change (x_cur_seq demo_ckpt) with 3; lia|apply demo_table|exact Hw].
    + rewrite Hseq. lia.
    + apply (table_fits_om demo_ckpt); [exact Hom|exact demo_table].
    + destruct Hopen as (im & s & wl & dev & Ho & _ & _ & _ & Hread).
      * split; [exact Hq|exact Hf].
      * rewrite Hseq. change (3 + 1) with 4. rewrite Hobj; [apply (demo_no_object 4); lia|lia|lia|apply not_elem_of_nil].
      * rewrite Hseq in Ho, Hread. change (3 + 1 - 1) with 3 in Ho, Hread.
        exists im, s, wl, dev, (x_store x'). split; [exact Ho|]. apply Hread. exact demo_read.
Defined.
