(* ===== verification/Rbd.v ===== *)
(** * The librbd interface (src/src/spdk_wrap.cc, src/src/liblsvd.cc)

    A request of the image and the completion that a client hands to it are
    counted objects: each starts with two references, one of its holder and one of
    the thread that completes it.  Objects are numbered; a completion and its
    request have the same number, a request without a completion (the synchronous
    calls) has one of its own.  A freed object is no longer in its map, so [None]
    is an access to freed memory, a failed assertion, or a thread that waits. *)

From S2P Require Import Prelude Bytes Memory SmartIov LsvdTypes.

(** ** Objects *)

(** [self_refcount_request] and [aio_request] *)
Record aio_request := mk_aio { rq_refs : Z; rq_done : bool }.

(** [class spdk_completion]; [sc_called] are the calls of [cb]. *)
Record spdk_completion := mk_spdk {
  sc_refs : Z;
  sc_done : bool;
  sc_retval : Z;
  sc_req : bool;
  sc_called : list Z;
}.

(** The thread that completes a request: where it stands in
    [aio_request::complete_request] and, inside it, [spdk_completion::complete]. *)
Inductive complete_pc :=
| AtStart
| AtCallback
| AtQueued
| AtDone
| AtReleased
| AtRequestDone
| AtEnd.

(** [class lsvd_rbd]: the queue of [poll_io_events] and the notifications that the
    event socket has been sent. *)
Record lsvd_rbd := mk_rbd {
  rb_ev : bool;
  rb_completions : list Z;
  rb_notified : nat;
  rb_comps : gmap Z spdk_completion;
  rb_reqs : gmap Z aio_request;
}.

Definition with_comps (st : lsvd_rbd) cs : lsvd_rbd :=
  mk_rbd (rb_ev st) (rb_completions st) (rb_notified st) cs (rb_reqs st).
Definition with_reqs (st : lsvd_rbd) rs : lsvd_rbd :=
  mk_rbd (rb_ev st) (rb_completions st) (rb_notified st) (rb_comps st) rs.

(** [self_refcount_request::dec_and_free] *)
Definition req_dec_and_free (st : lsvd_rbd) (id : Z) : option lsvd_rbd :=
  r ← rb_reqs st !! id;
  Some (with_reqs st (if rq_refs r =? 1 then delete id (rb_reqs st)
                      else <[id := mk_aio (rq_refs r - 1) (rq_done r)]> (rb_reqs st))).

(** [spdk_completion::dec_and_free], and the destructor, which releases the
    request *)
Definition dec_and_free (st : lsvd_rbd) (id : Z) : option lsvd_rbd :=
  c ← rb_comps st !! id;
  if sc_refs c =? 1 then
    let st := with_comps st (delete id (rb_comps st)) in
    if sc_req c then req_dec_and_free st id else Some st
  else
    Some (with_comps st (<[id := mk_spdk (sc_refs c - 1) (sc_done c) (sc_retval c) (sc_req c) (sc_called c)]>
                           (rb_comps st))).

(** ** Operations *)

(** [create_completion] *)
Definition create_completion (st : lsvd_rbd) (id : Z) : lsvd_rbd :=
  with_comps st (<[id := mk_spdk 2 false (-1) false []]> (rb_comps st)).

(** [lsvd_rbd::read], [write], [trim] and [flush]: the request, and
    [init_completion]; no completion for the synchronous calls. *)
Definition new_request (st : lsvd_rbd) (id : Z) (async : bool) : option lsvd_rbd :=
  let st := with_reqs st (<[id := mk_aio 2 false]> (rb_reqs st)) in
  if async then
    c ← rb_comps st !! id;
    Some (with_comps st (<[id := mk_spdk (sc_refs c) (sc_done c) (sc_retval c) true (sc_called c)]> (rb_comps st)))
  else Some st.

(** [on_request_complete] *)
Definition on_request_complete (st : lsvd_rbd) (id : Z) : lsvd_rbd :=
  if rb_ev st
  then mk_rbd true (rb_completions st ++ [id]) (S (rb_notified st)) (rb_comps st) (rb_reqs st)
  else st.

(** One step of the completing thread: [complete_request(val)], whose callback is
    [make_cb]'s. *)
Definition complete_step (st : lsvd_rbd) (id : Z) (async : bool) (val : Z) (pc : complete_pc)
    : option (lsvd_rbd * complete_pc) :=
  match pc with
  | AtStart =>
    if async then
      c ← rb_comps st !! id;
      Some (with_comps st (<[id := mk_spdk (sc_refs c) (sc_done c) val (sc_req c) (sc_called c ++ [val])]>
                             (rb_comps st)), AtCallback)
    else Some (st, AtReleased)
  | AtCallback =>
    _ ← rb_comps st !! id;
    Some (on_request_complete st id, AtQueued)
  | AtQueued =>
    c ← rb_comps st !! id;
    Some (with_comps st (<[id := mk_spdk (sc_refs c) true (sc_retval c) (sc_req c) (sc_called c)]> (rb_comps st)),
          AtDone)
  | AtDone => st ← dec_and_free st id; Some (st, AtReleased)
  | AtReleased =>
    r ← rb_reqs st !! id;
    Some (with_reqs st (<[id := mk_aio (rq_refs r) true]> (rb_reqs st)), AtRequestDone)
  | AtRequestDone => st ← req_dec_and_free st id; Some (st, AtEnd)
  | AtEnd => None
  end.

(** [spdk_completion::wait] before and after the wait: the second half does not
    free. *)
Definition wait_begin (st : lsvd_rbd) (id : Z) : option lsvd_rbd :=
  c ← rb_comps st !! id;
  Some (with_comps st (<[id := mk_spdk (sc_refs c + 1) (sc_done c) (sc_retval c) (sc_req c) (sc_called c)]>
                         (rb_comps st))).
Definition wait_end (st : lsvd_rbd) (id : Z) : option lsvd_rbd :=
  c ← rb_comps st !! id;
  if sc_done c then
    Some (with_comps st (<[id := mk_spdk (sc_refs c - 1) (sc_done c) (sc_retval c) (sc_req c) (sc_called c)]>
                           (rb_comps st)))
  else None.

(** [aio_request::wait] *)
Definition req_wait_begin (st : lsvd_rbd) (id : Z) : option lsvd_rbd :=
  r ← rb_reqs st !! id;
  Some (with_reqs st (<[id := mk_aio (rq_refs r + 1) (rq_done r)]> (rb_reqs st))).
Definition req_wait_end (st : lsvd_rbd) (id : Z) : option lsvd_rbd :=
  r ← rb_reqs st !! id;
  if rq_done r then req_dec_and_free st id else None.

(** [poll_io_events] *)
Definition poll_io_events (st : lsvd_rbd) (numcomp : nat) : option (lsvd_rbd * list Z) :=
  _ ← assert (rb_ev st);
  Some (mk_rbd true (drop numcomp (rb_completions st)) (rb_notified st) (rb_comps st) (rb_reqs st),
        take numcomp (rb_completions st)).

(** [switch_to_poll] *)
Definition switch_to_poll (st : lsvd_rbd) : lsvd_rbd :=
  mk_rbd true (rb_completions st) (rb_notified st) (rb_comps st) (rb_reqs st).

Definition get_retval (st : lsvd_rbd) (id : Z) : option Z := sc_retval <$> rb_comps st !! id.

(** ** Synchronous calls *)

Inductive sync_op := SRun | SWaitBegin | SWaitEnd | SRelease.
#[export] Instance complete_pc_eq : EqDecision complete_pc.
Proof. solve_decision. Defined.
#[export] Instance sync_op_eq : EqDecision sync_op.
Proof. solve_decision. Defined.

(** [rbd_read], [rbd_write] and [rbd_flush], after the request has been made *)
Definition rbd_read : list sync_op := [SRun; SWaitBegin; SWaitEnd; SRelease].
(** [rbd_discard] does not release the request. *)
Definition rbd_discard : list sync_op := [SRun; SWaitBegin; SWaitEnd].

Definition sync_step (st : lsvd_rbd) (id : Z) (op : sync_op) : option lsvd_rbd :=
  match op with
  | SRun => Some st
  | SWaitBegin => req_wait_begin st id
  | SWaitEnd => req_wait_end st id
  | SRelease => req_dec_and_free st id
  end.

(** ** Clients *)

(** What a client does with an object: a completion that it holds or not, with
    the threads that wait for it, and the completing thread, if the request has
    been made; or a synchronous call with what is left of it. *)
Inductive client :=
| Async (hold : bool) (waits : nat) (pc : option complete_pc) (val : Z)
| Sync (release : bool) (todo : list sync_op) (pc : option complete_pc).

Record system := mk_system {
  s_rbd : lsvd_rbd;
  s_clients : gmap Z client;
  s_polled : list Z;
}.

Definition with_client (s : system) (id : Z) (st : lsvd_rbd) (g : client) : system :=
  mk_system st (<[id := g]> (s_clients s)) (s_polled s).

(** Clients in any order, with the completing threads between them.  A client
    releases a completion that it holds once, after it has started the request,
    while no thread of it waits, and, when it polls, after it has been given the
    completion. *)
Inductive rbd_step : system → system → Prop :=
| st_create s id :
    s_clients s !! id = None →
    rbd_step s (with_client s id (create_completion (s_rbd s) id) (Async true 0 None (-1)))
| st_issue s id waits val st :
    s_clients s !! id = Some (Async true waits None val) → new_request (s_rbd s) id true = Some st →
    rbd_step s (with_client s id st (Async true waits (Some AtStart) val))
| st_complete s id hold waits pc pc' val0 val st :
    s_clients s !! id = Some (Async hold waits (Some pc) val0) → pc = AtStart ∨ val = val0 →
    complete_step (s_rbd s) id true val pc = Some (st, pc') →
    rbd_step s (with_client s id st (Async hold waits (Some pc') val))
| st_release s id pc val st :
    s_clients s !! id = Some (Async true 0 (Some pc) val) → (rb_ev (s_rbd s) = true → id ∈ s_polled s) →
    dec_and_free (s_rbd s) id = Some st →
    rbd_step s (with_client s id st (Async false 0 (Some pc) val))
| st_wait s id waits pc val st :
    s_clients s !! id = Some (Async true waits pc val) → wait_begin (s_rbd s) id = Some st →
    rbd_step s (with_client s id st (Async true (S waits) pc val))
| st_wake s id waits pc val st :
    s_clients s !! id = Some (Async true (S waits) pc val) → wait_end (s_rbd s) id = Some st →
    rbd_step s (with_client s id st (Async true waits pc val))
| st_poll s n st ids :
    poll_io_events (s_rbd s) n = Some (st, ids) →
    rbd_step s (mk_system st (s_clients s) (s_polled s ++ ids))
| st_call s id release st :
    s_clients s !! id = None → new_request (s_rbd s) id false = Some st →
    rbd_step s (with_client s id st (Sync release (if release then rbd_read else rbd_discard) None))
| st_sync s id release op todo pc st :
    s_clients s !! id = Some (Sync release (op :: todo) pc) → sync_step (s_rbd s) id op = Some st →
    rbd_step s (with_client s id st (Sync release todo (Some (default AtStart pc))))
| st_sync_complete s id release todo pc pc' val st :
    s_clients s !! id = Some (Sync release todo (Some pc)) →
    complete_step (s_rbd s) id false val pc = Some (st, pc') →
    rbd_step s (with_client s id st (Sync release todo (Some pc'))).

Definition rbd_start (ev : bool) : system := mk_system (mk_rbd ev [] 0 ∅ ∅) ∅ [].
Definition rbd_reachable (s : system) : Prop := ∃ ev, rtc rbd_step (rbd_start ev) s.

(** ** What the objects are *)

(** The completing thread is before its [dec_and_free] of the completion, or of
    the request. *)
Definition pending_comp (pc : option complete_pc) : bool :=
  match pc with Some (AtReleased | AtRequestDone | AtEnd) => false | _ => true end.
Definition pending_req (pc : option complete_pc) : bool :=
  match pc with Some AtEnd => false | _ => true end.

Definition called_of (pc : option complete_pc) (val : Z) : list Z :=
  match pc with None | Some AtStart => [] | _ => [val] end.
Definition done_of (pc : option complete_pc) : bool :=
  match pc with None | Some (AtStart | AtCallback | AtQueued) => false | _ => true end.
Definition req_done_of (pc : option complete_pc) : bool :=
  match pc with Some (AtRequestDone | AtEnd) => true | _ => false end.

Definition bz (b : bool) : Z := if b then 1 else 0.

(** An object with [n] references, gone when there is none *)
Definition counted {A} (n : Z) (x : A) : option A := if n =? 0 then None else Some x.

(** The completion and the request of a client *)
Definition expected (g : option client) : option spdk_completion * option aio_request :=
  match g with
  | None => (None, None)
  | Some (Async hold waits pc val) =>
    let n := bz hold + bz (pending_comp pc) in
    (counted n (mk_spdk (n + Z.of_nat waits) (done_of pc)
                  (if called_of pc val is [] then -1 else val) (bool_decide (is_Some pc)) (called_of pc val)),
     if bool_decide (is_Some pc) then
       let n := bz (hold || pending_comp pc) + bz (pending_req pc) in
       counted n (mk_aio n (req_done_of pc))
     else None)
  | Some (Sync release todo pc) =>
    let holds := if release then bool_decide (SRelease ∈ todo) else true in
    let n := bz holds + bz (pending_req pc) + bz (bool_decide (head todo = Some SWaitEnd)) in
    (None, counted n (mk_aio n (req_done_of pc)))
  end.

(** A client that does not wait for what it has released; a call that has been
    started has a completing thread. *)
Definition client_ok (g : client) : Prop :=
  match g with
  | Async hold waits pc val => (hold = false → waits = 0%nat ∧ pc ≠ None)
  | Sync release todo pc =>
    let call := if release then rbd_read else rbd_discard in
    (todo = call ∧ pc = None ∨ pc ≠ None ∧ todo ∈ [drop 1 call; drop 2 call; drop 3 call; drop 4 call]) ∧
    match pc with Some (AtCallback | AtQueued | AtDone) => False | _ => True end
  end.

Definition objects_ok (s : system) : Prop := ∀ id,
  (rb_comps (s_rbd s) !! id, rb_reqs (s_rbd s) !! id) = expected (s_clients s !! id) ∧
  ∀ g, s_clients s !! id = Some g → client_ok g.

(** ** Operations touch one number *)

Definition local (st : lsvd_rbd) (id : Z) := (rb_comps st !! id, rb_reqs st !! id).
Definition others (st st' : lsvd_rbd) (id : Z) : Prop := ∀ j, j ≠ id → local st' j = local st j.

Lemma local_comp st id c : local (with_comps st (<[id := c]> (rb_comps st))) id = (Some c, rb_reqs st !! id).
Proof. unfold local. cbn [with_comps rb_comps rb_reqs]. by rewrite lookup_insert_eq. Qed.

Lemma local_req st id r : local (with_reqs st (<[id := r]> (rb_reqs st))) id = (rb_comps st !! id, Some r).
Proof. unfold local. cbn [with_reqs rb_comps rb_reqs]. by rewrite lookup_insert_eq. Qed.

Lemma others_comp st id c : others st (with_comps st (<[id := c]> (rb_comps st))) id.
Proof. intros j Hj. unfold local. cbn [with_comps rb_comps rb_reqs]. by rewrite lookup_insert_ne. Qed.

Lemma others_req st id r : others st (with_reqs st (<[id := r]> (rb_reqs st))) id.
Proof. intros j Hj. unfold local. cbn [with_reqs rb_comps rb_reqs]. by rewrite lookup_insert_ne. Qed.

Lemma others_trans st1 st2 st3 id : others st1 st2 id → others st2 st3 id → others st1 st3 id.
Proof. intros H1 H2 j Hj. by rewrite H2, H1. Qed.

Lemma req_dec_local st id r :
  rb_reqs st !! id = Some r →
  ∃ st', req_dec_and_free st id = Some st' ∧ others st st' id ∧
    local st' id = (rb_comps st !! id, counted (rq_refs r - 1) (mk_aio (rq_refs r - 1) (rq_done r))).
Proof.
  intros Hr. unfold req_dec_and_free. rewrite Hr. cbn [mbind option_bind]. eexists. split; [done|].
  unfold counted. destruct (rq_refs r =? 1) eqn:E; zb.
  - rewrite (proj2 (Z.eqb_eq _ _)) by lia. split.
    + intros j Hj. unfold local. cbn [with_reqs rb_comps rb_reqs]. by rewrite lookup_delete_ne.
    + unfold local. cbn [with_reqs rb_comps rb_reqs]. by rewrite lookup_delete_eq.
  - rewrite (proj2 (Z.eqb_neq _ _)) by lia. split; [apply others_req|apply local_req].
Qed.

Lemma comp_dec_local st id c :
  rb_comps st !! id = Some c → (sc_refs c = 1 → sc_req c = true → is_Some (rb_reqs st !! id)) →
  ∃ st', dec_and_free st id = Some st' ∧ others st st' id ∧
    local st' id =
      (counted (sc_refs c - 1) (mk_spdk (sc_refs c - 1) (sc_done c) (sc_retval c) (sc_req c) (sc_called c)),
       if (sc_refs c =? 1) && sc_req c
       then r ← rb_reqs st !! id; counted (rq_refs r - 1) (mk_aio (rq_refs r - 1) (rq_done r))
       else rb_reqs st !! id).
Proof.
  intros Hc Hreq. unfold dec_and_free. rewrite Hc. cbn [mbind option_bind]. unfold counted at 1.
  destruct (sc_refs c =? 1) eqn:E; zb.
  - rewrite (proj2 (Z.eqb_eq (sc_refs c - 1) 0)) by lia.
    set (st1 := with_comps st (delete id (rb_comps st))).
    assert (others st st1 id) as Ho.
    { intros j Hj. unfold local, st1. cbn [with_comps rb_comps rb_reqs]. by rewrite lookup_delete_ne. }
    assert (rb_comps st1 !! id = None) as Hn by apply lookup_delete_eq.
    destruct (sc_req c) eqn:Er; cbn [andb].
    + destruct (Hreq E eq_refl) as [r Hr]. destruct (req_dec_local st1 id r Hr) as (st' & Hd & Ho' & Hl).
      exists st'. split; [done|]. split; [by eapply others_trans|]. rewrite Hl, Hn, Hr. done.
    + exists st1. split; [done|]. split; [done|]. unfold local. by rewrite Hn.
  - rewrite (proj2 (Z.eqb_neq (sc_refs c - 1) 0)) by lia. cbn [andb]. eexists. split; [done|].
    split; [apply others_comp|apply local_comp].
Qed.

Lemma objects_with s id st g :
  objects_ok s → others (s_rbd s) st id → local st id = expected (Some g) → client_ok g →
  objects_ok (with_client s id st g).
Proof.
  intros Hok Ho Hl Hg j. cbn [with_client s_rbd s_clients]. destruct (decide (j = id)) as [->|Hj].
  - rewrite lookup_insert_eq. split; [exact Hl|]. by intros ? [= <-].
  - rewrite lookup_insert_ne by done. pose proof (Ho j Hj) as Hj'. unfold local in Hj'. rewrite Hj'. apply Hok.
Qed.

Lemma counted_pos {A} n (x : A) : 0 < n → counted n x = Some x.
Proof. intros. unfold counted. by rewrite (proj2 (Z.eqb_neq _ _)) by lia. Qed.

Lemma counted_zero {A} n (x : A) : n = 0 → counted n x = None.
Proof. intros ->. done. Qed.

(** The objects of a client before an operation *)
Lemma client_objects s id g :
  objects_ok s → s_clients s !! id = Some g →
  rb_comps (s_rbd s) !! id = (expected (Some g)).1 ∧ rb_reqs (s_rbd s) !! id = (expected (Some g)).2 ∧ client_ok g.
Proof.
  intros Hok Hg. destruct (Hok id) as [Hl Hcl]. rewrite Hg in Hl. rewrite <- Hl. auto.
Qed.

(** Whether the references are counted out, when they are numbers *)
Ltac counted :=
  repeat first [rewrite counted_pos by (simpl; lia) | rewrite counted_zero by (simpl; lia)].

Lemma complete_async s id hold waits pc val0 val :
  objects_ok s → s_clients s !! id = Some (Async hold waits (Some pc) val0) →
  pc ≠ AtEnd → pc = AtStart ∨ val = val0 →
  ∃ st pc', complete_step (s_rbd s) id true val pc = Some (st, pc') ∧ others (s_rbd s) st id ∧
    local st id = expected (Some (Async hold waits (Some pc') val)).
Proof.
  intros Hok Hg Hne Hval. destruct (client_objects _ _ _ Hok Hg) as (Hc & Hr & Hcl).
  destruct pc; try done.
  - destruct hold; cbn in Hc, Hr; rewrite counted_pos in Hc by done; rewrite counted_pos in Hr by done;
      cbn [complete_step]; rewrite Hc; cbn [mbind option_bind]; eexists _, _;
      (split; [reflexivity|]); (split; [apply others_comp|]); by rewrite local_comp, Hr.
  - destruct Hval as [|<-]; [done|].
    destruct hold; cbn in Hc, Hr; rewrite counted_pos in Hc by done; rewrite counted_pos in Hr by done;
      cbn [complete_step]; rewrite Hc; cbn [mbind option_bind]; eexists _, _;
      (split; [reflexivity|]); unfold on_request_complete;
      (split; [by destruct (rb_ev (s_rbd s))|]);
      unfold local; destruct (rb_ev (s_rbd s)); cbn [rb_comps rb_reqs]; by rewrite Hc, Hr.
  - destruct Hval as [|<-]; [done|].
    destruct hold; cbn in Hc, Hr; rewrite counted_pos in Hc by done; rewrite counted_pos in Hr by done;
      cbn [complete_step]; rewrite Hc; cbn [mbind option_bind]; eexists _, _;
      (split; [reflexivity|]); (split; [apply others_comp|]); by rewrite local_comp, Hr.
  - destruct Hval as [|<-]; [done|].
    destruct hold; cbn in Hc, Hr; rewrite counted_pos in Hc by done; rewrite counted_pos in Hr by done;
      destruct (comp_dec_local (s_rbd s) id _ Hc) as (st & Hd & Ho & Hl); try (rewrite Hr; done);
      exists st, AtReleased; cbn [complete_step]; rewrite Hd; (split; [done|]); (split; [done|]);
      rewrite Hl, Hr; cbn [sc_refs sc_req sc_done sc_retval sc_called].
    + rewrite (proj2 (Z.eqb_neq _ _)) by lia. rewrite counted_pos by lia. cbn. do 3 f_equal; lia.
    + destruct Hcl as [-> _]; done.
  - destruct Hval as [|<-]; [done|].
    destruct hold; cbn in Hc, Hr; rewrite counted_pos in Hr by done;
      cbn [complete_step]; rewrite Hr; cbn [mbind option_bind]; eexists _, _;
      (split; [reflexivity|]); (split; [apply others_req|]); by rewrite local_req, Hc.
  - destruct Hval as [|<-]; [done|].
    destruct hold; cbn in Hc, Hr; rewrite counted_pos in Hr by done;
      destruct (req_dec_local (s_rbd s) id _ Hr) as (st & Hd & Ho & Hl);
      exists st, AtEnd; cbn [complete_step]; rewrite Hd; (split; [done|]); (split; [done|]);
      rewrite Hl, Hc; done.
Qed.

Lemma release_async s id pc val :
  objects_ok s → s_clients s !! id = Some (Async true 0 (Some pc) val) →
  ∃ st, dec_and_free (s_rbd s) id = Some st ∧ others (s_rbd s) st id ∧
    local st id = expected (Some (Async false 0 (Some pc) val)).
Proof.
  intros Hok Hg. destruct (client_objects _ _ _ Hok Hg) as (Hc & Hr & _).
  cbn in Hc, Hr. rewrite counted_pos in Hc by (by destruct pc). rewrite counted_pos in Hr by (by destruct pc).
  destruct (comp_dec_local (s_rbd s) id _ Hc) as (st & Hd & Ho & Hl); [by rewrite Hr|].
  exists st. split; [done|]. split; [done|]. rewrite Hl, Hr. by destruct pc.
Qed.

Lemma wait_async s id waits pc val :
  objects_ok s → s_clients s !! id = Some (Async true waits pc val) →
  ∃ st, wait_begin (s_rbd s) id = Some st ∧ others (s_rbd s) st id ∧
    local st id = expected (Some (Async true (S waits) pc val)).
Proof.
  intros Hok Hg. destruct (client_objects _ _ _ Hok Hg) as (Hc & Hr & _).
  cbn [expected fst] in Hc. rewrite counted_pos in Hc by (by destruct pc as [[]|]).
  unfold wait_begin. rewrite Hc. cbn [mbind option_bind]. eexists. split; [done|]. split; [apply others_comp|].
  rewrite local_comp, Hr. cbn [expected snd sc_refs sc_done sc_retval sc_req sc_called].
  rewrite (counted_pos (bz true + bz (pending_comp pc))) by (by destruct pc as [[]|]). do 3 f_equal. lia.
Qed.

Lemma wake_async s id waits pc val :
  objects_ok s → s_clients s !! id = Some (Async true (S waits) pc val) → done_of pc = true →
  ∃ st, wait_end (s_rbd s) id = Some st ∧ others (s_rbd s) st id ∧
    local st id = expected (Some (Async true waits pc val)).
Proof.
  intros Hok Hg Hdn. destruct (client_objects _ _ _ Hok Hg) as (Hc & Hr & _).
  cbn [expected fst] in Hc. rewrite counted_pos in Hc by (by destruct pc as [[]|]).
  unfold wait_end. rewrite Hc. cbn [mbind option_bind sc_done]. rewrite Hdn.
  eexists. split; [done|]. split; [apply others_comp|].
  rewrite local_comp, Hr. cbn [expected snd sc_refs sc_done sc_retval sc_req sc_called].
  rewrite (counted_pos (bz true + bz (pending_comp pc))), Hdn by (by destruct pc as [[]|]). do 3 f_equal. lia.
Qed.

Lemma issue_async s id waits val :
  objects_ok s → s_clients s !! id = Some (Async true waits None val) →
  ∃ st, new_request (s_rbd s) id true = Some st ∧ others (s_rbd s) st id ∧
    local st id = expected (Some (Async true waits (Some AtStart) val)).
Proof.
  intros Hok Hg. destruct (client_objects _ _ _ Hok Hg) as (Hc & Hr & _).
  cbn in Hc. rewrite counted_pos in Hc by done. unfold new_request.
  cbn [with_reqs rb_comps]. rewrite Hc. cbn [mbind option_bind]. eexists. split; [done|]. split.
  - intros j Hj. unfold local. cbn [with_comps with_reqs rb_comps rb_reqs]. by rewrite !lookup_insert_ne.
  - unfold local. cbn [with_comps with_reqs rb_comps rb_reqs]. by rewrite !lookup_insert_eq.
Qed.

(** Synchronous calls *)

Lemma sync_op_ok s id release op todo pc :
  objects_ok s → s_clients s !! id = Some (Sync release (op :: todo) pc) →
  (op = SWaitEnd → req_done_of pc = true) →
  ∃ st, sync_step (s_rbd s) id op = Some st ∧ others (s_rbd s) st id ∧
    local st id = expected (Some (Sync release todo (Some (default AtStart pc)))) ∧
    client_ok (Sync release todo (Some (default AtStart pc))).
Proof.
  intros Hok Hg Hdn. destruct (client_objects _ _ _ Hok Hg) as (Hc & Hr & Hcl).
  assert (∃ b, (bool_decide (SRelease ∈ op :: todo) = b)) as [b Hb] by eauto.
  destruct Hcl as [[[Htodo ->]|[Hpc Htodo]] Hsp].
  - assert (op = SRun) as -> by (by destruct release; injection Htodo).
    exists (s_rbd s). cbn [sync_step]. split; [done|]. split; [done|]. cbn in Hc, Hr.
    split; [|split; [|done]; right; split; [done|]; destruct release; injection Htodo as ->; set_solver].
    unfold local. rewrite Hc, Hr. by destruct release; injection Htodo as ->.
  - destruct pc as [pc|]; [|done]. cbn [default]. cbn in Hc, Hr.
    assert (release = true ∧ op :: todo ∈ [[SWaitBegin; SWaitEnd; SRelease]; [SWaitEnd; SRelease]; [SRelease]] ∨
            release = false ∧ op :: todo ∈ [[SWaitBegin; SWaitEnd]; [SWaitEnd]]) as Hcase.
    { destruct release; [left|right]; (split; [done|]); cbn in Htodo; set_solver. }
    assert (∀ st, others (s_rbd s) st id →
              local st id = expected (Some (Sync release todo (Some pc))) →
              others (s_rbd s) st id ∧ local st id = expected (Some (Sync release todo (Some pc))) ∧
              client_ok (Sync release todo (Some pc))) as Hfin.
    { intros st Ho Hl. split; [done|]. split; [done|]. split; [|exact Hsp]. right. split; [done|].
      destruct Hcase as [[-> Hin]|[-> Hin]]; cbn; set_solver. }
    destruct Hcase as [[-> Hin]|[-> Hin]]; rewrite !elem_of_cons, elem_of_nil in Hin;
      [destruct Hin as [E|[E|[E|[]]]]|destruct Hin as [E|[E|[]]]]; injection E as -> ->.
    all: cbn in Hr; rewrite counted_pos in Hr by (by destruct pc); change (default AtStart (Some pc)) with pc in *.
    1, 4: cbn [sync_step]; unfold req_wait_begin; rewrite Hr; cbn [mbind option_bind]; eexists; (split; [done|]);
      apply Hfin; [apply others_req|]; rewrite local_req, Hc; by destruct pc.
    1, 3: cbn [sync_step]; unfold req_wait_end; rewrite Hr; cbn [mbind option_bind rq_done];
      specialize (Hdn eq_refl); destruct (req_dec_local _ _ _ Hr) as (st & Hd & Ho & Hl);
      exists st; (split; [by destruct pc|]); apply Hfin; [done|]; rewrite Hl, Hc; by destruct pc.
    destruct (req_dec_local _ _ _ Hr) as (st & Hd & Ho & Hl). exists st. split; [exact Hd|].
    apply Hfin; [done|]. rewrite Hl, Hc. by destruct pc.
Qed.

Lemma complete_sync s id release todo pc val :
  objects_ok s → s_clients s !! id = Some (Sync release todo (Some pc)) → pc ≠ AtEnd →
  ∃ st pc', complete_step (s_rbd s) id false val pc = Some (st, pc') ∧ others (s_rbd s) st id ∧
    local st id = expected (Some (Sync release todo (Some pc'))) ∧
    (pc' = AtReleased ∨ pc' = AtRequestDone ∨ pc' = AtEnd).
Proof.
  intros Hok Hg Hne. destruct (client_objects _ _ _ Hok Hg) as (Hc & Hr & _ & Hsp).
  assert (pc = AtStart ∨ pc = AtReleased ∨ pc = AtRequestDone) as Hpc by (destruct pc; auto; done).
  cbn [expected fst snd] in Hc, Hr.
  set (holds := if release then _ else _) in Hr. set (wt := bool_decide _) in Hr.
  assert (0 < bz holds + bz (pending_req (Some pc)) + bz wt) as Hpos.
  { destruct Hpc as [->|[->| ->]], holds, wt; cbn; lia. }
  rewrite counted_pos in Hr by exact Hpos. destruct Hpc as [->|[->| ->]]; cbn [complete_step].
  - exists (s_rbd s), AtReleased. split; [done|]. split; [done|]. split; [|auto].
    unfold local. rewrite Hc, Hr. cbn [expected]. fold holds wt. rewrite counted_pos by exact Hpos. done.
  - rewrite Hr. cbn [mbind option_bind]. eexists _, AtRequestDone. split; [done|]. split; [apply others_req|].
    split; [|auto]. rewrite local_req, Hc. cbn [expected]. fold holds wt. rewrite counted_pos by exact Hpos. done.
  - destruct (req_dec_local _ _ _ Hr) as (st & Hd & Ho & Hl). exists st, AtEnd. rewrite Hd. split; [done|].
    split; [done|]. split; [|auto]. rewrite Hl, Hc. cbn [expected]. fold holds wt.
    f_equal. cbn [rq_refs rq_done pending_req req_done_of]. unfold bz at 2 5 8 11.
    replace (bz holds + 1 + bz wt - 1) with (bz holds + 0 + bz wt) by lia. done.
Qed.

(** ** The queue *)

(** Nothing but [on_request_complete] and [poll_io_events] touches the queue. *)
Definition same_queue (st st' : lsvd_rbd) : Prop :=
  rb_ev st' = rb_ev st ∧ rb_completions st' = rb_completions st.

Lemma req_dec_queue st id st' : req_dec_and_free st id = Some st' → same_queue st st'.
Proof. unfold req_dec_and_free. by intros (r & _ & [= <-])%bind_Some. Qed.

Lemma comp_dec_queue st id st' : dec_and_free st id = Some st' → same_queue st st'.
Proof.
  unfold dec_and_free. intros (c & _ & H)%bind_Some. destruct (_ =? 1); [|by injection H as <-].
  destruct (sc_req c); [|by injection H as <-]. by apply req_dec_queue in H.
Qed.

Lemma new_request_queue st id async st' : new_request st id async = Some st' → same_queue st st'.
Proof.
  unfold new_request. destruct async; [|by intros [= <-]]. by intros (c & _ & [= <-])%bind_Some.
Qed.

Lemma sync_step_queue st id op st' : sync_step st id op = Some st' → same_queue st st'.
Proof.
  destruct op; cbn [sync_step].
  - by intros [= <-].
  - unfold req_wait_begin. by intros (r & _ & [= <-])%bind_Some.
  - unfold req_wait_end. intros (r & _ & H)%bind_Some. destruct (rq_done r); [|done]. by apply req_dec_queue in H.
  - apply req_dec_queue.
Qed.

Lemma complete_queue st id async val pc st' pc' :
  complete_step st id async val pc = Some (st', pc') →
  if decide (pc = AtCallback) then st' = on_request_complete st id ∧ pc' = AtQueued else same_queue st st'.
Proof.
  destruct pc; cbn [complete_step]; cbn [decide].
  - destruct async; [|by intros [= <- _]]. by intros (c & _ & [= <- _])%bind_Some.
  - by intros (c & _ & [= <- <-])%bind_Some.
  - by intros (c & _ & [= <- _])%bind_Some.
  - intros (st1 & H & [= <- _])%bind_Some. by apply comp_dec_queue in H.
  - by intros (c & _ & [= <- _])%bind_Some.
  - intros (st1 & H & [= <- _])%bind_Some. by apply req_dec_queue in H.
  - done.
Qed.

Definition async_queued (o : option client) : bool :=
  match o with
  | Some (Async _ _ (Some pc) _) => match pc with AtStart | AtCallback => false | _ => true end
  | _ => false
  end.
Definition async_held (o : option client) : bool :=
  match o with Some (Async hold _ _ _) => hold | _ => false end.

(** A client that polls is given each of its completions once, when its callback
    has been called; until then the client holds it. *)
Record queue_ok (s : system) : Prop := mk_queue_ok {
  qo_nodup : NoDup (s_polled s ++ rb_completions (s_rbd s));
  qo_in : ∀ id, id ∈ s_polled s ++ rb_completions (s_rbd s) ↔
    rb_ev (s_rbd s) = true ∧ async_queued (s_clients s !! id) = true;
  qo_held : ∀ id, id ∈ rb_completions (s_rbd s) → async_held (s_clients s !! id) = true;
  qo_released : ∀ id waits pc val, rb_ev (s_rbd s) = true →
    s_clients s !! id = Some (Async false waits pc val) → id ∈ s_polled s;
}.

Lemma queue_keep s id st g :
  queue_ok s → same_queue (s_rbd s) st →
  async_queued (s_clients s !! id) = async_queued (Some g) →
  (id ∈ rb_completions (s_rbd s) → async_held (Some g) = true) →
  (∀ waits pc val, rb_ev (s_rbd s) = true → g = Async false waits pc val → id ∈ s_polled s) →
  queue_ok (with_client s id st g).
Proof.
  intros [Hnd Hin Hh Hr] [Hev Hq] Hsame Hg Hrel. split; cbn [with_client s_polled s_rbd s_clients];
    rewrite ?Hq, ?Hev; [done|..].
  - intros j. destruct (decide (j = id)) as [->|Hj].
    + rewrite lookup_insert_eq, <- Hsame. apply Hin.
    + rewrite lookup_insert_ne by done. apply Hin.
  - intros j Hj. destruct (decide (j = id)) as [->|Hne].
    + rewrite lookup_insert_eq. by apply Hg.
    + rewrite lookup_insert_ne by done. by apply Hh.
  - intros j waits pc val He. destruct (decide (j = id)) as [->|Hne].
    + rewrite lookup_insert_eq. intros [= ->]. by eapply Hrel.
    + rewrite lookup_insert_ne by done. by apply Hr.
Qed.

Lemma queue_push s id hold waits val :
  queue_ok s → s_clients s !! id = Some (Async hold waits (Some AtCallback) val) →
  queue_ok (with_client s id (on_request_complete (s_rbd s) id) (Async hold waits (Some AtQueued) val)).
Proof.
  intros Hq Hg. destruct Hq as [Hnd Hin Hh Hr]. unfold on_request_complete.
  assert (id ∉ s_polled s ++ rb_completions (s_rbd s)) as Hnew.
  { intros Hi. apply Hin in Hi as [_ Hi]. by rewrite Hg in Hi. }
  destruct (rb_ev (s_rbd s)) eqn:Hev.
  - assert (hold = true) as ->.
    { destruct hold; [done|]. destruct Hnew. apply elem_of_app. left. by eapply Hr. }
    split; cbn [with_client s_polled s_rbd s_clients rb_completions rb_ev].
    + rewrite app_assoc. apply NoDup_app. split; [done|]. split; [|apply NoDup_singleton].
      intros j Hj ->%list_elem_of_singleton. done.
    + intros j. rewrite app_assoc, elem_of_app, list_elem_of_singleton, Hin.
      destruct (decide (j = id)) as [->|Hne].
      * rewrite lookup_insert_eq. cbn. split; auto.
      * rewrite lookup_insert_ne by done. naive_solver.
    + intros j. rewrite elem_of_app, list_elem_of_singleton. destruct (decide (j = id)) as [->|Hne].
      * by rewrite lookup_insert_eq.
      * rewrite lookup_insert_ne by done. intros [?|?]; [by apply Hh|done].
    + intros j w pc v _. destruct (decide (j = id)) as [->|Hne].
      * by rewrite lookup_insert_eq.
      * rewrite lookup_insert_ne by done. by apply Hr.
  - split; cbn [with_client s_polled s_rbd s_clients]; rewrite ?Hev; [done|..].
    + intros j. rewrite Hin. naive_solver.
    + intros j Hj. assert (j ∈ s_polled s ++ rb_completions (s_rbd s)) as Hj' by (apply elem_of_app; by right).
      apply Hin in Hj' as [? _]. done.
    + done.
Qed.

Lemma poll_ok s n st ids :
  queue_ok s → poll_io_events (s_rbd s) n = Some (st, ids) →
  queue_ok (mk_system st (s_clients s) (s_polled s ++ ids)).
Proof.
  intros [Hnd Hin Hh Hr] Hp. unfold poll_io_events, assert in Hp. destruct (rb_ev (s_rbd s)) eqn:Hev; [|done].
  injection Hp as <- <-.
  assert (∀ l : list Z, (l ++ take n (rb_completions (s_rbd s))) ++ drop n (rb_completions (s_rbd s)) =
            l ++ rb_completions (s_rbd s)) as Hl by (intros l; by rewrite <- app_assoc, take_drop).
  split; cbn [s_polled s_rbd s_clients rb_completions rb_ev]; rewrite ?Hl; [done|done|..].
  - intros id Hi. apply Hh. rewrite <- (take_drop n (rb_completions (s_rbd s))). apply elem_of_app. by right.
  - intros id w pc v _ Hg. apply elem_of_app. left. by eapply Hr.
Qed.

(** ** Every reachable state *)

Definition rbd_inv (s : system) : Prop := objects_ok s ∧ queue_ok s.

Lemma complete_keeps s id hold waits pc pc' val0 val st :
  rbd_inv s → s_clients s !! id = Some (Async hold waits (Some pc) val0) → pc = AtStart ∨ val = val0 →
  complete_step (s_rbd s) id true val pc = Some (st, pc') →
  rbd_inv (with_client s id st (Async hold waits (Some pc') val)).
Proof.
  intros [Hok Hq] Hg Hv Ho. assert (pc ≠ AtEnd) as Hne by (intros ->; done).
  destruct (complete_async s id hold waits pc val0 val Hok Hg Hne Hv) as (st' & pc1 & Ho' & Hot & Hl).
  pose proof (complete_queue _ _ _ _ _ _ _ Ho) as Hcq. simplify_eq.
  pose proof (proj2 (Hok id) _ Hg) as Hcl. split; [apply objects_with; [done|done|done|]|].
  { intros E. by destruct (Hcl E). }
  case_decide as Hpc.
  - destruct Hcq as [-> ->]. subst pc. destruct Hv as [| ->]; [done|]. by apply queue_push.
  - pose proof (qo_held s Hq id) as Hh. rewrite Hg in Hh. apply queue_keep; [done|done| |done|].
    + rewrite Hg. destruct pc; try done; cbn [complete_step] in Ho;
        repeat (apply bind_Some in Ho as (? & _ & Ho)); by injection Ho as _ <-.
    + intros w p v He Ew. injection Ew as -> _ _ _. by apply (qo_released s Hq id _ _ _ He Hg).
Qed.

Lemma release_keeps s id pc val st :
  rbd_inv s → s_clients s !! id = Some (Async true 0 (Some pc) val) →
  (rb_ev (s_rbd s) = true → id ∈ s_polled s) → dec_and_free (s_rbd s) id = Some st →
  rbd_inv (with_client s id st (Async false 0 (Some pc) val)).
Proof.
  intros [Hok Hq] Hg Hp Ho. pose proof (comp_dec_queue _ _ _ Ho).
  destruct (release_async s id pc val Hok Hg) as (st' & Ho' & Hot & Hl).
  simplify_eq. split; [by apply objects_with|]. apply queue_keep; [done|done|by rewrite Hg|..].
  - intros Hin. assert (id ∈ s_polled s ++ rb_completions (s_rbd s)) as Hin' by (apply elem_of_app; by right).
    apply (qo_in s Hq) in Hin' as [He _]. pose proof (qo_nodup s Hq) as Hnd.
    apply NoDup_app in Hnd as (_ & Hd & _). by destruct (Hd id (Hp He)).
  - intros w p v He _. by apply Hp.
Qed.

Lemma wait_keeps s id waits pc val st :
  rbd_inv s → s_clients s !! id = Some (Async true waits pc val) → wait_begin (s_rbd s) id = Some st →
  rbd_inv (with_client s id st (Async true (S waits) pc val)).
Proof.
  intros [Hok Hq] Hg Ho. destruct (wait_async s id waits pc val Hok Hg) as (st' & Ho' & Hot & Hl).
  assert (same_queue (s_rbd s) st) by (unfold wait_begin in Ho; by apply bind_Some in Ho as (? & _ & [= <-])).
  simplify_eq. split; [by apply objects_with|]. apply queue_keep; [done|done|by rewrite Hg|done|done].
Qed.

Lemma wake_keeps s id waits pc val st :
  rbd_inv s → s_clients s !! id = Some (Async true (S waits) pc val) → wait_end (s_rbd s) id = Some st →
  rbd_inv (with_client s id st (Async true waits pc val)).
Proof.
  intros [Hok Hq] Hg Ho. assert (done_of pc = true ∧ same_queue (s_rbd s) st) as [Hdn Hsq].
  { destruct (client_objects _ _ _ Hok Hg) as (Hc & _ & _). cbn [expected fst] in Hc.
    rewrite counted_pos in Hc by (by destruct pc as [[]|]). unfold wait_end in Ho. rewrite Hc in Ho.
    cbn [mbind option_bind sc_done] in Ho. destruct (done_of pc); [|done]. by injection Ho as <-. }
  destruct (wake_async s id waits pc val Hok Hg Hdn) as (st' & Ho' & Hot & Hl).
  simplify_eq. split; [by apply objects_with|]. apply queue_keep; [done|done|by rewrite Hg|done|done].
Qed.

(** A synchronous call is not in the queue. *)
Lemma queue_sync s id st release todo pc :
  queue_ok s → same_queue (s_rbd s) st → async_held (s_clients s !! id) = false →
  async_queued (s_clients s !! id) = false → queue_ok (with_client s id st (Sync release todo pc)).
Proof.
  intros Hq Hs Hh Hn. apply queue_keep; [done|done|by rewrite Hn|..]; [|done].
  intros Hin%(qo_held s Hq). by rewrite Hh in Hin.
Qed.

Lemma call_keeps s id release st :
  rbd_inv s → s_clients s !! id = None → new_request (s_rbd s) id false = Some st →
  rbd_inv (with_client s id st (Sync release (if release then rbd_read else rbd_discard) None)).
Proof.
  intros [Hok Hq] Hg Ho. pose proof (new_request_queue _ _ _ _ Ho). injection Ho as <-.
  split; [|apply queue_sync; [done|done|by rewrite Hg|by rewrite Hg]].
  apply objects_with; [done|apply others_req| |].
  - rewrite local_req. destruct (Hok id) as [Hl _]. rewrite Hg in Hl. injection Hl as Hc _. rewrite Hc.
    by destruct release.
  - split; [by left|done].
Qed.

Lemma sync_keeps s id release op todo pc st :
  rbd_inv s → s_clients s !! id = Some (Sync release (op :: todo) pc) → sync_step (s_rbd s) id op = Some st →
  rbd_inv (with_client s id st (Sync release todo (Some (default AtStart pc)))).
Proof.
  intros [Hok Hq] Hg Ho. pose proof (sync_step_queue _ _ _ _ Ho).
  assert (op = SWaitEnd → req_done_of pc = true) as Hdn.
  { intros ->. destruct (client_objects _ _ _ Hok Hg) as (_ & Hr & _). cbn [sync_step] in Ho.
    unfold req_wait_end in Ho. apply bind_Some in Ho as (r & Hr' & Ho). rewrite Hr' in Hr. cbn [expected snd] in Hr.
    unfold counted in Hr. destruct (_ =? 0) in Hr; [done|]. injection Hr as ->. cbn [rq_done] in Ho.
    by destruct (req_done_of pc). }
  destruct (sync_op_ok s id release op todo pc Hok Hg Hdn) as (st' & Ho' & Hot & Hl & Hcl).
  simplify_eq. split; [by apply objects_with|]. by apply queue_sync; rewrite ?Hg.
Qed.

Lemma sync_complete_keeps s id release todo pc pc' val st :
  rbd_inv s → s_clients s !! id = Some (Sync release todo (Some pc)) →
  complete_step (s_rbd s) id false val pc = Some (st, pc') →
  rbd_inv (with_client s id st (Sync release todo (Some pc'))).
Proof.
  intros [Hok Hq] Hg Ho. assert (pc ≠ AtEnd) as Hne by (intros ->; done).
  destruct (complete_sync s id release todo pc val Hok Hg Hne) as (st' & pc1 & Ho' & Hot & Hl & Hpc).
  pose proof (complete_queue _ _ _ _ _ _ _ Ho) as Hcq. simplify_eq.
  pose proof (proj2 (Hok id) _ Hg) as [Hcl Hsp]. rewrite decide_False in Hcq by (by intros ->).
  split; [|by apply queue_sync; rewrite ?Hg]. apply objects_with; [done|done|done|].
  split; [|by destruct Hpc as [->|[->| ->]]]. destruct Hcl as [[_ ?]|[_ ?]]; [done|]. by right.
Qed.

Lemma rbd_step_inv s s' : rbd_step s s' → rbd_inv s → rbd_inv s'.
Proof.
  destruct 1 as [s id Hg|s id waits val st Hg Ho| | | | |s n st ids Ho| | |]; intros Hi;
    [..|by eapply call_keeps|by eapply sync_keeps|by eapply sync_complete_keeps].
  - destruct Hi as [Hok Hq]. split.
    + apply objects_with; [done|apply others_comp| |done].
      unfold create_completion. rewrite local_comp. destruct (Hok id) as [Hl _]. rewrite Hg in Hl.
      injection Hl as _ Hr. by rewrite Hr.
    + apply queue_keep; [done|done|by rewrite Hg|done|done].
  - destruct Hi as [Hok Hq]. pose proof (new_request_queue _ _ _ _ Ho).
    destruct (issue_async s id waits val Hok Hg) as (st' & Ho' & Hot & Hl).
    simplify_eq. split; [by apply objects_with|]. apply queue_keep; [done|done|by rewrite Hg|done|done].
  - by eapply complete_keeps.
  - by apply release_keeps.
  - by apply wait_keeps.
  - by apply wake_keeps.
  - destruct Hi as [Hok Hq]. split; [|by eapply poll_ok]. unfold poll_io_events in Ho.
    apply bind_Some in Ho as (? & _ & [= <- _]). exact Hok.
Qed.

Lemma rbd_reachable_inv s : rbd_reachable s → rbd_inv s.
Proof.
  intros [ev Hr]. assert (rbd_inv (rbd_start ev)) as H0.
  { split; [intros id; split; [done|]; intros g Hg; cbn [rbd_start s_clients] in Hg; by rewrite lookup_empty in Hg|].
    split.
    - apply NoDup_nil_2.
    - intros id. split; [by intros ?%elem_of_nil|by intros [_ ?]].
    - by intros id ?%elem_of_nil.
    - intros id w pc v _ Hg. cbn [rbd_start s_clients] in Hg. by rewrite lookup_empty in Hg. }
  remember (rbd_start ev) as s0 eqn:E. clear E. induction Hr as [|s1 s2 s3 Hs _ IH]; [done|].
  apply IH. by apply (rbd_step_inv s1).
Qed.

(** C17: completions are freed when, and only when, nobody uses them.  In every
    interleaving of clients that follow the protocol with the completing threads
    and polling, the client that holds a completion finds it alive, with the value
    of its request once that is done and the callback called exactly once; no step
    of the completing thread, no release and no wait touches freed memory; and when
    the client has released it and the thread has finished, both the completion
    and its request are gone. *)
Theorem completion_lifetime s id hold waits pc val :
  rbd_reachable s → s_clients s !! id = Some (Async hold waits pc val) →
  (hold = true → ∃ c, rb_comps (s_rbd s) !! id = Some c ∧ sc_called c = called_of pc val ∧
     (called_of pc val ≠ [] → sc_retval c = val)) ∧
  (∀ p v, pc = Some p → p ≠ AtEnd → p = AtStart ∨ v = val → is_Some (complete_step (s_rbd s) id true v p)) ∧
  (hold = true → is_Some (wait_begin (s_rbd s) id) ∧ (waits = 0%nat → pc ≠ None → is_Some (dec_and_free (s_rbd s) id))) ∧
  (hold = false → pc = Some AtEnd → rb_comps (s_rbd s) !! id = None ∧ rb_reqs (s_rbd s) !! id = None).
Proof.
  intros [Hok _]%rbd_reachable_inv Hg. destruct (client_objects _ _ _ Hok Hg) as (Hc & Hr & Hcl). split_and!.
  - intros ->. cbn [expected fst] in Hc. rewrite counted_pos in Hc by (by destruct pc as [[]|]).
    eexists. split; [exact Hc|]. split; [done|]. cbn [sc_retval]. by destruct (called_of pc val).
  - intros p v -> Hne Hv. destruct (complete_async s id hold waits p val v Hok Hg Hne Hv) as (st & pc' & -> & _).
    by eexists.
  - intros ->. split.
    + destruct (wait_async s id waits pc val Hok Hg) as (st & -> & _). by eexists.
    + intros -> Hpc. destruct pc as [p|]; [|done]. destruct (release_async s id p val Hok Hg) as (st & -> & _).
      by eexists.
  - intros -> ->. by rewrite Hc, Hr.
Qed.

(** C26: with polling every completion is delivered exactly once, after its callback,
    and those that are still in the queue are alive. *)
Theorem polled_once s :
  rbd_reachable s → rb_ev (s_rbd s) = true →
  NoDup (s_polled s ++ rb_completions (s_rbd s)) ∧
  (∀ id, id ∈ s_polled s ++ rb_completions (s_rbd s) ↔
     ∃ hold waits pc val, s_clients s !! id = Some (Async hold waits (Some pc) val) ∧
       pc ≠ AtStart ∧ pc ≠ AtCallback) ∧
  (∀ id, id ∈ rb_completions (s_rbd s) → is_Some (rb_comps (s_rbd s) !! id)).
Proof.
  intros [Hok Hq]%rbd_reachable_inv Hev. split; [apply (qo_nodup s Hq)|]. split.
  - intros id. rewrite (qo_in s Hq). split.
    + intros [_ Hi]. destruct (s_clients s !! id) as [[hold waits [pc|] val|]|] eqn:E; try done.
      exists hold, waits, pc, val. by destruct pc.
    + intros (hold & waits & pc & val & -> & H1 & H2). split; [done|]. by destruct pc.
  - intros id Hi. apply (qo_held s Hq) in Hi. destruct (s_clients s !! id) as [[hold waits pc val|]|] eqn:E; try done.
    cbn in Hi. subst. destruct (client_objects _ _ _ Hok E) as (-> & _ & _). cbn [expected fst].
    rewrite counted_pos by (by destruct pc as [[]|]). by eexists.
Qed.

(** A synchronous call never touches freed memory, and its request is freed at
    the end; the request of a discard is left behind with one reference. *)
Theorem sync_call_lifetime s id release todo pc :
  rbd_reachable s → s_clients s !! id = Some (Sync release todo pc) →
  (∀ op rest, todo = op :: rest → op = SWaitEnd → req_done_of pc = true → is_Some (sync_step (s_rbd s) id op)) ∧
  (∀ op rest, todo = op :: rest → op ≠ SWaitEnd → is_Some (sync_step (s_rbd s) id op)) ∧
  (∀ p v, pc = Some p → p ≠ AtEnd → is_Some (complete_step (s_rbd s) id false v p)) ∧
  (todo = [] → pc = Some AtEnd →
     rb_reqs (s_rbd s) !! id = if release then None else Some (mk_aio 1 true)).
Proof.
  intros [Hok _]%rbd_reachable_inv Hg. split_and!.
  - intros op rest -> Hop Hdn. destruct (sync_op_ok s id release op rest pc Hok Hg) as (st & -> & _); [done|by eexists].
  - intros op rest -> Hop. destruct (sync_op_ok s id release op rest pc Hok Hg) as (st & -> & _); [done|by eexists].
  - intros p v -> Hne. destruct (complete_sync s id release todo p v Hok Hg Hne) as (st & pc' & -> & _). by eexists.
  - intros -> ->. destruct (client_objects _ _ _ Hok Hg) as (_ & -> & _). by destruct release.
Qed.

(** A thread that waits while another releases: the count reaches zero in the wait,
    which does not free. *)
Definition rbd_wait_release : option lsvd_rbd :=
  let st := create_completion (mk_rbd false [] 0 ∅ ∅) 1 in
  st ← new_request st 1 true;
  st ← wait_begin st 1;
  '(st, pc) ← complete_step st 1 true 0 AtStart;
  '(st, pc) ← complete_step st 1 true 0 pc;
  '(st, pc) ← complete_step st 1 true 0 pc;
  '(st, pc) ← complete_step st 1 true 0 pc;
  st ← dec_and_free st 1;
  wait_end st 1.

Lemma wait_release_leaks :
  (λ st, sc_refs <$> rb_comps st !! 1) <$> rbd_wait_release = Some (Some 0).
Proof. reflexivity. Qed.

(** ** Repeated writes *)

(** The loop of [rbd_aio_writesame] *)
Fixpoint writesame_loop (fuel : nat) (buf : addr) (len data_len : nat) : list SmartIov.iovec :=
  match fuel with
  | O => []
  | S fuel =>
    if (0 <? len)%nat then
      let bytes := Nat.min len data_len in
      SmartIov.mk_iovec buf bytes :: writesame_loop fuel buf (len - bytes) data_len
    else []
  end.

(** [rbd_aio_writesame]: an array of [n] entries, which the loop must not overrun,
    and the vector that [rbd_aio_writev] makes of it. *)
Definition rbd_aio_writesame (buf : addr) (len data_len : nat) : option SmartIov.smartiov :=
  _ ← assert (negb (data_len =? 0)%nat);
  let n := div_round_up (Z.of_nat len) (Z.of_nat data_len) in
  let iov := writesame_loop len buf len data_len in
  _ ← assert (Z.of_nat (length iov) <=? n);
  Some (SmartIov.of_array iov).

(** [rbd_aio_write_zeroes]; [zeropage] is 4096 bytes. *)
Definition rbd_aio_write_zeroes (zeropage : addr) (len : nat) : option SmartIov.smartiov :=
  rbd_aio_writesame zeropage len 4096.

Lemma writesame_loop_ok buf data_len fuel : ∀ len,
  (0 < data_len)%nat → (len ≤ fuel)%nat →
  SmartIov.bytes_of (writesame_loop fuel buf len data_len) = len ∧
  Forall (λ v, (0 < SmartIov.iov_len v)%nat) (writesame_loop fuel buf len data_len) ∧
  (length (writesame_loop fuel buf len data_len) * data_len < len + data_len)%nat.
Proof.
  induction fuel as [|fuel IH]; intros len Hd Hl; simpl; [split_and!; [lia|constructor|lia]|].
  destruct (0 <? len)%nat eqn:E; zb; [|simpl; split_and!; [lia|constructor|lia]].
  destruct (IH (len - Nat.min len data_len)%nat Hd) as (Hb & Hf & Hn); [lia|].
  cbn [SmartIov.bytes_of SmartIov.iov_len length]. split_and!; [lia|constructor; [simpl; lia|done]|].
  destruct (decide (len ≤ data_len)%nat); [|lia].
  rewrite Nat.min_l in * by lia. rewrite Nat.sub_diag in *. destruct fuel; simpl in *; lia.
Qed.

Lemma writesame_loop_contents h buf data data_len fuel : ∀ len,
  (0 < data_len)%nat → (len ≤ fuel)%nat → mem_read h buf data_len = Some data →
  SmartIov.contents h (writesame_loop fuel buf len data_len) =
    Some (take len (mjoin (replicate (length (writesame_loop fuel buf len data_len)) data))).
Proof.
  intros len Hd Hl Hr. pose proof (mem_read_length _ _ _ _ Hr) as Hlen. revert len Hl.
  induction fuel as [|fuel IH]; intros len Hl; simpl; [by destruct len|].
  destruct (0 <? len)%nat eqn:E; zb; [|by replace len with 0%nat by lia].
  unfold SmartIov.contents. rewrite SmartIov.cells_cons, read_cells_app. cbn [SmartIov.iov_base SmartIov.iov_len].
  pose proof (mem_read_slice h buf data_len data 0 (Nat.min len data_len) Hr ltac:(lia)) as Hm.
  unfold SmartIov.contents in IH. rewrite (IH (len - Nat.min len data_len)%nat) by lia.
  replace (buf.1, buf.2 + Z.of_nat 0) with buf in Hm by (destruct buf; simpl; f_equal; lia).
  unfold mem_read in Hm. rewrite Hm. cbn [mbind option_bind length replicate].
  change (mjoin (data :: ?l)) with (data ++ mjoin l). rewrite take_app, Hlen. unfold slice. rewrite drop_0. do 2 f_equal.
  - destruct (decide (len ≤ data_len)%nat).
    + by rewrite Nat.min_l by lia.
    + rewrite Nat.min_r by lia. rewrite !take_ge by lia. done.
  - f_equal. lia.
Qed.

Lemma length_repeated {A} (l : list A) n : length (mjoin (replicate n l)) = (n * length l)%nat.
Proof.
  induction n as [|n IH]; [done|]. cbn [replicate]. change (mjoin (l :: ?k)) with (l ++ mjoin k).
  rewrite length_app, IH. lia.
Qed.



(** ** A client that polls *)

Tactic Notation "rbd_path" uconstr(c) := eapply rtc_l; [eapply c; try reflexivity; try (by left); try (by right)|cbn].

(** One completion, from [rbd_aio_create_completion] to its end, released when it
    has been polled. *)
Lemma demo_completion :
  ∃ s, rbd_reachable s ∧ s_clients s !! 1 = Some (Async false 0 (Some AtEnd) 512) ∧
    rb_ev (s_rbd s) = true ∧ s_polled s = [1].
Proof.
  eexists. split.
  { exists true. rbd_path (st_create _ 1). rbd_path (st_issue _ 1).
    rbd_path (st_complete _ 1 true 0 AtStart _ (-1) 512). rbd_path (st_complete _ 1 true 0 AtCallback _ 512 512).
    rbd_path (st_poll _ 8). rbd_path (st_complete _ 1 true 0 AtQueued _ 512 512).
    rbd_path (st_release _ 1). rbd_path (st_complete _ 1 false 0 AtDone _ 512 512).
    rbd_path (st_complete _ 1 false 0 AtReleased _ 512 512).
    rbd_path (st_complete _ 1 false 0 AtRequestDone _ 512 512). apply rtc_refl. }
  split; [reflexivity|]. split; reflexivity.
Qed.

Lemma completion_lifetime_witness :
  ∃ s, rbd_reachable s ∧ rb_comps (s_rbd s) !! 1 = None ∧ rb_reqs (s_rbd s) !! 1 = None.
Proof.
  destruct demo_completion as (s & Hr & Hg & _). exists s. split; [exact Hr|].
  destruct (completion_lifetime s 1 false 0 (Some AtEnd) 512 Hr Hg) as (_ & _ & _ & Hf).
  apply Hf; reflexivity.
Defined.

Lemma polled_once_witness :
  ∃ s, rbd_reachable s ∧ s_polled s = [1] ∧ NoDup (s_polled s ++ rb_completions (s_rbd s)).
Proof.
  destruct demo_completion as (s & Hr & _ & Hev & Hp). exists s. split; [exact Hr|]. split; [exact Hp|].
  destruct (polled_once s Hr Hev) as (Hnd & _). exact Hnd.
Defined.

(** A read and a discard. *)
Lemma demo_sync_read :
  ∃ s, rbd_reachable s ∧ s_clients s !! 1 = Some (Sync true [] (Some AtEnd)).
Proof.
  eexists. split.
  { exists false. rbd_path (st_call _ 1 true).
    rbd_path (st_sync _ 1 true SRun). rbd_path (st_sync _ 1 true SWaitBegin).
    rbd_path (st_sync_complete _ 1 true _ AtStart _ 0). rbd_path (st_sync_complete _ 1 true _ AtReleased _ 0).
    rbd_path (st_sync_complete _ 1 true _ AtRequestDone _ 0). rbd_path (st_sync _ 1 true SWaitEnd).
    rbd_path (st_sync _ 1 true SRelease). apply rtc_refl. }
  reflexivity.
Qed.

Lemma demo_discard :
  ∃ s, rbd_reachable s ∧ s_clients s !! 1 = Some (Sync false [] (Some AtEnd)).
Proof.
  eexists. split.
  { exists false. rbd_path (st_call _ 1 false).
    rbd_path (st_sync _ 1 false SRun). rbd_path (st_sync _ 1 false SWaitBegin).
    rbd_path (st_sync_complete _ 1 false _ AtStart _ 0). rbd_path (st_sync_complete _ 1 false _ AtReleased _ 0).
    rbd_path (st_sync _ 1 false SWaitEnd). rbd_path (st_sync_complete _ 1 false _ AtRequestDone _ 0).
    apply rtc_refl. }
  reflexivity.
Qed.

Lemma sync_call_lifetime_witness :
  (∃ s, rbd_reachable s ∧ rb_reqs (s_rbd s) !! 1 = None) ∧
  (∃ s, rbd_reachable s ∧ rb_reqs (s_rbd s) !! 1 = Some (mk_aio 1 true)).
Proof.
  destruct demo_sync_read as (s1 & Hr1 & Hg1). destruct demo_discard as (s2 & Hr2 & Hg2). split.
  - exists s1. split; [exact Hr1|].
    destruct (sync_call_lifetime s1 1 true [] (Some AtEnd) Hr1 Hg1) as (_ & _ & _ & H). apply H; reflexivity.
  - exists s2. split; [exact Hr2|].
    destruct (sync_call_lifetime s2 1 false [] (Some AtEnd) Hr2 Hg2) as (_ & _ & _ & H). apply H; reflexivity.
Defined.
